(* ===== verification/_CoqProject ===== *)
-Q . S2P
Prelude.v
Uint128.v
Clocks.v
Murmur.v
MessageQueue.v
QueueThreads.v
QueueManager.v
Collisions.v
Float32.v
FailureDetector.v
Endpoint.v
Node.v
Ring.v
Quorum.v
Messages.v
Connection.v
Dispatcher.v
Wire.v
Account.v
Auth.v
Transport.v
Client.v
ClientConnect.v
Login.v
Startup.v
Publish.v
EndToEnd.v
Server.v
System.v
Process.v
Network.v
NetworkLogin.v
NetworkPublish.v
