(* ===== verification/Prelude.v ===== *)
(** * A verification library for sopmq

    sopmq is a message queue served by a ring of nodes. A client logs in to a node
    and publishes a message; the node finds the three nodes responsible for the
    queue by the hash of its name and asks a quorum of them to queue the message. The
    vector clocks they answer with are to be merged into a stamp, which fixes the place of
    the message in the queue of a replica; the code merges them and goes no further, since
    [do_stamp_message] is empty.

    ** Parts, files and source

    Paths are under [src/]. Definitions keep the names of the code; a class is a
    record of its members, a member function is a function on that record.

    - [Prelude]: machine integers as [Z] with their wrap-around written out, the type
      of exceptions, the [outcome] of running code (a value, an exception, undefined
      behaviour) with its monad, sums over lists, tactics and hint databases.
    - [Uint128]: [thirdparty/src/uint128.h], [uint128.cpp], the keys of the ring.
    - [Murmur]: [thirdparty/src/MurmurHash3], [util::murmur_hash3], the hash of a name.
    - [Clocks]: [node/src/node_clock], [node/src/vector_clock.h].
    - [MessageQueue]: [node/src/queued_message.h], [node/src/message_queue.h], with the
      abstract queue [aqueue] it is proved to implement.
    - [QueueThreads]: the statements of the operations of [node/src/message_queue.h] and
      its lock, run by several threads.
    - [QueueManager]: [node/src/queue_manager.h].
    - [Collisions]: [Murmur] as a fold over 16-byte blocks of bijective steps, and what
      that means for the queues of [QueueManager].
    - [Float32]: what the rounding of the [float] operations does to positive normal
      numbers, for the failure detector.
    - [FailureDetector]: [node/src/failure_detector], in single-precision floats.
    - [Endpoint]: [shared/src/endpoint].
    - [Node]: Module [Settings] for [node/src/settings] and the options of
      [node/src/node-main.cpp]; Module [Node] for [node/src/node]. Nodes live in a
      heap, because the ring and the operations share them by pointer.
    - [Ring]: [node/src/ring].
    - [Quorum]: [node/src/quorum_logic.h], with the step relation [qstep] that
      interleaves the calls of [run] with the replies in every order, each counted as a
      success, a failure, or both.
    - [Messages]: the protocol messages ([messages/]), their types, the results of
      network operations, [node/src/operation_result.h], uuids as bytes.
    - [Connection]: [shared/src/connection_base]: connecting, closing, identifiers.
    - [Dispatcher]: [shared/src/message_dispatcher], one definition for the twelve
      generated overloads.
    - [Wire]: [shared/src/messageutil], [shared/src/netutil], the framing on a stream.
    - [Account]: [node/src/user_account], [node/src/cassandra_storage] and its
      asynchronous helpers, against the interface [user_store] of the database.
    - [Auth]: [node/src/connection_in],
      [node/src/csunauthenticated] and the reading half of [node/src/csauthenticated]:
      one connection into a node, driven by events in any order.
    - [Client]: Modules [ClusterEndpoint], [ConnectionError], [Cluster] (with its
      builder) and [Session] for [client/cpp/src].
    - [Transport]: [Wire] under [Auth]: a connection fed with bytes in any segments.
    - [ClientConnect]: Modules [ClientSettings], [RandomSelector] and [ClusterConnection]
      for [client/cpp/src/settings], [shared/src/random_selector.h] and
      [client/cpp/src/cluster_connection]; [Cluster] and [Connection] together.
    - [Login]: the client of [Client] and the node of [Auth] run against each other.
    - [Startup]: Modules [NodeMain] for [node/src/node-main.cpp] and [NodeTool] for
      [node/src/nodetool-main.cpp], against the interface [option_parser].
    - [Publish]: [node/src/local_node_operations] and
      [csauthenticated::handle_post_message], which composes [Murmur], [Ring], [Node],
      [QueueManager], [Quorum] and [Clocks].
    - [EndToEnd]: [Login] and [Publish] together, from the client's publish to its callback.
    - [Server]: [node/src/server], and the ring a new server has.
    - [System]: a node process: [Server], any number of connections of [Auth], and
      [Publish] on the queues they share, under one event loop.
    - [Process]: [System] with [Transport] under every connection: a process whose
      sockets receive bytes.
    - [Network]: a link of two byte streams between two processes of an interface
      [peer], with the session of [Client] and the process of [System] as its instances.
    - [NetworkLogin], [NetworkPublish]: a login, and a login with a publish, on that link.

    ** What the theorems show

    - Queues: on every run with fresh ids and stamps that the comparison orders strictly
      and weakly (anything else is undefined for a [std::multimap]), the queue is defined and
      implements an abstract queue; it keeps its delivery order whatever is removed, two
      replicas with the same stamped messages deliver them in the same order; expiry drops
      only expired messages, and those at the front; queues of a manager are independent of
      each other, and names that differ within one 16-byte block have different queues. On
      several threads, a queue whose TTL is set is linearizable in what its calls do and
      return, and every schedule ends, unless [total_count], which takes no lock, races.
    - Clocks: on a chain the comparison is a strict total order that is dominance, the
      merge is the least upper bound, clocks from before and after a change of quorum
      stay ordered.
    - Ring and quorum: the nodes of a key, what a joining node takes over, which nodes
      form a quorum; every quorum operation ends with a verdict in every interleaving,
      with both verdicts only when a reply was counted twice, and two successful ones share
      a node; every reply the publish handler gets is one of the steps of that logic.
    - Protocol: framing round trip and totality of the reader on every input; whatever
      bytes arrive, in whatever segments, a connection does what some sequence of messages
      would make it do; no publish is handed on before an answer to the challenge that is
      current when it comes which the code accepts ([Auth.accepted_answer]; an account is
      not needed for one of them); a login to an enabled account succeeds exactly with the
      right password, from the client's call to the node's state, and an account made with
      the node tool can log in; the exit status of the tool says what was done.
    - The process: every message in a queue of a node was published on a connection that
      had sent an accepted answer before, in every interleaving of the connections, in the
      state an exception leaves too; and over bytes, on any number of sockets and in any segments, the process does what some
      sequence of messages would make it do, whose frames are what arrived.
    - The network: in every schedule of bytes, completions and tasks on both sides, a
      login of an enabled account ends within a bound with one verdict, the right one, and
      so does a login followed by a publish, with what the client learns and what the node
      is left with, also when the handler of the publish ends the process, as it does on the
      ring of a lone server. The session is closed instead exactly when the response is read
      before the write of its request is reported complete.
    - Client: connecting tries one live endpoint and calls its handler once, with a
      session exactly when the network allows; request identifiers do not repeat.
    - Publishing: what a local enqueue does, what the replies of the nodes do, what the
      client learns of its publish.
    - Libraries of the code: 128-bit arithmetic against [Z], division, parsing and
      printing, bounds of the hash, URIs, backoff, the window of the failure detector and
      that its verdict is that of the exact phi up to one part in 2^18.
    - Some theorems and lemmas state where the code differs from what it means to do:
      that no publish is ever stamped, that a publish on the ring of a lone server is
      undefined, that the third node of a quorum is not tried, that an answered request
      stays registered, that a session reads one message only, that an unknown user is
      admitted, that the comparison of clocks can be cyclic, that messages can be lost while
      the first enqueue of a queue sets the TTL, that a count of messages can be torn, that
      a publish can succeed and be reported as failed.

    ** Conventions, bounds and fuel

    Time is an argument, in nanoseconds; random choices, the content of memory that is
    not initialised, and code outside the repository (serialisers, SHA-256, the
    database and its driver, [boost::lexical_cast], the option parser) are arguments,
    with what is relied on as hypotheses or as the laws of a class. The two loops of the 128-bit division have the fuel 128 and 129, and the
    division is proved to return for every divisor but zero. The multiplication runs
    its 128 iterations. [Wire.read_loop] has
    a bound on the number of messages, at least the number written in the round trip.
    [Publish.call_function] nests one call per slot of the quorum: three slots, fuel 4.
    [QueueThreads.finish] runs the statements of one call with [rank], their number, as
    fuel. [Transport.drain] has one more than the number of bytes, since every read takes
    at least two.
    The schedules of [Network] have no fuel: their length is bounded by the [weight] of
    the configuration, which every move lowers.
    The other recursions are structural.

    ** Not modelled

    Threads outside [QueueThreads] (each operation is one step; completions of
    asynchronous operations interleave), logging, gossip and connections between nodes
    (empty classes in the source: a call of the operations of another node is undefined),
    faults of the network inside [Network] other than a side closing its socket (elsewhere
    any read or write may fail at any time), the members of [message_queue] that do not
    compile when they are used ([peek] and [claim] lock the pointer to the mutex, [claim]
    erases through an index entry, [next_expiry] returns nothing), and the lifetime of
    objects held by shared pointers. In [Network] a handler without a defined effect is
    taken to end the process. *)

From stdpp Require Import base list gmap sorting strings.
From Stdlib Require Import ZArith Lia.

Declare Scope sopmq_scope.
Delimit Scope sopmq_scope with sopmq.
Local Open Scope Z_scope.

Create HintDb word.
Create Rewrite HintDb word.

(** ** Machine integers

    A w-bit unsigned value is a [Z] in [0, 2^w); every C++ operation that can
    leave that interval is followed by the wrap-around written out here. *)

Definition wrap (w x : Z) : Z := x mod 2 ^ w.

(** Conversion of a value to a signed w-bit integer (two's complement). *)
Definition swrap (w x : Z) : Z := (x + 2 ^ (w - 1)) mod 2 ^ w - 2 ^ (w - 1).

(** [~x] on w-bit unsigned values. *)
Definition bnot (w x : Z) : Z := Z.lxor x (Z.ones w).

Definition in_width (w x : Z) : Prop := 0 <= x < 2 ^ w.

Abbreviation u8 := (wrap 8).
Abbreviation u16 := (wrap 16).
Abbreviation u32 := (wrap 32).
Abbreviation u64 := (wrap 64).
Abbreviation i32 := (swrap 32).

#[global] Instance in_width_dec w x : Decision (in_width w x).
Proof. unfold in_width. apply _. Defined.

Lemma wrap_width w x : 0 <= w -> in_width w (wrap w x).
Proof. intros Hw. apply Z.mod_pos_bound. lia. Qed.

Lemma wrap_small w x : in_width w x -> wrap w x = x.
Proof. intros H. apply Z.mod_small, H. Qed.

Lemma wrap_wrap w x : wrap w (wrap w x) = wrap w x.
Proof. apply Zmod_mod. Qed.

Lemma wrap_add_l w x y : wrap w (wrap w x + y) = wrap w (x + y).
Proof. apply Zplus_mod_idemp_l. Qed.

Lemma wrap_add_r w x y : wrap w (x + wrap w y) = wrap w (x + y).
Proof. apply Zplus_mod_idemp_r. Qed.

Lemma wrap_mul_l w x y : wrap w (wrap w x * y) = wrap w (x * y).
Proof. apply Zmult_mod_idemp_l. Qed.

Lemma wrap_mul_r w x y : wrap w (x * wrap w y) = wrap w (x * y).
Proof. apply Zmult_mod_idemp_r. Qed.

Lemma wrap_sub_l w x y : wrap w (wrap w x - y) = wrap w (x - y).
Proof. apply Zminus_mod_idemp_l. Qed.

Lemma wrap_sub_r w x y : wrap w (x - wrap w y) = wrap w (x - y).
Proof. apply Zminus_mod_idemp_r. Qed.

#[export] Hint Rewrite wrap_wrap wrap_add_l wrap_add_r wrap_mul_l wrap_mul_r
  wrap_sub_l wrap_sub_r : word.
#[export] Hint Resolve wrap_width : word.

Lemma wrap_unique w x r k : in_width w r -> x = r + k * 2 ^ w -> wrap w x = r.
Proof.
  intros Hr ->. unfold wrap. rewrite Z_mod_plus_full. by apply Z.mod_small.
Qed.

Lemma wrap_split w x : 0 <= w -> exists k, x = wrap w x + k * 2 ^ w.
Proof.
  intros Hw. exists (x / 2 ^ w). unfold wrap.
  pose proof (Z.div_mod x (2 ^ w) ltac:(lia)). lia.
Qed.

(** A wrapped sum overflowed exactly when it is smaller than an operand: the
    carry test used by [uint128::operator+=]. *)
Lemma wrap_add_carry w x y :
  0 <= w -> in_width w x -> in_width w y ->
  x + y = wrap w (x + y) + (if wrap w (x + y) <? x then 2 ^ w else 0).
Proof.
  unfold in_width, wrap. intros Hw Hx Hy.
  destruct (Z_lt_dec (x + y) (2 ^ w)).
  - rewrite Z.mod_small by lia. destruct (Z.ltb_spec (x + y) x); lia.
  - assert ((x + y) mod 2 ^ w = x + y - 2 ^ w) as ->.
    { symmetry. apply Z.mod_unique with 1; lia. }
    destruct (Z.ltb_spec (x + y - 2 ^ w) x); lia.
Qed.

(** ** Bitwise reasoning *)

Lemma testbit_wrap w x i : 0 <= w ->
  Z.testbit (wrap w x) i = (i <? w) && Z.testbit x i.
Proof.
  intros Hw. unfold wrap. destruct (Z.ltb_spec i w) as [Hi|Hi]; simpl.
  - destruct (Z_lt_dec i 0); [by rewrite !Z.testbit_neg_r by lia|].
    apply Z.mod_pow2_bits_low; lia.
  - apply Z.mod_pow2_bits_high; lia.
Qed.

Lemma testbit_ones w i : 0 <= w ->
  Z.testbit (Z.ones w) i = (0 <=? i) && (i <? w).
Proof. intros. by rewrite Z.testbit_ones by lia. Qed.

Lemma testbit_shiftl x n i : Z.testbit (Z.shiftl x n) i = (0 <=? i) && Z.testbit x (i - n).
Proof.
  destruct (Z.leb_spec 0 i); simpl; [by apply Z.shiftl_spec|].
  by apply Z.testbit_neg_r.
Qed.

Lemma testbit_shiftr x n i : Z.testbit (Z.shiftr x n) i = (0 <=? i) && Z.testbit x (i + n).
Proof.
  destruct (Z.leb_spec 0 i); simpl; [by apply Z.shiftr_spec|].
  by apply Z.testbit_neg_r.
Qed.

Lemma testbit_above w x i : in_width w x -> w <= i -> Z.testbit x i = false.
Proof.
  intros Hx Hi. unfold in_width in Hx.
  assert (0 <= w). { destruct (Z_lt_dec w 0); [|lia]. rewrite Z.pow_neg_r in Hx; lia. }
  rewrite <- (wrap_small w x Hx), testbit_wrap by lia.
  by destruct (Z.ltb_spec i w); [lia|].
Qed.

Lemma in_width_bits w x : 0 <= w -> 0 <= x ->
  (forall i, w <= i -> Z.testbit x i = false) -> in_width w x.
Proof.
  intros Hw Hx Hb. split; [done|].
  enough (x = wrap w x) as -> by (apply wrap_width; lia).
  apply Z.bits_inj'. intros i Hi. rewrite testbit_wrap by lia.
  destruct (Z.ltb_spec i w); simpl; [done|]. by apply Hb.
Qed.

Lemma lor_width w x y : in_width w x -> in_width w y -> in_width w (Z.lor x y).
Proof.
  intros Hx Hy. destruct (Z_lt_dec w 0) as [|Hw].
  { unfold in_width in *. rewrite Z.pow_neg_r in * by lia. lia. }
  apply in_width_bits; [lia| apply Z.lor_nonneg; unfold in_width in *; lia|].
  intros i Hi. by rewrite Z.lor_spec, (testbit_above w x), (testbit_above w y).
Qed.

Lemma lxor_width w x y : in_width w x -> in_width w y -> in_width w (Z.lxor x y).
Proof.
  intros Hx Hy. destruct (Z_lt_dec w 0) as [|Hw].
  { unfold in_width in *. rewrite Z.pow_neg_r in * by lia. lia. }
  apply in_width_bits; [lia| apply Z.lxor_nonneg; unfold in_width in *; lia|].
  intros i Hi. by rewrite Z.lxor_spec, (testbit_above w x), (testbit_above w y).
Qed.

Lemma land_width w x y : in_width w x -> 0 <= y -> in_width w (Z.land x y).
Proof.
  intros Hx Hy. destruct (Z_lt_dec w 0) as [|Hw].
  { unfold in_width in *. rewrite Z.pow_neg_r in * by lia. lia. }
  apply in_width_bits; [lia| apply Z.land_nonneg; unfold in_width in *; lia|].
  intros i Hi. by rewrite Z.land_spec, (testbit_above w x).
Qed.

Lemma shiftr_width w x n : in_width w x -> 0 <= n -> in_width w (Z.shiftr x n).
Proof.
  unfold in_width. intros Hx Hn. rewrite Z.shiftr_div_pow2 by lia.
  assert (0 < 2 ^ n) by lia.
  split; [apply Z.div_pos; lia|].
  apply Z.le_lt_trans with x; [|lia]. apply Z.div_le_upper_bound; nia.
Qed.

Lemma bnot_width w x : 0 <= w -> in_width w x -> in_width w (bnot w x).
Proof.
  intros Hw Hx. apply lxor_width; [done|].
  unfold in_width. rewrite Z.ones_equiv. lia.
Qed.

Lemma bnot_eq w x : 0 <= w -> in_width w x -> bnot w x = 2 ^ w - 1 - x.
Proof.
  intros Hw Hx. unfold bnot.
  assert (Z.lxor x (Z.ones w) = Z.ldiff (Z.ones w) x) as ->.
  { apply Z.bits_inj'. intros i Hi.
    rewrite Z.lxor_spec, Z.ldiff_spec, testbit_ones by lia.
    destruct (Z.leb_spec 0 i), (Z.ltb_spec i w); simpl; try lia.
    - by rewrite xorb_true_r.
    - by rewrite (testbit_above w x) by (done || lia). }
  assert (Z.land (Z.ones w) x = x) as Hl.
  { rewrite Z.land_comm, Z.land_ones by lia. by apply Z.mod_small. }
  pose proof (Z.sub_nocarry_ldiff (Z.ones w) x) as H.
  rewrite <- H.
  - rewrite Z.ones_equiv. lia.
  - apply Z.bits_inj'. intros i Hi.
    rewrite Z.ldiff_spec, testbit_ones, Z.bits_0 by lia.
    destruct (Z.leb_spec 0 i), (Z.ltb_spec i w); simpl; try lia;
      rewrite ?andb_false_r, ?andb_true_r; try done.
    by apply (testbit_above w).
Qed.

#[export] Hint Resolve lor_width lxor_width land_width shiftr_width bnot_width : word.

(** Rewrites every [Z.testbit] of a compound expression to bits of its leaves
    and splits on the index comparisons that remain. *)
Ltac zbits_step :=
  first
    [ rewrite Z.lor_spec | rewrite Z.land_spec | rewrite Z.lxor_spec
    | rewrite testbit_shiftl | rewrite testbit_shiftr
    | rewrite testbit_wrap by lia | rewrite testbit_ones by lia
    | rewrite Z.bits_0 ].

Ltac zbits_cmp :=
  match goal with
  | |- context [?a <=? ?b] => destruct (Z.leb_spec a b); simpl; try lia
  | |- context [?a <? ?b] => destruct (Z.ltb_spec a b); simpl; try lia
  end.

Tactic Notation "zbits" ident(i) :=
  apply Z.bits_inj'; intros i ?; repeat zbits_step; repeat zbits_cmp.

(** ** Exceptions and outcomes

    The C++ exceptions the program throws. A payload replaces the formatted
    text of [what()]: it holds the values the message is built from. *)

Inductive exn :=
| comparison_error (what : string)
| id_conflict_error (node_id : Z)
| range_conflict_error (node_id : Z) (held_by : Z)
| unavailable_error (what : string)
| uri_parse_error (what : string)
| invalid_protocol_error (what : string)
| network_error (what : string)
| storage_error (what : string)
| message_not_found_error (what : string)
| domain_error (what : string)
| logic_error (what : string)
| runtime_error (what : string)
| bad_function_call.

#[global] Instance exn_eq_dec : EqDecision exn.
Proof. solve_decision. Defined.

(** The constructors of [network_error] without a text, and from the message of an error
    code. *)
Definition network_error_new : exn := network_error "".
Definition network_error_of_code (message : string) : exn := network_error message.

(** The result of running a piece of code: a value, an exception, or undefined
    behaviour of the language (a null dereference, an invalid iterator). *)
Inductive outcome (A : Type) :=
| Ret (a : A)
| Throw (e : exn)
| Undef.
Arguments Ret {_} _.
Arguments Throw {_} _.
Arguments Undef {_}.

Definition obind {A B} (m : outcome A) (f : A -> outcome B) : outcome B :=
  match m with
  | Ret a => f a
  | Throw e => Throw e
  | Undef => Undef
  end.

Notation "x <~ m ;; k" := (obind m (fun x => k))
  (at level 100, m at next level, right associativity) : sopmq_scope.

Lemma obind_ret_inv {A B} (m : outcome A) (f : A -> outcome B) b :
  obind m f = Ret b -> exists a, m = Ret a /\ f a = Ret b.
Proof. destruct m; naive_solver. Qed.

Definition is_ret {A} (m : outcome A) : bool :=
  match m with Ret _ => true | _ => false end.

(** ** Shared list facts *)

Definition sumZ {A} (f : A -> Z) (l : list A) : Z := foldr (fun x acc => f x + acc) 0 l.

Lemma sumZ_cons {A} (f : A -> Z) x l : sumZ f (x :: l) = f x + sumZ f l.
Proof. reflexivity. Qed.

Lemma sumZ_app {A} (f : A -> Z) l k : sumZ f (l ++ k) = sumZ f l + sumZ f k.
Proof. induction l; simpl in *; lia. Qed.

Lemma sumZ_perm {A} (f : A -> Z) l k : l ≡ₚ k -> sumZ f l = sumZ f k.
Proof. induction 1; simpl in *; lia. Qed.

#[global] Instance sumZ_proper {A} (f : A -> Z) : Proper ((≡ₚ) ==> eq) (sumZ f).
Proof. intros l k. apply sumZ_perm. Qed.

Lemma sumZ_ext {A} (f g : A -> Z) l : (forall x, x ∈ l -> f x = g x) -> sumZ f l = sumZ g l.
Proof.
  intros H. induction l as [|a l IH]; [done|]. simpl. rewrite H by set_solver. rewrite IH; [done|]. set_solver.
Qed.

Lemma sumZ_nonneg {A} (f : A -> Z) l : (forall x, 0 <= f x) -> 0 <= sumZ f l.
Proof. intros Hf. induction l as [|a l]; simpl; [lia|]. specialize (Hf a). lia. Qed.

Lemma sumZ_zero {A} (f : A -> Z) l : (forall x, x ∈ l -> f x = 0) -> sumZ f l = 0.
Proof.
  intros H. induction l as [|a l IH]; [done|]. simpl.
  rewrite H by set_solver. rewrite IH; [done|]. set_solver.
Qed.

Lemma sumZ_pos {A} (f : A -> Z) l x : (forall x, 0 <= f x) -> x ∈ l -> 0 < f x -> 0 < sumZ f l.
Proof.
  intros Hf Hx Hp. induction l as [|a l IH]; [set_solver|]. simpl.
  pose proof (sumZ_nonneg f l Hf). pose proof (Hf a).
  apply elem_of_cons in Hx as [->|Hx]; [lia|]. specialize (IH Hx). lia.
Qed.

Lemma sumZ_insert {A} (f : A -> Z) l i x y : l !! i = Some x -> sumZ f (<[i := y]> l) = sumZ f l - f x + f y.
Proof.
  revert i. induction l as [|z l IH]; intros [|i] H; simplify_eq/=; [lia|]. rewrite (IH i H). lia.
Qed.

Lemma sumZ_filter {A} (f : A -> Z) (P : A -> bool) l :
  sumZ f (filter (fun x => P x = false) l) = sumZ f l - sumZ (fun x => if P x then f x else 0) l.
Proof.
  induction l as [|x l IH]; [done|]. rewrite filter_cons, !sumZ_cons.
  destruct (P x) eqn:E; case_decide; simplify_eq; rewrite ?sumZ_cons; lia.
Qed.

#[global] Arguments sumZ : simpl never.

Lemma StronglySorted_lookup {A} {R : relation A} (l : list A) i j a b :
  StronglySorted R l -> l !! i = Some a -> l !! j = Some b -> (i < j)%nat -> R a b.
Proof.
  intros Hs. revert i j. induction Hs as [|x l Hs IH Hf]; intros i j Hi Hj Hlt; [done|].
  destruct j as [|j]; [lia|]. destruct i as [|i]; simplify_eq/=.
  - rewrite Forall_forall in Hf. apply Hf. by eapply list_elem_of_lookup_2.
  - apply (IH i j); [done..|lia].
Qed.

Lemma NoDup_fmap_inj_on {A B} (f : A -> B) (l : list A) x y :
  NoDup (f <$> l) -> x ∈ l -> y ∈ l -> f x = f y -> x = y.
Proof.
  intros Hnd Hx Hy E. apply list_elem_of_lookup in Hx as [i Hi]. apply list_elem_of_lookup in Hy as [j Hj].
  assert (i = j) as ->; [|congruence].
  apply (NoDup_lookup _ _ _ (f x) Hnd); rewrite list_lookup_fmap; [by rewrite Hi|by rewrite Hj, E].
Qed.

Lemma filter_all {A} (P : A -> Prop) `{!forall x, Decision (P x)} (l : list A) :
  (forall x, x ∈ l -> P x) -> filter P l = l.
Proof.
  induction l as [|x l IH]; intros HP; [done|].
  rewrite filter_cons_True by set_solver. f_equal. apply IH. set_solver.
Qed.

Lemma filter_none {A} (P : A -> Prop) `{!forall x, Decision (P x)} (l : list A) :
  (forall x, x ∈ l -> ~ P x) -> filter P l = [].
Proof.
  induction l as [|x l IH]; intros HP; [done|].
  rewrite filter_cons_False by (apply HP; by left). apply IH. intros y Hy. apply HP. by right.
Qed.

Lemma fmap_filter_agree {A B} (f : A -> B) (P : A -> Prop) (Q : B -> Prop)
    `{!forall x, Decision (P x)} `{!forall x, Decision (Q x)} (l : list A) :
  (forall x, x ∈ l -> P x <-> Q (f x)) -> f <$> filter P l = filter Q (f <$> l).
Proof.
  induction l as [|x l IH]; intros HP; [done|]. rewrite fmap_cons, !filter_cons.
  assert (P x <-> Q (f x)) as Hx by (apply HP; by left).
  assert (f <$> filter P l = filter Q (f <$> l)) as IHl by (apply IH; intros y Hy; apply HP; by right).
  destruct (decide (P x)) as [p|np], (decide (Q (f x))) as [q|nq]; [|by destruct nq; apply Hx|by destruct np; apply Hx|done].
  rewrite fmap_cons. by f_equal.
Qed.

Lemma filter_out_perm {A B} `{!EqDecision B} (f : A -> B) (l : list A) x :
  NoDup (f <$> l) -> x ∈ l -> l ≡ₚ x :: filter (fun y => f y <> f x) l.
Proof.
  induction l as [|y l IH]; [by intros _ ?%not_elem_of_nil|].
  rewrite fmap_cons, NoDup_cons, elem_of_cons. intros [Hn Hnd] [->|Hx].
  - rewrite filter_cons_False by naive_solver. f_equiv. rewrite filter_all; [done|].
    intros z Hz E. apply Hn. rewrite <- E. by apply list_elem_of_fmap_2.
  - rewrite filter_cons_True.
    + rewrite Permutation_swap. f_equiv. auto.
    + intros E. apply Hn. rewrite E. by apply list_elem_of_fmap_2.
Qed.

(** Case analysis on every boolean test of the goal and the hypotheses. *)
Ltac split_tests :=
  repeat match goal with
  | |- context [if ?b then _ else _] => let E := fresh "E" in destruct b eqn:E; simpl in *
  | H : context [if ?b then _ else _] |- _ => let E := fresh "E" in destruct b eqn:E; simpl in *
  end.

Ltac zify_tests :=
  repeat match goal with
  | H : (_ =? _) = true |- _ => apply Z.eqb_eq in H
  | H : (_ =? _) = false |- _ => apply Z.eqb_neq in H
  | H : (_ <? _) = true |- _ => apply Z.ltb_lt in H
  | H : (_ <? _) = false |- _ => apply Z.ltb_ge in H
  | H : (_ <=? _) = true |- _ => apply Z.leb_le in H
  | H : (_ <=? _) = false |- _ => apply Z.leb_gt in H
  | H : negb _ = true |- _ => apply negb_true_iff in H
  | H : negb _ = false |- _ => apply negb_false_iff in H
  | H : (_ && _) = true |- _ => apply andb_true_iff in H as [? ?]
  | H : (_ || _) = false |- _ => apply orb_false_iff in H as [? ?]
  end.
