(* ===== verification/Uint128.v ===== *)
(** * The 128-bit unsigned integer class

    Models [thirdparty/src/uint128.h] and [uint128.cpp]: the two 64-bit halves,
    every operator with its carries and masks, the shift-and-subtract division,
    the parser and the printer. [to_Z] is the abstraction function; the lemmas
    [*_spec] refine each operator to arithmetic modulo 2^128. *)


From Stdlib Require Import ZArith Lia Ascii String.
From stdpp Require Import base countable list strings.
From S2P Require Import Prelude.

Local Open Scope Z_scope.
Local Open Scope sopmq_scope.

Module Uint128.

Record uint128 := U128 { lo : Z; hi : Z }.

#[global] Instance uint128_eq_dec : EqDecision uint128.
Proof. solve_decision. Defined.

#[global] Instance uint128_countable : Countable uint128.
Proof.
  apply (inj_countable' (fun a => (lo a, hi a)) (fun p => U128 p.1 p.2)).
  by intros [].
Defined.

(** Number of bits of the type. *)
Definition size : Z := 128.

(** ** Constructors *)

Definition uint128_zero : uint128 := U128 0 0.

Definition uint128_of_int (value : Z) : uint128 :=
  U128 (u64 value) (if value <? 0 then u64 (-1) else 0).

Definition uint128_of_base (value : Z) : uint128 := U128 value 0.

(** ** Comparison *)

Definition eqb (a o : uint128) : bool := (hi a =? hi o) && (lo a =? lo o).

Definition ltb (a o : uint128) : bool :=
  if hi a =? hi o then lo a <? lo o else hi a <? hi o.

(** [boost::totally_ordered] derives the other comparisons from these two. *)
Definition geb (a o : uint128) : bool := negb (ltb a o).
Definition neqb (a o : uint128) : bool := negb (eqb a o).

(** ** Unary operators *)

Definition lognot (a : uint128) : bool := negb (negb (hi a =? 0) || negb (lo a =? 0)).

Definition bitnot (a : uint128) : uint128 := U128 (bnot 64 (lo a)) (bnot 64 (hi a)).

Definition add (a b : uint128) : uint128 :=
  let old_lo := lo a in
  let lo' := u64 (lo a + lo b) in
  let hi' := u64 (hi a + hi b) in
  U128 lo' (if lo' <? old_lo then u64 (hi' + 1) else hi').

Definition neg (a : uint128) : uint128 := add (bitnot a) (uint128_of_int 1).

Definition incr (a : uint128) : uint128 :=
  let lo' := u64 (lo a + 1) in
  U128 lo' (if lo' =? 0 then u64 (hi a + 1) else hi a).

Definition decr (a : uint128) : uint128 :=
  U128 (u64 (lo a - 1)) (if lo a =? 0 then u64 (hi a - 1) else hi a).

Definition sub (a b : uint128) : uint128 := add a (neg b).

Definition bor (a b : uint128) : uint128 := U128 (Z.lor (lo a) (lo b)) (Z.lor (hi a) (hi b)).
Definition band (a b : uint128) : uint128 := U128 (Z.land (lo a) (lo b)) (Z.land (hi a) (hi b)).
Definition bxor (a b : uint128) : uint128 := U128 (Z.lxor (lo a) (lo b)) (Z.lxor (hi a) (hi b)).

Definition to_integer (a : uint128) : Z := i32 (lo a).
Definition to_base_type (a : uint128) : Z := lo a.

(** ** Shifts *)

Definition shl (a rhs : uint128) : uint128 :=
  let n := u32 (to_integer rhs) in
  if size <=? n then U128 0 0
  else
    let halfsize := size / 2 in
    let '(n, l, h) := if halfsize <=? n then (n - halfsize, 0, lo a) else (n, lo a, hi a) in
    if n =? 0 then U128 l h
    else
      let mask := bnot 64 (Z.shiftr (u64 (-1)) n) in
      let h' := u64 (Z.shiftl h n) in
      U128 (u64 (Z.shiftl l n)) (Z.lor h' (Z.shiftr (Z.land l mask) (halfsize - n))).

Definition shr (a rhs : uint128) : uint128 :=
  let n := u32 (to_integer rhs) in
  if size <=? n then U128 0 0
  else
    let halfsize := size / 2 in
    let '(n, l, h) := if halfsize <=? n then (n - halfsize, hi a, 0) else (n, lo a, hi a) in
    if n =? 0 then U128 l h
    else
      let mask := bnot 64 (u64 (Z.shiftl (u64 (-1)) n)) in
      let l' := Z.shiftr l n in
      U128 (Z.lor l' (u64 (Z.shiftl (Z.land h mask) (halfsize - n)))) (Z.shiftr h n).

(** ** Multiplication: the shift-and-add loop of [operator*=] *)

Fixpoint mul_loop (iters : nat) (i : Z) (a t this : uint128) : uint128 :=
  match iters with
  | O => this
  | S iters =>
    let this :=
      if neqb (band t (uint128_of_int 1)) (uint128_of_int 0)
      then add this (shl a (uint128_of_base i)) else this in
    mul_loop iters (i + 1) a (shr t (uint128_of_int 1)) this
  end.

Definition mul (this b : uint128) : uint128 :=
  if eqb b (uint128_of_int 0) then U128 0 0
  else if neqb b (uint128_of_int 1) then mul_loop (Z.to_nat size) 0 this b (U128 0 0)
  else this.

(** ** Division: the two loops of [divide]

    [Undef] marks exhausted fuel; [divide_spec] shows that it is never reached. *)

Fixpoint divide_align (fuel : nat) (n d x : uint128) : outcome (uint128 * uint128) :=
  match fuel with
  | O => Undef
  | S fuel =>
    if geb n d && eqb (band (shr d (uint128_of_int 127)) (uint128_of_int 1)) (uint128_of_int 0)
    then divide_align fuel n (shl d (uint128_of_int 1)) (shl x (uint128_of_int 1))
    else Ret (d, x)
  end.

Fixpoint divide_reduce (fuel : nat) (n d x answer : uint128) : outcome (uint128 * uint128) :=
  match fuel with
  | O => Undef
  | S fuel =>
    if neqb x (uint128_of_int 0)
    then
      let '(n, answer) := if geb n d then (sub n d, bor answer x) else (n, answer) in
      divide_reduce fuel n (shr d (uint128_of_int 1)) (shr x (uint128_of_int 1)) answer
    else Ret (answer, n)
  end.

(** The pair (quotient, remainder). *)
Definition divide (numerator denominator : uint128) : outcome (uint128 * uint128) :=
  if eqb denominator (uint128_of_int 0) then Throw (domain_error "divide by zero")
  else
    dx <~ divide_align 128 numerator denominator (uint128_of_int 1);;
    divide_reduce 129 numerator dx.1 dx.2 (uint128_of_int 0).

Definition div (this b : uint128) : outcome uint128 := qr <~ divide this b;; Ret qr.1.
Definition modulo (this b : uint128) : outcome uint128 := qr <~ divide this b;; Ret qr.2.

(** ** Printing *)

Definition digit_table : string := "0123456789abcdefghijklmnopqrstuvwxyz".

(** The characters [table[0] .. table[36]]: index 36 is the literal's NUL. *)
Definition digit_char (d : Z) : ascii :=
  default Ascii.zero (String.get (Z.to_nat d) digit_table).

(** [i] is the index of the buffer; the loop stops when it reaches 0. *)
Fixpoint to_string_loop (i : nat) (radix : Z) (ii : uint128) (buf : list ascii)
    : outcome (list ascii) :=
  match i with
  | O => Ret buf
  | S i =>
    if neqb ii (uint128_of_int 0)
    then
      qr <~ divide ii (uint128_of_base radix);;
      to_string_loop i radix qr.1 (digit_char (to_integer qr.2) :: buf)
    else Ret buf
  end.

(** A C string ends at its first NUL. *)
Fixpoint c_str (l : list ascii) : list ascii :=
  match l with
  | [] => []
  | c :: l => if decide (c = Ascii.zero) then [] else c :: c_str l
  end.

Definition to_string (this : uint128) (radix : Z) : outcome string :=
  if eqb this (uint128_of_int 0) then Ret "0"%string
  else if (radix <? 2) || (37 <? radix) then Ret "(invalid radix)"%string
  else
    buf <~ to_string_loop (Z.to_nat (size - 1)) radix this [];;
    Ret (String.string_of_list_ascii (c_str buf)).

(** [std::ostream << uint128]: the stream's base field selects the radix. *)
Inductive basefield := Hex | Dec | Oct | NoBase.

Definition ostream_put (flags : basefield) (n : uint128) : outcome string :=
  match flags with
  | Hex => to_string n 16
  | Dec => to_string n 10
  | Oct => to_string n 8
  | NoBase => to_string n 10
  end.

(** ** Parsing: the constructor from a string *)

Definition code (c : ascii) : Z := Z.of_nat (Ascii.nat_of_ascii c).

(** The value of a digit in the radix, or [None] where the loop breaks. *)
Definition digit_value (radix : Z) (ch : ascii) : option Z :=
  let c := code ch in
  if (65 <=? c) && (c <=? 90) then
    if c - 65 + 10 <? radix then Some (c - 65 + 10) else None
  else if (97 <=? c) && (c <=? 122) then
    if c - 97 + 10 <? radix then Some (c - 97 + 10) else None
  else if (48 <=? c) && (c <=? 57) then
    if c - 48 <? radix then Some (c - 48) else None
  else None.

Fixpoint parse_digits (radix : Z) (s : list ascii) (this : uint128) : uint128 :=
  match s with
  | [] => this
  | ch :: s =>
    match digit_value radix ch with
    | Some n => parse_digits radix s (add (mul this (uint128_of_int radix)) (uint128_of_base n))
    | None => this
    end
  end.

Definition parse_radix (s : list ascii) : Z * list ascii :=
  match s with
  | "0"%char :: "x"%char :: s => (16, s)
  | "0"%char :: s => (8, s)
  | s => (10, s)
  end.

Definition uint128_of_list (sz : list ascii) : uint128 :=
  let '(minus, s) := match sz with "-"%char :: s => (true, s) | s => (false, s) end in
  let '(radix, s) := parse_radix s in
  let v := parse_digits radix s uint128_zero in
  if minus : bool then neg v else v.

Definition uint128_of_string (sz : string) : uint128 :=
  uint128_of_list (String.list_ascii_of_string sz).

(** [std::hash<uint128>], over the library's 64-bit hash [h]. *)
Definition hash (h : Z -> Z) (k : uint128) : Z := u64 (3 * h (lo k) + h (hi k)).

(** ** The abstraction: values below 2^128 *)

Definition wf (a : uint128) : Prop := in_width 64 (lo a) /\ in_width 64 (hi a).
Definition to_Z (a : uint128) : Z := hi a * 2 ^ 64 + lo a.
Definition of_Z (z : Z) : uint128 := U128 (u64 z) (u64 (z / 2 ^ 64)).

#[global] Instance wf_dec a : Decision (wf a).
Proof. unfold wf. apply _. Defined.

Lemma to_Z_width a : wf a -> in_width 128 (to_Z a).
Proof. intros [Hl Hh]. unfold in_width, to_Z in *. lia. Qed.

Lemma of_Z_wf z : wf (of_Z z).
Proof. split; simpl; apply wrap_width; lia. Qed.

Lemma to_Z_of_Z z : to_Z (of_Z z) = wrap 128 z.
Proof.
  unfold to_Z, of_Z, wrap; simpl.
  pose proof (Z.rem_mul_r z (2 ^ 64) (2 ^ 64)) as H.
  change (2 ^ 128) with (2 ^ 64 * 2 ^ 64). rewrite H by lia. lia.
Qed.

Lemma to_Z_inj a b : wf a -> wf b -> to_Z a = to_Z b -> a = b.
Proof.
  destruct a as [al ah], b as [bl bh]. unfold wf, in_width, to_Z; simpl.
  intros [? ?] [? ?] ?. f_equal; lia.
Qed.

Lemma of_Z_to_Z a : wf a -> of_Z (to_Z a) = a.
Proof.
  intros Ha. apply to_Z_inj; [apply of_Z_wf|done|].
  rewrite to_Z_of_Z. by apply wrap_small, to_Z_width.
Qed.

Lemma eqb_spec a b : wf a -> wf b -> eqb a b = (to_Z a =? to_Z b).
Proof.
  unfold wf, in_width, eqb, to_Z. intros [? ?] [? ?].
  destruct (Z.eqb_spec (hi a) (hi b)), (Z.eqb_spec (lo a) (lo b)); simpl;
    symmetry; rewrite ?Z.eqb_eq, ?Z.eqb_neq; lia.
Qed.

Lemma ltb_spec a b : wf a -> wf b -> ltb a b = (to_Z a <? to_Z b).
Proof.
  unfold wf, in_width, ltb, to_Z. intros [? ?] [? ?].
  destruct (Z.eqb_spec (hi a) (hi b)).
  - destruct (Z.ltb_spec (lo a) (lo b)); symmetry; rewrite ?Z.ltb_lt, ?Z.ltb_ge; lia.
  - destruct (Z.ltb_spec (hi a) (hi b)); symmetry; rewrite ?Z.ltb_lt, ?Z.ltb_ge; lia.
Qed.

Lemma wf_of_int v : wf (uint128_of_int v).
Proof.
  split; simpl; [apply wrap_width; lia|].
  destruct (v <? 0); [apply wrap_width; lia|]. unfold in_width; lia.
Qed.

Lemma to_Z_of_int v : 0 <= v < 2 ^ 64 -> to_Z (uint128_of_int v) = v.
Proof.
  intros Hv. unfold to_Z, uint128_of_int; simpl.
  destruct (Z.ltb_spec v 0); [lia|]. rewrite wrap_small by done. lia.
Qed.

Lemma wf_of_base v : in_width 64 v -> wf (uint128_of_base v).
Proof. intros Hv. split; simpl; [done|]. unfold in_width; lia. Qed.

Lemma to_Z_of_base v : to_Z (uint128_of_base v) = v.
Proof. unfold to_Z; simpl; lia. Qed.

#[local] Hint Resolve wf_of_int wf_of_base of_Z_wf : word.

(** *** Addition, negation, subtraction *)

Lemma add_wf a b : wf (add a b).
Proof. split; simpl; [apply wrap_width; lia|]. case_match; apply wrap_width; lia. Qed.

Lemma add_spec a b : wf a -> wf b -> to_Z (add a b) = wrap 128 (to_Z a + to_Z b).
Proof.
  intros [Hla Hha] [Hlb Hhb].
  pose proof (wrap_add_carry 64 (lo a) (lo b) ltac:(lia) Hla Hlb) as Hc.
  destruct (wrap_split 64 (hi a + hi b)) as [k Hk]; [lia|].
  destruct (wrap_split 64 (u64 (hi a + hi b) + 1)) as [k' Hk']; [lia|].
  symmetry. apply wrap_unique with (if u64 (lo a + lo b) <? lo a then k + k' else k).
  { apply to_Z_width, add_wf. }
  unfold to_Z, add; simpl. destruct (u64 (lo a + lo b) <? lo a); lia.
Qed.

Lemma bitnot_wf a : wf a -> wf (bitnot a).
Proof. intros [? ?]. split; simpl; apply bnot_width; (lia || done). Qed.

Lemma bitnot_spec a : wf a -> to_Z (bitnot a) = 2 ^ 128 - 1 - to_Z a.
Proof. intros [? ?]. unfold to_Z; simpl. rewrite !bnot_eq by (lia || done). lia. Qed.

Lemma neg_wf a : wf (neg a).
Proof. apply add_wf. Qed.

Lemma neg_spec a : wf a -> to_Z (neg a) = wrap 128 (- to_Z a).
Proof.
  intros Ha. unfold neg. rewrite add_spec, bitnot_spec, to_Z_of_int by (eauto using bitnot_wf, wf_of_int || lia).
  destruct (wrap_split 128 (- to_Z a)) as [k Hk]; [lia|].
  apply wrap_unique with (k + 1); [apply wrap_width; lia|lia].
Qed.

Lemma sub_spec a b : wf a -> wf b -> to_Z (sub a b) = wrap 128 (to_Z a - to_Z b).
Proof.
  intros Ha Hb. unfold sub. rewrite add_spec, neg_spec by eauto using neg_wf.
  by rewrite wrap_add_r.
Qed.

Lemma incr_spec a : wf a -> to_Z (incr a) = wrap 128 (to_Z a + 1).
Proof.
  intros [Hl Hh]. destruct (wrap_split 64 (lo a + 1)) as [k Hk]; [lia|].
  destruct (wrap_split 64 (hi a + 1)) as [k' Hk']; [lia|].
  pose proof (wrap_width 64 (lo a + 1) ltac:(lia)) as W.
  pose proof (wrap_width 64 (hi a + 1) ltac:(lia)) as W'.
  unfold in_width in *.
  symmetry. apply wrap_unique with (if u64 (lo a + 1) =? 0 then k' else 0);
    unfold in_width, to_Z, incr; simpl; destruct (Z.eqb_spec (u64 (lo a + 1)) 0); lia.
Qed.

Lemma decr_spec a : wf a -> to_Z (decr a) = wrap 128 (to_Z a - 1).
Proof.
  intros [Hl Hh]. destruct (wrap_split 64 (lo a - 1)) as [k Hk]; [lia|].
  destruct (wrap_split 64 (hi a - 1)) as [k' Hk']; [lia|].
  pose proof (wrap_width 64 (lo a - 1) ltac:(lia)) as W.
  pose proof (wrap_width 64 (hi a - 1) ltac:(lia)) as W'.
  unfold in_width in *.
  symmetry. apply wrap_unique with (if lo a =? 0 then k' else 0);
    unfold in_width, to_Z, decr; simpl; destruct (Z.eqb_spec (lo a) 0); lia.
Qed.

(** *** Bits of a value *)

Lemma lor_add_disjoint x y : Z.land x y = 0 -> Z.lor x y = x + y.
Proof. intros H. rewrite <- Z.lxor_lor by done. symmetry. by apply Z.add_nocarry_lxor. Qed.

Lemma testbit_to_Z a i : wf a ->
  Z.testbit (to_Z a) i = if i <? 64 then Z.testbit (lo a) i else Z.testbit (hi a) (i - 64).
Proof.
  intros [Hl Hh]. unfold to_Z. rewrite <- Z.shiftl_mul_pow2 by lia.
  rewrite <- lor_add_disjoint.
  - rewrite Z.lor_spec, testbit_shiftl. destruct (Z.ltb_spec i 64).
    + rewrite (Z.testbit_neg_r (hi a)) by lia. by rewrite andb_false_r.
    + rewrite (testbit_above 64 (lo a)), orb_false_r by (done || lia).
      by destruct (Z.leb_spec 0 i); [|lia].
  - zbits j. destruct (Z.ltb_spec j 64).
    + by rewrite (Z.testbit_neg_r (hi a)) by lia.
    + by rewrite (testbit_above 64 (lo a)), andb_false_r by (done || lia).
Qed.

Lemma bor_spec a b : wf a -> wf b -> wf (bor a b) /\ to_Z (bor a b) = Z.lor (to_Z a) (to_Z b).
Proof.
  intros [Hla Hha] [Hlb Hhb]. assert (wf (bor a b)) as Hw.
  { split; simpl; by apply lor_width. }
  split; [done|]. zbits i. rewrite !testbit_to_Z by (done || by split).
  destruct (Z.ltb_spec i 64); simpl; by rewrite Z.lor_spec.
Qed.

Lemma band_spec a b : wf a -> wf b -> wf (band a b) /\ to_Z (band a b) = Z.land (to_Z a) (to_Z b).
Proof.
  intros [Hla Hha] [Hlb Hhb]. unfold in_width in Hlb, Hhb. assert (wf (band a b)) as Hw.
  { split; simpl; apply land_width; (done || lia). }
  split; [done|]. zbits i. rewrite !testbit_to_Z by (done || by split).
  destruct (Z.ltb_spec i 64); simpl; by rewrite Z.land_spec.
Qed.

Lemma bxor_spec a b : wf a -> wf b -> wf (bxor a b) /\ to_Z (bxor a b) = Z.lxor (to_Z a) (to_Z b).
Proof.
  intros [Hla Hha] [Hlb Hhb]. assert (wf (bxor a b)) as Hw.
  { split; simpl; by apply lxor_width. }
  split; [done|]. zbits i. rewrite !testbit_to_Z by (done || by split).
  destruct (Z.ltb_spec i 64); simpl; by rewrite Z.lxor_spec.
Qed.

(** *** Shifts *)

Lemma shift_count_small n : 0 <= n < 2 ^ 31 ->
  u32 (to_integer (uint128_of_int n)) = n /\ u32 (to_integer (uint128_of_base n)) = n.
Proof.
  intros Hn. unfold to_integer, uint128_of_int, uint128_of_base; simpl.
  rewrite (wrap_small 64) by (unfold in_width; lia).
  assert (i32 n = n) as ->.
  { unfold swrap. rewrite Z.mod_small; lia. }
  split; apply wrap_small; unfold in_width; lia.
Qed.

(** One half-word step of [<<=] and [>>=]: shifting a pair of halves by 0 < n < 64. *)
Lemma shl_step l h n : in_width 64 l -> in_width 64 h -> 0 < n < 64 ->
  let mask := bnot 64 (Z.shiftr (u64 (-1)) n) in
  let r := U128 (u64 (Z.shiftl l n)) (Z.lor (u64 (Z.shiftl h n)) (Z.shiftr (Z.land l mask) (64 - n))) in
  wf r /\ to_Z r = wrap 128 (Z.shiftl (to_Z (U128 l h)) n).
Proof.
  intros Hl Hh Hn mask r.
  assert (in_width 64 mask) as Hm.
  { apply bnot_width; [lia|]. apply shiftr_width; [|lia]. apply wrap_width; lia. }
  assert (wf r) as Hw.
  { split; simpl; [apply wrap_width; lia|].
    apply lor_width; [apply wrap_width; lia|]. apply shiftr_width; [|lia].
    apply land_width; [done|]. unfold in_width in Hm; lia. }
  split; [done|]. zbits i; rewrite ?testbit_to_Z by done.
  all: unfold r, mask, bnot; simpl; repeat zbits_step.
  all: change (u64 (-1)) with (Z.ones 64); repeat zbits_step.
  all: repeat zbits_cmp; rewrite ?andb_true_r, ?andb_false_r, ?orb_false_r; try done.
  all: try (f_equal; lia).
  rewrite (Z.testbit_neg_r h) by lia. simpl. f_equal. lia.
Qed.

Lemma shr_step l h n : in_width 64 l -> in_width 64 h -> 0 < n < 64 ->
  let mask := bnot 64 (u64 (Z.shiftl (u64 (-1)) n)) in
  let r := U128 (Z.lor (Z.shiftr l n) (u64 (Z.shiftl (Z.land h mask) (64 - n)))) (Z.shiftr h n) in
  wf r /\ to_Z r = Z.shiftr (to_Z (U128 l h)) n.
Proof.
  intros Hl Hh Hn mask r.
  assert (wf r) as Hw.
  { split; simpl; [|apply shiftr_width; (done || lia)].
    apply lor_width; [apply shiftr_width; (done || lia)|apply wrap_width; lia]. }
  split; [done|]. zbits i; rewrite ?testbit_to_Z by done.
  all: unfold r, mask, bnot; simpl; repeat zbits_step.
  all: change (u64 (-1)) with (Z.ones 64); repeat zbits_step.
  all: repeat zbits_cmp; rewrite ?andb_true_r, ?andb_false_r, ?orb_false_r; try done.
  all: try (f_equal; lia).
  rewrite (Z.testbit_neg_r (-1)), (testbit_above 64 l) by (done || lia). simpl.
  rewrite andb_true_r. f_equal. lia.
Qed.

(** Shifts by the count [n] that the code extracts from its operand. *)
Lemma shl_spec a rhs n : wf a -> u32 (to_integer rhs) = n ->
  wf (shl a rhs) /\ to_Z (shl a rhs) = wrap 128 (Z.shiftl (to_Z a) n).
Proof.
  intros [Hl Hh] <-. pose proof (wrap_width 32 (to_integer rhs) ltac:(lia)) as Hn.
  unfold shl. set (n := u32 (to_integer rhs)) in *. unfold in_width in Hn.
  unfold size. change (128 / 2) with 64.
  destruct (Z.leb_spec 128 n) as [Hbig|Hbig].
  { split; [done|]. change (to_Z (U128 0 0)) with 0. symmetry. zbits i.
    apply Z.testbit_neg_r; lia. }
  assert (to_Z a = to_Z (U128 (lo a) (hi a))) as -> by by destruct a.
  destruct (Z.leb_spec 64 n) as [Hhalf|Hhalf].
  - assert (wrap 128 (Z.shiftl (to_Z (U128 (lo a) (hi a))) n)
      = wrap 128 (Z.shiftl (to_Z (U128 0 (lo a))) (n - 64))) as ->.
    { zbits i. rewrite !testbit_to_Z by (split; simpl; unfold in_width in *; lia).
      simpl. repeat zbits_cmp; rewrite ?Z.bits_0; try done; [|f_equal; lia].
      by rewrite Z.testbit_neg_r by lia. }
    destruct (Z.eqb_spec (n - 64) 0) as [->|]; simpl.
    + rewrite Z.shiftl_0_r. assert (wf (U128 0 (lo a))) by (split; simpl; unfold in_width in *; lia).
      split; [done|]. symmetry. by apply wrap_small, to_Z_width.
    + apply shl_step; unfold in_width in *; lia.
  - destruct (Z.eqb_spec n 0) as [->|]; simpl.
    + rewrite Z.shiftl_0_r. split; [done|]. symmetry. by apply wrap_small, to_Z_width.
    + apply shl_step; unfold in_width in *; lia.
Qed.

Lemma shr_spec a rhs n : wf a -> u32 (to_integer rhs) = n ->
  wf (shr a rhs) /\ to_Z (shr a rhs) = Z.shiftr (to_Z a) n.
Proof.
  intros [Hl Hh] <-. pose proof (wrap_width 32 (to_integer rhs) ltac:(lia)) as Hn.
  unfold shr. set (n := u32 (to_integer rhs)) in *. unfold in_width in Hn.
  unfold size. change (128 / 2) with 64.
  destruct (Z.leb_spec 128 n) as [Hbig|Hbig].
  { split; [done|]. change (to_Z (U128 0 0)) with 0. symmetry. zbits i.
    rewrite testbit_to_Z by done. zbits_cmp. by rewrite (testbit_above 64) by (done || lia). }
  assert (to_Z a = to_Z (U128 (lo a) (hi a))) as -> by by destruct a.
  destruct (Z.leb_spec 64 n) as [Hhalf|Hhalf].
  - assert (Z.shiftr (to_Z (U128 (lo a) (hi a))) n
      = Z.shiftr (to_Z (U128 (hi a) 0)) (n - 64)) as ->.
    { zbits i. rewrite !testbit_to_Z by (split; simpl; unfold in_width in *; lia).
      simpl. repeat zbits_cmp; rewrite ?Z.bits_0; try done; [f_equal; lia|].
      by rewrite (testbit_above 64) by (done || lia). }
    destruct (Z.eqb_spec (n - 64) 0) as [->|]; simpl.
    + by rewrite Z.shiftr_0_r.
    + apply shr_step; unfold in_width in *; lia.
  - destruct (Z.eqb_spec n 0) as [->|]; simpl.
    + by rewrite Z.shiftr_0_r.
    + apply shr_step; unfold in_width in *; lia.
Qed.

Lemma shl1_spec a : wf a ->
  wf (shl a (uint128_of_int 1)) /\ to_Z (shl a (uint128_of_int 1)) = wrap 128 (2 * to_Z a).
Proof.
  intros Ha. destruct (shl_spec a (uint128_of_int 1) 1 Ha) as [Hw ->]; [done|].
  split; [done|]. rewrite Z.shiftl_mul_pow2 by lia. f_equal. lia.
Qed.

Lemma shr1_spec a : wf a ->
  wf (shr a (uint128_of_int 1)) /\ to_Z (shr a (uint128_of_int 1)) = to_Z a / 2.
Proof.
  intros Ha. destruct (shr_spec a (uint128_of_int 1) 1 Ha) as [Hw ->]; [done|].
  split; [done|]. by rewrite Z.shiftr_div_pow2 by lia.
Qed.

(** The low-bit test [(t & 1) != 0]. *)
Lemma low_bit_spec t : wf t ->
  neqb (band t (uint128_of_int 1)) (uint128_of_int 0) = Z.odd (to_Z t).
Proof.
  intros Ht. destruct (band_spec t (uint128_of_int 1)) as [Hw Hb]; [done|apply wf_of_int|].
  unfold neqb. rewrite eqb_spec by eauto using wf_of_int. rewrite Hb.
  rewrite !to_Z_of_int by lia. change 1 with (Z.ones 1).
  rewrite Z.land_ones by lia. change (2 ^ 1) with 2.
  rewrite Zmod_odd. by destruct (Z.odd (to_Z t)).
Qed.

(** *** Multiplication *)

Lemma mul_loop_spec iters i a t this :
  wf a -> wf t -> wf this -> 0 <= i -> i + Z.of_nat iters <= 128 ->
  to_Z t < 2 ^ Z.of_nat iters ->
  wf (mul_loop iters i a t this) /\
  to_Z (mul_loop iters i a t this) = wrap 128 (to_Z this + to_Z a * 2 ^ i * to_Z t).
Proof.
  revert i t this. induction iters as [|k IH]; intros i t this Ha Ht Hs Hi Hik Hb; simpl.
  { split; [done|]. apply to_Z_width in Ht as Ht'. unfold in_width in Ht'.
    assert (to_Z t = 0) as -> by lia.
    rewrite Z.mul_0_r, Z.add_0_r. symmetry. by apply wrap_small, to_Z_width. }
  rewrite low_bit_spec by done.
  destruct (shr1_spec t Ht) as [Ht2 Et2].
  destruct (shl_spec a (uint128_of_base i) i Ha) as [Hs2 Es2].
  { apply shift_count_small; lia. }
  pose proof (Z.div_mod (to_Z t) 2 ltac:(lia)) as Hdm. rewrite Zmod_odd in Hdm.
  set (this' := if Z.odd (to_Z t) then _ else _).
  assert (wf this' /\ to_Z this' = wrap 128 (to_Z this + (if Z.odd (to_Z t) then to_Z a * 2 ^ i else 0)))
    as [Hw' E'].
  { unfold this'. destruct (Z.odd (to_Z t)).
    - split; [apply add_wf|]. rewrite add_spec, Es2, wrap_add_r by done.
      by rewrite Z.shiftl_mul_pow2 by lia.
    - split; [done|]. rewrite Z.add_0_r. symmetry. by apply wrap_small, to_Z_width. }
  destruct (IH (i + 1) (shr t (uint128_of_int 1)) this') as [IHw IHe]; try done; try lia.
  { rewrite Et2. rewrite Nat2Z.inj_succ, Z.pow_succ_r in Hb by lia.
    apply Z.div_lt_upper_bound; lia. }
  split; [done|]. rewrite IHe, E', wrap_add_l, Et2, Z.pow_add_r by lia.
  f_equal. destruct (Z.odd (to_Z t)); nia.
Qed.

Lemma mul_spec a b : wf a -> wf b ->
  wf (mul a b) /\ to_Z (mul a b) = wrap 128 (to_Z a * to_Z b).
Proof.
  intros Ha Hb. unfold mul, neqb. rewrite !eqb_spec by eauto using wf_of_int.
  rewrite !to_Z_of_int by lia.
  destruct (Z.eqb_spec (to_Z b) 0) as [->|]; [by rewrite Z.mul_0_r|].
  destruct (Z.eqb_spec (to_Z b) 1) as [->|]; simpl negb; cbn iota.
  { split; [done|]. rewrite Z.mul_1_r. symmetry. by apply wrap_small, to_Z_width. }
  destruct (mul_loop_spec (Z.to_nat size) 0 a b (U128 0 0)) as [Hw ->]; try done.
  { apply to_Z_width, Hb. }
  split; [done|]. change (to_Z (U128 0 0)) with 0. f_equal. lia.
Qed.

(** *** Division *)

Lemma top_bit_spec d : wf d ->
  eqb (band (shr d (uint128_of_int 127)) (uint128_of_int 1)) (uint128_of_int 0)
  = (to_Z d <? 2 ^ 127).
Proof.
  intros Hd. destruct (shr_spec d (uint128_of_int 127) 127 Hd) as [Hw E]; [done|].
  pose proof (low_bit_spec _ Hw) as Hb. unfold neqb in Hb.
  apply (f_equal negb) in Hb. rewrite negb_involutive in Hb. rewrite Hb, E.
  apply to_Z_width in Hd. unfold in_width in Hd.
  rewrite Z.shiftr_div_pow2 by lia.
  destruct (Z.ltb_spec (to_Z d) (2 ^ 127)).
  - by rewrite Z.div_small by lia.
  - assert (to_Z d / 2 ^ 127 = 1) as -> by (symmetry; apply Z.div_unique with (to_Z d - 2 ^ 127); lia).
    done.
Qed.

Lemma geb_spec a b : wf a -> wf b -> geb a b = (to_Z b <=? to_Z a).
Proof. intros. unfold geb. rewrite ltb_spec by done. symmetry. apply Z.leb_antisym. Qed.

(** The first loop doubles the divisor until it exceeds half the range or the
    numerator: it stops within the fuel, at d0 * 2^k with x = 2^k. *)
Lemma divide_align_spec fuel n d0 d x k :
  wf n -> wf d -> wf x -> 0 <= k -> 0 < d0 ->
  to_Z d = d0 * 2 ^ k -> to_Z x = 2 ^ k -> k < 128 -> 128 <= Z.of_nat fuel + k ->
  exists d' x' k', divide_align fuel n d x = Ret (d', x') /\
    wf d' /\ wf x' /\ 0 <= k' < 128 /\ to_Z d' = d0 * 2 ^ k' /\ to_Z x' = 2 ^ k' /\
    to_Z n < 2 * to_Z d'.
Proof.
  revert d x k. induction fuel as [|fuel IH]; intros d x k Hn Hd Hx Hk Hd0 Ed Ex Hk' Hf; [lia|].
  simpl. rewrite geb_spec, top_bit_spec by done.
  pose proof (to_Z_width _ Hn) as Wn. pose proof (to_Z_width _ Hd) as Wd.
  unfold in_width in Wn, Wd.
  destruct (Z.leb_spec (to_Z d) (to_Z n)); simpl.
  2:{ exists d, x, k. split_and!; (done || lia). }
  destruct (Z.ltb_spec (to_Z d) (2 ^ 127)); simpl.
  2:{ exists d, x, k. split_and!; (done || lia). }
  destruct (shl1_spec d Hd) as [Hd' Ed']. destruct (shl1_spec x Hx) as [Hx' Ex'].
  assert (k < 127).
  { apply (Z.pow_lt_mono_r_iff 2); [lia|lia|].
    apply Z.le_lt_trans with (d0 * 2 ^ k); [|lia]. assert (0 < 2 ^ k) by lia. nia. }
  rewrite (wrap_small 128) in Ed' by (unfold in_width; lia).
  assert (2 ^ k < 2 ^ 127) by (apply Z.pow_lt_mono_r; lia).
  rewrite (wrap_small 128) in Ex' by (unfold in_width; lia).
  destruct (IH _ _ (k + 1) Hn Hd' Hx') as (d' & x' & k' & ? & ?); try lia.
  - rewrite Ed', Ed, Z.pow_add_r by lia. lia.
  - rewrite Ex', Ex, Z.pow_add_r by lia. lia.
  - exists d', x', k'. done.
Qed.

Lemma lor_pow2_multiple q k : 0 <= k -> Z.lor (q * 2 ^ (k + 1)) (2 ^ k) = q * 2 ^ (k + 1) + 2 ^ k.
Proof.
  intros Hk. apply lor_add_disjoint. rewrite <- Z.shiftl_mul_pow2 by lia.
  rewrite <- (Z.mul_1_l (2 ^ k)), <- Z.shiftl_mul_pow2 by lia.
  zbits i. destruct (Z_lt_dec i (k + 1)).
  - by rewrite (Z.testbit_neg_r q) by lia.
  - rewrite (testbit_above 1 1), andb_false_r by (unfold in_width; lia). done.
Qed.

(** The second loop: restoring division, one quotient bit per iteration. The
    state before the iteration for bit [k] is (n, d0 * 2^k, 2^k, q * 2^(k+1)). *)
Lemma divide_reduce_spec fuel n0 d0 n d x answer k q :
  wf n -> wf d -> wf x -> wf answer -> -1 <= k < 128 -> 0 < d0 ->
  to_Z d = (if k =? -1 then d0 / 2 else d0 * 2 ^ k) ->
  to_Z x = (if k =? -1 then 0 else 2 ^ k) ->
  to_Z answer = q * 2 ^ (k + 1) -> n0 = to_Z n + to_Z answer * d0 ->
  to_Z n < d0 * 2 ^ (k + 1) -> k + 1 < Z.of_nat fuel ->
  exists answer' n', divide_reduce fuel n d x answer = Ret (answer', n') /\
    wf answer' /\ wf n' /\ n0 = to_Z n' + to_Z answer' * d0 /\ to_Z n' < d0.
Proof.
  revert n d x answer k q.
  induction fuel as [|fuel IH]; intros n d x answer k q Hn Hd Hx Ha Hk Hd0 Ed Ex Ea En Hlt Hf; [lia|].
  simpl. unfold neqb. rewrite eqb_spec, to_Z_of_int by (eauto using wf_of_int || lia).
  pose proof (to_Z_width _ Hn) as Wn. pose proof (to_Z_width _ Ha) as Wa.
  unfold in_width in Wn, Wa.
  destruct (Z.eqb_spec k (-1)) as [->|Hne].
  { rewrite Ex. simpl. exists answer, n. split_and!; try done.
    change (-1 + 1) with 0 in Hlt. lia. }
  assert (0 < 2 ^ k) by (apply Z.pow_pos_nonneg; lia).
  destruct (Z.eqb_spec (to_Z x) 0); [lia|]. simpl.
  rewrite geb_spec by done.
  destruct (shr1_spec d Hd) as [Hd' Ed']. destruct (shr1_spec x Hx) as [Hx' Ex'].
  destruct (bor_spec answer x Ha Hx) as [Hbw Hb].
  rewrite Ea, Ex, lor_pow2_multiple in Hb by lia.
  assert (2 ^ (k + 1) = 2 * 2 ^ k) as Hp by (rewrite Z.pow_add_r by lia; lia).
  assert (to_Z (shr d (uint128_of_int 1)) = (if k - 1 =? -1 then d0 / 2 else d0 * 2 ^ (k - 1))
    /\ to_Z (shr x (uint128_of_int 1)) = (if k - 1 =? -1 then 0 else 2 ^ (k - 1))) as [Ed2 Ex2].
  { rewrite Ed', Ed, Ex', Ex. destruct (Z.eqb_spec (k - 1) (-1)) as [Hk0|].
    - assert (k = 0) as -> by lia. change (2 ^ 0) with 1. by rewrite Z.mul_1_r.
    - assert (2 ^ k = 2 ^ (k - 1) * 2) as -> by (rewrite Z.mul_comm, <- Z.pow_succ_r by lia; f_equal; lia).
      split; [rewrite Z.mul_assoc|]; by rewrite Z.div_mul by lia. }
  destruct (Z.leb_spec (to_Z d) (to_Z n)).
  - apply (IH _ _ _ _ (k - 1) (2 * q + 1)); try done; try lia.
    + apply add_wf.
    + rewrite Hb. replace (k - 1 + 1) with k by lia. lia.
    + rewrite sub_spec, wrap_small, Hb by (done || (unfold in_width; apply to_Z_width in Hd; unfold in_width in Hd; lia)).
      lia.
    + replace (k - 1 + 1) with k by lia.
      rewrite sub_spec, wrap_small by (done || (unfold in_width; apply to_Z_width in Hd; unfold in_width in Hd; lia)).
      lia.
  - apply (IH _ _ _ _ (k - 1) (2 * q)); try done; try lia.
    + replace (k - 1 + 1) with k by lia. lia.
    + replace (k - 1 + 1) with k by lia. lia.
Qed.

Lemma divide_spec n d : wf n -> wf d -> to_Z d <> 0 ->
  exists q r, divide n d = Ret (q, r) /\ wf q /\ wf r /\
    to_Z q = to_Z n / to_Z d /\ to_Z r = to_Z n mod to_Z d.
Proof.
  intros Hn Hd Hd0. unfold divide.
  pose proof (to_Z_width _ Hd) as Wd. pose proof (to_Z_width _ Hn) as Wn. unfold in_width in Wd, Wn.
  rewrite eqb_spec, to_Z_of_int by (eauto using wf_of_int || lia).
  destruct (Z.eqb_spec (to_Z d) 0); [done|].
  destruct (divide_align_spec 128 n (to_Z d) d (uint128_of_int 1) 0)
    as (d' & x' & k & -> & Hd' & Hx' & Hk & Ed & Ex & Hlt); try done; try lia.
  cbn [obind fst snd].
  destruct (divide_reduce_spec 129 (to_Z n) (to_Z d) n d' x' (uint128_of_int 0) k 0)
    as (q & r & -> & Hq & Hr & Eq & Hrd); try done; try lia.
  - by destruct (Z.eqb_spec k (-1)); [lia|].
  - by destruct (Z.eqb_spec k (-1)); [lia|].
  - rewrite to_Z_of_int; lia.
  - rewrite Z.pow_add_r by lia. lia.
  - exists q, r. pose proof (to_Z_width _ Hr) as Wr. unfold in_width in Wr.
    split_and!; try done.
    + apply Z.div_unique with (to_Z r); lia.
    + apply Z.mod_unique with (to_Z q); lia.
Qed.

(** *** Printing and parsing *)

(** The number denoted by a list of digits, most significant first. *)
Definition digits_value (radix : Z) (ds : list Z) (acc : Z) : Z :=
  fold_left (fun acc d => acc * radix + d) ds acc.

Lemma code_digit_char d : 0 <= d < 36 ->
  code (digit_char d) = if d <? 10 then 48 + d else 87 + d.
Proof.
  intros Hd.
  assert (Forall (fun d => code (digit_char d) = if d <? 10 then 48 + d else 87 + d) (seqZ 0 36)) as H.
  { apply (bool_decide_unpack _). by vm_compute. }
  rewrite Forall_forall in H. apply H, elem_of_seqZ. lia.
Qed.

Lemma digit_value_char radix d : 0 <= d < radix -> radix <= 36 ->
  digit_value radix (digit_char d) = Some d.
Proof.
  intros Hd Hr. unfold digit_value. rewrite code_digit_char by lia.
  destruct (Z.ltb_spec d 10).
  - destruct (Z.leb_spec 65 (48 + d)), (Z.leb_spec 97 (48 + d)); try lia; simpl.
    destruct (Z.leb_spec 48 (48 + d)), (Z.leb_spec (48 + d) 57); try lia; simpl.
    destruct (Z.ltb_spec (48 + d - 48) radix); [f_equal; lia|lia].
  - destruct (Z.leb_spec (87 + d) 90); [lia|]. rewrite andb_false_r.
    destruct (Z.leb_spec 97 (87 + d)), (Z.leb_spec (87 + d) 122); try lia; simpl.
    destruct (Z.ltb_spec (87 + d - 97 + 10) radix); [f_equal; lia|lia].
Qed.

Lemma digits_value_wrap radix ds z :
  wrap 128 (digits_value radix ds (wrap 128 z)) = wrap 128 (digits_value radix ds z).
Proof.
  revert z. unfold digits_value. induction ds as [|d ds IH]; intros z; simpl; [apply wrap_wrap|].
  rewrite <- IH, <- (IH (z * radix + d)). do 2 f_equal.
  by rewrite <- wrap_add_l, wrap_mul_l, wrap_add_l.
Qed.

Lemma parse_digits_spec radix ds this :
  wf this -> 2 <= radix <= 36 -> Forall (fun d => 0 <= d < radix) ds ->
  wf (parse_digits radix (digit_char <$> ds) this) /\
  to_Z (parse_digits radix (digit_char <$> ds) this)
    = wrap 128 (digits_value radix ds (to_Z this)).
Proof.
  intros Hw Hr Hds. revert this Hw. induction Hds as [|d ds Hd Hds IH]; intros this Hw.
  { split; [done|]. symmetry. by apply wrap_small, to_Z_width. }
  rewrite fmap_cons. cbn [parse_digits digits_value fold_left].
  rewrite digit_value_char by lia.
  destruct (mul_spec this (uint128_of_int radix) Hw (wf_of_int _)) as [Hm Em].
  rewrite to_Z_of_int in Em by lia.
  assert (wf (uint128_of_base d)) as Hb by (apply wf_of_base; unfold in_width; lia).
  destruct (IH (add (mul this (uint128_of_int radix)) (uint128_of_base d))) as [IHw IHe]; [apply add_wf|].
  split; [done|]. rewrite IHe, add_spec, Em, to_Z_of_base, wrap_add_l by done.
  apply digits_value_wrap.
Qed.

(** The printing loop yields the base-[radix] digits, most significant first,
    without a leading zero, when [i] positions are enough. *)
Lemma to_string_loop_spec i radix ii buf :
  wf ii -> 2 <= radix <= 36 -> to_Z ii < radix ^ Z.of_nat i ->
  exists ds, to_string_loop i radix ii buf = Ret ((digit_char <$> ds) ++ buf) /\
    Forall (fun d => 0 <= d < radix) ds /\ digits_value radix ds 0 = to_Z ii /\
    (to_Z ii = 0 -> ds = []) /\ (to_Z ii <> 0 -> exists d ds', ds = d :: ds' /\ d <> 0).
Proof.
  revert ii buf. induction i as [|i IH]; intros ii buf Hw Hr Hlt.
  { exists []. pose proof (to_Z_width _ Hw) as W. unfold in_width in W. simpl in *.
    split_and!; [done|constructor|lia|done|lia]. }
  cbn [to_string_loop]. pose proof (to_Z_width _ Hw) as W. unfold in_width in W.
  unfold neqb. rewrite eqb_spec, to_Z_of_int by (eauto using wf_of_int || lia).
  destruct (Z.eqb_spec (to_Z ii) 0) as [Hz|Hz]; cbn [negb].
  { exists []. simpl. rewrite Hz. split_and!; [done|constructor|done|done|done]. }
  destruct (divide_spec ii (uint128_of_base radix)) as (q & r & -> & Hq & Hr' & Eq & Er).
  { done. } { apply wf_of_base. unfold in_width. lia. } { rewrite to_Z_of_base. lia. }
  cbn [obind fst snd]. rewrite to_Z_of_base in Eq, Er.
  pose proof (Z.mod_pos_bound (to_Z ii) radix ltac:(lia)) as Hb.
  assert (to_integer r = to_Z ii mod radix) as Hi.
  { unfold to_integer, to_Z in *. destruct Hr' as [H1 H2]. unfold in_width in H1, H2.
    assert (hi r = 0) as H0 by lia. rewrite H0 in Er. unfold swrap. rewrite Z.mod_small; lia. }
  destruct (IH q (digit_char (to_integer r) :: buf)) as (ds & -> & Hds & Hval & Hnil & Hhd); [done|done| |].
  { rewrite Eq, Nat2Z.inj_succ, Z.pow_succ_r in * by lia. apply Z.div_lt_upper_bound; lia. }
  exists (ds ++ [to_Z ii mod radix]). rewrite Hi. split_and!.
  - by rewrite fmap_app, <- app_assoc.
  - apply Forall_app. split; [done|]. constructor; [lia|constructor].
  - unfold digits_value in *. rewrite fold_left_app, Hval. simpl. rewrite Eq.
    pose proof (Z.div_mod (to_Z ii) radix ltac:(lia)). lia.
  - done.
  - intros _. destruct (decide (to_Z q = 0)) as [Hq0|Hq0].
    + exists (to_Z ii mod radix), []. rewrite (Hnil Hq0). split; [done|].
      rewrite Eq in Hq0. pose proof (Z.div_mod (to_Z ii) radix ltac:(lia)). lia.
    + destruct (Hhd Hq0) as (d & ds' & -> & Hd). by exists d, (ds' ++ [to_Z ii mod radix]).
Qed.

Lemma digit_char_nonzero d : 0 <= d < 36 -> digit_char d <> Ascii.zero.
Proof.
  intros Hd Heq. pose proof (code_digit_char d Hd) as H. rewrite Heq in H.
  change (code Ascii.zero) with 0 in H. destruct (Z.ltb_spec d 10); lia.
Qed.

Lemma c_str_digits radix ds : radix <= 36 -> Forall (fun d => 0 <= d < radix) ds ->
  c_str (digit_char <$> ds) = digit_char <$> ds.
Proof.
  intros Hr. induction 1 as [|d ds Hd Hds IH]; [done|].
  rewrite fmap_cons. cbn [c_str]. rewrite IH.
  destruct (decide (digit_char d = Ascii.zero)) as [E|]; [|done].
  by apply digit_char_nonzero in E; [|lia].
Qed.

(** What [to_string] returns when its buffer is long enough. *)
Lemma to_string_digits n radix :
  wf n -> 2 <= radix <= 36 -> to_Z n < radix ^ 127 -> to_Z n <> 0 ->
  exists d ds, to_string n radix = Ret (String.string_of_list_ascii (digit_char <$> d :: ds)) /\
    Forall (fun d => 0 <= d < radix) (d :: ds) /\ d <> 0 /\
    digits_value radix (d :: ds) 0 = to_Z n.
Proof.
  intros Hw Hr Hlt Hnz.
  assert ((radix <? 2) || (37 <? radix) = false) as Hrad.
  { clear -Hr. destruct (Z.ltb_spec radix 2), (Z.ltb_spec 37 radix); (done || lia). }
  unfold to_string.
  rewrite eqb_spec, to_Z_of_int by (eauto using wf_of_int || lia).
  destruct (Z.eqb_spec (to_Z n) 0); [done|]. rewrite Hrad.
  destruct (to_string_loop_spec (Z.to_nat (size - 1)) radix n []) as (ds & -> & Hds & Hval & _ & Hhd); try done.
  destruct (Hhd Hnz) as (d & ds' & -> & Hd).
  exists d, ds'. cbn [obind]. rewrite app_nil_r, (c_str_digits radix) by (done || apply Hr).
  done.
Qed.

Lemma parse_radix_digit s (c : ascii) : c <> "0"%char -> parse_radix (c :: s) = (10, c :: s).
Proof. destruct c as [[] [] [] [] [] [] [] []]; done. Qed.

Lemma digit_char_first d : 0 < d < 36 -> digit_char d <> "0"%char /\ digit_char d <> "-"%char.
Proof.
  intros Hd. pose proof (code_digit_char d ltac:(lia)) as H.
  split; intros Heq; rewrite Heq in H.
  - change (code "0"%char) with 48 in H. destruct (Z.ltb_spec d 10); lia.
  - change (code "-"%char) with 45 in H. destruct (Z.ltb_spec d 10); lia.
Qed.

Lemma uint128_of_list_plain (c : ascii) s : c <> "-"%char ->
  uint128_of_list (c :: s) =
    let '(radix, s) := parse_radix (c :: s) in parse_digits radix s uint128_zero.
Proof. destruct c as [[] [] [] [] [] [] [] []]; done. Qed.

(** Printing in decimal and parsing back is the identity. *)
Lemma to_string_parse n : wf n ->
  exists s, to_string n 10 = Ret s /\ uint128_of_string s = n.
Proof.
  intros Hw. destruct (decide (to_Z n = 0)) as [Hz|Hz].
  { exists "0"%string. unfold to_string.
    rewrite eqb_spec, to_Z_of_int, Hz by (eauto using wf_of_int || lia).
    split; [done|]. by apply to_Z_inj. }
  destruct (to_string_digits n 10) as (d & ds & -> & Hds & Hd & Hval); try done.
  { apply to_Z_width in Hw. unfold in_width in Hw. lia. }
  eexists. split; [done|]. unfold uint128_of_string.
  rewrite String.list_ascii_of_string_of_list_ascii, fmap_cons.
  apply Forall_cons in Hds as Hd0. destruct Hd0 as [Hd0 _].
  destruct (digit_char_first d ltac:(lia)) as [Hc0 Hcm].
  rewrite uint128_of_list_plain, parse_radix_digit by done.
  destruct (parse_digits_spec 10 (d :: ds) uint128_zero) as [Hpw Hpe]; [done|lia|done|].
  rewrite fmap_cons in Hpw, Hpe.
  apply to_Z_inj; [done|done|]. rewrite Hpe.
  change (to_Z uint128_zero) with 0. rewrite Hval. by apply wrap_small, to_Z_width.
Qed.

(** ** Properties of the class *)

(** C28. The operators +, -, unary -, * and < of the class are the operations of
    the integers modulo 2^128 on every pair of well-formed values, carries,
    masks and the 128-step multiplication loop included. *)
Theorem uint128_arithmetic a b :
  wf a -> wf b ->
  (wf (add a b) /\ to_Z (add a b) = (to_Z a + to_Z b) mod 2 ^ 128) /\
  (wf (sub a b) /\ to_Z (sub a b) = (to_Z a - to_Z b) mod 2 ^ 128) /\
  (wf (neg a) /\ to_Z (neg a) = (- to_Z a) mod 2 ^ 128) /\
  (wf (mul a b) /\ to_Z (mul a b) = (to_Z a * to_Z b) mod 2 ^ 128) /\
  ltb a b = (to_Z a <? to_Z b) /\ eqb a b = (to_Z a =? to_Z b).
Proof.
  intros Ha Hb. split_and!; eauto using add_wf, neg_wf, add_spec, sub_spec, neg_spec,
    ltb_spec, eqb_spec; try apply add_wf; by apply mul_spec.
Qed.

Lemma uint128_arithmetic_witness :
  to_Z (mul (of_Z (2 ^ 100 + 7)) (of_Z (2 ^ 90 + 3))) = ((2 ^ 100 + 7) * (2 ^ 90 + 3)) mod 2 ^ 128.
Proof.
  destruct (uint128_arithmetic (of_Z (2 ^ 100 + 7)) (of_Z (2 ^ 90 + 3))) as (_ & _ & _ & [_ H] & _);
    [apply of_Z_wf|apply of_Z_wf|]. exact H.
Defined.

(** C27. [divide] terminates on every input: it throws on a zero denominator and
    otherwise returns the integer quotient and remainder. *)
Theorem uint128_divide n d :
  wf n -> wf d ->
  divide n d =
    if to_Z d =? 0 then Throw (domain_error "divide by zero")
    else Ret (of_Z (to_Z n / to_Z d), of_Z (to_Z n mod to_Z d)).
Proof.
  intros Hn Hd. destruct (Z.eqb_spec (to_Z d) 0) as [Hz|Hz].
  - unfold divide. by rewrite eqb_spec, to_Z_of_int, Hz by (eauto using wf_of_int || lia).
  - destruct (divide_spec n d Hn Hd Hz) as (q & r & -> & Hq & Hr & <- & <-).
    by rewrite !of_Z_to_Z.
Qed.

Lemma uint128_divide_witness :
  divide (of_Z (2 ^ 127 + 5)) (of_Z 1000) = Ret (of_Z ((2 ^ 127 + 5) / 1000), of_Z ((2 ^ 127 + 5) mod 1000)).
Proof.
  rewrite (uint128_divide (of_Z (2 ^ 127 + 5)) (of_Z 1000)) by apply of_Z_wf. reflexivity.
Defined.

(** C29. Printing a value in decimal, as the log lines and error texts do, and
    constructing a [uint128] from the text, as the node does with its [range]
    option, gives the value back. *)
Theorem uint128_decimal_roundtrip n :
  wf n -> exists s, to_string n 10 = Ret s /\ uint128_of_string s = n.
Proof. apply to_string_parse. Qed.

Lemma uint128_decimal_roundtrip_witness :
  exists s, to_string (of_Z (2 ^ 128 - 1)) 10 = Ret s /\ uint128_of_string s = of_Z (2 ^ 128 - 1).
Proof. apply (uint128_decimal_roundtrip (of_Z (2 ^ 128 - 1))), of_Z_wf. Defined.

Lemma to_string_loop_length i radix ii buf buf' :
  to_string_loop i radix ii buf = Ret buf' -> (length buf' <= length buf + i)%nat.
Proof.
  revert ii buf. induction i as [|i IH]; intros ii buf H; cbn [to_string_loop] in H.
  { injection H as <-. lia. }
  destruct (neqb ii (uint128_of_int 0)); [|injection H as <-; lia].
  apply obind_ret_inv in H as (qr & _ & H). apply IH in H. simpl in H. lia.
Qed.

Lemma c_str_length l : (length (c_str l) <= length l)%nat.
Proof. induction l as [|c l IH]; simpl; [done|]. case_decide; simpl; lia. Qed.

(** The buffer of [to_string] leaves room for 127 digits: a value whose binary
    form has 128 digits is printed without its top one. *)
Lemma to_string_at_most_127 n radix s :
  to_string n radix = Ret s -> (String.length s <= 127)%nat.
Proof.
  unfold to_string. intros H. destruct (eqb n _); [injection H as <-; simpl; lia|].
  destruct (_ || _); [injection H as <-; simpl; lia|].
  apply obind_ret_inv in H as (buf & H & [= <-]).
  apply to_string_loop_length in H. change (Z.to_nat (size - 1)) with 127%nat in H.
  pose proof (c_str_length buf). simpl in H.
  assert (forall l, String.length (String.string_of_list_ascii l) = length l) as ->.
  { clear. induction l; simpl; congruence. }
  lia.
Qed.

(** Radix 37 passes the range check although the digit table has 36 entries. *)
Example to_string_radix_37 : to_string (of_Z 36) 37 = Ret ""%string.
Proof. vm_compute. reflexivity. Qed.

End Uint128.
