(* ===== verification/Clocks.v ===== *)
(** * Node clocks and vector clocks

    Models [node/src/node_clock.{h,cpp}] and [node/src/vector_clock.h], with the
    wire forms [messages/NodeClock.proto] and [messages/VectorClock.proto]. The
    replication factor [RF] is a parameter, as in the class template. *)

From Stdlib Require Import ZArith Lia.
From stdpp Require Import base list sets strings.
From S2P Require Import Prelude.

Local Open Scope Z_scope.
Local Open Scope sopmq_scope.

Module NodeClock.

(** [std::uint32_t node_id, generation; std::uint64_t clock]. *)
Record node_clock := NC { node_id : Z; generation : Z; clock : Z }.

#[global] Instance node_clock_eq_dec : EqDecision node_clock.
Proof. solve_decision. Defined.

(** The generated message class: one field per [required] line of the file. *)
Record NodeClock_pb := NodeClock_msg { pb_node_id : Z; pb_generation : Z; pb_clock : Z }.

Definition to_protobuf (c : node_clock) : NodeClock_pb :=
  NodeClock_msg (node_id c) (generation c) (clock c).

Definition eqb (lhs rhs : node_clock) : bool :=
  (node_id lhs =? node_id rhs) && (generation lhs =? generation rhs) && (clock lhs =? clock rhs).

Definition neqb (lhs rhs : node_clock) : bool := negb (eqb lhs rhs).

Definition ltb (lhs rhs : node_clock) : outcome bool :=
  if negb (node_id lhs =? node_id rhs)
  then Throw (comparison_error "< and > not valid for node_clocks on different servers")
  else Ret ((generation lhs <? generation rhs)
            || ((generation lhs =? generation rhs) && (clock lhs <? clock rhs))).

Definition gtb (lhs rhs : node_clock) : outcome bool :=
  lt <~ ltb lhs rhs;; Ret (negb lt && neqb lhs rhs).

(** ** The order on clocks of one node: generation first, then message count *)

Definition less (a b : node_clock) : bool :=
  (generation a <? generation b) || ((generation a =? generation b) && (clock a <? clock b)).

Definition le (a b : node_clock) : Prop :=
  generation a < generation b \/ (generation a = generation b /\ clock a <= clock b).

Lemma less_iff a b : less a b = true <->
  generation a < generation b \/ (generation a = generation b /\ clock a < clock b).
Proof.
  unfold less. rewrite orb_true_iff, andb_true_iff, !Z.ltb_lt, Z.eqb_eq. done.
Qed.

Lemma less_false a b : less a b = false <-> le b a.
Proof.
  unfold le. rewrite <- not_true_iff_false, less_iff. lia.
Qed.

Lemma eqb_eq a b : eqb a b = true <-> a = b.
Proof.
  unfold eqb. rewrite !andb_true_iff, !Z.eqb_eq. destruct a, b; simpl. naive_solver.
Qed.

Lemma ltb_same a b : node_id a = node_id b -> ltb a b = Ret (less a b).
Proof. intros H. unfold ltb. by rewrite H, Z.eqb_refl. Qed.

#[global] Instance le_preorder : PreOrder le.
Proof. unfold le. split; [intros x; lia|intros x y z; lia]. Qed.

Lemma le_antisym a b : node_id a = node_id b -> le a b -> le b a -> a = b.
Proof. destruct a, b. unfold le; simpl. intros -> ??. f_equal; lia. Qed.

Lemma le_total a b : le a b \/ le b a.
Proof. unfold le. lia. Qed.

Lemma less_le a b : less a b = true -> le a b.
Proof. rewrite less_iff. unfold le. lia. Qed.

End NodeClock.

Module VectorClock.
Import NodeClock.

(** [std::array<node_clock, RF>]: a list of [RF] clocks. *)
Abbreviation vclock := (list node_clock).

Section VectorClock.
Context (RF : nat).

(** The default constructor value-initialises the array. *)
Definition zero_clock : node_clock := NC 0 0 0.
Definition vector_clock_new : vclock := replicate RF zero_clock.

(** [_value[i] = clocks(i)] for the received clocks. *)
Fixpoint fill_clocks (i : nat) (net : list NodeClock_pb) (v : vclock) : vclock :=
  match net with
  | [] => v
  | c :: net => fill_clocks (S i) net (<[i := NC (pb_node_id c) (pb_generation c) (pb_clock c)]> v)
  end.

(** The constructor from a network clock. It does not initialise the array, so
    the positions beyond [clocks_size()] keep the contents [init] of the memory. *)
Definition vector_clock_of_net (init : vclock) (net : list NodeClock_pb) : outcome vclock :=
  if (RF <? length net)%nat
  then Throw (comparison_error "Network clock size is greater than RF")
  else Ret (fill_clocks 0 net init).

(** The clocks of a [VectorClock] message built from a vector clock. *)
Definition to_net (v : vclock) : list NodeClock_pb := to_protobuf <$> v.

Definition set (v : vclock) (pos : nat) (c : node_clock) : outcome vclock :=
  if (pos <? RF)%nat then Ret (<[pos := c]> v) else Undef.

(** [std::max(a, b)] is [(a < b) ? b : a]. *)
Definition std_max (a b : node_clock) : outcome node_clock :=
  lt <~ ltb a b;; Ret (if lt then b else a).

Fixpoint same_quorum (a b : vclock) : bool :=
  match a, b with
  | x :: a, y :: b => (node_id x =? node_id y) && same_quorum a b
  | _, _ => true
  end.

Fixpoint max_loop (a b : vclock) : outcome vclock :=
  match a, b with
  | x :: a, y :: b =>
    m <~ std_max x y;;
    r <~ max_loop a b;;
    Ret (m :: r)
  | _, _ => Ret []
  end.

(** [vector_clock::max]: the verification loop, then the merge loop. *)
Definition max (a b : vclock) : outcome vclock :=
  if same_quorum a b then max_loop a b
  else Throw (comparison_error "max() not valid for vector clocks with different quorums").

(** [std::array ==] compares element-wise. *)
Fixpoint veqb (lhs rhs : vclock) : bool :=
  match lhs, rhs with
  | [], [] => true
  | x :: lhs, y :: rhs => eqb x y && veqb lhs rhs
  | _, _ => false
  end.

Definition vneqb (lhs rhs : vclock) : bool := negb (veqb lhs rhs).

(** The inner loop of [operator<]: compares [lft] with the first clock of the
    right side that has its node id, then breaks. *)
Fixpoint less_inner (lft : node_clock) (rhs : vclock) (counts : Z * Z) : outcome (Z * Z) :=
  match rhs with
  | [] => Ret counts
  | rgt :: rhs =>
    if node_id lft =? node_id rgt then
      l <~ ltb lft rgt;;
      if l : bool then Ret (counts.1 + 1, counts.2)
      else
        r <~ ltb rgt lft;;
        if r : bool then Ret (counts.1, counts.2 + 1) else Ret counts
    else less_inner lft rhs counts
  end.

Fixpoint less_outer (lhs rhs : vclock) (counts : Z * Z) : outcome (Z * Z) :=
  match lhs with
  | [] => Ret counts
  | lft :: lhs =>
    counts <~ less_inner lft rhs counts;;
    less_outer lhs rhs counts
  end.

Definition vltb (lhs rhs : vclock) : outcome bool :=
  counts <~ less_outer lhs rhs (0, 0);;
  Ret (counts.2 <? counts.1).

Definition vgtb (lhs rhs : vclock) : outcome bool :=
  lt <~ vltb lhs rhs;; Ret (negb lt && vneqb lhs rhs).

End VectorClock.

Abbreviation vector_clock3 := (vector_clock_new 3).

(** ** The comparison as a pure function *)

(** The clock of [rhs] that [lft] is compared with. *)
Definition partner (lft : node_clock) (rhs : vclock) : option node_clock :=
  snd <$> list_find (fun rgt => node_id lft = node_id rgt) rhs.

(** How many clocks of [a] are below (resp. above) their partner in [b]. *)
Definition count_below (a b : vclock) : Z :=
  sumZ (fun x => match partner x b with Some y => if less x y then 1 else 0 | None => 0 end) a.
Definition count_above (a b : vclock) : Z :=
  sumZ (fun x => match partner x b with Some y => if less y x then 1 else 0 | None => 0 end) a.

Definition vless (a b : vclock) : bool := count_above a b <? count_below a b.

Lemma partner_cons x y b :
  partner x (y :: b) = if node_id x =? node_id y then Some y else partner x b.
Proof.
  unfold partner. simpl. destruct (Z.eqb_spec (node_id x) (node_id y)).
  - by rewrite decide_True.
  - rewrite decide_False by done. by destruct (list_find _ b) as [[]|].
Qed.

Lemma partner_Some x b y : partner x b = Some y -> y ∈ b /\ node_id x = node_id y.
Proof.
  induction b as [|z b IH]; [done|]. rewrite partner_cons.
  destruct (Z.eqb_spec (node_id x) (node_id z)); [intros [= <-]; set_solver|].
  intros H. apply IH in H as []. set_solver.
Qed.

Lemma partner_NoDup x b y : NoDup (node_id <$> b) -> y ∈ b -> node_id x = node_id y ->
  partner x b = Some y.
Proof.
  induction b as [|z b IH]; [set_solver|]. rewrite fmap_cons, NoDup_cons, partner_cons.
  intros [Hz Hnd] [->|Hy]%elem_of_cons He.
  - by rewrite He, Z.eqb_refl.
  - destruct (Z.eqb_spec (node_id x) (node_id z)) as [E|]; [|by apply IH].
    destruct Hz. rewrite <- E, He. by apply list_elem_of_fmap_2.
Qed.

Lemma less_asym x y : less x y = true -> less y x = false.
Proof. intros H. apply less_false. by apply less_le. Qed.

Lemma less_inner_spec lft rhs counts :
  less_inner lft rhs counts = Ret
    (counts.1 + match partner lft rhs with Some y => if less lft y then 1 else 0 | None => 0 end,
     counts.2 + match partner lft rhs with Some y => if less y lft then 1 else 0 | None => 0 end).
Proof.
  destruct counts as [c1 c2]. induction rhs as [|y rhs IH]; simpl.
  { unfold partner; simpl. by rewrite !Z.add_0_r. }
  rewrite partner_cons. destruct (Z.eqb_spec (node_id lft) (node_id y)) as [E|]; [|done].
  rewrite !ltb_same by done. simpl.
  destruct (less lft y) eqn:L.
  - by rewrite (less_asym _ _ L), Z.add_0_r.
  - destruct (less y lft); simpl; by rewrite ?Z.add_0_r.
Qed.

Lemma less_outer_spec lhs rhs counts :
  less_outer lhs rhs counts = Ret (counts.1 + count_below lhs rhs, counts.2 + count_above lhs rhs).
Proof.
  revert counts. induction lhs as [|x lhs IH]; intros [c1 c2]; simpl.
  { unfold count_below, count_above; simpl. by rewrite !Z.add_0_r. }
  rewrite less_inner_spec. cbn [obind]. rewrite IH. simpl.
  unfold count_below, count_above. rewrite !sumZ_cons. do 2 f_equal; lia.
Qed.

(** [operator<] on vector clocks never throws. *)
Lemma vltb_spec lhs rhs : vltb lhs rhs = Ret (vless lhs rhs).
Proof. unfold vltb. by rewrite less_outer_spec. Qed.

Lemma veqb_eq a b : veqb a b = true <-> a = b.
Proof.
  revert b. induction a as [|x a IH]; intros [|y b]; simpl; try naive_solver.
  rewrite andb_true_iff, eqb_eq, IH. naive_solver.
Qed.

(** ** Dominance *)

(** [b] knows at least as much as [a]: same nodes position by position, and no
    component of [a] ahead. *)
Definition dominated (a b : vclock) : Prop :=
  Forall2 (fun x y => node_id x = node_id y /\ le x y) a b.

(** No component of [a] is ahead of the component of [b] for the same node. *)
Definition not_ahead (a b : vclock) : Prop :=
  forall x y, x ∈ a -> y ∈ b -> node_id x = node_id y -> le x y.

Definition ids (a : vclock) : list Z := node_id <$> a.

Lemma dominated_refl a : dominated a a.
Proof. unfold dominated. induction a; constructor; [|done]. split; [done|]. reflexivity. Qed.

Lemma dominated_trans a b c : dominated a b -> dominated b c -> dominated a c.
Proof.
  unfold dominated. intros H. revert c. induction H as [|x y a b [? ?] H IH]; intros c Hc;
    inversion Hc as [|? z ? c' [? ?] Hbc]; subst; constructor; [|by apply IH].
  split; [congruence|]. by etrans.
Qed.

Lemma dominated_antisym a b : dominated a b -> dominated b a -> a = b.
Proof.
  unfold dominated. induction 1 as [|x y a b [? ?] H IH]; [done|].
  inversion 1 as [|? ? ? ? [? ?] Hba]; subst. f_equal; [by apply le_antisym|auto].
Qed.

Lemma dominated_ids a b : dominated a b -> ids a = ids b.
Proof. induction 1 as [|x y a b [E _] H IH]; [done|]. unfold ids in *. by rewrite !fmap_cons, E, IH. Qed.

(** With distinct node ids, position-wise dominance covers every pair that
    [operator<] compares. *)
Lemma dominated_not_ahead a b : NoDup (ids a) -> dominated a b -> not_ahead a b.
Proof.
  intros Hnd H x y Hx Hy E. pose proof (dominated_ids _ _ H) as Hids.
  apply list_elem_of_lookup in Hx as [i Hi]. apply list_elem_of_lookup in Hy as [j Hj].
  unfold ids in *.
  assert ((node_id <$> a) !! i = Some (node_id x)) as Hi' by by rewrite list_lookup_fmap, Hi.
  assert ((node_id <$> a) !! j = Some (node_id x)) as Hj'.
  { by rewrite Hids, list_lookup_fmap, Hj, E. }
  pose proof (NoDup_lookup _ _ _ _ Hnd Hi' Hj') as ->.
  by eapply (Forall2_lookup_lr _ _ _ _ _ _ H Hi Hj).
Qed.

Lemma count_above_zero a b : not_ahead a b -> count_above a b = 0.
Proof.
  intros H. apply sumZ_zero. intros x Hx. destruct (partner x b) as [y|] eqn:E; [|done].
  apply partner_Some in E as [Hy E].
  by rewrite (proj2 (less_false y x)) by by apply H.
Qed.

Lemma count_below_zero a b : not_ahead b a -> count_below a b = 0.
Proof.
  intros H. apply sumZ_zero. intros x Hx. destruct (partner x b) as [y|] eqn:E; [|done].
  apply partner_Some in E as [Hy E].
  by rewrite (proj2 (less_false x y)) by by apply H.
Qed.

Lemma count_below_pos a b x y : x ∈ a -> partner x b = Some y -> less x y = true -> 0 < count_below a b.
Proof.
  intros Hx Hp Hl. apply sumZ_pos with x; [|done|by rewrite Hp, Hl].
  intros z. destruct (partner z b) as [y'|]; [|done]. by destruct (less z y').
Qed.

Lemma count_nonneg a b : 0 <= count_below a b /\ 0 <= count_above a b.
Proof.
  split; apply sumZ_nonneg; intros z; destruct (partner z b) as [y|]; try done;
    [by destruct (less z y)|by destruct (less y z)].
Qed.

(** The comparison of clocks that need not name the same nodes: when nothing of
    [a] is ahead and something is behind, [a < b] and not [b < a]. *)
Lemma vless_behind a b x y :
  not_ahead a b -> NoDup (ids b) -> x ∈ a -> y ∈ b -> node_id x = node_id y -> less x y = true ->
  vless a b = true /\ vless b a = false.
Proof.
  intros Hn Hb Hx Hy E Hl. unfold vless. split.
  - rewrite count_above_zero by done. apply Z.ltb_lt.
    apply count_below_pos with x y; [done|by apply partner_NoDup|done].
  - rewrite count_below_zero by done. apply Z.ltb_ge. apply count_nonneg.
Qed.

Lemma dominated_strict a b : dominated a b -> a <> b ->
  exists x y, x ∈ a /\ y ∈ b /\ node_id x = node_id y /\ less x y = true.
Proof.
  induction 1 as [|x y a b [E L] H IH]; [done|]. intros Hne.
  destruct (less x y) eqn:Hl.
  - exists x, y. set_solver.
  - apply less_false in Hl. assert (x = y) as -> by by apply le_antisym.
    destruct IH as (u & v & ? & ? & ? & ?); [congruence|]. exists u, v. set_solver.
Qed.

(** On clocks of one quorum where one dominates the other, [<] is strict dominance. *)
Lemma vless_dominated a b : NoDup (ids a) -> dominated a b ->
  vless b a = false /\ (vless a b = true <-> a <> b).
Proof.
  intros Hnd H. pose proof (dominated_not_ahead _ _ Hnd H) as Hna.
  pose proof (dominated_ids _ _ H) as Hids. split.
  { unfold vless. rewrite count_below_zero by done. apply Z.ltb_ge, count_nonneg. }
  split.
  - intros Hl ->. unfold vless in Hl. apply Z.ltb_lt in Hl.
    rewrite count_above_zero, count_below_zero in Hl by done. lia.
  - intros Hne. destruct (dominated_strict a b H Hne) as (x & y & ? & ? & ? & ?).
    eapply vless_behind; try done. by rewrite <- Hids.
Qed.

(** ** Clocks of one quorum, compared by majority *)

Definition wins (x y : node_clock) : Z := if less x y then 1 else 0.

Lemma sumZ_partner (f : node_clock -> node_clock -> Z) a b : NoDup (ids a) -> ids a = ids b ->
  sumZ (fun x => match partner x b with Some y => f x y | None => 0 end) a = sumZ (fun p => f p.1 p.2) (zip a b).
Proof.
  unfold ids. revert b. induction a as [|x a IH]; intros [|y b] Hnd E; try done.
  rewrite !fmap_cons in E. injection E as Exy E. rewrite fmap_cons, NoDup_cons in Hnd. destruct Hnd as [Hx Hnd].
  cbn [zip zip_with]. rewrite !sumZ_cons, partner_cons, Exy, Z.eqb_refl. f_equal. rewrite <- (IH b) by done.
  apply sumZ_ext. intros z Hz. rewrite partner_cons. destruct (Z.eqb_spec (node_id z) (node_id y)) as [Ez|]; [|done].
  destruct Hx. rewrite Exy, <- Ez. by apply list_elem_of_fmap_2.
Qed.

Lemma counts_zip a b : NoDup (ids a) -> ids a = ids b ->
  count_below a b = sumZ (fun p => wins p.1 p.2) (zip a b) /\
  count_above a b = sumZ (fun p => wins p.2 p.1) (zip a b).
Proof.
  intros Hnd E. split; [exact (sumZ_partner wins a b Hnd E)|exact (sumZ_partner (fun x y => wins y x) a b Hnd E)].
Qed.

(** Of three nodes, two that are behind decide. *)
Lemma vless_majority a b i j x y x' y' : NoDup (ids a) -> ids a = ids b -> length a = 3%nat -> i <> j ->
  a !! i = Some x -> b !! i = Some y -> less x y = true ->
  a !! j = Some x' -> b !! j = Some y' -> less x' y' = true ->
  vless a b = true /\ vless b a = false.
Proof.
  intros Hnd E Hl Hij Hx Hy L Hx' Hy' L'. unfold vless.
  destruct (counts_zip a b Hnd E) as [-> ->], (counts_zip b a ltac:(congruence) (eq_sym E)) as [-> ->].
  assert (length b = 3%nat) as Hlb by (apply (f_equal length) in E; unfold ids in E; rewrite !length_fmap in E; lia).
  destruct a as [|a0 [|a1 [|a2 [|]]]], b as [|b0 [|b1 [|b2 [|]]]]; try done.
  unfold wins. cbn [zip zip_with]. rewrite !sumZ_cons. cbn [fst snd].
  pose proof (less_asym _ _ L). pose proof (less_asym _ _ L').
  destruct i as [|[|[|i]]], j as [|[|[|j]]]; simplify_eq/=;
    repeat match goal with H : less _ _ = _ |- _ => rewrite !H; clear H end;
    repeat match goal with |- context [less ?u ?v] => destruct (less u v) end; done.
Qed.

(** ** Merging *)

Lemma std_max_same x y : node_id x = node_id y ->
  exists m, std_max x y = Ret m /\ node_id m = node_id x /\ (m = x \/ m = y) /\ le x m /\ le y m.
Proof.
  intros E. unfold std_max. rewrite ltb_same by done. cbn [obind].
  destruct (less x y) eqn:L; eexists; split; try done; split_and!; try done; auto; try reflexivity.
  - by apply less_le.
  - by apply less_false.
Qed.

Lemma same_quorum_ids a b : length a = length b -> same_quorum a b = true <-> ids a = ids b.
Proof.
  revert b. induction a as [|x a IH]; intros [|y b] Hl; try done. simpl in Hl.
  unfold ids in *. rewrite !fmap_cons. cbn [same_quorum].
  rewrite andb_true_iff, Z.eqb_eq, IH by lia.
  split; [by intros [-> ->]|by intros [= -> ->]].
Qed.

(** The merge returns, or refuses clocks of different quorums. *)
Lemma max_cases a b : (exists m, max a b = Ret m) \/ exists w, max a b = Throw (comparison_error w).
Proof.
  unfold max. destruct (same_quorum a b) eqn:E; [left|right; eauto].
  revert b E. induction a as [|x a IH]; intros [|y b] E; simpl; eauto. simpl in E.
  apply andb_true_iff in E as [Ei%Z.eqb_eq E]. destruct (IH b E) as [m ->].
  destruct (std_max_same x y Ei) as (k & -> & _). simpl. eauto.
Qed.

Lemma max_loop_spec a b : ids a = ids b ->
  exists m, max_loop a b = Ret m /\ dominated a m /\ dominated b m /\
    forall c, dominated a c -> dominated b c -> dominated m c.
Proof.
  revert b. unfold ids. induction a as [|x a IH]; intros [|y b] E; try done.
  { exists []. split_and!; try constructor; done. }
  rewrite !fmap_cons in E. injection E as Ei E.
  destruct (std_max_same x y Ei) as (m & Em & Emi & Hm & Hx & Hy).
  destruct (IH b E) as (r & Er & Ha & Hb & Hlub).
  exists (m :: r). cbn [max_loop]. rewrite Em. cbn [obind]. rewrite Er. cbn [obind].
  split_and!; [done|constructor; [by split|done]|constructor; [split; [congruence|done]|done]|].
  intros c Hac Hbc. inversion Hac as [|? z ? c' [? ?] Hac']; subst.
  inversion Hbc as [|? ? ? ? [? ?] Hbc']; subst.
  constructor; [|by apply Hlub]. split; [congruence|]. by destruct Hm as [-> | ->].
Qed.

(** ** The wire form *)

Lemma fill_clocks_spec i net v :
  (i + length net <= length v)%nat ->
  fill_clocks i net v =
    take i v ++ ((fun c => NC (pb_node_id c) (pb_generation c) (pb_clock c)) <$> net)
      ++ drop (i + length net) v.
Proof.
  revert i v. induction net as [|c net IH]; intros i v Hl; simpl in Hl.
  { simpl. by rewrite Nat.add_0_r, take_drop. }
  cbn [fill_clocks]. rewrite IH by (rewrite length_insert; lia).
  rewrite fmap_cons, drop_insert_lt by lia.
  rewrite (take_S_r _ i (NC (pb_node_id c) (pb_generation c) (pb_clock c)))
    by (apply list_lookup_insert_eq; lia).
  rewrite take_insert_ge, <- app_assoc by lia. simpl.
  by rewrite Nat.add_succ_r.
Qed.

Lemma of_net_to_net RF init v : length init = RF -> length v = RF ->
  vector_clock_of_net RF init (to_net v) = Ret v.
Proof.
  intros Hi Hv. unfold vector_clock_of_net, to_net. rewrite length_fmap.
  destruct (Nat.ltb_spec RF (length v)); [lia|].
  rewrite fill_clocks_spec by (rewrite length_fmap; lia).
  rewrite <- list_fmap_compose, length_fmap, take_0, drop_ge by lia. simpl.
  rewrite app_nil_r. f_equal. rewrite <- (list_fmap_id v) at 2.
  apply list_fmap_ext. by intros ? [].
Qed.

(** ** Chains of clocks

    The stamps of one queue are merged clocks of one quorum; a set of them that
    is totally ordered by dominance is a chain. *)

Definition chain (ids0 : list Z) (cs : list vclock) : Prop :=
  NoDup ids0 /\ Forall (fun c => ids c = ids0) cs /\
  forall a b, a ∈ cs -> b ∈ cs -> dominated a b \/ dominated b a.

Lemma chain_dominated ids0 cs a b : chain ids0 cs -> a ∈ cs -> b ∈ cs ->
  vless a b = true <-> dominated a b /\ a <> b.
Proof.
  intros (Hnd & Hids & Htot) Ha Hb. rewrite Forall_forall in Hids.
  assert (NoDup (ids a) /\ NoDup (ids b)) as [Hna Hnb] by (by rewrite !Hids).
  destruct (Htot a b Ha Hb) as [H|H].
  - destruct (vless_dominated a b Hna H) as [_ E]. rewrite E. naive_solver.
  - destruct (vless_dominated b a Hnb H) as [E _]. rewrite E. split; [done|].
    intros [H' Hne]. by destruct Hne; apply dominated_antisym.
Qed.

(** ** Linear sets of clocks

    What [std::multimap] needs of its comparator, on the clocks it holds: a strict
    order in which two different clocks are always comparable. *)

Record linear (cs : list vclock) : Prop := {
  lin_irrefl : forall a, a ∈ cs -> vless a a = false;
  lin_trans : forall a b c, a ∈ cs -> b ∈ cs -> c ∈ cs ->
    vless a b = true -> vless b c = true -> vless a c = true;
  lin_total : forall a b, a ∈ cs -> b ∈ cs -> vless a b = true \/ a = b \/ vless b a = true
}.

Lemma linear_subset cs cs' : linear cs -> cs' ⊆ cs -> linear cs'.
Proof. intros [H1 H2 H3] Hs. split; intros; eauto. Qed.

Lemma linear_asym cs a b : linear cs -> a ∈ cs -> b ∈ cs -> vless a b = true -> vless b a = false.
Proof.
  intros L Ha Hb H. apply not_true_iff_false. intros H'.
  pose proof (lin_trans cs L a b a Ha Hb Ha H H') as H2. by rewrite (lin_irrefl cs L) in H2.
Qed.

(** Clocks neither of which is below the other are the same clock. *)
Lemma linear_antisym cs a b : linear cs -> a ∈ cs -> b ∈ cs -> vless a b = false -> vless b a = false -> a = b.
Proof. intros L Ha Hb H1 H2. destruct (lin_total cs L a b Ha Hb) as [H|[H|H]]; congruence. Qed.

Lemma chain_linear ids0 cs : chain ids0 cs -> linear cs.
Proof.
  intros Hc. split.
  - intros a Ha. apply not_true_iff_false. rewrite (chain_dominated ids0 cs) by done. naive_solver.
  - intros a b c Ha Hb Hcc. rewrite !(chain_dominated ids0 cs) by done. intros [H1 N1] [H2 N2].
    split; [by eapply dominated_trans|]. intros ->. by destruct N1; apply dominated_antisym.
  - intros a b Ha Hb. rewrite !(chain_dominated ids0 cs) by done.
    destruct Hc as (_ & _ & Htot). destruct (decide (a = b)) as [->|]; [auto|].
    destruct (Htot a b Ha Hb); naive_solver.
Qed.

(** What [std::multimap] requires of its comparison, on the keys it holds: a strict weak
    order, in which keys that are not ordered either way form classes. *)
Definition unordered (a b : vclock) : bool := negb (vless a b) && negb (vless b a).

Definition strict_weak (cs : list vclock) : bool :=
  forallb (fun a => negb (vless a a)) cs &&
  forallb (fun a => forallb (fun b => forallb (fun c =>
    implb (vless a b && vless b c) (vless a c) && implb (unordered a b && unordered b c) (unordered a c)) cs) cs) cs.

Lemma strict_weak_spec cs : strict_weak cs = true <->
  (forall a, a ∈ cs -> vless a a = false) /\
  (forall a b c, a ∈ cs -> b ∈ cs -> c ∈ cs -> vless a b = true -> vless b c = true -> vless a c = true) /\
  (forall a b c, a ∈ cs -> b ∈ cs -> c ∈ cs -> unordered a b = true -> unordered b c = true -> unordered a c = true).
Proof.
  unfold strict_weak. rewrite andb_true_iff, !forallb_forall. split.
  - intros [H1 H2].
    assert (forall a b c, a ∈ cs -> b ∈ cs -> c ∈ cs ->
      (vless a b && vless b c = true -> vless a c = true) /\
      (unordered a b && unordered b c = true -> unordered a c = true)) as H.
    { intros a b c Ha%list_elem_of_In Hb%list_elem_of_In Hc%list_elem_of_In. specialize (H2 a Ha).
      rewrite forallb_forall in H2. specialize (H2 b Hb). rewrite forallb_forall in H2.
      by rewrite <- !implb_true_iff, <- andb_true_iff, H2. }
    split_and!; [intros a Ha%list_elem_of_In; by apply negb_true_iff, H1|..];
      intros a b c Ha Hb Hc E1 E2; apply (H a b c Ha Hb Hc); by rewrite E1, E2.
  - intros (H1 & H2 & H3). split; [intros a Ha%list_elem_of_In; by rewrite H1|].
    intros a Ha%list_elem_of_In. apply forallb_forall. intros b Hb%list_elem_of_In. apply forallb_forall.
    intros c Hc%list_elem_of_In. apply andb_true_iff. rewrite !implb_true_iff, !andb_true_iff. split; intros [? ?]; eauto.
Qed.

Lemma strict_weak_subset cs cs' : strict_weak cs = true -> cs' ⊆ cs -> strict_weak cs' = true.
Proof. rewrite !strict_weak_spec. intros (H1 & H2 & H3) Hs. split_and!; intros; eauto. Qed.

(** A key that is not below one that is above [c] is itself above [c]. *)
Lemma strict_weak_above cs c a b : strict_weak cs = true -> c ∈ cs -> a ∈ cs -> b ∈ cs ->
  vless c a = true -> vless b a = false -> vless c b = true.
Proof.
  rewrite strict_weak_spec. intros (H1 & H2 & H3) Hc Ha Hb Hca Hba. apply not_false_iff_true. intros Hcb.
  destruct (vless b c) eqn:Hbc; [by rewrite (H2 b c a) in Hba|].
  destruct (vless a b) eqn:Hab; [by rewrite (H2 c a b) in Hcb|].
  assert (unordered c a = true) as Hu by (apply (H3 c b a); unfold unordered; by rewrite ?Hcb, ?Hbc, ?Hab, ?Hba).
  unfold unordered in Hu. by rewrite Hca in Hu.
Qed.

Lemma linear_strict_weak cs : linear cs -> strict_weak cs = true.
Proof.
  intros L. apply strict_weak_spec. split_and!; [apply L|apply L|]. unfold unordered. intros a b c Ha Hb Hc.
  rewrite !andb_true_iff, !negb_true_iff. intros [H1 H2] [H3 H4].
  rewrite (linear_antisym cs a b L Ha Hb H1 H2), (linear_antisym cs b c L Hb Hc H3 H4).
  by split; apply (lin_irrefl cs).
Qed.

(** ** Properties *)

(** C14. On a chain of clocks, [vector_clock::operator<] never throws and is a
    strict total order that coincides with strict dominance: the requirement of
    [std::multimap] on its comparator holds there. *)
Theorem vector_clock_chain_order ids0 cs a b c :
  chain ids0 cs -> a ∈ cs -> b ∈ cs -> c ∈ cs ->
  vltb a a = Ret false /\
  (vltb a b = Ret true -> vltb b c = Ret true -> vltb a c = Ret true) /\
  (vltb a b = Ret true \/ a = b \/ vltb b a = Ret true) /\
  (vltb a b = Ret true <-> dominated a b /\ a <> b).
Proof.
  intros Hc Ha Hb Hcc. rewrite !vltb_spec. pose proof (chain_linear ids0 cs Hc) as L.
  assert (forall x y : bool, Ret x = Ret y <-> x = y) as Hr by (intros; split; congruence).
  rewrite !Hr. split_and!; [by apply (lin_irrefl cs)|by apply (lin_trans cs)|by apply (lin_total cs)|].
  by apply (chain_dominated ids0 cs).
Qed.

Definition sample_low : vclock := [NC 1 1 1; NC 2 1 0; NC 3 1 1].
Definition sample_high : vclock := [NC 1 1 2; NC 2 2 1; NC 3 1 2].

Lemma sample_chain : chain [1; 2; 3] [sample_low; sample_high].
Proof.
  split_and!.
  - apply (bool_decide_unpack _). by vm_compute.
  - repeat constructor.
  - assert (dominated sample_low sample_high) by (repeat constructor; unfold le; simpl; lia).
    intros a b Ha Hb. rewrite !elem_of_cons in Ha, Hb.
    destruct Ha as [->|[->|Ha]], Hb as [->|[->|Hb]]; try (by apply not_elem_of_nil in Ha);
      try (by apply not_elem_of_nil in Hb); eauto using dominated_refl.
Qed.

Lemma vector_clock_chain_order_witness : vltb sample_low sample_low = Ret false.
Proof.
  apply (vector_clock_chain_order [1; 2; 3] [sample_low; sample_high] sample_low sample_high sample_high
    sample_chain); set_solver.
Defined.

(** C8. [vector_clock::max] on clocks of the same quorum is their least upper
    bound under dominance, and throws [comparison_error] exactly when some
    position names different nodes. *)
Theorem vector_clock_max_lub a b :
  length a = length b ->
  if decide (ids a = ids b) then
    exists m, max a b = Ret m /\ dominated a m /\ dominated b m /\
      forall c, dominated a c -> dominated b c -> dominated m c
  else max a b = Throw (comparison_error "max() not valid for vector clocks with different quorums").
Proof.
  intros Hl. unfold max. destruct (decide (ids a = ids b)) as [E|E].
  - rewrite (proj2 (same_quorum_ids a b Hl) E). by apply max_loop_spec.
  - destruct (same_quorum a b) eqn:Q; [|done].
    destruct E. by apply same_quorum_ids.
Qed.

Lemma vector_clock_max_lub_witness :
  exists m, max sample_low sample_high = Ret m /\ dominated sample_low m /\ dominated sample_high m /\
      forall c, dominated sample_low c -> dominated sample_high c -> dominated m c.
Proof. apply (vector_clock_max_lub sample_low sample_high). reflexivity. Defined.

(** Clocks stamped before and after a change of quorum remain ordered: when no
    clock of [a] is ahead of the clock of [b] for the same node, and one shared
    node is behind, [a < b] holds and [b < a] does not, whatever nodes joined,
    left or restarted in between. *)
Theorem vector_clock_less_across_quorums a b x y :
  not_ahead a b -> NoDup (ids b) -> x ∈ a -> y ∈ b -> node_id x = node_id y ->
  ltb x y = Ret true -> vltb a b = Ret true /\ vltb b a = Ret false.
Proof.
  intros Hn Hnd Hx Hy E Hl. rewrite !vltb_spec. rewrite ltb_same in Hl by done.
  injection Hl as Hl. destruct (vless_behind a b x y) as [-> ->]; done.
Qed.

(** The scenario of docs/Add Node.txt: node A' (here 9) joins and displaces C. *)
Lemma vector_clock_less_across_quorums_witness :
  vltb [NC 1 1 2; NC 2 1 1; NC 3 1 1] [NC 9 1 1; NC 1 1 3; NC 2 1 1] = Ret true /\
  vltb [NC 9 1 1; NC 1 1 3; NC 2 1 1] [NC 1 1 2; NC 2 1 1; NC 3 1 1] = Ret false.
Proof.
  apply (vector_clock_less_across_quorums [NC 1 1 2; NC 2 1 1; NC 3 1 1]
    [NC 9 1 1; NC 1 1 3; NC 2 1 1] (NC 1 1 2) (NC 1 1 3)); try set_solver; try done.
  - intros x y Hx Hy E. rewrite !elem_of_cons in Hx, Hy. unfold le.
    destruct Hx as [->|[->|[->|Hx]]], Hy as [->|[->|[->|Hy]]]; simpl in *; try lia; set_solver.
  - apply (bool_decide_unpack _). by vm_compute.
Defined.

(** Sending a vector clock in a message and rebuilding it at the receiver is
    the identity, and a message with more than RF clocks is refused. *)
Theorem vector_clock_wire_roundtrip RF init v net :
  length init = RF -> length v = RF -> (RF < length net)%nat ->
  vector_clock_of_net RF init (to_net v) = Ret v /\
  vector_clock_of_net RF init net = Throw (comparison_error "Network clock size is greater than RF").
Proof.
  intros Hi Hv Hn. split; [by apply of_net_to_net|].
  unfold vector_clock_of_net. by destruct (Nat.ltb_spec RF (length net)); [|lia].
Qed.

Lemma vector_clock_wire_roundtrip_witness :
  vector_clock_of_net 3 (vector_clock_new 3) (to_net sample_high) = Ret sample_high.
Proof.
  apply (vector_clock_wire_roundtrip 3 (vector_clock_new 3) sample_high
    (to_net (sample_high ++ sample_low))); simpl; lia.
Defined.

(** Outside a chain the comparison can be cyclic: three clocks of one quorum,
    each below the next by majority, so [operator<] is not a strict weak order on
    arbitrary clocks. *)
Theorem vector_clock_less_cyclic :
  let a := [NC 1 1 0; NC 2 1 1; NC 3 1 2] in
  let b := [NC 1 1 1; NC 2 1 2; NC 3 1 0] in
  let c := [NC 1 1 2; NC 2 1 0; NC 3 1 1] in
  vltb a b = Ret true /\ vltb b c = Ret true /\ vltb c a = Ret true.
Proof. vm_compute. done. Qed.

End VectorClock.
