(* ===== verification/Murmur.v ===== *)
(** * MurmurHash3 and the queue-name hash

    Models [thirdparty/src/MurmurHash3/MurmurHash3.cpp] (the x86_32, x86_128 and
    x64_128 functions, on a little-endian machine) and [util::murmur_hash3] of
    [shared/src/util.cpp]. A read of the input outside its bounds is [Undef], so
    the totality theorems are also memory-safety theorems. *)

From Stdlib Require Import ZArith Lia.
From stdpp Require Import base list.
From S2P Require Import Prelude Uint128.

Local Open Scope Z_scope.
Local Open Scope sopmq_scope.

Module Murmur.

Definition bytes_ok (data : list Z) : Prop := Forall (in_width 8) data.

(** ** Reads *)

Definition byte_at (data : list Z) (i : Z) : outcome Z :=
  if i <? 0 then Undef
  else match data !! Z.to_nat i with Some b => Ret b | None => Undef end.

(** [n] bytes from offset [off], least significant first. *)
Fixpoint load_le (n : nat) (data : list Z) (off : Z) : outcome Z :=
  match n with
  | O => Ret 0
  | S n =>
    b <~ byte_at data off;;
    r <~ load_le n data (off + 1);;
    Ret (Z.lor b (Z.shiftl r 8))
  end.

(** [p[i]] where [p] points at byte [base] of the input. *)
Definition getblock32 (data : list Z) (base i : Z) : outcome Z := load_le 4 data (base + 4 * i).
Definition getblock64 (data : list Z) (base i : Z) : outcome Z := load_le 8 data (base + 8 * i).

(** ** Mixing *)

Definition rotl32 (x r : Z) : Z := Z.lor (u32 (Z.shiftl x r)) (Z.shiftr x (32 - r)).
Definition rotl64 (x r : Z) : Z := Z.lor (u64 (Z.shiftl x r)) (Z.shiftr x (64 - r)).

Definition fmix32 (h : Z) : Z :=
  let h := Z.lxor h (Z.shiftr h 16) in
  let h := u32 (h * 0x85ebca6b) in
  let h := Z.lxor h (Z.shiftr h 13) in
  let h := u32 (h * 0xc2b2ae35) in
  Z.lxor h (Z.shiftr h 16).

Definition fmix64 (k : Z) : Z :=
  let k := Z.lxor k (Z.shiftr k 33) in
  let k := u64 (k * 0xff51afd7ed558ccd) in
  let k := Z.lxor k (Z.shiftr k 33) in
  let k := u64 (k * 0xc4ceb9fe1a85ec53) in
  Z.lxor k (Z.shiftr k 33).

(** [case c:] of a switch on [r] whose cases all fall through downwards: the
    statement of label [c] runs exactly when the switch entered at [c] or above. *)
Definition case_from (r c : Z) {A} (stmt : A -> outcome A) (st : A) : outcome A :=
  if c <=? r then stmt st else Ret st.

(** [k ^= tail[i] << s], in w-bit arithmetic. *)
Definition xor_tail (w : Z) (data : list Z) (tail i s : Z) (k : Z) : outcome Z :=
  b <~ byte_at data (tail + i);; Ret (Z.lxor k (wrap w (Z.shiftl b s))).

(** A run of consecutive fall-through cases [(label, index, shift)]. *)
Fixpoint xor_cases (w : Z) (data : list Z) (tail r : Z) (cs : list (Z * Z * Z)) (k : Z) : outcome Z :=
  match cs with
  | [] => Ret k
  | (c, i, s) :: cs =>
    k <~ case_from r c (xor_tail w data tail i s) k;;
    xor_cases w data tail r cs k
  end.

(** ** MurmurHash3_x86_32 *)

Definition c1_32 : Z := 0xcc9e2d51.
Definition c2_32 : Z := 0x1b873593.

(** [k1 *= c1; k1 = ROTL32(k1,15); k1 *= c2; h1 ^= k1;] *)
Definition mix_x86_32 (k1 h1 : Z) : Z :=
  Z.lxor h1 (u32 (rotl32 (u32 (k1 * c1_32)) 15 * c2_32)).

(** The loop [for (int i = -nblocks; i; i++)], [n] iterations before the end. *)
Fixpoint body_x86_32 (n : nat) (data : list Z) (blocks : Z) (h1 : Z) : outcome Z :=
  match n with
  | O => Ret h1
  | S n' =>
    k1 <~ getblock32 data blocks (- Z.of_nat n);;
    let h1 := rotl32 (mix_x86_32 k1 h1) 13 in
    body_x86_32 n' data blocks (u32 (h1 * 5 + 0xe6546b64))
  end.

Definition MurmurHash3_x86_32 (data : list Z) (len seed : Z) : outcome Z :=
  let nblocks := len / 4 in
  h1 <~ body_x86_32 (Z.to_nat nblocks) data (nblocks * 4) seed;;
  let tail := nblocks * 4 in
  let r := Z.land len 3 in
  k1 <~ xor_cases 32 data tail r [(3, 2, 16); (2, 1, 8); (1, 0, 0)] 0;;
  h1 <~ case_from r 1 (fun h1 => Ret (mix_x86_32 k1 h1)) h1;;
  Ret (fmix32 (Z.lxor h1 len)).

(** ** MurmurHash3_x86_128 *)

Definition c1_x86 : Z := 0x239b961b.
Definition c2_x86 : Z := 0xab0e9789.
Definition c3_x86 : Z := 0x38b34ae5.
Definition c4_x86 : Z := 0xa1e38b93.

(** [k *= ca; k = ROTL32(k,r); k *= cb; h ^= k;] *)
Definition mix_x86_128 (ca r cb k h : Z) : Z :=
  Z.lxor h (u32 (rotl32 (u32 (k * ca)) r * cb)).

(** [h = ROTL32(h,r); h += g; h = h*5+c;] *)
Definition spin_x86_128 (r c h g : Z) : Z := u32 (u32 (rotl32 h r + g) * 5 + c).

Fixpoint body_x86_128 (n : nat) (data : list Z) (blocks : Z) (h : Z * Z * Z * Z)
    : outcome (Z * Z * Z * Z) :=
  match n with
  | O => Ret h
  | S n' =>
    let '(h1, h2, h3, h4) := h in
    let i := - Z.of_nat n in
    k1 <~ getblock32 data blocks (i * 4 + 0);;
    k2 <~ getblock32 data blocks (i * 4 + 1);;
    k3 <~ getblock32 data blocks (i * 4 + 2);;
    k4 <~ getblock32 data blocks (i * 4 + 3);;
    let h1 := spin_x86_128 19 0x561ccd1b (mix_x86_128 c1_x86 15 c2_x86 k1 h1) h2 in
    let h2 := spin_x86_128 17 0x0bcaa747 (mix_x86_128 c2_x86 16 c3_x86 k2 h2) h3 in
    let h3 := spin_x86_128 15 0x96cd1c35 (mix_x86_128 c3_x86 17 c4_x86 k3 h3) h4 in
    let h4 := spin_x86_128 13 0x32ac3b17 (mix_x86_128 c4_x86 18 c1_x86 k4 h4) h1 in
    body_x86_128 n' data blocks (h1, h2, h3, h4)
  end.

Definition MurmurHash3_x86_128 (data : list Z) (len seed : Z) : outcome (Z * Z * Z * Z) :=
  let nblocks := len / 16 in
  h <~ body_x86_128 (Z.to_nat nblocks) data (nblocks * 16) (seed, seed, seed, seed);;
  let '(h1, h2, h3, h4) := h in
  let tail := nblocks * 16 in
  let r := Z.land len 15 in
  k4 <~ xor_cases 32 data tail r [(15, 14, 16); (14, 13, 8); (13, 12, 0)] 0;;
  h4 <~ case_from r 13 (fun h4 => Ret (mix_x86_128 c4_x86 18 c1_x86 k4 h4)) h4;;
  k3 <~ xor_cases 32 data tail r [(12, 11, 24); (11, 10, 16); (10, 9, 8); (9, 8, 0)] 0;;
  h3 <~ case_from r 9 (fun h3 => Ret (mix_x86_128 c3_x86 17 c4_x86 k3 h3)) h3;;
  k2 <~ xor_cases 32 data tail r [(8, 7, 24); (7, 6, 16); (6, 5, 8); (5, 4, 0)] 0;;
  h2 <~ case_from r 5 (fun h2 => Ret (mix_x86_128 c2_x86 16 c3_x86 k2 h2)) h2;;
  k1 <~ xor_cases 32 data tail r [(4, 3, 24); (3, 2, 16); (2, 1, 8); (1, 0, 0)] 0;;
  h1 <~ case_from r 1 (fun h1 => Ret (mix_x86_128 c1_x86 15 c2_x86 k1 h1)) h1;;
  let h1 := Z.lxor h1 len in let h2 := Z.lxor h2 len in
  let h3 := Z.lxor h3 len in let h4 := Z.lxor h4 len in
  let h1 := u32 (h1 + h2) in let h1 := u32 (h1 + h3) in let h1 := u32 (h1 + h4) in
  let h2 := u32 (h2 + h1) in let h3 := u32 (h3 + h1) in let h4 := u32 (h4 + h1) in
  let h1 := fmix32 h1 in let h2 := fmix32 h2 in
  let h3 := fmix32 h3 in let h4 := fmix32 h4 in
  let h1 := u32 (h1 + h2) in let h1 := u32 (h1 + h3) in let h1 := u32 (h1 + h4) in
  let h2 := u32 (h2 + h1) in let h3 := u32 (h3 + h1) in let h4 := u32 (h4 + h1) in
  Ret (h1, h2, h3, h4).

(** ** MurmurHash3_x64_128 *)

Definition c1_x64 : Z := 0x87c37b91114253d5.
Definition c2_x64 : Z := 0x4cf5ad432745937f.

(** [k *= ca; k = ROTL64(k,r); k *= cb; h ^= k;] *)
Definition mix_x64 (ca r cb k h : Z) : Z :=
  Z.lxor h (u64 (rotl64 (u64 (k * ca)) r * cb)).

(** [h = ROTL64(h,r); h += g; h = h*5+c;] *)
Definition spin_x64 (r c h g : Z) : Z := u64 (u64 (rotl64 h r + g) * 5 + c).

(** The loop [for (int i = 0; i < nblocks; i++)], from block [i]. *)
Fixpoint body_x64 (n : nat) (i : Z) (data : list Z) (h : Z * Z) : outcome (Z * Z) :=
  match n with
  | O => Ret h
  | S n =>
    let '(h1, h2) := h in
    k1 <~ getblock64 data 0 (i * 2 + 0);;
    k2 <~ getblock64 data 0 (i * 2 + 1);;
    let h1 := spin_x64 27 0x52dce729 (mix_x64 c1_x64 31 c2_x64 k1 h1) h2 in
    let h2 := spin_x64 31 0x38495ab5 (mix_x64 c2_x64 33 c1_x64 k2 h2) h1 in
    body_x64 n (i + 1) data (h1, h2)
  end.

Definition tail_x64_k2 : list (Z * Z * Z) :=
  [(15, 14, 48); (14, 13, 40); (13, 12, 32); (12, 11, 24); (11, 10, 16); (10, 9, 8); (9, 8, 0)].
Definition tail_x64_k1 : list (Z * Z * Z) :=
  [(8, 7, 56); (7, 6, 48); (6, 5, 40); (5, 4, 32); (4, 3, 24); (3, 2, 16); (2, 1, 8); (1, 0, 0)].

Definition MurmurHash3_x64_128 (data : list Z) (len seed : Z) : outcome (Z * Z) :=
  let nblocks := len / 16 in
  h <~ body_x64 (Z.to_nat nblocks) 0 data (seed, seed);;
  let '(h1, h2) := h in
  let tail := nblocks * 16 in
  let r := Z.land len 15 in
  k2 <~ xor_cases 64 data tail r tail_x64_k2 0;;
  h2 <~ case_from r 9 (fun h2 => Ret (mix_x64 c2_x64 33 c1_x64 k2 h2)) h2;;
  k1 <~ xor_cases 64 data tail r tail_x64_k1 0;;
  h1 <~ case_from r 1 (fun h1 => Ret (mix_x64 c1_x64 31 c2_x64 k1 h1)) h1;;
  let h1 := Z.lxor h1 len in let h2 := Z.lxor h2 len in
  let h1 := u64 (h1 + h2) in
  let h2 := u64 (h2 + h1) in
  let h1 := fmix64 h1 in let h2 := fmix64 h2 in
  let h1 := u64 (h1 + h2) in
  let h2 := u64 (h2 + h1) in
  Ret (h1, h2).

(** ** util::murmur_hash3 *)

Definition SEED : Z := -147483647.

(** The hash of [len] bytes at [key]; the out pointer is [&hash.lo], so the two
    words land in [lo] and [hi]. *)
Definition murmur_hash3 (key : list Z) (len : Z) : outcome Uint128.uint128 :=
  h <~ MurmurHash3_x64_128 key len (u32 SEED);;
  Ret (Uint128.U128 h.1 h.2).

(** The overload on [std::string]: the length is converted to [int]. *)
Definition murmur_hash3_string (value : list Z) : outcome Uint128.uint128 :=
  murmur_hash3 value (i32 (Z.of_nat (length value))).

(** ** Reads stay in bounds *)

Lemma byte_at_ok data i : bytes_ok data -> 0 <= i < Z.of_nat (length data) ->
  exists b, byte_at data i = Ret b /\ in_width 8 b.
Proof.
  intros Hd Hi. unfold byte_at. destruct (Z.ltb_spec i 0); [lia|].
  destruct (lookup_lt_is_Some_2 data (Z.to_nat i)) as [b Hb]; [lia|].
  exists b. rewrite Hb. split; [done|]. by eapply Forall_lookup_1 in Hd.
Qed.

Lemma in_width_mono w w' x : 0 <= w <= w' -> in_width w x -> in_width w' x.
Proof.
  unfold in_width. intros Hw Hx. assert (2 ^ w <= 2 ^ w') by (apply Z.pow_le_mono_r; lia). lia.
Qed.

Lemma shiftl_width w x n : 0 <= w -> 0 <= n -> in_width w x -> in_width (w + n) (Z.shiftl x n).
Proof.
  unfold in_width. intros Hw Hn Hx. rewrite Z.shiftl_mul_pow2, Z.pow_add_r by lia.
  assert (0 < 2 ^ n) by lia. nia.
Qed.

Lemma load_le_ok n data off : bytes_ok data -> 0 <= off -> off + Z.of_nat n <= Z.of_nat (length data) ->
  exists r, load_le n data off = Ret r /\ in_width (8 * Z.of_nat n) r.
Proof.
  revert off. induction n as [|n IH]; intros off Hd Ho Hl; cbn [load_le].
  { exists 0. done. }
  destruct (byte_at_ok data off) as (b & -> & Hb); [done|lia|]. cbn [obind].
  destruct (IH (off + 1)) as (r & -> & Hr); [done|lia|lia|]. cbn [obind].
  eexists. split; [done|]. apply lor_width.
  - apply in_width_mono with 8; [lia|done].
  - replace (8 * Z.of_nat (S n)) with (8 * Z.of_nat n + 8) by lia. apply shiftl_width; (lia || done).
Qed.

(** ** Widths of the mixing steps *)

Lemma rotl32_width x r : 0 <= r <= 32 -> in_width 32 x -> in_width 32 (rotl32 x r).
Proof. intros. apply lor_width; [apply wrap_width; lia|apply shiftr_width; (done || lia)]. Qed.

Lemma rotl64_width x r : 0 <= r <= 64 -> in_width 64 x -> in_width 64 (rotl64 x r).
Proof. intros. apply lor_width; [apply wrap_width; lia|apply shiftr_width; (done || lia)]. Qed.

Lemma mix_x64_width ca r cb k h : in_width 64 h -> in_width 64 (mix_x64 ca r cb k h).
Proof. intros. apply lxor_width; [done|]. apply wrap_width; lia. Qed.

Lemma mix_x86_128_width ca r cb k h : in_width 32 h -> in_width 32 (mix_x86_128 ca r cb k h).
Proof. intros. apply lxor_width; [done|]. apply wrap_width; lia. Qed.

Lemma xorshift_width w x n : in_width w x -> 0 <= n -> in_width w (Z.lxor x (Z.shiftr x n)).
Proof. intros. apply lxor_width; [done|]. by apply shiftr_width. Qed.

Lemma fmix64_width k : in_width 64 (fmix64 k).
Proof. apply xorshift_width; [apply wrap_width; lia|lia]. Qed.

Lemma fmix32_width k : in_width 32 (fmix32 k).
Proof. apply xorshift_width; [apply wrap_width; lia|lia]. Qed.

(** ** The tail switch *)

Lemma case_from_ok {A} (P : A -> Prop) r c stmt (st : A) :
  P st -> (c <= r -> exists st', stmt st = Ret st' /\ P st') ->
  exists st', case_from r c stmt st = Ret st' /\ P st'.
Proof. intros Hst Hs. unfold case_from. destruct (Z.leb_spec c r); [auto|eauto]. Qed.

(** Labels name the number of tail bytes they need: label [c] reads byte [c - 1]. *)
Definition label_ok (t : Z * Z * Z) : Prop := 0 <= t.1.2 /\ t.1.1 = t.1.2 + 1.

Lemma xor_cases_ok w data tail r cs k :
  0 <= w -> bytes_ok data -> 0 <= tail -> tail + r <= Z.of_nat (length data) ->
  Forall label_ok cs -> in_width w k ->
  exists k', xor_cases w data tail r cs k = Ret k' /\ in_width w k'.
Proof.
  intros Hw Hd Ht Hr Hcs. revert k.
  induction Hcs as [|[[c i] s] cs [Hi Hc] Hcs IH]; intros k Hk; cbn [xor_cases]; [by exists k|].
  simpl in Hi, Hc.
  destruct (case_from_ok (in_width w) r c (xor_tail w data tail i s) k) as (k' & -> & Hk'); [done| |].
  { intros Hcr. unfold xor_tail.
    destruct (byte_at_ok data (tail + i)) as (b & -> & _); [done|lia|]. cbn [obind].
    eexists. split; [done|]. apply lxor_width; [done|]. by apply wrap_width. }
  cbn [obind]. by apply IH.
Qed.

Lemma block_split len m : 0 < m -> 0 <= len ->
  0 <= len / m /\ len / m * m + len mod m = len /\ 0 <= len mod m < m.
Proof.
  intros. pose proof (Z.div_mod len m ltac:(lia)). pose proof (Z.mod_pos_bound len m ltac:(lia)).
  pose proof (Z.div_pos len m ltac:(lia) ltac:(lia)). lia.
Qed.

(** ** The body loops *)

Definition pair_ok (h : Z * Z) : Prop := in_width 64 h.1 /\ in_width 64 h.2.
Definition quad_ok (h : Z * Z * Z * Z) : Prop :=
  in_width 32 h.1.1.1 /\ in_width 32 h.1.1.2 /\ in_width 32 h.1.2 /\ in_width 32 h.2.

Lemma body_x64_ok n i data h : bytes_ok data -> 0 <= i ->
  16 * (i + Z.of_nat n) <= Z.of_nat (length data) -> pair_ok h ->
  exists h', body_x64 n i data h = Ret h' /\ pair_ok h'.
Proof.
  revert i h. induction n as [|n IH]; intros i [h1 h2] Hd Hi Hl Hh; cbn [body_x64]; [by exists (h1, h2)|].
  destruct (load_le_ok 8 data (0 + 8 * (i * 2 + 0))) as (k1 & E1 & _); [done|lia|lia|].
  destruct (load_le_ok 8 data (0 + 8 * (i * 2 + 1))) as (k2 & E2 & _); [done|lia|lia|].
  unfold getblock64. rewrite E1, E2. cbn [obind]. apply IH; [done|lia|lia|].
  split; apply wrap_width; lia.
Qed.

Lemma body_x86_128_ok n data blocks h : bytes_ok data ->
  16 * Z.of_nat n <= blocks -> blocks <= Z.of_nat (length data) -> quad_ok h ->
  exists h', body_x86_128 n data blocks h = Ret h' /\ quad_ok h'.
Proof.
  revert h. induction n as [|n IH]; intros [[[h1 h2] h3] h4] Hd Hn Hb Hh; [by eexists|].
  cbn [body_x86_128]. unfold getblock32.
  set (i := - Z.of_nat (S n)).
  destruct (load_le_ok 4 data (blocks + 4 * (i * 4 + 0))) as (k1 & -> & _); [done|lia|lia|].
  destruct (load_le_ok 4 data (blocks + 4 * (i * 4 + 1))) as (k2 & -> & _); [done|lia|lia|].
  destruct (load_le_ok 4 data (blocks + 4 * (i * 4 + 2))) as (k3 & -> & _); [done|lia|lia|].
  destruct (load_le_ok 4 data (blocks + 4 * (i * 4 + 3))) as (k4 & -> & _); [done|lia|lia|].
  cbn [obind]. apply IH; [done|lia|lia|].
  split_and!; apply wrap_width; lia.
Qed.

Lemma body_x86_32_ok n data blocks h : bytes_ok data ->
  4 * Z.of_nat n <= blocks -> blocks <= Z.of_nat (length data) -> in_width 32 h ->
  exists h', body_x86_32 n data blocks h = Ret h' /\ in_width 32 h'.
Proof.
  revert h. induction n as [|n IH]; intros h Hd Hn Hb Hh; [by eexists|].
  cbn [body_x86_32]. unfold getblock32.
  destruct (load_le_ok 4 data (blocks + 4 * - Z.of_nat (S n))) as (k1 & -> & _); [done|lia|lia|].
  cbn [obind]. apply IH; [done|lia|lia|]. apply wrap_width; lia.
Qed.

Lemma land_low len m : 0 <= len -> 0 <= m -> Z.land len (Z.ones m) = len mod 2 ^ m.
Proof. intros. by apply Z.land_ones. Qed.

Ltac labels := repeat constructor; simpl; lia.

Lemma MurmurHash3_x64_128_ok data len seed : bytes_ok data -> len = Z.of_nat (length data) ->
  in_width 32 seed ->
  exists h, MurmurHash3_x64_128 data len seed = Ret h /\ pair_ok h.
Proof.
  intros Hd -> Hs. set (len := Z.of_nat (length data)).
  destruct (block_split len 16) as (Hq & Hsplit & Hr); [lia|lia|].
  assert (in_width 64 seed) by (apply in_width_mono with 32; (lia || done)).
  unfold MurmurHash3_x64_128.
  destruct (body_x64_ok (Z.to_nat (len / 16)) 0 data (seed, seed)) as ([h1 h2] & -> & [H1 H2]);
    [done|lia|lia|done|]. cbn [obind].
  change 15 with (Z.ones 4). rewrite land_low by lia. change (2 ^ 4) with 16.
  change (Z.ones 4) with 15.
  destruct (xor_cases_ok 64 data (len / 16 * 16) (len mod 16) tail_x64_k2 0) as (k2 & -> & _);
    try done; try lia; [labels|]. cbn [obind].
  destruct (case_from_ok (in_width 64) (len mod 16) 9
    (fun h2 => Ret (mix_x64 c2_x64 33 c1_x64 k2 h2)) h2) as (h2' & -> & _);
    [done|intros; eexists; split; [done|by apply mix_x64_width]|]. cbn [obind].
  destruct (xor_cases_ok 64 data (len / 16 * 16) (len mod 16) tail_x64_k1 0) as (k1 & -> & _);
    try done; try lia; [labels|]. cbn [obind].
  destruct (case_from_ok (in_width 64) (len mod 16) 1
    (fun h1 => Ret (mix_x64 c1_x64 31 c2_x64 k1 h1)) h1) as (h1' & -> & _);
    [done|intros; eexists; split; [done|by apply mix_x64_width]|]. cbn [obind].
  eexists. split; [done|]. split; apply wrap_width; lia.
Qed.

Lemma MurmurHash3_x86_32_ok data len seed : bytes_ok data -> len = Z.of_nat (length data) ->
  in_width 32 seed ->
  exists h, MurmurHash3_x86_32 data len seed = Ret h /\ in_width 32 h.
Proof.
  intros Hd -> Hs. set (len := Z.of_nat (length data)).
  destruct (block_split len 4) as (Hq & Hsplit & Hr); [lia|lia|].
  unfold MurmurHash3_x86_32.
  destruct (body_x86_32_ok (Z.to_nat (len / 4)) data (len / 4 * 4) seed) as (h1 & -> & H1);
    [done|lia|lia|done|]. cbn [obind].
  change (Z.land len 3) with (Z.land len (Z.ones 2)). rewrite land_low by lia. change (2 ^ 2) with 4.
  destruct (xor_cases_ok 32 data (len / 4 * 4) (len mod 4) [(3, 2, 16); (2, 1, 8); (1, 0, 0)] 0)
    as (k1 & -> & _); try done; try lia; [labels|]. cbn [obind].
  destruct (case_from_ok (fun _ => True) (len mod 4) 1 (fun h1 => Ret (mix_x86_32 k1 h1)) h1)
    as (h1' & -> & _); [done|intros; by eexists|]. cbn [obind].
  eexists. split; [done|]. apply fmix32_width.
Qed.

Lemma MurmurHash3_x86_128_ok data len seed : bytes_ok data -> len = Z.of_nat (length data) ->
  in_width 32 seed ->
  exists h, MurmurHash3_x86_128 data len seed = Ret h /\ quad_ok h.
Proof.
  intros Hd -> Hs. set (len := Z.of_nat (length data)).
  destruct (block_split len 16) as (Hq & Hsplit & Hr); [lia|lia|].
  unfold MurmurHash3_x86_128.
  destruct (body_x86_128_ok (Z.to_nat (len / 16)) data (len / 16 * 16) (seed, seed, seed, seed))
    as ([[[h1 h2] h3] h4] & -> & _); [done|lia|lia|done|]. cbn [obind].
  change (Z.land len 15) with (Z.land len (Z.ones 4)). rewrite land_low by lia. change (2 ^ 4) with 16.
  repeat match goal with
  | |- context [xor_cases 32 data ?t ?r ?cs 0] =>
    let k := fresh "k" in
    destruct (xor_cases_ok 32 data t r cs 0) as (k & -> & _); try done; try lia; [labels|]; cbn [obind]
  | |- context [case_from ?r ?c ?f ?h] =>
    let h' := fresh "h" in
    destruct (case_from_ok (fun _ => True) r c f h) as (h' & -> & _);
      [done|intros; by eexists|]; cbn [obind]
  end.
  eexists. split; [done|]. split_and!; apply wrap_width; lia.
Qed.

(** ** The finalizer is a bijection *)

Lemma xorshift_involutive w n x : in_width w x -> 0 <= n -> w <= 2 * n ->
  Z.lxor (Z.lxor x (Z.shiftr x n)) (Z.shiftr (Z.lxor x (Z.shiftr x n)) n) = x.
Proof.
  intros Hx Hn Hw. zbits i.
  rewrite (testbit_above w x (i + n + n)) by (done || lia).
  destruct (Z.testbit x i), (Z.testbit x (i + n)); done.
Qed.

Lemma mul_inverse w c c' x : in_width w x -> wrap w (c * c') = 1 ->
  wrap w (wrap w (x * c) * c') = x.
Proof.
  intros Hx Hc. rewrite wrap_mul_l, <- Z.mul_assoc, <- wrap_mul_r, Hc, Z.mul_1_r.
  by apply wrap_small.
Qed.

(** The inverse of [fmix64], with the modular inverses of its two constants. *)
Definition unfmix64 (k : Z) : Z :=
  let k := Z.lxor k (Z.shiftr k 33) in
  let k := u64 (k * 0x9cb4b2f8129337db) in
  let k := Z.lxor k (Z.shiftr k 33) in
  let k := u64 (k * 0x4f74430c22a54005) in
  Z.lxor k (Z.shiftr k 33).

Lemma unfmix64_fmix64 k : in_width 64 k -> unfmix64 (fmix64 k) = k.
Proof.
  intros Hk. unfold unfmix64, fmix64.
  rewrite (xorshift_involutive 64 33) by (lia || (apply wrap_width; lia)).
  rewrite mul_inverse by (done || (apply xorshift_width; [apply wrap_width; lia|lia])).
  rewrite (xorshift_involutive 64 33) by (lia || (apply wrap_width; lia)).
  rewrite mul_inverse by (done || (apply xorshift_width; [done|lia])).
  by apply (xorshift_involutive 64 33).
Qed.

Lemma murmur_hash3_string_ok value :
  bytes_ok value -> Z.of_nat (length value) < 2 ^ 31 ->
  exists h, murmur_hash3_string value = Ret h /\ Uint128.wf h.
Proof.
  intros Hv Hl. unfold murmur_hash3_string, murmur_hash3.
  assert (i32 (Z.of_nat (length value)) = Z.of_nat (length value)) as ->.
  { unfold swrap. rewrite Z.mod_small; lia. }
  destruct (MurmurHash3_x64_128_ok value (Z.of_nat (length value)) (u32 SEED)) as ([h1 h2] & -> & H);
    [done|done|apply wrap_width; lia|]. cbn [obind].
  eexists. split; [done|]. exact H.
Qed.

(** ** Properties *)

(** Hashing a queue name reads only the bytes of the name and returns a
    well-formed 128-bit key, for every name shorter than 2^31 bytes. *)
Theorem murmur_hash3_total value :
  bytes_ok value -> Z.of_nat (length value) < 2 ^ 31 ->
  exists h, murmur_hash3_string value = Ret h /\ Uint128.wf h.
Proof. apply murmur_hash3_string_ok. Qed.

Lemma murmur_hash3_total_witness :
  exists h, murmur_hash3_string [113; 117; 101; 117; 101] = Ret h /\ Uint128.wf h.
Proof.
  apply (murmur_hash3_total [113; 117; 101; 117; 101]); [|simpl; lia].
  apply (bool_decide_unpack _). by vm_compute.
Defined.

(** The finalizer of the 64-bit hash is injective on 64-bit words: distinct
    mixed states stay distinct. *)
Theorem fmix64_injective k k' :
  in_width 64 k -> in_width 64 k' -> fmix64 k = fmix64 k' -> k = k'.
Proof.
  intros Hk Hk' E. by rewrite <- (unfmix64_fmix64 k Hk), E, unfmix64_fmix64.
Qed.

Lemma fmix64_injective_witness : 12345 = unfmix64 (fmix64 12345).
Proof. apply fmix64_injective; vm_compute; done. Defined.

(** Published test vectors of the three functions. *)
Example x86_32_hello : MurmurHash3_x86_32 [104; 101; 108; 108; 111] 5 0 = Ret 0x248bfa47.
Proof. reflexivity. Qed.

Example x64_128_fox :
  MurmurHash3_x64_128
    [84;104;101;32;113;117;105;99;107;32;98;114;111;119;110;32;102;111;120;32;106;117;109;112;115;
     32;111;118;101;114;32;116;104;101;32;108;97;122;121;32;100;111;103] 43 0
  = Ret (0xe34bbc7bbc071b6c, 0x7a433ca9c49a9347).
Proof. vm_compute. reflexivity. Qed.

End Murmur.
