(* ===== verification/MessageQueue.v ===== *)
(** * The in-memory message queue of a node

    Models [node/src/queued_message.h] and [node/src/message_queue.h]: messages
    wait unstamped until the quorum has agreed on a vector clock, then move to
    the multimap ordered by clock, from which they are peeked or expired. [peek], [claim]
    and [next_expiry] are members of the template that nothing instantiates and that do
    not compile when they are ([std::lock_guard<std::mutex>] on a [unique_ptr], members of
    a map entry that it does not have, no return value): they have no meaning to model.

    Time is in nanoseconds of the steady clock; the readings made inside one
    locked call are taken at one instant, the argument [now]. Multimap iterators
    are handles: every inserted node gets a fresh one, and an iterator is valid
    while its handle is in the list. *)

From Stdlib Require Import ZArith Lia.
From stdpp Require Import base list gmap sorting strings.
From S2P Require Import Prelude Uint128 Clocks.

Local Open Scope Z_scope.
Local Open Scope sopmq_scope.

Module MessageQueue.
Import NodeClock VectorClock.

(** The 16 bytes of a [boost::uuids::uuid]; payloads are byte strings. *)
Abbreviation uuid := (list Z).
Abbreviation bytes := (list Z).

Definition ns_per_sec : Z := 1000000000.

(** ** queued_message *)

Record queued_message := QM {
  _id : uuid;
  _data : bytes;
  _local_time : Z;
  _vclock : vclock
}.

Definition update_local_timestamp (now : Z) (m : queued_message) : queued_message :=
  QM (_id m) (_data m) now (_vclock m).

Definition set_vclock (mclock : vclock) (m : queued_message) : queued_message :=
  QM (_id m) (_data m) (_local_time m) mclock.

Definition age (now : Z) (m : queued_message) : Z := now - _local_time m.

Section Queue.
Context (RF : nat).

(** Takes ownership of the payload; the clock is value-initialised. *)
Definition queued_message_new (now : Z) (id : uuid) (data : bytes) : queued_message :=
  QM id data now (vector_clock_new RF).

(** [sizeof] of uuid (16), time_point (8) and RF node clocks (16 each). *)
Definition calc_size (dataSize : Z) : Z := u32 (16 + 8 + 16 * Z.of_nat RF + dataSize).

Definition msg_size (m : queued_message) : Z := calc_size (Z.of_nat (length (_data m))).

(** ** message_queue *)

(** A node of the multimap: its handle, its key and the message. *)
Record entry := Entry { e_handle : nat; e_key : vclock; e_msg : queued_message }.

(** Left out: [_queue_lock], since operations are steps of one thread here
    ([QueueThreads] has the threads), and [_last_message_received], which no operation reads or sets. *)
Record message_queue := MQ {
  _queue_id : Uint128.uint128;
  _created_on : Z;
  _total_message_size : Z;
  _ttl_set : bool;
  _ttl : Z;
  _unstamped_messages : gmap uuid queued_message;
  _queued_messages : list entry;
  _message_index : gmap uuid nat;
  next_handle : nat
}.

Definition message_queue_new (now : Z) (queueId : Uint128.uint128) : message_queue :=
  MQ queueId now 0 false 0 ∅ [] ∅ 0.

(** Before the first key greater than the new one. The comparator [vltb] never throws;
    [vless] is its value. *)
Fixpoint mm_place (e : entry) (l : list entry) : list entry :=
  match l with
  | [] => [e]
  | e' :: l => if vless (e_key e) (e_key e') then e :: e' :: l else e' :: mm_place e l
  end.

(** Insertion into a [std::multimap]: defined when the comparison is a strict weak order on
    the keys. The hint [_queued_messages.end()--] is [end()]: as close to it as the order
    allows is behind the last key that is not greater, where an insertion without a hint
    goes as well. *)
Definition mm_insert (e : entry) (l : list entry) : outcome (list entry) :=
  if strict_weak (e_key e :: (e_key <$> l)) then Ret (mm_place e l) else Undef.

(** [unordered_map::insert] keeps the value already stored under the key. *)
Definition um_insert {V} (k : uuid) (v : V) (m : gmap uuid V) : gmap uuid V :=
  match m !! k with Some _ => m | None => <[k := v]> m end.

Definition enqueue (now : Z) (id : uuid) (data : bytes) (ttlSecs : Z) (q : message_queue)
    : message_queue :=
  MQ (_queue_id q) (_created_on q)
     (u32 (_total_message_size q + calc_size (Z.of_nat (length data))))
     true (if _ttl_set q then _ttl q else ttlSecs)
     (um_insert id (queued_message_new now id data) (_unstamped_messages q))
     (_queued_messages q) (_message_index q) (next_handle q).

Definition stamp (now : Z) (id : uuid) (vc : vclock) (q : message_queue) : outcome (bool * message_queue) :=
  match _unstamped_messages q !! id with
  | Some m =>
    let message := update_local_timestamp now m in
    let pos := next_handle q in
    queued <~ mm_insert (Entry pos vc message) (_queued_messages q);;
    Ret (true,
      MQ (_queue_id q) (_created_on q) (_total_message_size q) (_ttl_set q) (_ttl q)
        (delete id (_unstamped_messages q)) queued
        (um_insert id pos (_message_index q))
        (S (next_handle q)))
  | None => Ret (false, q)
  end.

(** The age test of [expire_messages]. *)
Definition expired (now ttl : Z) (m : queued_message) : bool := ttl * ns_per_sec <? age now m.

(** The first loop: from the front, until a message that is not too old. *)
Fixpoint expire_queued (now ttl : Z) (l : list entry) (size : Z) : list entry * Z :=
  match l with
  | [] => ([], size)
  | e :: l' =>
    if expired now ttl (e_msg e)
    then expire_queued now ttl l' (u32 (size - msg_size (e_msg e)))
    else (l, size)
  end.

(** The second loop: every unstamped message is tested. *)
Fixpoint expire_unstamped (now ttl : Z) (l : list (uuid * queued_message))
    (m : gmap uuid queued_message) (size : Z) : gmap uuid queued_message * Z :=
  match l with
  | [] => (m, size)
  | (k, x) :: l =>
    if expired now ttl x
    then expire_unstamped now ttl l (delete k m) (u32 (size - msg_size x))
    else expire_unstamped now ttl l m size
  end.

Definition expire_messages (now : Z) (q : message_queue) : message_queue :=
  let '(queued, size) := expire_queued now (_ttl q) (_queued_messages q) (_total_message_size q) in
  let '(unstamped, size) :=
    expire_unstamped now (_ttl q) (map_to_list (_unstamped_messages q)) (_unstamped_messages q) size in
  MQ (_queue_id q) (_created_on q) size (_ttl_set q) (_ttl q)
     unstamped queued (_message_index q) (next_handle q).

Definition memory_size (q : message_queue) : Z := _total_message_size q.

Definition total_count (q : message_queue) : nat :=
  (size (_unstamped_messages q) + length (_queued_messages q))%nat.

Definition peekAll (q : message_queue) : list queued_message := e_msg <$> _queued_messages q.

(** ** Runs: the operations a queue can go through, in any order *)

Inductive op :=
| Enqueue (now : Z) (id : uuid) (data : bytes) (ttlSecs : Z)
| Stamp (now : Z) (id : uuid) (vc : vclock)
| Expire (now : Z).

Definition exec (o : op) (q : message_queue) : outcome message_queue :=
  match o with
  | Enqueue now id data ttl => Ret (enqueue now id data ttl q)
  | Stamp now id vc => r <~ stamp now id vc q;; Ret r.2
  | Expire now => Ret (expire_messages now q)
  end.

Fixpoint run (ops : list op) (q : message_queue) : outcome message_queue :=
  match ops with
  | [] => Ret q
  | o :: ops => q <~ exec o q;; run ops q
  end.

(** The ids a run enqueues, in order. *)
Definition enqueued_ids (ops : list op) : list uuid :=
  omap (fun o => match o with Enqueue _ id _ _ => Some id | _ => None end) ops.

(** The clocks a run stamps with. *)
Definition stamps (ops : list op) : list vclock :=
  omap (fun o => match o with Stamp _ _ vc => Some vc | _ => None end) ops.

(** Runs in which messages may also be taken out. No operation that compiles does that;
    whatever a working [claim] erases from the multimap, and makes of the total and the
    index, is an [Erase]. *)
Inductive qop := Op (o : op) | Erase (keep : nat -> bool) (size : Z) (index : gmap uuid nat).

Definition qexec (o : qop) (q : message_queue) : outcome message_queue :=
  match o with
  | Op o => exec o q
  | Erase keep size index =>
    Ret (MQ (_queue_id q) (_created_on q) size (_ttl_set q) (_ttl q) (_unstamped_messages q)
           (filter (fun e => keep (e_handle e) = true) (_queued_messages q)) index (next_handle q))
  end.

Fixpoint qrun (ops : list qop) (q : message_queue) : outcome message_queue :=
  match ops with
  | [] => Ret q
  | o :: ops => q <~ qexec o q;; qrun ops q
  end.

Definition qstamps (ops : list qop) : list vclock :=
  omap (fun o => match o with Op (Stamp _ _ vc) => Some vc | _ => None end) ops.

(** ** Abstract queue

    What the queue promises: pending messages, the ready messages in delivery order, and
    no handles, index or running total. A stamped message goes behind everything that is
    not after it. *)

Record aqueue := AQ {
  a_ttl : option Z;
  pending : gmap uuid queued_message;
  ready : list (vclock * queued_message)
}.

Definition aqueue_new : aqueue := AQ None ∅ [].

Definition place (p : vclock * queued_message) (l : list (vclock * queued_message)) :=
  filter (fun p' => vless p.1 p'.1 = false) l ++ p :: filter (fun p' => vless p.1 p'.1 = true) l.

Fixpoint fresh_part (now ttl : Z) (l : list (vclock * queued_message)) :=
  match l with
  | [] => []
  | p :: l' => if expired now ttl p.2 then fresh_part now ttl l' else l
  end.

Definition aexec (o : op) (a : aqueue) : aqueue :=
  match o with
  | Enqueue now id data ttl =>
    AQ (Some (default ttl (a_ttl a))) (<[id := queued_message_new now id data]> (pending a)) (ready a)
  | Stamp now id vc =>
    match pending a !! id with
    | Some m => AQ (a_ttl a) (delete id (pending a)) (place (vc, update_local_timestamp now m) (ready a))
    | None => a
    end
  | Expire now =>
    let ttl := default 0 (a_ttl a) in
    AQ (a_ttl a) (filter (fun kv => expired now ttl kv.2 = false) (pending a)) (fresh_part now ttl (ready a))
  end.

Definition arun (ops : list op) (a : aqueue) : aqueue := foldl (fun a o => aexec o a) a ops.

(** The messages an abstract queue holds. *)
Definition contents (a : aqueue) : list queued_message := (map_to_list (pending a)).*2 ++ (ready a).*2.

(** ** The simulation relation *)

Definition view (e : entry) : vclock * queued_message := (e_key e, e_msg e).
Definition e_id (e : entry) : uuid := _id (e_msg e).

Abbreviation not_after := (fun a b : vclock * queued_message => vless b.1 a.1 = false).

(** [cs]: clocks on which the comparison is a strict weak order. *)
Record refines (cs : list vclock) (q : message_queue) (a : aqueue) : Prop := {
  rf_ttl_set : _ttl_set q = bool_decide (is_Some (a_ttl a));
  rf_ttl : _ttl q = default 0 (a_ttl a);
  rf_pending : _unstamped_messages q = pending a;
  rf_ready : ready a = view <$> _queued_messages q;
  rf_keys : (ready a).*1 ⊆ cs;
  rf_sorted : StronglySorted not_after (ready a);
  rf_size : _total_message_size q = u32 (sumZ msg_size (contents a));
  rf_key : forall id m, pending a !! id = Some m -> _id m = id;
  rf_index : forall e, e ∈ _queued_messages q -> _message_index q !! e_id e = Some (e_handle e);
  rf_handles : NoDup (e_handle <$> _queued_messages q);
  rf_bound : forall id h, _message_index q !! id = Some h -> (h < next_handle q)%nat;
  rf_split : forall id, is_Some (pending a !! id) -> _message_index q !! id = None
}.

(** ** Lemmas on the containers *)

Lemma StronglySorted_sublist {A} (R : relation A) (l k : list A) :
  l `sublist_of` k -> StronglySorted R k -> StronglySorted R l.
Proof.
  induction 1 as [|x l k H IH|x l k H IH]; [done| |].
  - rewrite !StronglySorted_cons, !Forall_forall. intros [Hf Hs]. split; [|auto].
    intros y Hy. by apply Hf, (sublist_subseteq l k).
  - rewrite StronglySorted_cons. naive_solver.
Qed.


Lemma mm_place_perm e l : mm_place e l ≡ₚ e :: l.
Proof.
  induction l as [|e' l IH]; simpl; [done|]. case_match; [done|].
  by rewrite IH, Permutation_swap.
Qed.

Lemma mm_insert_ret e l l' : mm_insert e l = Ret l' <-> strict_weak (e_key e :: (e_key <$> l)) = true /\ l' = mm_place e l.
Proof. unfold mm_insert. case_match; naive_solver. Qed.

Lemma place_perm p l : place p l ≡ₚ p :: l.
Proof.
  unfold place. induction l as [|p' l IH]; [done|]. rewrite !filter_cons.
  destruct (vless p.1 p'.1) eqn:E; repeat case_decide; try done; simpl.
  - trans (p' :: filter (fun p' => vless p.1 p'.1 = false) l ++ p :: filter (fun p' => vless p.1 p'.1 = true) l); [solve_Permutation|].
    by rewrite IH, Permutation_swap.
  - by rewrite IH, Permutation_swap.
Qed.

(** On a sorted list the scan for the first greater key splits the list like the order. *)
Lemma mm_place_view cs e l : strict_weak cs = true -> e_key e ∈ cs -> (view <$> l).*1 ⊆ cs ->
  StronglySorted not_after (view <$> l) -> view <$> mm_place e l = place (view e) (view <$> l).
Proof.
  intros W He. induction l as [|e' l IH]; [done|]. csimpl. intros Hk Hs. apply StronglySorted_cons in Hs as [Hf Hs].
  assert (e_key e' ∈ cs /\ (view <$> l).*1 ⊆ cs) as [He' Hk'] by (split; [apply Hk; by left|intros k Hin; apply Hk; by right]).
  unfold place. rewrite !filter_cons. simpl. destruct (vless (e_key e) (e_key e')) eqn:E; repeat case_decide; try done.
  - csimpl. assert (Forall (fun p => vless (e_key e) p.1 = true) (view <$> l)) as Ha.
    { rewrite Forall_forall in Hf |- *. intros p Hp. apply (strict_weak_above cs _ (e_key e')); [done..| |done|by apply Hf].
      by apply Hk', list_elem_of_fmap_2. }
    rewrite Forall_forall in Ha. rewrite (filter_all (fun p' => vless (e_key e) p'.1 = true) (view <$> l)) by done.
    assert (filter (fun p' => vless (e_key e) p'.1 = false) (view <$> l) = []) as ->; [|done].
    apply filter_none. intros p Hp. by rewrite Ha.
  - csimpl. rewrite IH by done. done.
Qed.

Lemma place_sorted cs p l : strict_weak cs = true -> p.1 ∈ cs -> l.*1 ⊆ cs ->
  StronglySorted not_after l -> StronglySorted not_after (place p l).
Proof.
  intros W Hp Hk Hs. pose proof W as (W1 & W2 & _)%strict_weak_spec. unfold place.
  assert (forall x, x ∈ l -> x.1 ∈ cs) as Hin by (intros x Hx; apply Hk; by apply list_elem_of_fmap_2).
  induction l as [|x l IH]; [by repeat constructor|]. apply StronglySorted_cons in Hs as [Hf Hs].
  assert (x.1 ∈ cs) as Hx by (apply Hin; by left). specialize (IH ltac:(intros k Hkk; apply Hk; by right) Hs ltac:(intros y Hy; apply Hin; by right)).
  rewrite Forall_forall in Hf. rewrite !filter_cons. destruct (vless p.1 x.1) eqn:E; repeat case_decide; try done.
  - assert (forall y, y ∈ l -> vless p.1 y.1 = true) as Ha.
    { intros y Hy. apply (strict_weak_above cs _ x.1); [done..|apply Hin; by right|done|by apply Hf]. }
    assert (filter (fun p' => vless p.1 p'.1 = false) l = []) as E0.
    { apply filter_none. intros y Hy. by rewrite Ha. }
    rewrite E0 in *. simpl in *. rewrite (filter_all (fun p' => vless p.1 p'.1 = true) l) in * by done. apply StronglySorted_cons in IH as [IHf IH].
    apply StronglySorted_cons. split; [|apply StronglySorted_cons; split; [by apply Forall_forall|done]].
    apply Forall_cons. split; [|done]. apply not_true_iff_false. intros Hxp.
    pose proof (W2 p.1 x.1 p.1 Hp Hx Hp E Hxp) as Hpp. by rewrite (W1 p.1 Hp) in Hpp.
  - simpl. apply StronglySorted_cons. split; [|done]. rewrite Forall_forall. intros y Hy.
    rewrite (place_perm p l) in Hy. apply elem_of_cons in Hy as [->|Hy]; [done|by apply Hf].
Qed.

Lemma expire_queued_spec now ttl l size :
  view <$> (expire_queued now ttl l size).1 = fresh_part now ttl (view <$> l) /\
  u32 (expire_queued now ttl l size).2 =
    u32 (size - (sumZ msg_size (e_msg <$> l) - sumZ msg_size (e_msg <$> (expire_queued now ttl l size).1))) /\
  exists dropped, l = dropped ++ (expire_queued now ttl l size).1 /\ Forall (fun e => expired now ttl (e_msg e) = true) dropped.
Proof.
  revert size. induction l as [|e l IH]; intros size; csimpl.
  { split_and!; [done|by rewrite Z.sub_0_r|by exists []]. }
  destruct (expired now ttl (e_msg e)) eqn:Ee.
  - destruct (IH (u32 (size - msg_size (e_msg e)))) as (Hv & Hs & d & Hd & Hx). split_and!; [done| |].
    + rewrite Hs. autorewrite with word. f_equal. rewrite sumZ_cons. lia.
    + exists (e :: d). split; [simpl; congruence|by constructor].
  - split_and!; [done| |by exists []]. csimpl. f_equal. rewrite Z.sub_diag. lia.
Qed.

Lemma expire_unstamped_spec now ttl l m size :
  NoDup l.*1 ->
  (forall k, (expire_unstamped now ttl l m size).1 !! k =
     match (list_to_map l : gmap uuid queued_message) !! k with
     | Some x => if expired now ttl x then None else m !! k
     | None => m !! k
     end) /\
  u32 (expire_unstamped now ttl l m size).2 =
    u32 (size - sumZ (fun x => if expired now ttl x then msg_size x else 0) l.*2).
Proof.
  revert m size. induction l as [|[k x] l IH]; intros m size; csimpl.
  { split; [done|by rewrite Z.sub_0_r]. }
  rewrite NoDup_cons. intros [Hk0 Hnd].
  assert ((list_to_map l : gmap uuid queued_message) !! k = None) as Hk
    by by apply not_elem_of_list_to_map_1.
  destruct (expired now ttl x) eqn:E.
  - destruct (IH (delete k m) (u32 (size - msg_size x)) Hnd) as [Hl Hs]. split.
    + intros k'. rewrite Hl. destruct (decide (k = k')) as [->|].
      * by rewrite Hk, lookup_insert_eq, E, lookup_delete_eq.
      * by rewrite lookup_insert_ne, lookup_delete_ne.
    + rewrite Hs, sumZ_cons, E. autorewrite with word. f_equal. lia.
  - destruct (IH m size Hnd) as [Hl Hs]. split.
    + intros k'. rewrite Hl. destruct (decide (k = k')) as [->|].
      * by rewrite Hk, lookup_insert_eq, E.
      * by rewrite lookup_insert_ne.
    + by rewrite Hs, sumZ_cons, E.
Qed.

Lemma expire_sizes_width now ttl l l' m size :
  in_width 32 size ->
  in_width 32 (expire_queued now ttl l size).2 /\ in_width 32 (expire_unstamped now ttl l' m size).2.
Proof.
  intros Hw. split.
  - revert size Hw. induction l as [|e l IH]; intros size Hw; simpl; [done|].
    case_match; [|done]. apply IH. auto with word lia.
  - revert m size Hw. induction l' as [|[k x] l' IH]; intros m size Hw; simpl; [done|].
    case_match; apply IH; [|done]. auto with word lia.
Qed.

Lemma expire_unstamped_filter now ttl m size :
  (expire_unstamped now ttl (map_to_list m) m size).1 =
    filter (fun kv => expired now ttl kv.2 = false) m.
Proof.
  destruct (expire_unstamped_spec now ttl (map_to_list m) m size (NoDup_fst_map_to_list m)) as [Hl _].
  apply map_eq. intros k. rewrite Hl, list_to_map_to_list, map_lookup_filter.
  destruct (m !! k) as [x|] eqn:E; simpl; [|done].
  destruct (expired now ttl x) eqn:Ex; case_guard; simpl in *; congruence.
Qed.

Lemma expire_messages_spec now q :
  let q' := expire_messages now q in
  view <$> _queued_messages q' = fresh_part now (_ttl q) (view <$> _queued_messages q) /\
  _unstamped_messages q' = filter (fun kv => expired now (_ttl q) kv.2 = false) (_unstamped_messages q) /\
  (exists dropped, _queued_messages q = dropped ++ _queued_messages q' /\
     Forall (fun e => expired now (_ttl q) (e_msg e) = true) dropped) /\
  (in_width 32 (_total_message_size q) -> _total_message_size q' =
    u32 (_total_message_size q
         - (sumZ msg_size (e_msg <$> _queued_messages q) - sumZ msg_size (e_msg <$> _queued_messages q'))
         - sumZ (fun x => if expired now (_ttl q) x then msg_size x else 0)
             (map_to_list (_unstamped_messages q)).*2)).
Proof.
  unfold expire_messages.
  destruct (expire_queued_spec now (_ttl q) (_queued_messages q) (_total_message_size q)) as (Hv & Hs & Hd).
  pose proof (fun Hw => proj1 (expire_sizes_width now (_ttl q) (_queued_messages q) [] ∅
    (_total_message_size q) Hw)) as Hw'.
  destruct (expire_queued now (_ttl q) (_queued_messages q) (_total_message_size q)) as [l sz]; simpl in *.
  pose proof (expire_unstamped_filter now (_ttl q) (_unstamped_messages q) sz) as Hf.
  destruct (expire_unstamped_spec now (_ttl q) (map_to_list (_unstamped_messages q)) (_unstamped_messages q) sz
    (NoDup_fst_map_to_list _)) as [_ Hs'].
  pose proof (fun Hw => proj2 (expire_sizes_width now (_ttl q) [] (map_to_list (_unstamped_messages q))
    (_unstamped_messages q) sz Hw)) as Hw''.
  destruct (expire_unstamped now (_ttl q) (map_to_list (_unstamped_messages q)) (_unstamped_messages q) sz)
    as [m sz']; simpl in *.
  split_and!; try done. intros Hw. rewrite <- (wrap_small 32 sz') by auto.
  rewrite Hs', <- wrap_sub_l, Hs.
  by autorewrite with word.
Qed.

Lemma expire_messages_sublist now q : _queued_messages (expire_messages now q) `sublist_of` _queued_messages q.
Proof.
  destruct (expire_messages_spec now q) as (_ & _ & (d & Hd & _) & _). set (l := _queued_messages (expire_messages now q)) in *.
  rewrite Hd. by apply sublist_inserts_l.
Qed.

Lemma expire_messages_rest now q :
  let q' := expire_messages now q in
  _ttl_set q' = _ttl_set q /\ _ttl q' = _ttl q /\
  _message_index q' = _message_index q /\ next_handle q' = next_handle q.
Proof. unfold expire_messages. by do 2 case_match. Qed.

Lemma map_to_list_filter_perm (P : uuid * queued_message -> Prop) `{!forall x, Decision (P x)}
    (m : gmap uuid queued_message) : map_to_list (filter P m) ≡ₚ filter P (map_to_list m).
Proof.
  rewrite map_filter_alt. apply map_to_list_to_map.
  eapply sublist_NoDup; [apply (NoDup_fst_map_to_list m)|].
  apply (fmap_sublist fst), sublist_filter.
Qed.

(** ** The simulation *)

Section Simulation.
Context (cs : list vclock) (W : strict_weak cs = true).

Lemma contents_insert id m a t :
  pending a !! id = None ->
  sumZ msg_size (contents (AQ t (<[id := m]> (pending a)) (ready a))) = msg_size m + sumZ msg_size (contents a).
Proof.
  intros H. unfold contents; simpl. rewrite !sumZ_app.
  rewrite (sumZ_perm msg_size _ (m :: (map_to_list (pending a)).*2)).
  - rewrite sumZ_cons. lia.
  - by rewrite map_to_list_insert.
Qed.

Lemma refines_new now queueId : refines cs (message_queue_new now queueId) aqueue_new.
Proof.
  split; simpl; try done; try apply NoDup_nil_2; try constructor; intros; rewrite ?lookup_empty in *; try done.
  - by intros ? ?%not_elem_of_nil.
  - by apply not_elem_of_nil in H.
Qed.

Lemma refines_enqueue now id data ttl q a :
  refines cs q a -> pending a !! id = None -> _message_index q !! id = None ->
  refines cs (enqueue now id data ttl q) (aexec (Enqueue now id data ttl) a).
Proof.
  intros [] Hp Hi. split; simpl; try done.
  - rewrite rf_ttl_set0, rf_ttl0. by destruct (a_ttl a).
  - unfold um_insert. by rewrite rf_pending0, Hp.
  - rewrite rf_size0, wrap_add_l, (contents_insert id _ a _ Hp). f_equal. unfold msg_size at 2. simpl. lia.
  - intros id' m'. destruct (decide (id = id')) as [<-|].
    + rewrite lookup_insert_eq. by intros [= <-].
    + rewrite lookup_insert_ne by done. apply rf_key0.
  - intros id'. destruct (decide (id = id')) as [<-|]; [done|].
    rewrite lookup_insert_ne by done. apply rf_split0.
Qed.

Lemma contents_stamp now id vc m a :
  pending a !! id = Some m ->
  sumZ msg_size (contents (AQ (a_ttl a) (delete id (pending a)) (place (vc, update_local_timestamp now m) (ready a)))) =
    sumZ msg_size (contents a).
Proof.
  intros H. unfold contents; simpl. rewrite !sumZ_app, place_perm. rewrite fmap_cons, sumZ_cons.
  rewrite (sumZ_perm msg_size (map_to_list (pending a)).*2 (m :: (map_to_list (delete id (pending a))).*2)).
  - rewrite sumZ_cons. unfold msg_size; simpl. lia.
  - rewrite <- (map_to_list_delete (pending a) id m) by done. done.
Qed.

(** The insertion is defined: all its keys are among [cs]. *)
Lemma insert_defined q a e : refines cs q a -> e_key e ∈ cs ->
  mm_insert e (_queued_messages q) = Ret (mm_place e (_queued_messages q)).
Proof.
  intros [] He. apply mm_insert_ret. split; [|done]. apply (strict_weak_subset cs); [done|].
  intros k [->|Hk]%elem_of_cons; [done|]. apply rf_keys0. by rewrite rf_ready0, <- list_fmap_compose.
Qed.

Lemma refines_stamp now id vc q a : vc ∈ cs -> refines cs q a ->
  exists r, stamp now id vc q = Ret r /\ r.1 = bool_decide (is_Some (pending a !! id)) /\ refines cs r.2 (aexec (Stamp now id vc) a).
Proof.
  intros Hvc R. unfold stamp. simpl. rewrite (rf_pending _ _ _ R). destruct (pending a !! id) as [m|] eqn:Hp; [|by eexists].
  rewrite (insert_defined q a) by done. cbn [obind]. eexists. split; [done|]. split; [done|]. simpl.
  destruct R. pose proof (rf_key0 _ _ Hp) as Hid. pose proof (rf_split0 id ltac:(by rewrite Hp)) as Hi.
  unfold um_insert. rewrite Hi. set (e := Entry (next_handle q) vc (update_local_timestamp now m)).
  assert (e_id e = id) as He by done.
  assert (forall e', e' ∈ _queued_messages q -> e_id e' <> id) as Hq.
  { intros e' He' E. apply rf_index0 in He'. congruence. }
  assert (next_handle q ∉ e_handle <$> _queued_messages q) as Hh.
  { intros (e' & E & He')%list_elem_of_fmap. apply rf_index0, rf_bound0 in He'. lia. }
  split; simpl; try done.
  - rewrite (mm_place_view cs); [|done..| |]; rewrite <- ?rf_ready0; done.
  - rewrite place_perm. simpl. intros k [->|Hk]%elem_of_cons; [done|]. by apply rf_keys0.
  - by apply (place_sorted cs).
  - by rewrite contents_stamp, rf_size0.
  - intros id' m' [_ ?]%lookup_delete_Some. auto.
  - intros e'. rewrite mm_place_perm, elem_of_cons. intros [->|H].
    + by rewrite He, lookup_insert_eq.
    + rewrite lookup_insert_ne by (by apply not_eq_sym, Hq). auto.
  - rewrite mm_place_perm. csimpl. by apply NoDup_cons.
  - intros id' h. rewrite lookup_insert_Some. intros [[<- <-]|[_ H%rf_bound0]]; lia.
  - intros id' [m' [Hne H]%lookup_delete_Some]. rewrite lookup_insert_ne by done. eauto.
Qed.

Lemma contents_expire now ttl a kept :
  sumZ msg_size (contents (AQ (a_ttl a) (filter (fun kv => expired now ttl kv.2 = false) (pending a)) kept)) =
    sumZ msg_size (map_to_list (pending a)).*2
    - sumZ (fun x => if expired now ttl x then msg_size x else 0) (map_to_list (pending a)).*2
    + sumZ msg_size kept.*2.
Proof.
  unfold contents; simpl. rewrite sumZ_app, map_to_list_filter_perm. f_equal.
  rewrite <- sumZ_filter. f_equal. by apply fmap_filter_agree.
Qed.

Lemma refines_expire now q a : refines cs q a -> refines cs (expire_messages now q) (aexec (Expire now) a).
Proof.
  intros []. simpl. set (ttl := default 0 (a_ttl a)).
  destruct (expire_messages_spec now q) as (Hv & Hf & (d & Hd & _) & Hs).
  specialize (Hs ltac:(rewrite rf_size0; auto with word lia)).
  destruct (expire_messages_rest now q) as (Es & Et & Ei & En).
  rewrite rf_pending0 in Hf, Hs. rewrite rf_ttl0 in Hv, Hf, Hs, Et. fold ttl in Hv, Hf, Hs, Et.
  rewrite <- rf_ready0 in Hv. set (l := _queued_messages (expire_messages now q)) in *.
  assert (l `sublist_of` _queued_messages q) as Hsub by (rewrite Hd; by apply sublist_inserts_l).
  assert (fresh_part now ttl (ready a) `sublist_of` ready a) as Hsub'
    by (rewrite <- Hv, rf_ready0; by apply fmap_sublist).
  split; simpl; try done.
  - by rewrite Es.
  - intros k Hk. apply rf_keys0. by eapply sublist_subseteq; [apply fmap_sublist|].
  - by eapply StronglySorted_sublist.
  - rewrite contents_expire, Hs, rf_size0, <- Z.sub_add_distr. autorewrite with word. f_equal.
    unfold contents. rewrite sumZ_app, <- Hv, rf_ready0, <- !list_fmap_compose.
    change (snd ∘ view) with e_msg. lia.
  - intros id x [H _]%map_lookup_filter_Some. auto.
  - intros e He. rewrite Ei. apply rf_index0. by eapply sublist_subseteq.
  - eapply sublist_NoDup; [exact rf_handles0|]. by apply fmap_sublist.
  - rewrite Ei, En. done.
  - intros id [x [H _]%map_lookup_filter_Some]. rewrite Ei. eauto.
Qed.

(** The ids a queue has no trace of: what a run may still enqueue. *)
Definition unused (id : uuid) (q : message_queue) : Prop :=
  _unstamped_messages q !! id = None /\ _message_index q !! id = None.

Lemma um_insert_lookup {V} (k : uuid) (v : V) (m : gmap uuid V) (k' : uuid) : k <> k' -> um_insert k v m !! k' = m !! k'.
Proof. intros H. unfold um_insert. case_match; [done|]. by apply lookup_insert_ne. Qed.

Lemma exec_unused o q q' id :
  exec o q = Ret q' -> unused id q -> (forall now data ttl, o <> Enqueue now id data ttl) -> unused id q'.
Proof.
  intros E [Hu Hi] Ho. unfold unused. destruct o as [now id' data ttl|now id' vc|now]; simplify_eq/=.
  - rewrite um_insert_lookup; [done|]. naive_solver.
  - apply obind_ret_inv in E as (r & E & [= <-]). unfold stamp in E.
    destruct (_unstamped_messages q !! id') eqn:E'; [|by simplify_eq].
    apply obind_ret_inv in E as (l & _ & [= <-]). simpl.
    rewrite um_insert_lookup by congruence. split; [|done]. apply lookup_delete_None. auto.
  - destruct (expire_messages_spec now q) as (_ & -> & _).
    destruct (expire_messages_rest now q) as (_ & _ & -> & _). split; [|done].
    apply map_lookup_filter_None. auto.
Qed.

(** One operation of the queue is defined and simulated by the abstract one. *)
Lemma exec_refines o q a :
  refines cs q a -> (forall now id data ttl, o = Enqueue now id data ttl -> unused id q) ->
  (forall now id vc, o = Stamp now id vc -> vc ∈ cs) ->
  exists q', exec o q = Ret q' /\ refines cs q' (aexec o a).
Proof.
  intros R Hn Hc. destruct o as [now id data ttl|now id vc|now].
  - destruct (Hn now id data ttl eq_refl) as [Hu Hi]. eexists. split; [done|]. apply refines_enqueue; [done| |done].
    by rewrite <- (rf_pending cs q a R).
  - destruct (refines_stamp now id vc q a (Hc _ _ _ eq_refl) R) as (r & E & _ & R'). exists r.2. split; [|done].
    simpl. by rewrite E.
  - eexists. split; [done|]. by apply refines_expire.
Qed.

Lemma run_refines ops q a :
  refines cs q a -> NoDup (enqueued_ids ops) -> (forall id, id ∈ enqueued_ids ops -> unused id q) -> stamps ops ⊆ cs ->
  exists q', run ops q = Ret q' /\ refines cs q' (arun ops a).
Proof.
  revert q a. induction ops as [|o ops IH]; intros q a R Hnd Hu Hst; simpl; [eauto|].
  destruct (exec_refines o q a R) as (q' & E & R').
  { intros now id data ttl ->. apply Hu. simpl. set_solver. }
  { intros now id vc ->. apply Hst. simpl. by left. }
  rewrite E. simpl.
  assert (NoDup (enqueued_ids ops) /\
    forall id, id ∈ enqueued_ids ops -> id ∈ enqueued_ids (o :: ops) /\
      forall now data ttl, o <> Enqueue now id data ttl) as [Hnd' Hsub].
  { destruct o; simpl in *; [|naive_solver..]. apply NoDup_cons in Hnd as [Hnin Hnd].
    split; [done|]. intros id' Hid. split; [set_solver|naive_solver]. }
  apply IH; [done..| |].
  - intros id Hid. destruct (Hsub id Hid) as [Hin Hne]. eapply exec_unused; [done|by apply Hu|done].
  - intros vc Hvc. apply Hst. unfold stamps in *. simpl. destruct o; [done|by right|done].
Qed.

End Simulation.

(** ** Order of delivery *)

(** [e1] is delivered before [e2]: by clock, first come first served on ties. *)
Definition delivered_before (e1 e2 : entry) : Prop :=
  vless (e_key e2) (e_key e1) = false /\ (e_key e1 = e_key e2 -> (e_handle e1 < e_handle e2)%nat).

Record in_order (cs : list vclock) (q : message_queue) : Prop := {
  io_sorted : StronglySorted delivered_before (_queued_messages q);
  io_keys : forall e, e ∈ _queued_messages q -> e_key e ∈ cs;
  io_bound : forall e, e ∈ _queued_messages q -> (e_handle e < next_handle q)%nat
}.

Lemma mm_place_sorted cs e l :
  linear cs -> e_key e ∈ cs -> (forall e', e' ∈ l -> e_key e' ∈ cs /\ (e_handle e' < e_handle e)%nat) ->
  StronglySorted delivered_before l -> StronglySorted delivered_before (mm_place e l).
Proof.
  intros L He. induction l as [|e' l IH]; intros Hl Hs; simpl.
  { constructor; [constructor|constructor]. }
  apply StronglySorted_cons in Hs as [Hf Hs].
  assert (e_key e' ∈ cs) as He' by (apply Hl; set_solver).
  destruct (vless (e_key e) (e_key e')) eqn:E.
  - apply StronglySorted_cons. split; [|by apply StronglySorted_cons].
    assert (forall e2, vless (e_key e2) (e_key e') = false -> e_key e2 ∈ cs -> delivered_before e e2) as Hb.
    { intros e2 H2 Hin. split; [|intros Eq; rewrite Eq in E; congruence].
      apply not_true_iff_false. intros H3. by rewrite (lin_trans cs L _ (e_key e)) in H2. }
    apply Forall_cons. split; [apply Hb; [by apply (lin_irrefl cs)|done]|].
    rewrite Forall_forall in Hf |- *. intros e2 H2. apply Hb; [by apply Hf|apply Hl; set_solver].
  - apply StronglySorted_cons. split; [|apply IH; [set_solver|done]].
    rewrite mm_place_perm. apply Forall_cons. split; [|done].
    split; [done|intros _; apply Hl; set_solver].
Qed.

Lemma in_order_sublist cs q q' :
  _queued_messages q' `sublist_of` _queued_messages q -> next_handle q' = next_handle q ->
  in_order cs q -> in_order cs q'.
Proof.
  intros Hs En [H1 H2 H3].
  pose proof (sublist_subseteq _ _ Hs) as Hin.
  split; [by eapply StronglySorted_sublist|auto|]. intros e He. rewrite En. auto.
Qed.

Lemma exec_in_order cs o q q' :
  linear cs -> (forall now id vc, o = Stamp now id vc -> vc ∈ cs) ->
  exec o q = Ret q' -> in_order cs q -> in_order cs q'.
Proof.
  intros Hc Ho E I. destruct o as [now id' data ttl|now id' vc|now]; simplify_eq/=.
  - by apply (in_order_sublist cs q).
  - apply obind_ret_inv in E as (r & E & [= <-]). unfold stamp in E. case_match; [|by simplify_eq].
    apply obind_ret_inv in E as (l & [_ ->]%mm_insert_ret & [= <-]). destruct I as [H1 H2 H3]. split; simpl.
    + eapply mm_place_sorted; [done|by eapply Ho| |done]. intros e' He'. split; [auto|]. by apply H3.
    + intros e. rewrite mm_place_perm, elem_of_cons. intros [->|]; [by eapply Ho|auto].
    + intros e. rewrite mm_place_perm, elem_of_cons. intros [->|He%H3]; simpl; lia.
  - apply (in_order_sublist cs q); [| |done].
    + apply expire_messages_sublist.
    + by destruct (expire_messages_rest now q) as (_ & _ & _ & ->).
Qed.

Lemma qrun_in_order cs ops q q' :
  linear cs -> qstamps ops ⊆ cs -> qrun ops q = Ret q' -> in_order cs q -> in_order cs q'.
Proof.
  intros Hc. revert q. induction ops as [|o ops IH]; intros q Hs E I; simpl in *; [by simplify_eq|].
  apply obind_ret_inv in E as (q1 & E1 & E2). eapply IH; [|done|].
  - intros vc Hvc. apply Hs. unfold qstamps in *. simpl. destruct o as [[]|]; [done|by right|done|done].
  - destruct o as [o|keep size index].
    + eapply exec_in_order; [done| |exact E1|done]. intros now id vc ->. apply Hs. simpl. by left.
    + injection E1 as <-. apply (in_order_sublist cs q); [apply sublist_filter|done..].
Qed.

Lemma in_order_new cs now queueId : in_order cs (message_queue_new now queueId).
Proof. split; simpl; [constructor|set_solver..]. Qed.

Abbreviation key_le := (fun a b : vclock * uuid => vless b.1 a.1 = false).

Lemma sorted_keys_unique cs (l1 l2 : list (vclock * uuid)) :
  linear cs -> l1.*1 ⊆ cs -> NoDup l1.*1 -> StronglySorted key_le l1 -> StronglySorted key_le l2 ->
  l1 ≡ₚ l2 -> l1 = l2.
Proof.
  intros L Hcs Hnd H1 H2 Hp. eapply StronglySorted_unique_strong; [|exact H1|exact H2|done].
  intros x1 x2 Hx1 Hx2 Hd1 Hd2. rewrite <- Hp in Hx2.
  apply (NoDup_fmap_inj_on fst l1); [done..|]. apply (linear_antisym cs); try done; by apply Hcs, list_elem_of_fmap_2.
Qed.

Definition keyed_ids (q : message_queue) : list (vclock * uuid) :=
  (fun e => (e_key e, e_id e)) <$> _queued_messages q.

Lemma in_order_keyed_ids cs q : in_order cs q ->
  StronglySorted key_le (keyed_ids q) /\ (keyed_ids q).*1 ⊆ cs.
Proof.
  intros [H Hk _]. unfold keyed_ids. split.
  - clear Hk. induction H as [|e l Hs IH Hf]; [constructor|].
    csimpl. apply StronglySorted_cons. split; [|done].
    rewrite Forall_fmap. eapply Forall_impl; [exact Hf|]. by intros e' [? _].
  - intros c. rewrite <- list_fmap_compose. intros (e & -> & He)%list_elem_of_fmap. by apply Hk.
Qed.

Lemma fresh_part_sorted now ttl (l : list (vclock * queued_message)) :
  StronglySorted (fun a b => _local_time a.2 <= _local_time b.2) l ->
  fresh_part now ttl l = filter (fun p => expired now ttl p.2 = false) l.
Proof.
  induction 1 as [|p l Hs IH Hf]; [done|]. simpl. rewrite filter_cons.
  destruct (expired now ttl p.2) eqn:E; case_decide; simplify_eq; [done|]. f_equal.
  symmetry. apply filter_all. intros p' Hp'. rewrite Forall_forall in Hf. specialize (Hf _ Hp').
  unfold expired, age in *. zify_tests. apply Z.ltb_ge. lia.
Qed.

(** ** Properties *)

(** C1. The queue, with its multimap, its index of iterators and its running 32-bit total,
    implements the abstract queue on every run of enqueues, stamps and expiries whose
    message ids are fresh and whose stamps the comparison of clocks orders as
    [std::multimap] requires: the run is defined, it ends with the same pending messages
    and delivers the same ready messages, each behind all that are not after it, it
    reports their number and, as memory, the sum of their sizes modulo 2^32, and its
    index leads from the id of each ready message to that message. *)
Theorem message_queue_refines now queueId ops :
  NoDup (enqueued_ids ops) -> strict_weak (stamps ops) = true ->
  let a := arun ops aqueue_new in
  exists q, run ops (message_queue_new now queueId) = Ret q /\
    peekAll q = (ready a).*2 /\ _unstamped_messages q = pending a /\
    total_count q = length (contents a) /\ memory_size q = u32 (sumZ msg_size (contents a)) /\
    (forall e, e ∈ _queued_messages q -> _message_index q !! _id (e_msg e) = Some (e_handle e)) /\
    NoDup (e_handle <$> _queued_messages q).
Proof.
  intros Hnd W a. destruct (run_refines (stamps ops) W ops (message_queue_new now queueId) aqueue_new)
    as (q & E & []); [apply refines_new|done|by intros|done|]. exists q. fold a in rf_ready0, rf_pending0, rf_size0 |- *.
  split_and!; [done| |done| |done|done|done].
  - unfold peekAll. by rewrite rf_ready0, <- list_fmap_compose.
  - unfold total_count, contents. rewrite length_app, !length_fmap, length_map_to_list, rf_ready0.
    by rewrite length_fmap, rf_pending0.
Qed.

(** C10. When the clocks a queue is stamped with are linearly ordered by the
    comparison, the messages are always kept in delivery order: a message never
    precedes one with a smaller clock, and messages with one clock stay in the order
    of stamping, through every enqueue, stamp and expiry and whatever else takes messages
    out of the queue. *)
Theorem message_queue_delivery_order now queueId ops q :
  linear (qstamps ops) -> qrun ops (message_queue_new now queueId) = Ret q ->
  StronglySorted delivered_before (_queued_messages q).
Proof.
  intros Hc Hr. eapply io_sorted, qrun_in_order; [done| |done|apply in_order_new]. done.
Qed.

(** C12. Replicas agree: two queues that went through different sequences of
    operations, removals among them, with stamps from one linearly ordered set, and that
    hold the same messages under the same pairwise distinct clocks, deliver them in the same order. *)
Theorem message_queue_replicas_agree now1 now2 queueId ops1 ops2 q1 q2 :
  linear (qstamps ops1 ++ qstamps ops2) ->
  qrun ops1 (message_queue_new now1 queueId) = Ret q1 ->
  qrun ops2 (message_queue_new now2 queueId) = Ret q2 ->
  keyed_ids q1 ≡ₚ keyed_ids q2 -> NoDup (keyed_ids q1).*1 ->
  _id <$> peekAll q1 = _id <$> peekAll q2.
Proof.
  intros L H1 H2 Hp Hnd.
  assert (in_order _ q1) as I1 by (eapply (qrun_in_order _ ops1); [exact L|set_solver|exact H1|apply in_order_new]).
  assert (in_order _ q2) as I2 by (eapply (qrun_in_order _ ops2); [exact L|set_solver|exact H2|apply in_order_new]).
  apply in_order_keyed_ids in I1 as [S1 K1], I2 as [S2 _].
  pose proof (sorted_keys_unique _ _ _ L K1 Hnd S1 S2 Hp) as E.
  apply (f_equal (fmap snd)) in E. unfold keyed_ids, peekAll in *.
  by rewrite <- !list_fmap_compose in *.
Qed.

(** C25. [expire_messages] keeps exactly the unstamped messages whose age is within
    the TTL of the queue; of the stamped messages it drops a run of messages past the TTL
    from the front, up to the first one within it, and keeps that one and all behind it;
    when the messages are queued in the order of their local times it keeps exactly those
    within the TTL. *)
Theorem message_queue_expiry now q :
  (forall id m, _unstamped_messages (expire_messages now q) !! id = Some m <->
     _unstamped_messages q !! id = Some m /\ now - _local_time m <= _ttl q * ns_per_sec) /\
  (exists dropped, _queued_messages q = dropped ++ _queued_messages (expire_messages now q) /\
     Forall (fun e => _ttl q * ns_per_sec < now - _local_time (e_msg e)) dropped) /\
  (forall e, head (_queued_messages (expire_messages now q)) = Some e ->
     now - _local_time (e_msg e) <= _ttl q * ns_per_sec) /\
  (StronglySorted (fun a b => _local_time (e_msg a) <= _local_time (e_msg b)) (_queued_messages q) ->
   peekAll (expire_messages now q) =
     filter (fun m => expired now (_ttl q) m = false) (peekAll q)).
Proof.
  destruct (expire_messages_spec now q) as (Hv & Hu & Hd & _). split_and!.
  - intros id m. rewrite Hu, map_lookup_filter_Some. unfold expired, age. simpl.
    by rewrite Z.ltb_ge.
  - destruct Hd as (d & Hd & Hx). exists d. split; [done|]. eapply Forall_impl; [exact Hx|].
    unfold expired, age. simpl. intros e. by rewrite Z.ltb_lt.
  - intros e He. assert (head (view <$> _queued_messages (expire_messages now q)) = Some (view e)) as Hh.
    { by destruct (_queued_messages (expire_messages now q)); simplify_eq/=. }
    rewrite Hv in Hh. clear -Hh. induction (view <$> _queued_messages q) as [|p l IH]; simpl in *; [done|].
    destruct (expired now (_ttl q) p.2) eqn:E; [auto|]. simplify_eq/=.
    unfold expired, age in E. simpl in E. by apply Z.ltb_ge.
  - intros Hs. rewrite fresh_part_sorted in Hv.
    + unfold peekAll. apply (f_equal (fmap snd)) in Hv. rewrite <- list_fmap_compose in Hv.
      change (snd ∘ view) with e_msg in Hv. rewrite Hv.
      rewrite (fmap_filter_agree snd _ (fun m => expired now (_ttl q) m = false)) by done.
      by rewrite <- list_fmap_compose.
    + clear -Hs. induction Hs as [|e l Hs IH Hf]; csimpl; [constructor|].
      apply StronglySorted_cons. split; [by rewrite Forall_fmap|done].
Qed.

End Queue.

(** ** Concrete runs *)

Lemma sample_linear : linear [sample_low; sample_high].
Proof. exact (chain_linear _ _ sample_chain). Qed.

Definition sample_ops : list op :=
  [Enqueue 0 [1] [7; 8] 10; Enqueue 1 [2] [9] 20; Stamp 2 [2] sample_high; Stamp 3 [1] sample_low].

Definition sample_id : Uint128.uint128 := Uint128.uint128_of_base 7.

(** The second message was stamped first but has the later clock. *)
Definition sample_queue : message_queue :=
  MQ sample_id 0 147 true 10 ∅
    [Entry 1 sample_low (QM [1] [7; 8] 3 (vector_clock_new 3));
     Entry 0 sample_high (QM [2] [9] 2 (vector_clock_new 3))]
    (<[[1] := 1%nat]> {[ [2] := 0%nat ]}) 2.

Lemma sample_run : run 3 sample_ops (message_queue_new 0 sample_id) = Ret sample_queue.
Proof. vm_compute. reflexivity. Qed.

Lemma sample_ids_fresh : NoDup (enqueued_ids sample_ops).
Proof. apply (bool_decide_unpack _). by vm_compute. Qed.

Lemma message_queue_refines_witness : exists q, run 3 sample_ops (message_queue_new 0 sample_id) = Ret q /\
  memory_size q = u32 (sumZ (msg_size 3) (contents (arun 3 sample_ops aqueue_new))).
Proof.
  destruct (message_queue_refines 3 0 sample_id sample_ops sample_ids_fresh) as (q & E & _ & _ & _ & H & _).
  - vm_compute. reflexivity.
  - exists q. split; [exact E|exact H].
Defined.

(** The same operations, and one message is taken out. *)
Definition sample_qops : list qop := (Op <$> sample_ops) ++ [Erase (fun h => (h =? 1)%nat) 74 ∅].

Definition sample_queue_left : message_queue :=
  MQ sample_id 0 74 true 10 ∅ [Entry 1 sample_low (QM [1] [7; 8] 3 (vector_clock_new 3))] ∅ 2.

Lemma message_queue_delivery_order_witness :
  StronglySorted delivered_before (_queued_messages sample_queue_left).
Proof.
  apply (message_queue_delivery_order 3 0 sample_id sample_qops sample_queue_left).
  - apply (linear_subset _ _ sample_linear). set_solver.
  - vm_compute. reflexivity.
Defined.

(** The same messages enqueued and stamped in the other order. *)
Definition sample_ops' : list op :=
  [Enqueue 5 [2] [9] 20; Enqueue 6 [1] [7; 8] 10; Stamp 7 [1] sample_low; Stamp 9 [2] sample_high].

Definition sample_queue' : message_queue :=
  MQ sample_id 5 147 true 20 ∅
    [Entry 0 sample_low (QM [1] [7; 8] 7 (vector_clock_new 3));
     Entry 1 sample_high (QM [2] [9] 9 (vector_clock_new 3))]
    (<[[1] := 0%nat]> {[ [2] := 1%nat ]}) 2.

Lemma message_queue_replicas_agree_witness :
  _id <$> peekAll sample_queue = _id <$> peekAll sample_queue'.
Proof.
  apply (message_queue_replicas_agree 3 0 5 sample_id (Op <$> sample_ops) (Op <$> sample_ops') sample_queue sample_queue').
  - apply (linear_subset _ _ sample_linear). set_solver.
  - vm_compute. reflexivity.
  - vm_compute. reflexivity.
  - reflexivity.
  - apply (bool_decide_unpack _). by vm_compute.
Defined.

(** ** Where the code departs from its intent *)

(** [expire_messages] erases from the multimap but not from [_message_index]: the iterator
    of an expired message stays in the index, and is not valid any more. *)
Lemma index_after_expiry_dangles :
  match run 3 [Enqueue 0 [1] [7] 1; Stamp 0 [1] sample_low; Expire (2 * ns_per_sec)] (message_queue_new 0 sample_id) with
  | Ret q => _message_index q !! [1] = Some 0%nat /\ _queued_messages q = []
  | _ => False
  end.
Proof. vm_compute. done. Qed.

(** Three stamps that the comparison orders in a circle: the multimap is undefined. *)
Lemma cyclic_stamps_undefined :
  let s1 := [NC 1 1 0; NC 2 1 1; NC 3 1 2] in
  let s2 := [NC 1 1 1; NC 2 1 2; NC 3 1 0] in
  let s3 := [NC 1 1 2; NC 2 1 0; NC 3 1 1] in
  run 3 [Enqueue 0 [1] [7] 60; Enqueue 0 [2] [7] 60; Enqueue 0 [3] [7] 60; Stamp 1 [1] s1; Stamp 1 [2] s2; Stamp 1 [3] s3]
    (message_queue_new 0 sample_id) = Undef.
Proof. vm_compute. reflexivity. Qed.

(** The expiry loop stops at the first message within its TTL, but the multimap is
    ordered by clock and not by age: message 2, past its TTL, stays behind message 1. *)
Lemma expired_message_survives :
  match run 3 [Enqueue 0 [1] [7] 1; Enqueue 0 [2] [8] 1; Stamp 0 [2] sample_high;
               Stamp (2 * ns_per_sec) [1] sample_low; Expire (2 * ns_per_sec)]
          (message_queue_new 0 sample_id) with
  | Ret q => (fun m => expired (2 * ns_per_sec) (_ttl q) m) <$> peekAll q = [false; true]
  | _ => False
  end.
Proof. vm_compute. reflexivity. Qed.

(** Enqueueing an id twice counts the size of the message that is not stored. *)
Lemma duplicate_enqueue_miscounts :
  match run 3 [Enqueue 0 [1] [7] 1; Enqueue 0 [1] [7] 1] (message_queue_new 0 sample_id) with
  | Ret q => total_count q = 1%nat /\ memory_size q = 2 * calc_size 3 1
  | _ => False
  end.
Proof. vm_compute. done. Qed.

(** [stamp] orders a message by its clock but never calls [set_vclock]: the
    clock a peeked message carries is still the zero clock. *)
Lemma stamped_message_clock_unset now id vc RF q m q' :
  _unstamped_messages q !! id = Some m -> _vclock m = vector_clock_new RF -> stamp now id vc q = Ret (true, q') ->
  exists e, e ∈ _queued_messages q' /\ e_key e = vc /\ _vclock (e_msg e) = vector_clock_new RF.
Proof.
  intros H Hm. unfold stamp. rewrite H. intros (l & [_ ->]%mm_insert_ret & [= <-])%obind_ret_inv.
  eexists (Entry _ vc (update_local_timestamp now m)). simpl. rewrite mm_place_perm. split; [by left|done].
Qed.

End MessageQueue.
