(* ===== verification/QueueThreads.v ===== *)
(** * Threads on one queue

    Models the locking of [node/src/message_queue.h]: several threads call the operations
    of one queue, and their statements interleave. Every operation runs its statements
    under [_queue_lock], with two exceptions: [enqueue] tests and sets the TTL before it
    takes the lock, and [total_count] reads the sizes of both containers without it.
    Statements take effect in one total order. A read of [total_count] while another thread
    is inside an operation that changes the containers is a data race: undefined, and the
    end of the run. An unlocked access to [_ttl_set] or [_ttl] gets the value in that
    order. *)

From Stdlib Require Import ZArith Lia.
From stdpp Require Import base list gmap relations strings.
From S2P Require Import Prelude Uint128 Clocks MessageQueue.

Local Open Scope Z_scope.
Local Open Scope sopmq_scope.

Module QueueThreads.
Import VectorClock MessageQueue.

(** ** Single assignments *)

Definition set_ttl_flag (q : message_queue) : message_queue :=
  MQ (_queue_id q) (_created_on q) (_total_message_size q) true (_ttl q) (_unstamped_messages q)
    (_queued_messages q) (_message_index q) (next_handle q).
Definition set_ttl (ttl : Z) (q : message_queue) : message_queue :=
  MQ (_queue_id q) (_created_on q) (_total_message_size q) (_ttl_set q) ttl (_unstamped_messages q)
    (_queued_messages q) (_message_index q) (next_handle q).
Definition set_size (size : Z) (q : message_queue) : message_queue :=
  MQ (_queue_id q) (_created_on q) size (_ttl_set q) (_ttl q) (_unstamped_messages q)
    (_queued_messages q) (_message_index q) (next_handle q).
Definition set_unstamped (u : gmap uuid queued_message) (q : message_queue) : message_queue :=
  MQ (_queue_id q) (_created_on q) (_total_message_size q) (_ttl_set q) (_ttl q) u
    (_queued_messages q) (_message_index q) (next_handle q).
Definition set_queued (l : list entry) (handle : nat) (q : message_queue) : message_queue :=
  MQ (_queue_id q) (_created_on q) (_total_message_size q) (_ttl_set q) (_ttl q) (_unstamped_messages q)
    l (_message_index q) handle.
Definition set_index (i : gmap uuid nat) (q : message_queue) : message_queue :=
  MQ (_queue_id q) (_created_on q) (_total_message_size q) (_ttl_set q) (_ttl q) (_unstamped_messages q)
    (_queued_messages q) i (next_handle q).

Section Threads.
Context (RF : nat).

(** ** The calls, one after the other *)

(** The member functions that compile. *)
Inductive method := Do (o : op) | MemorySize | PeekAll | TotalCount.

Inductive result := Nothing | Found (b : bool) | Size (n : Z) | Messages (l : list queued_message) | Count (n : nat).

Definition apply (m : method) (q : message_queue) : outcome (message_queue * result) :=
  match m with
  | Do (Stamp now id vc) => r <~ stamp now id vc q;; Ret (r.2, Found r.1)
  | Do o => q <~ exec RF o q;; Ret (q, Nothing)
  | MemorySize => Ret (q, Size (memory_size q))
  | PeekAll => Ret (q, Messages (peekAll q))
  | TotalCount => Ret (q, Count (total_count q))
  end.

(** The queue and the results that the calls [ms] give one after the other. *)
Fixpoint applies (ms : list method) (q : message_queue) : outcome (message_queue * list result) :=
  match ms with
  | [] => Ret (q, [])
  | m :: ms =>
    r <~ apply m q;;
    rs <~ applies ms r.1;;
    Ret (rs.1, r.2 :: rs.2)
  end.

(** ** The statements under the lock *)

Inductive crit :=
| EnqueueSize (now : Z) (id : uuid) (data : bytes)
| EnqueueInsert (now : Z) (id : uuid) (data : bytes)
| StampInsert (now : Z) (id : uuid) (vc : vclock)
| StampIndex (id : uuid) (pos : nat)
| StampErase (id : uuid)
| ExpireTtl (now : Z)
| ExpireQueued (now ttl : Z)
| ExpireUnstamped (now ttl : Z)
| ReadSize
| ReadAll.

(** The first statement after the lock is taken; [total_count] takes none. *)
Definition enter (m : method) : crit :=
  match m with
  | Do (Enqueue now id data _) => EnqueueSize now id data
  | Do (Stamp now id vc) => StampInsert now id vc
  | Do (Expire now) => ExpireTtl now
  | MemorySize | TotalCount => ReadSize
  | PeekAll => ReadAll
  end.

(** One statement, and the next one, or what is returned when the lock is released. *)
Definition crit_step (c : crit) (q : message_queue) : outcome (message_queue * (crit + result)) :=
  match c with
  | EnqueueSize now id data =>
    Ret (set_size (u32 (_total_message_size q + calc_size RF (Z.of_nat (length data)))) q, inl (EnqueueInsert now id data))
  | EnqueueInsert now id data =>
    Ret (set_unstamped (um_insert id (queued_message_new RF now id data) (_unstamped_messages q)) q, inr Nothing)
  | StampInsert now id vc =>
    match _unstamped_messages q !! id with
    | Some m =>
      let pos := next_handle q in
      l <~ mm_insert (Entry pos vc (update_local_timestamp now m)) (_queued_messages q);;
      Ret (set_queued l (S pos) q, inl (StampIndex id pos))
    | None => Ret (q, inr (Found false))
    end
  | StampIndex id pos => Ret (set_index (um_insert id pos (_message_index q)) q, inl (StampErase id))
  | StampErase id => Ret (set_unstamped (delete id (_unstamped_messages q)) q, inr (Found true))
  | ExpireTtl now => Ret (q, inl (ExpireQueued now (_ttl q)))
  | ExpireQueued now ttl =>
    let '(l, size) := expire_queued RF now ttl (_queued_messages q) (_total_message_size q) in
    Ret (set_size size (set_queued l (next_handle q) q), inl (ExpireUnstamped now ttl))
  | ExpireUnstamped now ttl =>
    let '(u, size) := expire_unstamped RF now ttl (map_to_list (_unstamped_messages q)) (_unstamped_messages q)
                        (_total_message_size q) in
    Ret (set_size size (set_unstamped u q), inr Nothing)
  | ReadSize => Ret (q, inr (Size (memory_size q)))
  | ReadAll => Ret (q, inr (Messages (peekAll q)))
  end.

(** ** Threads *)

Inductive pc :=
| Ready
| TtlFlag (m : method) (ttlSecs : Z)
| TtlValue (m : method) (ttlSecs : Z)
| Locking (m : method)
| Inside (m : method) (c : crit)
| CountUnstamped
| CountQueued (unstamped : nat).

(** The calls a thread still has to make, and where it is. [history] records the calls in
    the order in which they released the lock, with what they returned; [counts] what the
    calls of [total_count] returned. *)
Record tstate := TS {
  shared : message_queue;
  lock : option nat;
  threads : list (list method * pc);
  history : list (nat * (method * result));
  counts : list (nat * nat);
  raced : bool
}.

Definition tinit (q : message_queue) (progs : list (list method)) : tstate :=
  TS q None ((fun p => (p, Ready)) <$> progs) [] [] false.

(** The unlocked part of a call: [enqueue] reads [_ttl_set] first. *)
Definition call (m : method) (q : message_queue) : pc :=
  match m with
  | Do (Enqueue _ _ _ ttlSecs) => if _ttl_set q then Locking m else TtlFlag m ttlSecs
  | TotalCount => CountUnstamped
  | _ => Locking m
  end.

(** Some thread is changing the containers. *)
Definition changing (s : tstate) : bool :=
  match lock s with
  | Some t => match threads s !! t with Some (_, Inside (Do _) _) => true | _ => false end
  | None => false
  end.

(** One statement of thread [t]; [None] when it has nothing to do, waits for the lock, or
    has no defined effect; no thread moves after a race. *)
Definition tstep (t : nat) (s : tstate) : option tstate :=
  if raced s then None else
  '(prog, p) ← threads s !! t;
  let goto q th := Some (TS q (lock s) (<[t := th]> (threads s)) (history s) (counts s) false) in
  let race := Some (TS (shared s) (lock s) (<[t := (prog, Ready)]> (threads s)) (history s) (counts s) true) in
  match p with
  | Ready =>
    match prog with
    | m :: prog => goto (shared s) (prog, call m (shared s))
    | [] => None
    end
  | TtlFlag m ttl => goto (set_ttl_flag (shared s)) (prog, TtlValue m ttl)
  | TtlValue m ttl => goto (set_ttl ttl (shared s)) (prog, Locking m)
  | Locking m =>
    match lock s with
    | None => Some (TS (shared s) (Some t) (<[t := (prog, Inside m (enter m))]> (threads s)) (history s) (counts s) false)
    | Some _ => None
    end
  | Inside m c =>
    match crit_step c (shared s) with
    | Ret (q, inl c') => goto q (prog, Inside m c')
    | Ret (q, inr r) => Some (TS q None (<[t := (prog, Ready)]> (threads s)) (history s ++ [(t, (m, r))]) (counts s) false)
    | _ => None
    end
  | CountUnstamped =>
    if changing s then race else goto (shared s) (prog, CountQueued (size (_unstamped_messages (shared s))))
  | CountQueued n =>
    if changing s then race else
    Some (TS (shared s) (lock s) (<[t := (prog, Ready)]> (threads s)) (history s)
            (counts s ++ [(t, (n + length (_queued_messages (shared s)))%nat)]) false)
  end.

Definition step (s s' : tstate) : Prop := exists t, tstep t s = Some s'.

Definition finished (s : tstate) : Prop := Forall (fun th => th = ([], Ready)) (threads s).

(** ** The statements of a call add up to the operation *)

Fixpoint finish (fuel : nat) (c : crit) (q : message_queue) : outcome (message_queue * result) :=
  match fuel with
  | O => Undef
  | S fuel =>
    x <~ crit_step c q;;
    match x.2 with inl c' => finish fuel c' x.1 | inr r => Ret (x.1, r) end
  end.

Definition rank (c : crit) : nat :=
  match c with
  | EnqueueSize _ _ _ => 2 | EnqueueInsert _ _ _ => 1
  | StampInsert _ _ _ => 3 | StampIndex _ _ => 2 | StampErase _ => 1
  | ExpireTtl _ => 3 | ExpireQueued _ _ => 2 | ExpireUnstamped _ _ => 1
  | ReadSize | ReadAll => 1
  end.

Definition takes_lock (m : method) : Prop := m <> TotalCount.

#[global] Instance takes_lock_dec m : Decision (takes_lock m).
Proof. destruct m; (left; discriminate) || (right; intros H; by apply H). Defined.

Lemma rank_step c q q' c' : crit_step c q = Ret (q', inl c') -> rank c = S (rank c').
Proof.
  destruct c; simpl; intros E; repeat case_match; simplify_eq/=; try done;
    apply obind_ret_inv in E as (r & _ & ?); by simplify_eq.
Qed.

Lemma enter_apply m q : takes_lock m -> _ttl_set q = true -> finish (rank (enter m)) (enter m) q = apply m q.
Proof.
  intros Hm Ht. destruct m as [[now id data ttl|now id vc|now]| | |]; simpl; [| | |done..].
  - unfold enqueue, set_unstamped, set_size. simpl. by rewrite Ht.
  - unfold stamp. destruct (_unstamped_messages q !! id); [|done]. by destruct (mm_insert _ _).
  - unfold expire_messages. destruct (expire_queued _ _ _ _ _) as [l z]. simpl.
    by destruct (expire_unstamped _ _ _ _ _ _).
Qed.

(** ** The invariant of the threads *)

(** What thread [t] has done, is doing and will do under the lock. *)
Definition current (p : pc) : list method :=
  match p with TtlFlag m _ | TtlValue m _ | Locking m | Inside m _ => [m] | _ => [] end.

Abbreviation locked_calls := (filter takes_lock).

Definition done_by (t : nat) (h : list (nat * (method * result))) : list method := (filter (fun e => e.1 = t) h).*2.*1.

Definition unlocked (p : pc) : Prop :=
  match p with Ready | CountUnstamped | CountQueued _ => True | Locking m => takes_lock m | _ => False end.

Definition account (h : list (nat * (method * result))) (t : nat) (th : list method * pc) : list method :=
  done_by t h ++ current th.2 ++ locked_calls th.1.

(** On a queue whose TTL is set: the calls that released the lock, run one after the
    other, returned what they did and give the shared queue, or the queue from which the
    thread that holds the lock started. *)
Record tinv (q0 : message_queue) (progs : list (list method)) (s : tstate) : Prop := {
  ti_ttl : _ttl_set (shared s) = true;
  ti_queue : exists q, applies (history s).*2.*1 q0 = Ret (q, (history s).*2.*2) /\ _ttl_set q = true /\
    match lock s with
    | None => shared s = q
    | Some t => exists prog m c, threads s !! t = Some (prog, Inside m c) /\
        finish (rank c) c (shared s) = apply m q
    end;
  ti_others : forall t prog p, threads s !! t = Some (prog, p) -> lock s <> Some t -> unlocked p;
  ti_progs : forall t, account (history s) t <$> threads s !! t = locked_calls <$> progs !! t
}.

Lemma applies_snoc ms m q q1 rs : applies ms q = Ret (q1, rs) ->
  applies (ms ++ [m]) q = (x <~ apply m q1;; Ret (x.1, rs ++ [x.2])).
Proof.
  revert q rs. induction ms as [|m' ms IH]; intros q rs; simpl.
  - intros [= -> <-]. by destruct (apply m q1).
  - intros (x & Ex & (rs' & Er & [= <- <-])%obind_ret_inv)%obind_ret_inv. rewrite Ex. simpl.
    rewrite (IH _ rs'.2) by (rewrite Er; by destruct rs'). destruct (apply m rs'.1); done.
Qed.

Lemma crit_step_ttl_set c q q' n : crit_step c q = Ret (q', n) -> _ttl_set q' = _ttl_set q.
Proof.
  destruct c; simpl; intros E; repeat case_match; simplify_eq/=; try done;
    apply obind_ret_inv in E as (r & _ & ?); by simplify_eq.
Qed.

Lemma done_by_snoc t h t' x : done_by t (h ++ [(t', x)]) = done_by t h ++ if decide (t' = t) then [x.1] else [].
Proof.
  unfold done_by. rewrite filter_app, !fmap_app, filter_cons. simpl. by case_decide.
Qed.

(** The accounting of a step of thread [t]. *)
Lemma progs_update s t th th' h' (progs : list (list method)) :
  threads s !! t = Some th -> account h' t th' = account (history s) t th ->
  (forall t', t' <> t -> done_by t' h' = done_by t' (history s)) ->
  (forall t', account (history s) t' <$> threads s !! t' = locked_calls <$> progs !! t') ->
  forall t', account h' t' <$> (<[t := th']> (threads s)) !! t' = locked_calls <$> progs !! t'.
Proof.
  intros Ht E Hne H t'. rewrite <- H. destruct (decide (t' = t)) as [->|].
  - rewrite list_lookup_insert_eq by (by eapply lookup_lt_Some). rewrite Ht. simpl. by rewrite E.
  - rewrite list_lookup_insert_ne by done. unfold account. by rewrite Hne.
Qed.

Lemma others_update s t th' l' :
  (forall t' prog p, threads s !! t' = Some (prog, p) -> lock s <> Some t' -> unlocked p) ->
  (l' = Some t \/ (unlocked th'.2 /\ (l' = lock s \/ (l' = None /\ lock s = Some t)))) ->
  (l' = Some t -> lock s = Some t \/ lock s = None) ->
  forall t' prog p, (<[t := th']> (threads s)) !! t' = Some (prog, p) -> l' <> Some t' -> unlocked p.
Proof.
  intros H Hl Hs t' prog p Ht Hne. destruct (decide (t' = t)) as [->|Hd].
  - apply list_lookup_insert_Some in Ht as [(_ & -> & _)|[? _]]; [|done]. destruct Hl as [?|[? _]]; done.
  - rewrite list_lookup_insert_ne in Ht by done. apply (H t' prog p Ht). intros E.
    destruct Hl as [->|[_ [->|[-> Hl]]]]; [|congruence..]. destruct (Hs eq_refl); congruence.
Qed.

(** Where the thread that moves is, by the invariant. *)
Lemma tinv_pc q0 progs s t prog p : tinv q0 progs s -> threads s !! t = Some (prog, p) ->
  (unlocked p /\ lock s <> Some t) \/ exists m c, p = Inside m c /\ lock s = Some t.
Proof.
  intros [_ (q & _ & _ & Hlock) Hoth _] Ht. destruct (decide (lock s = Some t)) as [El|]; [right|left; eauto].
  rewrite El in Hlock. destruct Hlock as (pr & m & c & Hl & _). simplify_eq. eauto.
Qed.

(** A thread without the lock moves on outside of it. *)
Lemma tinv_outside q0 progs s t th th' n : tinv q0 progs s -> threads s !! t = Some th -> lock s <> Some t ->
  unlocked th'.2 -> account (history s) t th' = account (history s) t th ->
  tinv q0 progs (TS (shared s) (lock s) (<[t := th']> (threads s)) (history s) n false).
Proof.
  intros [Httl (q & Hrun & Hq & Hlock) Hoth Hpr] Et Hnl Hu Ha. split; simpl; [done| | |].
  - exists q. split_and!; [done..|]. destruct (lock s) as [t'|]; [|done].
    destruct Hlock as (pr & m' & c & Hl & Hf). exists pr, m', c. by rewrite list_lookup_insert_ne by congruence.
  - eapply others_update; [exact Hoth|simpl; auto|]. intros; congruence.
  - by eapply progs_update.
Qed.

Lemma tinv_lock q0 progs s t m prog : tinv q0 progs s -> threads s !! t = Some (prog, Locking m) -> takes_lock m -> lock s = None ->
  tinv q0 progs (TS (shared s) (Some t) (<[t := (prog, Inside m (enter m))]> (threads s)) (history s) (counts s) false).
Proof.
  intros [Httl (q & Hrun & Hq & Hlock) Hoth Hpr] Et Hm El. rewrite El in Hlock. subst q.
  split; simpl; [done| | |].
  - exists (shared s). split_and!; [done..|]. exists prog, m, (enter m).
    rewrite list_lookup_insert_eq by (by eapply lookup_lt_Some). split; [done|]. by apply enter_apply.
  - eapply others_update; [exact Hoth|by left|by right].
  - by eapply progs_update.
Qed.

Lemma tinv_inside q0 progs s t m c prog q1 next : tinv q0 progs s -> threads s !! t = Some (prog, Inside m c) ->
  crit_step c (shared s) = Ret (q1, next) ->
  tinv q0 progs (match next with
    | inl c' => TS q1 (lock s) (<[t := (prog, Inside m c')]> (threads s)) (history s) (counts s) false
    | inr r => TS q1 None (<[t := (prog, Ready)]> (threads s)) (history s ++ [(t, (m, r))]) (counts s) false
    end).
Proof.
  intros I Et Ec. destruct (tinv_pc _ _ _ _ _ _ I Et) as [[[] _]|(? & ? & _ & El)].
  destruct I as [Httl (q & Hrun & Hq & Hlock) Hoth Hpr]. rewrite El in Hlock.
  destruct Hlock as (pr & m' & c' & Hl & Hf). rewrite Et in Hl. injection Hl as <- <- <-.
  assert (_ttl_set q1 = true) as Httl' by (by rewrite (crit_step_ttl_set _ _ _ _ Ec)).
  destruct next as [c1|r]; split; simpl; try done.
  - exists q. rewrite El. split_and!; [done..|]. exists prog, m, c1.
    rewrite list_lookup_insert_eq by (by eapply lookup_lt_Some). split; [done|].
    rewrite <- Hf, (rank_step _ _ _ _ Ec). simpl. by rewrite Ec.
  - eapply others_update; [exact Hoth|by left|by left].
  - by eapply progs_update.
  - exists q1. rewrite !fmap_app. simpl. rewrite (applies_snoc _ _ _ _ _ Hrun). rewrite <- Hf.
    destruct (rank c) eqn:Er; [by destruct c|]. simpl. by rewrite Ec.
  - eapply others_update; [exact Hoth|right; simpl; auto|done].
  - eapply progs_update; [done| | |done].
    + unfold account. simpl. by rewrite done_by_snoc, decide_True, <- app_assoc.
    + intros t' Ht'. by rewrite done_by_snoc, decide_False, app_nil_r.
Qed.

Lemma call_locked m q : _ttl_set q = true -> unlocked (call m q) /\ current (call m q) = locked_calls [m].
Proof. intros Ht. destruct m as [[]| | |]; simpl; rewrite ?Ht; simpl; done. Qed.

Lemma tstep_inv q0 progs t s s' : tstep t s = Some s' -> tinv q0 progs s -> raced s' = true \/ tinv q0 progs s'.
Proof.
  intros E I. unfold tstep in E. destruct (raced s); [done|].
  destruct (threads s !! t) as [[prog p]|] eqn:Et; simpl in E; [|done].
  destruct (tinv_pc _ _ _ _ _ _ I Et) as [[Hp Hnl]|(m & c & -> & _)].
  - destruct p as [|m ttl|m ttl|m|m c| |n]; try done.
    + destruct prog as [|m prog]; simplify_eq. right. destruct (call_locked m (shared s) (ti_ttl _ _ _ I)) as [Hu Hc].
      eapply tinv_outside; [done|exact Et|done|done|]. unfold account. cbn [fst snd].
      by rewrite Hc, <- filter_app.
    + destruct (lock s) eqn:El; simplify_eq. right. by apply tinv_lock.
    + destruct (changing s); simplify_eq; [by left|right]. by eapply tinv_outside.
    + destruct (changing s); simplify_eq; [by left|right]. by eapply tinv_outside.
  - destruct (crit_step c (shared s)) as [[q1 next]| |] eqn:Ec; try done. right.
    pose proof (tinv_inside _ _ _ _ _ _ _ _ _ I Et Ec) as I'. by destruct next; simplify_eq.
Qed.

Lemma tinit_inv q0 progs : _ttl_set q0 = true -> tinv q0 progs (tinit q0 progs).
Proof.
  intros Ht. split; simpl; [done|by exists q0| |].
  - intros t prog p Hl _. rewrite list_lookup_fmap in Hl. by destruct (progs !! t); simplify_eq/=.
  - intros t. rewrite list_lookup_fmap. by destruct (progs !! t).
Qed.

Lemma raced_stops s s' : raced s = true -> ~ step s s'.
Proof. intros Hr [t E]. unfold tstep in E. by rewrite Hr in E. Qed.

Lemma nsteps_inv q0 progs k s : _ttl_set q0 = true -> nsteps step k (tinit q0 progs) s -> raced s = true \/ tinv q0 progs s.
Proof.
  intros Ht. revert s. induction k as [|k IH]; intros s; [inversion 1; subst; right; by apply tinit_inv|].
  intros (s1 & H & t & E)%nsteps_inv_r. destruct (IH _ H) as [Hr|I]; [|by eapply tstep_inv].
  destruct (raced_stops s1 s Hr). by exists t.
Qed.

(** ** Races *)

Definition calls_total_count (progs : list (list method)) : Prop :=
  exists t prog, progs !! t = Some prog /\ TotalCount ∈ prog.

(** The thread is in [total_count], or will be. *)
Definition counting (th : list method * pc) : Prop :=
  TotalCount ∈ th.1 \/ match th.2 with CountUnstamped | CountQueued _ => True | _ => False end.

Record rinv (progs : list (list method)) (s : tstate) : Prop := {
  ri_counting : forall t th, threads s !! t = Some th -> counting th -> calls_total_count progs;
  ri_raced : raced s = true -> changing s = true /\ calls_total_count progs
}.

Lemma rinv_update progs s t th th' q l h n : rinv progs s -> threads s !! t = Some th -> (counting th' -> counting th) ->
  rinv progs (TS q l (<[t := th']> (threads s)) h n false).
Proof.
  intros [Hc _] Et Ht. split; [|done]. intros t' th0. simpl.
  intros [(-> & -> & _)|[_ H]]%list_lookup_insert_Some Hx; [by eapply Hc, Ht|by eapply Hc].
Qed.

Lemma rinv_race progs s t prog p : rinv progs s -> threads s !! t = Some (prog, p) -> counting ([], p) -> changing s = true ->
  rinv progs (TS (shared s) (lock s) (<[t := (prog, Ready)]> (threads s)) (history s) (counts s) true).
Proof.
  intros [Hc _] Et Hp Hch.
  assert (calls_total_count progs) as H by (apply (Hc _ _ Et); right; by destruct Hp as [?%not_elem_of_nil|?]).
  split; simpl.
  - intros t' th _ _. done.
  - intros _. split; [|done]. unfold changing in *. simpl. destruct (lock s) as [t'|]; [|done].
    rewrite list_lookup_insert_ne; [done|]. intros ->. rewrite Et in Hch. destruct p; try done.
    by destruct Hp as [?%not_elem_of_nil|?].
Qed.

Lemma tstep_rinv progs t s s' : tstep t s = Some s' -> rinv progs s -> rinv progs s'.
Proof.
  intros E I. unfold tstep in E. destruct (raced s); [done|].
  destruct (threads s !! t) as [[prog p]|] eqn:Et; simpl in E; [|done].
  destruct p as [|m ttl|m ttl|m|m c| |n].
  - destruct prog as [|m prog]; simplify_eq. eapply rinv_update; [done..|]. unfold counting. simpl.
    intros [H|H]; [left; by right|]. destruct m as [[]| | |]; simpl in H; try (by destruct (_ttl_set _)); try done. left. by left.
  - simplify_eq. eapply rinv_update; [done..|]. done.
  - simplify_eq. by eapply rinv_update.
  - destruct (lock s); simplify_eq. by eapply rinv_update.
  - destruct (crit_step c (shared s)) as [[q1 [c1|r]]| |]; simplify_eq; by eapply rinv_update.
  - destruct (changing s) eqn:Hc; simplify_eq; [eapply rinv_race; [done..|by right|done]|]. eapply rinv_update; [done..|]. intros _. by right.
  - destruct (changing s) eqn:Hc; simplify_eq; [eapply rinv_race; [done..|by right|done]|]. eapply rinv_update; [done..|]. intros _. by right.
Qed.

Lemma nsteps_rinv q0 progs k s : nsteps step k (tinit q0 progs) s -> rinv progs s.
Proof.
  revert s. induction k as [|k IH]; intros s.
  - inversion 1; subst. split; [|done]. intros t th Ht. simpl in Ht. rewrite list_lookup_fmap in Ht.
    destruct (progs !! t) as [prog|] eqn:Ep; simplify_eq/=. intros [Hx|[]]. by exists t, prog.
  - intros (s1 & H & t & E)%nsteps_inv_r. by eapply tstep_rinv, IH.
Qed.

(** ** Progress *)

Definition pc_weight (p : pc) : Z :=
  match p with
  | Ready => 0 | TtlFlag _ _ => 6 | TtlValue _ _ => 5 | Locking _ => 4 | Inside _ c => Z.of_nat (rank c)
  | CountUnstamped => 2 | CountQueued _ => 1
  end.

Definition weight (th : list method * pc) : Z := 7 * Z.of_nat (length th.1) + pc_weight th.2.

Lemma tstep_weight t s s' : tstep t s = Some s' -> sumZ weight (threads s') < sumZ weight (threads s).
Proof.
  unfold tstep. intros E. destruct (raced s); [done|]. destruct (threads s !! t) as [[prog p]|] eqn:Et; simpl in E; [|done].
  destruct p as [|m ttl|m ttl|m|m c| |n].
  - destruct prog as [|m prog]; simplify_eq/=. erewrite sumZ_insert by done. unfold weight; simpl.
    destruct m as [[]| | |]; simpl; repeat case_match; simpl; lia.
  - simplify_eq/=. erewrite sumZ_insert by done. unfold weight; simpl. lia.
  - simplify_eq/=. erewrite sumZ_insert by done. unfold weight; simpl. lia.
  - destruct (lock s); simplify_eq/=. erewrite sumZ_insert by done. unfold weight; simpl. destruct m as [[]| | |]; simpl; lia.
  - destruct (crit_step c (shared s)) as [[q1 [c1|r]]| |] eqn:Ec; simplify_eq/=; erewrite sumZ_insert by done; unfold weight; simpl.
    + rewrite (rank_step _ _ _ _ Ec). lia.
    + destruct c; simpl; lia.
  - destruct (changing s); simplify_eq/=; erewrite sumZ_insert by done; unfold weight; simpl; lia.
  - destruct (changing s); simplify_eq/=; erewrite sumZ_insert by done; unfold weight; simpl; lia.
Qed.

Lemma weight_nonneg th : 0 <= weight th.
Proof. unfold weight, pc_weight. destruct th as [prog []]; simpl; lia. Qed.

Lemma nsteps_weight k s s' : nsteps step k s s' -> Z.of_nat k + sumZ weight (threads s') <= sumZ weight (threads s).
Proof.
  induction 1 as [|k s s1 s2 [t E] H IH]; [lia|]. pose proof (tstep_weight _ _ _ E). lia.
Qed.

Lemma crit_step_no_throw c q e : crit_step c q <> Throw e.
Proof.
  destruct c; simpl; repeat case_match; try done. unfold mm_insert. by case_match.
Qed.

(** A state in which no thread can move. *)
Lemma stuck_cases q0 progs s : tinv q0 progs s -> raced s = false -> (forall s', ~ step s s') ->
  finished s \/ exists t m prog c, threads s !! t = Some (prog, Inside m c) /\
    applies ((history s).*2.*1 ++ [m]) q0 = Undef.
Proof.
  intros I Hrc Hstuck. assert (forall t, tstep t s = None) as Hn.
  { intros t. destruct (tstep t s) as [s'|] eqn:E; [|done]. exfalso. apply (Hstuck s'). by exists t. }
  pose proof I as [Httl (q & Hrun & Hq & Hlock) Hoth Hpr]. unfold tstep in Hn. rewrite Hrc in Hn.
  destruct (lock s) as [t|] eqn:El.
  - right. destruct Hlock as (prog & m & c & Et & Hf). exists t, m, prog, c. split; [done|].
    rewrite (applies_snoc _ _ _ _ _ Hrun), <- Hf. specialize (Hn t). rewrite Et in Hn. simpl in Hn.
    destruct (rank c) eqn:Er; [by destruct c|]. simpl.
    destruct (crit_step c (shared s)) as [[q1 [c1|r]]|e|] eqn:Ec; try done. by apply crit_step_no_throw in Ec.
  - left. apply Forall_lookup. intros t [prog p] Et. specialize (Hn t). rewrite Et in Hn. simpl in Hn.
    assert (unlocked p) as Hp by (by eapply Hoth).
    destruct p; try done; [by destruct prog|by destruct (changing s)..].
Qed.

(** ** Properties *)

(** C3. The queue is linearizable once its TTL is set: whatever calls of its member
    functions the threads make and however their statements interleave, they make at most
    seven steps per call, and when none can move, one of three: every call has completed,
    and the calls that take the lock, one after the other in the order in which they
    released it, which keeps the order of each thread, return what they returned and give
    the queue there is; or a stamp had no defined effect, and it has none either in that
    sequential run; or some thread has called [total_count], which takes no lock, and read
    the containers while another thread was changing them, which is a data race. *)
Theorem queue_linearizable q0 progs k s :
  _ttl_set q0 = true -> nsteps step k (tinit q0 progs) s ->
  Z.of_nat k <= 7 * sumZ (fun p => Z.of_nat (length p)) progs /\
  ((forall s', ~ step s s') ->
    (finished s /\ applies (history s).*2.*1 q0 = Ret (shared s, (history s).*2.*2) /\
     forall t prog, progs !! t = Some prog -> done_by t (history s) = locked_calls prog) \/
    (exists t m, applies ((history s).*2.*1 ++ [m]) q0 = Undef /\
       exists prog rest, progs !! t = Some prog /\ locked_calls prog = done_by t (history s) ++ m :: rest) \/
    raced s = true /\ changing s = true /\ calls_total_count progs).
Proof.
  intros Ht Hk. split.
  - pose proof (nsteps_weight _ _ _ Hk) as Hw. pose proof (sumZ_nonneg weight (threads s) weight_nonneg) as Hs.
    assert (sumZ weight (threads (tinit q0 progs)) = 7 * sumZ (fun p => Z.of_nat (length p)) progs) as Hi; [|lia].
    unfold tinit. simpl. clear. induction progs as [|p progs IH]; [done|]. csimpl. rewrite !sumZ_cons, IH. unfold weight. simpl. lia.
  - intros Hstuck. destruct (raced s) eqn:Hr; [right; right; split; [done|by eapply ri_raced, Hr; eapply nsteps_rinv]|].
    destruct (nsteps_inv _ _ _ _ Ht Hk) as [?|I]; [congruence|]. destruct (stuck_cases _ _ _ I Hr Hstuck) as [Hf|(t & m & prog & c & Et & Hu)].
    + left. destruct I as [Httl (q & Hrun & Hq & Hlock) Hoth Hpr]. unfold finished in Hf. rewrite Forall_lookup in Hf.
      split; [by apply Forall_lookup|]. split.
      * destruct (lock s) as [t|]; [|congruence]. destruct Hlock as (? & ? & ? & Et & _). by apply Hf in Et.
      * intros t prog Hp. specialize (Hpr t). rewrite Hp in Hpr. destruct (threads s !! t) as [th|] eqn:Et; simplify_eq/=.
        rewrite (Hf _ _ Et) in Hpr. unfold account in Hpr. simpl in Hpr. by rewrite app_nil_r in Hpr.
    + right. left. exists t, m. split; [done|]. pose proof (ti_progs _ _ _ I t) as Hp. rewrite Et in Hp.
      destruct (progs !! t) as [pr|]; simplify_eq/=. exists pr. eexists. split; [done|]. by rewrite <- Hp.
Qed.

(** ** Schedules *)

Fixpoint schedule (ts : list nat) (s : tstate) : option tstate :=
  match ts with
  | [] => Some s
  | t :: ts => tstep t s ≫= schedule ts
  end.

Lemma schedule_nsteps ts s s' : schedule ts s = Some s' -> nsteps step (length ts) s s'.
Proof.
  revert s. induction ts as [|t ts IH]; intros s E; simplify_eq/=; [constructor|].
  destruct (tstep t s) as [s1|] eqn:Et; simplify_eq/=. econstructor; [by exists t|by apply IH].
Qed.

Lemma finished_stuck s : finished s -> forall s', ~ step s s'.
Proof.
  unfold finished. rewrite Forall_lookup. intros H s' [t E]. unfold tstep in E. destruct (raced s); [done|].
  destruct (threads s !! t) as [th|] eqn:Et; simplify_eq/=. by rewrite (H _ _ Et) in E.
Qed.

End Threads.

(** Two threads that stamp the two messages of a queue, their statements mixed; the second
    then looks at the result. *)
Definition sample_start : message_queue :=
  enqueue 3 1 [2] [9] 20 (enqueue 3 0 [1] [7; 8] 10 (message_queue_new 0 sample_id)).

Definition sample_progs : list (list method) := [[Do (Stamp 2 [2] sample_high)]; [Do (Stamp 3 [1] sample_low); PeekAll]].

Definition sample_schedule : list nat := [0; 1; 0; 0; 0; 0; 1; 1; 1; 1; 1; 1; 1]%nat.

Lemma queue_linearizable_witness : exists s,
  schedule 3 sample_schedule (tinit sample_start sample_progs) = Some s /\ shared s = sample_queue /\
  applies 3 (history s).*2.*1 sample_start = Ret (shared s, [Found true; Found true; Messages (peekAll sample_queue)]).
Proof.
  destruct (schedule 3 sample_schedule (tinit sample_start sample_progs)) as [s|] eqn:E; [|vm_compute in E; discriminate].
  exists s. assert (finished s) as Hf by (vm_compute in E; injection E as <-; by repeat constructor).
  destruct (queue_linearizable 3 sample_start sample_progs (length sample_schedule) s eq_refl
    (schedule_nsteps 3 _ _ _ E)) as [_ H].
  destruct (H (finished_stuck 3 s Hf)) as [(_ & Hr & _)|[(t & m & _ & prog & rest & Hp & Hq)|[Hr _]]].
  - split_and!; [done| |rewrite Hr]; vm_compute in E; by injection E as <-.
  - exfalso. vm_compute in E. injection E as <-. destruct t as [|[|t]]; simplify_eq/=; discriminate Hq.
  - exfalso. vm_compute in E. injection E as <-. discriminate Hr.
Defined.

(** ** Where the locking is missing *)

(** [total_count] while a thread is inside [stamp]: a data race. *)
Lemma total_count_races : exists s,
  schedule 3 [0; 0; 0; 1; 1]%nat (tinit sample_start [[Do (Stamp 2 [2] sample_high)]; [TotalCount]]) = Some s /\ raced s = true.
Proof. eexists. split; [vm_compute; reflexivity|done]. Qed.

(** A whole [stamp] between its two reads: two messages are counted as three. *)
Lemma total_count_torn : exists s,
  schedule 3 [1; 1; 0; 0; 0; 0; 0; 1]%nat (tinit sample_start [[Do (Stamp 2 [2] sample_high)]; [TotalCount]]) = Some s /\
  raced s = false /\ counts s = [(1, 3)]%nat /\ total_count (shared s) = 2%nat.
Proof. eexists. split; [vm_compute; reflexivity|]. split_and!; vm_compute; reflexivity. Qed.

(** Two threads enqueue with a TTL of a minute, a third expires messages one
    nanosecond after the first was enqueued. *)
Definition racing : list op := [Enqueue 0 [1] [7] 60; Enqueue 0 [2] [8] 60; Expire 1].

(** Thread 0 sets the flag and is delayed before it stores the TTL. *)
Definition racing_schedule : list nat :=
  [0; 0; 1; 1; 1; 1; 2; 2; 2; 2; 2; 0; 0; 0; 0]%nat.

(** The queue is not linearizable while its first enqueue is in progress: the TTL is
    tested and set outside the lock, so a thread can find [_ttl_set] true and
    [_ttl] still zero. There is an interleaving of two enqueues with a TTL of
    sixty seconds and an expiry one nanosecond later in which a message is lost,
    although the calls lose none in any order when they run one after the other. *)
Theorem queue_ttl_race :
  (exists s, rtc (step 3) (tinit (message_queue_new 0 sample_id) ((fun o => [Do o]) <$> racing)) s /\
     finished s /\ total_count (shared s) = 1%nat /\ _ttl (shared s) = 60) /\
  forall ops, ops ≡ₚ racing ->
    exists q, run 3 ops (message_queue_new 0 sample_id) = Ret q /\ total_count q = 2%nat.
Proof.
  split.
  - destruct (schedule 3 racing_schedule (tinit (message_queue_new 0 sample_id) ((fun o => [Do o]) <$> racing)))
      as [s|] eqn:E; [|vm_compute in E; discriminate].
    exists s. split; [eapply rtc_nsteps_2, schedule_nsteps; exact E|].
    vm_compute in E. injection E as <-. split; [by repeat constructor|]. by vm_compute.
  - intros ops Hp. symmetry in Hp. apply permutations_Permutation in Hp.
    assert (forallb (fun ops => match run 3 ops (message_queue_new 0 sample_id) with
      Ret q => (total_count q =? 2)%nat | _ => false end) (permutations racing) = true) as H by (vm_compute; reflexivity).
    rewrite forallb_forall in H. specialize (H ops (proj1 (list_elem_of_In _ _) Hp)).
    destruct (run 3 ops _) as [q| |]; [|done..]. exists q. split; [done|]. by apply Nat.eqb_eq.
Qed.

End QueueThreads.
