(* ===== verification/QueueManager.v ===== *)
(** * The queues of a node

    Models [node/src/queue_manager.h]. The map owns the queues; the expiry heap
    holds a pointer to each of them. Map nodes are never moved, so a pointer is
    the id of the queue it points to. The heap is a [boost] container of which
    this code only uses [push]: the model keeps what was pushed, in order, and
    says nothing of the heap order. *)

From Stdlib Require Import ZArith Lia.
From stdpp Require Import base list gmap strings.
From S2P Require Import Prelude Uint128 Clocks MessageQueue.

Local Open Scope Z_scope.
Local Open Scope sopmq_scope.

Module QueueManager.
Import MessageQueue.
Abbreviation uint128 := Uint128.uint128.

Record queue_manager := QMgr {
  _queues : gmap uint128 message_queue;
  _queues_by_expiration : list uint128
}.

Definition queue_manager_new : queue_manager := QMgr ∅ [].

(** The queue for the id, created, with its heap entry, when there is none. *)
Definition get_queue (now : Z) (queueId : uint128) (m : queue_manager) : queue_manager * message_queue :=
  match _queues m !! queueId with
  | None =>
    let queue := message_queue_new now queueId in
    (QMgr (<[queueId := queue]> (_queues m)) (_queues_by_expiration m ++ [queueId]), queue)
  | Some queue => (m, queue)
  end.

(** The returned reference is used to update the queue in place. *)
Definition put_queue (queueId : uint128) (q : message_queue) (m : queue_manager) : queue_manager :=
  QMgr (<[queueId := q]> (_queues m)) (_queues_by_expiration m).

Section Manager.
Context (RF : nat).

Definition enqueue_message (now : Z) (queueId : uint128) (messageId : uuid) (data : bytes) (ttlSecs : Z)
    (m : queue_manager) : queue_manager :=
  let '(m, queue) := get_queue now queueId m in
  put_queue queueId (enqueue RF now messageId data ttlSecs queue) m.

(** The result of [stamp], whether the message was found, is not looked at. *)
Definition stamp_message (now : Z) (queueId : uint128) (messageId : uuid) (clock : VectorClock.vclock)
    (m : queue_manager) : outcome queue_manager :=
  let '(m, queue) := get_queue now queueId m in
  r <~ stamp now messageId clock queue;;
  Ret (put_queue queueId r.2 m).

(** ** Runs of the manager *)

Inductive mop :=
| MEnqueue (now : Z) (queueId : uint128) (messageId : uuid) (data : bytes) (ttlSecs : Z)
| MStamp (now : Z) (queueId : uint128) (messageId : uuid) (clock : VectorClock.vclock).

Definition mexec (o : mop) (m : queue_manager) : outcome queue_manager :=
  match o with
  | MEnqueue now q id data ttl => Ret (enqueue_message now q id data ttl m)
  | MStamp now q id vc => stamp_message now q id vc m
  end.

Fixpoint mrun (ops : list mop) (m : queue_manager) : outcome queue_manager :=
  match ops with
  | [] => Ret m
  | o :: ops => m <~ mexec o m;; mrun ops m
  end.

Definition mop_queue (o : mop) : uint128 :=
  match o with MEnqueue _ q _ _ _ => q | MStamp _ q _ _ => q end.

Definition mop_time (o : mop) : Z :=
  match o with MEnqueue now _ _ _ _ => now | MStamp now _ _ _ => now end.

(** The operation on the one queue that an operation of the manager names. *)
Definition mop_op (o : mop) : op :=
  match o with
  | MEnqueue now _ id data ttl => Enqueue now id data ttl
  | MStamp now _ id vc => Stamp now id vc
  end.

(** The queue that the operations on one id build on their own. *)
Definition queue_alone (queueId : uint128) (ops : list mop) : option (outcome message_queue) :=
  match filter (fun o => mop_queue o = queueId) ops with
  | [] => None
  | o :: ops => Some (run RF (mop_op <$> o :: ops) (message_queue_new (mop_time o) queueId))
  end.

(** An operation of the manager is the operation on the queue it names, which is created
    first if need be. *)
Lemma mexec_spec o m :
  let q0 := default (message_queue_new (mop_time o) (mop_queue o)) (_queues m !! mop_queue o) in
  mexec o m = (q <~ exec RF (mop_op o) q0;; Ret (put_queue (mop_queue o) q (get_queue (mop_time o) (mop_queue o) m).1)).
Proof.
  destruct o; simpl; unfold enqueue_message, stamp_message, get_queue; destruct (_queues m !! queueId); simpl; try done.
  all: by destruct (stamp _ _ _ _).
Qed.

Lemma put_get_lookup now qid q m k :
  _queues (put_queue qid q (get_queue now qid m).1) !! k = if decide (qid = k) then Some q else _queues m !! k.
Proof.
  unfold get_queue. destruct (_queues m !! qid) eqn:E; simpl; case_decide; subst; rewrite ?lookup_insert_eq; try done;
    by rewrite !lookup_insert_ne.
Qed.

Definition heap_ok (m : queue_manager) : Prop :=
  NoDup (_queues_by_expiration m) /\ forall k, k ∈ _queues_by_expiration m <-> is_Some (_queues m !! k).

Lemma put_get_heap now qid q m : heap_ok m -> heap_ok (put_queue qid q (get_queue now qid m).1).
Proof.
  intros [Hnd Hin]. unfold heap_ok. setoid_rewrite put_get_lookup. unfold get_queue.
  destruct (_queues m !! qid) as [q0|] eqn:E; simpl.
  - split; [done|]. intros k. rewrite Hin. case_decide; [subst; by rewrite E|done].
  - split.
    + apply NoDup_app. split_and!; [done| |apply NoDup_singleton].
      intros k Hk ->%list_elem_of_singleton. apply Hin in Hk as [? ?]. congruence.
    + intros k. rewrite elem_of_app, list_elem_of_singleton, Hin. case_decide; naive_solver.
Qed.

Lemma mexec_other o m m' k : mop_queue o <> k -> mexec o m = Ret m' -> _queues m' !! k = _queues m !! k.
Proof. rewrite mexec_spec. intros Ho (q & _ & [= <-])%obind_ret_inv. by rewrite put_get_lookup, decide_False. Qed.

(** The operations on one queue, run on the queue that is there. *)
Definition queue_later (queueId : uint128) (ops : list mop) (m : queue_manager) : option (outcome message_queue) :=
  match _queues m !! queueId with
  | Some q => Some (run RF (mop_op <$> filter (fun o => mop_queue o = queueId) ops) q)
  | None => queue_alone queueId ops
  end.

Lemma queue_later_step queueId o ops m :
  queue_later queueId (o :: ops) m =
    match mexec o m with
    | Ret m' => queue_later queueId ops m'
    | _ => if decide (mop_queue o = queueId) then Some Undef else queue_later queueId ops m
    end.
Proof.
  pose proof (mexec_spec o m) as E. simpl in E. unfold queue_later, queue_alone. rewrite filter_cons.
  assert (forall q, exec RF (mop_op o) q = Undef \/ exists q', exec RF (mop_op o) q = Ret q') as Hx.
  { intros q. destruct o; simpl; [eauto|]. unfold stamp. case_match; simpl; [|eauto]. unfold mm_insert. case_match; simpl; eauto. }
  rewrite E. clear E. case_decide as Ho.
  - subst queueId. destruct (_queues m !! mop_queue o) as [q|] eqn:Eq; simpl.
    + destruct (Hx q) as [Hu|[q' Hq]]; [by rewrite Hu|]. rewrite Hq. cbn [obind]. by rewrite put_get_lookup, decide_True.
    + destruct (Hx (message_queue_new (mop_time o) (mop_queue o))) as [Hu|[q' Hq]]; [by rewrite Hu|].
      rewrite Hq. cbn [obind]. by rewrite put_get_lookup, decide_True.
  - destruct (Hx (default (message_queue_new (mop_time o) (mop_queue o)) (_queues m !! mop_queue o))) as [Hu|[q' Hq]].
    + by rewrite Hu.
    + rewrite Hq. cbn [obind]. by rewrite put_get_lookup, decide_False.
Qed.

Lemma mexec_heap o m m' : mexec o m = Ret m' -> heap_ok m -> heap_ok m'.
Proof. rewrite mexec_spec. intros (q & _ & [= <-])%obind_ret_inv H. by apply put_get_heap. Qed.

Lemma mexec_undef o m : mexec o m = Undef \/ exists m', mexec o m = Ret m'.
Proof.
  destruct o; simpl; [eauto|]. unfold stamp_message. destruct (get_queue now queueId m) as [m0 q]. unfold stamp.
  destruct (_unstamped_messages q !! messageId); simpl; [|eauto]. unfold mm_insert. case_match; simpl; eauto.
Qed.

Lemma mrun_spec ops m : heap_ok m ->
  match mrun ops m with
  | Ret m' => (forall queueId, Ret <$> _queues m' !! queueId = queue_later queueId ops m) /\ heap_ok m'
  | Undef => exists queueId, queue_later queueId ops m = Some Undef
  | Throw _ => False
  end.
Proof.
  revert m. induction ops as [|o ops IH]; intros m H; simpl.
  - split; [|done]. intros queueId. unfold queue_later, queue_alone. simpl. by destruct (_queues m !! queueId).
  - destruct (mexec_undef o m) as [E|[m' E]]; rewrite E; cbn [obind].
    + exists (mop_queue o). by rewrite queue_later_step, E, decide_True.
    + specialize (IH m' (mexec_heap _ _ _ E H)). destruct (mrun ops m') as [m2| |]; [|done|].
      * split; [|apply IH]. intros queueId. rewrite queue_later_step, E. apply IH.
      * destruct IH as [k Hk]. exists k. by rewrite queue_later_step, E.
Qed.

(** ** Properties *)

(** C19. Queues are independent: after any sequence of enqueues and stamps on any
    queues, each queue of the manager is the one its own operations build alone,
    created when the first of them arrived, and a queue exists only if some
    operation named it; the expiry heap holds each existing queue exactly once; and the
    sequence is defined unless the operations on some queue alone are not. *)
Theorem queue_manager_isolation ops :
  match mrun ops queue_manager_new with
  | Ret m =>
    (forall queueId, Ret <$> _queues m !! queueId = queue_alone queueId ops) /\
    NoDup (_queues_by_expiration m) /\
    (forall k, k ∈ _queues_by_expiration m <-> is_Some (_queues m !! k))
  | Undef => exists queueId, queue_alone queueId ops = Some Undef
  | Throw _ => False
  end.
Proof.
  assert (heap_ok queue_manager_new) as H.
  { split; [apply NoDup_nil_2|]. intros k. simpl. rewrite lookup_empty, is_Some_alt. set_solver. }
  exact (mrun_spec ops queue_manager_new H).
Qed.

End Manager.
End QueueManager.
