(* ===== verification/Collisions.v ===== *)
(** * Queue names that cannot collide

    A queue is known to the nodes only by the hash of its name: [queue_manager] keys its
    map with it and [ring] places it with it. Every step of [MurmurHash3_x64_128] is a
    bijection in the state and in the block it absorbs, so two names of the same length
    that differ in one block of sixteen bytes have different hashes; in particular names
    of the same length of at most sixteen bytes never share a queue. *)

From Stdlib Require Import ZArith Lia.
From stdpp Require Import base list gmap.
From S2P Require Import Prelude Uint128 Murmur Clocks MessageQueue QueueManager.

Local Open Scope Z_scope.
Local Open Scope sopmq_scope.

Module Collisions.
Import Murmur.

(** ** Bytes as a little-endian number *)

Definition le_value (l : list Z) : Z := foldr (fun b r => b + 256 * r) 0 l.

Lemma le_value_bound l : bytes_ok l -> 0 <= le_value l < 2 ^ (8 * Z.of_nat (length l)).
Proof.
  induction 1 as [|b l Hb Hl IH]; [done|]. cbn [le_value foldr length]. fold (le_value l).
  replace (8 * Z.of_nat (S (length l))) with (8 + 8 * Z.of_nat (length l)) by lia.
  rewrite Z.pow_add_r by lia. unfold in_width in Hb. lia.
Qed.

Lemma le_value_inj l l' : bytes_ok l -> bytes_ok l' -> length l = length l' -> le_value l = le_value l' -> l = l'.
Proof.
  intros Hl. revert l'. induction Hl as [|b l Hb Hl IH]; intros [|b' l'] Hl' Hlen E; try done.
  apply Forall_cons in Hl' as [Hb' Hl']. cbn [le_value foldr] in E. fold (le_value l) (le_value l') in E.
  unfold in_width in *. assert (b = b' /\ le_value l = le_value l') as [-> E'] by lia.
  f_equal. apply IH; [done|simpl in Hlen; lia|done].
Qed.

Lemma le_value_snoc l b : le_value (l ++ [b]) = le_value l + b * 2 ^ (8 * Z.of_nat (length l)).
Proof.
  induction l as [|c l IH]; cbn [app le_value foldr length]; [lia|].
  fold (le_value (l ++ [b])) (le_value l). rewrite IH.
  replace (8 * Z.of_nat (S (length l))) with (8 + 8 * Z.of_nat (length l)) by lia.
  rewrite Z.pow_add_r by lia. lia.
Qed.

(** Values in disjoint ranges of bits add without carry. *)
Lemma disjoint_bits n a b : 0 <= n -> in_width n a ->
  Z.lor a (Z.shiftl b n) = a + b * 2 ^ n /\ Z.lxor a (Z.shiftl b n) = a + b * 2 ^ n.
Proof.
  intros Hn Ha. assert (Z.land a (Z.shiftl b n) = 0) as E.
  { zbits i. destruct (Z.lt_ge_cases i n).
    - by rewrite (Z.testbit_neg_r b) by lia; rewrite andb_false_r.
    - by rewrite (testbit_above n a i) by done. }
  rewrite <- Z.shiftl_mul_pow2 by done. rewrite Z.add_nocarry_lxor by done. split; [|done]. by rewrite Z.lxor_lor.
Qed.

Lemma byte_at_lookup data i : 0 <= i -> byte_at data i = match data !! Z.to_nat i with Some b => Ret b | None => Undef end.
Proof. intros Hi. unfold byte_at. by destruct (Z.ltb_spec i 0); [lia|]. Qed.

Lemma load_le_value n data off : bytes_ok data -> (off + n <= length data)%nat ->
  load_le n data (Z.of_nat off) = Ret (le_value (take n (drop off data))).
Proof.
  intros Hd. revert off. induction n as [|n IH]; intros off Hl; [done|]. cbn [load_le].
  rewrite byte_at_lookup, Nat2Z.id by lia.
  destruct (lookup_lt_is_Some_2 data off) as [b Hb]; [lia|]. rewrite Hb. cbn [obind].
  replace (Z.of_nat off + 1) with (Z.of_nat (S off)) by lia. rewrite IH by lia. cbn [obind].
  rewrite (drop_S data b off) by done. rewrite firstn_cons. cbn [le_value foldr]. fold (le_value (take n (drop (S off) data))).
  assert (in_width 8 b) by (by eapply Forall_lookup_1 in Hd). f_equal.
  rewrite (proj1 (disjoint_bits 8 b _ ltac:(lia) ltac:(done))). lia.
Qed.

(** The cases of a tail switch: [m] bytes from [base], most significant first. *)
Fixpoint cases (base m : nat) : list (Z * Z * Z) :=
  match m with
  | O => []
  | S m => (Z.of_nat (base + m) + 1, Z.of_nat (base + m), 8 * Z.of_nat m) :: cases base m
  end.

Lemma xor_cases_value data tail r base m k : bytes_ok data -> (tail + r <= length data)%nat -> (m <= 8)%nat ->
  xor_cases 64 data (Z.of_nat tail) (Z.of_nat r) (cases base m) k =
  Ret (Z.lxor k (le_value (take m (drop base (take r (drop tail data)))))).
Proof.
  intros Hd Hl. revert k. set (c := take r (drop tail data)).
  assert (length c = r) as Hc by (unfold c; rewrite length_take, length_drop; lia).
  induction m as [|m IH]; intros k Hm; [simpl; by rewrite Z.lxor_0_r|]. cbn [cases xor_cases].
  unfold case_from. destruct (Z.leb_spec (Z.of_nat (base + m) + 1) (Z.of_nat r)) as [Hr|Hr]; cbn [obind].
  - unfold xor_tail. rewrite byte_at_lookup by lia.
    destruct (lookup_lt_is_Some_2 c (base + m)) as [b Hb]; [lia|].
    assert (data !! Z.to_nat (Z.of_nat tail + Z.of_nat (base + m)) = Some b) as ->.
    { unfold c in Hb. rewrite lookup_take_lt in Hb by lia. rewrite lookup_drop in Hb. rewrite <- Hb. f_equal. lia. }
    cbn [obind]. rewrite IH by lia. f_equal. rewrite (take_S_r _ m b) by (by rewrite lookup_drop).
    assert (bytes_ok c) as Hcb by (by apply Forall_take, Forall_drop).
    assert (in_width 8 b) as Hbw by (by eapply Forall_lookup_1 in Hcb).
    assert (length (take m (drop base c)) = m) as Hlm by (rewrite length_take, length_drop; lia).
    pose proof (le_value_bound (take m (drop base c)) ltac:(by apply Forall_take, Forall_drop)) as Hw.
    rewrite le_value_snoc, Hlm. rewrite Hlm in Hw.
    rewrite <- (proj2 (disjoint_bits (8 * Z.of_nat m) _ b ltac:(lia) Hw)).
    rewrite wrap_small, Z.lxor_assoc, (Z.lxor_comm (Z.shiftl _ _)); [done|].
    apply in_width_mono with (8 + 8 * Z.of_nat m); [lia|]. apply shiftl_width; (lia || done).
  - rewrite IH by lia. do 3 f_equal. rewrite !take_ge; [done|rewrite length_drop; lia..].
Qed.

(** ** Mixing steps are injective *)

Lemma lxor_cancel_l h a b : Z.lxor h a = Z.lxor h b -> a = b.
Proof. intros E. by rewrite <- (Z.lxor_0_l a), <- (Z.lxor_0_l b), <- (Z.lxor_nilpotent h), !Z.lxor_assoc, E. Qed.

Lemma wrap_add_cancel w g a b : in_width w a -> in_width w b -> wrap w (a + g) = wrap w (b + g) -> a = b.
Proof.
  intros Ha Hb E. rewrite <- (wrap_small w a), <- (wrap_small w b) by done.
  replace a with (a + g - g) by lia. replace b with (b + g - g) by lia.
  by rewrite <- (wrap_sub_l w (a + g)), E, wrap_sub_l.
Qed.

(** Multiplication by a constant with an inverse. *)
Lemma mul_cancel w c c' a b : wrap w (c * c') = 1 -> in_width w a -> in_width w b ->
  wrap w (a * c) = wrap w (b * c) -> a = b.
Proof. intros Hc Ha Hb E. by rewrite <- (mul_inverse w c c' a), E, (mul_inverse w c c' b). Qed.

Lemma testbit_rotl64 x r i : in_width 64 x -> 0 <= r <= 64 -> 0 <= i < 64 ->
  Z.testbit (rotl64 x r) i = if i <? r then Z.testbit x (i + (64 - r)) else Z.testbit x (i - r).
Proof.
  intros Hx Hr Hi. unfold rotl64. repeat zbits_step.
  destruct (Z.ltb_spec i 64), (Z.leb_spec 0 i), (Z.ltb_spec i r); simpl; try lia.
  - by rewrite (Z.testbit_neg_r x (i - r)) by lia.
  - by rewrite (testbit_above 64 x (i + (64 - r))), orb_false_r by (done || lia).
Qed.

Lemma rotl64_inj r a b : 0 <= r <= 64 -> in_width 64 a -> in_width 64 b -> rotl64 a r = rotl64 b r -> a = b.
Proof.
  intros Hr Ha Hb E. apply Z.bits_inj'. intros i Hi.
  destruct (Z.lt_ge_cases i 64); [|by rewrite !(testbit_above 64) by done].
  destruct (Z.lt_ge_cases i (64 - r)).
  - pose proof (f_equal (fun x => Z.testbit x (i + r)) E) as Eb. cbv beta in Eb.
    rewrite !testbit_rotl64 in Eb by (done || lia). destruct (Z.ltb_spec (i + r) r); [lia|].
    by replace (i + r - r) with i in Eb by lia.
  - pose proof (f_equal (fun x => Z.testbit x (i - (64 - r))) E) as Eb. cbv beta in Eb.
    rewrite !testbit_rotl64 in Eb by (done || lia). destruct (Z.ltb_spec (i - (64 - r)) r); [|lia].
    by replace (i - (64 - r) + (64 - r)) with i in Eb by lia.
Qed.

Lemma c1_inverse : u64 (c1_x64 * 0xa98409e882ce4d7d) = 1.
Proof. reflexivity. Qed.
Lemma c2_inverse : u64 (c2_x64 * 0xa81e14edd9de2c7f) = 1.
Proof. reflexivity. Qed.
Lemma five_inverse : u64 (5 * 0xcccccccccccccccd) = 1.
Proof. reflexivity. Qed.

Section Mix.
Context (ca ca' cb cb' : Z) (Ha : u64 (ca * ca') = 1) (Hb : u64 (cb * cb') = 1).

(** [mix_x64] in the word it absorbs, and in the state. *)
Lemma mix_inj_key r k k' h : 0 <= r <= 64 -> in_width 64 k -> in_width 64 k' ->
  mix_x64 ca r cb k h = mix_x64 ca r cb k' h -> k = k'.
Proof.
  intros Hr Hk Hk' E%lxor_cancel_l.
  apply (mul_cancel 64 cb cb') in E; [|done|by apply rotl64_width, wrap_width..].
  apply rotl64_inj in E; [|done|by apply wrap_width..]. by apply (mul_cancel 64 ca ca') in E.
Qed.

Lemma mix_inj_state r k h h' : mix_x64 ca r cb k h = mix_x64 ca r cb k h' -> h = h'.
Proof. unfold mix_x64. rewrite !(Z.lxor_comm _ (u64 _)). apply lxor_cancel_l. Qed.
End Mix.

Lemma spin_inj r c h h' g : 0 <= r <= 64 -> in_width 64 h -> in_width 64 h' -> spin_x64 r c h g = spin_x64 r c h' g -> h = h'.
Proof.
  intros Hr Hh Hh' E. unfold spin_x64 in E. rewrite <- (wrap_add_l 64 (_ * 5)), <- (wrap_add_l 64 (_ * 5)) in E.
  apply wrap_add_cancel in E; [|by apply wrap_width..].
  apply (mul_cancel 64 5 _ _ _ five_inverse) in E; [|by apply wrap_width..].
  apply wrap_add_cancel in E; [|by apply rotl64_width..]. by apply rotl64_inj in E.
Qed.

(** ** The hash as a fold over blocks *)

(** The two words of a block of at most sixteen bytes. *)
Definition key (c : list Z) : Z * Z := (le_value (take 8 c), le_value (drop 8 c)).
Definition chunk (data : list Z) (j : nat) : list Z := take 16 (drop (16 * j) data).

Definition absorb (h : Z * Z) (c : list Z) : Z * Z :=
  let h1 := spin_x64 27 0x52dce729 (mix_x64 c1_x64 31 c2_x64 (key c).1 h.1) h.2 in
  (h1, spin_x64 31 0x38495ab5 (mix_x64 c2_x64 33 c1_x64 (key c).2 h.2) h1).

Definition absorb_tail (h : Z * Z) (c : list Z) : Z * Z :=
  (if (1 <=? length c)%nat then mix_x64 c1_x64 31 c2_x64 (key c).1 h.1 else h.1,
   if (9 <=? length c)%nat then mix_x64 c2_x64 33 c1_x64 (key c).2 h.2 else h.2).

Definition finish (len : Z) (h : Z * Z) : Z * Z :=
  let h1 := Z.lxor h.1 len in let h2 := Z.lxor h.2 len in
  let h1 := u64 (h1 + h2) in
  let h2 := u64 (h2 + h1) in
  let h1 := fmix64 h1 in let h2 := fmix64 h2 in
  let h1 := u64 (h1 + h2) in
  (h1, u64 (h2 + h1)).

Lemma chunk_length data j : (16 * S j <= length data)%nat -> length (chunk data j) = 16%nat.
Proof. intros H. unfold chunk. rewrite length_take, length_drop. lia. Qed.

Lemma chunk_bytes data j : bytes_ok data -> bytes_ok (chunk data j).
Proof. intros H. by apply Forall_take, Forall_drop. Qed.

Lemma key_width c : bytes_ok c -> (length c <= 16)%nat -> in_width 64 (key c).1 /\ in_width 64 (key c).2.
Proof.
  intros Hc Hl. pose proof (le_value_bound (take 8 c) ltac:(by apply Forall_take)) as H1.
  pose proof (le_value_bound (drop 8 c) ltac:(by apply Forall_drop)) as H2. rewrite length_take, length_drop in *.
  split; (eapply in_width_mono; [|eassumption]); lia.
Qed.

Lemma key_inj c c' : bytes_ok c -> bytes_ok c' -> length c = length c' -> key c = key c' -> c = c'.
Proof.
  intros Hc Hc' Hl [= E1 E2]. rewrite <- (take_drop 8 c), <- (take_drop 8 c').
  apply le_value_inj in E1; [|by apply Forall_take..|by rewrite !length_take, Hl].
  apply le_value_inj in E2; [|by apply Forall_drop..|by rewrite !length_drop, Hl]. congruence.
Qed.

Lemma body_absorb n i data h : bytes_ok data -> (16 * (i + n) <= length data)%nat ->
  body_x64 n (Z.of_nat i) data h = Ret (foldl absorb h (chunk data <$> seq i n)).
Proof.
  intros Hd. revert i h. induction n as [|n IH]; intros i [h1 h2] Hl; [done|]. cbn [body_x64 seq]. unfold getblock64.
  replace (0 + 8 * (Z.of_nat i * 2 + 0)) with (Z.of_nat (16 * i)) by lia.
  replace (0 + 8 * (Z.of_nat i * 2 + 1)) with (Z.of_nat (16 * i + 8)) by lia.
  rewrite !load_le_value by (done || lia). cbn [obind]. replace (Z.of_nat i + 1) with (Z.of_nat (S i)) by lia.
  rewrite IH by lia. rewrite fmap_cons. cbn [foldl]. do 2 f_equal. unfold absorb, key. simpl fst. simpl snd.
  assert (take 8 (drop (16 * i) data) = take 8 (chunk data i)) as -> by (unfold chunk; by rewrite take_take).
  assert (take 8 (drop (16 * i + 8) data) = drop 8 (chunk data i)) as ->; [|done].
  unfold chunk. by rewrite skipn_firstn_comm, drop_drop.
Qed.

Definition hash_of (seed : Z) (data : list Z) : Z * Z :=
  let n := (length data / 16)%nat in
  finish (Z.of_nat (length data)) (absorb_tail (foldl absorb (seed, seed) (chunk data <$> seq 0 n)) (chunk data n)).

Lemma case_from_pure {A} r c (f : A -> A) x : case_from r c (fun x => Ret (f x)) x = Ret (if c <=? r then f x else x).
Proof. unfold case_from. by destruct (c <=? r). Qed.

(** The source computes the fold. *)
Lemma MurmurHash3_x64_128_fold data seed : bytes_ok data ->
  MurmurHash3_x64_128 data (Z.of_nat (length data)) seed = Ret (hash_of seed data).
Proof.
  intros Hd. set (len := length data). set (n := (len / 16)%nat). set (r := (len mod 16)%nat).
  pose proof (Nat.div_mod len 16 ltac:(lia)) as Hdm. fold n r in Hdm.
  pose proof (Nat.mod_upper_bound len 16 ltac:(lia)) as Hr. fold r in Hr.
  assert (Z.of_nat len / 16 = Z.of_nat n) as En by (unfold n; by rewrite Nat2Z.inj_div).
  assert (Z.land (Z.of_nat len) 15 = Z.of_nat r) as Er.
  { change 15 with (Z.ones 4). rewrite land_low by lia. change (2 ^ 4) with (Z.of_nat 16). unfold r. by rewrite Nat2Z.inj_mod. }
  unfold MurmurHash3_x64_128. rewrite En, Er, Nat2Z.id. rewrite (body_absorb n 0) by (done || lia). cbn [obind].
  unfold hash_of. fold len n. destruct (foldl absorb _ _) as [h1 h2].
  replace (Z.of_nat n * 16) with (Z.of_nat (16 * n)) by lia.
  change tail_x64_k2 with (cases 8 7). change tail_x64_k1 with (cases 0 8).
  assert (take r (drop (16 * n) data) = chunk data n) as Ec
    by (unfold chunk; rewrite !take_ge; [done|rewrite length_drop; lia..]).
  assert (length (chunk data n) = r) as Hlc by (rewrite <- Ec, length_take, length_drop; lia).
  rewrite (xor_cases_value _ _ _ 8 7) by (done || lia). cbn [obind]. rewrite case_from_pure. cbn [obind].
  rewrite (xor_cases_value _ _ _ 0 8) by (done || lia). cbn [obind]. rewrite case_from_pure. cbn [obind].
  rewrite Ec, !Z.lxor_0_l, drop_0. rewrite (take_ge (drop 8 _) 7) by (rewrite length_drop; lia).
  unfold absorb_tail, key. rewrite Hlc. cbn [fst snd]. unfold finish.
  replace (9 <=? Z.of_nat r) with (9 <=? r)%nat by (apply Bool.eq_iff_eq_true; rewrite Z.leb_le, Nat.leb_le; lia).
  replace (1 <=? Z.of_nat r) with (1 <=? r)%nat by (apply Bool.eq_iff_eq_true; rewrite Z.leb_le, Nat.leb_le; lia).
  done.
Qed.

(** ** Injectivity of the stages *)

Lemma absorb_ok h c : pair_ok (absorb h c).
Proof. split; by apply wrap_width. Qed.

Lemma absorb_inj_key h c c' : pair_ok h -> bytes_ok c -> bytes_ok c' -> length c = 16%nat -> length c' = 16%nat ->
  absorb h c = absorb h c' -> c = c'.
Proof.
  intros [H1 H2] Hc Hc' Hl Hl' E. unfold absorb in E. apply pair_eq in E as [E1 E2]. cbv zeta in E2. rewrite E1 in E2.
  destruct (key_width c Hc ltac:(lia)), (key_width c' Hc' ltac:(lia)).
  apply spin_inj in E1, E2; try lia; try by apply mix_x64_width.
  apply (mix_inj_key _ _ _ _ c1_inverse c2_inverse) in E1; [|lia|done..].
  apply (mix_inj_key _ _ _ _ c2_inverse c1_inverse) in E2; [|lia|done..].
  apply key_inj; [done..|lia|]. by apply pair_eq.
Qed.

Lemma absorb_inj_state h h' c : pair_ok h -> pair_ok h' -> absorb h c = absorb h' c -> h = h'.
Proof.
  destruct h as [h1 h2], h' as [h1' h2']. intros [H1 H2] [H1' H2'] E. simpl in *.
  unfold absorb in E. apply pair_eq in E as [E1 E2]. cbn [fst snd] in *. cbv zeta in E2. rewrite E1 in E2.
  apply spin_inj in E2; [|lia|by apply mix_x64_width..].
  apply (mix_inj_state) in E2. subst h2'. apply spin_inj in E1; [|lia|by apply mix_x64_width..].
  apply mix_inj_state in E1. congruence.
Qed.

Lemma foldl_absorb_inj cs h h' : pair_ok h -> pair_ok h' -> foldl absorb h cs = foldl absorb h' cs -> h = h'.
Proof.
  revert h h'. induction cs as [|c cs IH]; intros h h' H H' E; [done|]. simpl in E.
  apply IH in E; [|apply absorb_ok..]. by apply absorb_inj_state in E.
Qed.

Lemma foldl_absorb_ok h cs : pair_ok h -> pair_ok (foldl absorb h cs).
Proof. revert h. induction cs as [|c cs IH]; intros h H; [done|]. apply IH, absorb_ok. Qed.

Lemma absorb_tail_ok h c : pair_ok h -> pair_ok (absorb_tail h c).
Proof. intros [H1 H2]. split; simpl; case_match; try done; by apply mix_x64_width. Qed.

Lemma absorb_tail_inj_state h h' c : absorb_tail h c = absorb_tail h' c -> h = h'.
Proof.
  destruct h as [h1 h2], h' as [h1' h2']. unfold absorb_tail. cbn [fst snd]. intros E. apply pair_eq in E as [E1 E2].
  f_equal; repeat case_match; eauto using mix_inj_state.
Qed.

Lemma absorb_tail_inj_key h c c' : bytes_ok c -> bytes_ok c' -> length c = length c' -> (length c < 16)%nat ->
  absorb_tail h c = absorb_tail h c' -> c = c'.
Proof.
  intros Hc Hc' Hl Hb E. unfold absorb_tail in E. rewrite <- Hl in E. apply pair_eq in E as [E1 E2].
  destruct (key_width c Hc ltac:(lia)), (key_width c' Hc' ltac:(lia)).
  apply key_inj; [done..|]. apply pair_eq. split.
  - destruct (Nat.leb_spec 1 (length c)); [by apply (mix_inj_key _ _ _ _ c1_inverse c2_inverse) in E1; [|lia|..]|].
    destruct c, c'; simpl in *; try done; lia.
  - destruct (Nat.leb_spec 9 (length c)); [by apply (mix_inj_key _ _ _ _ c2_inverse c1_inverse) in E2; [|lia|..]|].
    simpl. by rewrite !drop_ge by lia.
Qed.

Lemma finish_inj len h h' : in_width 64 len -> pair_ok h -> pair_ok h' -> finish len h = finish len h' -> h = h'.
Proof.
  destruct h as [h1 h2], h' as [h1' h2']. intros Hlen [H1 H2] [H1' H2'] E. simpl in *.
  unfold finish in E. apply pair_eq in E as [E1 E2]. cbn [fst snd] in *. cbv zeta in *. rewrite E1 in E2.
  apply wrap_add_cancel in E2; [|apply fmix64_width..]. rewrite E2 in E1. apply wrap_add_cancel in E1; [|apply fmix64_width..].
  apply fmix64_injective in E1, E2; try by apply wrap_width. rewrite E1 in E2.
  apply wrap_add_cancel in E2; [|by apply lxor_width..]. rewrite E2 in E1. apply wrap_add_cancel in E1; [|by apply lxor_width..].
  rewrite !(Z.lxor_comm _ len) in E1. rewrite !(Z.lxor_comm _ len) in E2. apply lxor_cancel_l in E1, E2. congruence.
Qed.

(** ** Names *)

(** Lists of one length with the same blocks are the same. *)
Lemma chunks_eq v v' : length v = length v' -> (forall j, chunk v j = chunk v' j) -> v = v'.
Proof.
  intros Hl H. apply list_eq. intros i.
  pose proof (Nat.div_mod i 16 ltac:(lia)) as Hi. pose proof (Nat.mod_upper_bound i 16 ltac:(lia)).
  pose proof (f_equal (lookup (i mod 16)%nat) (H (i / 16)%nat)) as E. unfold chunk in E.
  rewrite !lookup_take_lt, !lookup_drop in E by lia. by rewrite <- Hi in E.
Qed.

Lemma chunk_agree v v' b j : (forall i, (i / 16)%nat <> b -> v !! i = v' !! i) -> j <> b -> chunk v j = chunk v' j.
Proof.
  intros H Hj. apply list_eq. intros i. unfold chunk.
  destruct (Nat.lt_ge_cases i 16); [|by rewrite !lookup_take_ge by lia].
  rewrite !lookup_take_lt, !lookup_drop by lia. apply H.
  rewrite (Nat.mul_comm 16), Nat.add_comm, Nat.div_add, (Nat.div_small i) by lia. lia.
Qed.

Lemma hash_of_inj seed v v' b : in_width 64 seed -> bytes_ok v -> bytes_ok v' -> length v = length v' ->
  Z.of_nat (length v) < 2 ^ 64 -> (forall i, (i / 16)%nat <> b -> v !! i = v' !! i) ->
  hash_of seed v = hash_of seed v' -> v = v'.
Proof.
  intros Hs Hv Hv' Hl Hlen Hag E. unfold hash_of in E. rewrite <- Hl in E.
  set (n := (length v / 16)%nat) in *. assert (16 * n <= length v < 16 * n + 16)%nat as Hn.
  { pose proof (Nat.div_mod (length v) 16 ltac:(lia)). pose proof (Nat.mod_upper_bound (length v) 16 ltac:(lia)). lia. }
  assert (forall cs, pair_ok (foldl absorb (seed, seed) cs)) as Hok by (intros; by apply foldl_absorb_ok).
  apply finish_inj in E; [|split; lia|by apply absorb_tail_ok..].
  pose proof (chunk_agree v v' b) as Hc. apply chunks_eq; [done|]. intros j.
  destruct (decide (j = b)) as [->|Hj]; [|by apply Hc].
  destruct (Nat.lt_trichotomy b n) as [Hb|[->|Hb]].
  - rewrite (Hc n) in E by (done || lia). apply absorb_tail_inj_state in E.
    assert (seq 0 n = seq 0 b ++ b :: seq (S b) (n - S b)) as Eseq.
    { replace n with (b + S (n - S b))%nat at 1 by lia. by rewrite seq_app. }
    rewrite Eseq, !fmap_app, !fmap_cons, !foldl_app in E. cbn [foldl] in E.
    assert (forall i m, (b < i \/ i + m <= b)%nat -> chunk v <$> seq i m = chunk v' <$> seq i m) as Hseq.
    { intros i m Him. apply list_fmap_ext. intros k x [-> ?]%lookup_seq. apply Hc; [done|lia]. }
    rewrite (Hseq (S b)), (Hseq 0%nat) in E by lia. apply foldl_absorb_inj in E; [|apply absorb_ok..].
    apply absorb_inj_key in E; [done|apply Hok|by apply chunk_bytes|by apply chunk_bytes|apply chunk_length; lia..].
  - assert (chunk v <$> seq 0 n = chunk v' <$> seq 0 n) as Eseq.
    { apply list_fmap_ext. intros k x [-> ?]%lookup_seq. apply Hc; [done|lia]. }
    rewrite Eseq in E. apply absorb_tail_inj_key in E; [done|by apply chunk_bytes|by apply chunk_bytes| |];
      unfold chunk; rewrite !length_take, !length_drop; lia.
  - unfold chunk. by rewrite !drop_ge by lia.
Qed.

Lemma murmur_hash3_string_fold value : bytes_ok value -> Z.of_nat (length value) < 2 ^ 31 ->
  let h := hash_of (u32 SEED) value in murmur_hash3_string value = Ret (Uint128.U128 h.1 h.2).
Proof.
  intros Hv Hl. unfold murmur_hash3_string, murmur_hash3. unfold swrap. rewrite Z.mod_small by lia.
  replace (Z.of_nat (length value) + 2 ^ (32 - 1) - 2 ^ (32 - 1)) with (Z.of_nat (length value)) by lia.
  by rewrite MurmurHash3_x64_128_fold.
Qed.

(** ** Properties *)

(** Equal keys come from equal names. *)
Lemma murmur_hash3_injective v v' b :
  bytes_ok v -> bytes_ok v' -> length v = length v' -> Z.of_nat (length v) < 2 ^ 31 ->
  (forall i, (i / 16)%nat <> b -> v !! i = v' !! i) ->
  murmur_hash3_string v = murmur_hash3_string v' -> v = v'.
Proof.
  intros Hv Hv' Hl Hlen Hag E. rewrite !murmur_hash3_string_fold in E by (done || lia). cbv zeta in E.
  destruct (hash_of (u32 SEED) v) as [h1 h2] eqn:E1, (hash_of (u32 SEED) v') as [h1' h2'] eqn:E2.
  eapply (hash_of_inj (u32 SEED)); [|done|done|done|lia|exact Hag|rewrite E1, E2; cbn in E; congruence].
  apply in_width_mono with 32; [lia|]. by apply wrap_width.
Qed.

(** The names differ at most in their block [b] of sixteen bytes. *)
Definition agree_outside (b : nat) (v v' : list Z) : Prop := forall i, (i / 16)%nat <> b -> v !! i = v' !! i.

(** C20. Names that differ have queues of their own: hashing reads only the bytes of a
    name and returns a well-formed key, and two different names of the same length
    that agree outside one block of sixteen bytes (the partial block at the end
    included, so all names of one length of at most sixteen bytes) have different keys;
    what a manager does to the queue of one leaves the queue of the other as it was. *)
Theorem queue_names_isolated v v' b :
  bytes_ok v -> bytes_ok v' -> length v = length v' -> Z.of_nat (length v) < 2 ^ 31 ->
  agree_outside b v v' -> v <> v' ->
  exists h h', murmur_hash3_string v = Ret h /\ murmur_hash3_string v' = Ret h' /\
    Uint128.wf h /\ Uint128.wf h' /\ h <> h' /\
    forall RF m o m', QueueManager.mop_queue o = h -> QueueManager.mexec RF o m = Ret m' ->
      QueueManager._queues m' !! h' = QueueManager._queues m !! h'.
Proof.
  intros Hv Hv' Hl Hlen Hag Hne.
  destruct (murmur_hash3_string_ok v Hv Hlen) as (h & Eh & Wh).
  destruct (murmur_hash3_string_ok v' Hv' ltac:(by rewrite <- Hl)) as (h' & Eh' & Wh').
  assert (h <> h') as Hh.
  { intros <-. apply Hne. eapply murmur_hash3_injective; [done..|exact Hag|]. by rewrite Eh, Eh'. }
  exists h, h'. split_and!; try done. intros RF m o m' Ho E. apply (QueueManager.mexec_other RF o m m'); [by rewrite Ho|done].
Qed.

Lemma queue_names_isolated_witness : exists h h',
  murmur_hash3_string [113; 117; 101; 117; 101; 49] = Ret h /\
  murmur_hash3_string [113; 117; 101; 117; 101; 50] = Ret h' /\ h <> h'.
Proof.
  destruct (queue_names_isolated [113; 117; 101; 117; 101; 49] [113; 117; 101; 117; 101; 50] 0%nat)
    as (h & h' & E & E' & _ & _ & Hne & _).
  - apply (bool_decide_unpack _). vm_compute. exact I.
  - apply (bool_decide_unpack _). vm_compute. exact I.
  - reflexivity.
  - simpl. lia.
  - intros i Hi. assert (16 <= i)%nat.
    { apply Nat.nlt_ge. intros Hlt. apply Hi. by apply Nat.div_small. }
    rewrite !lookup_ge_None_2; [reflexivity|simpl; lia..].
  - discriminate.
  - exists h, h'. split_and!; [exact E|exact E'|exact Hne].
Defined.

End Collisions.
