(* ===== verification/Float32.v ===== *)
(** * Accuracy of the binary32 operations

    The failure detector computes with [float]. This file bounds what the
    conversion from an integer, the division, the multiplication and the comparison
    of the specification floats ([SpecFloat], precision 24, maximal exponent 128) do
    to positive normal numbers. One rounding lemma, [round_aux_faithful], says that
    the result is one of the two neighbours of the exact value; each operation's
    accuracy lemma follows from it. Accuracy is multiplicative: [close r x y] says
    that neither number is more than [r] times the other, which composes under
    products, quotients and chains by multiplying the factors. *)

From Stdlib Require Import ZArith Lia Lqa QArith Qpower SpecFloat.
From stdpp Require Import base list.
From S2P Require Import Prelude.

Local Open Scope Z_scope.

Module Float32.

(** ** Rounding *)

Lemma digits2_bounds m :
  2 ^ (Z.pos (digits2_pos m) - 1) <= Z.pos m < 2 ^ Z.pos (digits2_pos m).
Proof.
  induction m as [m IH|m IH|]; cbn [digits2_pos]; [| |done];
    rewrite Pos2Z.inj_succ; replace (Z.succ (Z.pos (digits2_pos m)) - 1)
      with (Z.succ (Z.pos (digits2_pos m) - 1)) by lia;
    rewrite !Z.pow_succ_r by lia; lia.
Qed.

Lemma digits2_unique d m :
  0 < d -> 2 ^ (d - 1) <= m < 2 ^ d -> Zdigits2 m = d.
Proof.
  intros Hd Hm. assert (0 < 2 ^ (d - 1)) by (apply Z.pow_pos_nonneg; lia).
  destruct m as [|m|m]; [lia| |lia]. simpl. pose proof (digits2_bounds m) as Hb.
  destruct (Z.lt_trichotomy (Z.pos (digits2_pos m)) d) as [Hlt|[?|Hlt]]; [|done|].
  - assert (2 ^ Z.pos (digits2_pos m) <= 2 ^ (d - 1)) by (apply Z.pow_le_mono_r; lia). lia.
  - assert (2 ^ d <= 2 ^ (Z.pos (digits2_pos m) - 1)) by (apply Z.pow_le_mono_r; lia). lia.
Qed.

Lemma shr_1_div mrs : 0 <= shr_m mrs -> shr_m (shr_1 mrs) = shr_m mrs / 2.
Proof.
  destruct mrs as [m r s]; simpl. destruct m as [|[p|p|]|p]; simpl; intros H; try done.
  - apply (Z.div_unique _ _ _ 1); lia.
  - apply (Z.div_unique _ _ _ 0); lia.
Qed.

Lemma shr_1_iter p mrs :
  0 <= shr_m mrs -> shr_m (SpecFloat.iter_pos shr_1 p mrs) = shr_m mrs / 2 ^ Z.pos p.
Proof.
  revert mrs. induction p as [p IH|p IH|]; intros mrs H; cbn [SpecFloat.iter_pos].
  - assert (0 <= shr_m (shr_1 mrs)) by (rewrite shr_1_div by done; apply Z.div_pos; lia).
    rewrite IH by (rewrite IH by done; apply Z.div_pos; lia). rewrite IH by done.
    rewrite shr_1_div, !Z.div_div by lia. f_equal.
    replace (Z.pos p~1) with (1 + Z.pos p + Z.pos p) by lia. rewrite !Z.pow_add_r by lia. lia.
  - rewrite IH by (rewrite IH by done; apply Z.div_pos; lia). rewrite IH by done.
    rewrite Z.div_div by lia. f_equal. rewrite <- Z.pow_add_r by lia. f_equal. lia.
  - by rewrite shr_1_div.
Qed.

(** A shift to the exponent of a 24-bit mantissa, in the range of normal numbers. *)
Lemma shr_fexp_normal m e l :
  24 <= Zdigits2 m -> 0 < m -> -149 <= Zdigits2 m + e - 24 ->
  let k := Zdigits2 m - 24 in
  shr_m (fst (shr_fexp 24 128 m e l)) = m / 2 ^ k /\ snd (shr_fexp 24 128 m e l) = e + k.
Proof.
  intros Hd Hm He k. unfold shr_fexp, fexp, emin.
  replace (Z.max (Zdigits2 m + e - 24) (3 - 128 - 24) - e) with k by (unfold k; lia).
  assert (shr_m (shr_record_of_loc m l) = m) as Hr by (by destruct l as [|[]]).
  destruct k as [|p|p] eqn:Hk; [|cbn [shr fst snd]|lia].
  - cbn [shr fst snd]. rewrite Hr, Z.pow_0_r, Z.div_1_r, Z.add_0_r. done.
  - rewrite shr_1_iter, Hr by lia. done.
Qed.

Lemma round_nearest_even_near m l : round_nearest_even m l = m \/ round_nearest_even m l = m + 1.
Proof. destruct l as [|[]]; simpl; auto. destruct (Z.even m); auto. Qed.

(** The shift of a positive mantissa leaves its 24 leading digits. *)
Lemma leading_digits m d :
  24 <= d -> 2 ^ (d - 1) <= m < 2 ^ d ->
  let q := m / 2 ^ (d - 24) in
  2 ^ 23 <= q < 2 ^ 24 /\ q * 2 ^ (d - 24) <= m /\ m + 1 <= (q + 1) * 2 ^ (d - 24).
Proof.
  intros Hd Hm q. assert (0 < 2 ^ (d - 24)) as Hp by (apply Z.pow_pos_nonneg; lia).
  replace (d - 1) with (23 + (d - 24)) in Hm by lia.
  replace (2 ^ d) with (2 ^ (24 + (d - 24))) in Hm by (f_equal; lia).
  rewrite !Z.pow_add_r in Hm by lia.
  pose proof (Z.div_mod m (2 ^ (d - 24)) ltac:(lia)) as Hdm.
  pose proof (Z.mod_pos_bound m (2 ^ (d - 24)) Hp). fold q in Hdm.
  set (P := 2 ^ (d - 24)) in *. split_and!; nia.
Qed.

(** The rounding of a positive mantissa with at least 24 digits, in the range of
    normal numbers, is one of the two neighbours of every value between [mx] and
    [mx + 1] units of the exponent [ex]. *)
Lemma round_aux_faithful s mx ex lx :
  0 < mx -> 24 <= Zdigits2 mx -> -149 <= Zdigits2 mx + ex - 24 <= 103 ->
  exists m e, binary_round_aux 24 128 s mx ex lx = S754_finite s m e /\
    2 ^ 23 <= Z.pos m < 2 ^ 24 /\ ex <= e <= ex + Zdigits2 mx - 23 /\
    (Z.pos m - 1) * 2 ^ (e - ex) <= mx /\ mx + 1 <= (Z.pos m + 1) * 2 ^ (e - ex).
Proof.
  intros Hpos Hd He. unfold binary_round_aux.
  pose proof (shr_fexp_normal mx ex lx Hd Hpos ltac:(lia)) as [Hm1 He1].
  destruct (shr_fexp 24 128 mx ex lx) as [mrs e1]. cbn [fst snd] in *.
  assert (2 ^ (Zdigits2 mx - 1) <= mx < 2 ^ Zdigits2 mx) as Hb
    by (destruct mx as [|mx|mx]; [lia|apply digits2_bounds|lia]).
  pose proof (leading_digits mx _ Hd Hb) as (Hq & Hlo & Hhi). rewrite <- Hm1 in Hq, Hlo, Hhi.
  set (k := Zdigits2 mx - 24) in *. set (q := shr_m mrs) in *.
  set (m1 := round_nearest_even q (loc_of_shr_record mrs)).
  assert (m1 = q \/ m1 = q + 1) as Hm by apply round_nearest_even_near. clearbody m1.
  assert (0 < 2 ^ k) as Hk by (apply Z.pow_pos_nonneg; lia).
  destruct (decide (m1 = 2 ^ 24)) as [Hc|Hc].
  - assert (Zdigits2 m1 = 25) as Hd1 by (apply digits2_unique; lia).
    pose proof (shr_fexp_normal m1 e1 loc_Exact ltac:(lia) ltac:(lia) ltac:(lia)) as [Hm2 He2].
    destruct (shr_fexp 24 128 m1 e1 loc_Exact) as [mrs2 e2]. cbn [fst snd] in *.
    rewrite Hm2, Hd1, Hc. change (2 ^ 24 / 2 ^ (25 - 24)) with (Z.pos 8388608). cbv iota beta.
    rewrite (proj2 (Z.leb_le _ _)) by lia. exists 8388608%positive, e2.
    replace (e2 - ex) with (k + 1) by lia. rewrite Z.pow_add_r by lia. split_and!; [done|..]; nia.
  - assert (Zdigits2 m1 = 24) as Hd1 by (apply digits2_unique; lia).
    pose proof (shr_fexp_normal m1 e1 loc_Exact ltac:(lia) ltac:(lia) ltac:(lia)) as [Hm2 He2].
    destruct (shr_fexp 24 128 m1 e1 loc_Exact) as [mrs2 e2]. cbn [fst snd] in *.
    rewrite Hm2, Hd1. change (2 ^ (24 - 24)) with 1. rewrite Z.div_1_r.
    destruct m1 as [|m1|m1]; [lia| |lia]. rewrite (proj2 (Z.leb_le _ _)) by lia.
    exists m1, e2. replace (e2 - ex) with k by lia. split_and!; [done|..]; nia.
Qed.

(** ** Closeness of rationals *)

Local Open Scope Q_scope.

Definition close (r x y : Q) : Prop := x <= r * y /\ y <= r * x.

Lemma scale_le r x y : 0 <= r -> x <= y -> r * x <= r * y.
Proof. intros Hr H. rewrite !(Qmult_comm r). by apply Qmult_le_compat_r. Qed.

Lemma close_trans r s x y z : 0 <= r -> 0 <= s -> close r x y -> close s y z -> close (r * s) x z.
Proof.
  intros Hr Hs [H1 H2] [H3 H4]. split.
  - apply Qle_trans with (r * y); [done|]. rewrite <- Qmult_assoc. by apply scale_le.
  - apply Qle_trans with (s * y); [done|]. rewrite (Qmult_comm r), <- Qmult_assoc. by apply scale_le.
Qed.

Lemma close_mult r s x y z t :
  0 <= r -> 0 <= s -> 0 <= x -> 0 <= y -> 0 <= z -> 0 <= t ->
  close r x y -> close s z t -> close (r * s) (x * z) (y * t).
Proof.
  intros Hr Hs Hx Hy Hz Ht [H1 H2] [H3 H4]. split.
  - setoid_replace (r * s * (y * t)) with ((r * y) * (s * t)) using relation Qeq by (unfold Qdiv; ring). by apply Qmult_le_compat_nonneg.
  - setoid_replace (r * s * (x * z)) with ((r * x) * (s * z)) using relation Qeq by (unfold Qdiv; ring). by apply Qmult_le_compat_nonneg.
Qed.

Lemma close_inv r x y : 0 < x -> 0 < y -> close r x y -> close r (/ x) (/ y).
Proof.
  intros Hx Hy [H1 H2]. split.
  - apply Qle_shift_inv_r; [done|]. setoid_replace (r * / y * x) with (r * x / y) using relation Qeq by (unfold Qdiv; ring).
    apply Qle_shift_div_l; [done|]. by rewrite Qmult_1_l.
  - apply Qle_shift_inv_r; [done|]. setoid_replace (r * / x * y) with (r * y / x) using relation Qeq by (unfold Qdiv; ring).
    apply Qle_shift_div_l; [done|]. by rewrite Qmult_1_l.
Qed.

#[global] Instance close_proper : Proper (Qeq ==> Qeq ==> Qeq ==> iff) close.
Proof. intros r r' Hr x x' Hx y y' Hy. unfold close. by rewrite Hr, Hx, Hy. Qed.

(** The value of a mantissa at an exponent, and the error factor of one rounding. *)
Definition val (m e : Z) : Q := inject_Z m * (2 # 1) ^ e.
Definition ulp_factor : Q := 4194305 # 4194304.

Lemma pow2_pos e : 0 < (2 # 1) ^ e.
Proof. by apply Qpower_0_lt. Qed.

Lemma pow2_add a b : (2 # 1) ^ (a + b) == (2 # 1) ^ a * (2 # 1) ^ b.
Proof. by apply Qpower_plus. Qed.

Lemma pow2_Z k : (0 <= k)%Z -> (2 # 1) ^ k == inject_Z (2 ^ k).
Proof. intros Hk. symmetry. by apply Zpower_Qpower. Qed.

Lemma val_pos m e : (0 < m)%Z -> 0 < val m e.
Proof.
  intros Hm. unfold val. apply Qmult_lt_0_compat; [|apply pow2_pos].
  change 0 with (inject_Z 0). by rewrite <- Zlt_Qlt.
Qed.

(** A faithful rounding is close to the value it rounds. *)
Lemma faithful_close m mx ex e x :
  (2 ^ 23 <= m)%Z -> (ex <= e)%Z -> ((m - 1) * 2 ^ (e - ex) <= mx)%Z -> (mx + 1 <= (m + 1) * 2 ^ (e - ex))%Z ->
  inject_Z mx <= x -> x <= inject_Z (mx + 1) ->
  close ulp_factor (x * (2 # 1) ^ ex) (val m e).
Proof.
  intros Hm He Hlo Hhi Hx1 Hx2. unfold val.
  replace e with (ex + (e - ex))%Z at 1 by lia. rewrite pow2_add, (pow2_Z (e - ex)) by lia.
  assert (0 < 2 ^ (e - ex))%Z as HP by (apply Z.pow_pos_nonneg; lia).
  set (P := (2 ^ (e - ex))%Z) in *. clearbody P. pose proof (pow2_pos ex) as HB.
  set (B := (2 # 1) ^ ex) in *. clearbody B.
  rewrite Zle_Qle in Hlo, Hhi, Hm. rewrite inject_Z_mult in Hlo, Hhi.
  rewrite Zlt_Qlt in HP. unfold Z.sub in Hlo. rewrite inject_Z_plus in Hlo, Hhi, Hx2.
  rewrite inject_Z_plus in Hhi.
  change (inject_Z (-(1))) with (- (1)) in Hlo. change (inject_Z 1) with 1 in *. change (inject_Z 0) with 0 in *.
  change (inject_Z (2 ^ 23)) with (8388608 # 1) in Hm.
  set (M := inject_Z m) in *. set (Q0 := inject_Z P) in *. set (X := inject_Z mx) in *. clearbody M Q0 X.
  assert ((8388608 # 1) * Q0 <= M * Q0) by (apply Qmult_le_compat_r; [done|by apply Qlt_le_weak]).
  assert (x <= ulp_factor * (M * Q0)) as H1 by (unfold ulp_factor; lra).
  assert (M * Q0 <= ulp_factor * x) as H2 by (unfold ulp_factor; lra).
  split.
  - setoid_replace (ulp_factor * (M * (B * Q0))) with (ulp_factor * (M * Q0) * B) using relation Qeq by (unfold Qdiv; ring).
    apply Qmult_le_compat_r; [done|by apply Qlt_le_weak].
  - setoid_replace (M * (B * Q0)) with (M * Q0 * B) using relation Qeq by (unfold Qdiv; ring). rewrite Qmult_assoc.
    apply Qmult_le_compat_r; [done|by apply Qlt_le_weak].
Qed.

(** ** The operations *)

(** [near r lo hi x f]: the float [f] is a positive normal number, with its
    exponent between [lo] and [hi], within the factor [r] of [x]. *)
Definition near (r : Q) (lo hi : Z) (x : Q) (f : spec_float) : Prop :=
  exists m e, f = S754_finite false m e /\ (2 ^ 23 <= Z.pos m < 2 ^ 24)%Z /\ (lo <= e <= hi)%Z /\
    close r x (val (Z.pos m) e).

Lemma round_near mx ex lx x :
  (0 < mx)%Z -> (24 <= Zdigits2 mx)%Z -> (-149 <= Zdigits2 mx + ex - 24 <= 103)%Z ->
  inject_Z mx <= x -> x <= inject_Z (mx + 1) ->
  near ulp_factor ex (ex + Zdigits2 mx - 23) (x * (2 # 1) ^ ex) (binary_round_aux 24 128 false mx ex lx).
Proof.
  intros Hpos Hd He Hx1 Hx2.
  destruct (round_aux_faithful false mx ex lx Hpos Hd He) as (m & e & -> & Hm & Hr & Hlo & Hhi).
  exists m, e. split_and!; try done; try lia. by apply (faithful_close _ mx); [lia|lia|..].
Qed.

Lemma iter_xO m d : Z.pos (Pos.iter xO m d) = (Z.pos m * 2 ^ Z.pos d)%Z.
Proof.
  revert m. induction d as [|d IH] using Pos.peano_ind; intros m; [simpl; lia|].
  rewrite Pos.iter_succ, Pos2Z.inj_xO, IH, Pos2Z.inj_succ, Z.pow_succ_r by lia. lia.
Qed.

(** The conversion of an integer. *)
Lemma of_int_near z b :
  (0 < z < 2 ^ b)%Z -> (24 <= b <= 127)%Z ->
  near ulp_factor (-23) (b - 23) (inject_Z z) (binary_normalize 24 128 z 0 false).
Proof.
  intros Hz Hb. destruct z as [|z|z]; [lia| |lia]. cbn [binary_normalize]. unfold binary_round.
  pose proof (digits2_bounds z) as Hd.
  assert (Z.pos (digits2_pos z) <= b)%Z as Hdb.
  { apply Z.lt_succ_r, Z.nle_gt. intros Hle.
    assert (2 ^ b <= 2 ^ (Z.pos (digits2_pos z) - 1))%Z by (apply Z.pow_le_mono_r; lia). lia. }
  set (d := Z.pos (digits2_pos z)) in *.
  assert (exists mz ez, shl_align z 0 (fexp 24 128 (d + 0)) = (mz, ez) /\ (24 <= Zdigits2 (Z.pos mz))%Z /\
    (Zdigits2 (Z.pos mz) + ez = d)%Z /\ (-23 <= ez <= 0)%Z /\ inject_Z (Z.pos z) == inject_Z (Z.pos mz) * (2 # 1) ^ ez)
    as (mz & ez & -> & Hdz & Hsum & Hez & Hv).
  { unfold shl_align, fexp, emin. replace (Z.max (d + 0 - 24) (3 - 128 - 24) - 0)%Z with (d - 24)%Z by lia.
    destruct (d - 24)%Z as [|p|p] eqn:Hp.
    1,2: exists z, 0%Z; simpl Zdigits2; fold d; split_and!; [done|lia..|]; by rewrite Qmult_1_r.
    exists (Pos.iter xO z p), (Z.max (d + 0 - 24) (3 - 128 - 24))%Z.
    replace (Z.max (d + 0 - 24) (3 - 128 - 24))%Z with (d - 24)%Z by lia.
    assert (Zdigits2 (Z.pos (Pos.iter xO z p)) = 24%Z) as ->.
    { rewrite iter_xO. apply digits2_unique; [done|]. replace (Z.pos p) with (24 - d)%Z by lia.
      assert (0 < 2 ^ (24 - d))%Z by (apply Z.pow_pos_nonneg; lia).
      replace (24 - 1)%Z with (d - 1 + (24 - d))%Z by lia. replace (2 ^ 24)%Z with (2 ^ (d + (24 - d)))%Z by (f_equal; lia).
      rewrite !Z.pow_add_r by lia. nia. }
    split_and!; [done|lia..|]. rewrite iter_xO, inject_Z_mult, <- pow2_Z, <- Qmult_assoc, <- pow2_add by done.
    replace (Z.pos p + (d - 24))%Z with 0%Z by lia. by rewrite Qmult_1_r. }
  destruct (round_near (Z.pos mz) ez loc_Exact (inject_Z (Z.pos mz)) ltac:(done) Hdz ltac:(lia)
    (Qle_refl _) ltac:(rewrite <- Zle_Qle; lia)) as (m & e & Hf & Hm & He & Hc).
  exists m, e. rewrite Hv. split_and!; try done; lia.
Qed.

Lemma digits2_normal m : (2 ^ 23 <= Z.pos m < 2 ^ 24)%Z -> Zdigits2 (Z.pos m) = 24%Z.
Proof. intros H. by apply digits2_unique. Qed.

Lemma digits2_within d k m : (0 < d)%Z -> (0 <= k)%Z -> (2 ^ (d - 1) <= m < 2 ^ (d + k))%Z -> (d <= Zdigits2 m <= d + k)%Z.
Proof.
  intros Hd Hk Hm. assert (0 < 2 ^ (d - 1))%Z by (apply Z.pow_pos_nonneg; lia).
  destruct m as [|m|m]; [lia| |lia]. pose proof (digits2_bounds m). simpl Zdigits2. split.
  - apply Z.lt_succ_r, Z.nle_gt. intros Hle.
    assert (2 ^ Z.pos (digits2_pos m) <= 2 ^ (d - 1))%Z by (apply Z.pow_le_mono_r; lia). lia.
  - apply Z.lt_succ_r, Z.nle_gt. intros Hle.
    assert (2 ^ (d + k) <= 2 ^ (Z.pos (digits2_pos m) - 1))%Z by (apply Z.pow_le_mono_r; lia). lia.
Qed.

(** Multiplication. *)
Lemma mul_near r s l1 h1 l2 h2 x y f g :
  near r l1 h1 x f -> near s l2 h2 y g ->
  0 <= r -> 0 <= s -> 0 <= x -> 0 <= y -> (-100 <= l1 + l2)%Z -> (h1 + h2 <= 79)%Z ->
  near (r * s * ulp_factor) (l1 + l2) (h1 + h2 + 25) (x * y) (SFmul 24 128 f g).
Proof.
  intros (m1 & e1 & -> & Hm1 & He1 & Hc1) (m2 & e2 & -> & Hm2 & He2 & Hc2) Hr Hs Hx Hy Hl Hh.
  cbn [SFmul xorb].
  pose proof (digits2_within 47 1 (Z.pos (m1 * m2)) ltac:(lia) ltac:(lia) ltac:(nia)) as Hd.
  destruct (round_near (Z.pos (m1 * m2)) (e1 + e2) loc_Exact (inject_Z (Z.pos (m1 * m2))) ltac:(lia) ltac:(lia)
    ltac:(lia) (Qle_refl _) ltac:(rewrite <- Zle_Qle; lia)) as (m & e & Hf & Hm & He & Hc).
  exists m, e. split_and!; [done|lia..|].
  refine (close_trans _ _ _ (val (Z.pos m1) e1 * val (Z.pos m2) e2) _ _ _ _ _); [nra|done| |].
  - apply close_mult; try done; by apply Qlt_le_weak, val_pos.
  - unfold val. rewrite Pos2Z.inj_mul, inject_Z_mult, pow2_add in Hc.
    by setoid_replace (inject_Z (Z.pos m1) * (2 # 1) ^ e1 * (inject_Z (Z.pos m2) * (2 # 1) ^ e2))
      with (inject_Z (Z.pos m1) * inject_Z (Z.pos m2) * ((2 # 1) ^ e1 * (2 # 1) ^ e2)) using relation Qeq by ring.
Qed.

(** The quotient of two 24-bit mantissas that the division rounds. *)
Lemma div_core_normal m1 e1 m2 e2 :
  (2 ^ 23 <= Z.pos m1 < 2 ^ 24)%Z -> (2 ^ 23 <= Z.pos m2 < 2 ^ 24)%Z -> (-125 <= e1 - e2)%Z ->
  exists l, SFdiv_core_binary 24 128 (Z.pos m1) e1 (Z.pos m2) e2 =
    ((Z.pos m1 * 2 ^ 24) / Z.pos m2, e1 - e2 - 24, l)%Z.
Proof.
  intros H1 H2 He. unfold SFdiv_core_binary. rewrite !digits2_normal by done.
  replace (Z.min (fexp 24 128 (24 + e1 - (24 + e2))) (e1 - e2)) with (e1 - e2 - 24)%Z
    by (unfold fexp, emin; lia).
  replace (e1 - e2 - (e1 - e2 - 24))%Z with 24%Z by lia. cbv iota.
  rewrite Z.shiftl_mul_pow2 by lia. unfold Z.div.
  destruct (Z.div_eucl (Z.pos m1 * 2 ^ 24) (Z.pos m2)) as [q r]. eauto.
Qed.

(** Division. *)
Lemma div_near r s l1 h1 l2 h2 x y f g :
  near r l1 h1 x f -> near s l2 h2 y g ->
  0 <= r -> 0 <= s -> 0 <= x -> 0 < y -> (-100 <= l1 - h2)%Z -> (h1 - l2 <= 102)%Z ->
  near (r * s * ulp_factor) (l1 - h2 - 24) (h1 - l2 - 22) (x / y) (SFdiv 24 128 f g).
Proof.
  intros (m1 & e1 & -> & Hm1 & He1 & Hc1) (m2 & e2 & -> & Hm2 & He2 & Hc2) Hr Hs Hx Hy Hl Hh.
  cbn [SFdiv xorb]. destruct (div_core_normal m1 e1 m2 e2 Hm1 Hm2 ltac:(lia)) as [l ->].
  set (n := (Z.pos m1 * 2 ^ 24)%Z). pose proof (Z.div_mod n (Z.pos m2) ltac:(lia)) as Hdm.
  pose proof (Z.mod_pos_bound n (Z.pos m2) ltac:(lia)) as Hmod. set (q := (n / Z.pos m2)%Z) in *.
  assert (2 ^ 23 <= q < 2 ^ 25)%Z as Hq by (unfold n in *; nia).
  pose proof (digits2_within 24 1 q ltac:(lia) ltac:(lia) ltac:(lia)) as Hd.
  assert (0 < inject_Z (Z.pos m2)) as Hm2' by (change 0 with (inject_Z 0); rewrite <- Zlt_Qlt; lia).
  destruct (round_near q (e1 - e2 - 24) l (inject_Z n / inject_Z (Z.pos m2))) as (m & e & Hf & Hm & He & Hc);
    [lia|lia|lia| | |].
  { apply Qle_shift_div_l; [done|]. rewrite <- inject_Z_mult, <- Zle_Qle. lia. }
  { apply Qle_shift_div_r; [done|]. rewrite <- inject_Z_mult, <- Zle_Qle. lia. }
  exists m, e. split_and!; [done|lia..|].
  refine (close_trans _ _ _ (val (Z.pos m1) e1 / val (Z.pos m2) e2) _ _ _ _ _); [nra|done| |].
  - unfold Qdiv. apply close_mult; try done.
    + by apply Qlt_le_weak, val_pos.
    + by apply Qlt_le_weak, Qinv_lt_0_compat.
    + by apply Qlt_le_weak, Qinv_lt_0_compat, val_pos.
    + apply close_inv; [done|by apply val_pos|done].
  - assert (inject_Z n / inject_Z (Z.pos m2) * (2 # 1) ^ (e1 - e2 - 24) ==
      val (Z.pos m1) e1 / val (Z.pos m2) e2) as <-; [|done].
    unfold val, n. rewrite inject_Z_mult, <- (pow2_Z 24) by done.
    replace (e1 - e2 - 24)%Z with (e1 + - e2 + - (24))%Z by lia. rewrite !pow2_add, !Qpower_opp.
    pose proof (pow2_pos e1). pose proof (pow2_pos e2). pose proof (pow2_pos 24). field. split_and!; lra.
Qed.

(** Normal numbers compare as their values. *)
Lemma leb_val m1 e1 m2 e2 :
  (2 ^ 23 <= Z.pos m1 < 2 ^ 24)%Z -> (2 ^ 23 <= Z.pos m2 < 2 ^ 24)%Z ->
  SFleb (S754_finite false m1 e1) (S754_finite false m2 e2) = true <->
  val (Z.pos m1) e1 <= val (Z.pos m2) e2.
Proof.
  intros H1 H2.
  assert (forall m m' e e', (2 ^ 23 <= m)%Z -> (m' < 2 ^ 24)%Z -> (e' < e)%Z -> val m' e' < val m e) as Hlt.
  { intros m m' e e' Hm Hm' He. unfold val. replace e with (e' + (e - e'))%Z by lia.
    rewrite pow2_add, (pow2_Z (e - e')) by lia. pose proof (pow2_pos e') as Hp.
    setoid_replace (inject_Z m * ((2 # 1) ^ e' * inject_Z (2 ^ (e - e'))))
      with (inject_Z (m * 2 ^ (e - e')) * (2 # 1) ^ e') using relation Qeq by (rewrite inject_Z_mult; ring).
    apply Qmult_lt_compat_r; [done|]. rewrite <- Zlt_Qlt.
    assert (2 ^ 1 <= 2 ^ (e - e'))%Z by (apply Z.pow_le_mono_r; lia). nia. }
  unfold SFleb. cbn [SFcompare]. destruct (Z.compare_spec e1 e2) as [->|He|He].
  - unfold val. rewrite Qmult_le_r by apply pow2_pos. rewrite <- Zle_Qle.
    change (Pos.compare_cont Eq m1 m2) with (m1 ?= m2)%positive.
    destruct (Pos.compare_spec m1 m2); split; intros; try done; lia.
  - split; [|done]. intros _. apply Qlt_le_weak, Hlt; lia.
  - split; [done|]. intros Hle. exfalso. eapply Qlt_not_le, Hle. apply Hlt; lia.
Qed.

(** Floats further apart than their error factors compare as the numbers they
    stand for. *)
Lemma near_leb r s l1 h1 l2 h2 x y f g :
  near r l1 h1 x f -> near s l2 h2 y g -> 0 < r -> 0 < s ->
  (r * s * x <= y -> SFleb f g = true) /\ (r * s * y < x -> SFleb f g = false).
Proof.
  intros (m1 & e1 & -> & Hm1 & _ & Hc1a & Hc1b) (m2 & e2 & -> & Hm2 & _ & Hc2a & Hc2b) Hr Hs. split; intros H.
  - apply leb_val; [done..|]. apply Qle_trans with (r * x); [done|].
    apply Qmult_le_l with s; [done|]. apply Qle_trans with y; [|done].
    by setoid_replace (s * (r * x)) with (r * s * x) using relation Qeq by ring.
  - apply not_true_iff_false. rewrite leb_val by done. intros Hle. eapply Qlt_not_le; [exact H|].
    apply Qle_trans with (r * val (Z.pos m1) e1); [done|]. rewrite <- Qmult_assoc.
    apply scale_le; [by apply Qlt_le_weak|]. apply Qle_trans with (val (Z.pos m2) e2); done.
Qed.

End Float32.
