(* ===== verification/FailureDetector.v ===== *)
(** * The failure detector of a node

    Models [node/src/failure_detector.h] and [.cpp]. Times are nanoseconds of the
    steady clock. [float] is IEEE binary32 with rounding to nearest even, computed
    by the specification floats of the standard library with precision 24 and
    maximal exponent 128. *)

From Stdlib Require Import ZArith Lia Lqa QArith SpecFloat Sorted.
From stdpp Require Import base list gmap strings.
From S2P Require Import Prelude Float32.

Local Open Scope Z_scope.

Module FailureDetector.

(** ** binary32 *)

Abbreviation float := spec_float.

(** Conversion of an integer to [float]. *)
Definition float_of_int (z : Z) : float := binary_normalize 24 128 z 0 false.
Definition fdiv : float -> float -> float := SFdiv 24 128.
Definition fmul : float -> float -> float := SFmul 24 128.
(** [x >= y], false when one of them is not a number. *)
Definition fge (x y : float) : bool := SFleb y x.

(** ** The detector *)

Inductive state := UP | DOWN.

#[global] Instance state_eq_dec : EqDecision state.
Proof. solve_decision. Defined.

Definition SAMPLE_SIZE : nat := 1000.

Record failure_detector := FD {
  _failure_threshold : Z;
  _last_heartbeat : Z;
  _intervals : list Z
}.

Definition failure_detector_new (now failureThreshold initialValue : Z) : failure_detector :=
  FD failureThreshold now (replicate SAMPLE_SIZE initialValue).

(** [duration_cast<milliseconds>] truncates. *)
Definition current_interval (fd : failure_detector) (compareTo : Z) : Z :=
  Z.quot (compareTo - _last_heartbeat fd) 1000000.

(** [circular_buffer::push_back]: the oldest value makes room when it is full. *)
Definition push_back (x : Z) (l : list Z) : list Z :=
  if (SAMPLE_SIZE <=? length l)%nat then tail l ++ [x] else l ++ [x].

Definition heartbeat (now : Z) (fd : failure_detector) : failure_detector :=
  FD (_failure_threshold fd) now (push_back (current_interval fd now) (_intervals fd)).

(** [std::accumulate] with the initial value [0], an [int]: every partial sum is
    converted back to [int]. *)
Definition accumulate (l : list Z) : Z := foldl (fun acc x => i32 (acc + x)) 0 l.

Definition current_interval_average (fd : failure_detector) : float :=
  fdiv (float_of_int (accumulate (_intervals fd))) (float_of_int (Z.of_nat SAMPLE_SIZE)).

(** The literal [0.43429448190f]. *)
Definition PHI_FACTOR : float := S754_finite false 14572505 (-25).

Definition current_phi (fd : failure_detector) (compareTo : Z) : float :=
  let interval := current_interval fd compareTo in
  let phi := fdiv (float_of_int interval) (current_interval_average fd) in
  fmul PHI_FACTOR phi.

Definition interpret (compareTo : Z) (fd : failure_detector) : state :=
  if fge (current_phi fd compareTo) (float_of_int (_failure_threshold fd)) then DOWN else UP.

(** ** Lemmas *)

(** The literal is the binary32 number nearest to 0.43429448190: it is within half
    a unit in the last place. *)
Lemma PHI_FACTOR_nearest : Z.abs (2 * (14572505 * 100000000000 - 43429448190 * 2 ^ 25)) <= 100000000000.
Proof. vm_compute. discriminate. Qed.

Lemma swrap_small w x : 0 < w -> - 2 ^ (w - 1) <= x < 2 ^ (w - 1) -> swrap w x = x.
Proof.
  intros Hw Hx. unfold swrap. assert (2 ^ w = 2 * 2 ^ (w - 1)) as E.
  { rewrite <- Z.pow_succ_r by lia. f_equal. lia. }
  rewrite Z.mod_small; lia.
Qed.

Lemma accumulate_exact l :
  Forall (fun x => 0 <= x) l -> sumZ id l < 2 ^ 31 -> accumulate l = sumZ id l.
Proof.
  intros Hl. unfold accumulate. assert (forall acc, 0 <= acc -> acc + sumZ id l < 2 ^ 31 ->
    foldl (fun acc x => i32 (acc + x)) acc l = acc + sumZ id l) as H.
  { induction Hl as [|x l Hx Hl IH]; intros acc Ha Hb; simpl; [by rewrite Z.add_0_r|].
    rewrite sumZ_cons in *. unfold id in *.
    assert (0 <= sumZ (fun x => x) l).
    { clear -Hl. induction Hl; rewrite ?sumZ_cons; [done|lia]. }
    rewrite swrap_small; [|lia|simpl; lia]. rewrite IH; lia. }
  intros Hb. rewrite H by lia. lia.
Qed.

(** The intervals a sequence of heartbeat times records, oldest first. *)
Fixpoint recorded (last : Z) (times : list Z) : list Z :=
  match times with
  | [] => []
  | t :: times => Z.quot (t - last) 1000000 :: recorded t times
  end.

Definition heartbeats (times : list Z) (fd : failure_detector) : failure_detector :=
  foldl (fun fd t => heartbeat t fd) fd times.

Lemma push_back_window x l : length l = SAMPLE_SIZE -> push_back x l = drop 1 (l ++ [x]).
Proof.
  intros H. unfold push_back. rewrite H, Nat.leb_refl. destruct l; [done|]. done.
Qed.

Lemma heartbeats_window times fd all :
  (SAMPLE_SIZE <= length all)%nat -> _intervals fd = drop (length all - SAMPLE_SIZE) all ->
  _intervals (heartbeats times fd) =
    drop (length times + length all - SAMPLE_SIZE) (all ++ recorded (_last_heartbeat fd) times).
Proof.
  revert fd all. induction times as [|t times IH]; intros fd all Hlen Hi.
  { cbn [recorded]. by rewrite app_nil_r. }
  change (heartbeats (t :: times) fd) with (heartbeats times (heartbeat t fd)).
  rewrite (IH (heartbeat t fd) (all ++ [current_interval fd t])).
  - rewrite <- app_assoc, length_app. cbn [length]. f_equal. lia.
  - rewrite length_app. lia.
  - change (_intervals (heartbeat t fd)) with (push_back (current_interval fd t) (_intervals fd)).
    rewrite push_back_window by (rewrite Hi, length_drop; lia).
    rewrite Hi, length_app. cbn [length].
    rewrite <- drop_app_le by lia. rewrite drop_drop. f_equal. lia.
Qed.

(** ** Properties *)

(** The window of the detector always holds the 1000 most recent intervals:
    after any number of heartbeats it is the last 1000 entries of the initial
    filling followed by the recorded intervals. *)
Theorem failure_detector_window now thr init times :
  let fd := heartbeats times (failure_detector_new now thr init) in
  length (_intervals fd) = SAMPLE_SIZE /\
  _intervals fd = drop (length times) (replicate SAMPLE_SIZE init ++ recorded now times) /\
  _last_heartbeat fd = default now (last times).
Proof.
  intros fd. assert (_intervals fd = drop (length times) (replicate SAMPLE_SIZE init ++ recorded now times)) as Hw.
  { unfold fd. rewrite (heartbeats_window times _ (replicate SAMPLE_SIZE init)).
    - rewrite length_replicate. simpl _last_heartbeat. f_equal. lia.
    - by rewrite length_replicate.
    - by rewrite length_replicate, Nat.sub_diag. }
  split_and!; [|done|].
  - rewrite Hw, length_drop, length_app, length_replicate.
    assert (length (recorded now times) = length times) as ->; [|lia].
    clear. revert now. induction times; intros now; simpl; auto.
  - unfold fd, heartbeats, failure_detector_new. clear. generalize (replicate SAMPLE_SIZE init).
    revert now. induction times as [|t times IH]; intros now l; [done|].
    change (foldl (fun fd t => heartbeat t fd) (FD thr now l) (t :: times))
      with (foldl (fun fd t => heartbeat t fd)
              (FD thr t (push_back (current_interval (FD thr now l) t) l)) times).
    rewrite IH, last_cons. by destruct (last times).
Qed.

(** The conversion of a positive [int] is a positive finite number. *)
Lemma float_of_int_finite z : 1 <= z < 2 ^ 31 -> exists m e, float_of_int z = S754_finite false m e.
Proof.
  intros Hz. destruct (Float32.of_int_near z 31 ltac:(lia) ltac:(lia)) as (m & e & Hf & _). eauto.
Qed.

(** The comparison of a positive threshold with a zero or undefined phi. *)
Lemma threshold_above_zero thr phi :
  1 <= thr < 2 ^ 31 -> (exists s, phi = S754_zero s) \/ phi = S754_nan -> fge phi (float_of_int thr) = false.
Proof.
  intros Ht Hphi. destruct (float_of_int_finite thr Ht) as (m & e & ->).
  by destruct Hphi as [[s ->] | ->].
Qed.

Lemma phi_without_silence fd t :
  current_interval fd t = 0 ->
  (exists s, current_phi fd t = S754_zero s) \/ current_phi fd t = S754_nan.
Proof.
  intros H. unfold current_phi. rewrite H. change (float_of_int 0) with (S754_zero false).
  unfold fmul, fdiv. destruct (current_interval_average fd) as [s|s| |s m e]; simpl; eauto.
Qed.

Lemma phi_at_heartbeat now fd :
  1 <= _failure_threshold fd < 2 ^ 31 ->
  fge (current_phi (heartbeat now fd) now) (float_of_int (_failure_threshold fd)) = false.
Proof.
  intros Ht. apply threshold_above_zero, phi_without_silence; [done|].
  unfold current_interval. simpl _last_heartbeat. by rewrite Z.sub_diag.
Qed.

Lemma interpret_at_heartbeat now fd :
  1 <= _failure_threshold fd < 2 ^ 31 -> interpret now (heartbeat now fd) = UP.
Proof.
  intros Ht. unfold interpret. change (_failure_threshold (heartbeat now fd)) with (_failure_threshold fd).
  by rewrite phi_at_heartbeat.
Qed.

(** ** Accuracy *)

Import Float32.

(** The phi of the specification: the silence over the mean interval, scaled by the
    decimal constant, as an exact number. *)
Definition exact_phi (silence total : Z) : Q :=
  ((43429448190 # 100000000000) * (inject_Z silence / (inject_Z total / inject_Z 1000)))%Q.

Lemma PHI_FACTOR_near : near ulp_factor (-25) (-25) (43429448190 # 100000000000) PHI_FACTOR.
Proof.
  exists 14572505%positive, (-25). by split_and!.
Qed.

(** The factor of the five roundings, the three converted integers and the constant. *)
Definition phi_factor : Q := Eval vm_compute in
  Qred (ulp_factor * (ulp_factor * (ulp_factor * ulp_factor * ulp_factor) * ulp_factor) * ulp_factor).

Lemma current_phi_near fd t :
  0 < accumulate (_intervals fd) < 2 ^ 31 -> 0 < current_interval fd t < 2 ^ 63 ->
  near phi_factor (-106) 73 (exact_phi (current_interval fd t) (accumulate (_intervals fd))) (current_phi fd t).
Proof.
  intros HS HI. unfold current_phi, current_interval_average, exact_phi, fdiv, fmul, float_of_int.
  set (S := accumulate (_intervals fd)) in *. set (I := current_interval fd t) in *. clearbody S I.
  pose proof (of_int_near S 31 HS ltac:(lia)) as NS. pose proof (of_int_near I 63 HI ltac:(lia)) as NI.
  pose proof (of_int_near 1000 24 ltac:(lia) ltac:(lia)) as NK.
  assert (0 < inject_Z S)%Q as PS by (change 0%Q with (inject_Z 0); rewrite <- Zlt_Qlt; lia).
  assert (0 < inject_Z I)%Q as PI by (change 0%Q with (inject_Z 0); rewrite <- Zlt_Qlt; lia).
  assert (0 < inject_Z S / inject_Z 1000)%Q as PA by (unfold Qdiv; by apply Qmult_lt_0_compat).
  assert (0 < inject_Z I / (inject_Z S / inject_Z 1000))%Q as PQ
    by (unfold Qdiv at 1; apply Qmult_lt_0_compat; [|apply Qinv_lt_0_compat]; done).
  pose proof (div_near _ _ _ _ _ _ _ _ _ _ NS NK ltac:(done) ltac:(done) (Qlt_le_weak _ _ PS) ltac:(done)
    ltac:(lia) ltac:(lia)) as NA.
  pose proof (div_near _ _ _ _ _ _ _ _ _ _ NI NA ltac:(done) ltac:(done) (Qlt_le_weak _ _ PI) PA
    ltac:(lia) ltac:(lia)) as NQ.
  destruct (mul_near _ _ _ _ _ _ _ _ _ _ PHI_FACTOR_near NQ ltac:(done) ltac:(done) ltac:(done)
    (Qlt_le_weak _ _ PQ) ltac:(lia) ltac:(lia)) as (m & e & Hf & Hm & He & Hc).
  exists m, e. split_and!; [done|lia..|].
  assert (phi_factor == ulp_factor * (ulp_factor * (ulp_factor * ulp_factor * ulp_factor) * ulp_factor) * ulp_factor)%Q
    as -> by done. done.
Qed.

(** A phi further than one part in 2^18 from the threshold is on the right side of it. *)
Lemma interpret_accurate fd t :
  0 < accumulate (_intervals fd) < 2 ^ 31 -> 0 <= current_interval fd t < 2 ^ 63 ->
  1 <= _failure_threshold fd < 2 ^ 31 ->
  let phi := exact_phi (current_interval fd t) (accumulate (_intervals fd)) in
  let thr := inject_Z (_failure_threshold fd) in
  ((1 + (1 # 262144)) * thr <= phi -> interpret t fd = DOWN)%Q /\
  ((1 + (1 # 262144)) * phi < thr -> interpret t fd = UP)%Q.
Proof.
  intros HS HI HT phi thr. unfold interpret, fge.
  assert (0 < thr)%Q as PT by (change 0%Q with (inject_Z 0); unfold thr; rewrite <- Zlt_Qlt; lia).
  destruct (decide (current_interval fd t = 0)) as [Hz|Hz].
  - assert (phi == 0)%Q as Hphi by (unfold phi, exact_phi; rewrite Hz; unfold Qdiv; ring).
    rewrite Hphi. split; [lra|intros _].
    pose proof (threshold_above_zero _ _ HT (phi_without_silence fd t Hz)) as E. unfold fge in E. by rewrite E.
  - pose proof (current_phi_near fd t HS ltac:(lia)) as NP. fold phi in NP.
    pose proof (of_int_near (_failure_threshold fd) 31 ltac:(lia) ltac:(lia)) as NT. fold thr in NT.
    destruct (near_leb _ _ _ _ _ _ _ _ _ _ NT NP ltac:(done) ltac:(done)) as [HD HU].
    assert (ulp_factor * phi_factor <= 1 + (1 # 262144))%Q as Hf by done. unfold float_of_int.
    split; intros H; [rewrite HD|rewrite HU]; try done.
    + eapply Qle_trans, H. apply Qmult_le_compat_r; [done|by apply Qlt_le_weak].
    + eapply Qle_lt_trans, H. apply Qmult_le_compat_r; [done|].
      unfold phi, exact_phi. apply Qmult_le_0_compat; [done|].
      apply Qle_shift_div_l; rewrite ?Qmult_0_l; change 0%Q with (inject_Z 0).
      * apply Qlt_shift_div_l; [done|]. rewrite <- inject_Z_mult, <- Zlt_Qlt. lia.
      * rewrite <- Zle_Qle. lia.
Qed.

(** With no time between the recorded heartbeats any silence is a failure. *)
Lemma interpret_no_intervals fd t :
  accumulate (_intervals fd) = 0 -> 0 <= current_interval fd t < 2 ^ 63 -> 1 <= _failure_threshold fd < 2 ^ 31 ->
  interpret t fd = if decide (0 < current_interval fd t) then DOWN else UP.
Proof.
  intros HS HI HT. unfold interpret. case_decide.
  - destruct (float_of_int_finite _ HT) as (m & e & ->).
    destruct (of_int_near (current_interval fd t) 63 ltac:(lia) ltac:(lia)) as (m' & e' & Hf & _).
    unfold current_phi, current_interval_average, float_of_int. rewrite HS, Hf. done.
  - by rewrite (threshold_above_zero _ _ HT (phi_without_silence fd t ltac:(lia))).
Qed.

Lemma heartbeats_threshold times fd : _failure_threshold (heartbeats times fd) = _failure_threshold fd.
Proof. revert fd. induction times as [|t times IH]; intros fd; [done|]. apply (IH (heartbeat t fd)). Qed.

Lemma recorded_nonneg now times : Sorted Z.le (now :: times) -> Forall (fun x => 0 <= x) (recorded now times).
Proof.
  revert now. induction times as [|t times IH]; intros now Hs; [constructor|].
  apply Sorted_inv in Hs as [Hs Hh]. apply HdRel_inv in Hh. constructor; [apply Z.quot_pos; lia|by apply IH].
Qed.

(** C26. The verdict of the failure detector. After heartbeats at [times], the sum of
    the 1000 most recent intervals fitting in an [int], the node is reported at [t]:
    down when the exact phi (the silence since the last heartbeat over the mean of
    those intervals, times 0.4342944819) is at least the threshold, up when it is
    below it, in both cases as soon as the two differ by more than one part in 2^18,
    whatever the roundings of the [float] computation do; and when the recorded
    intervals are all zero, down as soon as a millisecond has passed. *)
Theorem failure_detector_accurate now thr init times t :
  0 <= init -> Sorted Z.le (now :: times) ->
  0 <= t - default now (last times) < 2 ^ 63 -> 1 <= thr < 2 ^ 31 ->
  let window := drop (length times) (replicate SAMPLE_SIZE init ++ recorded now times) in
  let silence := Z.quot (t - default now (last times)) 1000000 in
  let fd := heartbeats times (failure_detector_new now thr init) in
  sumZ id window < 2 ^ 31 ->
  (0 < sumZ id window ->
    ((1 + (1 # 262144)) * inject_Z thr <= exact_phi silence (sumZ id window) -> interpret t fd = DOWN)%Q /\
    ((1 + (1 # 262144)) * exact_phi silence (sumZ id window) < inject_Z thr -> interpret t fd = UP)%Q) /\
  (sumZ id window = 0 -> interpret t fd = if decide (0 < silence) then DOWN else UP).
Proof.
  intros Hi Hs Ht Hthr window silence fd Hsum.
  destruct (failure_detector_window now thr init times) as (_ & Hw & Hl). fold fd window in Hw, Hl.
  assert (Forall (fun x => 0 <= x) window) as Hpos.
  { apply Forall_drop, Forall_app. split; [by apply Forall_replicate|by apply recorded_nonneg]. }
  assert (_failure_threshold fd = thr) as Hfd by apply heartbeats_threshold.
  assert (accumulate (_intervals fd) = sumZ id window) as HS by (rewrite Hw; by apply accumulate_exact).
  assert (current_interval fd t = silence) as HI by (unfold current_interval; by rewrite Hl).
  assert (0 <= silence < 2 ^ 63).
  { unfold silence. split; [apply Z.quot_pos; lia|]. apply Z.quot_lt_upper_bound; lia. }
  rewrite <- HS, <- HI, <- Hfd. split; intros H0.
  - apply interpret_accurate; rewrite ?HI, ?Hfd; lia.
  - apply interpret_no_intervals; rewrite ?HI, ?Hfd; done.
Qed.

Lemma failure_detector_accurate_witness :
  let fd := heartbeats [100000000; 200000000] (failure_detector_new 0 1 100) in
  interpret 500000000 fd = DOWN /\ interpret 300000000 fd = UP.
Proof.
  assert (Sorted Z.le [0; 100000000; 200000000]) as Hs by (repeat (constructor; try lia)).
  split.
  - refine (proj1 (proj1 (failure_detector_accurate 0 1 100 [100000000; 200000000] 500000000 _ Hs _ _ _) _) _);
      by vm_compute.
  - refine (proj2 (proj1 (failure_detector_accurate 0 1 100 [100000000; 200000000] 300000000 _ Hs _ _ _) _) _);
      by vm_compute.
Defined.

(** The two cases of [test-failuredetector.cpp]. *)
Example phi_greater_or_equal : interpret 300000000 (failure_detector_new 0 1 100) = DOWN.
Proof. vm_compute. reflexivity. Qed.
Example phi_under : interpret 100000000 (failure_detector_new 0 1 100) = UP.
Proof. vm_compute. reflexivity. Qed.

(** The sum of the intervals is kept in an [int]: one outage of 25 days makes it
    negative, the average and every phi with it, and the node is then reported up
    ten hours after its last heartbeat. *)
Lemma long_outage_hides_failure :
  let day := 24 * 3600 * 1000000000 in
  let fd := heartbeat (25 * day) (failure_detector_new 0 8 1000) in
  accumulate (_intervals fd) < 0 /\ interpret (25 * day + 36000 * 1000000000) fd = UP.
Proof. vm_compute. done. Qed.

End FailureDetector.
