(* ===== verification/Endpoint.v ===== *)
(** * Endpoints

    Models [shared/src/endpoint.h] and [.cpp]. [boost::algorithm::to_lower_copy] and
    [boost::lexical_cast<unsigned short>] are parameters; a [bad_lexical_cast] is
    [None]. The iterator of [parse_uri] is the part of the text it has not passed. *)

From Stdlib Require Import ZArith Lia Ascii String.
From stdpp Require Import base list gmap strings.
From S2P Require Import Prelude Uint128.

Local Open Scope Z_scope.
Local Open Scope sopmq_scope.

Module Endpoint.

Abbreviation text := (list ascii).
Definition str_ (s : string) : text := list_ascii_of_string s.

Inductive endpoint_proto := SOPMQvUNKNOWN | SOPMQv1.

#[global] Instance endpoint_proto_eq_dec : EqDecision endpoint_proto.
Proof. solve_decision. Defined.

Record endpoint := EP {
  _hostname : text;
  _port : Z;
  _proto : endpoint_proto;
  _stringUri : text
}.

(** The constructor from a host name and a port, and the one from an [asio]
    endpoint, which takes the printed address: the URI is left empty. *)
Definition endpoint_of_host (hostName : text) (port : Z) : endpoint := EP hostName port SOPMQv1 [].

Definition colon : ascii := ":".
Definition slash : ascii := "/".

(** [while (iter != end && *iter != ':')] with the stream the characters go to. *)
Fixpoint read_until_colon (iter : text) : text * text :=
  match iter with
  | [] => ([], [])
  | c :: iter' =>
    if decide (c = colon) then ([], iter)
    else let '(s, rest) := read_until_colon iter' in (c :: s, rest)
  end.

Definition get_default_port_for_proto (proto : endpoint_proto) : outcome Z :=
  match proto with
  | SOPMQv1 => Ret 8481
  | _ => Throw (invalid_protocol_error "port number for protocol is unknown")
  end.

Section Endpoint.
Context (to_lower_copy : text -> text) (lexical_cast : text -> option Z).

Definition scheme_name_to_protocol (scheme : text) : outcome endpoint_proto :=
  if decide (to_lower_copy scheme = str_ "sopmq1") then Ret SOPMQv1
  else Throw (invalid_protocol_error (string_of_list_ascii scheme ++ " is an unknown protocol")).

(** The host, the port and the protocol a URI names. *)
Definition parse_uri (uri : text) : outcome (text * Z * endpoint_proto) :=
  match uri with
  | [] => Throw (uri_parse_error "uri was empty")
  | _ =>
    let '(scheme, iter) := read_until_colon uri in
    match iter with
    | [] => Throw (uri_parse_error "scheme could not be deduced")
    | _ :: iter =>
      match iter with
      | [] => Throw (uri_parse_error "expecting a / after scheme:")
      | c :: iter =>
        if decide (c <> slash) then Throw (uri_parse_error "expecting a / after scheme:") else
        match iter with
        | [] => Throw (uri_parse_error "expecting a / after scheme:/")
        | c :: iter =>
          if decide (c <> slash) then Throw (uri_parse_error "expecting a / after scheme:/") else
          match iter with
          | [] => Throw (uri_parse_error "nothing found after scheme")
          | _ =>
            let '(hostname, iter) := read_until_colon iter in
            match iter with
            | [] =>
              proto <~ scheme_name_to_protocol scheme;;
              port <~ get_default_port_for_proto proto;;
              Ret (hostname, port, proto)
            | _ :: iter =>
              match iter with
              | [] => Throw (uri_parse_error "port not specified")
              | _ =>
                proto <~ scheme_name_to_protocol scheme;;
                match lexical_cast iter with
                | Some port => Ret (hostname, port, proto)
                | None => Throw (uri_parse_error "port number specified was invalid")
                end
              end
            end
          end
        end
      end
    end
  end.

(** The constructor from a URI. *)
Definition endpoint_of_uri (uri : text) : outcome endpoint :=
  r <~ parse_uri uri;;
  Ret (EP r.1.1 r.1.2 r.2 uri).

Definition host_name (e : endpoint) : text := _hostname e.
Definition port (e : endpoint) : Z := _port e.
Definition protocol (e : endpoint) : endpoint_proto := _proto e.
Definition str (e : endpoint) : text := _stringUri e.

(** [std::string::operator<]: lexicographic on the character codes. *)
Fixpoint string_lt (a b : text) : bool :=
  match a, b with
  | _, [] => false
  | [], _ :: _ => true
  | x :: a, y :: b =>
    (nat_of_ascii x <? nat_of_ascii y)%nat || ((nat_of_ascii x =? nat_of_ascii y)%nat && string_lt a b)
  end.

Definition endpoint_lt (lhs rhs : endpoint) : bool := string_lt (str lhs) (str rhs).

(** ** Lemmas *)

Lemma read_until_colon_spec t :
  (colon ∉ t /\ read_until_colon t = (t, [])) \/
  (exists s rest, colon ∉ s /\ t = s ++ colon :: rest /\ read_until_colon t = (s, colon :: rest)).
Proof.
  induction t as [|c t IH]; simpl; [left; split; [apply not_elem_of_nil|done]|].
  case_decide as Hc.
  - right. exists [], t. subst. split; [apply not_elem_of_nil|done].
  - destruct IH as [[Hn ->]|(s & rest & Hn & -> & ->)].
    + left. split; [|done]. apply not_elem_of_cons. auto.
    + right. exists (c :: s), rest. split; [|done]. apply not_elem_of_cons. auto.
Qed.

Lemma read_until_colon_stop s rest : colon ∉ s -> read_until_colon (s ++ colon :: rest) = (s, colon :: rest).
Proof.
  induction s as [|c s IH]; intros Hn; cbn [app read_until_colon]; [by rewrite decide_True|].
  apply not_elem_of_cons in Hn as [Hc Hn]. rewrite decide_False by auto. by rewrite IH.
Qed.

Lemma read_until_colon_end s : colon ∉ s -> read_until_colon s = (s, []).
Proof.
  induction s as [|c s IH]; intros Hn; cbn [read_until_colon]; [done|].
  apply not_elem_of_cons in Hn as [Hc Hn]. rewrite decide_False by auto. by rewrite IH.
Qed.

Lemma scheme_name_to_protocol_ret scheme proto :
  scheme_name_to_protocol scheme = Ret proto <-> to_lower_copy scheme = str_ "sopmq1" /\ proto = SOPMQv1.
Proof. unfold scheme_name_to_protocol. case_decide; naive_solver. Qed.

(** The two shapes of an accepted URI. *)
Definition uri_no_port (scheme host : text) : text := scheme ++ str_ "://" ++ host.
Definition uri_with_port (scheme host ptext : text) : text := scheme ++ str_ "://" ++ host ++ colon :: ptext.

Lemma parse_uri_no_port scheme host :
  colon ∉ scheme -> colon ∉ host -> host <> [] ->
  parse_uri (uri_no_port scheme host) =
    (proto <~ scheme_name_to_protocol scheme;;
     port <~ get_default_port_for_proto proto;; Ret (host, port, proto)).
Proof.
  intros Hs Hh Hne. unfold parse_uri, uri_no_port.
  change (str_ "://" ++ host) with (colon :: slash :: slash :: host).
  rewrite (read_until_colon_stop scheme (slash :: slash :: host)) by done.
  destruct (scheme ++ colon :: slash :: slash :: host) eqn:E; [by destruct scheme|]. clear E.
  rewrite !decide_False by (intros H; by apply H). destruct host; [done|].
  by rewrite read_until_colon_end.
Qed.

Lemma parse_uri_with_port scheme host ptext :
  colon ∉ scheme -> colon ∉ host -> ptext <> [] ->
  parse_uri (uri_with_port scheme host ptext) =
    (proto <~ scheme_name_to_protocol scheme;;
     match lexical_cast ptext with
     | Some port => Ret (host, port, proto)
     | None => Throw (uri_parse_error "port number specified was invalid")
     end).
Proof.
  intros Hs Hh Hne. unfold parse_uri, uri_with_port.
  change (str_ "://" ++ host ++ colon :: ptext) with (colon :: slash :: slash :: host ++ colon :: ptext).
  rewrite (read_until_colon_stop scheme (slash :: slash :: host ++ colon :: ptext)) by done.
  destruct (scheme ++ colon :: slash :: slash :: host ++ colon :: ptext) eqn:E; [by destruct scheme|]. clear E.
  rewrite !decide_False by (intros H; by apply H).
  rewrite read_until_colon_stop by done. destruct (host ++ colon :: ptext) eqn:E; [by destruct host|].
  by destruct ptext.
Qed.

(** ** Properties *)

(** C30. Which URIs are accepted, and as what: a URI is accepted exactly when it
    is a scheme that lower-cases to [sopmq1], then [://], then either a non-empty
    host without a colon (and the port is 8481) or a host without a colon, a
    colon, and a port text that converts to a port number. *)
Theorem endpoint_accepts uri host p proto :
  parse_uri uri = Ret (host, p, proto) <->
  exists scheme, colon ∉ scheme /\ colon ∉ host /\ to_lower_copy scheme = str_ "sopmq1" /\ proto = SOPMQv1 /\
    ((uri = uri_no_port scheme host /\ host <> [] /\ p = 8481) \/
     (exists ptext, uri = uri_with_port scheme host ptext /\ ptext <> [] /\ lexical_cast ptext = Some p)).
Proof.
  split.
  - intros H. unfold parse_uri in H. destruct uri as [|u0 uri0] eqn:Eu; [done|]. rewrite <- Eu in *. clear u0 uri0 Eu.
    destruct (read_until_colon_spec uri) as [[Hn E]|(scheme & r1 & Hs & -> & E)]; rewrite E in H; [done|].
    destruct r1 as [|c1 [|c2 r2]]; simpl in H; try done; repeat case_decide; try done.
    subst c1 c2.
    destruct r2 as [|c3 r2'] eqn:Er; [done|]. rewrite <- Er in H.
    assert (r2 <> []) as Hne by congruence. rewrite <- Er. clear E c3 r2' Er.
    exists scheme. destruct (read_until_colon_spec r2) as [[Hn E2]|(h & r3 & Hh & -> & E2)]; rewrite E2 in H.
    + apply obind_ret_inv in H as (pr & [Hl ->]%scheme_name_to_protocol_ret & H). simpl in H. simplify_eq.
      split_and!; try done. left. done.
    + destruct r3 as [|c4 r4]; [done|]. apply obind_ret_inv in H as (pr & [Hl ->]%scheme_name_to_protocol_ret & H).
      destruct (lexical_cast (c4 :: r4)) eqn:El; simplify_eq. split_and!; try done. right.
      exists (c4 :: r4). done.
  - intros (scheme & Hs & Hh & Hl & -> & [(-> & Hne & ->)|(pt & -> & Hne & Hp)]).
    + rewrite parse_uri_no_port by done. by rewrite (proj2 (scheme_name_to_protocol_ret _ _) (conj Hl eq_refl)).
    + rewrite parse_uri_with_port by done.
      rewrite (proj2 (scheme_name_to_protocol_ret _ _) (conj Hl eq_refl)). simpl. by rewrite Hp.
Qed.

(** Every other URI is refused with one of the two errors the header
    declares: parsing never ends in another exception. *)
Theorem endpoint_rejects uri :
  (exists r, parse_uri uri = Ret r) \/
  (exists what, parse_uri uri = Throw (uri_parse_error what)) \/
  (exists what, parse_uri uri = Throw (invalid_protocol_error what)).
Proof.
  unfold parse_uri, scheme_name_to_protocol, get_default_port_for_proto.
  repeat (case_match || case_decide); simpl; eauto.
Qed.

(** Round trip: printing a host and a port as a URI and parsing it gives the
    endpoint back, with the URI as its text, for every host without a colon. *)
Theorem endpoint_roundtrip (print_port : Z -> text) host p :
  to_lower_copy (str_ "sopmq1") = str_ "sopmq1" ->
  (forall n, in_width 16 n -> print_port n <> [] /\ lexical_cast (print_port n) = Some n) ->
  colon ∉ host -> in_width 16 p ->
  let uri := uri_with_port (str_ "sopmq1") host (print_port p) in
  endpoint_of_uri uri = Ret (EP host p SOPMQv1 uri).
Proof.
  intros Hl Hp Hh Hw uri. destruct (Hp p Hw) as [Hne Hc]. unfold endpoint_of_uri, uri.
  rewrite parse_uri_with_port; [|by apply (bool_decide_unpack _)|done|done].
  rewrite (proj2 (scheme_name_to_protocol_ret _ _) (conj Hl eq_refl)). simpl. by rewrite Hc.
Qed.

(** Two endpoints that were not built from a URI are never ordered, whatever
    their hosts and ports: as keys they are equivalent. *)
Lemma host_endpoints_equivalent h1 p1 h2 p2 :
  endpoint_lt (endpoint_of_host h1 p1) (endpoint_of_host h2 p2) = false.
Proof. reflexivity. Qed.

End Endpoint.

(** ** Concrete instances *)

(** ASCII lower case, and decimal conversion through the program's own 128-bit
    integers. *)
Definition ascii_lower (c : ascii) : ascii :=
  let n := nat_of_ascii c in
  if ((65 <=? n) && (n <=? 90))%nat then ascii_of_nat (n + 32) else c.
Definition ascii_to_lower (t : text) : text := ascii_lower <$> t.

Definition decimal_print (n : Z) : text :=
  match Uint128.to_string (Uint128.of_Z n) 10 with Ret s => list_ascii_of_string s | _ => [] end.

Definition decimal_cast (t : text) : option Z :=
  match t with
  | [] => None
  | _ =>
    let v := Uint128.to_Z (Uint128.uint128_of_string (string_of_list_ascii t)) in
    if v <? 2 ^ 16 then Some v else None
  end.

Lemma decimal_print_cast n : in_width 16 n -> decimal_print n <> [] /\ decimal_cast (decimal_print n) = Some n.
Proof.
  intros Hn. unfold decimal_print.
  destruct (Uint128.to_string_parse (Uint128.of_Z n) (Uint128.of_Z_wf n)) as (s & Hs & Hp). rewrite Hs.
  assert (Uint128.to_Z (Uint128.of_Z n) = n) as En.
  { rewrite Uint128.to_Z_of_Z. apply wrap_small. unfold in_width in *. lia. }
  assert (list_ascii_of_string s <> []) as Hne.
  { intros E. destruct s; [|done]. assert (n = 0) as ->.
    { rewrite <- En, <- Hp. reflexivity. }
    by vm_compute in Hs. }
  split; [done|]. unfold decimal_cast. rewrite string_of_list_ascii_of_string, Hp, En.
  destruct (list_ascii_of_string s); [done|]. by rewrite (proj2 (Z.ltb_lt _ _) (proj2 Hn)).
Qed.

Lemma endpoint_roundtrip_witness :
  let uri := uri_with_port (str_ "sopmq1") (str_ "localhost") (decimal_print 1000) in
  endpoint_of_uri ascii_to_lower decimal_cast uri = Ret (EP (str_ "localhost") 1000 SOPMQv1 uri).
Proof.
  apply (endpoint_roundtrip ascii_to_lower decimal_cast decimal_print (str_ "localhost") 1000);
    [reflexivity|exact decimal_print_cast|by apply (bool_decide_unpack _)|by apply (bool_decide_unpack _)].
Defined.

(** The cases of [test-endpoint.cpp]. *)
Example parser_is_sane :
  parse_uri ascii_to_lower decimal_cast (str_ "sopmq1://localhost:1000") = Ret (str_ "localhost", 1000, SOPMQv1).
Proof. vm_compute. reflexivity. Qed.
Example parser_handles_no_port :
  parse_uri ascii_to_lower decimal_cast (str_ "sopmq1://l") = Ret (str_ "l", 8481, SOPMQv1).
Proof. vm_compute. reflexivity. Qed.
Example parser_throws :
  (fun s => parse_uri ascii_to_lower decimal_cast (str_ s)) <$>
    [""; "sopmq"; "sopmq1:"; "sopmq1:/"; "sopmq1://"; "sopmq5://test"]%string =
  [Throw (uri_parse_error "uri was empty"); Throw (uri_parse_error "scheme could not be deduced");
   Throw (uri_parse_error "expecting a / after scheme:"); Throw (uri_parse_error "expecting a / after scheme:/");
   Throw (uri_parse_error "nothing found after scheme");
   Throw (invalid_protocol_error "sopmq5 is an unknown protocol")].
Proof. vm_compute. reflexivity. Qed.

End Endpoint.
