(* ===== verification/Node.v ===== *)
(** * Nodes

    Models [node/src/node.h] and [.cpp] and the settings they read
    ([node/src/settings.h] and [.cpp], [node/src/gossiper.h]). A node is a shared object: the
    ring, the quorum logic and the local operations all hold pointers to it, and
    its failure state and clock change. Pointers are addresses into a store. *)

From Stdlib Require Import ZArith Lia Ascii String.
From stdpp Require Import base list gmap strings.
From S2P Require Import Prelude Uint128 Clocks MessageQueue QueueManager FailureDetector Endpoint.

Local Open Scope Z_scope.
Local Open Scope sopmq_scope.

Module Settings.
Import Endpoint.

(** The members of the settings singleton. *)
Record settings := Settings {
  nodeId : Z;
  range : Uint128.uint128;
  bindAddress : text;
  port : Z;
  cassandraSeeds : list text;
  mqSeeds : list text;
  maxMessageSize : Z;
  defaultTimeout : Z;
  phiFailureThreshold : Z;
  unitTestUsername : text;
  ringKey : text
}.

Definition DEFAULT_MAX_MESSAGE_SIZE : Z := 10485760.
Definition DEFAULT_OPERATION_TIMEOUT : Z := 5.
Definition DEFAULT_PHI_FAILURE_THRESHOLD : Z := 8.

(** The constructor sets three members: the integer ones it leaves out keep the
    arbitrary values [nodeId0] and [port0] of their storage (a static object, so
    zero for the singleton), the others are default-constructed. *)
Definition settings_new (nodeId0 port0 : Z) : settings :=
  Settings nodeId0 Uint128.uint128_zero [] port0 [] [] DEFAULT_MAX_MESSAGE_SIZE DEFAULT_OPERATION_TIMEOUT
    DEFAULT_PHI_FAILURE_THRESHOLD [] [].

(** [ring_key_hash] is computed by its first call and kept in a static variable,
    [cached]. *)
Definition ring_key_hash (hash : text -> text) (cached : option text) (s : settings) : text * option text :=
  let h := default (hash (ringKey s)) cached in (h, Some h).

(** The values a sequence of calls returns, while the settings change. *)
Fixpoint ring_key_hashes (hash : text -> text) (cached : option text) (ss : list settings) : list text :=
  match ss with
  | [] => []
  | s :: ss => let '(h, cached) := ring_key_hash hash cached s in h :: ring_key_hashes hash cached ss
  end.

(** Every call returns the hash of the key the first one saw. *)
Lemma ring_key_hash_first hash s ss :
  ring_key_hashes hash None (s :: ss) = replicate (S (length ss)) (hash (ringKey s)).
Proof. simpl. f_equal. induction ss as [|t ss IH]; [done|]. simpl. by rewrite IH. Qed.

(** The options of [node-main.cpp], after parsing by [boost::program_options]. An
    option without a value is [None]. *)
Record options := Options {
  o_help : bool;
  o_range : option string;
  o_bind_addr : option text;
  o_port : option Z;
  o_storage_nodes : option (list text);
  o_seed_nodes : option (list text);
  o_max_message_size : Z;
  o_phi_failure_threshold : Z;
  o_unit_test_username : text
}.

(** The default values the option descriptions give. *)
Definition DEFAULT_PORT : Z := 8481.
Definition OPT_DEFAULT_PHI_FAILURE_THRESHOLD : Z := 7.

Definition default_options : options :=
  Options false None None (Some DEFAULT_PORT) None None DEFAULT_MAX_MESSAGE_SIZE
    OPT_DEFAULT_PHI_FAILURE_THRESHOLD [].

(** The end of [process_options]: refuse when a required option is missing, store
    the others in the singleton. *)
Definition store_options (o : options) (s : settings) : bool * settings :=
  match o_range o, o_bind_addr o, o_port o, o_storage_nodes o, o_seed_nodes o with
  | Some r, Some b, Some p, Some cs, Some ms =>
    (true, Settings (nodeId s) (Uint128.uint128_of_string r) b p cs ms (o_max_message_size o)
             (defaultTimeout s) (o_phi_failure_threshold o) (o_unit_test_username o) (ringKey s))
  | _, _, _, _, _ => (false, s)
  end.

End Settings.

Module Node.
Import Settings.

Abbreviation ptr := nat.
Abbreviation node_clock := NodeClock.node_clock.

(** [_operations_handler] is a null pointer or holds the local operations, whose
    own state is the queue manager. *)
Record node := Nd {
  _node_id : Z;
  _range_start : Uint128.uint128;
  _endpoint : Endpoint.endpoint;
  _failure_detector : FailureDetector.failure_detector;
  _operations_handler : option QueueManager.queue_manager;
  _forced_failure : bool;
  _clock : node_clock
}.

Abbreviation heap := (gmap ptr node).

Definition GOSSIP_INTERVAL_MS : Z := 1000.

Section Node.
Context (conf : settings).

(** The members of [_clock] are not initialised: [clock0] is whatever they hold. *)
Definition node_new (now : Z) (clock0 : node_clock) (nodeId : Z) (rangeStart : Uint128.uint128)
    (endPoint : Endpoint.endpoint) : node :=
  Nd nodeId rangeStart endPoint
     (FailureDetector.failure_detector_new now (phiFailureThreshold conf) GOSSIP_INTERVAL_MS)
     None false clock0.

Definition node_id (n : node) : Z := _node_id n.
Definition range_start (n : node) : Uint128.uint128 := _range_start n.
Definition endpoint (n : node) : Endpoint.endpoint := _endpoint n.

Definition is_self (n : node) : bool := _node_id n =? nodeId conf.

Definition is_alive (now : Z) (n : node) : bool :=
  if is_self n then true
  else if _forced_failure n then false
  else bool_decide (FailureDetector.interpret now (_failure_detector n) = FailureDetector.UP).

Definition heartbeat (now : Z) (n : node) : node :=
  Nd (_node_id n) (_range_start n) (_endpoint n) (FailureDetector.heartbeat now (_failure_detector n))
     (_operations_handler n) (_forced_failure n) (_clock n).

Definition set_failed (n : node) : node :=
  Nd (_node_id n) (_range_start n) (_endpoint n) (_failure_detector n) (_operations_handler n) true (_clock n).

(** For a remote node no handler is ever created and the null pointer is
    dereferenced. *)
Definition operations (n : node) : outcome QueueManager.queue_manager :=
  match _operations_handler n with
  | Some ops => Ret ops
  | None =>
    if is_self n
    then Throw (logic_error "tried to return non-constructed operations for a local node")
    else Undef
  end.

(** The node made for [get_self] from the settings. *)
Definition get_self (now : Z) (clock0 : node_clock) : node :=
  node_new now clock0 (nodeId conf) (range conf) (Endpoint.endpoint_of_host (bindAddress conf) (port conf)).

(** A fresh [local_node_operations], with its empty queue manager. *)
Definition init_local_operations (n : node) : node :=
  Nd (_node_id n) (_range_start n) (_endpoint n) (_failure_detector n)
     (Some QueueManager.queue_manager_new) (_forced_failure n) (_clock n).

Definition clock (n : node) : node_clock := _clock n.

(** ** Runs of one node *)

Inductive nop := Heartbeat (now : Z) | SetFailed.

Definition nexec (n : node) (o : nop) : node :=
  match o with Heartbeat now => heartbeat now n | SetFailed => set_failed n end.

Lemma nexec_forced ops n : _forced_failure n = true -> _forced_failure (foldl nexec n ops) = true.
Proof.
  revert n. induction ops as [|o ops IH]; intros n H; simpl; [done|]. apply IH. by destruct o.
Qed.

Lemma nexec_id ops n : _node_id (foldl nexec n ops) = _node_id n.
Proof. revert n. induction ops as [|o ops IH]; intros n; simpl; [done|]. rewrite IH. by destruct o. Qed.

(** The local node is alive whatever its detector says and even when it was
    marked failed. *)
Lemma self_alive now n : is_self n = true -> is_alive now n = true.
Proof. unfold is_alive. by intros ->. Qed.

(** A failure mark is permanent: once [set_failed] was called on a remote
    node it is reported down forever, whatever heartbeats arrive. (The header
    documents the mark as lasting until the next heartbeat.) *)
Theorem node_failure_permanent n ops now :
  is_self n = false -> is_alive now (foldl nexec (set_failed n) ops) = false.
Proof.
  intros Hs. unfold is_alive, is_self in *. rewrite nexec_id, nexec_forced by done. simpl. by rewrite Hs.
Qed.

(** A node that was never marked failed is alive at the instant of each of
    its heartbeats, for every positive threshold of an [int]. *)
Theorem node_alive_on_heartbeat n now :
  1 <= FailureDetector._failure_threshold (_failure_detector n) < 2 ^ 31 -> _forced_failure n = false ->
  is_alive now (heartbeat now n) = true.
Proof.
  intros Ht Hf. unfold is_alive. case_match; [done|]. simpl. rewrite Hf. apply bool_decide_eq_true.
  by apply FailureDetector.interpret_at_heartbeat.
Qed.

End Node.

Definition sample_settings : settings :=
  (store_options (Options false (Some "0"%string) (Some (Endpoint.str_ "localhost")) (Some 8481) (Some []) (Some [])
    DEFAULT_MAX_MESSAGE_SIZE 8 []) (settings_new 1 0)).2.

Definition sample_node (id start : Z) : node :=
  node_new sample_settings 0 (NodeClock.NC id 1 0) id (Uint128.of_Z start)
    (Endpoint.endpoint_of_host (Endpoint.str_ "localhost") id).

Lemma node_failure_permanent_witness :
  is_alive sample_settings 5 (heartbeat 5 (set_failed (sample_node 2 10))) = false.
Proof.
  apply (node_failure_permanent sample_settings (sample_node 2 10) [Heartbeat 5] 5). reflexivity.
Defined.

Lemma node_alive_on_heartbeat_witness : is_alive sample_settings 5 (heartbeat 5 (sample_node 2 10)) = true.
Proof. apply (node_alive_on_heartbeat sample_settings (sample_node 2 10) 5); [simpl; lia|reflexivity]. Defined.

End Node.
