(* ===== verification/Ring.v ===== *)
(** * The ring

    Models [node/src/ring.h] and [.cpp]. [_ring_by_range] is an ordered map: the
    list of its pairs in key order; an iterator is a position in it, [end()] the
    length. [_nodes_by_id] is a hash map. The nodes are in the store. *)

From Stdlib Require Import ZArith Lia.
From stdpp Require Import base list gmap sorting strings.
From S2P Require Import Prelude Uint128 Clocks QueueManager FailureDetector Endpoint Node.

Local Open Scope Z_scope.
Local Open Scope sopmq_scope.

Module Ring.
Import Node.
Abbreviation uint128 := Uint128.uint128.

(** ** The order of range starts *)

Definition klt (a b : uint128) : Prop := Uint128.ltb a b = true.
Definition kle (a b : uint128) : Prop := Uint128.ltb b a = false.

Lemma klt_iff a b : klt a b <->
  Uint128.hi a < Uint128.hi b \/ Uint128.hi a = Uint128.hi b /\ Uint128.lo a < Uint128.lo b.
Proof. unfold klt, Uint128.ltb. case_match; zify_tests; rewrite Z.ltb_lt; lia. Qed.

Lemma kle_iff a b : kle a b <->
  Uint128.hi a < Uint128.hi b \/ Uint128.hi a = Uint128.hi b /\ Uint128.lo a <= Uint128.lo b.
Proof. unfold kle, Uint128.ltb. case_match; zify_tests; rewrite Z.ltb_ge; lia. Qed.

Lemma k_ext a b : Uint128.hi a = Uint128.hi b -> Uint128.lo a = Uint128.lo b -> a = b.
Proof. destruct a, b; simpl; congruence. Qed.

(** Goals on the order are linear arithmetic on the two halves. *)
Ltac korder :=
  repeat match goal with
  | H : Uint128.ltb ?a ?b = true |- _ => change (klt a b) in H
  | H : Uint128.ltb ?a ?b = false |- _ => change (kle b a) in H
  end;
  rewrite ?klt_iff, ?kle_iff in *; try lia.

#[global] Instance klt_trans : Transitive klt.
Proof. intros a b c. korder. Qed.

(** ** The ring *)

Record ring := Rg {
  _ring_by_range : list (uint128 * ptr);
  _nodes_by_id : gmap Z ptr
}.

Definition ring_new : ring := Rg [] ∅.

Definition deref (h : heap) (p : ptr) : outcome node :=
  match h !! p with Some n => Ret n | None => Undef end.

(** [std::map::find]: the entry whose key is neither below nor above. *)
Fixpoint map_find (k : uint128) (l : list (uint128 * ptr)) : option ptr :=
  match l with
  | [] => None
  | (k', p) :: l => if negb (Uint128.ltb k' k) && negb (Uint128.ltb k k') then Some p else map_find k l
  end.

(** [std::map::emplace]: in key order, and nothing when the key is there. *)
Fixpoint map_emplace (k : uint128) (p : ptr) (l : list (uint128 * ptr)) : list (uint128 * ptr) :=
  match l with
  | [] => [(k, p)]
  | (k', p') :: l' =>
    if Uint128.ltb k k' then (k, p) :: l
    else if Uint128.ltb k' k then (k', p') :: map_emplace k p l'
    else l
  end.

(** [upper_bound]: the first position whose key is above [key]. *)
Fixpoint upper_bound (key : uint128) (l : list (uint128 * ptr)) : nat :=
  match l with
  | [] => O
  | (k, _) :: l => if Uint128.ltb key k then O else S (upper_bound key l)
  end.

Definition check_no_conflict (h : heap) (r : ring) (newNode : node) : outcome unit :=
  match _nodes_by_id r !! node_id newNode with
  | Some _ => Throw (id_conflict_error (node_id newNode))
  | None =>
    match map_find (range_start newNode) (_ring_by_range r) with
    | Some p =>
      other <~ deref h p;;
      Throw (range_conflict_error (node_id newNode) (node_id other))
    | None => Ret tt
    end
  end.

(** [emplace] into the hash map keeps an existing entry. *)
Definition id_emplace (i : Z) (p : ptr) (m : gmap Z ptr) : gmap Z ptr :=
  match m !! i with Some _ => m | None => <[i := p]> m end.

Definition add_node (h : heap) (p : ptr) (r : ring) : outcome ring :=
  n <~ deref h p;;
  _ <~ check_no_conflict h r n;;
  Ret (Rg (map_emplace (range_start n) p (_ring_by_range r))
          (id_emplace (node_id n) p (_nodes_by_id r))).

Definition find_secondary_node (r : ring) (key : uint128) : nat :=
  let iter := upper_bound key (_ring_by_range r) in
  if (iter =? length (_ring_by_range r))%nat then O else iter.

(** Decrementing [begin()] of an empty map is undefined. *)
Definition find_primary_node (r : ring) (secondaryIter : nat) : outcome nat :=
  let iter := if (secondaryIter =? 0)%nat then length (_ring_by_range r) else secondaryIter in
  match iter with O => Undef | S i => Ret i end.

Definition find_tertiary_node (r : ring) (secondaryIter : nat) : outcome nat :=
  if (secondaryIter <? length (_ring_by_range r))%nat then
    let iter := S secondaryIter in
    Ret (if (iter =? length (_ring_by_range r))%nat then O else iter)
  else Undef.

(** [iter->second] *)
Definition at_iter (r : ring) (iter : nat) : outcome ptr :=
  match _ring_by_range r !! iter with Some (_, p) => Ret p | None => Undef end.

Definition no_nodes : exn := unavailable_error "There are no nodes in the ring".

Definition find_primary_node_for_key (r : ring) (key : uint128) : outcome ptr :=
  match _ring_by_range r with
  | [] => Throw no_nodes
  | _ =>
    let secondaryIter := find_secondary_node r key in
    primaryIter <~ find_primary_node r secondaryIter;;
    at_iter r primaryIter
  end.

Definition find_nodes_for_key (r : ring) (key : uint128) : outcome (list ptr) :=
  match _ring_by_range r with
  | [] => Throw no_nodes
  | _ =>
    let secondaryIter := find_secondary_node r key in
    primaryIter <~ find_primary_node r secondaryIter;;
    tertiaryIter <~ find_tertiary_node r secondaryIter;;
    primary <~ at_iter r primaryIter;;
    secondary <~ at_iter r secondaryIter;;
    tertiary <~ at_iter r tertiaryIter;;
    Ret [primary; secondary; tertiary]
  end.

Section Quorum.
(** [std::shuffle] with an engine seeded from the clock is an argument. *)
Context (conf : Settings.settings) (shuffle : list ptr -> list ptr).

(** The loop that keeps the nodes that are alive. *)
Fixpoint alive_nodes (h : heap) (now : Z) (nodes : list ptr) : outcome (list ptr) :=
  match nodes with
  | [] => Ret []
  | p :: nodes =>
    n <~ deref h p;;
    rest <~ alive_nodes h now nodes;;
    Ret (if is_alive conf now n then p :: rest else rest)
  end.

(** The comparisons that remove duplicates from the three slots. *)
Definition compress (o0 o1 o2 : option ptr) : list (option ptr) :=
  let o1 := if decide (o0 = o1) then None else o1 in
  let o2 := if decide (o1 = o2) then None else o2 in
  let o2 := if decide (o0 = o2) then None else o2 in
  [o0; o1; o2].

Definition find_quorum_for_operation (h : heap) (now : Z) (r : ring) (key : uint128)
    : outcome (list (option ptr)) :=
  nodes <~ find_nodes_for_key r key;;
  outNodes <~ alive_nodes h now (shuffle nodes);;
  if (length outNodes <? 2)%nat
  then Throw (unavailable_error "No quorum of nodes is up and available for key")
  else Ret (compress (outNodes !! 0%nat) (outNodes !! 1%nat) (outNodes !! 2%nat)).

End Quorum.

(** ** Invariant *)

Definition keys_sorted (l : list (uint128 * ptr)) : Prop := StronglySorted klt l.*1.

(** Both maps describe one set of nodes, each under its range start and its id. *)
Record ring_wf (h : heap) (r : ring) : Prop := {
  rw_sorted : keys_sorted (_ring_by_range r);
  rw_range : forall k p, (k, p) ∈ _ring_by_range r ->
    exists n, h !! p = Some n /\ range_start n = k /\ _nodes_by_id r !! node_id n = Some p;
  rw_id : forall i p, _nodes_by_id r !! i = Some p ->
    exists n, h !! p = Some n /\ node_id n = i /\ (range_start n, p) ∈ _ring_by_range r
}.

(** ** Lemmas on the ordered map *)

Lemma map_find_Some k l p : map_find k l = Some p -> (k, p) ∈ l.
Proof.
  induction l as [|[k' p'] l IH]; simpl; [done|]. case_match eqn:E; intros H.
  - simplify_eq. zify_tests. assert (k = k') as -> by (apply k_ext; korder). by left.
  - right. auto.
Qed.

Lemma map_find_None k l : map_find k l = None -> k ∉ l.*1.
Proof.
  induction l as [|[k' p'] l IH]; csimpl; [set_solver|]. case_match eqn:E; [done|].
  intros H. apply not_elem_of_cons. split; [|auto]. intros ->.
  assert (Uint128.ltb k' k' = false) as Hf by (apply not_true_iff_false; fold (klt k' k'); korder).
  by rewrite Hf in E.
Qed.

Lemma map_emplace_elem k p l k' p' :
  k ∉ l.*1 -> (k', p') ∈ map_emplace k p l <-> (k', p') = (k, p) \/ (k', p') ∈ l.
Proof.
  induction l as [|[k0 p0] l IH]; csimpl.
  - intros _. rewrite list_elem_of_singleton. set_solver.
  - rewrite not_elem_of_cons. intros [Hne Hn]. case_match eqn:E1; [by rewrite elem_of_cons|].
    case_match eqn:E2; [rewrite !elem_of_cons, IH by done; naive_solver|].
    exfalso. apply Hne, k_ext; korder.
Qed.

Lemma map_emplace_sorted k p l : k ∉ l.*1 -> keys_sorted l -> keys_sorted (map_emplace k p l).
Proof.
  unfold keys_sorted. induction l as [|[k0 p0] l IH]; csimpl.
  - intros _ _. repeat constructor.
  - rewrite not_elem_of_cons, StronglySorted_cons. intros [Hne Hn] [Hf Hs].
    case_match eqn:E1; [|case_match eqn:E2].
    + csimpl. rewrite !StronglySorted_cons. split; [|done]. constructor; [done|].
      eapply Forall_impl; [done|]. intros x Hx. by etrans.
    + csimpl. apply StronglySorted_cons. split; [|auto]. apply Forall_forall. intros x Hx.
      apply list_elem_of_fmap in Hx as ([x' px] & -> & Hx). apply map_emplace_elem in Hx as [Hx|Hx]; [| |done].
      * by simplify_eq.
      * rewrite Forall_forall in Hf. apply Hf. by apply (list_elem_of_fmap_2 fst l (x', px)).
    + exfalso. apply Hne, k_ext; korder.
Qed.

Lemma upper_bound_spec key l : keys_sorted l ->
  (upper_bound key l <= length l)%nat /\
  (forall j k, l.*1 !! j = Some k -> (j < upper_bound key l)%nat -> kle k key) /\
  (forall j k, l.*1 !! j = Some k -> (upper_bound key l <= j)%nat -> klt key k).
Proof.
  unfold keys_sorted. induction l as [|[k0 p0] l IH]; csimpl; [intros _; split_and!; [lia|done..]|].
  rewrite StronglySorted_cons. intros [Hf Hs]. destruct (IH Hs) as (H1 & H2 & H3).
  case_match eqn:E; split_and!; simpl; try lia.
  - intros [|j] k Hj _; simplify_eq/=; [done|]. rewrite Forall_forall in Hf.
    assert (klt k0 k) by (apply Hf; by eapply list_elem_of_lookup_2). by trans k0.
  - intros [|j] k Hj Hlt; simplify_eq/=; [done|]. apply (H2 j); [done|lia].
  - intros [|j] k Hj Hle; simplify_eq/=; [lia|]. apply (H3 j); [done|lia].
Qed.

Lemma sorted_lookup_le (l : list uint128) i j a b :
  StronglySorted klt l -> l !! i = Some a -> l !! j = Some b -> (i <= j)%nat -> kle a b.
Proof.
  intros Hs Hi Hj Hle. destruct (decide (i = j)) as [->|]; [simplify_eq; korder|].
  assert (klt a b) by (eapply StronglySorted_lookup; [done..|lia]). korder.
Qed.

(** ** Where the lookups land *)

Definition primary_position (r : ring) (key : uint128) : nat :=
  let n := length (_ring_by_range r) in (upper_bound key (_ring_by_range r) + n - 1) mod n.

Lemma lookups_positions r key :
  keys_sorted (_ring_by_range r) -> _ring_by_range r <> [] ->
  let n := length (_ring_by_range r) in
  let j := primary_position r key in
  (j < n)%nat /\
  find_primary_node r (find_secondary_node r key) = Ret j /\
  find_secondary_node r key = ((j + 1) mod n)%nat /\
  find_tertiary_node r (find_secondary_node r key) = Ret ((j + 2) mod n)%nat.
Proof.
  intros Hs Hne n j. destruct (upper_bound_spec key _ Hs) as (Hu & _). fold n in Hu.
  assert (0 < n)%nat as Hn by (subst n; destruct (_ring_by_range r); [done|simpl; lia]).
  unfold find_primary_node, find_tertiary_node, find_secondary_node. fold n.
  unfold primary_position in j. fold n in j. subst j.
  set (i := upper_bound key (_ring_by_range r)) in *.
  destruct (decide (i = n)) as [E|Hin].
  - rewrite E, Nat.eqb_refl. simpl. replace ((n + n - 1) mod n)%nat with (n - 1)%nat.
    2: { replace (n + n - 1)%nat with (n - 1 + 1 * n)%nat by lia.
         rewrite Nat.Div0.mod_add, Nat.mod_small; lia. }
    split_and!; [lia| | |].
    + destruct n; [lia|]. f_equal. lia.
    + replace (n - 1 + 1)%nat with n by lia. by rewrite Nat.Div0.mod_same.
    + rewrite (proj2 (Nat.ltb_lt 0 n)) by lia. f_equal.
      replace (n - 1 + 2)%nat with (1 + 1 * n)%nat by lia. rewrite Nat.Div0.mod_add.
      destruct n as [|[|n']]; [lia|done|]. rewrite Nat.mod_small by lia. done.
  - rewrite (proj2 (Nat.eqb_neq i n)) by done. destruct i as [|i'].
    + simpl. rewrite Nat.mod_small by lia. split_and!; [lia| | |].
      * destruct n; [lia|]. f_equal. lia.
      * replace (n - 1 + 1)%nat with n by lia. by rewrite Nat.Div0.mod_same.
      * rewrite (proj2 (Nat.ltb_lt 0 n)) by lia. f_equal.
        replace (n - 1 + 2)%nat with (1 + 1 * n)%nat by lia. rewrite Nat.Div0.mod_add.
        destruct n as [|[|n']]; [lia|done|]. rewrite Nat.mod_small by lia. done.
    + replace (S i' + n - 1)%nat with (i' + 1 * n)%nat by lia.
      rewrite Nat.Div0.mod_add, Nat.mod_small by lia. split_and!; [lia|done| |].
      * rewrite Nat.mod_small by lia. lia.
      * rewrite (proj2 (Nat.ltb_lt (S i') n)) by lia. f_equal. case_match eqn:E; zify_tests.
        -- apply Nat.eqb_eq in E. replace (i' + 2)%nat with n by lia. by rewrite Nat.Div0.mod_same.
        -- apply Nat.eqb_neq in E. rewrite Nat.mod_small by lia. lia.
Qed.

Lemma at_position r j : (j < length (_ring_by_range r))%nat ->
  exists k p, _ring_by_range r !! j = Some (k, p) /\ at_iter r j = Ret p.
Proof.
  intros Hj. apply lookup_lt_is_Some in Hj as [[k p] Hp]. exists k, p. unfold at_iter. by rewrite Hp.
Qed.

Lemma find_nodes_positions r key :
  keys_sorted (_ring_by_range r) -> _ring_by_range r <> [] ->
  let n := length (_ring_by_range r) in
  let j := primary_position r key in
  exists kp p ks s kt t,
    _ring_by_range r !! j = Some (kp, p) /\
    _ring_by_range r !! ((j + 1) mod n)%nat = Some (ks, s) /\
    _ring_by_range r !! ((j + 2) mod n)%nat = Some (kt, t) /\
    find_nodes_for_key r key = Ret [p; s; t] /\ find_primary_node_for_key r key = Ret p.
Proof.
  intros Hs Hne n j. destruct (lookups_positions r key Hs Hne) as (Hj & Hp & Hsec & Ht). fold n j in Hj, Hp, Hsec, Ht.
  assert (forall i, i mod n < n)%nat as Hm by (intros i; apply Nat.mod_upper_bound; lia).
  destruct (at_position r j Hj) as (kp & p & E1 & A1).
  destruct (at_position r ((j + 1) mod n) (Hm _)) as (ks & s & E2 & A2).
  destruct (at_position r ((j + 2) mod n) (Hm _)) as (kt & t & E3 & A3).
  exists kp, p, ks, s, kt, t. split_and!; [done..| |].
  - unfold find_nodes_for_key. destruct (_ring_by_range r) eqn:E; [done|].
    rewrite Hp, Ht. cbn [obind]. by rewrite A1, Hsec, A2, A3.
  - unfold find_primary_node_for_key. destruct (_ring_by_range r) eqn:E; [done|].
    rewrite Hp. cbn [obind]. done.
Qed.

(** The node with range start [k] is responsible for [key]: [k] is the greatest
    start at or below the key or, when every start is above it, the greatest. *)
Definition owns (starts : list uint128) (key k : uint128) : Prop :=
  k ∈ starts /\
  ((kle k key /\ forall k', k' ∈ starts -> kle k' key -> kle k' k) \/
   ((forall k', k' ∈ starts -> klt key k') /\ forall k', k' ∈ starts -> kle k' k)).

Lemma owns_unique starts key k1 k2 : owns starts key k1 -> owns starts key k2 -> k1 = k2.
Proof.
  intros [Hi1 [[H1 G1]|[H1 G1]]] [Hi2 [[H2 G2]|[H2 G2]]];
    try (specialize (H1 k2 Hi2)); try (specialize (H2 k1 Hi1)); try (exfalso; korder; fail).
  - specialize (G1 k2 Hi2 H2). specialize (G2 k1 Hi1 H1). apply k_ext; korder.
  - specialize (G1 k2 Hi2). specialize (G2 k1 Hi1). apply k_ext; korder.
Qed.

Lemma primary_owns r key k p :
  keys_sorted (_ring_by_range r) -> _ring_by_range r !! primary_position r key = Some (k, p) ->
  owns (_ring_by_range r).*1 key k.
Proof.
  intros Hs Hp. assert ((_ring_by_range r).*1 !! primary_position r key = Some k) as Hk
    by (by rewrite list_lookup_fmap, Hp).
  split; [by eapply list_elem_of_lookup_2|].
  destruct (upper_bound_spec key _ Hs) as (Hu & Hlow & Hhigh).
  set (n := length (_ring_by_range r)) in *.
  assert (0 < n)%nat as Hn by (apply lookup_lt_Some in Hp; lia).
  assert (forall k', k' ∈ (_ring_by_range r).*1 -> exists i, (i < n)%nat /\ (_ring_by_range r).*1 !! i = Some k') as Hix.
  { intros k' [i Hi]%list_elem_of_lookup_1. exists i. split; [|done].
    apply lookup_lt_Some in Hi. by rewrite length_fmap in Hi. }
  unfold primary_position in Hk, Hp. fold n in Hk, Hp.
  destruct (upper_bound key (_ring_by_range r)) as [|i].
  - right. rewrite Nat.mod_small in Hk by lia. split.
    + intros k' Hk'. destruct (Hix k' Hk') as (i & _ & Hi). apply (Hhigh i); [done|lia].
    + intros k' Hk'. destruct (Hix k' Hk') as (i & Hin & Hi). eapply sorted_lookup_le; [done|done|done|lia].
  - left. replace (S i + n - 1)%nat with (i + 1 * n)%nat in Hk by lia.
    rewrite Nat.Div0.mod_add, Nat.mod_small in Hk by lia. split; [apply (Hlow i); [done|lia]|].
    intros k' Hk' Hle. destruct (Hix k' Hk') as (i' & Hin & Hi').
    destruct (decide (i' <= i)%nat); [by eapply sorted_lookup_le|].
    assert (klt key k') by (apply (Hhigh i'); [done|lia]). korder.
Qed.

Lemma ring_ptr_unique h r k p k' : ring_wf h r -> (k, p) ∈ _ring_by_range r -> (k', p) ∈ _ring_by_range r -> k = k'.
Proof.
  intros W H1 H2. destruct (rw_range h r W _ _ H1) as (n1 & E1 & <- & _).
  destruct (rw_range h r W _ _ H2) as (n2 & E2 & <- & _). by simplify_eq.
Qed.

Lemma ring_key_unique h r k p p' : ring_wf h r -> (k, p) ∈ _ring_by_range r -> (k, p') ∈ _ring_by_range r -> p = p'.
Proof.
  intros W H1 H2. apply list_elem_of_lookup in H1 as [i Hi], H2 as [j Hj].
  destruct (decide (i = j)) as [->|Hne]; [congruence|].
  assert ((_ring_by_range r).*1 !! i = Some k) as Hi' by (by rewrite list_lookup_fmap, Hi).
  assert ((_ring_by_range r).*1 !! j = Some k) as Hj' by (by rewrite list_lookup_fmap, Hj).
  assert (klt k k); [|korder].
  destruct (decide (i < j)%nat);
    [eapply (StronglySorted_lookup _ i j)|eapply (StronglySorted_lookup _ j i)]; eauto using rw_sorted; [apply W|apply W|lia].
Qed.

(** What [add_node] does on each branch. *)
Lemma add_node_spec h r p n : ring_wf h r -> h !! p = Some n ->
  match _nodes_by_id r !! node_id n with
  | Some _ => add_node h p r = Throw (id_conflict_error (node_id n))
  | None =>
    (exists q m, (range_start n, q) ∈ _ring_by_range r /\ h !! q = Some m /\
       add_node h p r = Throw (range_conflict_error (node_id n) (node_id m))) \/
    (range_start n ∉ (_ring_by_range r).*1 /\
     exists r', add_node h p r = Ret r' /\ ring_wf h r' /\
       forall k q, (k, q) ∈ _ring_by_range r' <-> (k, q) = (range_start n, p) \/ (k, q) ∈ _ring_by_range r)
  end.
Proof.
  intros W Hp. unfold add_node, deref. rewrite Hp. cbn [obind]. unfold check_no_conflict.
  destruct (_nodes_by_id r !! node_id n) eqn:Eid; [done|].
  destruct (map_find (range_start n) (_ring_by_range r)) as [q|] eqn:Er.
  - left. apply map_find_Some in Er. destruct (rw_range h r W _ _ Er) as (m & Hm & _).
    exists q, m. unfold deref. by rewrite Hm.
  - right. apply map_find_None in Er. split; [done|]. cbn [obind].
    eexists. split; [done|]. unfold id_emplace. rewrite Eid.
    assert (forall k q, (k, q) ∈ map_emplace (range_start n) p (_ring_by_range r) <->
      (k, q) = (range_start n, p) \/ (k, q) ∈ _ring_by_range r) as Hel by (intros; by apply map_emplace_elem).
    split; [|done]. split; simpl.
    + apply map_emplace_sorted; [done|apply W].
    + intros k q [[= -> ->]|H]%Hel; [exists n; by rewrite lookup_insert_eq|].
      destruct (rw_range h r W _ _ H) as (m & Hm & Hk & Hi). exists m. split_and!; [done..|].
      rewrite lookup_insert_ne; [done|]. congruence.
    + intros i q. rewrite lookup_insert_Some. intros [[<- <-]|[Hne H]].
      * exists n. split_and!; [done..|]. apply Hel. by left.
      * destruct (rw_id h r W _ _ H) as (m & Hm & Hi & Hin). exists m. split_and!; [done..|].
        apply Hel. by right.
Qed.

(** Updates of the nodes that keep their ids and ranges keep the ring well formed. *)
Lemma ring_wf_update h h' r : ring_wf h r ->
  (forall p n, h !! p = Some n -> exists n', h' !! p = Some n' /\ node_id n' = node_id n /\ range_start n' = range_start n) ->
  ring_wf h' r.
Proof.
  intros [Hs Hr Hi] Hu. constructor; [done| |].
  - intros k p Hk. destruct (Hr k p Hk) as (n & Hn & H). destruct (Hu p n Hn) as (n' & ? & E1 & E2).
    exists n'. by rewrite E1, E2.
  - intros i p Hk. destruct (Hi i p Hk) as (n & Hn & H). destruct (Hu p n Hn) as (n' & ? & E1 & E2).
    exists n'. by rewrite E1, E2.
Qed.

Lemma ring_new_wf h : ring_wf h ring_new.
Proof. split; simpl; [constructor|intros ?? ?%not_elem_of_nil; done|done]. Qed.

(** ** Replica sets *)

Lemma cyclic_distinct n j : (j < n)%nat ->
  (j <> (j + 1) mod n /\ (j + 1) mod n <> (j + 2) mod n /\ j <> (j + 2) mod n)%nat <-> (3 <= n)%nat.
Proof.
  intros Hj. assert (forall d, d < n -> (j + d) mod n = if j + d <? n then j + d else j + d - n)%nat as Hm.
  { intros d Hd. case_match eqn:E; [apply Nat.ltb_lt in E; by rewrite Nat.mod_small|].
    apply Nat.ltb_ge in E. replace (j + d)%nat with (j + d - n + 1 * n)%nat at 1 by lia.
    rewrite Nat.Div0.mod_add, Nat.mod_small; lia. }
  destruct n as [|[|[|n]]]; [lia| | |].
  - split; [|lia]. intros [H _]. rewrite Nat.mod_1_r in H. lia.
  - split; [|lia]. intros (_ & _ & H). exfalso. apply H.
    replace (j + 2)%nat with (j + 1 * 2)%nat by lia. rewrite Nat.Div0.mod_add, Nat.mod_small; lia.
  - split; [lia|]. intros _. rewrite !Hm by lia. repeat case_match; rewrite ?Nat.ltb_lt, ?Nat.ltb_ge in *; lia.
Qed.

(** Positions of a well-formed ring hold the same node only when they are equal. *)
Lemma ring_position_inj h r i j k p k' : ring_wf h r ->
  _ring_by_range r !! i = Some (k, p) -> _ring_by_range r !! j = Some (k', p) -> i = j.
Proof.
  intros W Hi Hj. assert (k = k') as <- by (eapply ring_ptr_unique; eauto using list_elem_of_lookup_2).
  assert ((_ring_by_range r).*1 !! i = Some k) as Hi' by (by rewrite list_lookup_fmap, Hi).
  assert ((_ring_by_range r).*1 !! j = Some k) as Hj' by (by rewrite list_lookup_fmap, Hj).
  destruct (lt_eq_lt_dec i j) as [[Hlt|]|Hlt]; [|done|]; exfalso.
  - assert (klt k k) by (eapply (StronglySorted_lookup _ i j); eauto; apply W). korder.
  - assert (klt k k) by (eapply (StronglySorted_lookup _ j i); eauto; apply W). korder.
Qed.

Lemma find_nodes_distinct h r key : ring_wf h r -> _ring_by_range r <> [] ->
  exists nodes, find_nodes_for_key r key = Ret nodes /\ length nodes = 3%nat /\
    (NoDup nodes <-> (3 <= length (_ring_by_range r))%nat) /\
    (forall p, p ∈ nodes -> exists k, (k, p) ∈ _ring_by_range r).
Proof.
  intros W Hne. destruct (find_nodes_positions r key (rw_sorted _ _ W) Hne)
    as (kp & p & ks & s & kt & t & E1 & E2 & E3 & H & _).
  exists [p; s; t]. split_and!; [done..| |].
  - rewrite <- (cyclic_distinct _ (primary_position r key)) by (by eapply lookup_lt_Some).
    rewrite !NoDup_cons, !not_elem_of_cons.
    assert (forall i j k q k' q', _ring_by_range r !! i = Some (k, q) -> _ring_by_range r !! j = Some (k', q') ->
      q = q' <-> i = j) as Hiff.
    { intros i j k q k' q' Hi Hj. split; [intros ->; by eapply ring_position_inj|congruence]. }
    rewrite (Hiff _ _ _ _ _ _ E1 E2), (Hiff _ _ _ _ _ _ E2 E3), (Hiff _ _ _ _ _ _ E1 E3).
    pose proof (NoDup_nil_2 (A := ptr)). pose proof (@not_elem_of_nil ptr). naive_solver.
  - intros q Hq. rewrite !elem_of_cons in Hq.
    destruct Hq as [->|[->|[->|Hq%not_elem_of_nil]]]; [..|done]; eauto using list_elem_of_lookup_2.
Qed.

Section QuorumLemmas.
Context (conf : Settings.settings) (h : heap) (now : Z).

(** The liveness a node of the store is reported to have. *)
Definition up (p : ptr) : bool :=
  match h !! p with Some n => is_alive conf now n | None => false end.

Lemma alive_nodes_spec nodes : (forall p, p ∈ nodes -> is_Some (h !! p)) ->
  alive_nodes conf h now nodes = Ret (filter (fun p => up p = true) nodes).
Proof.
  induction nodes as [|p nodes IH]; intros Hn; simpl; [done|].
  destruct (Hn p ltac:(by left)) as [n Hp]. unfold deref. rewrite Hp. cbn [obind].
  rewrite IH by (intros q Hq; apply Hn; by right). cbn [obind]. rewrite filter_cons.
  assert (up p = is_alive conf now n) as <- by (unfold up; by rewrite Hp).
  destruct (up p); case_decide; done.
Qed.

End QuorumLemmas.

Lemma compress_distinct (l : list ptr) : NoDup l -> (2 <= length l <= 3)%nat ->
  compress (l !! 0%nat) (l !! 1%nat) (l !! 2%nat) = [l !! 0%nat; l !! 1%nat; l !! 2%nat].
Proof.
  intros Hnd Hl. destruct l as [|a [|b [|c [|d l]]]]; simpl in *; try lia;
    rewrite !NoDup_cons, !not_elem_of_cons in Hnd; unfold compress;
    repeat case_decide; naive_solver.
Qed.

(** ** Properties *)

(** C24. Adding a node is refused with the documented error when its id or its
    range start is taken; otherwise the ring stays well formed (ranges sorted and
    unique, both maps holding the same nodes) and contains exactly one node more. *)
Theorem ring_add_node h r p n : ring_wf h r -> h !! p = Some n ->
  match _nodes_by_id r !! node_id n with
  | Some _ => add_node h p r = Throw (id_conflict_error (node_id n))
  | None =>
    (exists q m, (range_start n, q) ∈ _ring_by_range r /\ h !! q = Some m /\
       add_node h p r = Throw (range_conflict_error (node_id n) (node_id m))) \/
    (range_start n ∉ (_ring_by_range r).*1 /\
     exists r', add_node h p r = Ret r' /\ ring_wf h r' /\
       forall k q, (k, q) ∈ _ring_by_range r' <-> (k, q) = (range_start n, p) \/ (k, q) ∈ _ring_by_range r)
  end.
Proof. apply add_node_spec. Qed.

(** C15. The primary node of a key is the one whose range start is the greatest at
    or below the key, wrapping around to the greatest of all when every start is
    above the key; the lookup always succeeds on a ring that is not empty. *)
Theorem ring_primary h r key : ring_wf h r -> _ring_by_range r <> [] ->
  exists k p, find_primary_node_for_key r key = Ret p /\ (k, p) ∈ _ring_by_range r /\
    owns (_ring_by_range r).*1 key k /\
    forall k', owns (_ring_by_range r).*1 key k' -> k' = k.
Proof.
  intros W Hne. destruct (find_nodes_positions r key (rw_sorted _ _ W) Hne)
    as (kp & p & ks & s & kt & t & E1 & E2 & E3 & _ & H).
  assert (owns (_ring_by_range r).*1 key kp) as Ho by (eapply primary_owns; [apply W|done]).
  exists kp, p. split_and!; [done|by eapply list_elem_of_lookup_2|done|].
  intros k' Hk'. by eapply owns_unique.
Qed.

(** C9. The three replicas of a key are its primary and the two nodes that follow
    it around the ring, and they are three different nodes exactly when the ring
    has at least three nodes. *)
Theorem ring_replicas h r key : ring_wf h r -> _ring_by_range r <> [] ->
  let n := length (_ring_by_range r) in
  exists j kp p ks s kt t,
    find_nodes_for_key r key = Ret [p; s; t] /\ find_primary_node_for_key r key = Ret p /\
    _ring_by_range r !! j = Some (kp, p) /\
    _ring_by_range r !! ((j + 1) mod n)%nat = Some (ks, s) /\
    _ring_by_range r !! ((j + 2) mod n)%nat = Some (kt, t) /\
    (NoDup [p; s; t] <-> (3 <= n)%nat).
Proof.
  intros W Hne n. destruct (find_nodes_positions r key (rw_sorted _ _ W) Hne)
    as (kp & p & ks & s & kt & t & E1 & E2 & E3 & H & Hp).
  destruct (find_nodes_distinct h r key W Hne) as (nodes & Hn & _ & Hd & _).
  rewrite H in Hn. injection Hn as <-. eexists _, kp, p, ks, s, kt, t. split_and!; try done; apply Hd.
Qed.

(** C39. Adding a node moves ownership only towards it: every key whose primary
    changes when a node joins has the new node as its primary afterwards. *)
Theorem ring_add_node_local h r p r' key q q' :
  ring_wf h r -> _ring_by_range r <> [] -> add_node h p r = Ret r' ->
  find_primary_node_for_key r key = Ret q -> find_primary_node_for_key r' key = Ret q' ->
  q' = q \/ q' = p.
Proof.
  intros W Hne Ha Hq Hq'. assert (exists n, h !! p = Some n) as [n Hn].
  { unfold add_node, deref in Ha. destruct (h !! p); [eauto|done]. }
  pose proof (add_node_spec h r p n W Hn) as S. rewrite Ha in S. case_match; [done|].
  destruct S as [(? & ? & _ & _ & ?)|(Hfree & r2 & [= <-] & W' & Hel)]; [done|].
  destruct (find_nodes_positions r key (rw_sorted _ _ W) Hne)
    as (k & x & ? & ? & ? & ? & E1 & _ & _ & _ & Hx). rewrite Hq in Hx. injection Hx as <-.
  assert (_ring_by_range r' <> []) as Hne'.
  { intros E. specialize (Hel (range_start n) p). rewrite E in Hel.
    by eapply not_elem_of_nil, Hel; left. }
  destruct (find_nodes_positions r' key (rw_sorted _ _ W') Hne')
    as (k' & x & ? & ? & ? & ? & E1' & _ & _ & _ & Hx). rewrite Hq' in Hx. injection Hx as <-.
  pose proof (primary_owns r key k q (rw_sorted _ _ W) E1) as Ho.
  destruct (primary_owns r' key k' q' (rw_sorted _ _ W') E1') as [Hin Ho'].
  apply list_elem_of_lookup_2 in E1, E1'. apply Hel in E1' as [[= -> ->]|E1']; [by right|left].
  assert (forall a, a ∈ (_ring_by_range r).*1 -> a ∈ (_ring_by_range r').*1) as Hsub.
  { intros a ([a' pa] & -> & Ha')%list_elem_of_fmap. apply (list_elem_of_fmap_2 fst _ (a', pa)). apply Hel. by right. }
  assert (owns (_ring_by_range r).*1 key k') as Ho2.
  { split; [by apply (list_elem_of_fmap_2 fst _ (k', q'))|].
    destruct Ho' as [[H1 H2]|[H1 H2]]; [left|right]; split; auto. }
  assert (k = k') as <- by (by eapply owns_unique). exact (ring_key_unique h r _ _ _ W E1' E1).
Qed.

(** C23. On a ring of at least three nodes, the quorum for an operation is a
    permutation of the replicas of the key that are up, filled from the front;
    with fewer than two of them up the operation is refused as unavailable. *)
Theorem ring_quorum conf shuffle h now r key :
  (forall l, shuffle l ≡ₚ l) -> ring_wf h r -> (3 <= length (_ring_by_range r))%nat ->
  exists nodes, find_nodes_for_key r key = Ret nodes /\ NoDup nodes /\
    let alive := filter (fun p => up conf h now p = true) nodes in
    if (length alive <? 2)%nat
    then find_quorum_for_operation conf shuffle h now r key =
           Throw (unavailable_error "No quorum of nodes is up and available for key")
    else exists out, out ≡ₚ alive /\
           find_quorum_for_operation conf shuffle h now r key = Ret [out !! 0%nat; out !! 1%nat; out !! 2%nat].
Proof.
  intros Hsh W Hn. assert (_ring_by_range r <> []) as Hne by (intros E; rewrite E in Hn; simpl in Hn; lia).
  destruct (find_nodes_distinct h r key W Hne) as (nodes & Hnodes & Hlen & Hd & Hmem).
  apply Hd in Hn. exists nodes. split_and!; [done..|]. intros alive.
  unfold find_quorum_for_operation. rewrite Hnodes. cbn [obind].
  rewrite alive_nodes_spec.
  2: { intros p Hp. rewrite Hsh in Hp. destruct (Hmem p Hp) as [k Hk].
       destruct (rw_range _ _ W _ _ Hk) as (m & Hm & _). by rewrite Hm. }
  cbn [obind]. set (out := filter _ (shuffle nodes)).
  assert (out ≡ₚ alive) as Hp by (unfold out, alive; by rewrite Hsh).
  rewrite (Permutation_length Hp). case_match eqn:E; [done|]. apply Nat.ltb_ge in E. exists out. split; [done|]. f_equal.
  apply compress_distinct.
  - rewrite Hp. unfold alive. by apply NoDup_filter.
  - rewrite Hp. split; [done|]. rewrite <- Hlen. apply length_filter.
Qed.

(** ** Concrete rings *)

Fixpoint add_nodes (h : heap) (ps : list ptr) (r : ring) : outcome ring :=
  match ps with
  | [] => Ret r
  | p :: ps => r <~ add_node h p r;; add_nodes h ps r
  end.

Lemma add_nodes_wf h ps r r' : add_nodes h ps r = Ret r' -> ring_wf h r -> ring_wf h r'.
Proof.
  revert r. induction ps as [|p ps IH]; intros r H W; simpl in H; [by simplify_eq|].
  apply obind_ret_inv in H as (r1 & H1 & H2). apply (IH r1); [done|].
  assert (exists n, h !! p = Some n) as [n Hn].
  { unfold add_node, deref in H1. destruct (h !! p); [eauto|done]. }
  pose proof (add_node_spec h r p n W Hn) as S. rewrite H1 in S. case_match; naive_solver.
Qed.

(** Nodes 1 to 4 with the range starts 10, 20, 30 and 40; node 1 is the local one. *)
Definition sample_heap : heap :=
  list_to_map [(1%nat, sample_node 1 10); (2%nat, sample_node 2 20); (3%nat, sample_node 3 30); (4%nat, sample_node 4 40)].

Definition ring_of (ps : list ptr) : ring :=
  match add_nodes sample_heap ps ring_new with Ret r => r | _ => ring_new end.

Lemma ring_of_wf ps : ring_wf sample_heap (ring_of ps).
Proof.
  unfold ring_of. destruct (add_nodes sample_heap ps ring_new) eqn:E; try apply ring_new_wf.
  eapply add_nodes_wf; [done|apply ring_new_wf].
Qed.

Definition key_ (z : Z) : uint128 := Uint128.of_Z z.

Lemma ring_add_node_witness :
  add_node sample_heap 1%nat (ring_of [1; 2]%nat) = Throw (id_conflict_error 1).
Proof. apply (ring_add_node sample_heap (ring_of [1; 2]%nat) 1 (sample_node 1 10) (ring_of_wf _)). vm_compute. reflexivity. Defined.

Lemma ring_primary_witness : exists p, find_primary_node_for_key (ring_of [3; 1; 2; 4]%nat) (key_ 5) = Ret p.
Proof.
  destruct (ring_primary sample_heap (ring_of [3; 1; 2; 4]%nat) (key_ 5) (ring_of_wf _)) as (k & p & H & _).
  - vm_compute. discriminate.
  - eauto.
Defined.

Lemma ring_replicas_witness : exists nodes, find_nodes_for_key (ring_of [3; 1; 2; 4]%nat) (key_ 31) = Ret nodes.
Proof.
  destruct (ring_replicas sample_heap (ring_of [3; 1; 2; 4]%nat) (key_ 31) (ring_of_wf _))
    as (j & kp & p & ks & s & kt & t & H & _); [vm_compute; discriminate|eauto].
Defined.

Lemma ring_add_node_local_witness : 4%nat = 2%nat \/ 4%nat = 4%nat.
Proof.
  apply (ring_add_node_local sample_heap (ring_of [1; 2]%nat) 4 (ring_of [1; 2; 4]%nat) (key_ 45) 2 4 (ring_of_wf _));
    vm_compute; (reflexivity || discriminate).
Defined.

Lemma ring_quorum_witness : exists out,
  find_quorum_for_operation sample_settings (@rev ptr) sample_heap 0 (ring_of [1; 2; 3; 4]%nat) (key_ 15) = Ret out.
Proof.
  destruct (ring_quorum sample_settings (@rev ptr) sample_heap 0 (ring_of [1; 2; 3; 4]%nat) (key_ 15))
    as (nodes & Hn & _ & H).
  - intros l. symmetry. apply Permutation_rev.
  - apply ring_of_wf.
  - vm_compute. lia.
  - vm_compute in Hn. injection Hn as <-. vm_compute in H. destruct H as (out & _ & H). eexists. exact H.
Defined.

(** The lookups of [test-ring.cpp] on four nodes. *)
Example four_node_lookups :
  (fun z => find_nodes_for_key (ring_of [1; 2; 3; 4]%nat) (key_ z)) <$> [10; 20; 30; 40; 1; 11; 21; 31; 41] =
  [Ret [1; 2; 3]; Ret [2; 3; 4]; Ret [3; 4; 1]; Ret [4; 1; 2]; Ret [4; 1; 2];
   Ret [1; 2; 3]; Ret [2; 3; 4]; Ret [3; 4; 1]; Ret [4; 1; 2]]%nat.
Proof. vm_compute. reflexivity. Qed.

(** ** Where the code departs from its intent *)

(** [test-ring.cpp] expects a null pointer from a lookup in an empty ring: the
    lookup throws. *)
Lemma empty_ring_throws key : find_primary_node_for_key ring_new key = Throw no_nodes.
Proof. reflexivity. Qed.

(** With two nodes up, a shuffle that puts the duplicated node in the first two
    slots leaves the middle slot of the quorum empty: the two nodes are not both
    in the slots that are tried first. *)
Lemma two_node_quorum_hole :
  find_quorum_for_operation sample_settings (fun l => match l with [a; b; c] => [a; c; b] | _ => l end)
    sample_heap 0 (ring_of [1; 2]%nat) (key_ 15) = Ret [Some 1%nat; None; Some 2%nat].
Proof. vm_compute. reflexivity. Qed.

(** A node that appears twice among the replicas counts twice: with one of two
    nodes known to be down, the other alone makes a quorum, although the comment
    allows that only when no other node is known to be down. *)
Lemma two_node_quorum_of_one :
  find_quorum_for_operation sample_settings id
    (<[2%nat := set_failed (sample_node 2 20)]> sample_heap) 0 (ring_of [1; 2]%nat) (key_ 15) =
  Ret [Some 1%nat; None; None].
Proof. vm_compute. reflexivity. Qed.

End Ring.
