(* ===== verification/Quorum.v ===== *)
(** * Quorum logic

    Models [node/src/quorum_logic.h]: an operation is sent to the nodes of a
    quorum, replies are counted, a failure moves on to a backup node or gives up.

    Calls of [_function] and [_fail_function] leave the component: they are
    effects. A reply may come back at any time, also during [run] when the node is
    the local one and replies before the call returns; the steps of [qstep]
    interleave the loop of [run] with the replies in every order. The caller,
    [csauthenticated::handle_post_message], takes a reply as a success, as a failure, or,
    when the clock of a reply that was counted as a success does not convert or the merge
    of the clocks throws, as both: [Publish.on_reply] has the three cases, and
    [Publish.on_reply_qstep] shows that no other has a defined effect. A step of a call is one that
    returns; an exception of a call leaves the operation, as [Publish.run_quorum] has it. *)

From Stdlib Require Import ZArith Lia.
From stdpp Require Import base list gmap strings relations.
From S2P Require Import Prelude Node.

Local Open Scope Z_scope.
Local Open Scope sopmq_scope.

Module Quorum.
Abbreviation ptr := Node.ptr.

(** A slot of the quorum: a node or a null pointer. *)
Abbreviation slot := (option ptr).

Record quorum_logic := QL {
  _all_nodes : list slot;
  _success_nodes : list slot;
  _failed_nodes : list slot;
  _lastNode : Z
}.

Inductive effect := Call (node : slot) | FailCall.

#[global] Instance effect_eq_dec : EqDecision effect.
Proof. solve_decision. Defined.

Definition quorum_logic_new (allNodes : list slot) : quorum_logic := QL allNodes [] [] 0.

Section Logic.
Context (RF : Z).

(** [size_t] arithmetic; [_lastNode] is an [int], converted by the comparison. *)
Definition can_continue (q : quorum_logic) : bool :=
  (RF / 2 <? u64 (RF - Z.of_nat (length (_failed_nodes q)))) && (u64 (_lastNode q + 1) <? RF).

(** [_function(_all_nodes[_lastNode++])]: the counter is advanced before the call. *)
Definition call_next (q : quorum_logic) : outcome (quorum_logic * effect) :=
  match _all_nodes q !! Z.to_nat (_lastNode q) with
  | Some n => Ret (QL (_all_nodes q) (_success_nodes q) (_failed_nodes q) (_lastNode q + 1), Call n)
  | None => Undef
  end.

(** The number of iterations of [run]. *)
Definition run_count : nat := Z.to_nat (RF - RF / 2).

Definition node_success (n : slot) (q : quorum_logic) : quorum_logic :=
  QL (_all_nodes q) (_success_nodes q ++ [n]) (_failed_nodes q) (_lastNode q).

Definition node_failed (n : slot) (q : quorum_logic) : outcome (quorum_logic * effect) :=
  let q := QL (_all_nodes q) (_success_nodes q) (_failed_nodes q ++ [n]) (_lastNode q) in
  if can_continue q then call_next q else Ret (q, FailCall).

Definition operation_succeeded (q : quorum_logic) : bool :=
  RF / 2 <? Z.of_nat (length (_success_nodes q)).

Definition successful_nodes (q : quorum_logic) : list slot := _success_nodes q.

(** ** Executions *)

Record qstate := QS {
  logic : quorum_logic;
  loop_left : nat;
  outstanding : list slot;
  effects : list effect
}.

Definition called (e : effect) : list slot := match e with Call n => [n] | FailCall => [] end.

Inductive qstep : qstate -> qstate -> Prop :=
| q_run q k out eff q' n :
    call_next q = Ret (q', Call n) ->
    qstep (QS q (S k) out eff) (QS q' k (n :: out) (eff ++ [Call n]))
| q_success q k out1 n out2 eff :
    qstep (QS q k (out1 ++ n :: out2) eff) (QS (node_success n q) k (out1 ++ out2) eff)
| q_failed q k out1 n out2 eff q' e :
    node_failed n q = Ret (q', e) ->
    qstep (QS q k (out1 ++ n :: out2) eff) (QS q' k (called e ++ out1 ++ out2) (eff ++ [e]))
| q_both q k out1 n out2 eff q' e :
    node_failed n (node_success n q) = Ret (q', e) ->
    qstep (QS q k (out1 ++ n :: out2) eff) (QS q' k (called e ++ out1 ++ out2) (eff ++ [e])).

Definition qinit (nodes : list slot) : qstate := QS (quorum_logic_new nodes) run_count [] [].

Definition reachable (nodes : list slot) (s : qstate) : Prop := rtc qstep (qinit nodes) s.

End Logic.

(** ** Counting invariant, for the replication factor the program uses *)

Definition calls (eff : list effect) : list slot := eff ≫= called.
Definition fail_calls (eff : list effect) : nat := length (filter (fun e => e = FailCall) eff).

Lemma calls_app a b : calls (a ++ b) = calls a ++ calls b.
Proof. unfold calls. by rewrite bind_app. Qed.

Lemma fail_calls_app a b : fail_calls (a ++ b) = (fail_calls a + fail_calls b)%nat.
Proof. unfold fail_calls. by rewrite filter_app, length_app. Qed.

Lemma fail_calls_one e : fail_calls [e] = (if decide (e = FailCall) then 1 else 0)%nat.
Proof. unfold fail_calls. rewrite filter_cons. by case_decide. Qed.

(** [retries] is the number of calls made by [node_failed]; [both] are the nodes whose reply
    was counted as a success and as a failure, [won] and [lost] the others. *)
Record qinv (nodes : list slot) (s : qstate) : Prop := {
  qi_nodes : _all_nodes (logic s) = nodes;
  qi_retry : exists retries : nat,
    _lastNode (logic s) = 2 - Z.of_nat (loop_left s) + Z.of_nat retries /\
    (loop_left s <= 2)%nat /\ (retries <= 1)%nat /\
    (fail_calls (effects s) + retries = length (_failed_nodes (logic s)))%nat;
  qi_calls : calls (effects s) = take (Z.to_nat (_lastNode (logic s))) nodes;
  qi_replies : exists both won lost,
    _success_nodes (logic s) ≡ₚ both ++ won /\ _failed_nodes (logic s) ≡ₚ both ++ lost /\
    calls (effects s) ≡ₚ both ++ won ++ lost ++ outstanding s /\
    Z.of_nat (length both + length won + length lost + length (outstanding s)) = _lastNode (logic s)
}.

Lemma can_continue_3 q : 0 <= _lastNode q <= 3 -> (length (_failed_nodes q) <= 3)%nat ->
  can_continue 3 q = true <-> (length (_failed_nodes q) <= 1)%nat /\ _lastNode q <= 1.
Proof.
  intros Hl Hf. unfold can_continue. rewrite andb_true_iff, !Z.ltb_lt.
  rewrite !wrap_small by (unfold in_width; lia). change (3 / 2) with 1. lia.
Qed.

Lemma call_next_ok q nodes : _all_nodes q = nodes -> 0 <= _lastNode q < Z.of_nat (length nodes) ->
  exists n, nodes !! Z.to_nat (_lastNode q) = Some n /\
    call_next q = Ret (QL nodes (_success_nodes q) (_failed_nodes q) (_lastNode q + 1), Call n).
Proof.
  intros <- Hl. unfold call_next.
  destruct (lookup_lt_is_Some_2 (_all_nodes q) (Z.to_nat (_lastNode q))) as [n Hn]; [lia|].
  exists n. by rewrite Hn.
Qed.

Lemma take_next {A} (l : list A) z x : 0 <= z -> l !! Z.to_nat z = Some x ->
  take (Z.to_nat (z + 1)) l = take (Z.to_nat z) l ++ [x].
Proof. intros Hz H. replace (Z.to_nat (z + 1)) with (S (Z.to_nat z)) by lia. by apply take_S_r. Qed.

Lemma qinit_inv nodes : qinv nodes (qinit 3 nodes).
Proof.
  unfold qinit. change (run_count 3) with 2%nat. split; simpl; try done.
  - exists 0%nat. cbn. split_and!; lia.
  - by exists [], [], [].
Qed.

Lemma qinv_lengths nodes s : qinv nodes s -> exists both : nat,
  Z.of_nat (length (_success_nodes (logic s)) + length (_failed_nodes (logic s)) + length (outstanding s)) =
    _lastNode (logic s) + Z.of_nat both /\
  (both <= length (_success_nodes (logic s)))%nat /\ (both <= length (_failed_nodes (logic s)))%nat /\
  (both <> 0%nat -> exists n, n ∈ _success_nodes (logic s) /\ n ∈ _failed_nodes (logic s)).
Proof.
  intros [_ _ _ (b & w & l & Hs & Hf & _ & Hc)]. exists (length b).
  pose proof (Permutation_length Hs) as Ls. pose proof (Permutation_length Hf) as Lf. rewrite length_app in Ls, Lf.
  split_and!; [lia..|]. intros Hb. destruct b as [|n b]; [done|]. exists n. rewrite Hs, Hf. split; by left.
Qed.

(** A reply of failure: what [node_failed] does in the states that occur. *)
Lemma node_failed_spec nodes q n : length nodes = 3%nat -> _all_nodes q = nodes ->
  0 <= _lastNode q <= 3 -> (length (_failed_nodes q) <= 2)%nat ->
  exists e, node_failed 3 n q =
      Ret (QL nodes (_success_nodes q) (_failed_nodes q ++ [n]) (_lastNode q + Z.of_nat (length (called e))), e) /\
    ((e = FailCall /\ (_failed_nodes q <> [] \/ 2 <= _lastNode q)) \/
     (exists m, e = Call m /\ nodes !! Z.to_nat (_lastNode q) = Some m /\
        _failed_nodes q = [] /\ _lastNode q <= 1)).
Proof.
  intros Hlen <- Hl Hf. unfold node_failed.
  set (q1 := QL (_all_nodes q) (_success_nodes q) (_failed_nodes q ++ [n]) (_lastNode q)).
  pose proof (can_continue_3 q1 Hl) as Hc. unfold q1 in Hc at 1; simpl in Hc.
  rewrite length_app in Hc. simpl in Hc. specialize (Hc ltac:(lia)).
  destruct (can_continue 3 q1) eqn:E.
  - destruct (proj1 Hc eq_refl) as [Hf1 Hl1]. simpl in Hf1, Hl1.
    destruct (call_next_ok q1 (_all_nodes q)) as (m & Hm & ->); [done|simpl; lia|].
    exists (Call m). split; [done|]. right. exists m. split_and!; [done..| |done].
    destruct (_failed_nodes q); [done|simpl in Hf1; lia].
  - exists FailCall. simpl. rewrite Z.add_0_r. split; [done|]. left. split; [done|].
    destruct (_failed_nodes q); [|by left]. right.
    destruct (decide (2 <= _lastNode q)); [done|]. exfalso.
    assert (false = true) by (apply Hc; simpl; lia). done.
Qed.

(** The effect of a failure on the calls and the counters. *)
Lemma failed_inv nodes q k out eff n q' e x : length nodes = 3%nat -> _all_nodes q = nodes ->
  _lastNode q = 2 - Z.of_nat k + Z.of_nat x -> (k <= 2)%nat -> (x <= 1)%nat ->
  (fail_calls eff + x = length (_failed_nodes q))%nat -> calls eff = take (Z.to_nat (_lastNode q)) nodes ->
  (length (_failed_nodes q) <= 2)%nat -> node_failed 3 n q = Ret (q', e) ->
  _all_nodes q' = nodes /\ _success_nodes q' = _success_nodes q /\ _failed_nodes q' = _failed_nodes q ++ [n] /\
  (exists y : nat, _lastNode q' = 2 - Z.of_nat k + Z.of_nat y /\ (y <= 1)%nat /\
     (fail_calls (eff ++ [e]) + y = length (_failed_nodes q'))%nat) /\
  calls (eff ++ [e]) = take (Z.to_nat (_lastNode q')) nodes /\
  length (called e ++ out) = (length (called e) + length out)%nat /\
  _lastNode q' = _lastNode q + Z.of_nat (length (called e)) /\ calls (eff ++ [e]) = calls eff ++ called e.
Proof.
  intros Hlen Hn Hl Hk Hx Hfc Hc Hf2 E. destruct (node_failed_spec nodes q n Hlen Hn) as (e' & E' & He); [lia|lia|].
  rewrite E' in E. injection E as <- <-. simpl. split_and!; [done..| | |by rewrite length_app|done|].
  - destruct He as [[-> _]|(m & -> & _ & Hf0 & Hl1)].
    + exists x. rewrite fail_calls_app, fail_calls_one, decide_True, length_app by done. simpl. split_and!; lia.
    + rewrite Hf0 in *. simpl in Hfc. exists (S x). rewrite fail_calls_app, fail_calls_one, decide_False by done. simpl. split_and!; lia.
  - rewrite calls_app, Hc. destruct He as [[-> _]|(m & -> & Hm & _)].
    + cbn. by rewrite Z.add_0_r, app_nil_r.
    + rewrite take_next with (x := m) by (done || lia). done.
  - rewrite calls_app. f_equal. cbn. by rewrite app_nil_r.
Qed.

Lemma qstep_inv nodes s s' : length nodes = 3%nat -> qstep 3 s s' -> qinv nodes s -> qinv nodes s'.
Proof.
  intros Hlen Hst I. destruct (qinv_lengths _ _ I) as (nb & Hcnt & Hb1 & Hb2 & _).
  destruct I as [Hn (x & Hlast & Hk & Hx & Hfc) Hcalls (b & w & l & Hs & Hf & Hp & Hlens)].
  pose proof (Permutation_length Hs) as Ls. pose proof (Permutation_length Hf) as Lf. rewrite length_app in Ls, Lf.
  destruct Hst as [q k out eff q' n Hc|q k out1 n out2 eff|q k out1 n out2 eff q' e Hfl|q k out1 n out2 eff q' e Hfl];
    simpl in *; rewrite ?length_app in *; simpl in *.
  - destruct (call_next_ok q nodes Hn) as (m & Hm & E); [lia|]. rewrite E in Hc. simplify_eq. split; simpl; try done.
    + exists x. rewrite fail_calls_app, fail_calls_one, decide_False by done. split_and!; lia.
    + rewrite calls_app, Hcalls, take_next with (x := n) by (done || lia). done.
    + exists b, w, l. split_and!; [done..| |lia]. rewrite calls_app, Hp. cbn. solve_Permutation.
  - split; simpl; try done; [by exists x|]. exists b, (w ++ [n]), l. split_and!; [|done|..].
    + rewrite Hs. by rewrite app_assoc.
    + rewrite Hp. solve_Permutation.
    + rewrite !length_app. simpl. lia.
  - destruct (failed_inv nodes q k (out1 ++ out2) eff n q' e x) as (E1 & E2 & E3 & (y & Hy) & E5 & E6 & E7 & E8); [done..|lia|done|].
    split; simpl; [done|exists y; naive_solver lia|done|]. exists b, w, (l ++ [n]). rewrite E2, E3, E6, E7. split_and!; [done| |..].
    + rewrite Hf. by rewrite app_assoc.
    + rewrite E8, Hp. solve_Permutation.
    + rewrite !length_app. simpl. lia.
  - destruct (failed_inv nodes (node_success n q) k (out1 ++ out2) eff n q' e x) as (E1 & E2 & E3 & (y & Hy) & E5 & E6 & E7 & E8);
      [done..|simpl; lia|done|].
    split; simpl; [done|exists y; naive_solver lia|done|]. exists (n :: b), w, l. rewrite E2, E3, E6, E7. simpl. split_and!.
    + rewrite Hs. solve_Permutation.
    + rewrite Hf. solve_Permutation.
    + rewrite E8, Hp. solve_Permutation.
    + rewrite !length_app. simpl. lia.
Qed.

Lemma reachable_inv nodes s : length nodes = 3%nat -> reachable 3 nodes s -> qinv nodes s.
Proof.
  intros Hlen. unfold reachable. generalize (qinit_inv nodes). generalize (qinit 3 nodes).
  intros s0 H0 Hr. induction Hr; [done|]. eauto using qstep_inv.
Qed.

Lemma fail_call_in eff : FailCall ∈ eff <-> (1 <= fail_calls eff)%nat.
Proof.
  induction eff as [|e eff IH]; [split; [by intros ?%not_elem_of_nil|unfold fail_calls; simpl; lia]|].
  change (e :: eff) with ([e] ++ eff). rewrite fail_calls_app, fail_calls_one, elem_of_app, IH, list_elem_of_singleton.
  case_decide; naive_solver lia.
Qed.

(** What is left to do; every step decreases it. *)
Definition remaining (s : qstate) : Z := 2 * (3 - _lastNode (logic s)) + Z.of_nat (length (outstanding s)).

Lemma qstep_remaining nodes s s' : length nodes = 3%nat -> qinv nodes s -> qstep 3 s s' ->
  remaining s' < remaining s.
Proof.
  intros Hlen I Hst. pose proof (qi_retry _ _ I) as (x & Hl & Hk & Hx & Hf). destruct (qi_replies _ _ I) as (b & w & l & Hs & Hfl & _ & Hc).
  pose proof (Permutation_length Hfl) as Lf. rewrite length_app in Lf.
  pose proof (qi_nodes _ _ I) as Hn. unfold remaining.
  assert (forall q n q' e, _all_nodes q = nodes -> 0 <= _lastNode q <= 3 -> (length (_failed_nodes q) <= 2)%nat ->
    node_failed 3 n q = Ret (q', e) -> _lastNode q' = _lastNode q + Z.of_nat (length (called e))) as Hstep.
  { intros q n q' e H1 H2 H3 E. destruct (node_failed_spec nodes q n Hlen H1 H2 H3) as (e' & E' & _).
    rewrite E' in E. by injection E as <- <-. }
  destruct Hst as [q k out eff q' n Hcn|q k out1 n out2 eff|q k out1 n out2 eff q' e E|q k out1 n out2 eff q' e E]; simpl in *.
  - destruct (call_next_ok q nodes Hn) as (m & Hm & E); [lia|]. rewrite E in Hcn. simplify_eq/=. lia.
  - rewrite !length_app in *. simpl. lia.
  - rewrite !length_app in *. simpl in *. apply Hstep in E; [|done|lia|lia]. rewrite E. destruct e; simpl; lia.
  - rewrite !length_app in *. simpl in *. apply Hstep in E; [|done|simpl; lia|simpl; lia]. rewrite E. destruct e; simpl; lia.
Qed.

Lemma nsteps_remaining nodes k s s' : length nodes = 3%nat -> qinv nodes s -> nsteps (qstep 3) k s s' ->
  Z.of_nat k + remaining s' <= remaining s.
Proof.
  intros Hlen I Hst. induction Hst as [|k s s1 s' H1 H2 IH]; [lia|].
  pose proof (qstep_remaining nodes s s1 Hlen I H1). specialize (IH (qstep_inv _ _ _ Hlen H1 I)). lia.
Qed.

Lemma success_called nodes s : qinv nodes s -> _success_nodes (logic s) ⊆ nodes.
Proof.
  intros I n Hn. destruct (qi_replies _ _ I) as (b & w & l & Hs & _ & Hp & _).
  assert (n ∈ calls (effects s)) as Hc by (rewrite Hp; rewrite Hs in Hn; set_solver).
  rewrite (qi_calls _ _ I) in Hc. revert Hc. apply sublist_subseteq, sublist_take.
Qed.

Lemma success_NoDup nodes s : qinv nodes s -> NoDup nodes -> NoDup (_success_nodes (logic s)).
Proof.
  intros I Hnd. assert (NoDup (calls (effects s))) as H.
  { rewrite (qi_calls _ _ I). eapply sublist_NoDup; [done|]. apply sublist_take. }
  destruct (qi_replies _ _ I) as (b & w & l & Hs & _ & Hp & _). rewrite Hp, app_assoc in H. rewrite Hs.
  by apply NoDup_app in H as [? _].
Qed.

(** ** Properties *)

(** C2. Every quorum operation ends, within six steps, with a verdict, in every
    interleaving of the calls and the replies: when no reply is outstanding, a quorum of
    nodes has succeeded or the failure function was called. Both can only happen when the
    reply of some node was counted as a success and then, because its clock could not be
    used, as a failure; without such a reply the verdict is one of the two. *)
Theorem quorum_verdict nodes s k :
  length nodes = 3%nat -> nsteps (qstep 3) k (qinit 3 nodes) s ->
  (k <= 6)%nat /\
  (operation_succeeded 3 (logic s) = true -> FailCall ∈ effects s ->
     exists n, n ∈ successful_nodes (logic s) /\ n ∈ _failed_nodes (logic s)) /\
  (loop_left s = 0%nat -> outstanding s = [] ->
     operation_succeeded 3 (logic s) = true \/ FailCall ∈ effects s).
Proof.
  intros Hlen Hst. assert (qinv nodes s) as I by (apply reachable_inv; [done|by eapply rtc_nsteps_2]).
  pose proof (nsteps_remaining nodes k _ _ Hlen (qinit_inv nodes) Hst) as Hr.
  destruct (qi_retry _ _ I) as (x & Hl & Hk & Hx & Hf). destruct (qinv_lengths _ _ I) as (b & Hcnt & Hb1 & Hb2 & Hboth).
  unfold operation_succeeded, successful_nodes. rewrite fail_call_in, Z.ltb_lt. change (3 / 2) with 1.
  unfold remaining in Hr. simpl in Hr. split_and!; [lia|intros Hs Hfc; apply Hboth; lia|].
  intros H0 Ho. rewrite H0, Ho in *. simpl in *. lia.
Qed.

(** C13. Two quorum operations over the same three different replicas that both
    succeed have a replica in common, whatever the order the replicas were tried
    in: what the first stored, the second reaches. *)
Theorem quorum_intersection nodes1 nodes2 s1 s2 :
  length nodes1 = 3%nat -> NoDup nodes1 -> nodes1 ≡ₚ nodes2 ->
  reachable 3 nodes1 s1 -> reachable 3 nodes2 s2 ->
  operation_succeeded 3 (logic s1) = true -> operation_succeeded 3 (logic s2) = true ->
  exists n, n ∈ successful_nodes (logic s1) /\ n ∈ successful_nodes (logic s2).
Proof.
  intros Hlen Hnd Hp R1 R2 O1 O2.
  assert (length nodes2 = 3%nat) as Hlen2 by (by rewrite <- (Permutation_length Hp)).
  pose proof (reachable_inv _ _ Hlen R1) as I1. pose proof (reachable_inv _ _ Hlen2 R2) as I2.
  unfold operation_succeeded in *. apply Z.ltb_lt in O1, O2. change (3 / 2) with 1 in *.
  unfold successful_nodes. set (a := _success_nodes (logic s1)) in *. set (b := _success_nodes (logic s2)) in *.
  destruct (decide (Exists (fun n => n ∈ b) a)) as [(n & Ha & Hb)%Exists_exists|Hno]; [eauto|]. exfalso.
  apply not_Exists_Forall in Hno; [|apply _]. rewrite Forall_forall in Hno.
  assert (NoDup (a ++ b)) as Hab.
  { apply NoDup_app. split_and!; [by eapply success_NoDup|auto|]. eapply success_NoDup; [done|by rewrite <- Hp]. }
  assert (a ++ b ⊆+ nodes1) as Hsub.
  { apply NoDup_submseteq; [done|]. intros n. rewrite elem_of_app. intros [H|H].
    - by apply (success_called _ _ I1).
    - apply (success_called _ _ I2) in H. by rewrite Hp. }
  apply submseteq_length in Hsub. rewrite length_app in Hsub. lia.
Qed.

(** The logic never reads past the three slots: in every reachable state the
    next call of [run] and the reaction to a failure are defined, and the slots
    called so far are an initial segment, each called once. *)
Theorem quorum_calls_defined nodes s :
  length nodes = 3%nat -> reachable 3 nodes s ->
  (forall k, loop_left s = S k -> exists q n, call_next (logic s) = Ret (q, Call n)) /\
  (forall n, n ∈ outstanding s -> (exists r, node_failed 3 n (logic s) = Ret r) /\
     exists r, node_failed 3 n (node_success n (logic s)) = Ret r) /\
  (exists k, (k <= 3)%nat /\ calls (effects s) = take k nodes).
Proof.
  intros Hlen R. pose proof (reachable_inv _ _ Hlen R) as I.
  destruct (qi_retry _ _ I) as (x & Hl & Hk & Hx & Hf). destruct (qinv_lengths _ _ I) as (nb & Hcnt & Hb1 & _). split_and!.
  - intros k E. destruct (call_next_ok (logic s) nodes) as (n & _ & ->); [apply I|lia|]. eauto.
  - intros n Hn. assert (1 <= length (outstanding s))%nat by (destruct (outstanding s); [by apply not_elem_of_nil in Hn|simpl; lia]).
    split.
    + destruct (node_failed_spec nodes (logic s) n Hlen) as (e & -> & _); [apply I|lia|lia|]. eauto.
    + destruct (node_failed_spec nodes (node_success n (logic s)) n Hlen) as (e & -> & _); [apply I|simpl; lia|simpl; lia|]. eauto.
  - exists (Z.to_nat (_lastNode (logic s))). split; [lia|apply I].
Qed.

(** The state when [run] has returned before any reply arrived. *)
Definition started (a b c : slot) : qstate := QS (QL [a; b; c] [] [] 2) 0 [b; a] [Call a; Call b].

Lemma started_reachable a b c : nsteps (qstep 3) 2 (qinit 3 [a; b; c]) (started a b c).
Proof. repeat econstructor. Qed.

(** A backup node is never tried for asynchronous replies: once [run] has
    sent to two nodes, a failure is reported at once, and again for a second
    failure, while the third node is never called. (The comment of [can_continue]
    and of [find_quorum_for_operation] promise the backup.) *)
Theorem quorum_no_backup a b c s :
  rtc (qstep 3) (started a b c) s ->
  calls (effects s) = [a; b] /\ fail_calls (effects s) = length (_failed_nodes (logic s)).
Proof.
  intros R. assert (qinv [a; b; c] s /\ _lastNode (logic s) = 2 /\ loop_left s = 0%nat) as (I & Hl & Hk).
  { remember (started a b c) as s0 eqn:E0.
    assert (qinv [a; b; c] s0 /\ _lastNode (logic s0) = 2 /\ loop_left s0 = 0%nat) as H0.
    { subst. split; [|done]. apply reachable_inv; [done|]. eapply rtc_nsteps_2, started_reachable. }
    clear E0. induction R as [s0|s0 s1 s H1 _ IH]; [done|]. apply IH. destruct H0 as (I & Hl & Hk).
    split; [by eapply qstep_inv|]. destruct (qinv_lengths _ _ I) as (nb & Hc & Hb1 & _).
    assert (forall q n q' e, _all_nodes q = [a; b; c] -> _lastNode q = 2 -> (length (_failed_nodes q) <= 2)%nat ->
      node_failed 3 n q = Ret (q', e) -> _lastNode q' = 2) as Hstep.
    { intros q n q' e H2 H3 H4 E. destruct (node_failed_spec [a; b; c] q n) as (e' & E' & He); [done|done|lia|done|].
      rewrite E' in E. injection E as <- <-. simpl. destruct He as [[-> _]|(m & _ & _ & _ & ?)]; [simpl|]; lia. }
    pose proof (qi_nodes _ _ I) as Hn.
    destruct H1 as [| |q k out1 n out2 eff q' e Hf|q k out1 n out2 eff q' e Hf]; simpl in *; [done|done|..];
      rewrite length_app in Hc; simpl in Hc; (split; [|done]); eapply Hstep; [..|exact Hf]; simpl; (done || lia). }
  rewrite (qi_calls _ _ I), Hl. destruct (qi_retry _ _ I) as (x & Hx & _ & _ & Hf).
  split; [done|]. rewrite Hl, Hk in Hx. simpl in Hx. lia.
Qed.

(** ** Concrete executions *)

Definition n1 : slot := Some 1%nat.
Definition n2 : slot := Some 2%nat.
Definition n3 : slot := Some 3%nat.

(** The first node fails before [run] goes on; the backup and the last node succeed. *)
Definition recovered : qstate :=
  QS (QL [n1; n2; n3] [n2; n3] [n1] 3) 0 [] [Call n1; Call n2; Call n3].

Lemma recovered_steps : nsteps (qstep 3) 5 (qinit 3 [n1; n2; n3]) recovered.
Proof.
  change (qinit 3 [n1; n2; n3]) with (QS (quorum_logic_new [n1; n2; n3]) 2 [] []).
  eapply nsteps_l; [by apply q_run|]. eapply nsteps_l; [by apply (q_failed 3 _ _ [] n1 [])|].
  eapply nsteps_l; [by apply (q_success 3 _ _ [] n2 [])|]. eapply nsteps_l; [by apply q_run|].
  eapply nsteps_l; [by apply (q_success 3 _ _ [] n3 [])|]. apply nsteps_O.
Qed.

Definition agreed : qstate := QS (QL [n3; n1; n2] [n3; n1] [] 2) 0 [] [Call n3; Call n1].

Lemma agreed_steps : nsteps (qstep 3) 4 (qinit 3 [n3; n1; n2]) agreed.
Proof.
  eapply (nsteps_trans 2 2); [apply started_reachable|].
  eapply nsteps_l; [by apply (q_success 3 _ _ [n1] n3 [])|].
  eapply nsteps_l; [by apply (q_success 3 _ _ [] n1 [])|]. apply nsteps_O.
Qed.

(** Both verdicts do occur: two nodes have queued the message, and the clocks of the second
    cannot be merged, so the operation has succeeded and the client is sent a failure. *)
Definition contradicted : qstate := QS (QL [n1; n2; n3] [n1; n2] [n2] 2) 0 [] [Call n1; Call n2; FailCall].

Lemma contradicted_steps : nsteps (qstep 3) 4 (qinit 3 [n1; n2; n3]) contradicted.
Proof.
  eapply (nsteps_trans 2 2); [apply started_reachable|].
  eapply nsteps_l; [by apply (q_success 3 _ _ [n2] n1 [])|].
  eapply nsteps_l; [by apply (q_both 3 _ _ [] n2 [])|]. apply nsteps_O.
Qed.

Lemma both_verdicts : operation_succeeded 3 (logic contradicted) = true /\ FailCall ∈ effects contradicted.
Proof. split; [done|]. by apply (bool_decide_unpack _). Qed.

Lemma quorum_verdict_witness : operation_succeeded 3 (logic recovered) = true \/ FailCall ∈ effects recovered.
Proof.
  apply (quorum_verdict [n1; n2; n3] recovered 5 eq_refl recovered_steps); reflexivity.
Defined.

Lemma quorum_intersection_witness :
  exists n, n ∈ successful_nodes (logic recovered) /\ n ∈ successful_nodes (logic agreed).
Proof.
  apply (quorum_intersection [n1; n2; n3] [n3; n1; n2] recovered agreed).
  - reflexivity.
  - apply (bool_decide_unpack _). by vm_compute.
  - solve_Permutation.
  - eapply rtc_nsteps_2, recovered_steps.
  - eapply rtc_nsteps_2, agreed_steps.
  - reflexivity.
  - reflexivity.
Defined.

Lemma quorum_calls_defined_witness : exists k, (k <= 3)%nat /\ calls (effects recovered) = take k [n1; n2; n3].
Proof.
  apply (quorum_calls_defined [n1; n2; n3] recovered eq_refl). eapply rtc_nsteps_2, recovered_steps.
Defined.

Lemma quorum_no_backup_witness : calls (effects (started n1 n2 n3)) = [n1; n2].
Proof. apply (quorum_no_backup n1 n2 n3 (started n1 n2 n3)). apply rtc_refl. Defined.

End Quorum.
