(* ===== verification/Messages.v ===== *)
(** * Messages and results

    The messages of [messages/*.proto] as records, the message type numbers of
    [messages/cpp/message_types.h], [shared/src/network_operation_result.h] and [.cpp],
    [shared/src/responses.h], [messageutil::make_message], and the byte and uuid
    helpers of [shared/src/util.cpp]. An enumeration field that was never set
    reads as its first value. *)

From Stdlib Require Import ZArith Lia Ascii String.
From stdpp Require Import base list gmap strings.
From S2P Require Import Prelude Clocks MessageQueue.

Local Open Scope Z_scope.
Local Open Scope sopmq_scope.

Module Messages.
Abbreviation bytes := MessageQueue.bytes.
Abbreviation uuid := MessageQueue.uuid.

(** ** Protocol messages *)

Record Identifier := Ident { id : Z; in_reply_to : Z }.

Inductive ProxyPublishResponse_Status := PPR_NOTAUTH | PPR_NOTHERE | PPR_QUEUED.
Inductive PublishResponse_Status := PR_PIPED | PR_STORED | PR_DROPPED | PR_NOTAUTH | PR_UNAVAILABLE.
Inductive GetChallenge_Type := GC_CLIENT | GC_SERVER.
Inductive ConsumeResponse_Status := CR_OK | CR_NOTAUTH | CR_UNAVAILABLE.
Inductive DownloadType := DT_NONE | DT_CLAIMSTORED | DT_PEEKSTORED.
Inductive InterceptType := IT_PEEK | IT_CLAIM.

Record PublishMessage := Publish_ {
  pub_identity : Identifier;
  message_id : bytes;
  queue_id : bytes;
  flags : option Z;
  ttl : Z;
  content : bytes
}.

Inductive message :=
| GetChallengeMessage (identity : Identifier) (type : GetChallenge_Type)
| ChallengeResponseMessage (identity : Identifier) (challenge : bytes)
| AnswerChallengeMessage (identity : Identifier) (uname_hash challenge_response : bytes)
| AuthAckMessage (identity : Identifier) (authorized : bool)
| PublishMsg (m : PublishMessage)
| PublishResponseMessage (identity : Identifier) (status : PublishResponse_Status)
| ConsumeFromQueueMessage (identity : Identifier) (queue_id : bytes) (download_type : DownloadType)
    (max_lookback_days : option Z) (intercept_type : InterceptType)
| ConsumeResponseMessage (identity : Identifier) (status : ConsumeResponse_Status)
| GossipMessage (identity : Identifier) (data : list NodeClock.NodeClock_pb)
| ProxyPublishMessage (identity : Identifier) (client_message : PublishMessage)
| ProxyPublishResponseMessage (identity : Identifier) (status : ProxyPublishResponse_Status)
    (clock : list NodeClock.NodeClock_pb)
| StampMessage (identity : Identifier) (message_id : bytes) (clock : list NodeClock.NodeClock_pb).

#[global] Instance ProxyPublishResponse_Status_eq_dec : EqDecision ProxyPublishResponse_Status.
Proof. solve_decision. Defined.
#[global] Instance PublishResponse_Status_eq_dec : EqDecision PublishResponse_Status.
Proof. solve_decision. Defined.
#[global] Instance GetChallenge_Type_eq_dec : EqDecision GetChallenge_Type.
Proof. solve_decision. Defined.
#[global] Instance ConsumeResponse_Status_eq_dec : EqDecision ConsumeResponse_Status.
Proof. solve_decision. Defined.
#[global] Instance DownloadType_eq_dec : EqDecision DownloadType.
Proof. solve_decision. Defined.
#[global] Instance InterceptType_eq_dec : EqDecision InterceptType.
Proof. solve_decision. Defined.
#[global] Instance Identifier_eq_dec : EqDecision Identifier.
Proof. solve_decision. Defined.
#[global] Instance PublishMessage_eq_dec : EqDecision PublishMessage.
Proof. solve_decision. Defined.
#[global] Instance NodeClock_pb_eq_dec : EqDecision NodeClock.NodeClock_pb.
Proof. solve_decision. Defined.
#[global] Instance message_eq_dec : EqDecision message.
Proof. solve_decision. Defined.

Definition identity (m : message) : Identifier :=
  match m with
  | GetChallengeMessage i _ | ChallengeResponseMessage i _ | AnswerChallengeMessage i _ _
  | AuthAckMessage i _ | PublishResponseMessage i _ | ConsumeFromQueueMessage i _ _ _ _
  | ConsumeResponseMessage i _ | GossipMessage i _ | ProxyPublishMessage i _
  | ProxyPublishResponseMessage i _ _ | StampMessage i _ _ => i
  | PublishMsg p => pub_identity p
  end.

(** ** Message types *)

Inductive message_type :=
| MT_GET_CHALLENGE | MT_CHALLENGE_RESPONSE | MT_ANSWER_CHALLENGE | MT_AUTH_ACK
| MT_PUBLISH | MT_PUBLISH_RESPONSE | MT_CONSUME_FROM_QUEUE | MT_CONSUME_RESPONSE
| MT_GOSSIP | MT_PROXY_PUBLISH | MT_PROXY_PUBLISH_RESPONSE | MT_STAMP.

#[global] Instance message_type_eq_dec : EqDecision message_type.
Proof. solve_decision. Defined.

Definition MT_INVALID : Z := 0.
Definition MT_INVALID_OUT_OF_RANGE : Z := 13.

(** The enumeration in the order of its values, from 1. *)
Definition message_types : list message_type :=
  [MT_GET_CHALLENGE; MT_CHALLENGE_RESPONSE; MT_ANSWER_CHALLENGE; MT_AUTH_ACK; MT_PUBLISH;
   MT_PUBLISH_RESPONSE; MT_CONSUME_FROM_QUEUE; MT_CONSUME_RESPONSE; MT_GOSSIP; MT_PROXY_PUBLISH;
   MT_PROXY_PUBLISH_RESPONSE; MT_STAMP].

Definition mt_value (t : message_type) : Z :=
  match t with
  | MT_GET_CHALLENGE => 1 | MT_CHALLENGE_RESPONSE => 2 | MT_ANSWER_CHALLENGE => 3 | MT_AUTH_ACK => 4
  | MT_PUBLISH => 5 | MT_PUBLISH_RESPONSE => 6 | MT_CONSUME_FROM_QUEUE => 7 | MT_CONSUME_RESPONSE => 8
  | MT_GOSSIP => 9 | MT_PROXY_PUBLISH => 10 | MT_PROXY_PUBLISH_RESPONSE => 11 | MT_STAMP => 12
  end.

Definition mt_of_value (z : Z) : option message_type := message_types !! Z.to_nat (z - 1).

Definition type_of (m : message) : message_type :=
  match m with
  | GetChallengeMessage _ _ => MT_GET_CHALLENGE
  | ChallengeResponseMessage _ _ => MT_CHALLENGE_RESPONSE
  | AnswerChallengeMessage _ _ _ => MT_ANSWER_CHALLENGE
  | AuthAckMessage _ _ => MT_AUTH_ACK
  | PublishMsg _ => MT_PUBLISH
  | PublishResponseMessage _ _ => MT_PUBLISH_RESPONSE
  | ConsumeFromQueueMessage _ _ _ _ _ => MT_CONSUME_FROM_QUEUE
  | ConsumeResponseMessage _ _ => MT_CONSUME_RESPONSE
  | GossipMessage _ _ => MT_GOSSIP
  | ProxyPublishMessage _ _ => MT_PROXY_PUBLISH
  | ProxyPublishResponseMessage _ _ _ => MT_PROXY_PUBLISH_RESPONSE
  | StampMessage _ _ _ => MT_STAMP
  end.

Lemma mt_of_value_of t : mt_of_value (mt_value t) = Some t.
Proof. by destruct t. Qed.

Lemma mt_value_range t : MT_INVALID < mt_value t < MT_INVALID_OUT_OF_RANGE.
Proof. destruct t; done. Qed.

Lemma mt_of_value_valid z : MT_INVALID < z < MT_INVALID_OUT_OF_RANGE -> exists t, mt_of_value z = Some t.
Proof. unfold MT_INVALID, MT_INVALID_OUT_OF_RANGE. intros H. apply lookup_lt_is_Some. simpl. lia. Qed.

(** [messageutil::build_id] *)
Definition build_id (i inReplyTo : Z) : Identifier := Ident i inReplyTo.

(** ** Results of network operations *)

Inductive error_type := ET_NONE | ET_TIMEOUT | ET_NETWORK | ET_PARSE | ET_INVALID_TYPE | ET_TOO_LARGE.

#[global] Instance error_type_eq_dec : EqDecision error_type.
Proof. solve_decision. Defined.

(** The [network_error] member is its text. *)
Record network_operation_result := NOR { _et : error_type; _error : string }.

#[global] Instance network_operation_result_eq_dec : EqDecision network_operation_result.
Proof. solve_decision. Defined.

Definition success : network_operation_result := NOR ET_NONE "".

(** A [boost] error code is its message. *)
Definition from_error_code (e : string) : network_operation_result := NOR ET_NETWORK e.
Definition from_error_code_info (info e : string) : network_operation_result := NOR ET_NETWORK (info ++ ": " ++ e).

Definition was_successful (r : network_operation_result) : bool := bool_decide (_et r = ET_NONE).
Definition get_error_type (r : network_operation_result) : error_type := _et r.
Definition get_error (r : network_operation_result) : string := _error r.

Definition rethrow (r : network_operation_result) : outcome unit :=
  match _et r with ET_NONE => Ret tt | _ => Throw (network_error (_error r)) end.

(** ** Results of operations between nodes *)

(** [operation_result]: a message, or a function that throws. *)
Inductive operation_result (A : Type) := OpMessage (m : A) | OpThrow (e : exn).
Arguments OpMessage {_} _.
Arguments OpThrow {_} _.

Definition rethrow_error {A} (r : operation_result A) : outcome unit :=
  match r with OpMessage _ => Ret tt | OpThrow e => Throw e end.

(** The response codes a client sees. *)
Inductive PublishMessageResponse :=
| PMR_MESSAGE_PIPED | PMR_MESSAGE_STORED | PMR_MESSAGE_DROPPED | PMR_NOT_AUTH | PMR_UNAVAILABLE | PMR_NETWORK_ERROR.

Definition pmr_value (r : PublishMessageResponse) : Z :=
  match r with
  | PMR_MESSAGE_PIPED => 1 | PMR_MESSAGE_STORED => 2 | PMR_MESSAGE_DROPPED => 3
  | PMR_NOT_AUTH => 4 | PMR_UNAVAILABLE => 5 | PMR_NETWORK_ERROR => 6
  end.

(** ** Uuids *)

Definition uuid_to_bytes (u : uuid) : bytes := u.

Definition uuid_from_bytes (b : bytes) : outcome uuid :=
  if (length b =? 16)%nat then Ret b
  else Throw (runtime_error "uuid_from_bytes(): input was not the correct size").

Lemma uuid_roundtrip u : length u = 16%nat -> uuid_from_bytes (uuid_to_bytes u) = Ret u.
Proof. intros H. unfold uuid_from_bytes, uuid_to_bytes. by destruct (Nat.eqb_spec (length u) 16). Qed.

(** ** Random bytes *)

(** [util::random_bytes]: [draw i] is what the distribution on the values of [char] gives
    the [i]-th time; a byte is its unsigned value. *)
Definition random_bytes (draw : nat -> Z) (count : Z) : bytes :=
  (fun i => wrap 8 (draw i)) <$> seq 0 (Z.to_nat count).

Lemma random_bytes_ok draw count : length (random_bytes draw count) = Z.to_nat count /\
  Forall (in_width 8) (random_bytes draw count).
Proof.
  unfold random_bytes. rewrite length_fmap, length_seq. split; [done|].
  apply Forall_fmap, Forall_forall. intros i _. by apply wrap_width.
Qed.

End Messages.
