(* ===== verification/Connection.v ===== *)
(** * Connections

    Models [shared/src/connection_base.h] and [.cpp]: what a connection into a node and a
    connection out of a client have in common. Name resolution and the network are
    parameters: what resolving a name gives, and how connecting to an address ends.
    Reading and writing messages on the socket is in [Wire] and [Transport]. *)

From Stdlib Require Import ZArith Lia Ascii String.
From stdpp Require Import base list gmap strings.
From S2P Require Import Prelude Clocks MessageQueue Endpoint Messages.

Local Open Scope Z_scope.
Local Open Scope sopmq_scope.

Module ConnectionBase.
Import Messages.
Abbreviation endpoint := Endpoint.endpoint.

(** The address of a peer as asio prints it, and its port. *)
Abbreviation address := (Endpoint.text * Z)%type.

(** [_socket] is the peer the socket is connected to. *)
Record connection_base := CB {
  _endpoint : endpoint;
  _socket : option address;
  _next_id : Z;
  _max_message_size : Z
}.

(** A connection to be made to [ep]. *)
Definition connection_base_new (ep : endpoint) (maxMessageSize : Z) : connection_base :=
  CB ep None 0 maxMessageSize.

(** A connection to be accepted. The default constructor of [endpoint] sets neither the
    port nor the protocol: [port0] and [proto0] are what the memory held. *)
Definition connection_base_accepting (port0 : Z) (proto0 : Endpoint.endpoint_proto) (maxMessageSize : Z) : connection_base :=
  CB (Endpoint.EP [] port0 proto0 []) None 0 maxMessageSize.

(** [++_next_id], 32 bits wide. *)
Definition get_next_id (c : connection_base) : Z * connection_base :=
  let i := u32 (_next_id c + 1) in (i, CB (_endpoint c) (_socket c) i (_max_message_size c)).

Definition set_socket (s : option address) (c : connection_base) : connection_base :=
  CB (_endpoint c) s (_next_id c) (_max_message_size c).

Definition close (c : connection_base) : connection_base := set_socket None c.

(** [remote_endpoint] throws a system error on a socket that is not connected. *)
Definition resolve_connected_endpoint (c : connection_base) : outcome connection_base :=
  match _socket c with
  | None => Throw (runtime_error "remote_endpoint: Transport endpoint is not connected")
  | Some (a, p) => Ret (CB (Endpoint.endpoint_of_host a p) (_socket c) (_next_id c) (_max_message_size c))
  end.

Section Connect.
(** The resolver's answer for a host and a port, an error or the addresses; and how
    connecting to an address ends, [None] for no error. *)
Context (resolve : Endpoint.text -> Z -> string + list address) (dial : address -> option string).

(** What the callback is told, and the connection then. *)
Definition after_connect (a : address) (err : option string) (c : connection_base)
    : network_operation_result * connection_base :=
  match err with
  | None => (success, set_socket (Some a) c)
  | Some e => (from_error_code_info "connect failed" e, c)
  end.

(** Only the first address is tried; a resolution without error has one, the past-the-end
    iterator is not dereferenced otherwise. *)
Definition after_resolve (res : string + list address) (c : connection_base)
    : outcome (network_operation_result * connection_base) :=
  match res with
  | inr (a :: _) => Ret (after_connect a (dial a) c)
  | inr [] => Undef
  | inl e => Ret (from_error_code_info "name resolution failed" e, c)
  end.

Definition connect (c : connection_base) : outcome (network_operation_result * connection_base) :=
  after_resolve (resolve (Endpoint.host_name (_endpoint c)) (Endpoint.port (_endpoint c))) c.

(** ** Properties *)

(** A connect attempt on a resolver that never reports an empty success always calls
    back, and says success exactly when the name resolved and its first address
    accepted the connection; only then is the socket connected, to that address. *)
Theorem connect_reports c :
  (forall h p, resolve h p <> inr []) ->
  exists r c', connect c = Ret (r, c') /\
    (was_successful r = true <-> exists a l,
       resolve (Endpoint.host_name (_endpoint c)) (Endpoint.port (_endpoint c)) = inr (a :: l) /\ dial a = None) /\
    (was_successful r = false -> c' = c) /\
    (was_successful r = true -> exists a, _socket c' = Some a /\ dial a = None /\
       exists c'', resolve_connected_endpoint c' = Ret c'' /\ Endpoint.host_name (_endpoint c'') = a.1 /\
         Endpoint.port (_endpoint c'') = a.2).
Proof.
  intros Hr. unfold connect. specialize (Hr (Endpoint.host_name (_endpoint c)) (Endpoint.port (_endpoint c))).
  destruct (resolve _ _) as [e|[|[h p] l]] eqn:E; [|done|].
  - eexists _, _. split; [done|]. split_and!; [|done|done]. split; [done|]. by intros (a & l & ? & _).
  - simpl. unfold after_connect. destruct (dial (h, p)) as [e|] eqn:Ed; eexists _, _; (split; [done|]); split_and!.
    + split; [done|]. intros (a & l' & [= <- <-] & H). congruence.
    + done.
    + done.
    + split; [|done]. intros _. eauto.
    + done.
    + intros _. exists (h, p). split_and!; [done|done|]. by eexists.
Qed.

End Connect.

(** ** Identifiers *)

(** The identifiers of the next [n] messages. *)
Fixpoint next_ids (n : nat) (c : connection_base) : list Z :=
  match n with
  | O => []
  | S n => let '(i, c) := get_next_id c in i :: next_ids n c
  end.

Lemma next_ids_lookup n c k : (k < n)%nat -> next_ids n c !! k = Some (u32 (_next_id c + 1 + Z.of_nat k)).
Proof.
  revert c k. induction n as [|n IH]; intros c [|k] Hk; [lia|lia| |].
  - simpl. do 2 f_equal. lia.
  - cbn [next_ids get_next_id lookup list_lookup]. rewrite IH by lia. cbn [_next_id]. f_equal.
    replace (u32 (_next_id c + 1) + 1 + Z.of_nat k) with (u32 (_next_id c + 1) + (1 + Z.of_nat k)) by lia.
    rewrite wrap_add_l. f_equal. lia.
Qed.

Lemma next_ids_length n c : length (next_ids n c) = n.
Proof. revert c. induction n as [|n IH]; intros c; simpl; [done|]. by rewrite IH. Qed.

(** C33. Request identifiers do not repeat: the first 2^32 identifiers of a connection are
    pairwise different 32-bit numbers, counting up from one, and none of the first
    2^32 - 1 is zero, the value that marks a message that is not a reply. *)
Theorem connection_ids_unique ep maxMessageSize n :
  Z.of_nat n <= 2 ^ 32 ->
  let ids := next_ids n (connection_base_new ep maxMessageSize) in
  length ids = n /\ NoDup ids /\ Forall (in_width 32) ids /\
  (Z.of_nat n < 2 ^ 32 -> ids = seqZ 1 (Z.of_nat n) /\ 0 ∉ ids).
Proof.
  intros Hn ids. pose proof (next_ids_length n (connection_base_new ep maxMessageSize)) as Hlen. fold ids in Hlen.
  assert (forall k, (k < n)%nat -> ids !! k = Some (u32 (1 + Z.of_nat k))) as Hk
    by (intros k ?; unfold ids; by rewrite next_ids_lookup by done).
  assert (forall k, (k < n)%nat -> Z.of_nat k + 1 < 2 ^ 32 -> u32 (1 + Z.of_nat k) = 1 + Z.of_nat k) as Hw
    by (intros k ? ?; apply wrap_small; unfold in_width; lia).
  assert (forall k, Z.of_nat k + 1 = 2 ^ 32 -> u32 (1 + Z.of_nat k) = 0) as Hz
    by (intros k Ek; replace (1 + Z.of_nat k) with (2 ^ 32) by lia; reflexivity).
  split_and!; [done| | |].
  - apply NoDup_alt. intros i j x Hi Hj. pose proof (lookup_lt_Some _ _ _ Hi). pose proof (lookup_lt_Some _ _ _ Hj).
    rewrite Hk in Hi by lia. rewrite Hk in Hj by lia. injection Hi as <-. injection Hj as Hj.
    destruct (decide (Z.of_nat i + 1 = 2 ^ 32)), (decide (Z.of_nat j + 1 = 2 ^ 32)); [lia|..];
      rewrite ?(Hw i), ?(Hw j), ?(Hz i), ?(Hz j) in Hj by lia; lia.
  - apply Forall_lookup. intros i x Hi. pose proof (lookup_lt_Some _ _ _ Hi). rewrite Hk in Hi by lia.
    simplify_eq. by apply wrap_width.
  - intros Hlt. assert (ids = seqZ 1 (Z.of_nat n)) as E.
    { apply list_eq. intros i. destruct (decide (i < n)%nat).
      - rewrite Hk, Hw by lia. symmetry. apply lookup_seqZ. lia.
      - rewrite !lookup_ge_None_2; [done|rewrite length_seqZ; lia|lia]. }
    split; [done|]. rewrite E, elem_of_seqZ. lia.
Qed.

Lemma connection_ids_unique_witness :
  NoDup (next_ids 3 (connection_base_new (Endpoint.endpoint_of_host [] 8481) 10485760)).
Proof. apply (connection_ids_unique (Endpoint.endpoint_of_host [] 8481) 10485760 3). lia. Defined.

End ConnectionBase.
