(* ===== verification/Dispatcher.v ===== *)
(** * The message dispatcher

    Models [shared/src/message_dispatcher.h] and [.cpp]. The twelve hash maps, one
    per message type, are a function of the type. Handlers are named by an
    arbitrary type [H]; an empty [std::function] is [None]. Calling a handler leaves
    the component: it is an invocation, with its arguments. *)

From Stdlib Require Import ZArith Lia Ascii String.
From stdpp Require Import base list gmap strings.
From S2P Require Import Prelude Clocks MessageQueue Messages.

Local Open Scope Z_scope.
Local Open Scope sopmq_scope.

Module Dispatcher.
Import Messages.

Section Dispatcher.
Context {H : Type}.

Abbreviation handler_map := (gmap Z (option H)).

Record message_dispatcher := MD {
  _unhandledHandler : option H;
  _handlers : message_type -> handler_map
}.

(** A call of a handler with a result and a message ([None] is a null pointer),
    or of the handler for messages nobody waits for. *)
Inductive invocation :=
| Handle (h : H) (r : network_operation_result) (m : option message)
| Unhandled (h : H) (m : message).

Definition message_dispatcher_new (unhandledHandler : option H) : message_dispatcher :=
  MD unhandledHandler (fun _ => ∅).

Definition set_unhandled_handler (h : option H) (d : message_dispatcher) : message_dispatcher :=
  MD h (_handlers d).

Definition update (t : message_type) (f : handler_map -> handler_map) (d : message_dispatcher) : message_dispatcher :=
  MD (_unhandledHandler d) (fun t' => if decide (t = t') then f (_handlers d t') else _handlers d t').

(** [set_handler(handler)]: the handler of messages that are not replies; an
    empty function removes it. *)
Definition set_handler (t : message_type) (handler : option H) (d : message_dispatcher) : message_dispatcher :=
  match handler with
  | Some h => update t (<[0 := Some h]>) d
  | None => update t (delete 0) d
  end.

(** [set_handler(handler, inReplyTo)]: the function is stored as it is. *)
Definition set_handler_reply (t : message_type) (handler : option H) (inReplyTo : Z) (d : message_dispatcher)
    : message_dispatcher :=
  update t (<[inReplyTo := handler]>) d.

Definition call (h : option H) (k : H -> invocation) : outcome invocation :=
  match h with Some h => Ret (k h) | None => Throw bad_function_call end.

(** [do_dispatch]; the second component is the map [h] after the call: it is a
    parameter passed by value. *)
Definition do_dispatch (d : message_dispatcher) (h : handler_map) (r : network_operation_result) (m : message)
    : outcome invocation * handler_map :=
  let i := in_reply_to (identity m) in
  match h !! i with
  | Some handler => (call handler (fun f => Handle f r (Some m)), if i =? 0 then h else delete i h)
  | None => (call (_unhandledHandler d) (fun f => Unhandled f m), h)
  end.

(** [dispatch]: the member map is copied into the parameter, so what [do_dispatch]
    erased from it is lost and the dispatcher is unchanged. *)
Definition dispatch (r : network_operation_result) (m : message) (d : message_dispatcher)
    : outcome invocation * message_dispatcher :=
  let '(i, _) := do_dispatch d (_handlers d (type_of m)) r m in (i, d).

(** The order of the loops of [cancel_all_with_error]. *)
Definition cancel_order : list message_type :=
  [MT_ANSWER_CHALLENGE; MT_AUTH_ACK; MT_CHALLENGE_RESPONSE; MT_CONSUME_FROM_QUEUE; MT_CONSUME_RESPONSE;
   MT_GET_CHALLENGE; MT_GOSSIP; MT_PROXY_PUBLISH; MT_PROXY_PUBLISH_RESPONSE; MT_PUBLISH;
   MT_PUBLISH_RESPONSE; MT_STAMP].

(** Every registered handler is called with the error and a null message. *)
Definition cancel_all_with_error (r : network_operation_result) (d : message_dispatcher) : list (outcome invocation) :=
  t ← cancel_order;
  (fun kv => call kv.2 (fun f => Handle f r None)) <$> map_to_list (_handlers d t).

(** ** Lemmas *)

Lemma handlers_update t f d t' :
  _handlers (update t f d) t' = if decide (t = t') then f (_handlers d t') else _handlers d t'.
Proof. reflexivity. Qed.

Lemma dispatch_spec r m d :
  (dispatch r m d).1 =
    match _handlers d (type_of m) !! in_reply_to (identity m) with
    | Some handler => call handler (fun f => Handle f r (Some m))
    | None => call (_unhandledHandler d) (fun f => Unhandled f m)
    end.
Proof.
  unfold dispatch, do_dispatch. by destruct (_handlers d (type_of m) !! in_reply_to (identity m)).
Qed.

Lemma cancel_order_all t : t ∈ cancel_order.
Proof. destruct t; apply (bool_decide_unpack _); by vm_compute. Qed.

(** ** Properties *)

(** Routing: a message goes to the handler registered last for its type and
    the message it replies to, and to no handler of another type or of another
    reply; a message nobody waits for goes to the unhandled handler. *)
Theorem dispatcher_routes t h i r m d :
  let d' := set_handler_reply t (Some h) i d in
  (type_of m = t -> in_reply_to (identity m) = i -> (dispatch r m d').1 = Ret (Handle h r (Some m))) /\
  (type_of m <> t \/ in_reply_to (identity m) <> i -> (dispatch r m d').1 = (dispatch r m d).1) /\
  (forall u, _handlers d (type_of m) !! in_reply_to (identity m) = None -> _unhandledHandler d = Some u ->
     (dispatch r m d).1 = Ret (Unhandled u m)).
Proof.
  intros d'. subst d'. rewrite !dispatch_spec. unfold set_handler_reply. rewrite handlers_update. split_and!.
  - intros <- <-. rewrite decide_True by done. by rewrite lookup_insert_eq.
  - intros Hne. simpl. case_decide as Ht; [|done]. rewrite lookup_insert_ne; [done|]. naive_solver.
  - intros u -> ->. done.
Qed.

(** A network error reaches everyone who waits: [cancel_all_with_error] calls
    each registered handler, with that error and no message, once for each
    registration and nothing else. *)
Theorem dispatcher_cancels_all r d :
  (forall t i h, _handlers d t !! i = Some (Some h) -> Ret (Handle h r None) ∈ cancel_all_with_error r d) /\
  (forall h r' m, Ret (Handle h r' m) ∈ cancel_all_with_error r d ->
     r' = r /\ m = None /\ exists t i, _handlers d t !! i = Some (Some h)) /\
  length (cancel_all_with_error r d) = sum_list ((fun t => size (_handlers d t)) <$> cancel_order).
Proof.
  unfold cancel_all_with_error. split_and!.
  - intros t i h Hh. apply list_elem_of_bind. exists t. split; [|apply cancel_order_all].
    apply list_elem_of_fmap. exists (i, Some h). split; [done|]. by apply elem_of_map_to_list.
  - intros h r' m (t & Hin & _)%list_elem_of_bind. apply list_elem_of_fmap in Hin as ([i [f|]] & E & Hi); [|done].
    simplify_eq/=. apply elem_of_map_to_list in Hi. eauto.
  - induction cancel_order as [|t l IH]; [done|]. csimpl. rewrite length_app, IH, length_fmap.
    by rewrite length_map_to_list.
Qed.

(** A reply handler is not removed by the message it waited for: after its
    reply was dispatched the dispatcher is unchanged, and a second message with
    the same [in_reply_to] reaches the same handler again. (The code erases the
    entry, from a copy of the map.) *)
Theorem dispatcher_reply_not_removed r m m' d h i :
  i <> 0 -> in_reply_to (identity m) = i -> in_reply_to (identity m') = i -> type_of m' = type_of m ->
  let d' := set_handler_reply (type_of m) (Some h) i d in
  let '(x, d'') := dispatch r m d' in
  x = Ret (Handle h r (Some m)) /\ d'' = d' /\ (dispatch r m' d'').1 = Ret (Handle h r (Some m')).
Proof.
  intros Hi E1 E2 Et d'. assert (forall m0, type_of m0 = type_of m -> in_reply_to (identity m0) = i ->
    (dispatch r m0 d').1 = Ret (Handle h r (Some m0))) as Hd.
  { intros m0 H1 H2. rewrite dispatch_spec, H1, H2. unfold d', set_handler_reply.
    rewrite handlers_update, decide_True by done. by rewrite lookup_insert_eq. }
  destruct (dispatch r m d') as [x d''] eqn:E. assert (d'' = d') as ->.
  { unfold dispatch in E. destruct (do_dispatch _ _ _ _). by simplify_eq. }
  split_and!; [|done|auto]. rewrite <- (Hd m) by done. by rewrite E.
Qed.

(** Removing a handler with an empty function removes the one for messages that
    are not replies; a handler registered for a reply stays. *)
Lemma set_handler_none_keeps_replies t i d : i <> 0 ->
  _handlers (set_handler t None d) t !! i = _handlers d t !! i.
Proof.
  intros Hi. simpl. rewrite decide_True by done. by rewrite lookup_delete_ne.
Qed.

End Dispatcher.

(** ** A concrete dispatcher *)

Definition sample_reply : message := AuthAckMessage (Ident 9 4) true.
Definition sample_reply' : message := AuthAckMessage (Ident 10 4) false.

Lemma dispatcher_routes_witness :
  (dispatch success sample_reply
     (set_handler_reply MT_AUTH_ACK (Some "on_auth"%string) 4 (message_dispatcher_new None))).1 =
  Ret (Handle "on_auth"%string success (Some sample_reply)).
Proof.
  apply (dispatcher_routes MT_AUTH_ACK "on_auth"%string 4 success sample_reply (message_dispatcher_new None)); reflexivity.
Defined.

Lemma dispatcher_reply_not_removed_witness :
  (dispatch success sample_reply'
     (dispatch success sample_reply
        (set_handler_reply MT_AUTH_ACK (Some "on_auth"%string) 4 (message_dispatcher_new None))).2).1 =
  Ret (Handle "on_auth"%string success (Some sample_reply')).
Proof.
  apply (dispatcher_reply_not_removed success sample_reply sample_reply' (message_dispatcher_new None)
    "on_auth"%string 4); done.
Defined.

End Dispatcher.
