(* ===== verification/Wire.v ===== *)
(** * Framing of messages on a connection

    Models [shared/src/netutil.h] and [.cpp], [shared/src/messageutil.h] and [.cpp]: a message
    is sent as a big-endian 16-bit type, a big-endian 32-bit length and its
    serialised bytes, and read back in three reads. The generated serialiser and
    parser are parameters. A socket delivers the bytes of a stream and then an
    error; [async_read] completes with all the bytes asked for or with the error.
    Texts of errors leave out the number the code prints in them. *)

From Stdlib Require Import ZArith Lia Ascii String.
From stdpp Require Import base list gmap strings.
From S2P Require Import Prelude Clocks MessageQueue Messages Dispatcher.

Local Open Scope Z_scope.
Local Open Scope sopmq_scope.

Module Wire.
Import Messages Dispatcher.

(** ** Network byte order *)

Definition be_bytes (n : nat) (x : Z) : bytes :=
  (fun i => Z.land (Z.shiftr x (8 * Z.of_nat (n - 1 - i))) 255) <$> seq 0 n.

Definition be_value (b : bytes) : Z := foldl (fun acc x => Z.lor (Z.shiftl acc 8) x) 0 b.

Definition host_to_network_short (x : Z) : bytes := be_bytes 2 (u16 x).
Definition host_to_network_long (x : Z) : bytes := be_bytes 4 (u32 x).

(** ** Reading *)

Definition end_of_file : string := "End of file".

(** The bytes read and the rest of the stream, or the error. *)
Definition async_read (n : nat) (s : bytes) : option (bytes * bytes) :=
  if (n <=? length s)%nat then Some (take n s, drop n s) else None.

(** [read_u16] and [read_u32]: the value passed to the callback and the stream left. *)
Definition read_u16 (s : bytes) : option (Z * bytes) :=
  '(b, s) ← async_read 2 s; Some (be_value b, s).
Definition read_u32 (s : bytes) : option (Z * bytes) :=
  '(b, s) ← async_read 4 s; Some (be_value b, s).

(** What reading does to its owner: a status callback, an error to every waiting
    handler of the dispatcher, a message to dispatch. *)
Inductive read_event :=
| Status (r : network_operation_result)
| Cancel (r : network_operation_result)
| Dispatch (r : network_operation_result) (m : message).

Definition on_read_error (r : network_operation_result) : list read_event := [Status r; Cancel r].

Section Wire.
Context (serialize : message -> bytes) (parse : message_type -> bytes -> option message).

Definition template_dispatch (t : message_type) (buffer : bytes) (r : network_operation_result) : list read_event :=
  match parse t buffer with
  | None => [Status (NOR ET_NETWORK "Unable to parse new message, message corrupted?")]
  | Some m => [Status r; Dispatch r m]
  end.

(** One case per type; the parameter [parse] makes the message of that type. *)
Definition switch_dispatch (type : Z) (buffer : bytes) (r : network_operation_result)
    : outcome (list read_event) :=
  match mt_of_value type with
  | Some t => Ret (template_dispatch t buffer r)
  | None => Throw (runtime_error "messageutil::switch_dispatch() unhandled message type")
  end.

Definition after_read_message_size (maxSize type messageSize : Z) (s : bytes)
    : outcome (list read_event * bytes) :=
  if maxSize <? messageSize
  then Ret (on_read_error (NOR ET_INVALID_TYPE "Message was too large"), s)
  else
    match async_read (Z.to_nat messageSize) s with
    | None => Ret (on_read_error (from_error_code end_of_file), s)
    | Some (buffer, s) => ev <~ switch_dispatch type buffer success;; Ret (ev, s)
    end.

Definition after_read_message_type (maxSize messageType : Z) (s : bytes) : outcome (list read_event * bytes) :=
  if (messageType <=? MT_INVALID) || (MT_INVALID_OUT_OF_RANGE <=? messageType)
  then Ret (on_read_error (NOR ET_INVALID_TYPE "Message type is invalid"), s)
  else
    match read_u32 s with
    | None => Ret (on_read_error (from_error_code end_of_file), s)
    | Some (messageSize, s) => after_read_message_size maxSize messageType messageSize s
    end.

Definition read_message (maxSize : Z) (s : bytes) : outcome (list read_event * bytes) :=
  match read_u16 s with
  | None => Ret (on_read_error (from_error_code end_of_file), s)
  | Some (messageType, s) => after_read_message_type maxSize messageType s
  end.

(** ** Writing *)

(** The bytes of one [async_write]: the header and the serialised message. *)
Definition write_message (t : message_type) (m : message) : bytes :=
  let message_buf := serialize m in
  host_to_network_short (mt_value t) ++ host_to_network_long (Z.of_nat (length message_buf)) ++ message_buf.

Definition after_write_message (error : option string) : network_operation_result :=
  match error with Some e => from_error_code e | None => success end.

(** ** A connection that reads again after every success *)

Definition read_failed (ev : list read_event) : bool :=
  existsb (fun e => match e with Status r => negb (was_successful r) | Cancel _ => true | _ => false end) ev.

(** [fuel] bounds the number of messages. *)
Fixpoint read_loop (fuel : nat) (maxSize : Z) (s : bytes) : outcome (list read_event) :=
  match fuel with
  | O => Ret []
  | S fuel =>
    r <~ read_message maxSize s;;
    if read_failed r.1 then Ret r.1
    else rest <~ read_loop fuel maxSize r.2;; Ret (r.1 ++ rest)
  end.

Definition delivered (ev : list read_event) : list message :=
  omap (fun e => match e with Dispatch _ m => Some m | _ => None end) ev.

(** ** Lemmas *)

Lemma be_bytes_length n x : length (be_bytes n x) = n.
Proof. unfold be_bytes. by rewrite length_fmap, length_seq. Qed.

Ltac be_bits x Hx w :=
  unfold be_value, be_bytes; simpl; change 255 with (Z.ones 8);
  apply Z.bits_inj'; intros i Hi; repeat zbits_step; repeat zbits_cmp;
  rewrite ?andb_true_r, ?andb_false_r, ?orb_false_r; simpl; rewrite ?orb_false_r;
  first [ f_equal; lia | symmetry; apply (testbit_above w); [done|lia] | idtac ].

Lemma be_value_2 x : in_width 16 x -> be_value (be_bytes 2 x) = x.
Proof. intros Hx. be_bits x Hx 16. Qed.

Lemma be_value_4 x : in_width 32 x -> be_value (be_bytes 4 x) = x.
Proof. intros Hx. be_bits x Hx 32. Qed.

Lemma async_read_app n a b : length a = n -> async_read n (a ++ b) = Some (a, b).
Proof.
  intros <-. unfold async_read. rewrite (proj2 (Nat.leb_le _ _)) by (rewrite length_app; lia).
  by rewrite take_app_length, drop_app_length.
Qed.

Lemma async_read_short n s : (length s < n)%nat -> async_read n s = None.
Proof. intros H. unfold async_read. by rewrite (proj2 (Nat.leb_gt _ _)). Qed.

Lemma read_u16_app x s : in_width 16 x -> read_u16 (host_to_network_short x ++ s) = Some (x, s).
Proof.
  intros Hx. unfold read_u16, host_to_network_short. rewrite async_read_app by apply be_bytes_length.
  simpl. by rewrite wrap_small, be_value_2.
Qed.

Lemma read_u32_app x s : in_width 32 x -> read_u32 (host_to_network_long x ++ s) = Some (x, s).
Proof.
  intros Hx. unfold read_u32, host_to_network_long. rewrite async_read_app by apply be_bytes_length.
  simpl. by rewrite wrap_small, be_value_4.
Qed.

Lemma valid_type_check t :
  (mt_value t <=? MT_INVALID) || (MT_INVALID_OUT_OF_RANGE <=? mt_value t) = false.
Proof. by destruct t. Qed.

Lemma mt_value_width t : in_width 16 (mt_value t).
Proof. by destruct t. Qed.

(** Reading what [write_message] wrote, for a message within the size limit. *)
Lemma read_written maxSize m rest :
  in_width 32 maxSize -> Z.of_nat (length (serialize m)) <= maxSize ->
  read_message maxSize (write_message (type_of m) m ++ rest) =
    Ret (template_dispatch (type_of m) (serialize m) success, rest).
Proof.
  intros Hw Hl. unfold read_message, write_message. rewrite <- !app_assoc, read_u16_app by apply mt_value_width.
  unfold after_read_message_type. rewrite valid_type_check, read_u32_app by (unfold in_width in *; lia).
  unfold after_read_message_size. rewrite (proj2 (Z.ltb_ge _ _)) by lia.
  rewrite Nat2Z.id, async_read_app by done. unfold switch_dispatch. by rewrite mt_of_value_of.
Qed.

(** Reading a frame that is cut short. *)
Lemma read_truncated maxSize m k :
  in_width 32 maxSize -> Z.of_nat (length (serialize m)) <= maxSize ->
  (k < length (write_message (type_of m) m))%nat ->
  exists s, read_message maxSize (take k (write_message (type_of m) m)) =
    Ret (on_read_error (from_error_code end_of_file), s).
Proof.
  intros Hw Hl Hk. unfold write_message in *.
  set (a := host_to_network_short _) in *. set (b := host_to_network_long _) in *.
  assert (length a = 2%nat /\ length b = 4%nat) as [Ha Hb] by (split; apply be_bytes_length).
  rewrite !length_app in Hk. unfold read_message.
  destruct (decide (k < 2)%nat).
  { unfold read_u16. rewrite async_read_short by (rewrite length_take; lia). eauto. }
  rewrite take_app_ge, Ha by lia. unfold a. rewrite read_u16_app by apply mt_value_width.
  unfold after_read_message_type. rewrite valid_type_check.
  destruct (decide (k < 6)%nat).
  { unfold read_u32. rewrite async_read_short; [eauto|]. rewrite length_take, length_app. lia. }
  rewrite take_app_ge, Hb by lia. unfold b. rewrite read_u32_app by (unfold in_width in *; lia).
  unfold after_read_message_size. rewrite (proj2 (Z.ltb_ge _ _)) by lia.
  rewrite async_read_short by (rewrite length_take; lia). eauto.
Qed.

Section RoundTrip.
Hypothesis parse_serialize : forall m, parse (type_of m) (serialize m) = Some m.

Lemma read_loop_written maxSize ms fuel :
  in_width 32 maxSize -> Forall (fun m => Z.of_nat (length (serialize m)) <= maxSize) ms ->
  (length ms < fuel)%nat ->
  exists ev, read_loop fuel maxSize (ms ≫= fun m => write_message (type_of m) m) =
    Ret (ev ++ on_read_error (from_error_code end_of_file)) /\ delivered ev = ms.
Proof.
  intros Hw Hms. revert fuel. induction Hms as [|m ms Hm Hms IH]; intros [|fuel] Hf; simpl in Hf; try lia.
  - exists []. done.
  - destruct (IH fuel ltac:(lia)) as (ev & Hr & Hd). exists ([Status success; Dispatch success m] ++ ev).
    rewrite bind_cons. cbn [read_loop]. rewrite read_written by done. unfold template_dispatch. rewrite parse_serialize.
    cbn [obind fst snd read_failed existsb orb negb]. rewrite Hr. cbn [obind].
    split; [by rewrite <- app_assoc|]. simpl. by rewrite Hd.
Qed.

(** ** Properties *)

(** C16. Framing round trip: reading the bytes of any sequence of messages, each
    within the size limit, delivers exactly those messages in order, and the end
    of the stream is then reported as a network error. *)
Theorem wire_roundtrip maxSize ms :
  in_width 32 maxSize -> Forall (fun m => Z.of_nat (length (serialize m)) <= maxSize) ms ->
  exists ev, read_loop (S (length ms)) maxSize (ms ≫= fun m => write_message (type_of m) m) = Ret ev /\
    delivered ev = ms /\ last ev = Some (Cancel (from_error_code end_of_file)).
Proof.
  intros Hw Hms. destruct (read_loop_written maxSize ms (S (length ms)) Hw Hms ltac:(lia)) as (ev & Hr & Hd).
  eexists. split_and!; [done| |].
  - unfold delivered in *. rewrite omap_app, Hd. simpl. by rewrite app_nil_r.
  - by rewrite last_app.
Qed.

End RoundTrip.

(** C40. Reading any stream of bytes ends normally, with at most one message
    delivered: the exception for an unknown type is never raised. A message is
    delivered only if its length was within the limit, and every failed read
    reports an error status. *)
Theorem wire_read_total maxSize s :
  exists ev rest, read_message maxSize s = Ret (ev, rest) /\
    (length (delivered ev) <= 1)%nat /\
    (delivered ev = [] -> exists r, Status r ∈ ev /\ was_successful r = false) /\
    (delivered ev <> [] -> exists header buffer, s = header ++ buffer ++ rest /\
       length header = 6%nat /\ Z.of_nat (length buffer) <= Z.max 0 maxSize).
Proof.
  unfold read_message, read_u16.
  assert (forall r s', was_successful r = false -> exists ev rest, Ret (on_read_error r, s') = Ret (ev, rest) /\
    (length (delivered ev) <= 1)%nat /\
    (delivered ev = [] -> exists r, Status r ∈ ev /\ was_successful r = false) /\
    (delivered ev <> [] -> exists header buffer, s = header ++ buffer ++ rest /\
       length header = 6%nat /\ Z.of_nat (length buffer) <= Z.max 0 maxSize)) as Herr.
  { intros r s' Hr. eexists _, _. split_and!; [done|simpl; lia| |done]. intros _. exists r. split; [by left|done]. }
  destruct (async_read 2 s) as [[h1 s1]|] eqn:E1; [|by apply Herr]. simpl.
  unfold after_read_message_type. case_match eqn:Et; [by apply Herr|]. apply orb_false_iff in Et as [Et1 Et2].
  apply Z.leb_gt in Et1, Et2. unfold read_u32.
  destruct (async_read 4 s1) as [[h2 s2]|] eqn:E2; [|by apply Herr]. simpl.
  unfold after_read_message_size. case_match eqn:Em; [by apply Herr|]. apply Z.ltb_ge in Em.
  destruct (async_read (Z.to_nat (be_value h2)) s2) as [[buffer s3]|] eqn:E3; [|by apply Herr].
  unfold switch_dispatch. destruct (mt_of_value_valid _ (conj Et1 Et2)) as [t ->]. cbn [obind].
  unfold async_read in *. repeat case_match; try done. simplify_eq.
  apply Nat.leb_le in H, H0, H1. unfold template_dispatch. eexists _, _. split; [done|].
  destruct (parse t _) as [m|]; simpl; split_and!; try lia; try done.
  - intros _. exists (take 2 s ++ take 4 (drop 2 s)), (take (Z.to_nat (be_value (take 4 (drop 2 s)))) (drop 4 (drop 2 s))).
    split_and!.
    + by rewrite <- app_assoc, !take_drop.
    + rewrite length_app, !length_take. lia.
    + rewrite length_take. lia.
  - intros _. eexists. split; [by left|done].
Qed.

(** A frame that is cut anywhere before its end delivers nothing: the status
    callback gets the error of the socket and every waiting handler is cancelled. *)
Theorem wire_truncated maxSize m k :
  in_width 32 maxSize -> Z.of_nat (length (serialize m)) <= maxSize ->
  (k < length (write_message (type_of m) m))%nat ->
  exists s, read_message maxSize (take k (write_message (type_of m) m)) =
    Ret ([Status (from_error_code end_of_file); Cancel (from_error_code end_of_file)], s).
Proof. apply read_truncated. Qed.

(** The two errors that have a type of their own in [error_type] are reported with
    another: a message over the limit as an invalid type, bytes that do not parse
    as a network error (and the waiting handlers are not cancelled). *)
Lemma too_large_reported_as_invalid_type maxSize type messageSize s :
  maxSize < messageSize ->
  after_read_message_size maxSize type messageSize s =
    Ret (on_read_error (NOR ET_INVALID_TYPE "Message was too large"), s).
Proof. intros H. unfold after_read_message_size. by rewrite (proj2 (Z.ltb_lt _ _)). Qed.

Lemma parse_error_reported_as_network t buffer r : parse t buffer = None ->
  template_dispatch t buffer r = [Status (NOR ET_NETWORK "Unable to parse new message, message corrupted?")].
Proof. unfold template_dispatch. by intros ->. Qed.

End Wire.
(** ** A concrete codec

    A message as the list of its fields, each field a list of numbers, and the
    number of that list as the only element of its serialised form. *)

Definition opt_field (o : option Z) : list Z := match o with Some z => [z] | None => [] end.
Definition field_opt (l : list Z) : option Z := match l with z :: _ => Some z | [] => None end.
Definition clock_fields (c : list NodeClock.NodeClock_pb) : list (list Z) :=
  (fun x => [NodeClock.pb_node_id x; NodeClock.pb_generation x; NodeClock.pb_clock x]) <$> c.
Definition field_clock (l : list Z) : NodeClock.NodeClock_pb :=
  match l with [a; b; c] => NodeClock.NodeClock_msg a b c | _ => NodeClock.NodeClock_msg 0 0 0 end.

Definition publish_fields (p : PublishMessage) : list (list Z) :=
  [[id (pub_identity p); in_reply_to (pub_identity p)]; message_id p; queue_id p; opt_field (flags p); [ttl p]; content p].

Definition field_publish (l : list (list Z)) : option PublishMessage :=
  match l with
  | [[i; r]; mid; qid; fl; [t]; c] => Some (Publish_ (Ident i r) mid qid (field_opt fl) t c)
  | _ => None
  end.

Definition fields (m : message) : list (list Z) :=
  let i := identity m in
  [id i; in_reply_to i] ::
  match m with
  | GetChallengeMessage _ t => [[match t with GC_CLIENT => 1 | GC_SERVER => 2 end]]
  | ChallengeResponseMessage _ c => [c]
  | AnswerChallengeMessage _ u c => [u; c]
  | AuthAckMessage _ a => [[if a then 1 else 0]]
  | PublishMsg p => publish_fields p
  | PublishResponseMessage _ s =>
    [[match s with PR_PIPED => 1 | PR_STORED => 2 | PR_DROPPED => 3 | PR_NOTAUTH => 4 | PR_UNAVAILABLE => 5 end]]
  | ConsumeFromQueueMessage _ q d l t =>
    [q; [match d with DT_NONE => 1 | DT_CLAIMSTORED => 2 | DT_PEEKSTORED => 3 end]; opt_field l;
     [match t with IT_PEEK => 1 | IT_CLAIM => 2 end]]
  | ConsumeResponseMessage _ s => [[match s with CR_OK => 1 | CR_NOTAUTH => 2 | CR_UNAVAILABLE => 3 end]]
  | GossipMessage _ d => clock_fields d
  | ProxyPublishMessage _ p => publish_fields p
  | ProxyPublishResponseMessage _ s c =>
    [match s with PPR_NOTAUTH => 1 | PPR_NOTHERE => 2 | PPR_QUEUED => 3 end] :: clock_fields c
  | StampMessage _ mid c => mid :: clock_fields c
  end.

Definition of_fields (t : message_type) (l : list (list Z)) : option message :=
  match l with
  | [i; r] :: l =>
    let idn := Ident i r in
    match t, l with
    | MT_GET_CHALLENGE, [[z]] => Some (GetChallengeMessage idn (if z =? 1 then GC_CLIENT else GC_SERVER))
    | MT_CHALLENGE_RESPONSE, [c] => Some (ChallengeResponseMessage idn c)
    | MT_ANSWER_CHALLENGE, [u; c] => Some (AnswerChallengeMessage idn u c)
    | MT_AUTH_ACK, [[z]] => Some (AuthAckMessage idn (z =? 1))
    | MT_PUBLISH, _ => PublishMsg <$> field_publish l
    | MT_PUBLISH_RESPONSE, [[z]] =>
      Some (PublishResponseMessage idn (if z =? 1 then PR_PIPED else if z =? 2 then PR_STORED
        else if z =? 3 then PR_DROPPED else if z =? 4 then PR_NOTAUTH else PR_UNAVAILABLE))
    | MT_CONSUME_FROM_QUEUE, [q; [d]; lb; [z]] =>
      Some (ConsumeFromQueueMessage idn q (if d =? 1 then DT_NONE else if d =? 2 then DT_CLAIMSTORED else DT_PEEKSTORED)
        (field_opt lb) (if z =? 1 then IT_PEEK else IT_CLAIM))
    | MT_CONSUME_RESPONSE, [[z]] =>
      Some (ConsumeResponseMessage idn (if z =? 1 then CR_OK else if z =? 2 then CR_NOTAUTH else CR_UNAVAILABLE))
    | MT_GOSSIP, _ => Some (GossipMessage idn (field_clock <$> l))
    | MT_PROXY_PUBLISH, _ => ProxyPublishMessage idn <$> field_publish l
    | MT_PROXY_PUBLISH_RESPONSE, [z] :: l =>
      Some (ProxyPublishResponseMessage idn (if z =? 1 then PPR_NOTAUTH else if z =? 2 then PPR_NOTHERE else PPR_QUEUED)
        (field_clock <$> l))
    | MT_STAMP, mid :: l => Some (StampMessage idn mid (field_clock <$> l))
    | _, _ => None
    end
  | _ => None
  end.

Definition sample_serialize (m : message) : bytes := [Z.pos (encode (fields m))].
Definition sample_parse (t : message_type) (b : bytes) : option message :=
  match b with [Z.pos p] => decode p ≫= of_fields t | _ => None end.

Lemma clock_fields_inv c : field_clock <$> clock_fields c = c.
Proof.
  unfold clock_fields. rewrite <- list_fmap_compose. rewrite <- (list_fmap_id c) at 2.
  apply list_fmap_ext. by intros ? [].
Qed.

Lemma sample_codec m : sample_parse (type_of m) (sample_serialize m) = Some m.
Proof.
  unfold sample_parse, sample_serialize. rewrite decode_encode. simpl.
  destruct m as [[] []|[] ?|[] ? ?|[] []|p|[] []|[] ? [] [] []|[] []|[] d|[] p|[] [] c|[] ? c];
    simpl; rewrite ?clock_fields_inv; try done.
  all: by destruct p as [[] ? ? [] ? ?].
Qed.

Definition sample_messages : list message :=
  [GetChallengeMessage (Ident 1 0) GC_CLIENT; AuthAckMessage (Ident 9 4) true].

Lemma wire_roundtrip_witness : exists ev,
  read_loop sample_parse 3 1024 (sample_messages ≫= fun m => write_message sample_serialize (type_of m) m) = Ret ev /\
  delivered ev = sample_messages /\ last ev = Some (Cancel (from_error_code end_of_file)).
Proof.
  apply (wire_roundtrip sample_serialize sample_parse sample_codec 1024 sample_messages); [done|].
  repeat constructor; simpl; lia.
Defined.

Lemma wire_truncated_witness : exists s,
  read_message sample_parse 1024 (take 5 (write_message sample_serialize MT_AUTH_ACK (AuthAckMessage (Ident 9 4) true))) =
  Ret ([Status (from_error_code end_of_file); Cancel (from_error_code end_of_file)], s).
Proof.
  apply (wire_truncated sample_serialize sample_parse 1024 (AuthAckMessage (Ident 9 4) true) 5); [done|simpl; lia|].
  vm_compute. lia.
Defined.

End Wire.
