(* ===== verification/Account.v ===== *)
(** * User accounts and their storage

    Models [node/src/user_account.h] and [.cpp], [node/src/cassandra_storage.h] and [.cpp],
    [node/src/cassandra_storage_async_helpers.h] and [.cpp] and the hashing helpers of
    [shared/src/util.cpp]. The Cassandra database is an interface, the class
    [user_store]; its driver reports errors as texts. SHA-256 and the hexadecimal
    encoder come from Crypto++: they are parameters. *)

From Stdlib Require Import ZArith Lia Ascii String.
From stdpp Require Import base list gmap strings.
From S2P Require Import Prelude MessageQueue Messages.

Local Open Scope Z_scope.
Local Open Scope sopmq_scope.

Module Account.
Abbreviation bytes := MessageQueue.bytes.

(** ** Accounts *)

Record user_account := UA {
  _name_hash : bytes;
  _username : bytes;
  _pw_hash : bytes;
  _user_level : Z
}.

(** The default constructor: empty strings, level 0. *)
Definition user_account_default : user_account := UA [] [] [] 0.

Definition username (a : user_account) : bytes := _username a.
Definition name_hash (a : user_account) : bytes := _name_hash a.
Definition pw_hash (a : user_account) : bytes := _pw_hash a.
Definition user_level (a : user_account) : Z := _user_level a.

(** ** Rows

    A column is absent ([None]) or has a value; a column that is absent reads as
    the empty string, or zero. *)

Record row := Row {
  col_uname_hash : option bytes;
  col_username : option bytes;
  col_pw_hash : option bytes;
  col_user_level : option Z
}.

Definition get_string_column_value (c : option bytes) : bytes := match c with None => [] | Some v => v end.
Definition get_int_column_value (c : option Z) : Z := match c with None => 0 | Some v => v end.

Definition KEYSPACE_NAME : string := "sopmq".

(** The statements [init] executes. *)
Definition CREATE_STATEMENTS : list string :=
  ["CREATE KEYSPACE IF NOT EXISTS " ++ KEYSPACE_NAME ++
     " WITH REPLICATION = { 'class' : 'SimpleStrategy', 'replication_factor' : 3 };";
   "CREATE TABLE IF NOT EXISTS " ++ KEYSPACE_NAME ++ ".users (" ++ "uname_hash varchar PRIMARY KEY, " ++
     "username varchar, " ++ "pw_hash varchar, " ++ "user_level int " ++ ");"]%string.

(** What the code relies on of Cassandra: inserting a row into the [users] table
    replaces the one with that key and leaves the others, and creating what is not
    there yet leaves the rows. *)
Class user_store (S : Type) := {
  us_insert : row -> S -> S;
  us_select : bytes -> S -> list row;
  us_execute : string -> S -> S;
  us_select_insert : forall r k s, col_uname_hash r = Some k -> us_select k (us_insert r s) = [r];
  us_select_other : forall r k k' s, col_uname_hash r = Some k -> k <> k' ->
    us_select k' (us_insert r s) = us_select k' s;
  us_select_create : forall stmt k s, stmt ∈ CREATE_STATEMENTS -> us_select k (us_execute stmt s) = us_select k s
}.

(** A table as a map from the primary key. *)
#[global] Program Instance map_store : user_store (gmap bytes row) := {|
  us_insert r s := match col_uname_hash r with Some k => <[k := r]> s | None => s end;
  us_select k s := match s !! k with Some r => [r] | None => [] end;
  us_execute _ s := s
|}.
Next Obligation. intros r k s Hk. simpl. rewrite Hk. by rewrite lookup_insert_eq. Qed.
Next Obligation. intros r k k' s Hk Hne. simpl. rewrite Hk. by rewrite lookup_insert_ne. Qed.
Next Obligation. done. Qed.

(** ** Asynchronous queries

    The life of an [async_query_state]: the driver completes the connection, then
    the execution, each with an error or a value; the callbacks run in this order. *)

Inductive query_outcome := QueryError (what : string) | QueryRows (rows : list row).

Inductive async_event :=
| ResultCallback (r : query_outcome)
| CloseSession
| FreeState.

(** [check_async_future_error]: reports the error; with a session, the state is
    freed when the session has closed. *)
Definition check_async_future_error (e : string) (session : bool) : list async_event :=
  if session then [ResultCallback (QueryError e); CloseSession; FreeState]
  else [ResultCallback (QueryError e); FreeState].

Definition after_result (result : query_outcome) : list async_event :=
  match result with
  | QueryError e => check_async_future_error e true
  | QueryRows rows => [ResultCallback (QueryRows rows); CloseSession; FreeState]
  end.

Definition after_connect (connect : option string) (result : query_outcome) : list async_event :=
  match connect with
  | Some e => check_async_future_error e false
  | None => after_result result
  end.

Definition async_query (connect : option string) (result : query_outcome) : list async_event :=
  after_connect connect result.

(** ** cassandra_storage *)

Record find_user_result := FUR {
  user_found : bool;
  error : option string;
  account : user_account
}.

(** The callback of [find_user]. *)
Definition find_user_cb (q : query_outcome) : find_user_result :=
  match q with
  | QueryError e => FUR false (Some e) user_account_default
  | QueryRows (r :: _) =>
    FUR true None
      (UA (get_string_column_value (col_uname_hash r)) (get_string_column_value (col_username r))
          (get_string_column_value (col_pw_hash r)) (get_int_column_value (col_user_level r)))
  | QueryRows [] => FUR false None user_account_default
  end.

(** The future of a statement: [None] when it succeeded; with an error, the statement
    may have been applied all the same (a time-out). *)
Abbreviation execution := (option (string * bool)).

(** [cass_string_init(s.c_str())]: the bytes up to the first NUL. *)
Fixpoint c_str (s : bytes) : bytes :=
  match s with
  | [] => []
  | c :: s => if c =? 0 then [] else c :: c_str s
  end.

Section Storage.
Context {S : Type} `{!user_store S}.

(** The results [find_user] passes to its callback, in order. The name is bound with
    [c_str()], as in [create_user]. *)
Definition find_user (connect exec_error : option string) (usernameHash : bytes) (s : S) : list find_user_result :=
  omap (fun e => match e with ResultCallback q => Some (find_user_cb q) | _ => None end)
    (async_query connect
      (match exec_error with Some e => QueryError e | None => QueryRows (us_select (c_str usernameHash) s) end)).

(** Synchronous statements run on the database and count the sessions that are
    open; a throw keeps what was done before it. *)
Definition D (A : Type) : Type := S * nat -> outcome A * (S * nat).
Definition dret {A} (a : A) : D A := fun st => (Ret a, st).
Definition dbind {A B} (m : D A) (f : A -> D B) : D B :=
  fun st => let '(r, st) := m st in
    match r with Ret a => f a st | Throw e => (Throw e, st) | Undef => (Undef, st) end.

(** A future of the driver: [Some] error message, or [CASS_OK]. *)
Definition throw_on_error (future : option string) : D unit :=
  fun st => (match future with Some message => Throw (storage_error message) | None => Ret tt end, st).

Definition get_session : D unit := fun st => (Ret tt, (st.1, Datatypes.S st.2)).
Definition session_close : D unit := fun st => (Ret tt, (st.1, Nat.pred st.2)).

Definition session_execute (future : execution) (f : S -> S) : D unit :=
  fun st => (Ret tt, match future with Some (_, false) => st | _ => (f st.1, st.2) end).

Definition execute_statement (future : execution) (statementText : string) : D unit :=
  dbind (session_execute future (us_execute statementText)) (fun _ =>
  throw_on_error (fst <$> future)).

Fixpoint execute_all (futures : nat -> execution) (i : nat) (statements : list string) : D unit :=
  match statements with
  | [] => dret tt
  | statement :: statements =>
    dbind (execute_statement (futures i) statement) (fun _ =>
    execute_all futures (Datatypes.S i) statements)
  end.

Definition init (connect : option string) (futures : nat -> execution) : D unit :=
  dbind (throw_on_error connect) (fun _ =>
  dbind get_session (fun _ =>
  dbind (execute_all futures 0 CREATE_STATEMENTS) (fun _ =>
  session_close))).

Definition create_user (connect : option string) (future : execution) (usernameHash username pwHash : bytes)
    (userLevel : Z) : D unit :=
  dbind (throw_on_error connect) (fun _ =>
  dbind get_session (fun _ =>
  dbind (session_execute future
    (us_insert (Row (Some (c_str usernameHash)) (Some (c_str username)) (Some (c_str pwHash)) (Some userLevel)))) (fun _ =>
  dbind (throw_on_error (fst <$> future)) (fun _ =>
  session_close)))).

Lemma execute_all_rows futures i stmts st k : stmts ⊆ CREATE_STATEMENTS ->
  us_select k (execute_all futures i stmts st).2.1 = us_select k st.1.
Proof.
  revert i st. induction stmts as [|stmt stmts IH]; intros i st Hs; [done|].
  cbn [execute_all]. unfold dbind at 1, execute_statement, session_execute, throw_on_error, dbind.
  destruct (futures i) as [[e []]|]; simpl; [|done|rewrite IH by set_solver]; apply us_select_create; set_solver.
Qed.

(** Initialising the storage, again or halfway, never loses an account. *)
Lemma init_rows connect futures st k : us_select k (init connect futures st).2.1 = us_select k st.1.
Proof.
  unfold init, dbind at 1, throw_on_error. destruct connect; [done|]. unfold dbind at 1 2, get_session.
  pose proof (execute_all_rows futures 0 CREATE_STATEMENTS (st.1, Datatypes.S st.2) k ltac:(done)) as H.
  by destruct (execute_all futures 0 CREATE_STATEMENTS _) as [[|?|] st'].
Qed.

(** It succeeds when the connection and both statements do, and otherwise throws
    the first error of the driver. *)
Lemma init_result connect futures st : (init connect futures st).1 =
  match connect, futures 0%nat, futures 1%nat with
  | None, None, None => Ret tt
  | Some e, _, _ | None, Some (e, _), _ | None, None, Some (e, _) => Throw (storage_error e)
  end.
Proof.
  unfold init, CREATE_STATEMENTS, execute_all, execute_statement, dbind, throw_on_error, get_session, session_execute.
  by destruct connect, (futures 0%nat) as [[]|], (futures 1%nat) as [[]|].
Qed.

Section Crypto.
Context (digest hex_encode : bytes -> bytes).

(** [util::sha256_hex_string] *)
Definition sha256_hex_string (data : bytes) : bytes := hex_encode (digest data).

Definition create (connect : option string) (future : execution) (userName password : bytes) (userLevel : Z)
    : D user_account :=
  let userHex := hex_encode (digest userName) in
  let pwHex := hex_encode (digest password) in
  dbind (create_user connect future userHex userName pwHex userLevel) (fun _ =>
  dret (UA userHex userName pwHex userLevel)).

(** The lookup callback of [is_authorized]: the values passed to [authCallback],
    in order. The first test does not return. *)
Definition user_lookup_cb (challengeBytes passwordChallengeHashHexString : bytes) (fur : find_user_result) : list bool :=
  let refused := if negb (user_found fur) || (user_level (account fur) =? 0) then [false] else [] in
  let goodPwHashAndChallenge := hex_encode (digest (pw_hash (account fur) ++ challengeBytes)) in
  refused ++
  (if decide (goodPwHashAndChallenge = passwordChallengeHashHexString) then [true] else [false]).

Definition is_authorized (connect exec_error : option string)
    (nameHashHexString challengeBytes passwordChallengeHashHexString : bytes) (s : S) : list bool :=
  find_user connect exec_error nameHashHexString s ≫= user_lookup_cb challengeBytes passwordChallengeHashHexString.

(** [find]: what its callback gets. *)
Definition find (connect exec_error : option string) (nameHashHexString : bytes) (s : S) : list (bool * user_account) :=
  (fun fur => if user_found fur then (true, account fur) else (false, user_account_default)) <$>
  find_user connect exec_error nameHashHexString s.

(** ** Properties *)

Lemma c_str_id s : 0 ∉ s -> c_str s = s.
Proof.
  induction s as [|c s IH]; [done|]. rewrite not_elem_of_cons. intros [Hc Hs]. simpl.
  destruct (Z.eqb_spec c 0); [congruence|]. by rewrite IH.
Qed.

(** The hexadecimal encoder produces no NUL. *)
Context (hex_no_nul : forall b, 0 ∉ hex_encode b).

Lemma create_ok c e userName password userLevel st a st' :
  create c e userName password userLevel st = (Ret a, st') ->
  c = None /\ e = None /\ a = UA (sha256_hex_string userName) userName (sha256_hex_string password) userLevel /\
  st' = (us_insert (Row (Some (sha256_hex_string userName)) (Some (c_str userName))
           (Some (sha256_hex_string password)) (Some userLevel)) st.1, st.2).
Proof.
  unfold create, create_user, sha256_hex_string. rewrite !(c_str_id (hex_encode _)) by apply hex_no_nul.
  unfold dbind, throw_on_error, get_session, session_execute, session_close, dret.
  destruct c, e as [[]|], st; intros H; by simplify_eq/=.
Qed.

Lemma find_created c e userName password userLevel st a st' : 0 ∉ userName ->
  create c e userName password userLevel st = (Ret a, st') ->
  find_user None None (sha256_hex_string userName) st'.1 = [FUR true None a].
Proof.
  intros H0 (-> & -> & -> & ->)%create_ok. unfold find_user. simpl.
  rewrite (c_str_id (sha256_hex_string userName)) by apply hex_no_nul.
  erewrite us_select_insert by done. simpl. by rewrite c_str_id.
Qed.

(** An account that was created can be found and used: after [create] with a
    level other than 0, the stored account is the one returned, and a login is
    decided once, by whether the response is the hash of the password hash and
    the challenge. *)
Theorem account_login userName password userLevel st c1 e1 a st' challenge response : 0 ∉ userName ->
  create c1 e1 userName password userLevel st = (Ret a, st') -> userLevel <> 0 ->
  find None None (sha256_hex_string userName) st'.1 = [(true, a)] /\
  is_authorized None None (sha256_hex_string userName) challenge response st'.1 =
    [bool_decide (response = sha256_hex_string (sha256_hex_string password ++ challenge))].
Proof.
  intros H0 H Hl. pose proof (find_created _ _ _ _ _ _ _ _ H0 H) as Hf.
  unfold find, is_authorized. rewrite Hf. split; [done|]. simpl. rewrite app_nil_r.
  apply create_ok in H as (_ & _ & -> & _).
  unfold user_lookup_cb. simpl. rewrite (proj2 (Z.eqb_neq userLevel 0)) by done. simpl.
  unfold sha256_hex_string. case_decide as E; case_bool_decide; naive_solver.
Qed.

(** Whatever the driver does, the caller of an asynchronous query gets exactly one
    result, a session that was opened is closed, and the state is freed once and
    last. *)
Lemma async_query_once connect result :
  length (omap (fun e => match e with ResultCallback r => Some r | _ => None end) (async_query connect result)) = 1%nat /\
  last (async_query connect result) = Some FreeState /\
  (CloseSession ∈ async_query connect result <-> connect = None).
Proof.
  destruct connect, result; simpl; split_and!; try done; split; intros H; try done; set_solver.
Qed.

(** Authorization without an account: a name that is not in the table is refused,
    and then accepted, when the response is the hash of the challenge alone. *)
Lemma unknown_user_authorized name challenge s :
  us_select (c_str name) s = [] ->
  is_authorized None None name challenge (sha256_hex_string challenge) s = [false; true].
Proof.
  intros H. unfold is_authorized, find_user. simpl. rewrite H. simpl. unfold user_lookup_cb, sha256_hex_string. simpl.
  by rewrite decide_True.
Qed.

(** A disabled account (level 0) with the right password is refused, and then
    accepted. *)
Lemma disabled_user_authorized challenge a : user_level a = 0 ->
  user_lookup_cb challenge (sha256_hex_string (pw_hash a ++ challenge)) (FUR true None a) = [false; true].
Proof. intros H. unfold user_lookup_cb, sha256_hex_string. simpl. rewrite H. simpl. by rewrite decide_True. Qed.

(** A failed statement leaves its session open. *)
Lemma failed_statement_leaks_session e applied usernameHash username pwHash level st :
  (create_user None (Some (e, applied)) usernameHash username pwHash level st).2.2 = Datatypes.S st.2.
Proof. by destruct applied. Qed.

End Crypto.
End Storage.

(** A toy digest, for concrete runs: the identity and a marker. *)
Definition toy_digest (b : bytes) : bytes := 7 :: b.
Definition toy_hex (b : bytes) : bytes := (fun c => if c =? 0 then 1 else c) <$> b.

Lemma toy_hex_no_nul b : 0 ∉ toy_hex b.
Proof. intros (c & Hc & _)%list_elem_of_fmap. destruct (Z.eqb_spec c 0); lia. Qed.

Lemma account_login_witness :
  is_authorized toy_digest toy_hex None None (sha256_hex_string toy_digest toy_hex [65]) [1; 2]
    (sha256_hex_string toy_digest toy_hex (sha256_hex_string toy_digest toy_hex [66] ++ [1; 2]))
    (create toy_digest toy_hex None None [65] [66] 1 (∅ : gmap bytes row, 0%nat)).2.1 = [true].
Proof.
  apply (account_login toy_digest toy_hex toy_hex_no_nul [65] [66] 1 (∅ : gmap bytes row, 0%nat) None None
    (UA [7; 65] [65] [7; 66] 1)); [set_solver|reflexivity|lia].
Defined.

End Account.
