(* ===== verification/Auth.v ===== *)
(** * Connections into a node and their authentication

    Models [shared/src/connection_base.h] and [.cpp] (identifiers, sending, reading,
    closing), [node/src/connection_in.h] and [.cpp], [node/src/csunauthenticated.h]
    and [.cpp], and of [node/src/csauthenticated.cpp] the part that reads and
    dispatches; what it does with a published message is in [Publish.v].

    The state of one connection is one record: the connection, the two state
    objects with their dispatchers, the tasks posted to the io_service. The world
    outside acts through events: a message arrives for the oldest outstanding
    read, a read or a write completes with an error, a write completes, the
    io_service runs the oldest posted task. They may come in any order. *)

From Stdlib Require Import ZArith Lia Ascii String.
From stdpp Require Import base list gmap strings.
From S2P Require Import Prelude Clocks MessageQueue Messages Dispatcher Endpoint Node Account.

Local Open Scope Z_scope.
Local Open Scope sopmq_scope.

Module Auth.
Import Messages Dispatcher Account.
Abbreviation bytes := MessageQueue.bytes.

(** The member functions bound as handlers. *)
Inductive handler :=
| handle_get_challenge_message_ | handle_answer_challenge_message_ | unauth_unhandled_message_
| handle_post_message_ | auth_unhandled_message_.

#[global] Instance handler_eq_dec : EqDecision handler.
Proof. solve_decision. Defined.

(** Whose callback an operation on the socket will call. *)
Inductive owner := Unauth | Auth_.

#[global] Instance owner_eq_dec : EqDecision owner.
Proof. solve_decision. Defined.

(** A task posted to the io_service by the authorization callback. *)
Inductive task := SuccessfulAuth (m : message) | FailedAuth (m : message).

Record connection := Conn {
  _next_id : Z;
  is_open : bool;
  sent : list message;
  reads : list owner;
  writes : list owner;
  u_dispatcher : message_dispatcher (H := handler);
  _authType : option GetChallenge_Type;
  _challenge : bytes;
  _closeAfterTransmission : bool;
  a_dispatcher : option (message_dispatcher (H := handler));
  posted : list task;
  published : list PublishMessage
}.

(** ** Operations of the connection *)

Definition get_next_id (c : connection) : Z * connection :=
  let i := u32 (_next_id c + 1) in
  (i, Conn i (is_open c) (sent c) (reads c) (writes c) (u_dispatcher c) (_authType c) (_challenge c)
        (_closeAfterTransmission c) (a_dispatcher c) (posted c) (published c)).

Definition send_message (o : owner) (m : message) (c : connection) : connection :=
  Conn (_next_id c) (is_open c) (sent c ++ [m]) (reads c) (writes c ++ [o]) (u_dispatcher c) (_authType c)
    (_challenge c) (_closeAfterTransmission c) (a_dispatcher c) (posted c) (published c).

Definition read_message (o : owner) (c : connection) : connection :=
  Conn (_next_id c) (is_open c) (sent c) (reads c ++ [o]) (writes c) (u_dispatcher c) (_authType c)
    (_challenge c) (_closeAfterTransmission c) (a_dispatcher c) (posted c) (published c).

(** [close], and [handle_error], which logs and closes. *)
Definition handle_error (c : connection) : connection :=
  Conn (_next_id c) false (sent c) (reads c) (writes c) (u_dispatcher c) (_authType c) (_challenge c)
    (_closeAfterTransmission c) (a_dispatcher c) (posted c) (published c).

Definition set_u_dispatcher (d : message_dispatcher) (c : connection) : connection :=
  Conn (_next_id c) (is_open c) (sent c) (reads c) (writes c) d (_authType c) (_challenge c)
    (_closeAfterTransmission c) (a_dispatcher c) (posted c) (published c).

Definition set_auth_type (t : GetChallenge_Type) (c : connection) : connection :=
  Conn (_next_id c) (is_open c) (sent c) (reads c) (writes c) (u_dispatcher c) (Some t) (_challenge c)
    (_closeAfterTransmission c) (a_dispatcher c) (posted c) (published c).

Definition set_challenge (b : bytes) (c : connection) : connection :=
  Conn (_next_id c) (is_open c) (sent c) (reads c) (writes c) (u_dispatcher c) (_authType c) b
    (_closeAfterTransmission c) (a_dispatcher c) (posted c) (published c).

Definition set_close_after (c : connection) : connection :=
  Conn (_next_id c) (is_open c) (sent c) (reads c) (writes c) (u_dispatcher c) (_authType c) (_challenge c)
    true (a_dispatcher c) (posted c) (published c).

Definition post (ts : list task) (c : connection) : connection :=
  Conn (_next_id c) (is_open c) (sent c) (reads c) (writes c) (u_dispatcher c) (_authType c) (_challenge c)
    (_closeAfterTransmission c) (a_dispatcher c) (posted c ++ ts) (published c).

Definition set_a_dispatcher (d : message_dispatcher) (c : connection) : connection :=
  Conn (_next_id c) (is_open c) (sent c) (reads c) (writes c) (u_dispatcher c) (_authType c) (_challenge c)
    (_closeAfterTransmission c) (Some d) (posted c) (published c).

Definition publish (p : PublishMessage) (c : connection) : connection :=
  Conn (_next_id c) (is_open c) (sent c) (reads c) (writes c) (u_dispatcher c) (_authType c) (_challenge c)
    (_closeAfterTransmission c) (a_dispatcher c) (posted c) (published c ++ [p]).

Section Auth.
(** Crypto++, the settings [unitTestUsername] and [ringKey], and the answer of the
    account storage for a name. *)
Context (digest hex_encode : bytes -> bytes).
Context (unit_test_username ring_key : bytes) (lookup_user : bytes -> find_user_result).

Abbreviation sha := (sha256_hex_string digest hex_encode).

Definition CHALLENGE_SIZE : nat := 1024.

(** ** csauthenticated: entry *)

(** Its constructor and [start], run by [connection_in::change_state]. *)
Definition authenticated_start (c : connection) : connection :=
  read_message Auth_
    (set_a_dispatcher
       (set_handler MT_PUBLISH (Some handle_post_message_) (message_dispatcher_new (Some auth_unhandled_message_))) c).

(** ** csunauthenticated *)

Definition unauthenticated_start (c : connection) : connection :=
  read_message Unauth
    (set_u_dispatcher (set_handler MT_GET_CHALLENGE (Some handle_get_challenge_message_) (u_dispatcher c)) c).

(** A new [connection_in] whose socket is connected, after [start]. *)
Definition connection_start : connection :=
  unauthenticated_start
    (Conn 0 true [] [] [] (message_dispatcher_new (Some unauth_unhandled_message_)) None [] false None [] []).

(** [rnd] is what [util::random_bytes(CHALLENGE_SIZE)] returns. *)
Definition generate_challenge_response (rnd : bytes) (replyTo : Z) (c : connection) : connection :=
  let '(i, c) := get_next_id c in
  let response := ChallengeResponseMessage (build_id i replyTo) rnd in
  let c := set_challenge rnd c in
  let d := set_handler MT_GET_CHALLENGE None (u_dispatcher c) in
  let d := set_handler_reply MT_ANSWER_CHALLENGE (Some handle_answer_challenge_message_) i d in
  let c := set_u_dispatcher d c in
  read_message Unauth (send_message Unauth response c).

Definition handle_get_challenge_message (rnd : bytes) (m : option message) (c : connection) : connection :=
  match m with
  | Some (GetChallengeMessage i t) => generate_challenge_response rnd (id i) (set_auth_type t c)
  | _ => c
  end.

Definition successful_auth (m : message) (c : connection) : connection :=
  let '(i, c) := get_next_id c in
  let c := send_message Unauth (AuthAckMessage (build_id i (id (identity m))) true) c in
  authenticated_start c.

Definition failed_auth (m : message) (c : connection) : connection :=
  let '(i, c) := get_next_id (set_close_after c) in
  send_message Unauth (AuthAckMessage (build_id i (id (identity m))) false) c.

(** [authCallback] posts one task per call. *)
Definition auth_callback (m : message) (authd : bool) : task :=
  if authd then SuccessfulAuth m else FailedAuth m.

Definition is_client (t : option GetChallenge_Type) : bool :=
  match t with Some GC_CLIENT => true | _ => false end.

Definition handle_answer_challenge_message (m : option message) (c : connection) : connection :=
  match m with
  | Some (AnswerChallengeMessage _ uname_hash challenge_response as msg) =>
    if is_client (_authType c) && negb (bool_decide (unit_test_username = [])) &&
       bool_decide (uname_hash = sha unit_test_username)
    then successful_auth msg c
    else if is_client (_authType c)
    then post (auth_callback msg <$>
           user_lookup_cb digest hex_encode (_challenge c) challenge_response (lookup_user uname_hash)) c
    else if decide (challenge_response = sha (sha ring_key ++ _challenge c))
    then successful_auth msg c
    else failed_auth msg c
  | _ => c
  end.

Definition u_handle_read_result (r : network_operation_result) (c : connection) : connection :=
  if was_successful r then c else handle_error c.

Definition u_handle_write_result (r : network_operation_result) (c : connection) : connection :=
  let c := if was_successful r then c else handle_error c in
  if _closeAfterTransmission c then handle_error c else c.

Definition a_handle_read_result (r : network_operation_result) (c : connection) : connection :=
  if was_successful r then read_message Auth_ c else handle_error c.

Definition a_handle_write_result (r : network_operation_result) (c : connection) : connection :=
  if was_successful r then c else handle_error c.

(** [handle_post_message] returns at once on an error. Otherwise the message is handed to
    the rest of the handler, which works on the ring and may throw or have no defined
    effect: [Publish.handle_post_message], that [System.settle] runs in the same step. *)
Definition handle_post (r : network_operation_result) (m : option message) (c : connection) : connection :=
  match m with
  | Some (PublishMsg p) => if was_successful r then publish p c else c
  | _ => c
  end.

(** ** Events *)

(** Runs the handler a dispatcher selects. *)
Definition invoke (rnd : bytes) (x : outcome invocation) (c : connection) : connection :=
  match x with
  | Ret (Handle handle_get_challenge_message_ r m) => handle_get_challenge_message rnd m c
  | Ret (Handle handle_answer_challenge_message_ r m) => handle_answer_challenge_message m c
  | Ret (Handle handle_post_message_ r m) => handle_post r m c
  | Ret (Unhandled _ _) => handle_error c
  | _ => c
  end.

Definition dispatcher_of (o : owner) (c : connection) : option message_dispatcher :=
  match o with Unauth => Some (u_dispatcher c) | Auth_ => a_dispatcher c end.

Definition pop_read (c : connection) : option (owner * connection) :=
  match reads c with
  | [] => None
  | o :: rs =>
    Some (o, Conn (_next_id c) (is_open c) (sent c) rs (writes c) (u_dispatcher c) (_authType c) (_challenge c)
                  (_closeAfterTransmission c) (a_dispatcher c) (posted c) (published c))
  end.

Definition pop_write (c : connection) : option (owner * connection) :=
  match writes c with
  | [] => None
  | o :: ws =>
    Some (o, Conn (_next_id c) (is_open c) (sent c) (reads c) ws (u_dispatcher c) (_authType c) (_challenge c)
                  (_closeAfterTransmission c) (a_dispatcher c) (posted c) (published c))
  end.

Definition pop_task (c : connection) : option (task * connection) :=
  match posted c with
  | [] => None
  | t :: ts =>
    Some (t, Conn (_next_id c) (is_open c) (sent c) (reads c) (writes c) (u_dispatcher c) (_authType c) (_challenge c)
                  (_closeAfterTransmission c) (a_dispatcher c) ts (published c))
  end.

Inductive event :=
| Deliver (m : message) (rnd : bytes)
| ReadError (r : network_operation_result)
| WriteDone (r : network_operation_result)
| RunTask.

(** A message that was read: the status callback first, then the dispatch. An
    error: the status callback, then every handler with a null message. *)
Definition step (e : event) (c : connection) : connection :=
  match e with
  | Deliver m rnd =>
    match pop_read c with
    | Some (o, c) =>
      let c := match o with Unauth => u_handle_read_result success c | Auth_ => a_handle_read_result success c end in
      match dispatcher_of o c with
      | Some d => invoke rnd (dispatch success m d).1 c
      | None => c
      end
    | None => c
    end
  | ReadError r =>
    match pop_read c with
    | Some (o, c) =>
      let c := match o with Unauth => u_handle_read_result r c | Auth_ => a_handle_read_result r c end in
      match dispatcher_of o c with
      | Some d => foldl (fun c x => invoke [] x c) c (cancel_all_with_error r d)
      | None => c
      end
    | None => c
    end
  | WriteDone r =>
    match pop_write c with
    | Some (Unauth, c) => u_handle_write_result r c
    | Some (Auth_, c) => a_handle_write_result r c
    | None => c
    end
  | RunTask =>
    match pop_task c with
    | Some (SuccessfulAuth m, c) => successful_auth m c
    | Some (FailedAuth m, c) => failed_auth m c
    | None => c
    end
  end.

Definition run (es : list event) (c : connection) : connection := foldl (fun c e => step e c) c es.

(** ** Who may become authenticated *)

(** The account was found and is not disabled: the first test of [is_authorized]. *)
Definition enabled (fur : find_user_result) : bool := user_found fur && negb (user_level (account fur) =? 0).

(** The answer [m] to the challenge [chal] on a connection of type [t] is one that
    [handle_answer_challenge_message] and [is_authorized] accept, which is more than the
    protocol means to accept: the configured unit test name; for the ring, the hash of the
    ring key and the challenge; for an enabled account, the hash of its stored password hash
    and the challenge; and, because the first test of [is_authorized] does not return, the
    same hash for a disabled account, and the hash of the challenge alone for a name that
    has none (the password hash of an account not found is empty). *)
Inductive accepted_answer (t : option GetChallenge_Type) (chal : bytes) : message -> Prop :=
| accepted_test_name i uname_hash response :
    is_client t = true -> unit_test_username <> [] -> uname_hash = sha unit_test_username ->
    accepted_answer t chal (AnswerChallengeMessage i uname_hash response)
| accepted_ring_key i uname_hash response :
    is_client t = false -> response = sha (sha ring_key ++ chal) ->
    accepted_answer t chal (AnswerChallengeMessage i uname_hash response)
| accepted_account i uname_hash response :
    is_client t = true -> enabled (lookup_user uname_hash) = true ->
    response = sha (pw_hash (account (lookup_user uname_hash)) ++ chal) ->
    accepted_answer t chal (AnswerChallengeMessage i uname_hash response)
| accepted_bypass i uname_hash response :
    is_client t = true -> enabled (lookup_user uname_hash) = false ->
    response = sha (pw_hash (account (lookup_user uname_hash)) ++ chal) ->
    accepted_answer t chal (AnswerChallengeMessage i uname_hash response).

(** The event is a message with an accepted answer to the current challenge of the
    connection, which has been sent. *)
Definition answers (c : connection) (e : event) : Prop :=
  exists m rnd j, e = Deliver m rnd /\ accepted_answer (_authType c) (_challenge c) m /\
    ChallengeResponseMessage j (_challenge c) ∈ sent c.

(** Whatever an authenticated connection can do needs [E], that the challenge was
    answered. *)
Record guarded (E : Prop) (c : connection) : Prop := {
  g_unauth : forall t i h, _handlers (u_dispatcher c) t !! i = Some (Some h) ->
    (h = handle_get_challenge_message_ /\ t = MT_GET_CHALLENGE) \/
    (h = handle_answer_challenge_message_ /\ t = MT_ANSWER_CHALLENGE /\
     exists j, ChallengeResponseMessage j (_challenge c) ∈ sent c);
  g_auth : forall d t i h, a_dispatcher c = Some d -> _handlers d t !! i = Some (Some h) -> h = handle_post_message_;
  g_entered : a_dispatcher c <> None -> E;
  g_posted : forall m, SuccessfulAuth m ∈ posted c -> E;
  g_acked : forall i, AuthAckMessage i true ∈ sent c -> E;
  g_published : published c <> [] -> E
}.

Lemma guarded_mono (E E' : Prop) c : guarded E c -> (E -> E') -> guarded E' c.
Proof. intros [H1 H2 H3 H4 H5 H6] HE. split; eauto. Qed.

(** What a step has to preserve. *)
Lemma guarded_step (E : Prop) c c' :
  guarded E c ->
  (forall t i h, _handlers (u_dispatcher c') t !! i = Some (Some h) ->
     (h = handle_get_challenge_message_ /\ t = MT_GET_CHALLENGE) \/
     (h = handle_answer_challenge_message_ /\ t = MT_ANSWER_CHALLENGE /\
      exists j, ChallengeResponseMessage j (_challenge c') ∈ sent c')) ->
  (forall d t i h, a_dispatcher c' = Some d -> _handlers d t !! i = Some (Some h) -> h = handle_post_message_) ->
  (a_dispatcher c' <> None -> a_dispatcher c <> None \/ E) ->
  (forall m, SuccessfulAuth m ∈ posted c' -> SuccessfulAuth m ∈ posted c \/ E) ->
  (forall i, AuthAckMessage i true ∈ sent c' -> AuthAckMessage i true ∈ sent c \/ E) ->
  (published c' <> [] -> published c <> [] \/ E) ->
  guarded E c'.
Proof.
  intros G Hu Ha He Hp Hk Hb. split; [done|done|..].
  - intros H. destruct (He H); [by apply (g_entered _ _ G)|done].
  - intros m H. destruct (Hp m H); [by eapply (g_posted _ _ G)|done].
  - intros i H. destruct (Hk i H); [by eapply (g_acked _ _ G)|done].
  - intros H. destruct (Hb H); [by apply (g_published _ _ G)|done].
Qed.

(** Steps that touch neither the dispatchers nor what is sent, posted or published. *)
Lemma guarded_frame E c c' :
  guarded E c -> u_dispatcher c' = u_dispatcher c -> a_dispatcher c' = a_dispatcher c ->
  _challenge c' = _challenge c -> sent c' = sent c -> posted c' ⊆ posted c -> published c' = published c ->
  guarded E c'.
Proof.
  intros G Eu Ea Ec Es Ep Eb.
  apply (guarded_step E c); rewrite ?Eu, ?Ea, ?Ec, ?Es, ?Eb; auto; apply G.
Qed.

Lemma guarded_start E : guarded E connection_start.
Proof.
  clear digest hex_encode ring_key lookup_user.
  split; simpl; try done; try (by intros ? ?%not_elem_of_nil).
  intros t i h. case_decide as Ht; [|by rewrite lookup_empty].
  rewrite lookup_insert_Some, lookup_empty. naive_solver.
Qed.

Lemma guarded_get_challenge (E : Prop) rnd m c : guarded E c -> guarded E (handle_get_challenge_message rnd m c).
Proof.
  intros G. destruct m as [[]|]; try done. simpl. apply (guarded_step E c); simpl; auto; try (by apply G).
  - intros t i h. destruct (decide (MT_ANSWER_CHALLENGE = t)) as [Ht|Ht].
    + subst t. rewrite lookup_insert_Some. intros [[_ [= <-]]|[_ H]].
      * right. split_and!; [done|done|]. eexists. apply elem_of_app. right. by left.
      * simpl in H. apply (g_unauth _ _ G) in H as [[_ ?]|(-> & _ & j & Hj)]; [done|].
        right. split_and!; [done|done|]. eexists. apply elem_of_app. right. by left.
    + simpl. case_decide as Ht'; [|intros H; apply (g_unauth _ _ G) in H as [?|(_ & ? & _)]; [auto|congruence]].
      rewrite lookup_delete_Some. intros [_ H]. apply (g_unauth _ _ G) in H as [?|(_ & ? & _)]; [auto|congruence].
  - intros i. rewrite elem_of_app, list_elem_of_singleton. naive_solver.
Qed.

Lemma guarded_successful_auth (E : Prop) m c : guarded E c -> E -> guarded E (successful_auth m c).
Proof.
  intros G Hev. apply (guarded_step E c); simpl; auto; try (by apply G).
  - intros t i h H. apply (g_unauth _ _ G) in H as [?|(? & ? & j & Hj)]; [auto|].
    right. split_and!; [done|done|]. exists j. set_solver.
  - intros d t i h [= <-]. simpl. case_decide; [|by rewrite lookup_empty].
    rewrite lookup_insert_Some, lookup_empty. naive_solver.
Qed.

Lemma guarded_failed_auth (E : Prop) m c : guarded E c -> guarded E (failed_auth m c).
Proof.
  intros G. apply (guarded_step E c); simpl; auto; try (by apply G).
  - intros t i h H. apply (g_unauth _ _ G) in H as [?|(? & ? & j & Hj)]; [auto|].
    right. split_and!; [done|done|]. exists j. set_solver.
  - intros i. rewrite elem_of_app, list_elem_of_singleton. naive_solver.
Qed.

Lemma lookup_cb_true chal resp fur :
  true ∈ user_lookup_cb digest hex_encode chal resp fur <-> resp = sha (pw_hash (account fur) ++ chal).
Proof.
  unfold user_lookup_cb, sha256_hex_string. rewrite elem_of_app.
  case_match; case_decide; set_solver.
Qed.

Lemma guarded_answer (E : Prop) m c :
  guarded E c -> (forall x, m = Some x -> accepted_answer (_authType c) (_challenge c) x -> E) ->
  guarded E (handle_answer_challenge_message m c).
Proof.
  intros G Hd. destruct m as [[| |i u r| | | | | | | | |]|]; try done. simpl.
  set (msg := AnswerChallengeMessage i u r) in *.
  pose proof (Hd msg eq_refl) as Hev.
  destruct (is_client (_authType c)) eqn:E2; cbn [andb].
  - destruct (negb (bool_decide (unit_test_username = [])) && bool_decide (u = sha unit_test_username)) eqn:E1.
    + apply guarded_successful_auth; [done|]. apply Hev. zify_tests. apply bool_decide_eq_true in H0.
      apply bool_decide_eq_false in H. by apply accepted_test_name.
    + apply (guarded_step E c); simpl; auto; try (by apply G).
      intros m'. rewrite elem_of_app, list_elem_of_fmap. intros [?|(b & Eb & Hb)]; [auto|right]. apply Hev.
      destruct b; [|done]. apply lookup_cb_true in Hb.
      destruct (enabled (lookup_user u)) eqn:Ee; [by apply accepted_account|by apply accepted_bypass].
  - destruct (decide (r = sha (sha ring_key ++ _challenge c))) as [E3|E3].
    + apply guarded_successful_auth; [done|]. apply Hev. by apply accepted_ring_key.
    + by apply guarded_failed_auth.
Qed.

Lemma guarded_post (E : Prop) r m c : guarded E c -> E -> guarded E (handle_post r m c).
Proof.
  intros G Hev. destruct m as [[]|]; try done. simpl. case_match; [|done].
  apply (guarded_step E c); simpl; auto; try (by apply G).
Qed.

(** A handler selected from one of the two dispatchers. *)
Lemma guarded_invoke (E : Prop) rnd o d h r m c :
  guarded E c -> dispatcher_of o c = Some d ->
  (exists t i, _handlers d t !! i = Some (Some h)) ->
  (forall x, m = Some x -> accepted_answer (_authType c) (_challenge c) x ->
     (exists j, ChallengeResponseMessage j (_challenge c) ∈ sent c) -> E) ->
  guarded E (invoke rnd (Ret (Handle h r m)) c).
Proof.
  intros G Hd (t & i & Hh) Hm. destruct o; simpl in Hd.
  - simplify_eq. apply (g_unauth _ _ G) in Hh as [[-> _]|(-> & _ & Hj)]; simpl.
    + by apply guarded_get_challenge.
    + apply guarded_answer; eauto.
  - assert (h = handle_post_message_) as -> by (by eapply g_auth).
    apply guarded_post; [done|]. apply (g_entered _ _ G). congruence.
Qed.

Lemma invoke_cancel r d c x : x ∈ cancel_all_with_error r d -> invoke [] x c = c.
Proof.
  intros (t & Hx & _)%list_elem_of_bind. apply list_elem_of_fmap in Hx as ([i [h|]] & -> & _); simpl; [|done].
  by destruct h.
Qed.

Lemma foldl_cancel r d c : foldl (fun c x => invoke [] x c) c (cancel_all_with_error r d) = c.
Proof.
  pose proof (invoke_cancel r d) as H. induction (cancel_all_with_error r d) as [|x l IH]; simpl; [done|].
  rewrite H by (by left). apply IH. intros c' x' Hx'. apply H. by right.
Qed.

Lemma guarded_event (E : Prop) e c : guarded E c -> guarded (E \/ answers c e) (step e c).
Proof.
  intros G0. assert (guarded (E \/ answers c e) c) as G by (eapply guarded_mono; [done|tauto]). clear G0.
  destruct e as [m rnd|r|r|]; simpl.
  - unfold pop_read. destruct (reads c) as [|o rs]; [done|].
    set (c1 := match o with Unauth => _ | Auth_ => _ end).
    assert (guarded (E \/ answers c (Deliver m rnd)) c1) as G1 by (by destruct o; apply (guarded_frame _ c)).
    assert (_authType c1 = _authType c /\ _challenge c1 = _challenge c /\ sent c1 = sent c) as (Et & Ec & Es) by (by destruct o).
    destruct (dispatcher_of o c1) as [d|] eqn:Ed; [|done]. rewrite dispatch_spec.
    destruct (_handlers d (type_of m) !! in_reply_to (identity m)) as [[h|]|] eqn:Eh; simpl; [|done|].
    + eapply (guarded_invoke _ rnd o d h success (Some m)); [done|done|eauto|].
      intros x [= <-]. rewrite Et, Ec, Es. intros Hc [j Hj]. right. by exists m, rnd, j.
    + destruct (_unhandledHandler d); simpl; [|done]. by apply (guarded_frame _ c1).
  - unfold pop_read. destruct (reads c) as [|o rs]; [done|].
    set (c1 := match o with Unauth => _ | Auth_ => _ end).
    assert (guarded (E \/ answers c (ReadError r)) c1) as G1.
    { destruct o; unfold c1, u_handle_read_result, a_handle_read_result; case_match; by apply (guarded_frame _ c). }
    destruct (dispatcher_of o c1) as [d|] eqn:Ed; [|done]. by rewrite foldl_cancel.
  - unfold pop_write. destruct (writes c) as [|[] ws]; [done| |];
      unfold u_handle_write_result, a_handle_write_result; repeat case_match; by apply (guarded_frame _ c).
  - unfold pop_task. destruct (posted c) as [|[m|m] ts] eqn:Ep; [done| |].
    + apply guarded_successful_auth.
      * apply (guarded_frame _ c); simpl; try done. rewrite Ep. set_solver.
      * apply (g_posted _ _ G m). rewrite Ep. by left.
    + apply guarded_failed_auth. apply (guarded_frame _ c); simpl; try done. rewrite Ep. set_solver.
Qed.

(** Some event of the run answered the challenge that was current when it came. *)
Definition answered (es : list event) : Prop :=
  exists es1 e es2, es = es1 ++ e :: es2 /\ answers (run es1 connection_start) e.

Lemma guarded_run es : guarded (answered es) (run es connection_start).
Proof.
  induction es as [|e es IH] using rev_ind; [apply guarded_start|].
  unfold run. rewrite foldl_snoc. fold (run es connection_start).
  eapply guarded_mono; [by apply guarded_event|]. intros [(es1 & e1 & es2 & -> & H)|H].
  - exists es1, e1, (es2 ++ [e]). by rewrite <- app_assoc.
  - by exists es, e, [].
Qed.

(** ** Properties *)

(** C11. No way around the challenge: on every sequence of messages, errors and
    completions, in any order, a message is published over a connection, or an
    acceptance is sent, only if some message before it answered the challenge that was
    current when it came, and had been sent by then, with an answer the code accepts for
    that challenge and the kind of connection: the four cases of [accepted_answer], of which
    the last is the way around the account that [is_authorized] leaves open. *)
Theorem auth_required es :
  let c := run es connection_start in
  published c <> [] \/ (exists i, AuthAckMessage i true ∈ sent c) ->
  exists es1 m rnd es2, es = es1 ++ Deliver m rnd :: es2 /\
    let c1 := run es1 connection_start in
    accepted_answer (_authType c1) (_challenge c1) m /\
    exists j, ChallengeResponseMessage j (_challenge c1) ∈ sent c1.
Proof.
  intros c H. assert (answered es) as (es1 & e & es2 & -> & m & rnd & j & -> & Hc & Hj).
  { destruct H as [H|[i H]]; [exact (g_published _ _ (guarded_run es) H)|exact (g_acked _ _ (guarded_run es) i H)]. }
  exists es1, m, rnd, es2. eauto.
Qed.

(** The handshake starts with a request for a challenge: any other first
    message closes the connection, and nothing is sent. *)
Theorem auth_first_message m rnd :
  (type_of m <> MT_GET_CHALLENGE \/ in_reply_to (identity m) <> 0) ->
  let c := step (Deliver m rnd) connection_start in
  is_open c = false /\ sent c = [] /\ a_dispatcher c = None /\ reads c = [].
Proof.
  intros Hm. simpl. rewrite dispatch_spec. simpl.
  assert ((if decide (MT_GET_CHALLENGE = type_of m) then <[0:=Some handle_get_challenge_message_]> ∅ else ∅ : gmap Z (option handler))
    !! in_reply_to (identity m) = None) as ->; [|done].
  case_decide; [|done]. rewrite lookup_insert_None. split; [done|]. destruct Hm; congruence.
Qed.

(** The connection after it sent the challenge [rnd]. *)
Definition challenged (k : Z) (rnd : bytes) : connection :=
  Conn 1 true [ChallengeResponseMessage (Ident 1 k) rnd] [Unauth] [Unauth]
    (set_handler_reply MT_ANSWER_CHALLENGE (Some handle_answer_challenge_message_) 1
       (set_handler MT_GET_CHALLENGE None
          (set_handler MT_GET_CHALLENGE (Some handle_get_challenge_message_)
             (message_dispatcher_new (Some unauth_unhandled_message_)))))
    (Some GC_CLIENT) rnd false None [] [].

Lemma challenge_step k rnd :
  step (Deliver (GetChallengeMessage (Ident k 0) GC_CLIENT) rnd) connection_start = challenged k rnd.
Proof. reflexivity. Qed.

Lemma answer_step k k2 rnd rnd2 uname resp bs :
  unit_test_username = [] -> user_lookup_cb digest hex_encode rnd resp (lookup_user uname) = bs ->
  step (Deliver (AnswerChallengeMessage (Ident k2 1) uname resp) rnd2) (challenged k rnd) =
    Conn 1 true [ChallengeResponseMessage (Ident 1 k) rnd] [] [Unauth] (u_dispatcher (challenged k rnd))
      (Some GC_CLIENT) rnd false None (auth_callback (AnswerChallengeMessage (Ident k2 1) uname resp) <$> bs) [].
Proof.
  intros Hu <-. set (m := AnswerChallengeMessage (Ident k2 1) uname resp).
  change (step (Deliver m rnd2) (challenged k rnd)) with
    (handle_answer_challenge_message (Some m)
      (Conn 1 true [ChallengeResponseMessage (Ident 1 k) rnd] [] [Unauth] (u_dispatcher (challenged k rnd))
        (Some GC_CLIENT) rnd false None [] [])).
  unfold handle_answer_challenge_message, m. rewrite Hu. reflexivity.
Qed.

(** The server's side of a login: after a request for a challenge and an
    answer to it, an account check that answers once decides the connection, which
    becomes authenticated and waits for messages, or is told it is not and closed
    when that reply has been written. *)
Theorem auth_server_login k k2 rnd rnd2 uname resp b :
  unit_test_username = [] ->
  user_lookup_cb digest hex_encode rnd resp (lookup_user uname) = [b] ->
  let es := [Deliver (GetChallengeMessage (Ident k 0) GC_CLIENT) rnd;
             Deliver (AnswerChallengeMessage (Ident k2 1) uname resp) rnd2; RunTask;
             WriteDone success; WriteDone success] in
  let c := run es connection_start in
  sent c = [ChallengeResponseMessage (Ident 1 k) rnd; AuthAckMessage (Ident 2 k2) b] /\
  is_open c = b /\ (a_dispatcher c <> None <-> b = true) /\ reads c = (if b then [Auth_] else []).
Proof.
  intros Hu Hb es c. subst c es. unfold run. cbn [foldl]. rewrite challenge_step.
  rewrite (answer_step k k2 rnd rnd2 uname resp [b]) by done. by destruct b.
Qed.

(** A name without an account: answering with the hash of the challenge alone is
    refused and then accepted, and a message published before the refusal has
    been written is handled. *)
Lemma unknown_user_admitted k k2 rnd rnd2 uname p :
  unit_test_username = [] -> lookup_user uname = FUR false None user_account_default ->
  in_reply_to (pub_identity p) = 0 ->
  let es := [Deliver (GetChallengeMessage (Ident k 0) GC_CLIENT) rnd;
             Deliver (AnswerChallengeMessage (Ident k2 1) uname (sha rnd)) rnd2; RunTask; RunTask;
             Deliver (PublishMsg p) []] in
  let c := run es connection_start in
  published c = [p] /\ is_open c = true /\
  sent c = [ChallengeResponseMessage (Ident 1 k) rnd; AuthAckMessage (Ident 2 k2) false; AuthAckMessage (Ident 3 k2) true].
Proof.
  intros Hu Hl Hp es c. subst c es. unfold run. cbn [foldl]. rewrite challenge_step.
  rewrite (answer_step k k2 rnd rnd2 uname (sha rnd) [false; true]); [|done|].
  - destruct p as [[i r] ? ? ? ? ?]. simpl in Hp. subst r. done.
  - rewrite Hl. unfold user_lookup_cb, sha256_hex_string. simpl. by rewrite decide_True.
Qed.

End Auth.

(** ** Concrete connections *)

Definition sample_store (u : bytes) : find_user_result :=
  if decide (u = [7; 65]) then FUR true None (UA [7; 65] [65] [7; 66] 1) else FUR false None user_account_default.

Definition sample_login : list event :=
  [Deliver (GetChallengeMessage (Ident 1 0) GC_CLIENT) [5];
   Deliver (AnswerChallengeMessage (Ident 2 1) [7; 65] [7; 7; 66; 5]) []; RunTask].

Lemma auth_required_witness :
  exists es1 m rnd es2, sample_login = es1 ++ Deliver m rnd :: es2 /\
    let c1 := run toy_digest toy_hex [] [1] sample_store es1 connection_start in
    accepted_answer toy_digest toy_hex [] [1] sample_store (_authType c1) (_challenge c1) m.
Proof.
  destruct (auth_required toy_digest toy_hex [] [1] sample_store sample_login) as (es1 & m & rnd & es2 & E & Hc & _).
  - right. exists (Ident 2 2). apply list_elem_of_In. vm_compute. auto.
  - exists es1, m, rnd, es2. split; [exact E|exact Hc].
Defined.

Lemma auth_first_message_witness :
  is_open (step toy_digest toy_hex [] [1] sample_store (Deliver (AuthAckMessage (Ident 1 0) true) []) connection_start) = false.
Proof. apply (auth_first_message toy_digest toy_hex [] [1] sample_store (AuthAckMessage (Ident 1 0) true) []). by left. Defined.

Lemma auth_server_login_witness :
  is_open (run toy_digest toy_hex [] [1] sample_store (sample_login ++ [WriteDone success; WriteDone success]) connection_start) = true.
Proof.
  destruct (auth_server_login toy_digest toy_hex [] [1] sample_store 1 2 [5] [] [7; 65] [7; 7; 66; 5] true eq_refl)
    as (_ & H & _); [vm_compute; reflexivity|exact H].
Defined.

End Auth.
