(* ===== verification/Transport.v ===== *)
(** * Connections over bytes

    Composes [Wire] ([shared/src/messageutil.cpp], [shared/src/netutil.cpp]) with the
    connection of [Auth]: the peer sends bytes, whatever they are and however they are
    cut into segments, and each outstanding read of the connection takes one frame from
    them. The events of [Auth] are what that does to a connection. *)

From Stdlib Require Import ZArith Lia Ascii String.
From stdpp Require Import base list gmap strings.
From S2P Require Import Prelude Clocks MessageQueue Messages Dispatcher Wire Account Auth.

Local Open Scope Z_scope.
Local Open Scope sopmq_scope.

Module Transport.
Import Messages Dispatcher Account Auth.
Abbreviation bytes := MessageQueue.bytes.

Section Transport.
Context (parse : message_type -> bytes -> option message) (maxSize : Z).
Context (digest hex_encode : bytes -> bytes) (unit_test_username ring_key : bytes).
Context (lookup_user : bytes -> find_user_result).
Abbreviation conn_step := (Auth.step digest hex_encode unit_test_username ring_key lookup_user).
Abbreviation conn_run := (Auth.run digest hex_encode unit_test_username ring_key lookup_user).
Abbreviation invoke := (Auth.invoke digest hex_encode unit_test_username ring_key lookup_user).
Abbreviation read_message := (Wire.read_message parse maxSize).

(** ** One read *)

(** A callback of [messageutil]: the status callback of the state that started the read,
    or its dispatcher. *)
Definition on_read_event (rnd : bytes) (o : owner) (ev : Wire.read_event) (c : connection) : connection :=
  match ev with
  | Wire.Status r => match o with Unauth => u_handle_read_result r c | Auth_ => a_handle_read_result r c end
  | Wire.Cancel r =>
    match dispatcher_of o c with
    | Some d => foldl (fun c x => invoke [] x c) c (cancel_all_with_error r d)
    | None => c
    end
  | Wire.Dispatch r m =>
    match dispatcher_of o c with
    | Some d => invoke rnd (dispatch r m d).1 c
    | None => c
    end
  end.

(** The oldest outstanding read takes a frame from the bytes [s]. *)
Definition complete_read (rnd s : bytes) (c : connection) : outcome (bytes * connection) :=
  match pop_read c with
  | None => Ret (s, c)
  | Some (o, c) =>
    r <~ read_message s;;
    Ret (r.2, foldl (fun c ev => on_read_event rnd o ev c) c r.1)
  end.

(** The bytes are not enough to tell how the read ends. *)
Definition blocked (s : bytes) : bool :=
  match Wire.read_u16 s with
  | None => true
  | Some (t, s) =>
    if (t <=? MT_INVALID) || (MT_INVALID_OUT_OF_RANGE <=? t) then false
    else match Wire.read_u32 s with
      | None => true
      | Some (n, s) => if maxSize <? n then false else negb (Z.to_nat n <=? length s)%nat
      end
  end.

(** ** The connection and the bytes that wait for it *)

Inductive input :=
| Arrive (b : bytes)
| ReadReady (rnd : bytes)
| ReadClosed (rnd : bytes)
| Wrote (r : network_operation_result)
| Run.

(** Bytes arrive, a read that has its frame completes, the peer has closed and a read
    completes with what there is, a write completes, a posted task runs. *)
Definition tstep (i : input) (p : bytes * connection) : outcome (bytes * connection) :=
  let '(s, c) := p in
  match i with
  | Arrive b => Ret (s ++ b, c)
  | ReadReady rnd => if blocked s then Ret (s, c) else complete_read rnd s c
  | ReadClosed rnd => complete_read rnd s c
  | Wrote r => Ret (s, conn_step (WriteDone r) c)
  | Run => Ret (s, conn_step RunTask c)
  end.

Fixpoint trun (ins : list input) (p : bytes * connection) : outcome (bytes * connection) :=
  match ins with
  | [] => Ret p
  | i :: ins => p <~ tstep i p;; trun ins p
  end.

Definition arrived (ins : list input) : bytes := ins ≫= fun i => match i with Arrive b => b | _ => [] end.

(** ** Reading a frame *)

Lemma async_read_more n s a b t : Wire.async_read n s = Some (a, b) -> Wire.async_read n (s ++ t) = Some (a, b ++ t).
Proof.
  unfold Wire.async_read. destruct (Nat.leb_spec n (length s)); [|done]. intros [= <- <-].
  rewrite (proj2 (Nat.leb_le _ _)) by (rewrite length_app; lia). by rewrite take_app_le, drop_app_le by lia.
Qed.

Lemma async_read_split n s a b : Wire.async_read n s = Some (a, b) -> s = a ++ b /\ length a = n.
Proof.
  unfold Wire.async_read. destruct (Nat.leb_spec n (length s)); [|done]. intros [= <- <-].
  rewrite take_drop, length_take. split; [done|lia].
Qed.

(** What a completed read does to its owner: a message, or a failure. *)
Inductive outcome_of : list Wire.read_event -> option message -> Prop :=
| read_delivers m : outcome_of [Wire.Status success; Wire.Dispatch success m] (Some m)
| read_fails r : was_successful r = false -> outcome_of (Wire.on_read_error r) None
| read_unparsed r : was_successful r = false -> outcome_of [Wire.Status r] None.

(** A read that has enough bytes takes a prefix [f] of them, and does so whatever comes
    after it; a read that has not fails when the stream ends. *)
Lemma read_message_view s :
  if blocked s then exists rest, read_message s = Ret (Wire.on_read_error (from_error_code Wire.end_of_file), rest)
  else exists ev m f rest, s = f ++ rest /\ (2 <= length f)%nat /\ outcome_of ev m /\
    forall t, read_message (f ++ t) = Ret (ev, t) /\ blocked (f ++ t) = false.
Proof.
  unfold blocked at 1. unfold Wire.read_u16. destruct (Wire.async_read 2 s) as [[h1 s1]|] eqn:E1; simpl.
  2: { exists s. unfold Wire.read_message, Wire.read_u16. by rewrite E1. }
  apply async_read_split in E1 as [-> L1].
  assert (forall t, Wire.read_u16 (h1 ++ t) = Some (Wire.be_value h1, t)) as R1
    by (intros t; unfold Wire.read_u16; by rewrite Wire.async_read_app).
  destruct ((Wire.be_value h1 <=? MT_INVALID) || (MT_INVALID_OUT_OF_RANGE <=? Wire.be_value h1)) eqn:Et.
  { exists (Wire.on_read_error (NOR ET_INVALID_TYPE "Message type is invalid")), None, h1, s1. split_and!; [done|lia|by apply read_fails|]. intros t.
    unfold Wire.read_message, blocked. rewrite R1. unfold Wire.after_read_message_type. by rewrite Et. }
  unfold Wire.read_u32. destruct (Wire.async_read 4 s1) as [[h2 s2]|] eqn:E2; simpl.
  2: { exists s1. unfold Wire.read_message. rewrite R1. unfold Wire.after_read_message_type, Wire.read_u32. by rewrite Et, E2. }
  apply async_read_split in E2 as [-> L2].
  assert (forall t, Wire.read_u32 (h2 ++ t) = Some (Wire.be_value h2, t)) as R2
    by (intros t; unfold Wire.read_u32; by rewrite Wire.async_read_app).
  destruct (maxSize <? Wire.be_value h2) eqn:Em.
  { exists (Wire.on_read_error (NOR ET_INVALID_TYPE "Message was too large")), None, (h1 ++ h2), s2. split_and!; [by rewrite app_assoc|rewrite length_app; lia|by apply read_fails|].
    intros t. rewrite <- app_assoc. unfold Wire.read_message, blocked. rewrite R1. unfold Wire.after_read_message_type.
    rewrite Et, R2. unfold Wire.after_read_message_size. by rewrite Em. }
  destruct (Nat.leb_spec (Z.to_nat (Wire.be_value h2)) (length s2)) as [Hl|Hl]; simpl.
  2: { exists s2. unfold Wire.read_message. rewrite R1. unfold Wire.after_read_message_type. rewrite Et, R2.
       unfold Wire.after_read_message_size. by rewrite Em, Wire.async_read_short. }
  set (n := Z.to_nat (Wire.be_value h2)) in *. apply orb_false_iff in Et as Et'. destruct Et' as [Et1 Et2].
  apply Z.leb_gt in Et1, Et2. destruct (mt_of_value_valid _ (conj Et1 Et2)) as [t Ht].
  exists (Wire.template_dispatch parse t (take n s2) success), (parse t (take n s2)), (h1 ++ h2 ++ take n s2), (drop n s2).
  split_and!.
  - by rewrite <- !app_assoc, take_drop.
  - rewrite !length_app. lia.
  - unfold Wire.template_dispatch. destruct (parse t (take n s2)); by constructor.
  - intros u. rewrite <- !app_assoc. unfold Wire.read_message, blocked. rewrite R1. unfold Wire.after_read_message_type.
    rewrite Et, R2. unfold Wire.after_read_message_size. rewrite Em. fold n.
    rewrite Wire.async_read_app by (rewrite length_take; lia). unfold Wire.switch_dispatch. rewrite Ht. split; [done|].
    rewrite length_app, length_take. apply negb_false_iff, Nat.leb_le. lia.
Qed.

(** ** Reads as events *)

(** The event of [Auth] that a completed read is. *)
Definition event_of (rnd : bytes) (ev : list Wire.read_event) : event :=
  match ev with
  | Wire.Status _ :: Wire.Dispatch _ m :: _ => Deliver m rnd
  | Wire.Status r :: _ => ReadError r
  | _ => RunTask
  end.

Lemma read_event_step rnd o ev m c c0 : outcome_of ev m -> pop_read c = Some (o, c0) ->
  foldl (fun c ev => on_read_event rnd o ev c) c0 ev = conn_step (event_of rnd ev) c.
Proof.
  intros Hev Hp. destruct Hev as [m|r Hr|r Hr]; simpl; rewrite Hp; [done|done|].
  destruct (dispatcher_of o _) as [d|]; [|done]. by rewrite foldl_cancel.
Qed.

Lemma complete_read_spec rnd s c :
  complete_read rnd s c = Ret (s, c) /\ reads c = [] \/
  reads c <> [] /\ exists ev m f rest, outcome_of ev m /\
    complete_read rnd s c = Ret (rest, conn_step (event_of rnd ev) c) /\
    (is_Some m -> s = f ++ rest /\ read_message f = Ret (ev, []) /\ (2 <= length f)%nat).
Proof.
  unfold complete_read. destruct (pop_read c) as [[o c0]|] eqn:Ep.
  2: { left. split; [done|]. unfold pop_read in Ep. by destruct (reads c). }
  right. split; [intros E; unfold pop_read in Ep; by rewrite E in Ep|]. pose proof (read_message_view s) as V. destruct (blocked s).
  - destruct V as (rest & ->). exists (Wire.on_read_error (from_error_code Wire.end_of_file)), None, [], rest. split; [by apply read_fails|].
    split; [|by intros []]. cbn [obind fst snd]. f_equal. f_equal.
    by apply (read_event_step rnd o _ None), Ep; apply read_fails.
  - destruct V as (ev & m & f & rest & -> & Hf & Ho & Hr). exists ev, m, f, rest. split; [done|].
    rewrite (proj1 (Hr rest)). cbn [obind fst snd]. split; [|].
    + by rewrite (read_event_step rnd o ev m c) by done.
    + intros _. split_and!; [done| |done]. rewrite <- (app_nil_r f) at 1. apply Hr.
Qed.

(** ** At most one read *)

Definition is_success (t : task) : bool := match t with SuccessfulAuth _ => true | FailedAuth _ => false end.

(** The reads that are outstanding and those that posted tasks will start. *)
Definition budget (c : connection) : nat :=
  length (reads c) + length (filter (fun t => is_success t = true) (posted c)).

Lemma budget_same c c' : reads c' = reads c -> posted c' = posted c -> budget c' = budget c.
Proof. unfold budget. by intros -> ->. Qed.

Lemma budget_read o c c' : reads c' = reads c ++ [o] -> posted c' = posted c -> budget c' = S (budget c).
Proof. unfold budget. intros -> ->. rewrite length_app. simpl. lia. Qed.

Ltac budget_of c :=
  first [ lia | rewrite (budget_read Auth_ c) by done; lia | rewrite (budget_read Unauth c) by done; lia
        | rewrite (budget_same c) by done; lia ].

Lemma lookup_cb_budget m chal resp fur :
  (length (filter (fun t => is_success t = true) (auth_callback m <$> user_lookup_cb digest hex_encode chal resp fur)) <= 1)%nat.
Proof. unfold user_lookup_cb. destruct (_ || _); case_decide; simpl; lia. Qed.

Lemma answer_budget m c :
  (budget (handle_answer_challenge_message digest hex_encode unit_test_username ring_key lookup_user m c) <= S (budget c))%nat.
Proof.
  destruct m as [[| |i u r| | | | | | | | |]|]; try (simpl; lia). unfold handle_answer_challenge_message.
  destruct (_ && _); [by rewrite (budget_read Auth_ c)|]. destruct (is_client _).
  - unfold budget, post. simpl. rewrite filter_app, length_app.
    pose proof (lookup_cb_budget (AnswerChallengeMessage i u r) (_challenge c) r (lookup_user u)). lia.
  - case_decide; [by rewrite (budget_read Auth_ c)|]. rewrite (budget_same c); [lia|done|done].
Qed.

Lemma invoke_budget rnd x c : (budget (invoke rnd x c) <= S (budget c))%nat.
Proof.
  destruct x as [[[] r m|h m]| |]; simpl; try lia; try apply answer_budget; try (rewrite (budget_same c); [lia|done|done]).
  - destruct m as [[]|]; simpl; try lia. by rewrite (budget_read Unauth c).
  - destruct m as [[]|]; simpl; try lia. case_match; [|lia]. rewrite (budget_same c); [lia|done|done].
Qed.

Lemma pop_read_budget c o c0 : pop_read c = Some (o, c0) -> budget c = S (budget c0).
Proof. unfold pop_read, budget. destruct (reads c); [done|]. intros [= <- <-]. simpl. lia. Qed.

(** No step makes room for a second read. *)
Lemma step_budget E e c : guarded E c -> (budget (conn_step e c) <= budget c)%nat.
Proof.
  intros G. destruct e as [m rnd|r|r|]; simpl.
  - destruct (pop_read c) as [[o c0]|] eqn:Ep; [|done]. rewrite (pop_read_budget _ _ _ Ep). destruct o; simpl.
    + etrans; [apply invoke_budget|]. rewrite (budget_same c0); [lia|done|done].
    + assert (a_dispatcher c0 = a_dispatcher c) as Ea by (unfold pop_read in Ep; destruct (reads c); by simplify_eq).
      destruct (a_dispatcher c0) as [d|] eqn:Ed; [|by rewrite (budget_read Auth_ c0)].
      assert (forall c1, budget c1 = S (budget c0) -> (budget (invoke rnd (dispatch success m d).1 c1) <= S (budget c0))%nat) as H.
      { intros c1 H1. rewrite dispatch_spec. destruct (_handlers d (type_of m) !! _) as [[h|]|] eqn:Eh; simpl; [|lia|].
        - rewrite (g_auth _ _ G d (type_of m) (in_reply_to (identity m)) h) by done.
          destruct m; simpl; try lia; rewrite (budget_same c1); [lia|done|done].
        - destruct (_unhandledHandler d); simpl; [|lia]. rewrite (budget_same c1); [lia|done|done]. }
      apply H. by apply (budget_read Auth_).
  - destruct (pop_read c) as [[o c0]|] eqn:Ep; [|done]. rewrite (pop_read_budget _ _ _ Ep).
    set (c1 := match o with Unauth => _ | _ => _ end). assert (budget c1 <= S (budget c0))%nat as H1.
    { unfold c1. destruct o; unfold u_handle_read_result, a_handle_read_result; case_match; budget_of c0. }
    destruct (dispatcher_of o c1); [by rewrite foldl_cancel|done].
  - unfold pop_write. destruct (writes c) as [|[] ws]; [done| |];
      unfold u_handle_write_result, a_handle_write_result; repeat case_match; budget_of c.
  - unfold pop_task. destruct (posted c) as [|[m|m] ts] eqn:Ep; [done| |]; unfold budget; rewrite Ep.
    + rewrite filter_cons_True by done. cbn. rewrite length_app. simpl. lia.
    + rewrite filter_cons_False by done. done.
Qed.

(** A read that fails is not repeated. *)
Lemma read_error_budget r c : reads c <> [] -> was_successful r = false -> budget c = S (budget (conn_step (ReadError r) c)).
Proof.
  intros Hr Hs. simpl. destruct (pop_read c) as [[o c0]|] eqn:Ep; [|unfold pop_read in Ep; by destruct (reads c)].
  rewrite (pop_read_budget _ _ _ Ep). f_equal.
  set (c1 := match o with Unauth => _ | _ => _ end). assert (budget c1 = budget c0) as H1.
  { unfold c1. destruct o; unfold u_handle_read_result, a_handle_read_result; rewrite Hs; by apply budget_same. }
  destruct (dispatcher_of o c1); by rewrite ?foldl_cancel.
Qed.

(** ** Bytes refine events *)

Definition deliveries (es : list event) : list message :=
  omap (fun e => match e with Deliver m _ => Some m | _ => None end) es.

(** The bytes [f] are exactly one frame, of the message [m]. *)
Definition frame_of (f : bytes) (m : message) : Prop :=
  read_message f = Ret ([Wire.Status success; Wire.Dispatch success m], []).

(** The connection is where the events [es] lead, the messages among them are the frames
    at the front of the bytes that arrived, and the rest of the bytes waits, unless no
    read will ever take it. *)
Definition simulates (ins : list input) (s : bytes) (c : connection) (es : list event) : Prop :=
  c = conn_run es connection_start /\ (budget c <= 1)%nat /\
  exists frames rest, arrived ins = concat frames ++ rest /\ Forall2 frame_of frames (deliveries es) /\
    (rest = s \/ budget c = 0%nat).

Lemma run_event es e : conn_run (es ++ [e]) connection_start = conn_step e (conn_run es connection_start).
Proof. unfold Auth.run. by rewrite foldl_snoc. Qed.

Lemma deliveries_snoc es e : deliveries (es ++ [e]) = deliveries es ++ deliveries [e].
Proof. apply omap_app. Qed.

Lemma arrived_snoc ins i : arrived (ins ++ [i]) = arrived ins ++ match i with Arrive b => b | _ => [] end.
Proof. unfold arrived. rewrite bind_app. simpl. by rewrite app_nil_r. Qed.

(** A step that neither takes bytes nor delivers. *)
Lemma simulates_event ins s c es i e : simulates ins s c es -> deliveries [e] = [] ->
  (forall b, i <> Arrive b) -> simulates (ins ++ [i]) s (conn_step e c) (es ++ [e]).
Proof.
  intros (-> & Hb & frames & rest & Ea & Hf & Hr) He Hi. rewrite <- run_event.
  pose proof (step_budget _ e _ (guarded_run digest hex_encode unit_test_username ring_key lookup_user es)) as Hs.
  rewrite <- run_event in Hs. split; [done|]. split; [lia|]. exists frames, rest.
  rewrite arrived_snoc, deliveries_snoc, He, app_nil_r. split_and!; [|done|destruct Hr; [auto|right; lia]].
  destruct i; try by rewrite app_nil_r. by destruct (Hi b).
Qed.

(** What completing a read does to any connection: nothing, or one event; the bytes
    [pend] that were not accounted for lose the frame that was delivered. *)
Lemma complete_read_accounts E rnd s c pend :
  guarded E c -> (budget c <= 1)%nat -> pend = s \/ budget c = 0%nat ->
  exists s' es frames pend', complete_read rnd s c = Ret (s', conn_run es c) /\
    (s' = s /\ es = [] \/ (0 < budget c)%nat /\ exists e, es = [e]) /\ (budget (conn_run es c) <= 1)%nat /\
    pend = concat frames ++ pend' /\ Forall2 frame_of frames (deliveries es) /\
    (pend' = s' \/ budget (conn_run es c) = 0%nat).
Proof.
  intros G Hb Hp. destruct (complete_read_spec rnd s c) as [[-> Hr]|(Hr & ev & m & f & rest & Ho & -> & Hm)].
  { exists s, [], [], pend. split_and!; by auto. }
  assert (0 < budget c)%nat as Hpos by (unfold budget; destruct (reads _); simpl; [done|lia]).
  pose proof (step_budget _ (event_of rnd ev) _ G) as Hs. destruct Hp as [->|?]; [|lia].
  exists rest, [event_of rnd ev]. destruct Ho as [m|r Hr'|r Hr'].
  - destruct (Hm ltac:(eauto)) as (-> & Hfr & _). exists [f], rest. simpl. rewrite app_nil_r.
    split_and!; [done|eauto|simpl in Hs; lia|done|by repeat constructor|by left].
  - exists [], s. pose proof (read_error_budget r _ Hr Hr'). simpl in *.
    split_and!; [done|eauto|lia|done|constructor|right; lia].
  - exists [], s. pose proof (read_error_budget r _ Hr Hr'). simpl in *.
    split_and!; [done|eauto|lia|done|constructor|right; lia].
Qed.

Lemma simulates_read ins s c es i rnd : simulates ins s c es -> (forall b, i <> Arrive b) ->
  exists s' c' es', complete_read rnd s c = Ret (s', c') /\ simulates (ins ++ [i]) s' c' es'.
Proof.
  intros (-> & Hb & frames & pend & Ef & Hf & Hp) Hi.
  assert (arrived (ins ++ [i]) = arrived ins) as Ea.
  { rewrite arrived_snoc. destruct i; try by rewrite app_nil_r. by destruct (Hi b). }
  destruct (complete_read_accounts _ rnd s _ pend
    (guarded_run digest hex_encode unit_test_username ring_key lookup_user es) Hb Hp)
    as (s' & es' & fr & pend' & E & _ & Hb' & -> & Hf' & Hp').
  assert (conn_run (es ++ es') connection_start = conn_run es' (conn_run es connection_start)) as Er
    by (unfold Auth.run; by rewrite foldl_app).
  eexists _, _, (es ++ es'). split; [exact E|]. rewrite <- Er in *. split_and!; [done|done|].
  exists (frames ++ fr), pend'. rewrite Ea, Ef, concat_app, <- app_assoc. unfold deliveries. rewrite omap_app.
  split_and!; [done|by apply Forall2_app|done].
Qed.

Lemma simulates_step ins s c es i : simulates ins s c es ->
  exists s' c' es', tstep i (s, c) = Ret (s', c') /\ simulates (ins ++ [i]) s' c' es'.
Proof.
  intros Hsim. destruct i as [b|rnd|rnd|r|]; simpl.
  - destruct Hsim as (-> & Hb & frames & rest & Ea & Hf & Hr). eexists _, _, es. split; [done|].
    split_and!; [done|done|]. exists frames, (rest ++ b). rewrite arrived_snoc, Ea, app_assoc.
    split_and!; [done|done|]. destruct Hr as [->|?]; auto.
  - destruct (blocked s); [|by eapply simulates_read]. exists s, c, es. split; [done|].
    destruct Hsim as (-> & Hb & H). split_and!; [done|done|]. by rewrite arrived_snoc, app_nil_r.
  - by eapply simulates_read.
  - exists s, (conn_step (WriteDone r) c), (es ++ [WriteDone r]). split; [done|]. by apply simulates_event.
  - exists s, (conn_step RunTask c), (es ++ [RunTask]). split; [done|]. by apply simulates_event.
Qed.

Lemma simulates_run ins0 ins s c es : simulates ins0 s c es ->
  exists s' c' es', trun ins (s, c) = Ret (s', c') /\ simulates (ins0 ++ ins) s' c' es'.
Proof.
  revert ins0 s c es. induction ins as [|i ins IH]; intros ins0 s c es Hsim.
  - exists s, c, es. by rewrite app_nil_r.
  - destruct (simulates_step ins0 s c es i Hsim) as (s1 & c1 & es1 & E & Hsim1).
    cbn [trun]. rewrite E. cbn [obind]. destruct (IH _ _ _ _ Hsim1) as (s' & c' & es' & E' & H').
    exists s', c', es'. by rewrite <- app_assoc in H'.
Qed.

(** ** Segments *)

Section Segments.
(** The challenge the random device gives to a connection. *)
Context (rnd : connection -> bytes).

(** Reads complete as long as there is one and its frame has arrived. A read takes at
    least two bytes, so the number of bytes bounds the number of reads. *)
Fixpoint drain (fuel : nat) (s : bytes) (c : connection) : outcome (bytes * connection) :=
  match fuel with
  | O => Ret (s, c)
  | S fuel =>
    match reads c with
    | [] => Ret (s, c)
    | _ =>
      if blocked s then Ret (s, c)
      else p <~ complete_read (rnd c) s c;; drain fuel p.1 p.2
    end
  end.

Definition receive (b : bytes) (p : bytes * connection) : outcome (bytes * connection) :=
  drain (S (length (p.1 ++ b))) (p.1 ++ b) p.2.

(** The bytes arrive in segments, and the reads complete after each of them. *)
Fixpoint feed (bs : list bytes) (p : bytes * connection) : outcome (bytes * connection) :=
  match bs with
  | [] => Ret p
  | b :: bs => p <~ receive b p;; feed bs p
  end.

Lemma complete_read_more s c : blocked s = false -> reads c <> [] ->
  exists rest c', (length rest < length s)%nat /\
    forall t, complete_read (rnd c) (s ++ t) c = Ret (rest ++ t, c') /\ blocked (s ++ t) = false.
Proof.
  intros Hb Hr. pose proof (read_message_view s) as V. rewrite Hb in V.
  destruct V as (ev & m & f & rest & -> & Hf & _ & Hv). unfold complete_read.
  destruct (pop_read c) as [[o c0]|] eqn:Ep; [|unfold pop_read in Ep; by destruct (reads c)].
  exists rest, (foldl (fun c' ev => on_read_event (rnd c) o ev c') c0 ev). split; [rewrite length_app; lia|]. intros t. rewrite <- app_assoc. destruct (Hv (rest ++ t)) as [-> ->].
  split; reflexivity.
Qed.

Lemma drain_step s c fuel : (length s < fuel)%nat ->
  drain fuel s c = Ret (s, c) /\ (reads c = [] \/ blocked s = true) \/
  exists rest c', (length rest < length s)%nat /\ drain fuel s c = drain (pred fuel) rest c' /\
    forall t fuel', (length (s ++ t) < fuel')%nat -> drain fuel' (s ++ t) c = drain (pred fuel') (rest ++ t) c'.
Proof.
  intros Hf. destruct fuel as [|fuel]; [lia|]. cbn [drain].
  destruct (reads c) as [|o rs] eqn:Er; [auto|]. destruct (blocked s) eqn:Eb; [auto|]. right.
  destruct (complete_read_more s c Eb) as (rest & c' & Hl & H); [by rewrite Er|]. exists rest, c'. split; [done|].
  assert (forall t fuel', (length (s ++ t) < fuel')%nat -> drain fuel' (s ++ t) c = drain (pred fuel') (rest ++ t) c') as Ht.
  { intros t [|fuel'] Hf'; [lia|]. cbn [drain pred]. rewrite Er. destruct (H t) as [-> ->]. done. }
  split; [|done]. destruct (H []) as [E _]. rewrite !app_nil_r in E. by rewrite E.
Qed.

(** The fuel does not matter when there is enough. *)
Lemma drain_fuel f f' s c : (length s < f)%nat -> (length s < f')%nat -> drain f s c = drain f' s c.
Proof.
  revert f' s c. induction f as [|f IH]; intros f' s c Hf Hf'; [lia|].
  destruct (drain_step s c (S f) Hf) as [[-> Hd]|(rest & c' & Hl & -> & Ht)].
  - destruct f' as [|f']; [lia|]. cbn [drain]. destruct Hd as [->|Hd]; [done|]. rewrite Hd. by destruct (reads c).
  - specialize (Ht [] f'). rewrite !app_nil_r in Ht. rewrite Ht by done. apply IH; simpl; lia.
Qed.

(** Draining what arrived, and then what arrives later, is draining all of it. *)
Lemma drain_app f s c : (length s < f)%nat ->
  exists s' c', drain f s c = Ret (s', c') /\
    forall t, drain (S (length (s ++ t))) (s ++ t) c = drain (S (length (s' ++ t))) (s' ++ t) c'.
Proof.
  revert s c. induction f as [|f IH]; intros s c Hf; [lia|].
  destruct (drain_step s c (S f) Hf) as [[-> _]|(rest & c' & Hl & -> & Ht)]; [by exists s, c|].
  destruct (IH rest c' ltac:(simpl; lia)) as (s1 & c1 & E & H). exists s1, c1. split; [exact E|].
  intros t. rewrite Ht by lia. cbn [pred]. rewrite <- H. apply drain_fuel; rewrite !length_app; lia.
Qed.

Lemma feed_concat bs s c : drain (S (length s)) s c = Ret (s, c) -> feed bs (s, c) = receive (concat bs) (s, c).
Proof.
  revert s c. induction bs as [|b bs IH]; intros s c Hd; simpl.
  - unfold receive. simpl. by rewrite app_nil_r.
  - unfold receive at 1. simpl fst. simpl snd. destruct (drain_app (S (length (s ++ b))) (s ++ b) c ltac:(lia)) as (s1 & c1 & E & H).
    rewrite E. cbn [obind]. rewrite IH.
    + unfold receive. cbn [fst snd]. by rewrite <- H, <- app_assoc.
    + pose proof (H []) as H0. rewrite !app_nil_r in H0. by rewrite <- H0, E.
Qed.

End Segments.

(** ** Properties *)

(** Bytes can do no more than messages: whatever bytes a peer sends, in whatever segments
    and whatever completes in between, reading and dispatching them is defined and leads the
    connection where some sequence of events of [Auth] leads it; the messages delivered are,
    in order, the frames at the front of the bytes that arrived, each parsed from its own
    frame; at most one read is ever outstanding; and no publish is handed on unless one of
    those messages was an accepted answer to the challenge that was current when it came.
    (What the handler of a publish does with it, exceptions included, is in [Process].) *)
Theorem transport_refines ins :
  exists s c es frames rest, trun ins ([], connection_start) = Ret (s, c) /\
    c = conn_run es connection_start /\
    arrived ins = concat frames ++ rest /\ Forall2 frame_of frames (deliveries es) /\
    (length (reads c) <= 1)%nat /\
    (published c <> [] -> answered digest hex_encode unit_test_username ring_key lookup_user es).
Proof.
  destruct (simulates_run [] ins [] connection_start []) as (s & c & es & E & Hc & Hb & frames & rest & Ea & Hf & _).
  { split; [done|]. split; [done|]. exists [], []. split_and!; [done|constructor|by left]. }
  exists s, c, es, frames, rest. split_and!; try done; [unfold budget in Hb; lia|].
  intros Hp. subst c. exact (g_published _ _ (guarded_run digest hex_encode unit_test_username ring_key lookup_user es) Hp).
Qed.

(** C17. How the network cuts the bytes does not matter: two ways of segmenting the same
    bytes leave a connection in the same state with the same bytes waiting. *)
Theorem transport_segmentation rnd bs bs' c :
  concat bs = concat bs' ->
  feed rnd bs ([], c) = feed rnd bs' ([], c) /\ exists s c', feed rnd bs ([], c) = Ret (s, c').
Proof.
  intros E. assert (drain rnd (S (length ([] : bytes))) [] c = Ret ([], c)) as H0 by (simpl; by destruct (reads c)).
  rewrite !feed_concat, E by done. split; [done|]. unfold receive.
  destruct (drain_app rnd (S (length ([] ++ concat bs'))) ([] ++ concat bs') c ltac:(lia)) as (s' & c' & H & _). eauto.
Qed.

End Transport.

(** ** Concrete bytes *)

(** The codec of [Wire]; the bytes of a login, and then some that are no frame. *)
Definition sample_bytes : bytes :=
  [GetChallengeMessage (Ident 1 0) GC_CLIENT; AnswerChallengeMessage (Ident 2 1) [7; 65] [7; 7; 66; 5]] ≫=
    (fun m => Wire.write_message Wire.sample_serialize (type_of m) m).

Definition sample_transport (ins : list input) : outcome (bytes * connection) :=
  trun Wire.sample_parse 10485760 toy_digest toy_hex [] [1] sample_store ins ([], connection_start).

(** A login byte by byte, and a length field that is out of bounds. *)
Lemma login_over_bytes :
  match sample_transport (((fun b => Arrive [b]) <$> sample_bytes) ++ [ReadReady [5]; ReadReady []; Run]) with
  | Ret (s, c) => s = [] /\ (if a_dispatcher c then true else false) = true /\ reads c = [Auth_]
  | _ => False
  end.
Proof. vm_compute. done. Qed.

Lemma oversized_closes :
  match sample_transport [Arrive [0; 1; 255; 255; 255; 255]; ReadReady []] with
  | Ret (s, c) => is_open c = false /\ reads c = []
  | _ => False
  end.
Proof. vm_compute. done. Qed.

Lemma transport_segmentation_witness :
  feed Wire.sample_parse 10485760 toy_digest toy_hex [] [1] sample_store (fun _ => [5])
    ((fun b => [b]) <$> sample_bytes) ([], connection_start) =
  feed Wire.sample_parse 10485760 toy_digest toy_hex [] [1] sample_store (fun _ => [5]) [sample_bytes] ([], connection_start).
Proof.
  apply (transport_segmentation Wire.sample_parse 10485760 toy_digest toy_hex [] [1] sample_store (fun _ => [5])).
  vm_compute. reflexivity.
Defined.

End Transport.
