(* ===== verification/Client.v ===== *)
(** * The client library

    Models [client/cpp/src]: [cluster_endpoint.h] and [.cpp], [connection_error.h] and
    [.cpp], [cluster.h] and [.cpp] with [cluster_builder.h] and [.cpp], [session.h] and
    [.cpp], [unauthenticated_state.h] and [.cpp] and [authenticated_state.h] and [.cpp]. Times are nanoseconds of the steady clock. *)

From Stdlib Require Import ZArith Lia Ascii String.
From stdpp Require Import base list gmap strings.
From S2P Require Import Prelude Clocks MessageQueue Messages Dispatcher Endpoint Account Auth.

Local Open Scope Z_scope.
Local Open Scope sopmq_scope.

(** ** Endpoints of a cluster *)

Module ClusterEndpoint.

Definition MINIMUM_BACKOFF_SECS : Z := 60.
Definition MAXIMUM_BACKOFF_SECS : Z := 60 * 60.

Record cluster_endpoint := CE {
  _endpoint : Endpoint.endpoint;
  _lastFailure : Z;
  _currentBackoff : Z;
  _isFailed : bool
}.

(** The constructor does not set the backoff: [backoff0] is what it holds. *)
Definition cluster_endpoint_new (backoff0 : Z) (ep : Endpoint.endpoint) : cluster_endpoint := CE ep 0 backoff0 false.

Definition is_failed (e : cluster_endpoint) : bool := _isFailed e.

Definition secs_since_last_try (now : Z) (e : cluster_endpoint) : Z := Z.quot (now - _lastFailure e) 1000000000.

Definition secs_remining_before_retry (now : Z) (e : cluster_endpoint) : Z :=
  _currentBackoff e - secs_since_last_try now e.

Definition ready_for_retry (now : Z) (e : cluster_endpoint) : bool :=
  _currentBackoff e <=? secs_since_last_try now e.

(** The count of seconds is a signed 64-bit integer. *)
Definition increase_backoff (e : cluster_endpoint) : cluster_endpoint :=
  CE (_endpoint e) (_lastFailure e)
     (if _currentBackoff e =? 0 then MINIMUM_BACKOFF_SECS else swrap 64 (_currentBackoff e * 2)) (_isFailed e).

Definition mark_failed (now : Z) (e : cluster_endpoint) : cluster_endpoint :=
  increase_backoff (CE (_endpoint e) now (_currentBackoff e) true).

Definition mark_up (e : cluster_endpoint) : cluster_endpoint := CE (_endpoint e) (_lastFailure e) 0 false.

Definition network_endpoint (e : cluster_endpoint) : Endpoint.endpoint := _endpoint e.

(** Failures at the given times, one after the other. *)
Definition failures (times : list Z) (e : cluster_endpoint) : cluster_endpoint :=
  foldl (fun e t => mark_failed t e) e times.

Lemma swrap64_small x : 0 <= x < 2 ^ 63 -> swrap 64 x = x.
Proof.
  intros Hx. unfold swrap. change (64 - 1) with 63. rewrite Z.mod_small; [lia|].
  change (2 ^ 64) with (2 * 2 ^ 63). lia.
Qed.

Lemma failures_backoff times e : _currentBackoff e = 0 -> times <> [] -> (length times <= 50)%nat ->
  _currentBackoff (failures times e) = 60 * 2 ^ (Z.of_nat (length times) - 1) /\
  Some (_lastFailure (failures times e)) = last times /\ _isFailed (failures times e) = true.
Proof.
  intros H0 Hne. induction times as [|t times IH] using rev_ind; [done|]. clear Hne. intros Hl.
  rewrite length_app in *. simpl in Hl. unfold failures. rewrite foldl_snoc, last_snoc.
  fold (failures times e). split_and!; [|done|done]. simpl.
  destruct times as [|t0 times0] eqn:Et.
  - simpl. by rewrite H0.
  - rewrite <- Et in *. destruct IH as [IH _]; [congruence|lia|]. rewrite IH.
    assert (1 <= length times)%nat by (rewrite Et; simpl; lia).
    assert (0 < 2 ^ (Z.of_nat (length times) - 1) <= 2 ^ 49).
    { split; [lia|]. apply Z.pow_le_mono_r; lia. }
    rewrite (proj2 (Z.eqb_neq _ 0)) by lia. rewrite swrap64_small by lia.
    replace (Z.of_nat (length times + 1) - 1) with (Z.succ (Z.of_nat (length times) - 1)) by lia.
    rewrite Z.pow_succ_r by lia. lia.
Qed.

(** Backoff: an endpoint that was up and then failed n times in a row (up to
    50) is not retried before 60 * 2^(n-1) seconds have passed since the last
    failure, and is retried from then on; coming up resets it. The documented
    maximum of an hour is not applied: from the seventh failure on the wait is
    longer. *)
Theorem endpoint_backoff times t e now :
  _currentBackoff e = 0 -> last times = Some t -> (length times <= 50)%nat -> t <= now ->
  let e' := failures times e in
  (ready_for_retry now e' = true <-> 60 * 2 ^ (Z.of_nat (length times) - 1) * 1000000000 <= now - t) /\
  is_failed e' = true /\ is_failed (mark_up e') = false /\ _currentBackoff (mark_up e') = 0 /\
  ((7 <= length times)%nat -> MAXIMUM_BACKOFF_SECS < _currentBackoff e').
Proof.
  intros H0 Ht Hl Hn e'. assert (times <> []) as Hne by (by intros ->).
  destruct (failures_backoff times e H0 Hne Hl) as (Hb & Hlast & Hf). fold e' in Hb, Hlast, Hf.
  rewrite Ht in Hlast. injection Hlast as Hlast. split_and!; try done.
  - unfold ready_for_retry, secs_since_last_try. rewrite Hb, Hlast, Z.leb_le.
    rewrite Z.quot_div_nonneg by lia. split; intros H.
    + pose proof (Z.mul_div_le (now - t) 1000000000). lia.
    + apply Z.div_le_lower_bound; lia.
  - intros H7. rewrite Hb. unfold MAXIMUM_BACKOFF_SECS.
    assert (2 ^ 6 <= 2 ^ (Z.of_nat (length times) - 1)) by (apply Z.pow_le_mono_r; lia). lia.
Qed.

Definition sample_ep : cluster_endpoint := cluster_endpoint_new 0 (Endpoint.endpoint_of_host [] 8481).

Lemma endpoint_backoff_witness :
  ready_for_retry 61000000000 (failures [0] sample_ep) = true <-> 60 * 2 ^ 0 * 1000000000 <= 61000000000 - 0.
Proof. apply (endpoint_backoff [0] 0 sample_ep 61000000000); simpl; (reflexivity || lia). Defined.

End ClusterEndpoint.

(** ** Errors a connect handler sees *)

Module ConnectionError.

(** [_singleError] is the value of a [boost] error code. *)
Inductive connection_error :=
| ConnErr (what : string) (_singleError : Z) (_nodeErrors : list (Endpoint.endpoint * connection_error)).

Definition connection_error_new : connection_error := ConnErr "" 0 [].
Definition connection_error_of_what (what : string) : connection_error := ConnErr what 0 [].
Definition connection_error_of_code (value : Z) (message : string) : connection_error := ConnErr message value [].

Definition what (e : connection_error) : string := let 'ConnErr w _ _ := e in w.
Definition get_network_error (e : connection_error) : Z := let 'ConnErr _ c _ := e in c.
Definition get_node_errors (e : connection_error) : list (Endpoint.endpoint * connection_error) := let 'ConnErr _ _ l := e in l.
Definition was_node_error (e : connection_error) : bool := (0 <? length (get_node_errors e))%nat.
Definition was_network_error (e : connection_error) : bool := negb (get_network_error e =? 0).

End ConnectionError.

(** ** The cluster *)

Module Cluster.
Import ClusterEndpoint ConnectionError Messages.
Abbreviation ptr := nat.

(** Endpoints are shared objects in a store; [_deadEndpoints] is a set ordered by
    address, visited in the order of [elements]. *)
Record cluster := Clu {
  store : gmap ptr cluster_endpoint;
  _liveEndpoints : list ptr;
  _deadEndpoints : gset ptr
}.

(** The constructor: one new object for each endpoint. *)
Definition cluster_new (backoff0 : Z) (eps : list Endpoint.endpoint) : cluster :=
  Clu (list_to_map (zip (seq 0 (length eps)) (cluster_endpoint_new backoff0 <$> eps))) (seq 0 (length eps)) ∅.

Record cluster_builder := CB { _endpoints : list Endpoint.endpoint }.
Definition cluster_builder_new : cluster_builder := CB [].
Definition add_endpoint (ep : Endpoint.endpoint) (b : cluster_builder) : cluster_builder := CB (_endpoints b ++ [ep]).
Definition build (backoff0 : Z) (b : cluster_builder) : cluster := cluster_new backoff0 (_endpoints b).

Definition update (p : ptr) (f : cluster_endpoint -> cluster_endpoint) (c : cluster) : cluster :=
  Clu (alter f p (store c)) (_liveEndpoints c) (_deadEndpoints c).

(** [_liveEndpoints.erase(std::remove(...))] erases one element: the endpoint when
    it is there once; otherwise [end()] is erased, or moved-from elements stay. *)
Definition kill_endpoint (now : Z) (ep : ptr) (c : cluster) : outcome cluster :=
  if decide (ep ∈ _deadEndpoints c) then Ret c
  else
    let c := update ep (mark_failed now) c in
    let live := filter (fun p => p <> ep) (_liveEndpoints c) in
    if (length live + 1 =? length (_liveEndpoints c))%nat
    then Ret (Clu (store c) live ({[ep]} ∪ _deadEndpoints c))
    else Undef.

Definition retry_ready (now : Z) (c : cluster) (p : ptr) : bool :=
  match store c !! p with Some e => ready_for_retry now e | None => false end.

Definition check_for_expired_deaths (now : Z) (c : cluster) : cluster :=
  let retryEps := filter (fun p => retry_ready now c p = true) (elements (_deadEndpoints c)) in
  Clu (foldl (fun s p => alter mark_up p s) (store c) retryEps)
      (_liveEndpoints c ++ retryEps)
      (_deadEndpoints c ∖ list_to_set retryEps).

(** [random_selector] on a container of [n] elements takes the one at [dis n], which
    [std::uniform_int_distribution] draws from 0 to [n - 1]. *)
Definition random_endpoint (dis : nat -> nat) (c : cluster) : outcome ptr :=
  match _liveEndpoints c !! dis (length (_liveEndpoints c)) with
  | Some ep => Ret ep
  | None => Undef
  end.

(** What connecting does: the handler is called with an error, or a connection to
    the selected endpoint is started. *)
Inductive connect_action := CallHandler (e : connection_error) | ConnectTo (ep : ptr).

Definition try_connect_next_endpoint (now : Z) (dis : nat -> nat) (c : cluster) : outcome connect_action * cluster :=
  let c := check_for_expired_deaths now c in
  if (length (_liveEndpoints c) =? 0)%nat
  then (Ret (CallHandler (connection_error_of_what "no nodes available")), c)
  else (ep <~ random_endpoint dis c;; Ret (ConnectTo ep), c).

Definition connect (now : Z) (dis : nat -> nat) (c : cluster) : outcome connect_action * cluster :=
  try_connect_next_endpoint now dis c.

(** What the handler of [connect] is called with: whether there is a session, and
    an error. *)
Definition connection_result (r : network_operation_result) : bool * connection_error :=
  if was_successful r then (true, connection_error_new) else (false, connection_error_of_what (get_error r)).

(** ** Runs *)

Inductive cop := Connect (now : Z) (dis : nat -> nat) | Kill (now : Z) (ep : ptr).

Definition cexec (o : cop) (c : cluster) : outcome cluster :=
  match o with
  | Connect now dis => let '(r, c) := connect now dis c in _ <~ r;; Ret c
  | Kill now ep => kill_endpoint now ep c
  end.

Fixpoint crun (ops : list cop) (c : cluster) : outcome cluster :=
  match ops with
  | [] => Ret c
  | o :: ops => c <~ cexec o c;; crun ops c
  end.

(** The distribution draws a position of the container, and only endpoints of the
    cluster are killed. *)
Definition cop_ok (n : nat) (o : cop) : Prop :=
  match o with
  | Connect _ dis => forall k, (0 < k)%nat -> (dis k < k)%nat
  | Kill _ ep => (ep < n)%nat
  end.

(** ** Invariant *)

Record cluster_wf (eps : gset ptr) (c : cluster) : Prop := {
  cw_nodup : NoDup (_liveEndpoints c);
  cw_cover : forall p, p ∈ eps <-> p ∈ _liveEndpoints c \/ p ∈ _deadEndpoints c;
  cw_apart : forall p, p ∈ _liveEndpoints c -> p ∉ _deadEndpoints c;
  cw_store : forall p, p ∈ eps -> is_Some (store c !! p);
  cw_failed : forall p e, store c !! p = Some e -> p ∈ eps -> is_failed e = bool_decide (p ∈ _deadEndpoints c)
}.

Lemma foldl_alter_lookup (l : list ptr) (s : gmap ptr cluster_endpoint) p : NoDup l ->
  foldl (fun s p => alter mark_up p s) s l !! p =
    if decide (p ∈ l) then mark_up <$> s !! p else s !! p.
Proof.
  revert s. induction l as [|q l IH]; intros s Hnd; cbn [foldl]; [done|].
  apply NoDup_cons in Hnd as [Hn Hnd]. rewrite IH by done. destruct (decide (p = q)) as [->|Hne].
  - rewrite decide_False by done. rewrite decide_True by (by left). by rewrite lookup_alter_eq.
  - rewrite lookup_alter_ne by done. destruct (decide (p ∈ l)).
    + by rewrite decide_True by (by right).
    + rewrite decide_False; [done|]. rewrite not_elem_of_cons. auto.
Qed.

Lemma kill_endpoint_wf now eps ep c : cluster_wf eps c -> ep ∈ eps ->
  exists c', kill_endpoint now ep c = Ret c' /\ cluster_wf eps c' /\ ep ∈ _deadEndpoints c' /\ ep ∉ _liveEndpoints c'.
Proof.
  intros W He. unfold kill_endpoint. case_decide as Hd.
  { exists c. split_and!; try done. intros Hl. by apply (cw_apart _ _ W) in Hl. }
  assert (ep ∈ _liveEndpoints c) as Hl by (apply (cw_cover _ _ W) in He as [?|?]; done).
  pose proof (filter_out_perm Datatypes.id (_liveEndpoints c) ep) as Hp. rewrite list_fmap_id in Hp.
  specialize (Hp (cw_nodup _ _ W) Hl). unfold Datatypes.id in Hp.
  simpl. rewrite (Permutation_length Hp). simpl. rewrite (proj2 (Nat.eqb_eq _ _)) by (simpl; lia).
  eexists. split; [done|]. simpl. split; [|split; [set_solver|rewrite list_elem_of_filter; naive_solver]].
  assert (forall p, p ∈ filter (fun p => p <> ep) (_liveEndpoints c) <-> p ∈ _liveEndpoints c /\ p <> ep) as Hf
    by (intros p; rewrite list_elem_of_filter; naive_solver).
  split; simpl.
  - apply NoDup_filter, W.
  - intros p. rewrite Hf, (cw_cover _ _ W). destruct (decide (p = ep)); set_solver.
  - intros p. rewrite Hf. intros [H1 H2]. pose proof (cw_apart _ _ W p H1). set_solver.
  - intros p H. rewrite lookup_alter_is_Some. by apply (cw_store _ _ W).
  - intros p e. destruct (decide (ep = p)) as [<-|Hne].
    + rewrite lookup_alter_eq, fmap_Some. intros (e' & _ & ->) _. rewrite bool_decide_eq_true_2 by set_solver.
      done.
    + rewrite lookup_alter_ne by done. intros H1 H2. rewrite (cw_failed _ _ W p e H1 H2).
      apply bool_decide_ext. set_solver.
Qed.

Lemma check_deaths_wf now eps c : cluster_wf eps c -> cluster_wf eps (check_for_expired_deaths now c).
Proof.
  intros W. unfold check_for_expired_deaths. set (r := filter _ _).
  assert (NoDup r) as Hnd by (apply NoDup_filter, NoDup_elements).
  assert (forall p, p ∈ r -> p ∈ _deadEndpoints c) as Hr.
  { intros p. unfold r. rewrite list_elem_of_filter, elem_of_elements. tauto. }
  split; simpl.
  - apply NoDup_app. split_and!; [apply W| |done]. intros p H1 H2%Hr. by apply (cw_apart _ _ W) in H1.
  - intros p. rewrite (cw_cover _ _ W), elem_of_app, elem_of_difference, elem_of_list_to_set.
    destruct (decide (p ∈ r)); naive_solver.
  - intros p. rewrite elem_of_app, elem_of_difference, elem_of_list_to_set. intros [H|H]; [|tauto].
    pose proof (cw_apart _ _ W p H). tauto.
  - intros p H. rewrite foldl_alter_lookup by done. destruct (cw_store _ _ W p H) as [e ->].
    case_decide; simpl; eauto.
  - intros p e. rewrite foldl_alter_lookup by done. intros H1 H2. case_decide as Hp.
    + apply fmap_Some in H1 as (e' & _ & ->). rewrite bool_decide_eq_false_2; [done|].
      rewrite elem_of_difference, elem_of_list_to_set. tauto.
    + rewrite (cw_failed _ _ W p e H1 H2). apply bool_decide_ext.
      rewrite elem_of_difference, elem_of_list_to_set. tauto.
Qed.

Lemma cluster_new_wf backoff0 eps : cluster_wf (list_to_set (seq 0 (length eps))) (cluster_new backoff0 eps).
Proof.
  set (l := zip (seq 0 (length eps)) (cluster_endpoint_new backoff0 <$> eps)).
  assert (l.*1 = seq 0 (length eps)) as Hf by (apply fst_zip; rewrite length_seq, length_fmap; lia).
  split; simpl; fold l.
  - apply NoDup_seq.
  - intros p. set_solver.
  - intros p _. set_solver.
  - intros p Hp. rewrite elem_of_list_to_set, <- Hf in Hp. apply list_elem_of_fmap in Hp as ([q e] & -> & Hq).
    exists e. apply elem_of_list_to_map_1; [rewrite Hf; apply NoDup_seq|done].
  - intros p e Hs _. apply elem_of_list_to_map_2, elem_of_zip_r, list_elem_of_fmap in Hs as (ep & -> & _).
    rewrite bool_decide_eq_false_2 by set_solver. done.
Qed.

Lemma connect_wf now dis eps c : cluster_wf eps c -> (forall k, (0 < k)%nat -> (dis k < k)%nat) ->
  let '(r, c') := connect now dis c in
  cluster_wf eps c' /\
  ((exists q, r = Ret (ConnectTo q) /\ q ∈ _liveEndpoints c') \/
   (r = Ret (CallHandler (connection_error_of_what "no nodes available")) /\ _liveEndpoints c' = [])).
Proof.
  intros W Hd. unfold connect, try_connect_next_endpoint. set (c' := check_for_expired_deaths now c).
  pose proof (check_deaths_wf now eps c W) as W'. fold c' in W'.
  destruct (Nat.eqb_spec (length (_liveEndpoints c')) 0) as [E|E].
  - split; [done|]. right. split; [done|]. by apply length_zero_iff_nil.
  - split; [done|]. left. unfold random_endpoint.
    destruct (lookup_lt_is_Some_2 (_liveEndpoints c') (dis (length (_liveEndpoints c')))) as [q Hq]; [apply Hd; lia|].
    exists q. rewrite Hq. split; [done|]. by eapply list_elem_of_lookup_2.
Qed.

Lemma crun_wf n eps ops c : (forall p, (p < n)%nat -> p ∈ eps) -> Forall (cop_ok n) ops -> cluster_wf eps c ->
  exists c', crun ops c = Ret c' /\ cluster_wf eps c'.
Proof.
  intros He Ho. revert c. induction Ho as [|o ops Ho H IH]; intros c W; [by exists c|]. destruct o as [now dis|now ep]; simpl.
  - pose proof (connect_wf now dis eps c W Ho) as Hc. destruct (connect now dis c) as [r c1].
    destruct Hc as [W1 Hr]. assert (exists a, r = Ret a) as [a ->] by naive_solver. simpl. by apply IH.
  - destruct (kill_endpoint_wf now eps ep c W (He _ Ho)) as (c1 & -> & W1 & _). simpl. by apply IH.
Qed.

(** C31. The cluster keeps every endpoint in exactly one of its two collections: a
    cluster made by the builder goes through every run of connects and kills with a
    defined result, after which each of its endpoints is live or dead and not both,
    and its failed flag says which. Connecting then picks a live endpoint that is
    not marked failed, and reports that there are no nodes exactly when every
    endpoint is dead and none has waited out its backoff. *)
Theorem cluster_partition backoff0 b ops now dis :
  let n := length (_endpoints b) in
  Forall (cop_ok n) (ops ++ [Connect now dis]) ->
  exists c, crun ops (build backoff0 b) = Ret c /\ NoDup (_liveEndpoints c) /\
    (forall p, (p < n)%nat <-> p ∈ _liveEndpoints c \/ p ∈ _deadEndpoints c) /\
    (forall p, p ∈ _liveEndpoints c -> p ∉ _deadEndpoints c) /\
    (forall p e, (p < n)%nat -> store c !! p = Some e -> is_failed e = bool_decide (p ∈ _deadEndpoints c)) /\
    ((exists q, (connect now dis c).1 = Ret (ConnectTo q) /\ (q < n)%nat /\
        forall e, store (connect now dis c).2 !! q = Some e -> is_failed e = false) \/
     ((connect now dis c).1 = Ret (CallHandler (connection_error_of_what "no nodes available")) /\
        forall p, (p < n)%nat -> p ∈ _deadEndpoints c /\ retry_ready now c p = false)).
Proof.
  intros n [Ho Hc]%Forall_app. rewrite Forall_singleton in Hc. pose proof (cluster_new_wf backoff0 (_endpoints b)) as W0.
  assert (forall p, (p < n)%nat <-> p ∈ (list_to_set (seq 0 n) : gset ptr)) as Hn
    by (intros p; rewrite elem_of_list_to_set, elem_of_seq; lia).
  destruct (crun_wf n _ ops _ (fun p => proj1 (Hn p)) Ho W0) as (c & E & W). exists c. fold n in W.
  split_and!; [done|apply W|intros p; rewrite Hn; apply W|apply W|intros p e Hp Hs; apply (cw_failed _ _ W); [done|by apply Hn]|].
  pose proof (connect_wf now dis _ c W Hc) as H.
  assert ((connect now dis c).2 = check_for_expired_deaths now c) as E2
    by (unfold connect, try_connect_next_endpoint; by destruct (_ =? 0)%nat).
  destruct (connect now dis c) as [r c']. simpl in *. subst c'. destruct H as [W' [(q & -> & Hq)|[-> Hq]]].
  - left. exists q. assert (q ∈ (list_to_set (seq 0 n) : gset ptr)) as Hqn by (apply (cw_cover _ _ W'); by left).
    split_and!; [done|by apply Hn|]. intros e He. rewrite (cw_failed _ _ W' q e He Hqn).
    apply bool_decide_eq_false. by apply (cw_apart _ _ W').
  - right. split; [done|]. intros p Hp. apply Hn, (cw_cover _ _ W) in Hp. simpl in Hq. apply app_eq_nil in Hq as [Hl Hr].
    rewrite Hl in Hp. destruct Hp as [Hp|Hp]; [by apply not_elem_of_nil in Hp|]. split; [done|].
    destruct (retry_ready now c p) eqn:Ep; [|done]. exfalso. apply (not_elem_of_nil p). rewrite <- Hr.
    by rewrite list_elem_of_filter, elem_of_elements.
Qed.

(** The error a handler gets for a failed connection is made from its text: it says
    that no network condition and no node caused it. *)
Lemma connection_result_loses_code r : was_successful r = false ->
  (connection_result r).1 = false /\ what (connection_result r).2 = get_error r /\
  was_network_error (connection_result r).2 = false /\ was_node_error (connection_result r).2 = false.
Proof. intros H. unfold connection_result. by rewrite H. Qed.

End Cluster.

Module ClusterExamples.
Import ClusterEndpoint ConnectionError Cluster.

Definition sample_builder : cluster_builder :=
  add_endpoint (Endpoint.endpoint_of_host [] 2) (add_endpoint (Endpoint.endpoint_of_host [] 1) cluster_builder_new).

Definition sample_cluster : cluster := build 0 sample_builder.

Definition last_one (n : nat) : nat := Nat.pred n.

Lemma cluster_partition_witness : exists c,
  crun [Kill 5 1; Connect 7 last_one] sample_cluster = Ret c /\ NoDup (_liveEndpoints c).
Proof.
  destruct (cluster_partition 0 sample_builder [Kill 5 1; Connect 7 last_one] 9 last_one) as (c & E & Hn & _).
  - repeat constructor; simpl; try lia; unfold last_one; intros; lia.
  - exists c. split; [exact E|exact Hn].
Defined.

(** A failed connection is reported to the handler and nothing else: the endpoint
    stays among the live ones. ([kill_endpoint] has no caller.) *)
Lemma failed_connect_keeps_endpoint :
  connection_result (Messages.from_error_code "connection refused") =
    (false, connection_error_of_what "connection refused") /\
  _liveEndpoints (connect 5 last_one sample_cluster).2 = _liveEndpoints sample_cluster.
Proof. vm_compute. done. Qed.

End ClusterExamples.

(** ** Sessions *)

Module Session.
Import Messages Dispatcher.
Abbreviation bytes := MessageQueue.bytes.

(** The functions bound as handlers; a publish response goes to the callback the
    user passed, named by a number. *)
Inductive handler := on_challenge_response_ | on_auth_ack_ | response_handler (cb : nat) | on_unhandled_message_.

Inductive owner := Unauth | Authd.

(** What the completion of a write calls. *)
Inductive write_cb := on_message_sent_ | publish_sent (msg_id : Z) (cb : nat).

Record session := Ses {
  _next_id : Z;
  is_open : bool;
  _valid : bool;
  sent : list message;
  reads : list owner;
  writes : list write_cb;
  _username : bytes;
  _password : bytes;
  u_dispatcher : option (message_dispatcher (H := handler));
  a_dispatcher : option (message_dispatcher (H := handler));
  auth_results : list bool;
  publish_results : list (nat * PublishMessageResponse);
  _session_state : option owner
}.

(** A session on a connection that was just made. *)
Definition session_new : session := Ses 0 true true [] [] [] [] [] None None [] [] None.

Definition get_next_id (s : session) : Z * session :=
  let i := u32 (_next_id s + 1) in
  (i, Ses i (is_open s) (_valid s) (sent s) (reads s) (writes s) (_username s) (_password s)
        (u_dispatcher s) (a_dispatcher s) (auth_results s) (publish_results s) (_session_state s)).

Definition send_message (m : message) (w : write_cb) (s : session) : session :=
  Ses (_next_id s) (is_open s) (_valid s) (sent s ++ [m]) (reads s) (writes s ++ [w]) (_username s) (_password s)
      (u_dispatcher s) (a_dispatcher s) (auth_results s) (publish_results s) (_session_state s).

Definition read_message (o : owner) (s : session) : session :=
  Ses (_next_id s) (is_open s) (_valid s) (sent s) (reads s ++ [o]) (writes s) (_username s) (_password s)
      (u_dispatcher s) (a_dispatcher s) (auth_results s) (publish_results s) (_session_state s).

Definition set_u_dispatcher (d : message_dispatcher) (s : session) : session :=
  Ses (_next_id s) (is_open s) (_valid s) (sent s) (reads s) (writes s) (_username s) (_password s)
      (Some d) (a_dispatcher s) (auth_results s) (publish_results s) (_session_state s).

Definition set_a_dispatcher (d : message_dispatcher) (s : session) : session :=
  Ses (_next_id s) (is_open s) (_valid s) (sent s) (reads s) (writes s) (_username s) (_password s)
      (u_dispatcher s) (Some d) (auth_results s) (publish_results s) (_session_state s).

Definition set_credentials (u p : bytes) (s : session) : session :=
  Ses (_next_id s) (is_open s) (_valid s) (sent s) (reads s) (writes s) u p
      (u_dispatcher s) (a_dispatcher s) (auth_results s) (publish_results s) (_session_state s).

(** [invalidate], by [protocol_violation]. *)
Definition invalidate (s : session) : session :=
  Ses (_next_id s) false false (sent s) (reads s) (writes s) (_username s) (_password s)
      (u_dispatcher s) (a_dispatcher s) (auth_results s) (publish_results s) (_session_state s).

Definition user_auth_callback (b : bool) (s : session) : session :=
  Ses (_next_id s) (is_open s) (_valid s) (sent s) (reads s) (writes s) (_username s) (_password s)
      (u_dispatcher s) (a_dispatcher s) (auth_results s ++ [b]) (publish_results s) (_session_state s).

Definition user_publish_callback (cb : nat) (r : PublishMessageResponse) (s : session) : session :=
  Ses (_next_id s) (is_open s) (_valid s) (sent s) (reads s) (writes s) (_username s) (_password s)
      (u_dispatcher s) (a_dispatcher s) (auth_results s) (publish_results s ++ [(cb, r)]) (_session_state s).

(** The state object the session now uses. *)
Definition set_session_state (o : owner) (s : session) : session :=
  Ses (_next_id s) (is_open s) (_valid s) (sent s) (reads s) (writes s) (_username s) (_password s)
      (u_dispatcher s) (a_dispatcher s) (auth_results s) (publish_results s) (Some o).

Section Session.
Context (digest hex_encode : bytes -> bytes).

Abbreviation sha := (Account.sha256_hex_string digest hex_encode).

(** ** authenticated_state *)

(** The constructor and [state_entry]: one read. *)
Definition authenticated_entry (s : session) : session :=
  read_message Authd (set_a_dispatcher (message_dispatcher_new (Some on_unhandled_message_)) s).

(** [uid] is a random uuid; the response handler is set when the write completes. *)
Definition authenticated_publish (uid queueId : bytes) (storeIfCantPipe : bool) (ttl : Z) (data : bytes) (cb : nat)
    (s : session) : session :=
  let '(i, s) := get_next_id s in
  let m := PublishMsg (Publish_ (build_id i 0) (uuid_to_bytes uid) queueId
                         (Some (if storeIfCantPipe then 1 else 0)) (u32 ttl) data) in
  send_message m (publish_sent i cb) s.

(** ** session *)

Definition on_auth_status (authd : bool) (s : session) : session :=
  if authd then authenticated_entry (set_session_state Authd s) else s.

(** The callback given to the unauthenticated state: first the session, then the user. *)
Definition auth_callback (authd : bool) (s : session) : session :=
  user_auth_callback authd (on_auth_status authd s).

(** ** unauthenticated_state *)

Definition unauthenticated_entry (s : session) : session :=
  let '(i, s) := get_next_id s in
  let gcm := GetChallengeMessage (build_id i 0) GC_CLIENT in
  let d := set_handler_reply MT_CHALLENGE_RESPONSE (Some on_challenge_response_) i
             (message_dispatcher_new (Some on_unhandled_message_)) in
  read_message Unauth (send_message gcm on_message_sent_ (set_u_dispatcher d s)).

Definition authenticate (username password : bytes) (s : session) : session :=
  unauthenticated_entry (set_session_state Unauth (set_credentials username password s)).

Definition on_challenge_response (m : option message) (s : session) : session :=
  match m with
  | Some (ChallengeResponseMessage i challenge) =>
    let unameHash := hex_encode (digest (_username s)) in
    let pwHash := hex_encode (digest (_password s)) in
    let result := hex_encode (digest (pwHash ++ challenge)) in
    let d := set_handler MT_CHALLENGE_RESPONSE None
               (default (message_dispatcher_new None) (u_dispatcher s)) in
    let '(k, s) := get_next_id s in
    let acm := AnswerChallengeMessage (build_id k (Messages.id i)) unameHash result in
    let d := set_handler_reply MT_AUTH_ACK (Some on_auth_ack_) k d in
    read_message Unauth (send_message acm on_message_sent_ (set_u_dispatcher d s))
  | _ => s
  end.

Definition on_auth_ack (m : option message) (s : session) : session :=
  match m with
  | Some (AuthAckMessage _ authorized) => auth_callback authorized s
  | _ => s
  end.

(** [session::publish_message] on the current state. *)
Definition publish_message (uid queueId : bytes) (store : bool) (ttl : Z) (data : bytes) (cb : nat) (s : session)
    : outcome session :=
  match _session_state s with
  | Some Authd => Ret (authenticated_publish uid queueId store ttl data cb s)
  | Some Unauth =>
    Throw (logic_error "Call to publish_message() is invalid when the session is unauthenticated")
  | None => Undef
  end.

(** The cast of a response status to the code the user sees. *)
Definition response_code (st : PublishResponse_Status) : PublishMessageResponse :=
  match st with
  | PR_PIPED => PMR_MESSAGE_PIPED | PR_STORED => PMR_MESSAGE_STORED | PR_DROPPED => PMR_MESSAGE_DROPPED
  | PR_NOTAUTH => PMR_NOT_AUTH | PR_UNAVAILABLE => PMR_UNAVAILABLE
  end.

Definition handle_response (cb : nat) (r : network_operation_result) (m : option message) (s : session) : session :=
  if was_successful r
  then match m with
       | Some (PublishResponseMessage _ st) => user_publish_callback cb (response_code st) s
       | _ => s
       end
  else user_publish_callback cb PMR_NETWORK_ERROR s.

Definition invoke (x : outcome invocation) (s : session) : session :=
  match x with
  | Ret (Handle on_challenge_response_ r m) => on_challenge_response m s
  | Ret (Handle on_auth_ack_ r m) => on_auth_ack m s
  | Ret (Handle (response_handler cb) r m) => handle_response cb r m s
  | Ret (Unhandled _ _) => invalidate s
  | _ => s
  end.

(** The status callbacks of a read: an error while authenticating fails the
    authentication; later it is only logged. *)
Definition read_status (o : owner) (r : network_operation_result) (s : session) : session :=
  match o with
  | Unauth => if was_successful r then s else auth_callback false s
  | Authd => s
  end.

Definition dispatcher_of (o : owner) (s : session) : option message_dispatcher :=
  match o with Unauth => u_dispatcher s | Authd => a_dispatcher s end.

Inductive event := Deliver (m : message) | ReadError (r : network_operation_result) | WriteDone (r : network_operation_result).

Definition pop_read (s : session) : option (owner * session) :=
  match reads s with
  | [] => None
  | o :: rs => Some (o, Ses (_next_id s) (is_open s) (_valid s) (sent s) rs (writes s) (_username s) (_password s)
                            (u_dispatcher s) (a_dispatcher s) (auth_results s) (publish_results s) (_session_state s))
  end.

Definition pop_write (s : session) : option (write_cb * session) :=
  match writes s with
  | [] => None
  | w :: ws => Some (w, Ses (_next_id s) (is_open s) (_valid s) (sent s) (reads s) ws (_username s) (_password s)
                            (u_dispatcher s) (a_dispatcher s) (auth_results s) (publish_results s) (_session_state s))
  end.

Definition step (e : event) (s : session) : session :=
  match e with
  | Deliver m =>
    match pop_read s with
    | Some (o, s) =>
      let s := read_status o success s in
      match dispatcher_of o s with Some d => invoke (dispatch success m d).1 s | None => s end
    | None => s
    end
  | ReadError r =>
    match pop_read s with
    | Some (o, s) =>
      let s := read_status o r s in
      match dispatcher_of o s with
      | Some d => foldl (fun s x => invoke x s) s (cancel_all_with_error r d)
      | None => s
      end
    | None => s
    end
  | WriteDone r =>
    match pop_write s with
    | Some (on_message_sent_, s) => if was_successful r then s else auth_callback false s
    | Some (publish_sent i cb, s) =>
      if was_successful r
      then match a_dispatcher s with
           | Some d => set_a_dispatcher (set_handler_reply MT_PUBLISH_RESPONSE (Some (response_handler cb)) i d) s
           | None => s
           end
      else s
    | None => s
    end
  end.

Definition run (es : list event) (s : session) : session := foldl (fun s e => step e s) s es.

(** ** Use of a session *)

(** What happens to a session after it was authenticated: the user publishes, the
    network completes reads and writes. *)
Inductive use :=
| Ev (e : event)
| PublishCall (uid queueId : bytes) (store : bool) (ttl : Z) (data : bytes) (cb : nat).

Definition uexec (s : session) (u : use) : session :=
  match u with
  | Ev e => step e s
  | PublishCall uid queueId store ttl data cb =>
    match publish_message uid queueId store ttl data cb s with Ret s' => s' | _ => s end
  end.

(** Only publish responses are waited for. *)
Definition responses_only (d : message_dispatcher (H := handler)) : Prop :=
  forall t i h, Dispatcher._handlers d t !! i = Some (Some h) -> exists cb, h = response_handler cb.

(** Without a pending read, nothing more reaches the user's publish callbacks. *)
Lemma no_read_step u s : reads s = [] ->
  reads (uexec s u) = [] /\ publish_results (uexec s u) = publish_results s.
Proof.
  intros Hr. destruct u as [[m|r|r]|uid queueId store ttl data cb]; simpl.
  - unfold pop_read. by rewrite Hr.
  - unfold pop_read. by rewrite Hr.
  - unfold pop_write. destruct (writes s) as [|[|i cb] ws]; [done|by destruct (was_successful r)|].
    destruct (was_successful r); [|done]. simpl. by destruct (a_dispatcher s).
  - unfold publish_message. by destruct (_session_state s) as [[]|].
Qed.

Lemma no_read_run us s : reads s = [] ->
  reads (foldl uexec s us) = [] /\ publish_results (foldl uexec s us) = publish_results s.
Proof.
  revert s. induction us as [|u us IH]; intros s Hr; [done|]. simpl.
  destruct (no_read_step u s Hr) as [Hr' <-]. by apply IH.
Qed.

(** A delivery to the authenticated state starts no other read. *)
Lemma deliver_read m s d : reads s = [Authd] -> a_dispatcher s = Some d -> responses_only d ->
  reads (step (Deliver m) s) = [].
Proof.
  intros Hr Ha Hd. simpl. unfold pop_read. rewrite Hr. simpl. rewrite Ha. rewrite Dispatcher.dispatch_spec.
  destruct (Dispatcher._handlers d (type_of m) !! in_reply_to (identity m)) as [[h|]|] eqn:E; simpl; [|done|].
  - destruct (Hd _ _ _ E) as [cb ->]. simpl. by destruct m.
  - by destruct (Dispatcher._unhandledHandler d).
Qed.


End Session.

(** Two publishes whose writes completed, and the response to the second. *)
Definition sample_session : session :=
  let publish := PublishCall (replicate 16 1) [81] true 30 [1] in
  foldl (uexec Account.toy_digest Account.toy_hex) (on_auth_status true session_new)
    [publish 0%nat; Ev (WriteDone success); publish 1%nat; Ev (WriteDone success)].

Lemma sample_session_waits : responses_only (default (message_dispatcher_new None) (a_dispatcher sample_session)).
Proof.
  intros t i h E. simpl in E. repeat case_decide; rewrite ?lookup_insert_Some, ?lookup_empty in E; naive_solver.
Qed.

Lemma sample_session_state : reads sample_session = [Authd] /\
  a_dispatcher sample_session = Some (default (message_dispatcher_new None) (a_dispatcher sample_session)).
Proof. vm_compute. done. Qed.


End Session.
