(* ===== verification/ClientConnect.v ===== *)
(** * A client connects to a cluster

    Models [client/cpp/src/settings], [client/cpp/src/cluster_connection] and
    [shared/src/random_selector.h], and composes [Cluster] ([client/cpp/src/cluster.cpp])
    with [Connection]: from the call of [cluster::connect] to the call of its handler. *)

From Stdlib Require Import ZArith Lia Ascii String.
From stdpp Require Import base list gmap strings.
From S2P Require Import Prelude Clocks MessageQueue Endpoint Messages Connection Client.

Local Open Scope Z_scope.
Local Open Scope sopmq_scope.

Module ClientSettings.

Record settings := Settings { maxMessageSize : Z }.
Definition DEFAULT_MAX_MESSAGE_SIZE : Z := 10485760.
Definition settings_new : settings := Settings DEFAULT_MAX_MESSAGE_SIZE.

End ClientSettings.

Module RandomSelector.

(** [select(start, end)] with the position [draw lo hi] that the distribution draws from
    [lo] to [hi]; a range that is empty has the bounds 0 and -1, which the distribution
    does not allow. [operator()] on a container dereferences the position. *)
Definition select {A} (draw : Z -> Z -> Z) (c : list A) : outcome A :=
  let hi := Z.of_nat (length c) - 1 in
  if hi <? 0 then Undef
  else match c !! Z.to_nat (draw 0 hi) with Some x => Ret x | None => Undef end.

(** A non-empty container yields one of its elements. *)
Lemma select_elem {A} draw (c : list A) : (forall lo hi, lo <= hi -> lo <= draw lo hi <= hi) -> c <> [] ->
  exists x, select draw c = Ret x /\ x ∈ c.
Proof.
  intros Hd Hc. unfold select. assert (0 < length c)%nat by (destruct c; simpl; [done|lia]).
  destruct (Z.ltb_spec (Z.of_nat (length c) - 1) 0); [lia|].
  pose proof (Hd 0 (Z.of_nat (length c) - 1) ltac:(lia)).
  destruct (lookup_lt_is_Some_2 c (Z.to_nat (draw 0 (Z.of_nat (length c) - 1)))) as [x Hx]; [lia|].
  exists x. rewrite Hx. split; [done|]. by eapply list_elem_of_lookup_2.
Qed.

End RandomSelector.

Module ClusterConnection.
Import ClusterEndpoint ConnectionError Cluster Messages ConnectionBase.

Definition cluster_connection_new (conf : ClientSettings.settings) (ep : cluster_endpoint) : connection_base :=
  connection_base_new (network_endpoint ep) (ClientSettings.maxMessageSize conf).

(** [random_endpoint] is the selector on the live endpoints. *)
Lemma random_endpoint_select draw c :
  (forall lo hi, lo <= hi -> lo <= draw lo hi <= hi) -> _liveEndpoints c <> [] ->
  random_endpoint (fun n => Z.to_nat (draw 0 (Z.of_nat n - 1))) c = RandomSelector.select draw (_liveEndpoints c).
Proof.
  intros Hd Hc. unfold random_endpoint, RandomSelector.select.
  destruct (Z.ltb_spec (Z.of_nat (length (_liveEndpoints c)) - 1) 0); [|done]. destruct (_liveEndpoints c); simpl in *; [done|lia].
Qed.

Section Connect.
Context (conf : ClientSettings.settings).
Context (resolve : Endpoint.text -> Z -> string + list address) (dial : address -> option string).

(** The arguments of the handler: the connection of the new session, or none, and an
    error. *)
Definition connect_session (now : Z) (dis : nat -> nat) (c : cluster)
    : outcome (option connection_base * connection_error) * cluster :=
  let '(a, c) := Cluster.connect now dis c in
  (a <~ a;;
   match a with
   | CallHandler e => Ret (None, e)
   | ConnectTo p =>
     match store c !! p with
     | None => Undef
     | Some ep =>
       r <~ ConnectionBase.connect resolve dial (cluster_connection_new conf ep);;
       let '(ok, err) := connection_result r.1 in
       Ret (if ok then Some r.2 else None, err)
     end
   end, c).


End Connect.

(** A network where every name is one address, and only port 1 accepts. *)
Definition sample_resolve (h : Endpoint.text) (p : Z) : string + list address := inr [(h, p)].
Definition sample_dial (a : address) : option string := if a.2 =? 1 then None else Some "connection refused"%string.


(** The last of the two endpoints refuses, and the client is told so, although the
    first one would accept. *)
Lemma one_endpoint_tried :
  ((connect_session ClientSettings.settings_new sample_resolve sample_dial 5 ClusterExamples.last_one
     ClusterExamples.sample_cluster).1 = Ret (None, connection_error_of_what "connect failed: connection refused")) /\
  exists conn, (connect_session ClientSettings.settings_new sample_resolve sample_dial 5 (fun _ => 0%nat)
     ClusterExamples.sample_cluster).1 = Ret (Some conn, connection_error_new).
Proof. split; [vm_compute; reflexivity|eexists; vm_compute; reflexivity]. Qed.

End ClusterConnection.
