(* ===== verification/Login.v ===== *)
(** * A client and a node together

    Composes the session of [Client.v] with the connection of [Auth.v]: each message one
    side sends is delivered to the other, in order. *)

From Stdlib Require Import ZArith Lia Ascii String.
From stdpp Require Import base list gmap strings.
From S2P Require Import Prelude Clocks MessageQueue Messages Dispatcher Account Auth Client.

Local Open Scope Z_scope.
Local Open Scope sopmq_scope.

Module Login.
Import Messages Account.
Abbreviation bytes := MessageQueue.bytes.

Section Login.
Context (digest hex_encode : bytes -> bytes).
Context (ring_key : bytes) (lookup_user : bytes -> find_user_result).

Abbreviation sha := (sha256_hex_string digest hex_encode).
Abbreviation server_step := (Auth.step digest hex_encode [] ring_key lookup_user).
Abbreviation client_step := (Session.step digest hex_encode).

(** Delivers the [n]-th message one side has sent. *)
Definition to_server (n : nat) (rnd : bytes) (p : Session.session * Auth.connection) :=
  match Session.sent p.1 !! n with
  | Some m => (p.1, server_step (Auth.Deliver m rnd) p.2)
  | None => p
  end.

Definition to_client (n : nat) (p : Session.session * Auth.connection) :=
  match Auth.sent p.2 !! n with
  | Some m => (client_step (Session.Deliver m) p.1, p.2)
  | None => p
  end.

Definition run_task (p : Session.session * Auth.connection) := (p.1, server_step Auth.RunTask p.2).

(** The handshake: challenge request, challenge, answer, account check, verdict. *)
Definition handshake (username password rnd : bytes) : Session.session * Auth.connection :=
  let p := (Session.authenticate username password Session.session_new, Auth.connection_start) in
  let p := to_server 0 rnd p in
  let p := to_client 0 p in
  let p := to_server 1 [] p in
  let p := run_task p in
  to_client 1 p.

Definition answer_of (username password rnd : bytes) : message :=
  AnswerChallengeMessage (Ident 2 1) (sha username) (sha (sha password ++ rnd)).

(** A client that was just told it is logged in, before its first two writes completed. *)
Definition logged_in (s : Session.session) : Prop :=
  Session.reads s = [Session.Authd] /\ Session.writes s = [Session.on_message_sent_; Session.on_message_sent_] /\
  Session.a_dispatcher s = Some (Dispatcher.message_dispatcher_new (Some Session.on_unhandled_message_)) /\
  Session.publish_results s = [].

(** The client after it answered the challenge. *)
Lemma client_answers username password rnd :
  exists s, client_step (Session.Deliver (ChallengeResponseMessage (Ident 1 1) rnd))
      (Session.authenticate username password Session.session_new) = s /\
    Session.sent s = [GetChallengeMessage (Ident 1 0) GC_CLIENT; answer_of username password rnd] /\
    Session.auth_results s = [] /\ Session.a_dispatcher s = None /\ Session._next_id s = 2 /\
    (forall b, let s' := client_step (Session.Deliver (AuthAckMessage (Ident 2 2) b)) s in
       Session.auth_results s' = [b] /\ (Session._session_state s' = Some Session.Authd <-> b = true) /\
       Session._next_id s' = 2 /\ Session.sent s' = Session.sent s /\
       Session._session_state s' = Some (if b then Session.Authd else Session.Unauth) /\
       (b = true -> logged_in s')).
Proof.
  eexists. split; [reflexivity|]. split_and!; try reflexivity.
  intros []; unfold logged_in; split_and!; vm_compute; (reflexivity || done).
Qed.

Lemma handshake_spec username password rnd b :
  user_lookup_cb digest hex_encode rnd (sha (sha password ++ rnd)) (lookup_user (sha username)) = [b] ->
  let '(s, c) := handshake username password rnd in
  Session.auth_results s = [b] /\
  Session._session_state s = Some (if b then Session.Authd else Session.Unauth) /\
  (Auth.a_dispatcher c <> None <-> b = true) /\
  Session._next_id s = 2 /\ length (Session.sent s) = 2%nat /\
  (b = true -> logged_in s /\ Auth._next_id c = 2 /\ Auth.reads c = [Auth.Auth_] /\ Auth.published c = [] /\
     Auth.a_dispatcher c = Some (Dispatcher.set_handler MT_PUBLISH (Some Auth.handle_post_message_)
       (Dispatcher.message_dispatcher_new (Some Auth.auth_unhandled_message_)))).
Proof.
  intros Hb. unfold handshake. set (s0 := Session.authenticate username password Session.session_new).
  assert (to_server 0 rnd (s0, Auth.connection_start) = (s0, Auth.challenged 1 rnd)) as E1.
  { reflexivity. }
  rewrite E1. destruct (client_answers username password rnd) as (s1 & E2 & Hsent & _ & _ & _ & Hack).
  assert (to_client 0 (s0, Auth.challenged 1 rnd) = (s1, Auth.challenged 1 rnd)) as E3.
  { rewrite <- E2. reflexivity. }
  rewrite E3. unfold to_server at 1. cbn [fst snd]. rewrite Hsent. cbn [lookup list_lookup].
  unfold answer_of. rewrite (Auth.answer_step _ _ _ _ _ _ _ _ _ _ _ [b]) by done.
  match goal with |- context [to_client 1 ?p] =>
    assert (to_client 1 p = (client_step (Session.Deliver (AuthAckMessage (Ident 2 2) b)) s1, p.2)) as ->
      by (by destruct b) end.
  destruct (Hack b) as (H1 & _ & H3 & H4 & H5 & H6). rewrite H1, H3, H4, H5, Hsent. clear -H6. destruct b; split_and!; try done. auto.
Qed.

(** A login works exactly with the right password: for an enabled account,
    after the whole exchange the client's callback has been called once, with
    true when the stored password hash is that of the password given, and with
    false when the responses computed from the two differ; the node considers the
    connection authenticated in the first case only. *)
Theorem login_end_to_end username password rnd a :
  lookup_user (sha username) = FUR true None a -> user_level a <> 0 ->
  let '(s, c) := handshake username password rnd in
  (pw_hash a = sha password ->
     Session.auth_results s = [true] /\ Session._session_state s = Some Session.Authd /\ Auth.a_dispatcher c <> None) /\
  (sha (pw_hash a ++ rnd) <> sha (sha password ++ rnd) ->
     Session.auth_results s = [false] /\ Session._session_state s = Some Session.Unauth /\ Auth.a_dispatcher c = None).
Proof.
  intros Hl Hlev.
  assert (user_lookup_cb digest hex_encode rnd (sha (sha password ++ rnd)) (lookup_user (sha username)) =
    [bool_decide (sha (pw_hash a ++ rnd) = sha (sha password ++ rnd))]) as Hcb.
  { rewrite Hl. unfold user_lookup_cb. simpl. rewrite (proj2 (Z.eqb_neq _ 0)) by done. simpl.
    unfold sha256_hex_string. case_decide; case_bool_decide; done. }
  pose proof (handshake_spec username password rnd _ Hcb) as H. destruct (handshake username password rnd) as [s c].
  destruct H as (H1 & H2 & H3 & _). split.
  - intros Hpw. rewrite bool_decide_eq_true_2 in * by (by rewrite Hpw). naive_solver.
  - intros Hne. rewrite bool_decide_eq_false_2 in * by done. split_and!; [done..|].
    destruct (Auth.a_dispatcher c); [|done]. exfalso. by assert (false = true) by (by apply H3).
Qed.

(** After a login, the first message the client publishes is the one the node
    handles, with the fields the client gave. *)
Theorem publish_end_to_end username password rnd a uid queueId store ttl data cb :
  lookup_user (sha username) = FUR true None a -> user_level a <> 0 -> pw_hash a = sha password ->
  let '(s, c) := handshake username password rnd in
  let s' := Session.authenticated_publish uid queueId store ttl data cb s in
  let c' := (to_server 2 [] (s', c)).2 in
  logged_in s /\ Session._next_id s = 2 /\ Session.publish_message uid queueId store ttl data cb s = Ret s' /\
  Auth._next_id c' = 2 /\
  Auth.published c' = [Publish_ (Ident 3 0) uid queueId (Some (if store then 1 else 0)) (u32 ttl) data].
Proof.
  intros Hl Hlev Hpw.
  assert (user_lookup_cb digest hex_encode rnd (sha (sha password ++ rnd)) (lookup_user (sha username)) = [true]) as Hcb.
  { rewrite Hl. unfold user_lookup_cb. simpl. rewrite (proj2 (Z.eqb_neq _ 0)) by done. simpl.
    unfold sha256_hex_string in *. by rewrite Hpw, decide_True. }
  pose proof (handshake_spec username password rnd true Hcb) as H. destruct (handshake username password rnd) as [s c].
  destruct H as (H1 & H2 & H3 & Hid & Hlen & H4). destruct (H4 eq_refl) as (Hli & Hc & Hr & Hp & Ha).
  split_and!; [done|done|unfold Session.publish_message; by rewrite H2|..].
  all: unfold to_server; cbn [fst snd]; unfold Session.authenticated_publish; simpl; rewrite Hid,
    lookup_app_r, Hlen by lia; simpl; unfold Auth.pop_read; rewrite Hr; simpl; rewrite Ha; simpl; by rewrite ?Hp, ?Hc.
Qed.

End Login.

Lemma login_end_to_end_witness :
  Session.auth_results (handshake toy_digest toy_hex [1] Auth.sample_store [65] [66] [5]).1 = [true].
Proof.
  pose proof (login_end_to_end toy_digest toy_hex [1] Auth.sample_store [65] [66] [5] (UA [7; 65] [65] [7; 66] 1)
    eq_refl ltac:(simpl; lia)) as H.
  destruct (handshake toy_digest toy_hex [1] Auth.sample_store [65] [66] [5]) as [s c]. by apply H.
Defined.

Lemma publish_end_to_end_witness :
  exists s', Session.publish_message [9] [81] true 30 [1; 2] 0%nat
    (handshake toy_digest toy_hex [1] Auth.sample_store [65] [66] [5]).1 = Ret s'.
Proof.
  pose proof (publish_end_to_end toy_digest toy_hex [1] Auth.sample_store [65] [66] [5] (UA [7; 65] [65] [7; 66] 1)
    [9] [81] true 30 [1; 2] 0%nat eq_refl ltac:(simpl; lia) eq_refl) as H.
  destruct (handshake toy_digest toy_hex [1] Auth.sample_store [65] [66] [5]) as [s c].
  destruct H as (_ & _ & H & _). eauto.
Defined.

End Login.
