(* ===== verification/Startup.v ===== *)
(** * The two programs

    Models the start of the node ([node/src/node-main.cpp]) and the node tool
    ([node/src/nodetool-main.cpp]). The option parser is [boost::program_options]: what
    the two programs use of it is the class [option_parser]. *)

From Stdlib Require Import ZArith Lia Ascii String.
From stdpp Require Import base list gmap strings.
From S2P Require Import Prelude Uint128 Clocks MessageQueue Endpoint Node Messages Dispatcher Account Auth Client Login.

Local Open Scope Z_scope.
Local Open Scope sopmq_scope.

(** A map of option values, to which the parse of a command line or of a file is
    added: parsing and storing succeed or throw an error with a text. *)
Class option_parser (VM V : Type) := {
  vm_empty : VM;
  vm_values : VM -> V;
  store_command_line : list Endpoint.text -> VM -> string + VM;
  store_config_file : Endpoint.text -> VM -> string + VM
}.

(** ** The node *)

Module NodeMain.
Import Settings.
Abbreviation text := Endpoint.text.

Section NodeMain.
(** The values are the options, and the path of the configuration file. *)
Context {VM : Type} `{!option_parser VM (options * text)}.
(** The contents of the files that can be opened. *)
Context (open_file : text -> option text).

Definition process_options (argv : list text) (s : settings) : bool * settings :=
  match store_command_line argv vm_empty with
  | inl _ => (false, s)
  | inr vm =>
    if o_help (vm_values vm).1 then (false, s)
    else
      let configFile := (vm_values vm).2 in
      if decide (configFile = []) then store_options (vm_values vm).1 s
      else
        match open_file configFile with
        | None => (false, s)
        | Some content =>
          match store_config_file content vm with
          | inl _ => (false, s)
          | inr vm => store_options (vm_values vm).1 s
          end
        end
  end.

(** [main]: the exit status when it does not start, or the settings the server
    starts with. *)
Definition main (argv : list text) (s : settings) : Z + settings :=
  let '(ok, s) := process_options argv s in if ok then inr s else inl 1.

(** The values the node is started with: those of the command line, with those of
    the configuration file when one is named. *)
Definition final_values (argv : list text) : option options :=
  match store_command_line argv vm_empty with
  | inl _ => None
  | inr vm =>
    let o := (vm_values vm).1 in
    if o_help o then None
    else if decide ((vm_values vm).2 = []) then Some o
    else
      content ← open_file (vm_values vm).2;
      match store_config_file content vm with inl _ => None | inr vm => Some (vm_values vm).1 end
  end.

Lemma process_options_final argv s :
  process_options argv s = match final_values argv with Some o => store_options o s | None => (false, s) end.
Proof.
  unfold process_options, final_values. destruct (store_command_line argv vm_empty) as [e|vm]; [done|].
  destruct (o_help (vm_values vm).1); [done|]. case_decide; [done|]. destruct (open_file _) as [content|]; [|done].
  simpl. by destruct (store_config_file content vm).
Qed.

(** The node starts exactly when the options could be read, help was not asked for
    and the five required options have values; it then runs with those values, and
    otherwise exits with status 1. In no case does it set its own id or the ring
    key: they stay what the settings object started with. *)
Theorem node_starts argv s :
  (forall s', main argv s = inr s' <->
     exists o r b p cs ms, final_values argv = Some o /\
       o_range o = Some r /\ o_bind_addr o = Some b /\ o_port o = Some p /\
       o_storage_nodes o = Some cs /\ o_seed_nodes o = Some ms /\
       s' = Settings (nodeId s) (Uint128.uint128_of_string r) b p cs ms (o_max_message_size o)
              (defaultTimeout s) (o_phi_failure_threshold o) (o_unit_test_username o) (ringKey s)) /\
  (forall code, main argv s = inl code -> code = 1 /\ process_options argv s = (false, s)).
Proof.
  unfold main. rewrite process_options_final. destruct (final_values argv) as [o|]; [|naive_solver].
  unfold store_options. destruct (o_range o) eqn:?, (o_bind_addr o) eqn:?, (o_port o) eqn:?, (o_storage_nodes o) eqn:?,
    (o_seed_nodes o) eqn:?; split; intros ?; try naive_solver.
Qed.

End NodeMain.
End NodeMain.

(** ** The node tool *)

Module NodeTool.
Import Settings Account.
Abbreviation text := Endpoint.text.

(** The options of the tool. *)
Record tool_options := ToolOptions {
  t_help : bool;
  t_init : bool;
  t_create_user : bool;
  t_storage_nodes : option (list text);
  t_args : option (list text)
}.

(** The comma-separated list of the constructor of [cassandra_storage]. *)
Fixpoint contact_points_from (first : bool) (ips : list text) : text :=
  match ips with
  | [] => []
  | ip :: ips => (if first then [] else [","%char]) ++ ip ++ contact_points_from false ips
  end.
Definition contact_points (ips : list text) : text := contact_points_from true ips.

(** The bytes of a string. *)
Definition bytes_of (t : text) : bytes := (fun c => Z.of_N (N_of_ascii c)) <$> t.

Section NodeTool.
Context {VM : Type} `{!option_parser VM tool_options}.
(** [boost::lexical_cast<int>]: [None] when it throws [bad_lexical_cast]. *)
Context (lexical_cast_int : text -> option Z).
Context (digest hex_encode : bytes -> bytes).
(** The driver: how a connection to the contact points ends, and each statement. *)
Context {S : Type} `{!user_store S} (connect : text -> option string) (futures : nat -> execution).

(** [process_options], with the options for the functions below. *)
Definition process_options (argv : list text) (s : settings) : option tool_options * settings :=
  match store_command_line argv vm_empty with
  | inl _ => (None, s)
  | inr vm =>
    let o := vm_values vm in
    if t_help o then (None, s)
    else (Some o,
      match t_storage_nodes o with
      | Some seeds =>
        Settings (nodeId s) (range s) (bindAddress s) (port s) seeds (mqSeeds s) (maxMessageSize s) (defaultTimeout s)
          (phiFailureThreshold s) (unitTestUsername s) (ringKey s)
      | None => s
      end)
  end.

(** A storage error is reported and the status is 1; nothing else is caught by
    [do_init], and [std::exception] by [do_create_user]. *)
Definition do_init (o : tool_options) (s : settings) : @D S Z :=
  match t_storage_nodes o with
  | None => dret 1
  | Some _ => fun st =>
    let '(r, st) := init (connect (contact_points (cassandraSeeds s))) futures st in
    (match r with Ret _ => Ret 0 | Throw (storage_error _) => Ret 1 | Throw e => Throw e | Undef => Undef end, st)
  end.

Definition do_create_user (o : tool_options) (s : settings) : @D S Z :=
  match t_storage_nodes o, t_args o with
  | Some _, Some [userName; password; level] =>
    match lexical_cast_int level with
    | None => dret 1
    | Some userLevel => fun st =>
      let '(r, st) := create digest hex_encode (connect (contact_points (cassandraSeeds s))) (futures 0%nat)
                        (bytes_of userName) (bytes_of password) userLevel st in
      (match r with Ret _ => Ret 0 | Throw _ => Ret 1 | Undef => Undef end, st)
    end
  | _, _ => dret 1
  end.

Definition main (argv : list text) (s : settings) : @D S Z :=
  match process_options argv s with
  | (None, _) => dret 1
  | (Some o, s) =>
    if t_init o then do_init o s
    else if t_create_user o then do_create_user o s
    else dret 1
  end.

(** The options and storage nodes of a command line that was understood. *)
Definition requested (argv : list text) : option (tool_options * list text) :=
  match store_command_line argv vm_empty with
  | inl _ => None
  | inr vm => if t_help (vm_values vm) then None else (fun seeds => (vm_values vm, seeds)) <$> t_storage_nodes (vm_values vm)
  end.

(** The options name something to do, and the driver did it. *)
Definition served (o : tool_options) (seeds : list text) : Prop :=
  connect (contact_points seeds) = None /\
  if t_init o then futures 0%nat = None /\ futures 1%nat = None
  else t_create_user o = true /\ futures 0%nat = None /\
    exists u p l z, t_args o = Some [u; p; l] /\ lexical_cast_int l = Some z.

Definition request_served (argv : list text) : Prop :=
  match requested argv with Some (o, seeds) => served o seeds | None => False end.

(** The account the tool was asked to create. *)
Definition named (o : tool_options) : list bytes :=
  match t_args o with Some [u; _; _] => [c_str (sha256_hex_string digest hex_encode (bytes_of u))] | _ => [] end.

(** How a run ends: success, or a failure that changes no account but those named. *)
Definition ends (r : outcome Z * (S * nat)) (st : S * nat) (ok : Prop) (names : list bytes) : Prop :=
  exists code st', r = (Ret code, st') /\ ((code = 0 /\ ok) \/ (code = 1 /\ ~ ok)) /\
    forall k, k ∉ names -> us_select k st'.1 = us_select k st.1.

Lemma ends_failed st ok names : ~ ok -> ends (dret 1 st) st ok names.
Proof. intros H. exists 1, st. split_and!; [done|by right|done]. Qed.

Lemma do_init_ends o s seeds st names : t_storage_nodes o = Some seeds -> cassandraSeeds s = seeds -> t_init o = true ->
  ends (do_init o s st) st (served o seeds) names.
Proof.
  intros Hn Hs Hi. unfold do_init, served. rewrite Hn, Hs, Hi. set (c := connect _).
  pose proof (init_rows c futures st) as Hr. pose proof (init_result c futures st) as Hc.
  destruct (init c futures st) as [r st']. simpl in *. subst r.
  destruct c, (futures 0%nat) as [[]|], (futures 1%nat) as [[]|]; eexists _, st'; (split; [reflexivity|]);
    (split; [|done]); first [by left|right; split; [done|intuition discriminate]].
Qed.

Lemma create_result c e u p z st : exists st',
  create digest hex_encode c e u p z st =
    (match c, e with
     | None, None => Ret (UA (hex_encode (digest u)) u (hex_encode (digest p)) z)
     | Some e, _ | None, Some (e, _) => Throw (storage_error e)
     end, st') /\
  forall k, k <> c_str (sha256_hex_string digest hex_encode u) -> us_select k st'.1 = us_select k st.1.
Proof.
  unfold create, create_user, dbind, throw_on_error, get_session, session_execute, session_close, dret.
  destruct c as [|], e as [[? []]|]; eexists; (split; [reflexivity|]); intros k Hk; try done; simpl;
    by erewrite us_select_other.
Qed.

Lemma do_create_user_ends o s seeds st : t_storage_nodes o = Some seeds -> cassandraSeeds s = seeds ->
  t_init o = false -> t_create_user o = true -> ends (do_create_user o s st) st (served o seeds) (named o).
Proof.
  intros Hn Hs Hi Hu. unfold do_create_user, served, named. rewrite Hn, Hs, Hi.
  destruct (t_args o) as [[|u [|p [|l [|x args]]]]|] eqn:Ea; try (by apply ends_failed; intros (_ & _ & _ & ? & ? & ? & ? & ? & _)).
  destruct (lexical_cast_int l) as [z|] eqn:El;
    [|apply ends_failed; intros (_ & _ & _ & ? & ? & ? & ? & ? & ?); simplify_eq].
  destruct (create_result (connect (contact_points seeds)) (futures 0%nat) (bytes_of u) (bytes_of p) z st) as (st' & E & Hk).
  rewrite E. destruct (connect _), (futures 0%nat) as [[]|]; eexists _, st'; (split; [reflexivity|]);
    (split; [|intros k Hn'; apply Hk; set_solver]).
  4: left; split_and!; try done; by eexists u, p, l, z.
  all: right; split; [done|intuition discriminate].
Qed.

(** C38. The status of the node tool says what happened: it is 0 exactly when the
    command line was understood and names the storage nodes, and either [--init]
    was given and the connection and both statements succeeded, or [--create_user]
    was given with a name, a password and an integer level and the connection and
    the insert succeeded. Otherwise it is 1. No exception leaves the program, and
    no account changes but the one to be created. *)
Theorem nodetool_status argv s st :
  exists code st', main argv s st = (Ret code, st') /\
    ((code = 0 /\ request_served argv) \/ (code = 1 /\ ~ request_served argv)) /\
    forall k, k ∉ match requested argv with Some (o, _) => named o | None => [] end ->
      us_select k st'.1 = us_select k st.1.
Proof.
  fold (ends (main argv s st) st (request_served argv) match requested argv with Some (o, _) => named o | None => [] end).
  unfold request_served, requested, main, process_options.
  destruct (store_command_line argv vm_empty) as [e|vm]; [apply ends_failed; tauto|].
  set (o := vm_values vm). destruct (t_help o); [apply ends_failed; tauto|].
  destruct (t_storage_nodes o) as [seeds|] eqn:En; simpl.
  - destruct (t_init o) eqn:Ei; [by apply do_init_ends|]. destruct (t_create_user o) eqn:Ec; [by apply do_create_user_ends|].
    apply ends_failed. unfold served. rewrite Ei, Ec. by intros (_ & ? & _).
  - unfold do_init, do_create_user. rewrite En. destruct (t_init o), (t_create_user o); apply ends_failed; tauto.
Qed.

(** What a node that uses this storage finds for the hash of a name. *)
Definition stored_user (db : S) (h : bytes) : find_user_result :=
  default (FUR false None user_account_default) (head (find_user None None h db)).

(** What a successful [--create_user] ran. *)
Lemma main_created argv s st st' o seeds u p l z :
  requested argv = Some (o, seeds) -> t_init o = false -> t_args o = Some [u; p; l] -> lexical_cast_int l = Some z ->
  main argv s st = (Ret 0, st') ->
  exists a, create digest hex_encode (connect (contact_points seeds)) (futures 0%nat) (bytes_of u) (bytes_of p) z st = (Ret a, st').
Proof.
  intros Hreq Hi Ha Hl Hmain. unfold requested in Hreq. unfold main, process_options in Hmain.
  destruct (store_command_line argv vm_empty) as [e|vm]; [done|].
  destruct (t_help (vm_values vm)); [done|]. destruct (t_storage_nodes (vm_values vm)) as [seeds'|] eqn:En; simplify_eq/=.
  rewrite Hi in Hmain. destruct (t_create_user (vm_values vm)); [|done]. unfold do_create_user in Hmain.
  rewrite En, Ha, Hl in Hmain. destruct (create _ _ _ _ _ _ _ _) as [[a|e|] st1] eqn:Ec; simplify_eq/=. eauto.
Qed.

(** C18. An account made with the tool can log in: after [--create_user] with a level
    other than 0 ended with status 0, a client that authenticates with that name and
    password against a node that uses this storage is accepted, and one whose
    password gives another response is refused; each is told exactly once. *)
Theorem nodetool_account_logs_in argv s st st' o seeds u p l z rnd ring_key password :
  (forall b, 0 ∉ hex_encode b) -> 0 ∉ bytes_of u ->
  requested argv = Some (o, seeds) -> t_init o = false -> t_args o = Some [u; p; l] ->
  lexical_cast_int l = Some z -> z <> 0 ->
  main argv s st = (Ret 0, st') ->
  let sha := sha256_hex_string digest hex_encode in
  let '(client, node) := Login.handshake digest hex_encode ring_key (stored_user st'.1) (bytes_of u) password rnd in
  (password = bytes_of p ->
     Session.auth_results client = [true] /\ Session._session_state client = Some Session.Authd /\
     Auth.a_dispatcher node <> None) /\
  (sha (sha (bytes_of p) ++ rnd) <> sha (sha password ++ rnd) ->
     Session.auth_results client = [false] /\ Auth.a_dispatcher node = None).
Proof.
  intros Hhex Hu Hreq Hi Ha Hl Hz Hmain sha.
  destruct (main_created _ _ _ _ _ _ _ _ _ _ Hreq Hi Ha Hl Hmain) as [a Ec]. clear Hmain.
  pose proof (find_created _ _ Hhex _ _ _ _ _ _ _ _ Hu Ec) as Hf.
  apply create_ok in Ec as (_ & _ & -> & _); [|done].
  assert (user_lookup_cb digest hex_encode rnd (sha (sha password ++ rnd)) (stored_user st'.1 (sha (bytes_of u))) =
    [bool_decide (sha (sha (bytes_of p) ++ rnd) = sha (sha password ++ rnd))]) as Hcb.
  { unfold stored_user, sha. rewrite Hf. unfold user_lookup_cb. simpl. rewrite (proj2 (Z.eqb_neq _ 0)) by done. simpl.
    unfold sha256_hex_string. case_decide; case_bool_decide; done. }
  pose proof (Login.handshake_spec digest hex_encode ring_key _ (bytes_of u) password rnd _ Hcb) as H.
  destruct (Login.handshake _ _ _ _ _ _ _) as [client node]. destruct H as (H1 & H2 & H3 & _). split.
  - intros ->. rewrite bool_decide_eq_true_2 in * by done. naive_solver.
  - intros Hne. rewrite bool_decide_eq_false_2 in * by done. split; [done|].
    destruct (Auth.a_dispatcher node); [|done]. exfalso. by assert (false = true) by (by apply H3).
Qed.

End NodeTool.

(** ** A concrete run *)

(** A parser that takes the options as given in a fixed order: the storage nodes in
    the first argument, then the arguments of [--create_user]. *)
#[local] Instance toy_parser : option_parser tool_options tool_options := {|
  vm_empty := ToolOptions false false false None None;
  vm_values o := o;
  store_command_line argv _ :=
    match argv with
    | node :: args => inr (ToolOptions false false true (Some [node]) (Some args))
    | [] => inl "the required argument is missing"%string
    end;
  store_config_file _ o := inr o
|}.

Definition toy_cast (t : text) : option Z :=
  match t with [c] => Some (Z.of_N (N_of_ascii c) - 48) | _ => None end.

Definition sample_argv : list text := Endpoint.str_ <$> ["10.0.0.1"; "A"; "B"; "1"]%string.

Definition sample_main : outcome Z * (gmap bytes row * nat) :=
  main toy_cast toy_digest toy_hex (fun _ => None) (fun _ => None) sample_argv Node.sample_settings (∅ : gmap bytes row, 0%nat).

Lemma nodetool_status_witness : exists code st', sample_main = (Ret code, st') /\ (code = 0 \/ code = 1).
Proof.
  destruct (nodetool_status toy_cast toy_digest toy_hex (fun _ => None) (fun _ => None) sample_argv Node.sample_settings
    (∅ : gmap bytes row, 0%nat)) as (code & st' & E & [[H _]|[H _]] & _); exists code, st'; (split; [exact E|]); auto.
Defined.

Lemma nodetool_account_logs_in_witness :
  Session.auth_results (Login.handshake toy_digest toy_hex [1] (stored_user sample_main.2.1) [65] [66] [5]).1 = [true].
Proof.
  pose proof (nodetool_account_logs_in toy_cast toy_digest toy_hex (fun _ => None) (fun _ => None)
    sample_argv Node.sample_settings (∅ : gmap bytes row, 0%nat) sample_main.2
    (ToolOptions false false true (Some [Endpoint.str_ "10.0.0.1"]) (Some (Endpoint.str_ <$> ["A"; "B"; "1"]%string)))
    [Endpoint.str_ "10.0.0.1"] (Endpoint.str_ "A") (Endpoint.str_ "B") (Endpoint.str_ "1") 1 [5] [1] [66]
    toy_hex_no_nul ltac:(apply (bool_decide_unpack _); vm_compute; exact I) eq_refl eq_refl eq_refl eq_refl ltac:(lia)
    ltac:(vm_compute; reflexivity)) as H. cbv zeta in H.
  change (bytes_of (Endpoint.str_ "A")) with [65] in H.
  destruct (Login.handshake toy_digest toy_hex [1] (stored_user sample_main.2.1) [65] [66] [5]) as [client node].
  by apply H.
Defined.

End NodeTool.
