(* ===== verification/Publish.v ===== *)
(** * Publishing a message

    Models [node/src/local_node_operations.h] and [.cpp], [node/src/operation_result.h],
    [node/src/inode_operations.h] and [csauthenticated::handle_post_message] of
    [node/src/csauthenticated.cpp], which runs a publish under the quorum logic.
    Exceptions unwind to a handler in the middle of updates, so the code runs in a
    monad that keeps the state when it throws. *)

From Stdlib Require Import ZArith Lia Ascii String.
From stdpp Require Import base list gmap strings.
From S2P Require Import Prelude Uint128 Murmur Clocks MessageQueue QueueManager Endpoint Node Ring Quorum Messages.

Local Open Scope Z_scope.
Local Open Scope sopmq_scope.

Module Publish.
Import Messages Quorum.
Abbreviation vclock := VectorClock.vclock.
Abbreviation node := Node.node.
Abbreviation heap := Node.heap.

(** Which exceptions derive from [std::runtime_error]. *)
Definition is_runtime_error (e : exn) : bool :=
  match e with
  | domain_error _ | logic_error _ | bad_function_call => false
  | _ => true
  end.

(** ** State and monad *)

(** [p_stamp_calls] is not state of the program: it records the calls of
    [do_stamp_message]. *)
Record pstate := PS {
  p_heap : heap;
  p_ring : Ring.ring;
  p_message : PublishMessage;
  p_logic : quorum_logic;
  p_clocks : list vclock;
  p_next_id : Z;
  p_sent : list message;
  p_stamp_calls : list (list slot * vclock)
}.

Definition P (A : Type) : Type := pstate -> outcome A * pstate.
Definition pret {A} (a : A) : P A := fun s => (Ret a, s).
Definition pbind {A B} (m : P A) (f : A -> P B) : P B :=
  fun s => let '(r, s) := m s in
    match r with Ret a => f a s | Throw e => (Throw e, s) | Undef => (Undef, s) end.
Definition plift {A} (m : outcome A) : P A := fun s => (m, s).
Definition pget : P pstate := fun s => (Ret s, s).
Definition pput (s : pstate) : P unit := fun _ => (Ret tt, s).

(** [try { m } catch (e) { h }] for the exceptions [catches] accepts. *)
Definition ptry {A} (m : P A) (catches : exn -> bool) (h : exn -> P A) : P A :=
  fun s => let '(r, s) := m s in
    match r with Throw e => if catches e then h e s else (Throw e, s) | _ => (r, s) end.

Notation "x <- m ;;; k" := (pbind m (fun x => k)) (at level 100, m at next level, right associativity).

Definition set_heap (h : heap) (s : pstate) : pstate :=
  PS h (p_ring s) (p_message s) (p_logic s) (p_clocks s) (p_next_id s) (p_sent s) (p_stamp_calls s).
Definition set_message (m : PublishMessage) (s : pstate) : pstate :=
  PS (p_heap s) (p_ring s) m (p_logic s) (p_clocks s) (p_next_id s) (p_sent s) (p_stamp_calls s).
Definition set_logic (q : quorum_logic) (s : pstate) : pstate :=
  PS (p_heap s) (p_ring s) (p_message s) q (p_clocks s) (p_next_id s) (p_sent s) (p_stamp_calls s).
Definition push_clock (v : vclock) (s : pstate) : pstate :=
  PS (p_heap s) (p_ring s) (p_message s) (p_logic s) (p_clocks s ++ [v]) (p_next_id s) (p_sent s) (p_stamp_calls s).

(** ** Invariants of computations *)

(** The computation keeps the invariant [I] of the state, also when it does not
    return, and what it returns satisfies [Q]. *)
Definition keeps (I : pstate -> Prop) {A} (m : P A) (Q : A -> Prop) : Prop :=
  forall s, I s -> I (m s).2 /\ forall a, (m s).1 = Ret a -> Q a.

Section Keeps.
Context (I : pstate -> Prop).

Lemma keeps_ret {A} (a : A) (Q : A -> Prop) : Q a -> keeps I (pret a) Q.
Proof. intros H s Hs. split; [done|]. by intros ? [= <-]. Qed.

Lemma keeps_lift {A} (m : outcome A) (Q : A -> Prop) : (forall a, m = Ret a -> Q a) -> keeps I (plift m) Q.
Proof. intros H s Hs. by split. Qed.

Lemma keeps_lift_any {A} (m : outcome A) : keeps I (plift m) (fun _ => True).
Proof. by apply keeps_lift. Qed.

Lemma keeps_get : keeps I pget I.
Proof. intros s Hs. split; [done|]. by intros ? [= <-]. Qed.

Lemma keeps_put s : I s -> keeps I (pput s) (fun _ => True).
Proof. intros Hs s0 _. by split. Qed.

Lemma keeps_bind {A B} (m : P A) (f : A -> P B) Q R :
  keeps I m Q -> (forall a, Q a -> keeps I (f a) R) -> keeps I (pbind m f) R.
Proof.
  intros Hm Hf s Hs. unfold pbind. specialize (Hm s Hs). destruct (m s) as [[a|e|] s']; simpl in *; destruct Hm as [Hs' Ha].
  - apply Hf; auto.
  - by split.
  - by split.
Qed.

Lemma keeps_try {A} (m : P A) c h Q : keeps I m Q -> (forall e, keeps I (h e) Q) -> keeps I (ptry m c h) Q.
Proof.
  intros Hm Hh s Hs. unfold ptry. specialize (Hm s Hs). destruct (m s) as [[a|e|] s']; simpl in *; try done.
  destruct Hm as [Hs' _]. destruct (c e); [by apply Hh|by split].
Qed.

End Keeps.

(** Reads and writes of the whole state, and computations whose result does not
    matter. *)
Ltac keeps_step :=
  match goal with
  | |- keeps _ (pbind pget _) _ => eapply keeps_bind; [apply keeps_get|intros ? ?]
  | |- keeps _ (pbind (pput _) _) _ => eapply keeps_bind; [apply keeps_put|intros [] _]
  | |- keeps _ (pbind (plift _) _) _ => eapply keeps_bind; [apply keeps_lift_any|intros ? _]
  end.

Section Publish.
Context (conf : Settings.settings) (now : Z).
(** The contents of the memory a network clock is read into. *)
Context (init_clock : vclock).

(** ** local_node_operations *)

Definition send_gossip : P unit := plift (Throw (logic_error "Refusing to gossip to self")).

Fixpoint node_clocks (h : heap) (nodes : list Node.ptr) : outcome (list NodeClock.NodeClock_pb) :=
  match nodes with
  | [] => Ret []
  | p :: nodes =>
    n <~ Ring.deref h p;;
    rest <~ node_clocks h nodes;;
    Ret (NodeClock.to_protobuf (Node.clock n) :: rest)
  end.

Definition with_operations (mgr : QueueManager.queue_manager) (n : node) : node :=
  Node.Nd (Node._node_id n) (Node._range_start n) (Node._endpoint n) (Node._failure_detector n)
    (Some mgr) (Node._forced_failure n) (Node._clock n).

(** [++_clock.clock], 64 bits wide. *)
Definition tick (n : node) : node :=
  let c := Node._clock n in
  Node.Nd (Node._node_id n) (Node._range_start n) (Node._endpoint n) (Node._failure_detector n)
    (Node._operations_handler n) (Node._forced_failure n)
    (NodeClock.NC (NodeClock.node_id c) (NodeClock.generation c) (u64 (NodeClock.clock c + 1))).

(** [send_proxy_publish] on the operations of the local node [p], whose queue
    manager is [mgr]. The content of the message is moved out. The status of the
    response is never set. *)
Definition send_proxy_publish (p : Node.ptr) (mgr : QueueManager.queue_manager) : P message :=
  s <- pget ;;;
  let m := p_message s in
  queueIdHash <- plift (Murmur.murmur_hash3_string (queue_id m)) ;;;
  messageId <- plift (uuid_from_bytes (message_id m)) ;;;
  n <- plift (Ring.deref (p_heap s) p) ;;;
  let mgr := QueueManager.enqueue_message 3 now queueIdHash messageId (content m) (ttl m) mgr in
  let n := tick (with_operations mgr n) in
  let h := <[p := n]> (p_heap s) in
  _ <- pput (set_message (Publish_ (pub_identity m) (message_id m) (queue_id m) (flags m) (ttl m) [])
              (set_heap h s)) ;;;
  nodes <- plift (Ring.find_nodes_for_key (p_ring s) queueIdHash) ;;;
  clocks <- plift (node_clocks h nodes) ;;;
  pret (ProxyPublishResponseMessage (build_id 0 (id (pub_identity m))) PPR_NOTAUTH clocks).

(** ** The reply callback of handle_post_message *)

(** Its body is empty. *)
Definition do_stamp_message (nodes : list slot) (maxClock : vclock) : P unit := pret tt.

Definition record_stamp_call (nodes : list slot) (maxClock : vclock) : P unit :=
  s <- pget ;;;
  pput (PS (p_heap s) (p_ring s) (p_message s) (p_logic s) (p_clocks s) (p_next_id s) (p_sent s)
          (p_stamp_calls s ++ [(nodes, maxClock)])).

(** The response that no quorum could be reached. *)
Definition send_unavailable : P unit :=
  s <- pget ;;;
  let i := u32 (p_next_id s + 1) in
  pput (PS (p_heap s) (p_ring s) (p_message s) (p_logic s) (p_clocks s) i
          (p_sent s ++ [PublishResponseMessage (build_id i (id (pub_identity (p_message s)))) PR_UNAVAILABLE])
          (p_stamp_calls s)).

(** [logic->node_failed]: the effect of the quorum logic is carried out, by
    [call] for another node. *)
Definition on_failed (call : slot -> P unit) (n : slot) : P unit :=
  s <- pget ;;;
  r <- plift (node_failed 3 n (p_logic s)) ;;;
  _ <- pput (set_logic r.1 s) ;;;
  match r.2 with Call n' => call n' | FailCall => send_unavailable end.

(** The merge of the first two clocks, and the call of [do_stamp_message]. *)
Definition on_quorum : P unit :=
  s <- pget ;;;
  match p_clocks s with
  | c0 :: c1 :: _ =>
    maxClock <- plift (VectorClock.max c0 c1) ;;;
    _ <- record_stamp_call (successful_nodes (p_logic s)) maxClock ;;;
    do_stamp_message (successful_nodes (p_logic s)) maxClock
  | _ => plift Undef
  end.

(** The body of the [try]: success is recorded before the clock is converted. *)
Definition on_reply_body (call : slot -> P unit) (n : slot) (result : operation_result message) : P unit :=
  _ <- plift (rethrow_error result) ;;;
  match result with
  | OpMessage (ProxyPublishResponseMessage _ PPR_QUEUED clocks) =>
    s <- pget ;;;
    _ <- pput (set_logic (node_success n (p_logic s)) s) ;;;
    v <- plift (VectorClock.vector_clock_of_net 3 init_clock clocks) ;;;
    s <- pget ;;;
    _ <- pput (push_clock v s) ;;;
    s <- pget ;;;
    if operation_succeeded 3 (p_logic s) then on_quorum else pret tt
  | _ => on_failed call n
  end.

Definition on_reply (call : slot -> P unit) (n : slot) (result : operation_result message) : P unit :=
  ptry (on_reply_body call n result) is_runtime_error (fun _ => on_failed call n).

(** ** handle_post_message *)

(** [node->operations().send_proxy_publish(message, callback)]: the local
    operations call back before they return. A failure reply calls the function
    for another node: [fuel] bounds that nesting. *)
Fixpoint call_function (fuel : nat) (n : slot) : P unit :=
  match fuel, n with
  | S fuel, Some p =>
    s <- pget ;;;
    nd <- plift (Ring.deref (p_heap s) p) ;;;
    mgr <- plift (Node.operations conf nd) ;;;
    response <- send_proxy_publish p mgr ;;;
    on_reply (call_function fuel) n (OpMessage response)
  | _, _ => plift Undef
  end.

(** [quorum_logic::run] *)
Fixpoint run_quorum (fuel i : nat) : P unit :=
  match i with
  | O => pret tt
  | S i =>
    s <- pget ;;;
    r <- plift (call_next (p_logic s)) ;;;
    _ <- pput (set_logic r.1 s) ;;;
    _ <- match r.2 with Call n => call_function fuel n | FailCall => pret tt end ;;;
    run_quorum fuel i
  end.

Context (shuffle : list Node.ptr -> list Node.ptr).

Definition is_unavailable (e : exn) : bool := match e with unavailable_error _ => true | _ => false end.

(** At most three nodes are called, one inside the other: four levels suffice. *)
Definition handle_post_message (r : network_operation_result) : P unit :=
  if negb (was_successful r) then pret tt else
  ptry
    (s <- pget ;;;
     h <- plift (Murmur.murmur_hash3_string (queue_id (p_message s))) ;;;
     nodes <- plift (Ring.find_quorum_for_operation conf shuffle (p_heap s) now (p_ring s) h) ;;;
     _ <- pput (set_logic (quorum_logic_new nodes) s) ;;;
     run_quorum 4 (run_count 3))
    is_unavailable (fun _ => send_unavailable).

(** ** The local enqueue *)

Lemma node_clocks_ok h nodes : (forall p, p ∈ nodes -> is_Some (h !! p)) ->
  exists ns, Forall2 (fun p n => h !! p = Some n) nodes ns /\
    node_clocks h nodes = Ret (NodeClock.to_protobuf ∘ Node.clock <$> ns).
Proof.
  induction nodes as [|p nodes IH]; intros Hn; [exists []; by split|].
  destruct (Hn p ltac:(by left)) as [n Hp]. destruct IH as (ns & Hns & E); [intros q Hq; apply Hn; by right|].
  exists (n :: ns). split; [by constructor|]. simpl. unfold Ring.deref. by rewrite Hp, E.
Qed.

(** An enqueue touches only the queue it names. *)
Lemma enqueue_queue h mid data t mgr :
  QueueManager._queues (QueueManager.enqueue_message 3 now h mid data t mgr) =
  <[h := MessageQueue.enqueue 3 now mid data t
           (default (MessageQueue.message_queue_new now h) (QueueManager._queues mgr !! h))]>
    (QueueManager._queues mgr).
Proof.
  unfold QueueManager.enqueue_message, QueueManager.get_queue.
  destruct (QueueManager._queues mgr !! h); simpl; [done|]. by rewrite insert_insert_eq.
Qed.

(** ** What a publish leaves alone *)

(** The calls of [do_stamp_message]. *)
Definition stamp_calls_are (l : list (list slot * vclock)) (s : pstate) : Prop := p_stamp_calls s = l.

Lemma on_failed_keeps I call n : (forall q s, I s -> I (set_logic q s)) -> keeps I send_unavailable (fun _ => True) ->
  (forall n, keeps I (call n) (fun _ => True)) -> keeps I (on_failed call n) (fun _ => True).
Proof.
  intros Hl Hu Hc. unfold on_failed. keeps_step. keeps_step. keeps_step; [by apply Hl|].
  destruct a0.2; [apply Hc|done].
Qed.

(** A reply that is not QUEUED is a failure. *)
Lemma on_reply_notauth_keeps I call n i clocks : (forall q s, I s -> I (set_logic q s)) ->
  keeps I send_unavailable (fun _ => True) -> (forall n, keeps I (call n) (fun _ => True)) ->
  keeps I (on_reply call n (OpMessage (ProxyPublishResponseMessage i PPR_NOTAUTH clocks))) (fun _ => True).
Proof.
  intros Hl Hu Hc. apply keeps_try; [|intros; by apply on_failed_keeps].
  unfold on_reply_body. keeps_step. by apply on_failed_keeps.
Qed.

(** The response of the local operations never says that the message is queued. *)
Lemma send_proxy_publish_keeps I p mgr :
  (forall h f st, I st -> I (set_message (Publish_ (pub_identity (p_message st)) (message_id (p_message st))
     (queue_id (p_message st)) (flags (p_message st)) (ttl (p_message st)) f) (set_heap h st))) ->
  keeps I (send_proxy_publish p mgr) (fun r => exists i clocks, r = ProxyPublishResponseMessage i PPR_NOTAUTH clocks).
Proof.
  intros Hs. unfold send_proxy_publish. keeps_step. do 3 keeps_step. keeps_step; [by apply Hs|].
  do 2 keeps_step. apply keeps_ret. by eexists _, _.
Qed.

(** What handling a publish keeps: everything that the local enqueue, on the managers
    [M] of the heap, the quorum logic and the UNAVAILABLE response keep. *)
Section HandlerKeeps.
Context (I : pstate -> Prop) (M : QueueManager.queue_manager -> Prop).
Context (Hlogic : forall q s, I s -> I (set_logic q s)).
Context (Hmanager : forall s p n mgr, I s -> p_heap s !! p = Some n -> Node._operations_handler n = Some mgr -> M mgr).
Context (Henqueue : forall p mgr, M mgr ->
  keeps I (send_proxy_publish p mgr) (fun r => exists i clocks, r = ProxyPublishResponseMessage i PPR_NOTAUTH clocks)).
Context (Hunavailable : keeps I send_unavailable (fun _ => True)).

Lemma call_function_keeps fuel n : keeps I (call_function fuel n) (fun _ => True).
Proof.
  revert n. induction fuel as [|fuel IH]; intros [p|]; try apply keeps_lift_any.
  unfold call_function; fold call_function. keeps_step.
  eapply (keeps_bind _ _ _ (fun n => p_heap a !! p = Some n)).
  { apply keeps_lift. unfold Ring.deref. intros n En. by destruct (p_heap a !! p); simplify_eq. }
  intros n Hn. eapply (keeps_bind _ _ _ M).
  { apply keeps_lift. unfold Node.operations. intros mgr Em.
    destruct (Node._operations_handler n) eqn:E; [simplify_eq; by eapply Hmanager|]. by case_match. }
  intros mgr Hm. eapply keeps_bind; [by apply Henqueue|]. intros r (i & cs & ->). by apply on_reply_notauth_keeps.
Qed.

Lemma run_quorum_keeps fuel i : keeps I (run_quorum fuel i) (fun _ => True).
Proof.
  induction i as [|i IH]; [by apply keeps_ret|]. unfold run_quorum; fold run_quorum. keeps_step. keeps_step.
  keeps_step; [by apply Hlogic|]. eapply keeps_bind; [|done].
  destruct a0.2; [apply call_function_keeps|by apply keeps_ret].
Qed.

Lemma handle_post_message_managed r : keeps I (handle_post_message r) (fun _ => True).
Proof.
  unfold handle_post_message. destruct (negb (was_successful r)); [by apply keeps_ret|].
  apply keeps_try; [|done]. keeps_step. do 2 keeps_step. keeps_step; [by apply Hlogic|]. apply run_quorum_keeps.
Qed.

End HandlerKeeps.

(** The same for properties that no change of the heap and of the content matters to. *)
Lemma handle_post_message_keeps (I : pstate -> Prop) r :
  (forall q s, I s -> I (set_logic q s)) ->
  (forall h f st, I st -> I (set_message (Publish_ (pub_identity (p_message st)) (message_id (p_message st))
     (queue_id (p_message st)) (flags (p_message st)) (ttl (p_message st)) f) (set_heap h st))) ->
  keeps I send_unavailable (fun _ => True) -> keeps I (handle_post_message r) (fun _ => True).
Proof.
  intros Hl He Hu. apply (handle_post_message_managed I (fun _ => True)); [done..| |done].
  intros p mgr _. by apply send_proxy_publish_keeps.
Qed.

Lemma send_proxy_publish_spec p mgr n s :
  Murmur.bytes_ok (queue_id (p_message s)) -> Z.of_nat (length (queue_id (p_message s))) < 2 ^ 31 ->
  length (message_id (p_message s)) = 16%nat ->
  p_heap s !! p = Some n -> Ring.ring_wf (p_heap s) (p_ring s) -> Ring._ring_by_range (p_ring s) <> [] ->
  let m := p_message s in
  exists h mgr' nodes ns s',
    let n' := tick (with_operations mgr' n) in
    Murmur.murmur_hash3_string (queue_id m) = Ret h /\
    Ring.find_nodes_for_key (p_ring s) h = Ret nodes /\
    Forall2 (fun q k => p_heap s' !! q = Some k) nodes ns /\
    send_proxy_publish p mgr s =
      (Ret (ProxyPublishResponseMessage (build_id 0 (id (pub_identity m))) PPR_NOTAUTH
              (NodeClock.to_protobuf ∘ Node.clock <$> ns)), s') /\
    p_heap s' = <[p := n']> (p_heap s) /\ content (p_message s') = [] /\ p_logic s' = p_logic s /\
    p_ring s' = p_ring s /\
    QueueManager._queues mgr' =
    <[h := MessageQueue.enqueue 3 now (message_id m) (content m) (ttl m)
             (default (MessageQueue.message_queue_new now h) (QueueManager._queues mgr !! h))]>
      (QueueManager._queues mgr).
Proof.
  intros Hb Hl Hid Hp W Hne m.
  destruct (Murmur.murmur_hash3_string_ok (queue_id m) Hb Hl) as (h & Eh & _).
  destruct (Ring.find_nodes_distinct (p_heap s) (p_ring s) h W Hne) as (nodes & En & _ & _ & Hmem).
  set (mgr' := QueueManager.enqueue_message 3 now h (message_id m) (content m) (ttl m) mgr).
  set (n' := tick (with_operations mgr' n)).
  destruct (node_clocks_ok (<[p := n']> (p_heap s)) nodes) as (ns & Hns & Ec).
  { intros q Hq. destruct (Hmem q Hq) as [k Hk]. destruct (Ring.rw_range _ _ W _ _ Hk) as (nq & Hnq & _).
    apply lookup_insert_is_Some'. right. eauto. }
  eexists h, mgr', nodes, ns, _. cbv zeta. fold n'. split_and!; [done|done| | | | | | |]; cycle 1.
  - unfold send_proxy_publish, pbind, pget, plift, pput, pret. fold m. rewrite Eh.
    unfold uuid_from_bytes. fold m in Hid. rewrite Hid. simpl. unfold Ring.deref. rewrite Hp.
    fold mgr' n'. rewrite En, Ec. reflexivity.
  - done.
  - done.
  - done.
  - done.
  - apply enqueue_queue.
  - exact Hns.
Qed.

(** Undefined behaviour in the first call ends the loop. *)
Lemma run_quorum_undef fuel i q n s : call_next (p_logic s) = Ret (q, Call n) ->
  (call_function fuel n (set_logic q s)).1 = Undef -> (run_quorum fuel (S i) s).1 = Undef.
Proof.
  intros E H. unfold run_quorum; fold run_quorum. unfold pbind at 1 2 3, pget, plift, pput. rewrite E.
  unfold pbind. simpl. destruct (call_function fuel n (set_logic q s)) as [r s']. simpl in H. by rewrite H.
Qed.

(** ** Properties *)

(** C22. A publish that reaches its own node is enqueued, unstamped, in the queue of
    the hash of its queue id and in no other queue, the node's own clock advances
    by one (modulo 2^64), and the reply carries the clocks of the three nodes of
    that key, the node's new clock included; the content has moved out of the
    message. *)
Theorem local_publish p mgr n s :
  Murmur.bytes_ok (queue_id (p_message s)) -> Z.of_nat (length (queue_id (p_message s))) < 2 ^ 31 ->
  length (message_id (p_message s)) = 16%nat ->
  p_heap s !! p = Some n -> Ring.ring_wf (p_heap s) (p_ring s) -> Ring._ring_by_range (p_ring s) <> [] ->
  let m := p_message s in
  exists h n' nodes ns s',
    Murmur.murmur_hash3_string (queue_id m) = Ret h /\
    Ring.find_nodes_for_key (p_ring s) h = Ret nodes /\
    Forall2 (fun q k => p_heap s' !! q = Some k) nodes ns /\
    send_proxy_publish p mgr s =
      (Ret (ProxyPublishResponseMessage (build_id 0 (id (pub_identity m))) PPR_NOTAUTH
              (NodeClock.to_protobuf ∘ Node.clock <$> ns)), s') /\
    p_heap s' = <[p := n']> (p_heap s) /\ content (p_message s') = [] /\ p_logic s' = p_logic s /\
    NodeClock.clock (Node.clock n') = u64 (NodeClock.clock (Node.clock n) + 1) /\
    exists mgr', Node._operations_handler n' = Some mgr' /\
      QueueManager._queues mgr' =
      <[h := MessageQueue.enqueue 3 now (message_id m) (content m) (ttl m)
               (default (MessageQueue.message_queue_new now h) (QueueManager._queues mgr !! h))]>
        (QueueManager._queues mgr).
Proof.
  intros Hb Hl Hid Hp W Hne m.
  destruct (send_proxy_publish_spec p mgr n s Hb Hl Hid Hp W Hne)
    as (h & mgr' & nodes & ns & s' & Eh & En & Hns & E & Hh & Hc & Hq & _ & Hm).
  exists h, (tick (with_operations mgr' n)), nodes, ns, s'. split_and!; [done..|]. by exists mgr'.
Qed.

End Publish.

(** A QUEUED reply: the node is recorded, its clock kept, the quorum tested. *)
Lemma on_reply_queued init_clock call n i v s : length init_clock = 3%nat -> length v = 3%nat ->
  on_reply init_clock call n (OpMessage (ProxyPublishResponseMessage i PPR_QUEUED (VectorClock.to_net v))) s =
  let s1 := push_clock v (set_logic (node_success n (p_logic s)) s) in
  ptry (if operation_succeeded 3 (p_logic s1) then on_quorum else pret tt)
    is_runtime_error (fun _ => on_failed call n) s1.
Proof.
  intros Hi Hv. unfold on_reply, ptry, on_reply_body. cbn [rethrow_error]. unfold pbind, plift, pget, pput.
  by rewrite VectorClock.of_net_to_net.
Qed.

(** When two nodes of the quorum reply that they queued the message, with clocks over the
    same three nodes, the publish succeeds at the second reply: [do_stamp_message] is called
    once, for exactly those nodes, with the least upper bound of their clocks, and no failure
    is sent. (It does nothing, and the operations of the local node never reply so.) *)
Theorem publish_stamps_merge init_clock call n1 n2 i1 i2 v1 v2 s :
  length init_clock = 3%nat -> length v1 = 3%nat -> length v2 = 3%nat ->
  VectorClock.ids v1 = VectorClock.ids v2 ->
  _success_nodes (p_logic s) = [] -> p_clocks s = [] ->
  let reply i v := OpMessage (ProxyPublishResponseMessage i PPR_QUEUED (VectorClock.to_net v)) in
  exists s1 s2 m,
    on_reply init_clock call n1 (reply i1 v1) s = (Ret tt, s1) /\ p_stamp_calls s1 = p_stamp_calls s /\
    on_reply init_clock call n2 (reply i2 v2) s1 = (Ret tt, s2) /\
    p_stamp_calls s2 = p_stamp_calls s ++ [([n1; n2], m)] /\ p_sent s2 = p_sent s /\
    VectorClock.dominated v1 m /\ VectorClock.dominated v2 m /\
    forall c, VectorClock.dominated v1 c -> VectorClock.dominated v2 c -> VectorClock.dominated m c.
Proof.
  intros Hi H1 H2 Hids Hs Hc reply.
  assert (VectorClock.max v1 v2 = VectorClock.max_loop v1 v2) as Hq.
  { unfold VectorClock.max. by rewrite (proj2 (VectorClock.same_quorum_ids v1 v2 ltac:(congruence)) Hids). }
  destruct (VectorClock.max_loop_spec v1 v2 Hids) as (m & Em & Ha & Hb & Hlub).
  set (s1 := push_clock v1 (set_logic (node_success n1 (p_logic s)) s)).
  set (s2 := push_clock v2 (set_logic (node_success n2 (p_logic s1)) s1)).
  assert (_success_nodes (p_logic s2) = [n1; n2]) as Hs2 by (simpl; by rewrite Hs).
  exists s1, (record_stamp_call [n1; n2] m s2).2, m. subst reply. cbv beta.
  rewrite (on_reply_queued _ call n1 i1 v1 s), (on_reply_queued _ call n2 i2 v2 s1) by done. cbv zeta. fold s1. fold s2.
  assert (operation_succeeded 3 (p_logic s1) = false) as -> by (unfold operation_succeeded; simpl; by rewrite Hs).
  assert (operation_succeeded 3 (p_logic s2) = true) as -> by (unfold operation_succeeded; by rewrite Hs2).
  assert (on_quorum s2 = (Ret tt, (record_stamp_call [n1; n2] m s2).2)) as Eq.
  { unfold on_quorum, pbind, pget, plift. simpl. rewrite Hc. simpl. rewrite Hq, Em. simpl. unfold successful_nodes. simpl. by rewrite Hs, Hc. }
  split_and!; try done. unfold ptry. by rewrite Eq.
Qed.

(** The reply says that the node queued the message. *)
Definition queued (result : operation_result message) : bool :=
  match result with OpMessage (ProxyPublishResponseMessage _ PPR_QUEUED _) => true | _ => false end.

(** From [s] to [s'] the quorum logic made one of its steps on a reply of [n]: the node was
    counted as a success, or as a failure, on top of a success when the reply was QUEUED,
    and the client was sent a response exactly when the failure function was called. *)
Inductive counted (n : slot) (q : bool) (s s' : pstate) : Prop :=
| counted_success : q = true -> p_logic s' = node_success n (p_logic s) -> p_sent s' = p_sent s -> counted n q s s'
| counted_failure (e : effect) : node_failed 3 n (if q then node_success n (p_logic s) else p_logic s) = Ret (p_logic s', e) ->
    length (p_sent s') = (length (p_sent s) + fail_calls [e])%nat -> counted n q s s'.

(** [node_failed], when the calls of other nodes return at once. *)
Lemma on_failed_counted n (b : bool) s st : p_sent st = p_sent s -> p_logic st = (if b then node_success n (p_logic s) else p_logic s) ->
  (exists r, node_failed 3 n (p_logic st) = Ret r) ->
  let '(o, s') := on_failed (fun _ => pret tt) n st in o = Ret tt /\ counted n b s s'.
Proof.
  intros Hs Hq [[q e] E]. unfold on_failed, pbind, pget, plift, pput. rewrite E. rewrite Hq in E.
  destruct e as [m|]; simpl; (split; [done|]); (eapply counted_failure; [exact E|]); simpl; rewrite fail_calls_one.
  - rewrite decide_False, Hs by done. lia.
  - by rewrite decide_True, length_app, Hs by done.
Qed.

(** The body of the callback: it returns after a step, or throws after no more than the
    count of a success. *)
Lemma on_reply_body_step init_clock n result s : (exists r, node_failed 3 n (p_logic s) = Ret r) ->
  let '(o, s') := on_reply_body init_clock (fun _ => pret tt) n result s in
  (o = Undef /\ queued result = true /\ p_clocks s = [] /\ operation_succeeded 3 (node_success n (p_logic s)) = true) \/
  (o = Ret tt /\ counted n (queued result) s s') \/
  (exists e, result = OpThrow e /\ o = Throw e /\ s' = s) \/
  (queued result = true /\ (exists w, o = Throw (comparison_error w)) /\ p_sent s' = p_sent s /\ p_logic s' = node_success n (p_logic s)).
Proof.
  intros Hd. unfold on_reply_body, pbind at 1, plift at 1. destruct result as [m|x]; simpl; [|right; right; left; by exists x].
  destruct (queued (OpMessage m)) eqn:Hq.
  - destruct m as [| | | | | | | | | |i st clocks|]; try done. destruct st; try done.
    unfold pbind, pget, pput, plift, VectorClock.vector_clock_of_net. destruct (_ <? _)%nat.
    { right; right; right. simpl. eauto 10. }
    set (v := VectorClock.fill_clocks _ _ _). simpl. destruct (operation_succeeded 3 (node_success n (p_logic s))) eqn:Ho.
    + unfold on_quorum, record_stamp_call, do_stamp_message, pbind, pget, pput, plift. simpl.
      destruct (p_clocks s ++ [v]) as [|c0 [|c1 l]] eqn:Ec; [by destruct (p_clocks s)| |].
      { left. by destruct (p_clocks s) as [|? [|]]. }
      destruct (VectorClock.max_cases c0 c1) as [[mx ->]|[w ->]]; simpl; [|right; right; right; eauto 10].
      right; left. split; [done|]. by apply counted_success.
    + right; left. split; [done|]. by apply counted_success.
  - pose proof (on_failed_counted n false s s eq_refl eq_refl Hd) as H.
    destruct m as [| | | | | | | | | |i [] clocks|]; try done; destruct (on_failed _ n s) as [o s']; right; left; exact H.
Qed.


(** A publish whose quorum is not up is answered with exactly one UNAVAILABLE
    response to the request and changes nothing else: nothing is enqueued, no clock
    moves; and a read that failed changes nothing at all. *)
Theorem publish_unavailable conf now init_clock shuffle s h why e :
  Murmur.murmur_hash3_string (queue_id (p_message s)) = Ret h ->
  Ring.find_quorum_for_operation conf shuffle (p_heap s) now (p_ring s) h = Throw (unavailable_error why) ->
  was_successful e = false ->
  let i := u32 (p_next_id s + 1) in
  handle_post_message conf now init_clock shuffle success s =
    (Ret tt, PS (p_heap s) (p_ring s) (p_message s) (p_logic s) (p_clocks s) i
      (p_sent s ++ [PublishResponseMessage (build_id i (id (pub_identity (p_message s)))) PR_UNAVAILABLE])
      (p_stamp_calls s)) /\
  handle_post_message conf now init_clock shuffle e s = (Ret tt, s).
Proof.
  intros Hh Hq He i. unfold handle_post_message. rewrite He. split; [|done].
  change (was_successful success) with true. cbn [negb]. unfold ptry, pbind, pget, plift. by rewrite Hh, Hq.
Qed.

(** C35. No publish is ever stamped by this node: the local operations answer without
    setting the status of the response, which then reads as NOTAUTH and not as
    QUEUED, so whatever the ring and the state of its nodes, handling a publish never
    calls [do_stamp_message]. *)
Theorem publish_never_stamped conf now init_clock shuffle r s :
  p_stamp_calls (handle_post_message conf now init_clock shuffle r s).2 = p_stamp_calls s.
Proof.
  by apply (handle_post_message_keeps conf now init_clock shuffle (stamp_calls_are (p_stamp_calls s))).
Qed.

(** ** A cluster in one process *)

(** The four nodes of [Ring.sample_heap], each with operations of its own. *)
Definition local_heap : heap := Node.init_local_operations <$> Ring.sample_heap.

Definition sample_publish : PublishMessage :=
  Publish_ (Ident 7 0) (replicate 16 9) [113; 117; 101; 117; 101] None 60 [1; 2; 3].

Definition sample_state (h : heap) (ps : list Node.ptr) : pstate :=
  PS h (Ring.ring_of ps) sample_publish (quorum_logic_new []) [] 0 [] [].

Definition zero_clock : vclock := VectorClock.vector_clock3.

(** The payloads waiting for a stamp at a node. *)
Definition waiting (h : heap) (p : Node.ptr) : list bytes :=
  match h !! p ≫= Node._operations_handler with
  | Some mgr => map_to_list (QueueManager._queues mgr) ≫= fun kq => (MessageQueue._data ∘ snd) <$> map_to_list (MessageQueue._unstamped_messages kq.2)
  | None => []
  end.

Definition run_publish (h : heap) (ps : list Node.ptr) : outcome unit * pstate :=
  handle_post_message Node.sample_settings 0 zero_clock (fun l => l) success (sample_state h ps).

Lemma local_ring_wf h r : Ring.ring_wf h r -> Ring.ring_wf (Node.init_local_operations <$> h) r.
Proof.
  intros W. apply (Ring.ring_wf_update h); [done|]. intros p n Hn.
  exists (Node.init_local_operations n). by rewrite lookup_fmap, Hn.
Qed.

Lemma local_publish_witness : exists s' r,
  send_proxy_publish 0 1 QueueManager.queue_manager_new (sample_state local_heap [1; 2; 3; 4]%nat) = (Ret r, s') /\
  content (p_message s') = [].
Proof.
  destruct (local_publish 0 1 QueueManager.queue_manager_new (Node.init_local_operations (Node.sample_node 1 10))
    (sample_state local_heap [1; 2; 3; 4]%nat)) as (h & n' & nodes & ns & s' & _ & _ & _ & E & _ & C & _ & _).
  - apply (bool_decide_unpack _). by vm_compute.
  - vm_compute. reflexivity.
  - reflexivity.
  - vm_compute. reflexivity.
  - apply local_ring_wf, Ring.ring_of_wf.
  - vm_compute. discriminate.
  - exists s'. eexists. split; [exact E|exact C].
Defined.

Lemma publish_stamps_merge_witness : exists s1 s2 m,
  on_reply zero_clock (fun _ => pret tt) (Some 1%nat)
    (OpMessage (ProxyPublishResponseMessage (Ident 0 7) PPR_QUEUED (VectorClock.to_net VectorClock.sample_low)))
    (sample_state local_heap [1; 2; 3]%nat) = (Ret tt, s1) /\
  on_reply zero_clock (fun _ => pret tt) (Some 2%nat)
    (OpMessage (ProxyPublishResponseMessage (Ident 0 7) PPR_QUEUED (VectorClock.to_net VectorClock.sample_high)))
    s1 = (Ret tt, s2) /\ p_stamp_calls s2 = [([Some 1%nat; Some 2%nat], m)].
Proof.
  destruct (publish_stamps_merge zero_clock (fun _ => pret tt) (Some 1%nat) (Some 2%nat) (Ident 0 7) (Ident 0 7)
    VectorClock.sample_low VectorClock.sample_high (sample_state local_heap [1; 2; 3]%nat))
    as (s1 & s2 & m & E1 & _ & E2 & E3 & _); try reflexivity.
  exists s1, s2, m. split; [exact E1|]. split; [exact E2|exact E3].
Defined.

(** Two nodes have been called; a reply of the first that it queued the message, with the
    clocks [net]. *)
Definition called_state : pstate :=
  set_logic (QL [Some 1%nat; Some 2%nat; Some 3%nat] [] [] 2) (sample_state local_heap [1; 2; 3]%nat).

Definition queued_reply (net : list NodeClock.NodeClock_pb) : operation_result message :=
  OpMessage (ProxyPublishResponseMessage (Ident 0 7) PPR_QUEUED net).

Definition too_many_clocks : list NodeClock.NodeClock_pb :=
  VectorClock.to_net VectorClock.sample_low ++ VectorClock.to_net VectorClock.sample_low.


(** A reply whose clocks cannot be read is counted as a success and leaves no clock: when
    the next reply completes the quorum, the second of two clocks is read where there is
    one. *)
Lemma missing_clock_undefined :
  let '(_, s1) := on_reply zero_clock (fun _ => pret tt) (Some 1%nat) (queued_reply too_many_clocks) called_state in
  (on_reply zero_clock (fun _ => pret tt) (Some 2%nat) (queued_reply (VectorClock.to_net VectorClock.sample_low)) s1).1 = Undef.
Proof. vm_compute. reflexivity. Qed.

Lemma publish_unavailable_witness :
  p_sent (run_publish local_heap []).2 = [PublishResponseMessage (Ident 1 7) PR_UNAVAILABLE].
Proof.
  unfold run_publish.
  rewrite (proj1 (publish_unavailable Node.sample_settings 0 zero_clock (fun l => l) (sample_state local_heap [])
    (Uint128.U128 2812437826839587300 14143920944116028426) "There are no nodes in the ring" (from_error_code "closed")
    ltac:(vm_compute; reflexivity) ltac:(vm_compute; reflexivity) ltac:(vm_compute; reflexivity))).
  vm_compute. reflexivity.
Defined.

(** On four nodes that all queue the message, the client is told twice that the
    publish is unavailable; and because the first enqueue moves the content out of
    the message they share, the other two nodes queue an empty payload. *)
Lemma queued_publish_reported_unavailable :
  let s := (run_publish local_heap [1; 2; 3; 4]%nat).2 in
  waiting (p_heap s) <$> [4; 1; 2]%nat = [[[1; 2; 3]]; [[]]; [[]]] /\
  p_sent s = [PublishResponseMessage (Ident 1 7) PR_UNAVAILABLE; PublishResponseMessage (Ident 2 7) PR_UNAVAILABLE].
Proof. vm_compute. done. Qed.

(** On a ring of one node, a publish dereferences the null pointer of an empty slot. *)
Lemma single_node_publish_undefined : (run_publish local_heap [1]%nat).1 = Undef.
Proof. vm_compute. reflexivity. Qed.

(** So does a publish that reaches a node other than this one: its operations are
    never created. *)
Lemma remote_publish_undefined : (run_publish Ring.sample_heap [2; 3; 4]%nat).1 = Undef.
Proof. vm_compute. reflexivity. Qed.

(** A message id that is not sixteen bytes long throws out of the handler. *)
Lemma bad_message_id_throws :
  (handle_post_message Node.sample_settings 0 zero_clock (fun l => l) success
     (set_message (Publish_ (Ident 7 0) [1] [113] None 60 [1]) (sample_state local_heap [1; 2; 3]%nat))).1 =
  Throw (runtime_error "uuid_from_bytes(): input was not the correct size").
Proof. vm_compute. reflexivity. Qed.

End Publish.
