(* ===== verification/EndToEnd.v ===== *)
(** * A publish from the client's call to its callback

    Composes [Login] (the client of [client/cpp/src] and the connection of a node) with
    [Publish] ([csauthenticated::handle_post_message]): the message the client sends is
    the one the node handles, and the responses the node sends are delivered to the
    client. *)

From Stdlib Require Import ZArith Lia Ascii String.
From stdpp Require Import base list gmap strings.
From S2P Require Import Prelude Uint128 Murmur Clocks MessageQueue QueueManager Endpoint Node Ring Quorum Messages Dispatcher Account Auth Client Login Publish.

Local Open Scope Z_scope.
Local Open Scope sopmq_scope.

Module EndToEnd.
Import Messages Account Login Publish.
Abbreviation bytes := MessageQueue.bytes.

(** ** The node only ever answers UNAVAILABLE *)

Definition refusal (request : Z) (m : message) : Prop :=
  exists i, m = PublishResponseMessage (Ident i request) PR_UNAVAILABLE.

(** The state of a handler of the given request that has only refused it. *)
Definition only_refused (request : Z) (s : pstate) : Prop :=
  id (pub_identity (p_message s)) = request /\ Forall (refusal request) (p_sent s).

Lemma handle_post_message_refuses conf now init_clock shuffle r request s : only_refused request s ->
  Forall (refusal request) (p_sent (handle_post_message conf now init_clock shuffle r s).2).
Proof.
  intros Hs. apply (handle_post_message_keeps conf now init_clock shuffle (only_refused request)); [done|done| |done].
  unfold send_unavailable. keeps_step. apply keeps_put. destruct H as [Hid Hf]. split; [done|].
  simpl. rewrite Forall_app, Forall_singleton. split; [done|]. eexists. unfold build_id. by rewrite Hid.
Qed.

Section EndToEnd.
Context (digest hex_encode : bytes -> bytes) (ring_key : bytes) (lookup_user : bytes -> find_user_result).
Abbreviation sha := (sha256_hex_string digest hex_encode).
Abbreviation client_step := (Session.step digest hex_encode).
Abbreviation to_server := (Login.to_server digest hex_encode ring_key lookup_user).
Abbreviation handshake := (Login.handshake digest hex_encode ring_key lookup_user).

(** ** The client *)

(** The writes that complete between the call and the first response. *)
Definition writes_complete (s : Session.session) : Session.session :=
  Nat.iter 3 (client_step (Session.WriteDone success)) s.

Definition deliver (ms : list message) (s : Session.session) : Session.session :=
  foldl (fun s m => client_step (Session.Deliver m) s) s ms.

Lemma deliver_cons m ms s : deliver (m :: ms) s = deliver ms (client_step (Session.Deliver m) s).
Proof. done. Qed.

(** A session with no read outstanding sees nothing more. *)
Lemma deliver_unread ms s : Session.reads s = [] -> deliver ms s = s.
Proof.
  intros H. induction ms as [|m ms IH]; [done|]. unfold deliver. simpl. unfold Session.pop_read. by rewrite H.
Qed.

Lemma published_session uid queueId store ttl data cb s : logged_in s -> Session._next_id s = 2 ->
  let s' := writes_complete (Session.authenticated_publish uid queueId store ttl data cb s) in
  Session.reads s' = [Session.Authd] /\ Session.publish_results s' = [] /\
  forall i st, let s2 := client_step (Session.Deliver (PublishResponseMessage (Ident i 3) st)) s' in
    Session.reads s2 = [] /\ Session.publish_results s2 = [(cb, Session.response_code st)].
Proof.
  intros (Hr & Hw & Hd & Hp) Hid. destruct s. simpl in *. subst.
  split_and!; [reflexivity..|]. intros i st. split; reflexivity.
Qed.

(** What the client's callback was called with, given the responses. *)
Lemma refusals_reported uid queueId store ttl data cb s ms : logged_in s -> Session._next_id s = 2 ->
  Forall (refusal 3) ms ->
  Session.publish_results (deliver ms (writes_complete (Session.authenticated_publish uid queueId store ttl data cb s))) =
    match ms with [] => [] | _ => [(cb, PMR_UNAVAILABLE)] end.
Proof.
  intros Hl Hid Hm. destruct (published_session uid queueId store ttl data cb s Hl Hid) as (_ & Hp & Hres).
  destruct Hm as [|m ms [i ->] _]; [done|]. destruct (Hres i PR_UNAVAILABLE) as [Hr Hp'].
  by rewrite deliver_cons, deliver_unread.
Qed.

(** ** The exchange *)

Context (conf : Settings.settings) (now : Z) (init_clock : VectorClock.vclock) (shuffle : list Node.ptr -> list Node.ptr).

(** The client publishes, the node handles the message it receives on heap [h] and
    ring [r], and its responses go back. *)
Definition publish_exchange (h : heap) (r : Ring.ring) (uid queueId : bytes) (store : bool) (ttl : Z) (data : bytes)
    (cb : nat) (p : Session.session * Auth.connection) : outcome (Session.session * pstate) :=
  s <~ Session.publish_message uid queueId store ttl data cb p.1;;
  let c := (to_server 2 [] (s, p.2)).2 in
  match Auth.published c with
  | [m] =>
    let '(res, ps) := handle_post_message conf now init_clock shuffle success
      (PS h r m (Quorum.quorum_logic_new []) [] (Auth._next_id c) [] []) in
    _ <~ res;;
    Ret (deliver (p_sent ps) (writes_complete s), ps)
  | _ => Undef
  end.

(** The message the node receives. *)
Definition request (uid queueId : bytes) (store : bool) (ttl : Z) (data : bytes) : PublishMessage :=
  Publish_ (Ident 3 0) uid queueId (Some (if store then 1 else 0)) (u32 ttl) data.

Lemma exchange_spec username password rnd a h r uid queueId store ttl data cb :
  lookup_user (sha username) = FUR true None a -> user_level a <> 0 -> pw_hash a = sha password ->
  exists s, logged_in s /\ Session._next_id s = 2 /\
  publish_exchange h r uid queueId store ttl data cb (handshake username password rnd) =
    let '(res, ps) := handle_post_message conf now init_clock shuffle success
      (PS h r (request uid queueId store ttl data) (Quorum.quorum_logic_new []) [] 2 [] []) in
    _ <~ res;;
    Ret (deliver (p_sent ps) (writes_complete (Session.authenticated_publish uid queueId store ttl data cb s)), ps).
Proof.
  intros Hl Hlev Hpw.
  pose proof (publish_end_to_end digest hex_encode ring_key lookup_user username password rnd a uid queueId store ttl data
    cb Hl Hlev Hpw) as H.
  destruct (handshake username password rnd) as [s c]. destruct H as (Hli & Hid & Hpub & Hcid & Hp).
  exists s. split_and!; [done..|]. unfold publish_exchange. cbn [fst snd]. rewrite Hpub. cbn [obind]. by rewrite Hp, Hcid.
Qed.

(** ** Properties *)

(** What a client learns of a publish: after a login with the right password,
    whatever ring, nodes and quorum logic do, if the node handles the publish to its
    end then the client's callback is called at most once, and only to say that the
    publish is unavailable, also when nodes queued the message; and when no quorum of
    the queue's nodes is up the exchange ends and the callback is called. *)
Theorem publish_reported username password rnd a h r uid queueId store ttl data cb :
  lookup_user (sha username) = FUR true None a -> user_level a <> 0 -> pw_hash a = sha password ->
  let exchange := publish_exchange h r uid queueId store ttl data cb (handshake username password rnd) in
  (forall s ps, exchange = Ret (s, ps) ->
     Session.publish_results s = match p_sent ps with [] => [] | _ => [(cb, PMR_UNAVAILABLE)] end) /\
  (forall key why, Murmur.murmur_hash3_string queueId = Ret key ->
     Ring.find_quorum_for_operation conf shuffle h now r key = Throw (unavailable_error why) ->
     exists s ps, exchange = Ret (s, ps) /\ Session.publish_results s = [(cb, PMR_UNAVAILABLE)] /\
       p_heap ps = h).
Proof.
  intros Hl Hlev Hpw exchange.
  destruct (exchange_spec username password rnd a h r uid queueId store ttl data cb Hl Hlev Hpw) as (s0 & Hli & Hid & E).
  fold exchange in E. split.
  - intros s ps Hret. rewrite E in Hret.
    pose proof (handle_post_message_refuses conf now init_clock shuffle success 3
      (PS h r (request uid queueId store ttl data) (Quorum.quorum_logic_new []) [] 2 [] [])) as Hf.
    destruct (handle_post_message _ _ _ _ _ _) as [[[]| |] ps0]; simplify_eq/=. apply refusals_reported; [done..|].
    apply Hf. by split.
  - intros key why Hk Hq.
    pose proof (publish_unavailable conf now init_clock shuffle
      (PS h r (request uid queueId store ttl data) (Quorum.quorum_logic_new []) [] 2 [] []) key why
      (from_error_code "closed") Hk Hq eq_refl) as [Hu _].
    rewrite Hu in E. eexists _, _. split; [exact E|]. split; [|done].
    rewrite refusals_reported; [done..|]. repeat constructor. by eexists.
Qed.

End EndToEnd.

Definition sample_exchange (h : heap) (ps : list Node.ptr) : outcome (Session.session * pstate) :=
  publish_exchange toy_digest toy_hex [1] Auth.sample_store Node.sample_settings 0 zero_clock (fun l => l) h (Ring.ring_of ps)
    (replicate 16 9) [113; 117; 101; 117; 101] true 60 [1; 2; 3] 4%nat
    (Login.handshake toy_digest toy_hex [1] Auth.sample_store [65] [66] [5]).

Lemma publish_reported_witness : exists s ps,
  sample_exchange local_heap [] = Ret (s, ps) /\ Session.publish_results s = [(4%nat, PMR_UNAVAILABLE)].
Proof.
  destruct (publish_reported toy_digest toy_hex [1] Auth.sample_store Node.sample_settings 0 zero_clock (fun l => l)
    [65] [66] [5] (UA [7; 65] [65] [7; 66] 1) local_heap (Ring.ring_of [])
    (replicate 16 9) [113; 117; 101; 117; 101] true 60 [1; 2; 3] 4%nat eq_refl ltac:(simpl; lia) eq_refl) as [_ H].
  destruct (H (Uint128.U128 2812437826839587300 14143920944116028426) "There are no nodes in the ring"%string)
    as (s & ps & E & Hs & _); [vm_compute; reflexivity|vm_compute; reflexivity|].
  exists s, ps. split; [exact E|exact Hs].
Defined.

(** Three nodes queue the message, and the client is told that it is unavailable. *)
Lemma queued_publish_client_told :
  match sample_exchange local_heap [1; 2; 3; 4]%nat with
  | Ret (s, ps) =>
    length <$> (waiting (p_heap ps) <$> [4; 1; 2]%nat) = [1; 1; 1]%nat /\
    Session.publish_results s = [(4%nat, PMR_UNAVAILABLE)]
  | _ => False
  end.
Proof. vm_compute. done. Qed.

End EndToEnd.
