(* ===== verification/Server.v ===== *)
(** * The node server

    Models [node/src/server.h] and [.cpp] and [connection_in::start] of
    [node/src/connection_in.cpp]. The conversation on an accepted connection is
    the subject of [Auth] and [Publish]; here a connection is its identity.

    The io_service calls a handler for each completed operation; what the network
    did is the event. *)

From Stdlib Require Import ZArith Lia Ascii String.
From stdpp Require Import base list gmap strings.
From S2P Require Import Prelude Uint128 Murmur Clocks MessageQueue QueueManager Endpoint Node Ring Quorum Messages Publish.

Local Open Scope Z_scope.
Local Open Scope sopmq_scope.

(** ** The server *)

Module Server.
Abbreviation ptr := nat.

(** [accepting] is the connection of the pending [async_accept]; connections are
    numbered as they are made. [self] is the node in the ring. *)
Record server := Srv {
  _port : Z;
  _connections : gset ptr;
  _stopping : bool;
  _ring : Ring.ring;
  accepting : option ptr;
  next_conn : ptr
}.

(** The constructor, with the new node at [self] of the heap. Binding the acceptor
    throws when the address is in use. *)
Definition server_new (conf : Settings.settings) (now : Z) (clock0 : NodeClock.node_clock)
    (bind_error : option string) (self : ptr) (h : Node.heap) : outcome (server * Node.heap) :=
  match bind_error with
  | Some e => Throw (runtime_error e)
  | None =>
    let n := Node.init_local_operations (Node.get_self conf now clock0) in
    let h := <[self := n]> h in
    r <~ Ring.add_node h self Ring.ring_new;;
    Ret (Srv (Settings.port conf) ∅ false r None 0, h)
  end.

Definition accept_new (s : server) : server :=
  Srv (_port s) (_connections s) (_stopping s) (_ring s) (Some (next_conn s)) (S (next_conn s)).

Definition start (s : server) : server := accept_new s.

(** Closing the acceptor aborts the pending accept, whose handler still runs. *)
Definition stop (s : server) : server :=
  Srv (_port s) (_connections s) true (_ring s) (accepting s) (next_conn s).

Definition connection_started (c : ptr) (s : server) : server :=
  Srv (_port s) ({[c]} ∪ _connections s) (_stopping s) (_ring s) (accepting s) (next_conn s).

Definition connection_terminated (c : ptr) (s : server) : server :=
  Srv (_port s) (_connections s ∖ {[c]}) (_stopping s) (_ring s) (accepting s) (next_conn s).

(** [connection_in::start]: reading the endpoint of the peer throws a system error
    when the peer is already gone. *)
Definition connection_start (c : ptr) (peer_error : option string) (s : server) : outcome server :=
  match peer_error with
  | Some e => Throw (runtime_error e)
  | None => Ret (connection_started c s)
  end.

(** [try { conn->start(this) } catch (network_error)]; the pending accept is over
    when its handler runs. *)
Definition handle_accept (c : ptr) (error peer_error : option string) (s : server) : outcome server :=
  let s := Srv (_port s) (_connections s) (_stopping s) (_ring s) None (next_conn s) in
  if _stopping s then Ret s else
  match error with
  | Some _ => Ret (accept_new s)
  | None =>
    match connection_start c peer_error s with
    | Ret s' => Ret (accept_new s')
    | Throw (network_error _) => Ret (accept_new s)
    | Throw e => Throw e
    | Undef => Undef
    end
  end.

(** ** Runs of the server *)

Inductive event := Accepted (peer_error : option string) | AcceptFailed (error : string) | Stop.

#[global] Instance event_eq_dec : EqDecision event.
Proof. solve_decision. Defined.

(** An exception leaves [io_service::run] and [main]. *)
Definition step (s : server) (e : event) : outcome server :=
  match e, accepting s with
  | Stop, _ => Ret (stop s)
  | Accepted peer, Some c => handle_accept c None peer s
  | AcceptFailed err, Some c => handle_accept c (Some err) None s
  | _, None => Ret s
  end.

Fixpoint run (es : list event) (s : server) : outcome server :=
  match es with
  | [] => Ret s
  | e :: es => s' <~ step s e;; run es s'
  end.

(** The events before the server is told to stop. *)
Fixpoint live (es : list event) : list event :=
  match es with
  | [] => []
  | Stop :: _ => []
  | e :: es => e :: live es
  end.

(** How many connections the events of a live server open. *)
Definition opened (es : list event) : nat := length (filter (fun e => e = Accepted None) (live es)).

(** ** Lemmas *)

(** Connections are numbered below [next_conn], so a new one is new to the set. *)
Record server_inv (s : server) : Prop := {
  si_fresh : forall c, c ∈ _connections s -> (c < next_conn s)%nat;
  si_accept : forall c, accepting s = Some c -> (c < next_conn s)%nat /\ c ∉ _connections s
}.

Lemma accept_new_inv s : server_inv s -> server_inv (accept_new s).
Proof.
  intros [Hf Ha]. constructor; simpl.
  - intros c Hc. apply Hf in Hc. lia.
  - intros c [= <-]. split; [lia|]. intros Hc%Hf. lia.
Qed.

Lemma connection_started_inv c s : server_inv s -> accepting s = Some c ->
  server_inv (Srv (_port s) ({[c]} ∪ _connections s) (_stopping s) (_ring s) None (next_conn s)).
Proof.
  intros [Hf Ha] Hc. apply Ha in Hc as [Hc _]. constructor; simpl; [|done].
  intros d [->%elem_of_singleton|Hd]%elem_of_union; [done|auto].
Qed.

Lemma handled_inv s : server_inv s -> server_inv (Srv (_port s) (_connections s) (_stopping s) (_ring s) None (next_conn s)).
Proof. intros [Hf _]. by constructor. Qed.

Lemma stopped_step e s : _stopping s = true ->
  exists s', step s e = Ret s' /\ _stopping s' = true /\ _connections s' = _connections s /\ _ring s' = _ring s.
Proof.
  intros Hs. destruct e as [peer|err|]; simpl; [destruct (accepting s)..|];
    unfold handle_accept; simpl; rewrite ?Hs; by eexists.
Qed.

Lemma stopped_run es s : _stopping s = true ->
  exists s', run es s = Ret s' /\ _connections s' = _connections s /\ _ring s' = _ring s.
Proof.
  revert s. induction es as [|e es IH]; intros s Hs; [by exists s|].
  destruct (stopped_step e s Hs) as (s1 & E & H1 & H2 & H3). simpl. rewrite E. cbn [obind].
  destruct (IH s1 H1) as (s' & -> & H4 & H5). exists s'. split_and!; congruence.
Qed.

(** One event of a live server whose peers stay connected. *)
Lemma live_step e s c : server_inv s -> _stopping s = false -> accepting s = Some c ->
  e <> Stop -> (forall err, e <> Accepted (Some err)) ->
  exists s', step s e = Ret s' /\ server_inv s' /\ _stopping s' = false /\ is_Some (accepting s') /\
    _ring s' = _ring s /\
    size (_connections s') = (size (_connections s) + if decide (e = Accepted None) then 1 else 0)%nat.
Proof.
  intros I Hs Ha Hne Hp. destruct s as [port cs st r a nc]. simpl in Hs, Ha. subst st a.
  destruct e as [[err|]|err|]; [by destruct (Hp err)| | |done]; eexists; (split; [done|]); split_and!;
    try done; try by eexists.
  - exact (accept_new_inv _ (connection_started_inv c _ I eq_refl)).
  - rewrite decide_True by done. cbn [_connections accept_new connection_started].
    rewrite size_union, size_singleton by (pose proof (si_accept _ I c eq_refl); set_solver). lia.
  - exact (accept_new_inv _ (handled_inv _ I)).
Qed.

Lemma live_run es s c : server_inv s -> _stopping s = false -> accepting s = Some c ->
  (forall err, Accepted (Some err) ∉ live es) ->
  exists s', run es s = Ret s' /\ _ring s' = _ring s /\
    size (_connections s') = (size (_connections s) + opened es)%nat /\
    (Stop ∉ es -> _stopping s' = false /\ is_Some (accepting s')).
Proof.
  revert s c. unfold opened. induction es as [|e es IH]; intros s c I Hs Ha Hp.
  { exists s. split_and!; [done..|simpl; lia|by rewrite Ha]. }
  destruct (decide (e = Stop)) as [->|Hne].
  - destruct (stopped_run es (stop s) eq_refl) as (s' & E & H1 & H2). exists s'. simpl. rewrite E, H1.
    split_and!; [done..|simpl; lia|set_solver].
  - assert (live (e :: es) = e :: live es) as El by (by destruct e). rewrite El in *.
    destruct (live_step e s c I Hs Ha Hne) as (s1 & E & I1 & Hs1 & [c1 Ha1] & Hr & Hz).
    { intros err ->. apply (Hp err). by left. }
    destruct (IH s1 c1 I1 Hs1 Ha1) as (s' & E' & Hr' & Hz' & Hl); [set_solver|].
    exists s'. simpl. rewrite E. cbn [obind]. split_and!; [done|congruence| |set_solver].
    rewrite Hz', Hz, filter_cons. case_decide; simpl; lia.
Qed.

(** A ring of one node: it is every replica of every key. *)
Lemma lone_ring p k r key : Ring._ring_by_range r = [(k, p)] -> Ring.find_nodes_for_key r key = Ret [p; p; p].
Proof.
  intros E. unfold Ring.find_nodes_for_key, Ring.find_secondary_node, Ring.find_primary_node,
    Ring.find_tertiary_node, Ring.at_iter. rewrite E. simpl.
  by destruct (Uint128.ltb key k).
Qed.

Lemma permutation_replicate {A} n (x : A) l : l ≡ₚ replicate n x -> l = replicate n x.
Proof.
  intros H. symmetry. apply replicate_as_elem_of. split; [by rewrite H, length_replicate|].
  intros y. rewrite H. by intros [-> _]%elem_of_replicate.
Qed.

Lemma server_new_spec conf now clock0 self h : exists s n,
  let h' := <[self := n]> h in
  server_new conf now clock0 None self h = Ret (s, h') /\ Ring.ring_wf h' (_ring s) /\
  Node.is_self conf n = true /\ is_Some (Node._operations_handler n) /\
  Ring._ring_by_range (_ring s) = [(Node.range_start n, self)].
Proof.
  set (n := Node.init_local_operations (Node.get_self conf now clock0)).
  set (h' := <[self := n]> h).
  assert (h' !! self = Some n) as Hn by apply lookup_insert_eq.
  pose proof (Ring.add_node_spec h' Ring.ring_new self n (Ring.ring_new_wf h') Hn) as S.
  change (Ring._nodes_by_id Ring.ring_new) with (∅ : gmap Z ptr) in S.
  rewrite lookup_empty in S. destruct S as [(q & m & Hq%not_elem_of_nil & _)|(_ & r' & E & W & _)]; [done|].
  exists (Srv (Settings.port conf) ∅ false r' None 0), n. unfold server_new. fold n h'. rewrite E.
  split_and!; try done.
  - apply Z.eqb_refl.
  - unfold Ring.add_node, Ring.deref in E. rewrite Hn in E. simpl in E. by injection E as <-.
Qed.

(** The quorum on the ring of one node has one node and two empty slots. *)
Lemma lone_quorum conf shuffle h now r p k n key : (forall l, shuffle l ≡ₚ l) ->
  Ring._ring_by_range r = [(k, p)] -> h !! p = Some n -> Node.is_self conf n = true ->
  Ring.find_quorum_for_operation conf shuffle h now r key = Ret [Some p; None; None].
Proof.
  intros Hsh Hr Hp Hs. unfold Ring.find_quorum_for_operation. rewrite (lone_ring p k) by done. cbn [obind].
  rewrite (permutation_replicate 3 p (shuffle [p; p; p])) by apply Hsh. simpl.
  unfold Ring.deref. rewrite Hp. simpl. unfold Node.is_alive. rewrite Hs. simpl.
  unfold Ring.compress. by rewrite !decide_True.
Qed.

(** The only node queues the message and is counted as failed; the call for the
    next slot meets a null pointer. *)
Lemma lone_call conf now init_clock p k n mgr s :
  let m := Publish.p_message s in
  Murmur.bytes_ok (Messages.queue_id m) -> Z.of_nat (length (Messages.queue_id m)) < 2 ^ 31 ->
  length (Messages.message_id m) = 16%nat -> Ring.ring_wf (Publish.p_heap s) (Publish.p_ring s) ->
  Ring._ring_by_range (Publish.p_ring s) = [(k, p)] -> Publish.p_heap s !! p = Some n ->
  Node._operations_handler n = Some mgr -> Publish.p_logic s = Quorum.QL [Some p; None; None] [] [] 1 ->
  (Publish.call_function conf now init_clock 4 (Some p) s).1 = Undef.
Proof.
  intros m Hb Hl Hid W Hr Hp Ho Hq. subst m.
  destruct (Publish.send_proxy_publish_spec now p mgr n s) as (key & n' & nodes & ns & s' & _ & _ & _ & E & _ & _ & El & _);
    try done; [by rewrite Hr|].
  unfold Publish.call_function; fold Publish.call_function. unfold Publish.pbind at 1 2 3, Publish.pget, Publish.plift at 1 2.
  unfold Ring.deref. rewrite Hp. unfold Node.operations. rewrite Ho. unfold Publish.pbind at 1. rewrite E.
  unfold Publish.on_reply, Publish.ptry, Publish.on_reply_body, Publish.on_failed, Publish.pbind, Publish.plift,
    Publish.pget, Publish.pput. cbn -[Publish.call_function Quorum.node_failed]. rewrite El, Hq. reflexivity.
Qed.

(** ** Properties *)

(** A new server is alone in a well-formed ring, with its operations in place: its
    node is the primary and all the replicas of every key; the constructor fails
    only when the address cannot be bound. *)
Theorem server_joins conf now clock0 self h : exists s h' n,
  server_new conf now clock0 None self h = Ret (s, h') /\ Ring.ring_wf h' (_ring s) /\
  h' !! self = Some n /\ Node.is_self conf n = true /\ is_Some (Node._operations_handler n) /\
  (forall key, Ring.find_nodes_for_key (_ring s) key = Ret [self; self; self]) /\
  forall e, server_new conf now clock0 (Some e) self h = Throw (runtime_error e).
Proof.
  destruct (server_new_spec conf now clock0 self h) as (s & n & E & W & Hs & Ho & Hr).
  exists s, (<[self := n]> h), n. split_and!; try done; [apply lookup_insert_eq|].
  intros key. by apply (lone_ring self (Node.range_start n)).
Qed.

(** C34. A started server whose peers stay connected while they are accepted
    survives every sequence of events: failed accepts are retried, one accept stays
    pending until the server is told to stop, the connections it holds are exactly
    as many as were accepted before that, and its ring does not change. *)
Theorem server_accepts conf now clock0 self h s0 h0 es :
  server_new conf now clock0 None self h = Ret (s0, h0) -> (forall err, Accepted (Some err) ∉ live es) ->
  exists s, run es (start s0) = Ret s /\ _ring s = _ring s0 /\ size (_connections s) = opened es /\
    (Stop ∉ es -> _stopping s = false /\ is_Some (accepting s)).
Proof.
  intros Hn Hp. unfold server_new in Hn. apply obind_ret_inv in Hn as (r & _ & [= <- <-]).
  destruct (live_run es (start (Srv (Settings.port conf) ∅ false r None 0)) 0) as (s & E & Hr & Hz & Hl); try done.
  { apply accept_new_inv. constructor; [set_solver|done]. }
  by exists s.
Qed.


(** A peer that is gone before its endpoint is read takes the server down: the
    system error is not a [network_error], so it leaves the handler and the event
    loop. *)
Lemma vanished_peer_stops_server s c err : accepting s = Some c -> _stopping s = false ->
  step s (Accepted (Some err)) = Throw (runtime_error err).
Proof. intros Ha Hs. simpl. rewrite Ha. unfold handle_accept. simpl. by rewrite Hs. Qed.

(** ** Witnesses *)

Definition sample_server : server * Node.heap :=
  match server_new Node.sample_settings 0 (NodeClock.NC 1 1 0) None 1%nat ∅ with
  | Ret p => p
  | _ => (Srv 0 ∅ false Ring.ring_new None 0, ∅)
  end.

Lemma server_accepts_witness : exists s,
  run [Accepted None; AcceptFailed "refused"; Accepted None; Stop; Accepted None] (start sample_server.1) = Ret s /\
  size (_connections s) = 2%nat.
Proof.
  destruct (server_accepts Node.sample_settings 0 (NodeClock.NC 1 1 0) 1%nat ∅ sample_server.1 sample_server.2
    [Accepted None; AcceptFailed "refused"; Accepted None; Stop; Accepted None]) as (s & E & _ & Hz & _).
  - vm_compute. reflexivity.
  - simpl. intros err H. rewrite !elem_of_cons in H. by destruct H as [H|[H|[H|H%not_elem_of_nil]]].
  - exists s. split; [exact E|]. rewrite Hz. vm_compute. reflexivity.
Defined.


End Server.
