(* ===== verification/System.v ===== *)
(** * A node process

    Composes [Server] ([node/src/server]), [Auth] (its connections) and [Publish]
    ([csauthenticated::handle_post_message]): one process with one event loop, any number
    of connections, one ring and one set of queues. Each event is one completion that the
    io_service runs: an accept, or an event of one connection. A publish that a connection
    dispatches is handled in the same step, on the queues all connections share. An
    exception or undefined behaviour ends the process; the state it left is kept. *)

From Stdlib Require Import ZArith Lia Ascii String.
From stdpp Require Import base list gmap strings.
From S2P Require Import Prelude Uint128 Murmur Clocks MessageQueue QueueManager Endpoint Node Ring Quorum Messages Dispatcher Account Auth Client Login Publish EndToEnd Server.

Local Open Scope Z_scope.
Local Open Scope sopmq_scope.

Module System.
Import Messages Account Publish.
Abbreviation bytes := MessageQueue.bytes.

(** ** State and events *)

Record system := Sys {
  sys_server : Server.server;
  sys_conns : gmap Server.ptr Auth.connection;
  sys_heap : heap;
  sys_stamp_calls : list (list Quorum.slot * vclock)
}.

(** What a handler takes from outside: the time, the memory a clock is read into, the
    random order of the replicas. *)
Record env := Env { e_now : Z; e_init : vclock; e_shuffle : list Node.ptr -> list Node.ptr }.

Inductive event := Net (e : Server.event) | OnConn (c : Server.ptr) (x : env) (e : Auth.event).

(** The responses of a handled publish, sent on its connection. *)
Definition respond (ps : pstate) (k : Auth.connection) : Auth.connection :=
  let k := foldl (fun k m => Auth.send_message Auth.Auth_ m k) k (p_sent ps) in
  Auth.Conn (p_next_id ps) (Auth.is_open k) (Auth.sent k) (Auth.reads k) (Auth.writes k) (Auth.u_dispatcher k)
    (Auth._authType k) (Auth._challenge k) (Auth._closeAfterTransmission k) (Auth.a_dispatcher k) (Auth.posted k)
    (Auth.published k).

Section System.
Context (digest hex_encode : bytes -> bytes) (unit_test_username ring_key : bytes).
Context (lookup_user : bytes -> find_user_result) (conf : Settings.settings).
Abbreviation conn_step := (Auth.step digest hex_encode unit_test_username ring_key lookup_user).
Abbreviation answers := (Auth.answers digest hex_encode unit_test_username ring_key lookup_user).

(** The connection [c] has become [k']: a publish it dispatched on the way is handled on
    the queues of the process, and answered on the connection. *)
Definition settle (c : Server.ptr) (x : env) (k k' : Auth.connection) (s : system) : outcome unit * system :=
  match drop (length (Auth.published k)) (Auth.published k') with
  | [] => (Ret tt, Sys (sys_server s) (<[c := k']> (sys_conns s)) (sys_heap s) (sys_stamp_calls s))
  | m :: _ =>
    let '(r, ps) := handle_post_message conf (e_now x) (e_init x) (e_shuffle x) success
      (PS (sys_heap s) (Server._ring (sys_server s)) m (Quorum.quorum_logic_new []) [] (Auth._next_id k') []
         (sys_stamp_calls s)) in
    (r, Sys (sys_server s) (<[c := respond ps k']> (sys_conns s)) (p_heap ps) (p_stamp_calls ps))
  end.

Definition on_connection (c : Server.ptr) (x : env) (e : Auth.event) (s : system) : outcome unit * system :=
  match sys_conns s !! c with
  | None => (Ret tt, s)
  | Some k => settle c x k (conn_step e k) s
  end.

(** An accepted connection starts unauthenticated. *)
Definition on_network (e : Server.event) (s : system) : outcome unit * system :=
  match Server.step (sys_server s) e with
  | Ret srv =>
    let conns := match Server.accepting (sys_server s) with
      | Some c => if decide (c ∈ Server._connections srv) then <[c := Auth.connection_start]> (sys_conns s) else sys_conns s
      | None => sys_conns s
      end in
    (Ret tt, Sys srv conns (sys_heap s) (sys_stamp_calls s))
  | Throw err => (Throw err, s)
  | Undef => (Undef, s)
  end.

Definition step (e : event) (s : system) : outcome unit * system :=
  match e with Net e => on_network e s | OnConn c x e => on_connection c x e s end.

(** The event loop, until a handler does not return. *)
Definition run (es : list event) (s : system) : outcome unit * system :=
  foldl (fun p e => match p.1 with Ret _ => step e p.2 | _ => p end) (Ret tt, s) es.

(** ** Where queued messages come from *)

Definition in_queue (q : MessageQueue.message_queue) (m : MessageQueue.queued_message) : Prop :=
  (exists i, MessageQueue._unstamped_messages q !! i = Some m) \/
  (exists e, e ∈ MessageQueue._queued_messages q /\ MessageQueue.e_msg e = m).

(** The queue with key [k] of some node of the heap holds [m], stamped or not. *)
Definition holds (h : heap) (k : Uint128.uint128) (m : MessageQueue.queued_message) : Prop :=
  exists p n mgr q, h !! p = Some n /\ Node._operations_handler n = Some mgr /\
    QueueManager._queues mgr !! k = Some q /\ in_queue q m.

(** The message that [p] becomes in the queue of its name; after the first node queued
    it its content is gone. *)
Definition from_publish (p : PublishMessage) (k : Uint128.uint128) (m : MessageQueue.queued_message) : Prop :=
  MessageQueue._id m = message_id p /\ (MessageQueue._data m = content p \/ MessageQueue._data m = []) /\
  Murmur.murmur_hash3_string (queue_id p) = Ret k.

(** The message a handler works on is [p], perhaps without its content. *)
Definition same_publish (p m : PublishMessage) : Prop :=
  message_id m = message_id p /\ queue_id m = queue_id p /\ (content m = content p \/ content m = []).

(** Every message held satisfies [Q]. *)
Definition manager_from (Q : Uint128.uint128 -> MessageQueue.queued_message -> Prop) (mgr : QueueManager.queue_manager) : Prop :=
  forall k q m, QueueManager._queues mgr !! k = Some q -> in_queue q m -> Q k m.

Definition heap_from (Q : Uint128.uint128 -> MessageQueue.queued_message -> Prop) (h : heap) : Prop :=
  forall k m, holds h k m -> Q k m.

Lemma enqueue_from Q now h id data ttl mgr : manager_from Q mgr ->
  (forall m, MessageQueue._id m = id -> MessageQueue._data m = data -> Q h m) ->
  manager_from Q (QueueManager.enqueue_message 3 now h id data ttl mgr).
Proof.
  intros Hm Hn k q m. rewrite enqueue_queue. rewrite lookup_insert_Some. intros [[<- <-]|[_ Hk]]; [|by eapply Hm].
  set (q0 := default _ _).
  assert (forall m, in_queue q0 m -> Q h m) as H0.
  { intros m0. unfold q0. destruct (QueueManager._queues mgr !! h) as [q|] eqn:E; simpl; [by eapply Hm|].
    intros [[i Hi]|(e & He & _)]; [exact (False_ind _ (lookup_empty_Some (M := gmap _) i m0 Hi))|by apply not_elem_of_nil in He]. }
  intros [[i Hi]|(e & He & <-)]; [|apply H0; right; by exists e].
  simpl in Hi. unfold MessageQueue.um_insert in Hi. destruct (MessageQueue._unstamped_messages q0 !! id) eqn:Eu.
  - apply H0. left. by exists i.
  - apply lookup_insert_Some in Hi as [[_ <-]|[_ Hi]]; [by apply Hn|]. apply H0. left. by exists i.
Qed.

(** Handling the publish [p] only adds what [p] becomes. *)
Lemma publish_from x p s : same_publish p (p_message s) ->
  let s' := (handle_post_message conf (e_now x) (e_init x) (e_shuffle x) success s).2 in
  forall k m, holds (p_heap s') k m -> holds (p_heap s) k m \/ from_publish p k m.
Proof.
  intros Hs. set (Q k m := holds (p_heap s) k m \/ from_publish p k m).
  set (I st := heap_from Q (p_heap st) /\ same_publish p (p_message st)).
  apply (handle_post_message_managed conf (e_now x) (e_init x) (e_shuffle x) I (manager_from Q)); [done| | | |].
  - intros st q n mgr [Hh _] Hq Hn k qu m Hk Hm. apply Hh. by exists q, n, mgr, qu.
  - intros q mgr Hm. unfold send_proxy_publish. keeps_step. destruct H as [Hh (Hid & Hqid & Hc)].
    eapply (keeps_bind _ _ _ (fun h => Murmur.murmur_hash3_string (queue_id p) = Ret h)).
    { apply keeps_lift. intros h. by rewrite Hqid. }
    intros h Eh. eapply (keeps_bind _ _ _ (fun u => u = message_id p)).
    { apply keeps_lift. unfold uuid_from_bytes. intros u Hu. case_match; simplify_eq. done. }
    intros u ->. keeps_step. keeps_step.
    + split; [|by split_and!; auto]. intros k m (p' & n & mgr' & qu & Hp & Hn & Hk & Hin). simpl in Hp.
      apply lookup_insert_Some in Hp as [[<- <-]|[_ Hp]]; [|apply Hh; by exists p', n, mgr', qu].
      simpl in Hn. injection Hn as <-. eapply enqueue_from; [exact Hm| |exact Hk|exact Hin].
      intros m' Em Ed. right. split_and!; [done| |done]. rewrite Ed. done.
    + do 2 keeps_step. apply keeps_ret. by eexists _, _.
  - unfold send_unavailable. keeps_step. apply keeps_put. done.
  - split; [by left|done].
Qed.

(** ** One connection *)

Lemma published_answer m k :
  Auth.published (Auth.handle_answer_challenge_message digest hex_encode unit_test_username ring_key lookup_user m k) =
  Auth.published k.
Proof.
  destruct m as [[]|]; try done. unfold Auth.handle_answer_challenge_message.
  destruct (_ && _); [done|]. destruct (Auth.is_client _); [done|]. by case_decide.
Qed.

(** A step of a connection publishes at most the message it was given, and only when it
    is authenticated already. *)
Lemma published_step E e k : Auth.guarded E k ->
  Auth.published (conn_step e k) = Auth.published k \/
  exists p rnd, e = Auth.Deliver (PublishMsg p) rnd /\ Auth.a_dispatcher k <> None /\
    Auth.published (conn_step e k) = Auth.published k ++ [p].
Proof.
  intros G. destruct e as [m rnd|r|r|]; simpl.
  - unfold Auth.pop_read. destruct (Auth.reads k) as [|o rs]; [by left|]. set (k1 := match o with Auth.Unauth => _ | _ => _ end).
    assert (Auth.published k1 = Auth.published k) as Ep by (by destruct o).
    destruct (Auth.dispatcher_of o k1) as [d|] eqn:Ed; [|by left]. rewrite Dispatcher.dispatch_spec.
    destruct (Dispatcher._handlers d (type_of m) !! in_reply_to (identity m)) as [[h|]|] eqn:Eh; cbn [Dispatcher.call]; [|by left|].
    + destruct o; simpl in Ed.
      * injection Ed as <-. apply (Auth.g_unauth _ _ G) in Eh as [[-> _]|[-> _]]; left.
        -- by destruct m.
        -- exact (eq_trans (published_answer _ _) Ep).
      * rewrite (Auth.g_auth _ _ G d (type_of m) (in_reply_to (identity m)) h) by done.
        destruct m as [| | | |p| | | | | | |]; try by left. right. exists p, rnd. 
        change (Auth.a_dispatcher k = Some d) in Ed. split_and!; [done|congruence|].
        simpl. by rewrite <- Ep.
    + left. by destruct (Dispatcher._unhandledHandler d).
  - left. unfold Auth.pop_read. destruct (Auth.reads k) as [|o rs]; [done|]. set (k1 := match o with Auth.Unauth => _ | _ => _ end).
    assert (Auth.published k1 = Auth.published k) as Ep
      by (destruct o; unfold k1, Auth.u_handle_read_result, Auth.a_handle_read_result; by case_match).
    destruct (Auth.dispatcher_of o k1) as [d|] eqn:Ed; [|done]. by rewrite Auth.foldl_cancel.
  - left. unfold Auth.pop_write. destruct (Auth.writes k) as [|[] ws]; [done| |];
      unfold Auth.u_handle_write_result, Auth.a_handle_write_result; by repeat case_match.
  - left. unfold Auth.pop_task. by destruct (Auth.posted k) as [|[] ts].
Qed.

(** A connection itself never sends the response to a publish. *)
Definition not_response (m : message) : Prop := forall i st, m <> PublishResponseMessage i st.

Definition sends (k k' : Auth.connection) : Prop :=
  exists l, Auth.sent k' = Auth.sent k ++ l /\ Forall not_response l.

Lemma sends_same k k' : Auth.sent k' = Auth.sent k -> sends k k'.
Proof. intros E. exists []. by rewrite app_nil_r. Qed.

Lemma sends_one k k' m : not_response m -> Auth.sent k' = Auth.sent k ++ [m] -> sends k k'.
Proof. intros Hm E. exists [m]. split; [done|]. by constructor. Qed.

Ltac sends_one := eapply sends_one; [|reflexivity]; by intros ? ?.

Lemma invoke_sends rnd i k :
  sends k (Auth.invoke digest hex_encode unit_test_username ring_key lookup_user rnd i k).
Proof.
  destruct i as [[[] r [m|]|h m]| |]; try by apply sends_same.
  - destruct m; try by apply sends_same. sends_one.
  - destruct m; try by apply sends_same. cbn [Auth.invoke]. unfold Auth.handle_answer_challenge_message.
    destruct (_ && _); [sends_one|]. destruct (Auth.is_client _); [by apply sends_same|].
    case_decide; sends_one.
  - destruct m; try by apply sends_same. simpl. case_match; by apply sends_same.
Qed.

Lemma step_sends e k : sends k (conn_step e k).
Proof.
  destruct e as [m rnd|r|r|]; simpl.
  - unfold Auth.pop_read. destruct (Auth.reads k) as [|o rs]; [by apply sends_same|].
    set (k1 := match o with Auth.Unauth => _ | _ => _ end).
    assert (Auth.sent k1 = Auth.sent k) as Es by (by destruct o).
    destruct (Auth.dispatcher_of o k1) as [d|]; [|by apply sends_same].
    destruct (invoke_sends rnd (Dispatcher.dispatch success m d).1 k1) as (l & El & Hl). exists l. by rewrite El, Es.
  - unfold Auth.pop_read. destruct (Auth.reads k) as [|o rs]; [by apply sends_same|].
    set (k1 := match o with Auth.Unauth => _ | _ => _ end).
    assert (Auth.sent k1 = Auth.sent k) as Es
      by (destruct o; unfold k1, Auth.u_handle_read_result, Auth.a_handle_read_result; by case_match).
    destruct (Auth.dispatcher_of o k1) as [d|]; [|by apply sends_same]. rewrite Auth.foldl_cancel. by apply sends_same.
  - apply sends_same. unfold Auth.pop_write. destruct (Auth.writes k) as [|[] ws]; [done| |];
      unfold Auth.u_handle_write_result, Auth.a_handle_write_result; by repeat case_match.
  - unfold Auth.pop_task. destruct (Auth.posted k) as [|[m|m] ts]; [by apply sends_same|sends_one..].
Qed.

Lemma respond_sent ps k : Auth.sent (respond ps k) = Auth.sent k ++ p_sent ps.
Proof.
  unfold respond. simpl. revert k. induction (p_sent ps) as [|m l IH]; intros k; [by rewrite app_nil_r|].
  simpl. rewrite IH. simpl. by rewrite <- app_assoc.
Qed.

Lemma respond_rest ps k :
  let k' := respond ps k in
  Auth.u_dispatcher k' = Auth.u_dispatcher k /\ Auth.a_dispatcher k' = Auth.a_dispatcher k /\
  Auth._challenge k' = Auth._challenge k /\ Auth.posted k' = Auth.posted k /\ Auth.published k' = Auth.published k /\
  Auth.reads k' = Auth.reads k.
Proof.
  unfold respond. simpl. revert k. induction (p_sent ps) as [|m l IH]; intros k; [done|].
  exact (IH (Auth.send_message Auth.Auth_ m k)).
Qed.

(** Responses that refuse a request change nothing that authentication guards. *)
Lemma respond_io ps k :
  let k' := respond ps k in
  Auth.is_open k' = Auth.is_open k /\ Auth._closeAfterTransmission k' = Auth._closeAfterTransmission k /\
  length (Auth.writes k') = (length (Auth.writes k) + length (p_sent ps))%nat.
Proof.
  unfold respond. simpl. revert k. induction (p_sent ps) as [|m l IH]; intros k; simpl; [by rewrite Nat.add_0_r|].
  destruct (IH (Auth.send_message Auth.Auth_ m k)) as (-> & -> & ->). simpl. rewrite length_app. simpl. split_and!; [done..|lia].
Qed.

Lemma respond_guarded E request ps k : Forall (EndToEnd.refusal request) (p_sent ps) -> Auth.guarded E k ->
  Auth.guarded E (respond ps k).
Proof.
  intros Hr G. destruct (respond_rest ps k) as (Hu & Ha & Hc & Hp & Hb & _).
  apply (Auth.guarded_step E k); rewrite ?Hu, ?Ha, ?Hc, ?Hp, ?Hb, ?respond_sent; auto; try apply G.
  - intros t i h H. apply (Auth.g_unauth _ _ G) in H as [?|(? & ? & j & Hj)]; [auto|].
    right. split_and!; [done|done|]. exists j. set_solver.
  - intros i [?|Hi]%elem_of_app; [auto|]. rewrite Forall_forall in Hr. by apply Hr in Hi as [? ?].
Qed.

(** ** The process *)

Context (s0 : system).
Abbreviation after es := (run es s0).2.

(** A message of [c] was an accepted answer to the challenge that was current when it came. *)
Definition answered_on (c : Server.ptr) (es : list event) : Prop :=
  exists es1 x e es2 k, es = es1 ++ OnConn c x e :: es2 /\ sys_conns (after es1) !! c = Some k /\ answers k e.

(** The publish [p] arrived on [c], which had answered its challenge before. *)
Definition published_on (c : Server.ptr) (p : PublishMessage) (es : list event) : Prop :=
  exists es1 x rnd es2, es = es1 ++ OnConn c x (Auth.Deliver (PublishMsg p) rnd) :: es2 /\ answered_on c es1.

Lemma answered_on_snoc c es e : answered_on c es -> answered_on c (es ++ [e]).
Proof.
  intros (es1 & x & e1 & es2 & k & -> & H). exists es1, x, e1, (es2 ++ [e]), k. by rewrite <- app_assoc.
Qed.

Lemma published_on_snoc c p es e : published_on c p es -> published_on c p (es ++ [e]).
Proof.
  intros (es1 & x & rnd & es2 & -> & H). exists es1, x, rnd, (es2 ++ [e]). by rewrite <- app_assoc.
Qed.

Record accounted (es : list event) (s : system) : Prop := {
  ac_guarded : forall c k, sys_conns s !! c = Some k -> Auth.guarded (answered_on c es) k;
  ac_queued : forall k m, holds (sys_heap s) k m ->
    holds (sys_heap s0) k m \/ exists c p, published_on c p es /\ from_publish p k m;
  ac_responses : forall c k i st, sys_conns s !! c = Some k -> PublishResponseMessage i st ∈ Auth.sent k ->
    exists p, published_on c p es /\ in_reply_to i = id (pub_identity p)
}.

Lemma accounted_snoc es e s : accounted es s -> accounted (es ++ [e]) s.
Proof.
  intros [H1 H2 H3]. split.
  - intros c k Hk. eapply Auth.guarded_mono; [by apply H1|]. apply answered_on_snoc.
  - intros k m Hm. destruct (H2 k m Hm) as [?|(c & p & Hp & ?)]; [auto|]. right. exists c, p. split; [by apply published_on_snoc|done].
  - intros c k i st Hk Hi. destruct (H3 c k i st Hk Hi) as (p & Hp & ?). exists p. split; [by apply published_on_snoc|done].
Qed.

(** An event of a connection that publishes nothing. *)
Lemma accounted_quiet es s c k x e : accounted es s -> after es = s -> sys_conns s !! c = Some k ->
  accounted (es ++ [OnConn c x e]) (Sys (sys_server s) (<[c := conn_step e k]> (sys_conns s)) (sys_heap s) (sys_stamp_calls s)).
Proof.
  intros Hac Es Hk. pose proof (accounted_snoc es (OnConn c x e) s Hac) as [H1 H2 H3]. split; [|done|].
  - intros c' k'. simpl. rewrite lookup_insert_Some. intros [[<- <-]|[_ Hk']]; [|by apply H1].
    eapply Auth.guarded_mono; [by eapply Auth.guarded_event, H1|]. intros [?|Ha]; [done|].
    exists es, x, e, [], k. by rewrite Es.
  - intros c' k' i st. simpl. rewrite lookup_insert_Some. intros [[<- <-]|[_ Hk']]; [|by apply H3].
    destruct (step_sends e k) as (l & -> & Hl). intros [Hi|Hi]%elem_of_app; [by apply (H3 c k i st)|].
    rewrite Forall_forall in Hl. by destruct (Hl _ Hi i st).
Qed.

(** An event of a connection that publishes a message. *)
Lemma accounted_publish es s c k x p rnd :
  let e := Auth.Deliver (PublishMsg p) rnd in
  accounted es s -> after es = s -> sys_conns s !! c = Some k -> Auth.a_dispatcher k <> None ->
  let ps := (handle_post_message conf (e_now x) (e_init x) (e_shuffle x) success
    (PS (sys_heap s) (Server._ring (sys_server s)) p (Quorum.quorum_logic_new []) [] (Auth._next_id (conn_step e k)) []
       (sys_stamp_calls s))).2 in
  accounted (es ++ [OnConn c x e])
    (Sys (sys_server s) (<[c := respond ps (conn_step e k)]> (sys_conns s)) (p_heap ps) (p_stamp_calls ps)).
Proof.
  intros e Hac Es Hk Ha ps. pose proof (accounted_quiet es s c k x e Hac Es Hk) as [H1 H2 H3]. simpl in *.
  assert (published_on c p (es ++ [OnConn c x e])) as Hpub.
  { exists es, x, rnd, []. split; [done|]. exact (Auth.g_entered _ _ (ac_guarded _ _ Hac _ _ Hk) Ha). }
  assert (Forall (EndToEnd.refusal (id (pub_identity p))) (p_sent ps)) as Href.
  { apply EndToEnd.handle_post_message_refuses. by split. }
  split; simpl.
  - intros c' k'. rewrite lookup_insert_Some. intros [[<- <-]|[Hne Hk']].
    + eapply respond_guarded; [exact Href|]. apply H1. by rewrite lookup_insert_eq.
    + apply H1. by rewrite lookup_insert_ne.
  - intros q m Hm. apply (publish_from x p) in Hm; [|split_and!; auto]. destruct Hm as [Hm|Hm]; [by apply H2|].
    right. by exists c, p.
  - intros c' k' i st. rewrite lookup_insert_Some. intros [[<- <-]|[Hne Hk']].
    + rewrite respond_sent. intros [Hi|Hi]%elem_of_app.
      * apply (H3 c (conn_step e k) i st); [by rewrite lookup_insert_eq|done].
      * rewrite Forall_forall in Href. apply Href in Hi as [j [= -> _]]. by exists p.
    + apply H3. by rewrite lookup_insert_ne.
Qed.

Lemma accounted_step es e s : accounted es s -> after es = s -> accounted (es ++ [e]) (step e s).2.
Proof.
  intros Hac Es. destruct e as [e|c x e]; simpl.
  - unfold on_network. destruct (Server.step (sys_server s) e) as [srv| |]; [|by apply accounted_snoc..]. simpl.
    pose proof (accounted_snoc es (Net e) s Hac) as [H1 H2 H3].
    destruct (Server.accepting (sys_server s)) as [c|]; [|by split]. case_decide; [|by split]. split; simpl; [|done|].
    + intros c' k'. rewrite lookup_insert_Some. intros [[<- <-]|[_ Hk']]; [|by apply H1]. apply Auth.guarded_start.
    + intros c' k' i st. rewrite lookup_insert_Some. intros [[<- <-]|[_ Hk']]; [|by apply H3].
      intros Hi. by apply not_elem_of_nil in Hi.
  - unfold on_connection, settle. destruct (sys_conns s !! c) as [k|] eqn:Hk; [|by apply accounted_snoc].
    destruct (published_step _ e k (ac_guarded _ _ Hac _ _ Hk)) as [E|(p & rnd & -> & Ha & E)]; rewrite E.
    + rewrite drop_all. by apply accounted_quiet.
    + rewrite drop_app_length. pose proof (accounted_publish es s c k x p rnd Hac Es Hk Ha) as H. simpl in H |- *.
      by destruct (handle_post_message _ _ _ _ _ _) as [r ps].
Qed.

Lemma system_run_snoc es e : run (es ++ [e]) s0 = match (run es s0).1 with Ret _ => step e (after es) | _ => run es s0 end.
Proof. unfold run. by rewrite foldl_snoc. Qed.

Lemma accounted_run es : sys_conns s0 = ∅ -> accounted es (after es).
Proof.
  intros H0. induction es as [|e es IH] using rev_ind.
  - split; simpl; rewrite ?H0; [by intros c k ?%lookup_empty_Some|auto|by intros c k i st ?%lookup_empty_Some].
  - rewrite system_run_snoc. destruct (run es s0).1; [by apply accounted_step|by apply accounted_snoc..].
Qed.

(** ** Properties *)

(** C4. Where the messages in the queues come from: in a process that started with no
    connections, after any sequence of accepts, messages, errors and completions on any
    number of connections, in any interleaving, and also in the state an exception or
    undefined behaviour leaves behind, every message held by a queue was there at the
    start or is a publish that arrived on some connection after that same connection had
    sent an answer to its current challenge that the code accepts ([Auth.accepted_answer],
    which includes the answer that needs no account); it is under the key of the name in
    the publish, with its id, and with its content or none. And a response to a publish is
    sent only on a connection that made such a publish, in reply to it. *)
Theorem system_provenance es :
  sys_conns s0 = ∅ ->
  let s := after es in
  (forall k m, holds (sys_heap s) k m ->
     holds (sys_heap s0) k m \/ exists c p, published_on c p es /\ from_publish p k m) /\
  (forall c k i st, sys_conns s !! c = Some k -> PublishResponseMessage i st ∈ Auth.sent k ->
     exists p, published_on c p es /\ in_reply_to i = id (pub_identity p)).
Proof. intros H0 s. destruct (accounted_run es H0) as [_ H2 H3]. by split. Qed.

End System.

(** ** A run *)

(** A process whose ring has four local nodes, waiting for connections. *)
Definition sample_system : system :=
  Sys (Server.start (Server.Srv 8481 ∅ false (Ring.ring_of [1; 2; 3; 4]%nat) None 0)) ∅ local_heap [].

Definition sample_env : env := Env 0 zero_clock (fun l => l).

(** A connection is accepted, another one fails, the first logs in and publishes, and a
    second one publishes without a login. *)
Definition sample_events : list event :=
  [Net (Server.Accepted None); Net (Server.AcceptFailed "refused"); Net (Server.Accepted None)] ++
  (OnConn 0%nat sample_env <$> Auth.sample_login) ++
  [OnConn 2%nat sample_env (Auth.Deliver (PublishMsg sample_publish) []);
   OnConn 0%nat sample_env (Auth.Deliver (PublishMsg sample_publish) [])].

Abbreviation sample_run := (run toy_digest toy_hex [] [1] Auth.sample_store Node.sample_settings sample_events sample_system).

Lemma sample_run_returns : sample_run.1 = Ret tt /\ Auth.is_open <$> sys_conns sample_run.2 !! 2%nat = Some false /\
  waiting (sys_heap sample_run.2) 1%nat = [[]].
Proof. vm_compute. done. Qed.

(** A refused publish starts two writes on the socket at once: no write was outstanding
    before it, and the second response is sent before the first is written. *)
Lemma overlapping_writes :
  let login := [Net (Server.Accepted None)] ++ (OnConn 0%nat sample_env <$> Auth.sample_login ++ [Auth.WriteDone success; Auth.WriteDone success]) in
  let publish := OnConn 0%nat sample_env (Auth.Deliver (PublishMsg sample_publish) []) in
  let run es := run toy_digest toy_hex [] [1] Auth.sample_store Node.sample_settings es sample_system in
  Auth.writes <$> sys_conns (run login).2 !! 0%nat = Some [] /\
  Auth.writes <$> sys_conns (run (login ++ [publish])).2 !! 0%nat = Some [Auth.Auth_; Auth.Auth_].
Proof. vm_compute. done. Qed.

Lemma system_provenance_witness : exists p,
  published_on toy_digest toy_hex [] [1] Auth.sample_store Node.sample_settings sample_system 0%nat p sample_events.
Proof.
  destruct (sys_conns sample_run.2 !! 0%nat) as [k|] eqn:Ek; [|vm_compute in Ek; discriminate].
  assert (PublishResponseMessage (Ident 3 7) PR_UNAVAILABLE ∈ Auth.sent k) as Hin.
  { assert (Auth.sent <$> sys_conns sample_run.2 !! 0%nat =
      Some [ChallengeResponseMessage (Ident 1 1) [5]; AuthAckMessage (Ident 2 2) true;
            PublishResponseMessage (Ident 3 7) PR_UNAVAILABLE; PublishResponseMessage (Ident 4 7) PR_UNAVAILABLE]) as E
      by (vm_compute; reflexivity).
    rewrite Ek in E. injection E as ->. do 2 right. left. }
  destruct (proj2 (system_provenance toy_digest toy_hex [] [1] Auth.sample_store Node.sample_settings sample_system
    sample_events eq_refl) 0%nat k _ _ Ek Hin) as (p & Hp & _).
  exists p. exact Hp.
Defined.

End System.
