(* ===== verification/Process.v ===== *)
(** * A node process over bytes

    [System] with [Transport] under its connections: what reaches the process is accepts
    and, on any number of sockets, bytes in any segments, interleaved in any way. Each
    socket has the bytes that arrived and were not read yet; bytes can arrive before the
    connection is accepted. The events of [System] are what that does to the process. *)

From Stdlib Require Import ZArith Lia Ascii String.
From stdpp Require Import base list gmap strings.
From S2P Require Import Prelude Uint128 Murmur Clocks MessageQueue QueueManager Endpoint Node Ring Quorum Messages Dispatcher Wire Account Auth Transport Client Login Publish EndToEnd Server System.

Local Open Scope Z_scope.
Local Open Scope sopmq_scope.

Module Process.
Import Messages Account Publish System.
Abbreviation bytes := MessageQueue.bytes.

(** ** State and inputs *)

Record process := Proc { p_sys : system; p_unread : gmap Server.ptr bytes }.

Inductive input := OnNet (e : Server.event) | OnBytes (c : Server.ptr) (x : env) (i : Transport.input).

Definition unread (c : Server.ptr) (p : process) : bytes := default [] (p_unread p !! c).

Section Process.
Context (parse : message_type -> bytes -> option message) (maxSize : Z).
Context (digest hex_encode : bytes -> bytes) (unit_test_username ring_key : bytes).
Context (lookup_user : bytes -> find_user_result) (conf : Settings.settings).
Abbreviation conn_step := (Auth.step digest hex_encode unit_test_username ring_key lookup_user).
Abbreviation conn_run := (Auth.run digest hex_encode unit_test_username ring_key lookup_user).
Abbreviation tstep := (Transport.tstep parse maxSize digest hex_encode unit_test_username ring_key lookup_user).
Abbreviation complete_read := (Transport.complete_read parse maxSize digest hex_encode unit_test_username ring_key lookup_user).
Abbreviation frame_of := (Transport.frame_of parse maxSize).
Abbreviation sys_step := (System.step digest hex_encode unit_test_username ring_key lookup_user conf).
Abbreviation sys_run := (System.run digest hex_encode unit_test_username ring_key lookup_user conf).
Abbreviation settle := (System.settle conf).

Definition on_bytes (c : Server.ptr) (x : env) (i : Transport.input) (p : process) : outcome unit * process :=
  match i, sys_conns (p_sys p) !! c with
  | Transport.Arrive b, _ => (Ret tt, Proc (p_sys p) (<[c := unread c p ++ b]> (p_unread p)))
  | _, None => (Ret tt, p)
  | _, Some k =>
    match tstep i (unread c p, k) with
    | Ret (s, k') =>
      let '(r, sys) := settle c x k k' (p_sys p) in
      (r, Proc sys (<[c := s]> (p_unread p)))
    | Throw e => (Throw e, p)
    | Undef => (Undef, p)
    end
  end.

Definition pstep (i : input) (p : process) : outcome unit * process :=
  match i with
  | OnNet e => let '(r, sys) := on_network e (p_sys p) in (r, Proc sys (p_unread p))
  | OnBytes c x i => on_bytes c x i p
  end.

(** The event loop, until a handler does not return. *)
Definition prun (ins : list input) (p : process) : outcome unit * process :=
  foldl (fun q i => match q.1 with Ret _ => pstep i q.2 | _ => q end) (Ret tt, p) ins.

(** ** What arrived, and what it amounts to *)

Definition arrived_on (c : Server.ptr) (ins : list input) : bytes :=
  ins ≫= fun i => match i with OnBytes d _ (Transport.Arrive b) => if decide (d = c) then b else [] | _ => [] end.

Definition events_on (c : Server.ptr) (es : list event) : list Auth.event :=
  omap (fun e => match e with OnConn d _ e => if decide (d = c) then Some e else None | _ => None end) es.

Lemma arrived_on_snoc c ins i : arrived_on c (ins ++ [i]) = arrived_on c ins ++ arrived_on c [i].
Proof. unfold arrived_on. by rewrite bind_app. Qed.

Lemma deliveries_on_snoc c es e :
  Transport.deliveries (events_on c (es ++ [e])) = Transport.deliveries (events_on c es) ++ Transport.deliveries (events_on c [e]).
Proof. unfold Transport.deliveries, events_on. by rewrite !omap_app. Qed.

(** ** Lemmas on the parts *)

Lemma server_step_inv s e s' : Server.server_inv s -> Server.step s e = Ret s' ->
  Server.server_inv s' /\ Server._connections s ⊆ Server._connections s'.
Proof.
  intros I. destruct s as [port cs st r a nc].
  destruct e as [peer|err|]; simpl; [destruct a as [c|]..|]; try (intros [= <-]; by split).
  - unfold Server.handle_accept. simpl. pose proof (Server.connection_started_inv c _ I eq_refl) as Ic.
    pose proof (Server.handled_inv _ I) as Ih. simpl in *.
    destruct st; [intros [= <-]; by split|]. destruct peer as [err|]; simpl; [done|]. intros [= <-].
    split; [|simpl; set_solver]. exact (Server.accept_new_inv _ Ic).
  - unfold Server.handle_accept. simpl. pose proof (Server.handled_inv _ I) as Ih. simpl in *.
    destruct st; intros [= <-]; [by split|]. split; [|simpl; set_solver]. exact (Server.accept_new_inv _ Ih).
  - intros [= <-]. split; [|done]. destruct I. by constructor.
Qed.

(** Settling a connection touches only that connection and the queues, and keeps its
    reads. *)
Lemma settle_conns c x k k' s : let s' := (settle c x k k' s).2 in
  sys_server s' = sys_server s /\
  exists k2, sys_conns s' = <[c := k2]> (sys_conns s) /\ Transport.budget k2 = Transport.budget k'.
Proof.
  unfold System.settle. destruct (drop _ _); [simpl; eauto|]. destruct (handle_post_message _ _ _ _ _ _) as [r ps]. simpl.
  split; [done|]. eexists. split; [done|]. destruct (respond_rest ps k') as (_ & _ & _ & Hp & _ & Hr). by apply Transport.budget_same.
Qed.

Lemma settle_same c x k s : sys_conns s !! c = Some k -> settle c x k k s = (Ret tt, s).
Proof.
  intros Hk. unfold System.settle. rewrite drop_all, insert_id by done. by destruct s.
Qed.

(** ** The refinement *)

Context (s0 : system).

(** The bytes of the socket [c] are the frames of the messages delivered on it and then
    bytes that wait for a read, unless there will be none. *)
Definition bytes_accounted (ins : list input) (q : outcome unit * process) (es : list event) (c : Server.ptr) : Prop :=
  exists frames pend, arrived_on c ins = concat frames ++ pend /\
    Forall2 frame_of frames (Transport.deliveries (events_on c es)) /\
    (q.1 = Ret tt ->
     match sys_conns (p_sys q.2) !! c with
     | None => pend = unread c q.2
     | Some k => (Transport.budget k <= 1)%nat /\ (pend = unread c q.2 \/ Transport.budget k = 0%nat)
     end).

Record matches (ins : list input) (q : outcome unit * process) (es : list event) : Prop := {
  ma_run : sys_run es s0 = (q.1, p_sys q.2);
  ma_bytes : forall c, bytes_accounted ins q es c;
  ma_server : Server.server_inv (sys_server (p_sys q.2));
  ma_conns : forall c, is_Some (sys_conns (p_sys q.2) !! c) -> c ∈ Server._connections (sys_server (p_sys q.2))
}.

Lemma sys_run_event es e u s : sys_run es s0 = (Ret u, s) -> sys_run (es ++ [e]) s0 = sys_step e s.
Proof. intros H. unfold System.run in *. rewrite foldl_snoc, H. done. Qed.

(** Nothing happened, or nothing that can be told from the outside. *)
Lemma matches_idle ins i q es : matches ins q es -> (forall c, arrived_on c [i] = []) -> matches (ins ++ [i]) q es.
Proof.
  intros [H1 H2 H3 H4] Hi. split; try done. intros c. destruct (H2 c) as (fr & pend & E & H).
  exists fr, pend. by rewrite arrived_on_snoc, Hi, app_nil_r.
Qed.

(** The process has stopped; more may arrive. *)
Lemma matches_stopped ins i q es : matches ins q es -> q.1 <> Ret tt -> matches (ins ++ [i]) q es.
Proof.
  intros [H1 H2 H3 H4] Hq. split; try done. intros c. destruct (H2 c) as (fr & pend & E & Hf & _).
  exists fr, (pend ++ arrived_on c [i]). rewrite arrived_on_snoc, E, app_assoc. by split_and!.
Qed.

(** Writing back what was there. *)
Lemma matches_same ins o p es c : matches ins (o, p) es ->
  matches ins (o, Proc (p_sys p) (<[c := unread c p]> (p_unread p))) es.
Proof.
  intros [H1 H2 H3 H4]. split; try done. intros d. destruct (H2 d) as (fr & pend & E & Hf & Hp). exists fr, pend.
  split_and!; [done|done|]. simpl in *. replace (unread d _) with (unread d p); [done|]. unfold unread at 1 2. simpl.
  destruct (decide (c = d)) as [<-|]; [by rewrite lookup_insert_eq|by rewrite lookup_insert_ne].
Qed.

Lemma matches_arrive ins p es c x b : matches ins (Ret tt, p) es ->
  matches (ins ++ [OnBytes c x (Transport.Arrive b)]) (on_bytes c x (Transport.Arrive b) p) es.
Proof.
  intros [H1 H2 H3 H4]. split; try done. intros d. destruct (H2 d) as (fr & pend & E & Hf & Hp).
  specialize (Hp eq_refl). simpl in Hp. unfold bytes_accounted. rewrite arrived_on_snoc.
  unfold arrived_on at 2. unfold unread in *. simpl.
  destruct (decide (c = d)) as [<-|Hne].
  - exists fr, (pend ++ b). rewrite E, !app_nil_r, app_assoc. split_and!; [done|done|]. intros _. simpl. unfold unread. simpl.
    rewrite lookup_insert_eq. simpl. destruct (sys_conns _ !! c); [|by rewrite Hp]. destruct Hp as [? [->|?]]; auto.
  - exists fr, pend. rewrite app_nil_r. split_and!; [done|done|]. intros _. simpl. unfold unread. simpl.
    by rewrite lookup_insert_ne.
Qed.

(** An event of the connection [c], which leaves the bytes [s] unread. *)
Lemma matches_event ins p es c x i k e s : matches ins (Ret tt, p) es -> sys_conns (p_sys p) !! c = Some k ->
  (forall d, arrived_on d [i] = []) ->
  (forall pend, (Transport.budget k <= 1)%nat -> pend = unread c p \/ Transport.budget k = 0%nat ->
     exists frames pend', pend = concat frames ++ pend' /\ Forall2 frame_of frames (Transport.deliveries [e]) /\
       (Transport.budget (conn_step e k) <= 1)%nat /\ (pend' = s \/ Transport.budget (conn_step e k) = 0%nat)) ->
  matches (ins ++ [i]) (let '(r, sys) := settle c x k (conn_step e k) (p_sys p) in (r, Proc sys (<[c := s]> (p_unread p))))
    (es ++ [OnConn c x e]).
Proof.
  intros [H1 H2 H3 H4] Hk Hi Hnew. destruct (settle_conns c x k (conn_step e k) (p_sys p)) as (Es & k2 & Ec & Eb).
  assert (sys_run (es ++ [OnConn c x e]) s0 = settle c x k (conn_step e k) (p_sys p)) as Er.
  { rewrite (sys_run_event es _ tt (p_sys p)) by done. simpl. unfold on_connection. by rewrite Hk. }
  destruct (settle _ _ _ _ _) as [r sys]. cbn [fst snd] in *. split; cbn [fst snd p_sys]; [done| |by rewrite Es|].
  - intros d. destruct (H2 d) as (fr & pend & E & Hf & Hp). specialize (Hp eq_refl). unfold bytes_accounted. cbn [fst snd p_sys] in *.
    rewrite arrived_on_snoc, Hi, app_nil_r, Ec, deliveries_on_snoc. unfold unread. cbn [p_unread].
    destruct (decide (c = d)) as [<-|Hne].
    + rewrite Hk in Hp. destruct (Hnew pend ltac:(tauto) ltac:(tauto)) as (fr' & pend' & -> & Hf' & Hb & Hp').
      exists (fr ++ fr'), pend'. unfold events_on at 2. simpl. rewrite decide_True by done. rewrite !lookup_insert_eq, Eb, concat_app, <- app_assoc. split_and!; [done|by apply Forall2_app|done].
    + exists fr, pend. assert (events_on d [OnConn c x e] = []) as -> by (unfold events_on; simpl; by rewrite decide_False).
      rewrite !lookup_insert_ne, app_nil_r by done. by split_and!.
  - intros d [k' Hd]. rewrite Es. apply H4. rewrite Ec in Hd. destruct (decide (c = d)) as [<-|]; [by eexists|].
    rewrite lookup_insert_ne in Hd by done. by eexists.
Qed.

Lemma matches_network ins p es e : matches ins (Ret tt, p) es ->
  matches (ins ++ [OnNet e]) (pstep (OnNet e) p) (es ++ [Net e]).
Proof.
  intros [H1 H2 H3 H4]. simpl in *. pose proof (sys_run_event es (Net e) tt (p_sys p) H1) as Er. simpl in Er.
  assert (forall c q, (q.1 = Ret tt -> p_unread q.2 = p_unread p /\ (sys_conns (p_sys q.2) !! c = sys_conns (p_sys p) !! c \/
      sys_conns (p_sys p) !! c = None /\ sys_conns (p_sys q.2) !! c = Some Auth.connection_start)) ->
    bytes_accounted (ins ++ [OnNet e]) q (es ++ [Net e]) c) as Hb.
  { intros c q Hq. destruct (H2 c) as (fr & pend & E & Hf & Hp). specialize (Hp eq_refl). simpl in Hp.
    exists fr, pend. rewrite arrived_on_snoc, deliveries_on_snoc. simpl. rewrite !app_nil_r. split_and!; [done|done|].
    intros (Eu & Hc)%Hq. unfold unread in *. rewrite Eu. destruct Hc as [->|[Hn ->]]; [done|].
    rewrite Hn in Hp. auto. }
  unfold on_network in *. destruct (Server.step (sys_server (p_sys p)) e) as [srv|err|] eqn:Es.
  2,3: split; simpl; try done; intros c; by apply Hb.
  destruct (server_step_inv _ _ _ H3 Es) as [I Hsub]. split; simpl; [done| |done|].
  - intros c. apply Hb. intros _. split; [done|]. simpl. destruct (Server.accepting _) as [d|] eqn:Ea; [|by left].
    case_decide; [|by left]. destruct (decide (d = c)) as [<-|]; [|left; by rewrite lookup_insert_ne].
    right. rewrite lookup_insert_eq. split; [|done]. apply eq_None_not_Some. intros Hs%H4.
    by apply (Server.si_accept _ H3) in Ea as [_ ?].
  - intros c Hc. destruct (Server.accepting _) as [d|] eqn:Ea; [|set_solver].
    case_decide; [|set_solver]. destruct (decide (d = c)) as [<-|]; [done|]. rewrite lookup_insert_ne in Hc by done. set_solver.
Qed.

Lemma matches_read E ins p es c x i k rnd : matches ins (Ret tt, p) es -> sys_conns (p_sys p) !! c = Some k ->
  Auth.guarded E k -> (forall d, arrived_on d [i] = []) ->
  exists es', matches (ins ++ [i])
    match complete_read rnd (unread c p) k with
    | Ret (s, k') => let '(r, sys) := settle c x k k' (p_sys p) in (r, Proc sys (<[c := s]> (p_unread p)))
    | Throw e => (Throw e, p)
    | Undef => (Undef, p)
    end es'.
Proof.
  intros M Hk G Hi. destruct (ma_bytes _ _ _ M c) as (fr0 & pend0 & _ & _ & Hb). specialize (Hb eq_refl). simpl in Hb.
  rewrite Hk in Hb. destruct Hb as [Hb _].
  destruct (Transport.complete_read_accounts parse maxSize digest hex_encode unit_test_username ring_key lookup_user
    E rnd (unread c p) k (unread c p) G Hb (or_introl eq_refl)) as (s & es1 & fr & pend & -> & [[-> ->]|[Hpos [e ->]]] & Hb' & Ep & Hf & Hp).
  - exists es. simpl. rewrite settle_same by done. apply matches_idle; [|done]. by apply matches_same.
  - exists (es ++ [OnConn c x e]). apply matches_event; [done|done|done|]. intros pend' _ [->|?]; [|lia].
    by exists fr, pend.
Qed.

(** An event that takes no bytes. *)
Lemma matches_quiet E ins p es c x i k e : matches ins (Ret tt, p) es -> sys_conns (p_sys p) !! c = Some k ->
  Auth.guarded E k -> (forall d, arrived_on d [i] = []) -> Transport.deliveries [e] = [] ->
  matches (ins ++ [i])
    (let '(r, sys) := settle c x k (conn_step e k) (p_sys p) in (r, Proc sys (<[c := unread c p]> (p_unread p))))
    (es ++ [OnConn c x e]).
Proof.
  intros M Hk G Hi He. apply matches_event; [done|done|done|]. intros pend Hb Hp.
  pose proof (Transport.step_budget digest hex_encode unit_test_username ring_key lookup_user E e k G). exists [], pend. rewrite He.
  split_and!; [done|constructor|lia|]. destruct Hp; [by left|right; lia].
Qed.

Lemma matches_bytes ins p es c x i : sys_conns s0 = ∅ -> matches ins (Ret tt, p) es ->
  exists es', matches (ins ++ [OnBytes c x i]) (on_bytes c x i p) es'.
Proof.
  intros H0 M. pose proof (accounted_run digest hex_encode unit_test_username ring_key lookup_user conf s0 es H0) as A.
  rewrite (ma_run _ _ _ M) in A. simpl in A.
  destruct (sys_conns (p_sys p) !! c) as [k|] eqn:Hk.
  2: { exists es. destruct i; [by apply matches_arrive|..]; simpl; rewrite Hk; by apply matches_idle. }
  pose proof (ac_guarded _ _ _ _ _ _ _ _ _ A c k Hk) as G.
  destruct i as [b|rnd|rnd|r|]; [exists es; by apply matches_arrive|..]; unfold on_bytes; rewrite Hk;
    cbn [Transport.tstep].
  - destruct (Transport.blocked _ _); [|by eapply matches_read]. exists es. rewrite settle_same by done.
    apply matches_idle; [|done]. by apply matches_same.
  - by eapply matches_read.
  - exists (es ++ [OnConn c x (Auth.WriteDone r)]). by eapply matches_quiet.
  - exists (es ++ [OnConn c x Auth.RunTask]). by eapply matches_quiet.
Qed.

Lemma matches_run ins : sys_conns s0 = ∅ -> Server.server_inv (sys_server s0) ->
  exists es, matches ins (prun ins (Proc s0 ∅)) es.
Proof.
  intros H0 Hs. induction ins as [|i ins [es M]] using rev_ind.
  { exists []. split; simpl; try done; [|intros c; rewrite H0; by intros [? ?%lookup_empty_Some]].
    intros c. exists [], []. split_and!; [done|constructor|]. intros _. simpl. by rewrite H0. }
  unfold prun in *. rewrite foldl_snoc. destruct (foldl _ _ ins) as [[[]|err|] p]; cbn [fst snd] in *.
  - destruct i as [e|c x i]; [exists (es ++ [Net e]); by apply matches_network|by eapply matches_bytes].
  - exists es. by apply matches_stopped.
  - exists es. by apply matches_stopped.
Qed.

(** ** Properties *)

(** C6. The whole process, over bytes: in a process that started with no connections,
    whatever bytes arrive on however many sockets, in whatever segments, before or after
    their connections are accepted, interleaved with accepts, completions and errors in
    any way, the process does what some sequence of events of [System] does, down to the
    exception or undefined behaviour that ends it; the messages delivered on each socket
    are, in order, the frames at the front of the bytes that arrived there; and every
    message in a queue was there at the start or was parsed from such a frame of a
    connection, after that connection had answered its current challenge. *)
Theorem process_refines ins :
  sys_conns s0 = ∅ -> Server.server_inv (sys_server s0) ->
  exists es, let '(o, p) := prun ins (Proc s0 ∅) in
    sys_run es s0 = (o, p_sys p) /\
    (forall c, exists frames rest, arrived_on c ins = concat frames ++ rest /\
       Forall2 frame_of frames (Transport.deliveries (events_on c es))) /\
    (forall k m, holds (sys_heap (p_sys p)) k m -> holds (sys_heap s0) k m \/
       exists c pm frames f rest, arrived_on c ins = concat frames ++ rest /\ f ∈ frames /\
         frame_of f (PublishMsg pm) /\ from_publish pm k m /\ published_on digest hex_encode unit_test_username ring_key lookup_user conf s0 c pm es).
Proof.
  intros H0 Hs. destruct (matches_run ins H0 Hs) as [es M]. exists es.
  destruct (prun ins (Proc s0 ∅)) as [o p]. destruct M as [H1 H2 _ _]. simpl in *.
  assert (forall c, exists frames rest, arrived_on c ins = concat frames ++ rest /\
    Forall2 frame_of frames (Transport.deliveries (events_on c es))) as Hc
    by (intros c; destruct (H2 c) as (fr & pend & ? & ? & _); eauto).
  split_and!; [done|done|]. intros k m Hm.
  pose proof (accounted_run digest hex_encode unit_test_username ring_key lookup_user conf s0 es H0) as A.
  rewrite H1 in A. destruct (ac_queued _ _ _ _ _ _ _ _ _ A k m Hm) as [?|(c & pm & Hp & Hf)]; [by left|right].
  destruct (Hc c) as (frames & rest & E & HF). destruct Hp as (es1 & x & rnd & es2 & -> & Ha).
  assert (PublishMsg pm ∈ Transport.deliveries (events_on c (es1 ++ OnConn c x (Auth.Deliver (PublishMsg pm) rnd) :: es2))) as Hin.
  { unfold Transport.deliveries, events_on. rewrite omap_app. simpl. rewrite decide_True, omap_app by done. simpl.
    apply elem_of_app. right. left. }
  apply list_elem_of_lookup_1 in Hin as [n Hn]. destruct (Forall2_lookup_r _ _ _ _ _ HF Hn) as (f & Hfn & Hfr).
  exists c, pm, frames, f, rest. split_and!; [done|by eapply list_elem_of_lookup_2|done|done|]. by exists es1, x, rnd, es2.
Qed.

End Process.

(** ** A run *)

(** A login and a publish that arrive before the connection is accepted, in two segments
    that cut a frame, next to a socket that publishes without a login. *)
Definition sample_inputs : list input :=
  let wire := (Transport.sample_bytes ++ Wire.write_message Wire.sample_serialize MT_PUBLISH (PublishMsg sample_publish)) in
  let on c := OnBytes c sample_env in
  [on 0%nat (Transport.Arrive (take 9 wire)); OnNet (Server.Accepted None); on 0%nat (Transport.ReadReady [5]);
   on 0%nat (Transport.ReadReady []); on 0%nat (Transport.Arrive (drop 9 wire)); OnNet (Server.Accepted None);
   on 1%nat (Transport.Arrive (Wire.write_message Wire.sample_serialize MT_PUBLISH (PublishMsg sample_publish)));
   on 1%nat (Transport.ReadReady []); on 0%nat (Transport.ReadReady []); on 0%nat Transport.Run;
   on 0%nat (Transport.ReadReady [])].

Abbreviation sample_prun ins :=
  (prun Wire.sample_parse 10485760 toy_digest toy_hex [] [1] Auth.sample_store Node.sample_settings ins (Proc sample_system ∅)).

Lemma publish_over_bytes :
  (sample_prun sample_inputs).1 = Ret tt /\
  waiting (sys_heap (p_sys (sample_prun (take 10 sample_inputs)).2)) 1%nat = [] /\
  waiting (sys_heap (p_sys (sample_prun sample_inputs).2)) 1%nat = [[]] /\
  Auth.is_open <$> sys_conns (p_sys (sample_prun sample_inputs).2) !! 1%nat = Some false.
Proof. vm_compute. done. Qed.

Lemma process_refines_witness : exists es,
  System.run toy_digest toy_hex [] [1] Auth.sample_store Node.sample_settings es sample_system =
    (Ret tt, p_sys (sample_prun sample_inputs).2) /\
  exists frames rest, arrived_on 0%nat sample_inputs = concat frames ++ rest /\
    Forall2 (Transport.frame_of Wire.sample_parse 10485760) frames (Transport.deliveries (events_on 0%nat es)).
Proof.
  destruct (process_refines Wire.sample_parse 10485760 toy_digest toy_hex [] [1] Auth.sample_store Node.sample_settings
    sample_system sample_inputs eq_refl) as [es H].
  { apply Server.accept_new_inv. constructor; simpl; [set_solver|done]. }
  pose proof (proj1 publish_over_bytes) as Ho. destruct (sample_prun sample_inputs) as [o p]. simpl in Ho. subst o.
  destruct H as (Hr & Hc & _). exists es. split; [exact Hr|apply Hc].
Defined.

End Process.
