(* ===== verification/Network.v ===== *)
(** * A client and a node process over a network

    Two processes joined by a pair of byte streams, in the general ([peer], [link]), and
    the two that matter here: the session of [client/cpp/src] with a user who logs in and
    may publish, and the node process of [System]. The network moves bytes in segments of
    any size; reads complete when their frame is there or the other side has closed,
    writes complete when their bytes have left, tasks run when they like. A schedule is
    any sequence of such moves. Nothing is lost but what a side that closes its socket had
    not sent. A node process whose handler does not return ends, which closes its sockets. *)

From Stdlib Require Import ZArith Lia Ascii String.
From stdpp Require Import base list gmap strings relations.
From S2P Require Import Prelude Uint128 Murmur Clocks MessageQueue QueueManager Endpoint Node Ring Quorum Messages Dispatcher Wire Account Auth Transport Client Login Publish EndToEnd Server System.

Local Open Scope Z_scope.
Local Open Scope sopmq_scope.

Module Network.
Import Messages Account Publish System.
Abbreviation bytes := MessageQueue.bytes.

(** ** Links between two processes *)

(** What a process shows to the network: the messages it has given to its socket, how many
    of its writes and reads are outstanding, whether its socket is open; and what it does
    when one completes. [None]: there is nothing to do. *)
Class peer (A : Type) := {
  sent_of : A -> list message;
  writing : A -> nat;
  reading : A -> nat;
  opened : A -> bool;
  max_size : A -> Z;
  on_read : bytes -> A -> option (bytes * A);
  on_read_abort : network_operation_result -> A -> option A;
  on_write : network_operation_result -> A -> option A;
  on_local : A -> option A
}.

(** One end: the process, the bytes that arrived and were not read, and how many bytes of
    what the process sent have left. *)
Record half (A : Type) := Half { proc : A; inbox : bytes; departed : nat }.
Arguments Half {A}.
Arguments proc {A}.
Arguments inbox {A}.
Arguments departed {A}.

Inductive move := Flow (n : nat) | ReadDone | WriteDone | Local.

Definition operation_aborted : string := "Operation canceled".

Section Link.
Context (serialize : message -> bytes) (parse : message_type -> bytes -> option message).
Context {A B : Type} `{!peer A} `{!peer B}.

Definition frame (m : message) : bytes := Wire.write_message serialize (type_of m) m.
Definition wire (ms : list message) : bytes := ms ≫= frame.

(** The bytes that have not left. *)
Definition outgoing {C} `{!peer C} (x : half C) : bytes := drop (departed x) (wire (sent_of (proc x))).

(** All bytes of the oldest outstanding write have left. *)
Definition oldest_departed {C} `{!peer C} (x : half C) : bool :=
  let ms := sent_of (proc x) in
  (length (wire (take (S (length ms - writing (proc x))) ms)) <=? departed x)%nat.

(** A move of the end [x] of a link whose other end is [y]. A read completes on a closed
    socket with an error, otherwise with a frame, or with the end of the stream when the
    other side has closed. *)
Definition act {A B} `{!peer A} `{!peer B} (m : move) (x : half A) (y : half B) : option (half A * half B) :=
  match m with
  | Flow n =>
    if opened (proc x) && (0 <? n)%nat && (n <=? length (outgoing x))%nat
    then Some (Half (proc x) (inbox x) (departed x + n),
               Half (proc y) (inbox y ++ take n (outgoing x)) (departed y))
    else None
  | ReadDone =>
    if (reading (proc x) =? 0)%nat then None
    else if negb (opened (proc x)) then
      (fun p => (Half p (inbox x) (departed x), y)) <$> on_read_abort (from_error_code operation_aborted) (proc x)
    else if Transport.blocked (max_size (proc x)) (inbox x) && opened (proc y) then None
    else (fun r => (Half r.2 r.1 (departed x), y)) <$> on_read (inbox x) (proc x)
  | WriteDone =>
    if (writing (proc x) =? 0)%nat then None
    else if oldest_departed x then (fun p => (Half p (inbox x) (departed x), y)) <$> on_write success (proc x)
    else if opened (proc x) then None
    else (fun p => (Half p (inbox x) (departed x), y)) <$> on_write (from_error_code operation_aborted) (proc x)
  | Local => (fun p => (Half p (inbox x) (departed x), y)) <$> on_local (proc x)
  end.

Abbreviation link := (half A * half B)%type.

Inductive side := Near | Far.

Definition lstep (d : side) (m : move) (l : link) : option link :=
  match d with
  | Near => act m l.1 l.2
  | Far => (fun p => (p.2, p.1)) <$> act m l.2 l.1
  end.

Definition link_step (l l' : link) : Prop := exists d m, lstep d m l = Some l'.

(** A schedule, as far as its moves are possible. *)
Fixpoint follow (ms : list (side * move)) (l : link) : option link :=
  match ms with
  | [] => Some l
  | (d, m) :: ms => l' ← lstep d m l; follow ms l'
  end.

Lemma follow_nsteps ms l l' : follow ms l = Some l' -> nsteps link_step (length ms) l l'.
Proof.
  revert l. induction ms as [|[d m] ms IH]; intros l; simpl; [intros [= <-]; constructor|].
  destruct (lstep d m l) as [l1|] eqn:E; [|done]. intros H. econstructor; [by exists d, m|by apply IH].
Qed.

Lemma follow_snoc ms mv l l' : follow (ms ++ [mv]) l = Some l' ->
  exists l1, follow ms l = Some l1 /\ lstep mv.1 mv.2 l1 = Some l'.
Proof.
  revert l. induction ms as [|[d m] ms IH]; intros l.
  - destruct mv as [d m]. simpl. destruct (lstep d m l) as [l1|] eqn:E; [|done]. intros [= <-]. by exists l.
  - simpl. destruct (lstep d m l) as [l1|]; [apply IH|done].
Qed.

(** ** Frames *)

(** The message survives its encoding, and the limit [maxSize] lets it pass. *)
Definition fits (maxSize : Z) (m : message) : Prop :=
  parse (type_of m) (serialize m) = Some m /\ Z.of_nat (length (serialize m)) <= maxSize.

Lemma frame_read maxSize m t : in_width 32 maxSize -> fits maxSize m ->
  Wire.read_message parse maxSize (frame m ++ t) = Ret ([Wire.Status success; Wire.Dispatch success m], t).
Proof.
  intros Hw [Hp Hl]. unfold frame. rewrite (Wire.read_written serialize parse) by done.
  unfold Wire.template_dispatch. by rewrite Hp.
Qed.

Lemma frame_ready maxSize m t : in_width 32 maxSize -> fits maxSize m -> Transport.blocked maxSize (frame m ++ t) = false.
Proof.
  intros Hw Hm. pose proof (frame_read maxSize m t Hw Hm) as E. pose proof (Transport.read_message_view parse maxSize (frame m ++ t)) as V.
  destruct (Transport.blocked _ _); [|done]. destruct V as [rest V]. rewrite E in V. done.
Qed.

(** A read that is not blocked on what has arrived of a frame has all of it. *)
Lemma frame_arrived maxSize m s t u : in_width 32 maxSize -> fits maxSize m -> s ++ t = frame m ++ u ->
  Transport.blocked maxSize s = false -> exists v, s = frame m ++ v /\ u = v ++ t.
Proof.
  intros Hw Hm E Hb. pose proof (Transport.read_message_view parse maxSize s) as V. rewrite Hb in V.
  destruct V as (ev & m' & f & rest & -> & _ & _ & Hr). destruct (Hr (rest ++ t)) as [R _].
  rewrite app_assoc, E, frame_read in R by done. injection R as <- ->. exists rest. split; [|done].
  rewrite <- app_assoc in E. apply app_inv_tail in E. by rewrite E.
Qed.

Lemma frame_nonempty m : frame m <> [].
Proof. unfold frame, Wire.write_message. intros E. apply (f_equal length) in E. by rewrite !length_app in E. Qed.

(** One more message is sent. *)
Lemma wire_more d ms m ms' : ms' = ms ++ [m] -> (d <= length (wire ms))%nat ->
  drop d (wire ms') = drop d (wire ms) ++ frame m /\ length (wire ms') = (length (wire ms) + length (frame m))%nat.
Proof. intros -> H. unfold wire in *. rewrite bind_app. simpl. by rewrite app_nil_r, drop_app_le, length_app. Qed.

(** ** Links that are at rest *)

Definition at_rest (l : link) : Prop := forall l', ~ link_step l l'.

Lemma departed_all {C} `{!peer C} (z : half C) : outgoing z = [] -> oldest_departed z = true.
Proof.
  unfold outgoing, oldest_departed. intros E. apply Nat.leb_le. set (ms := sent_of (proc z)) in *.
  apply (f_equal length) in E. rewrite length_drop in E. simpl in E.
  rewrite <- (take_drop (S (length ms - writing (proc z))) ms) in E. unfold wire in *. rewrite bind_app, length_app in E. lia.
Qed.

Section Rest.
Context {C D : Type} `{!peer C} `{!peer D} (y : half C) (z : half D).

(** Whatever an open socket has been given leaves. *)
Lemma rest_sent : (forall m, act m y z = None) -> opened (proc y) = true -> outgoing y = [].
Proof.
  intros H Ho. specialize (H (Flow 1)). unfold act in H. rewrite Ho in H. simpl in H.
  destruct (outgoing y); [done|]. discriminate.
Qed.

(** Writes complete. *)
Lemma rest_written : (forall m, act m y z = None) -> (forall r, on_write r (proc y) <> None) -> writing (proc y) = 0%nat.
Proof.
  intros H Hw. pose proof (H WriteDone) as E. unfold act in E. destruct (Nat.eqb_spec (writing (proc y)) 0); [done|].
  destruct (opened (proc y)) eqn:Ho; [rewrite departed_all in E by (by apply rest_sent)|];
    [|destruct (oldest_departed y)]; destruct (on_write _ _) eqn:Ew; (done || by destruct (Hw _ Ew)).
Qed.
End Rest.

Lemma rest_near (l : link) : at_rest l -> forall m, act m l.1 l.2 = None.
Proof. intros H m. apply eq_None_not_Some. intros [l' E]. apply (H l'). by exists Near, m. Qed.

Lemma rest_far (l : link) : at_rest l -> forall m, act m l.2 l.1 = None.
Proof. intros H m. apply eq_None_not_Some. intros [l' E]. apply (H (l'.2, l'.1)). exists Far, m. simpl. by rewrite E. Qed.

End Link.

(** ** The client *)

(** What the user wants to publish, and the callback. *)
Record request := Request { rq_uid : bytes; rq_queue : bytes; rq_store : bool; rq_ttl : Z; rq_data : bytes; rq_cb : nat }.

(** A session and its user, who publishes [todo] once the login succeeded. *)
Record user := User { ses : Session.session; todo : option request }.

Section Client.
Context (serialize : message -> bytes) (parse : message_type -> bytes -> option message) (maxSize : Z).
Context (digest hex_encode : bytes -> bytes).
Abbreviation client_step := (Session.step digest hex_encode).
Abbreviation invoke := (Session.invoke digest hex_encode).

(** A callback of [messageutil] on the client. *)
Definition on_session_event (o : Session.owner) (ev : Wire.read_event) (s : Session.session) : Session.session :=
  match ev with
  | Wire.Status r => Session.read_status o r s
  | Wire.Cancel r =>
    match Session.dispatcher_of o s with
    | Some d => foldl (fun s x => invoke x s) s (Dispatcher.cancel_all_with_error r d)
    | None => s
    end
  | Wire.Dispatch r m =>
    match Session.dispatcher_of o s with
    | Some d => invoke (Dispatcher.dispatch r m d).1 s
    | None => s
    end
  end.

(** The outstanding read of a session takes a frame from the bytes [b]. *)
Definition session_read (b : bytes) (s : Session.session) : outcome (bytes * Session.session) :=
  match Session.pop_read s with
  | None => Ret (b, s)
  | Some (o, s) =>
    r <~ Wire.read_message parse maxSize b;;
    Ret (r.2, foldl (fun s ev => on_session_event o ev s) s r.1)
  end.

Definition returned {A} (x : outcome A) : option A := match x with Ret a => Some a | _ => None end.

Definition user_acts (u : user) : option user :=
  match todo u, Session.auth_results (ses u) with
  | Some r, [true] =>
    (fun s => User s None) <$>
      returned (Session.publish_message (rq_uid r) (rq_queue r) (rq_store r) (rq_ttl r) (rq_data r) (rq_cb r) (ses u))
  | _, _ => None
  end.

#[local] Instance user_peer : peer user := {|
  sent_of u := Session.sent (ses u);
  writing u := length (Session.writes (ses u));
  reading u := length (Session.reads (ses u));
  opened u := Session.is_open (ses u);
  max_size _ := maxSize;
  on_read b u := (fun r => (r.1, User r.2 (todo u))) <$> returned (session_read b (ses u));
  on_read_abort r u := Some (User (client_step (Session.ReadError r) (ses u)) (todo u));
  on_write r u := Some (User (client_step (Session.WriteDone r) (ses u)) (todo u));
  on_local := user_acts
|}.

Lemma session_reads_frame m t s : in_width 32 maxSize -> fits serialize parse maxSize m -> Session.reads s <> [] ->
  session_read (frame serialize m ++ t) s = Ret (t, client_step (Session.Deliver m) s).
Proof.
  intros Hw Hm Hr. unfold session_read. rewrite (frame_read serialize parse) by done.
  simpl. unfold Session.pop_read. by destruct (Session.reads s).
Qed.

Lemma session_reads_end b s : Transport.blocked maxSize b = true -> Session.reads s <> [] ->
  exists rest, session_read b s = Ret (rest, client_step (Session.ReadError (from_error_code Wire.end_of_file)) s).
Proof.
  intros Hb Hr. pose proof (Transport.read_message_view parse maxSize b) as V. rewrite Hb in V.
  destruct V as [rest E]. exists rest. unfold session_read. rewrite E. simpl. unfold Session.pop_read.
  by destruct (Session.reads s).
Qed.

(** The client has been told that [w] of its writes are complete. *)
Definition written (w : nat) (s : Session.session) : Prop :=
  length (Session.sent s) = (w + length (Session.writes s))%nat.

(** Every message is given to the socket with one write. *)
Lemma written_invoke w i s : written w s -> written w (invoke i s).
Proof.
  unfold written. intros H. destruct i as [[h r m|r m]| |]; try done. destruct h as [| |cb|]; simpl; [| | |done].
  - unfold Session.on_challenge_response. destruct m as [[]|]; try done. simpl. rewrite !length_app. simpl. lia.
  - unfold Session.on_auth_ack. destruct m as [[? ?|? ?|? ? ?|? []| | | | | | | |]|]; try done.
  - unfold Session.handle_response. destruct (was_successful r); [|done]. by destruct m as [[]|].
Qed.

Lemma written_invokes w l s : written w s -> written w (foldl (fun s i => invoke i s) s l).
Proof. revert s. induction l as [|i l IH]; intros s H; [done|]. simpl. by apply IH, written_invoke. Qed.

Lemma written_event w o ev s : written w s -> written w (on_session_event o ev s).
Proof.
  intros H. destruct ev as [r|r|r m]; simpl.
  - unfold Session.read_status. destruct o; [|done]. by destruct (was_successful r).
  - destruct (Session.dispatcher_of o s); [by apply written_invokes|done].
  - destruct (Session.dispatcher_of o s); [by apply written_invoke|done].
Qed.

Lemma written_read w b s b' s' : session_read b s = Ret (b', s') -> written w s -> written w s'.
Proof.
  unfold session_read, Session.pop_read. destruct (Session.reads s) as [|o rs]; [by intros [= <- <-]|].
  intros (r & _ & [= <- <-])%obind_ret_inv H. revert H. generalize r.1.
  set (s0 := Session.Ses _ _ _ _ _ _ _ _ _ _ _ _ _). change (written w s) with (written w s0). generalize s0.
  intros s1 l. revert s1. induction l as [|ev l IH]; intros s1 H; [done|]. simpl. by apply IH, written_event.
Qed.

Lemma written_fails w r s : written w s -> written w (client_step (Session.ReadError r) s).
Proof.
  intros H. unfold Session.step, Session.pop_read. destruct (Session.reads s) as [|o rs]; [done|].
  set (s0 := Session.Ses _ _ _ _ _ _ _ _ _ _ _ _ _). change (written w s) with (written w s0) in H.
  apply (written_event w o (Wire.Cancel r)). by apply (written_event w o (Wire.Status r)).
Qed.

Lemma written_wrote w r s : Session.writes s <> [] -> written w s -> written (S w) (client_step (Session.WriteDone r) s).
Proof.
  unfold written. simpl. unfold Session.pop_write. destruct (Session.writes s) as [|[|i cb] ws]; [done|..]; intros _ H;
    simpl in *; destruct (was_successful r); simpl; [lia..| |lia]. destruct (Session.a_dispatcher s); simpl; lia.
Qed.

(** A move of the link: only a completed write of the client counts. *)
Lemma written_move {B} `{!peer B} w d m (l l' : half user * half B) :
  lstep serialize d m l = Some l' -> written w (ses (proc l.1)) ->
  written (match d, m with Near, WriteDone => S w | _, _ => w end) (ses (proc l'.1)).
Proof.
  destruct l as [[u i1 d1] z]. destruct d; unfold lstep; cbn [fst snd].
  - destruct m as [n| | |]; unfold act; cbn [proc inbox departed reading writing opened max_size on_read on_read_abort on_write on_local user_peer].
    + case_match; [|done]. by intros [= <-].
    + destruct (Nat.eqb_spec (length (Session.reads (ses u))) 0); [done|]. destruct (negb _).
      * cbn [fmap option_fmap option_map]. intros [= <-]. apply written_fails.
      * destruct (_ && _); [done|]. destruct (session_read i1 (ses u)) as [[b' s']| |] eqn:E; [|done..].
        intros [= <-] H. by eapply written_read.
    + destruct (Nat.eqb_spec (length (Session.writes (ses u))) 0); [done|].
      assert (forall r, written w (ses u) -> written (S w) (client_step (Session.WriteDone r) (ses u))) as Hw
        by (intros r; apply written_wrote; by destruct (Session.writes (ses u))).
      destruct (oldest_departed _ _); [intros [= <-]; exact (Hw success)|]. destruct (Session.is_open (ses u)); [done|]. intros [= <-]. exact (Hw (from_error_code operation_aborted)).
    + unfold user_acts, Session.publish_message. destruct (todo u), (Session.auth_results (ses u)) as [|[] []]; try done.
      destruct (Session._session_state (ses u)) as [[]|]; try done. intros [= <-] H. unfold written in *. simpl.
      rewrite !length_app. simpl. lia.
  - destruct (act _ _ _ _) as [r|] eqn:E; [|done]. intros [= <-] H. destruct m; cbn [fst snd]; revert E; unfold act; cbn [proc];
      repeat case_match; try done; intros E; simplify_option_eq; done.
Qed.

End Client.

(** ** The node *)

Section Node.
Context (serialize : message -> bytes) (parse : message_type -> bytes -> option message) (maxSize : Z).
Context (digest hex_encode : bytes -> bytes) (ring_key : bytes).
Context (lookup_user : bytes -> find_user_result) (conf : Settings.settings).
(** The connection the node has with the client, the challenge it will draw, and the
    environment of its handlers. *)
Context (c : Server.ptr) (rnd : bytes) (x : env).
Abbreviation conn_step := (Auth.step digest hex_encode [] ring_key lookup_user).
Abbreviation complete_read := (Transport.complete_read parse maxSize digest hex_encode [] ring_key lookup_user).

Definition conn_of (s : system) : Auth.connection := default Auth.connection_start (sys_conns s !! c).

(** What the network sees of a process that has ended: its sockets are closed, and nothing
    of it completes or runs any more. *)
Definition closed (k : Auth.connection) : Auth.connection :=
  Auth.Conn (Auth._next_id k) false (Auth.sent k) [] [] (Auth.u_dispatcher k) (Auth._authType k) (Auth._challenge k)
    (Auth._closeAfterTransmission k) (Auth.a_dispatcher k) [] (Auth.published k).

Definition ended (s : system) : system :=
  Sys (sys_server s) (closed <$> sys_conns s) (sys_heap s) (sys_stamp_calls s).

(** The connection has become [k]. A handler that throws ends the process, since nothing
    catches what leaves the event loop; a handler without a defined effect is taken to end
    it too (the code follows a null pointer there). *)
Definition node_becomes (k : Auth.connection) (s : system) : option system :=
  let '(r, s') := settle conf c x (conn_of s) k s in
  Some (match r with Ret _ => s' | _ => ended s' end).

#[local] Instance node_peer : peer system := {|
  sent_of s := Auth.sent (conn_of s);
  writing s := length (Auth.writes (conn_of s));
  reading s := length (Auth.reads (conn_of s));
  opened s := Auth.is_open (conn_of s);
  max_size _ := maxSize;
  on_read b s :=
    match complete_read rnd b (conn_of s) with
    | Ret (b', k) => (fun s' => (b', s')) <$> node_becomes k s
    | _ => None
    end;
  on_read_abort r s := node_becomes (conn_step (Auth.ReadError r) (conn_of s)) s;
  on_write r s := node_becomes (conn_step (Auth.WriteDone r) (conn_of s)) s;
  on_local s :=
    match Auth.posted (conn_of s) with
    | [] => None
    | _ => node_becomes (conn_step Auth.RunTask (conn_of s)) s
    end
|}.

Lemma node_reads_frame m t k : in_width 32 maxSize -> fits serialize parse maxSize m -> Auth.reads k <> [] ->
  complete_read rnd (frame serialize m ++ t) k = Ret (t, conn_step (Auth.Deliver m rnd) k).
Proof.
  intros Hw Hm Hr. unfold Transport.complete_read. rewrite (frame_read serialize parse) by done.
  simpl. unfold Auth.pop_read. by destruct (Auth.reads k).
Qed.

(** A step on which nothing is published only changes the connection. *)
Lemma node_becomes_quiet k s : Auth.published k = Auth.published (conn_of s) ->
  node_becomes k s = Some (Sys (sys_server s) (<[c := k]> (sys_conns s)) (sys_heap s) (sys_stamp_calls s)).
Proof. intros E. unfold node_becomes, System.settle. by rewrite E, drop_all. Qed.

End Node.

End Network.
