(* ===== verification/NetworkLogin.v ===== *)
(** * A login over a network, in every schedule

    The link of [Network] between a client whose user calls [session::authenticate]
    ([client/cpp/src/session.cpp], [unauthenticated_state.cpp]) and a node process that
    accepts the connection ([node/src/csunauthenticated.cpp]): a phase for each message of
    the handshake, an invariant that every move keeps, and a weight that every move
    lowers. *)

From Stdlib Require Import ZArith Lia Ascii String.
From stdpp Require Import base list gmap strings relations.
From S2P Require Import Prelude Uint128 Murmur Clocks MessageQueue QueueManager Endpoint Node Ring Quorum Messages Dispatcher Wire Account Auth Transport Client Login Publish EndToEnd Server System Network.

Local Open Scope Z_scope.
Local Open Scope sopmq_scope.

Module NetworkLogin.
Import Messages Account Publish System Network.
Abbreviation bytes := MessageQueue.bytes.

Section Exchange.
Context (serialize : message -> bytes) (parse : message_type -> bytes -> option message) (cmax nmax : Z).
Context (digest hex_encode : bytes -> bytes) (ring_key : bytes).
Context (lookup_user : bytes -> find_user_result) (conf : Settings.settings).
Context (c : Server.ptr) (rnd : bytes) (x : env).
(** The user, and the node process before the connection. *)
Context (username password : bytes) (todo0 : option request) (sys0 : system).

#[local] Instance client_side : peer user := user_peer parse cmax digest hex_encode.
#[local] Instance node_side : peer system := node_peer parse nmax digest hex_encode ring_key lookup_user conf c rnd x.

Abbreviation sha := (sha256_hex_string digest hex_encode).
Abbreviation client_step := (Session.step digest hex_encode).
Abbreviation conn_step := (Auth.step digest hex_encode [] ring_key lookup_user).
Abbreviation frame := (frame serialize).
Abbreviation wire := (wire serialize).
Abbreviation steps := (link_step serialize (A := user) (B := system)).
Abbreviation oms := Session.on_message_sent_.

Definition node_sys (k : Auth.connection) : system :=
  Sys (sys_server sys0) (<[c := k]> (sys_conns sys0)) (sys_heap sys0) (sys_stamp_calls sys0).

(** The user has just called [authenticate], the node has just accepted. *)
Definition initial : half user * half system :=
  (Half (User (Session.authenticate username password Session.session_new) todo0) [] 0,
   Half (node_sys Auth.connection_start) [] 0).

(** ** The messages and the states between them *)

Definition get_challenge : message := GetChallengeMessage (Ident 1 0) GC_CLIENT.
Definition challenge : message := ChallengeResponseMessage (Ident 1 1) rnd.
Definition answer : message := AnswerChallengeMessage (Ident 2 1) (sha username) (sha (sha password ++ rnd)).
Definition ack (b : bool) : message := AuthAckMessage (Ident 2 2) b.

(** The verdict of the account storage. *)
Context (b : bool).
Context (verdict : user_lookup_cb digest hex_encode rnd (sha (sha password ++ rnd)) (lookup_user (sha username)) = [b]).
Context (Hcmax : in_width 32 cmax) (Hnmax : in_width 32 nmax).
Context (fits_up : fits serialize parse nmax get_challenge /\ fits serialize parse nmax answer).
Context (fits_down : fits serialize parse cmax challenge /\ fits serialize parse cmax (ack b)).

Inductive phase := Asked | Challenged | Answered | Checking | Verdict | Done.

#[global] Instance phase_eq_dec : EqDecision phase.
Proof. solve_decision. Defined.

Definition asked : Session.session := Session.authenticate username password Session.session_new.
Definition waiting_ack : Dispatcher.message_dispatcher :=
  Dispatcher.set_handler_reply MT_AUTH_ACK (Some Session.on_auth_ack_) 2
    (Dispatcher.set_handler MT_CHALLENGE_RESPONSE None
       (Dispatcher.set_handler_reply MT_CHALLENGE_RESPONSE (Some Session.on_challenge_response_) 1
          (Dispatcher.message_dispatcher_new (Some Session.on_unhandled_message_)))).
Definition answered : Session.session :=
  Session.Ses 2 true true [get_challenge; answer] [Session.Unauth] [oms; oms] username password (Some waiting_ack) None [] []
    (Some Session.Unauth).
Definition told (v : bool) : Session.session :=
  Session.Ses 2 true true [get_challenge; answer] (if v then [Session.Authd] else []) [oms; oms] username password (Some waiting_ack)
    (if v then Some (Dispatcher.message_dispatcher_new (Some Session.on_unhandled_message_)) else None) [v] []
    (Some (if v then Session.Authd else Session.Unauth)).

Definition client_at (ph : phase) : Session.session :=
  match ph with
  | Asked | Challenged => asked
  | Answered | Checking | Verdict => answered
  | Done => told b
  end.

Definition checking : Auth.connection :=
  Auth.Conn 1 true [challenge] [] [Auth.Unauth] (Auth.u_dispatcher (Auth.challenged 1 rnd)) (Some GC_CLIENT) rnd false None
    [Auth.auth_callback answer b] [].
Definition decided : Auth.connection := conn_step Auth.RunTask checking.

Definition node_at (ph : phase) : Auth.connection :=
  match ph with
  | Asked => Auth.connection_start
  | Challenged | Answered => Auth.challenged 1 rnd
  | Checking => checking
  | Verdict | Done => decided
  end.

Definition pending_up (ph : phase) : bytes :=
  match ph with Asked => frame get_challenge | Answered => frame answer | _ => [] end.
Definition pending_down (ph : phase) : bytes :=
  match ph with Challenged => frame challenge | Verdict => frame (ack b) | _ => [] end.

(** Outstanding writes, and whether the node's socket is open, vary within a phase. *)
Definition set_writes (ws : list Session.write_cb) (s : Session.session) : Session.session :=
  Session.Ses (Session._next_id s) (Session.is_open s) (Session._valid s) (Session.sent s) (Session.reads s) ws
    (Session._username s) (Session._password s) (Session.u_dispatcher s) (Session.a_dispatcher s)
    (Session.auth_results s) (Session.publish_results s) (Session._session_state s).

Definition set_io (op : bool) (ws : list Auth.owner) (k : Auth.connection) : Auth.connection :=
  Auth.Conn (Auth._next_id k) op (Auth.sent k) (Auth.reads k) ws (Auth.u_dispatcher k) (Auth._authType k)
    (Auth._challenge k) (Auth._closeAfterTransmission k) (Auth.a_dispatcher k) (Auth.posted k) (Auth.published k).

Record config := Config {
  g_ph : phase; g_ws : list Session.write_cb; g_ns : list Auth.owner; g_open : bool;
  g_in1 : bytes; g_in2 : bytes; g_d1 : nat; g_d2 : nat
}.

Definition link_of (g : config) : half user * half system :=
  (Half (User (set_writes (g_ws g) (client_at (g_ph g))) todo0) (g_in1 g) (g_d1 g),
   Half (node_sys (set_io (g_open g) (g_ns g) (node_at (g_ph g)))) (g_in2 g) (g_d2 g)).

Definition up_left (g : config) : bytes := drop (g_d1 g) (wire (Session.sent (client_at (g_ph g)))).
Definition down_left (g : config) : bytes := drop (g_d2 g) (wire (Auth.sent (node_at (g_ph g)))).

(** The node has refused the client and may close. *)
Definition refused (ph : phase) : Prop := b = false /\ (ph = Verdict \/ ph = Done).

Record config_ok (g : config) : Prop := {
  ok_ws : Forall (eq oms) (g_ws g);
  ok_ns : Forall (eq Auth.Unauth) (g_ns g);
  ok_d1 : (g_d1 g <= length (wire (Session.sent (client_at (g_ph g)))))%nat;
  ok_d2 : (g_d2 g <= length (wire (Auth.sent (node_at (g_ph g)))))%nat;
  ok_up : g_in2 g ++ up_left g = pending_up (g_ph g);
  ok_down : b = false /\ g_ph g = Done \/ g_in1 g ++ down_left g = pending_down (g_ph g);
  ok_open : g_open g = true \/ refused (g_ph g);
  ok_close : refused (g_ph g) -> g_open g = false \/ g_ns g <> []
}.

(** What is still to be sent, read and run after each phase. *)
Definition cost (ph : phase) : nat :=
  match ph with
  | Done => 0
  | Verdict => 1
  | Checking => 3 + length (frame (ack b))
  | Answered => 4 + length (frame (ack b))
  | Challenged => 6 + length (frame (ack b)) + length (frame answer)
  | Asked => 8 + length (frame (ack b)) + length (frame answer) + length (frame challenge)
  end.

Definition weight (g : config) : nat :=
  length (up_left g) + length (down_left g) + length (g_ws g) + length (g_ns g) + cost (g_ph g).

Definition advances (g : config) (l : half user * half system) : Prop :=
  exists g', l = link_of g' /\ config_ok g' /\ (weight g' < weight g)%nat.

(** ** The states *)

Lemma conn_of_node k : conn_of c (node_sys k) = k.
Proof. unfold conn_of. simpl. by rewrite lookup_insert_eq. Qed.

Lemma becomes_node k k' : Auth.published k' = Auth.published k ->
  node_becomes conf c x k' (node_sys k) = Some (node_sys k').
Proof.
  intros E. rewrite node_becomes_quiet by (by rewrite conn_of_node). unfold node_sys. simpl. by rewrite insert_insert_eq.
Qed.

Lemma asked_hears ws : client_step (Session.Deliver challenge) (set_writes ws asked) = set_writes (ws ++ [oms]) answered.
Proof. vm_compute. reflexivity. Qed.

Lemma answered_hears ws : client_step (Session.Deliver (ack b)) (set_writes ws answered) = set_writes ws (told b).
Proof. destruct b; vm_compute; reflexivity. Qed.

Lemma answered_fails ws r : was_successful r = false ->
  client_step (Session.ReadError r) (set_writes ws answered) = set_writes ws (told false).
Proof. destruct r as [[] e]; try discriminate; intros _; vm_compute; reflexivity. Qed.

Lemma client_wrote ws s : client_step (Session.WriteDone success) (set_writes (oms :: ws) s) = set_writes ws s.
Proof. reflexivity. Qed.

Lemma start_hears op ns : conn_step (Auth.Deliver get_challenge rnd) (set_io op ns Auth.connection_start) =
  set_io op (ns ++ [Auth.Unauth]) (Auth.challenged 1 rnd).
Proof. reflexivity. Qed.

Lemma challenged_hears op ns :
  conn_step (Auth.Deliver answer rnd) (set_io op ns (Auth.challenged 1 rnd)) = set_io op ns checking.
Proof.
  change (conn_step (Auth.Deliver answer rnd) (set_io op ns (Auth.challenged 1 rnd))) with
    (set_io op ns (Auth.post (Auth.auth_callback answer <$>
       user_lookup_cb digest hex_encode rnd (sha (sha password ++ rnd)) (lookup_user (sha username)))
       (Auth.Conn 1 true [challenge] [] [Auth.Unauth] (Auth.u_dispatcher (Auth.challenged 1 rnd)) (Some GC_CLIENT) rnd false None [] []))).
  by rewrite verdict.
Qed.

Lemma checking_runs op ns : conn_step Auth.RunTask (set_io op ns checking) = set_io op (ns ++ [Auth.Unauth]) decided.
Proof. unfold decided, checking. by destruct b. Qed.

Lemma node_wrote op ns k r :
  conn_step (Auth.WriteDone r) (set_io op (Auth.Unauth :: ns) k) =
    set_io (op && was_successful r && negb (Auth._closeAfterTransmission k)) ns k.
Proof.
  destruct k as [i o st rs ws d t ch cl ad ps pb]. unfold set_io. simpl. unfold Auth.u_handle_write_result.
  by destruct (was_successful r), cl, op.
Qed.

Lemma node_closing ph : Auth._closeAfterTransmission (node_at ph) = true <-> refused ph.
Proof. unfold refused. destruct ph; simpl; try (split; [done|intros [_ [?|?]]; done]); unfold decided, checking; destruct b; simpl; naive_solver. Qed.

Ltac config_cbn := cbn [g_ph g_ws g_ns g_open g_in1 g_in2 g_d1 g_d2 client_at node_at pending_up pending_down cost] in *.

(** ** Moves *)

Lemma flow_up g n l : config_ok g -> lstep serialize Near (Flow n) (link_of g) = Some l -> advances g l.
Proof.
  intros G E. destruct g as [ph ws ns op i1 i2 d1 d2]. pose proof G as [H1 H2 H3 H4 H5 H6 H7 H8]. unfold lstep, act in E.
  cbn [link_of fst snd proc] in E. change (outgoing serialize _) with (drop d1 (wire (Session.sent (client_at ph)))) in E.
  case_match eqn:Hc; [|done]. injection E as <-. rewrite !andb_true_iff, Nat.ltb_lt, Nat.leb_le in Hc. destruct Hc as [[_ Hn] Hl].
  exists (Config ph ws ns op i1 (i2 ++ take n (drop d1 (wire (Session.sent (client_at ph))))) (d1 + n) d2).
  unfold up_left, down_left in *. cbn in *. rewrite length_drop in Hl. split_and!; [done|split; cbn; try done|].
  - lia.
  - unfold up_left. cbn. by rewrite <- app_assoc, <- drop_drop, take_drop.
  - unfold weight, up_left, down_left. cbn. rewrite !length_drop. lia.
Qed.

Lemma flow_down g n l : config_ok g -> lstep serialize Far (Flow n) (link_of g) = Some l -> advances g l.
Proof.
  intros G E. destruct g as [ph ws ns op i1 i2 d1 d2]. pose proof G as [H1 H2 H3 H4 H5 H6 H7 H8]. unfold lstep, act in E.
  cbn [link_of fst snd proc] in E. unfold outgoing in E. cbn [sent_of proc departed] in E. simpl in E.
  rewrite !conn_of_node in E. simpl in E.
  case_match eqn:Hc; [|done]. injection E as <-. rewrite !andb_true_iff, Nat.ltb_lt, Nat.leb_le in Hc. destruct Hc as [[_ Hn] Hl].
  exists (Config ph ws ns op (i1 ++ take n (drop d2 (wire (Auth.sent (node_at ph))))) i2 d1 (d2 + n)).
  unfold up_left, down_left in *. cbn in *. rewrite length_drop in Hl. split_and!; [done|split; cbn; try done|].
  - lia.
  - unfold down_left. cbn. by rewrite <- app_assoc, <- drop_drop, take_drop.
  - unfold weight, up_left, down_left. cbn. rewrite !length_drop. lia.
Qed.

Lemma client_open ph : Session.is_open (client_at ph) = true.
Proof. by destruct ph. Qed.

Lemma client_sent ph : Session.sent (client_at ph) =
  match ph with Asked | Challenged => [get_challenge] | _ => [get_challenge; answer] end.
Proof. by destruct ph. Qed.

Lemma node_sent ph : Auth.sent (node_at ph) =
  match ph with Asked => [] | Challenged | Answered | Checking => [challenge] | _ => [challenge; ack b] end.
Proof. destruct ph; try done; simpl; unfold decided, checking; by destruct b. Qed.

(** What a completed read of the client needs, and what it does. *)
Lemma read_near_inv g l : lstep serialize Near ReadDone (link_of g) = Some l ->
  Session.reads (client_at (g_ph g)) <> [] /\ (Transport.blocked cmax (g_in1 g) = false \/ g_open g = false) /\
  exists r s, session_read parse cmax digest hex_encode (g_in1 g) (set_writes (g_ws g) (client_at (g_ph g))) = Ret (r, s) /\
    l = (Half (User s todo0) r (g_d1 g), (link_of g).2).
Proof.
  intros E. unfold lstep, act in E. cbn in E. rewrite client_open, conn_of_node in E. cbn in E.
  destruct (Session.reads (client_at (g_ph g))) as [|o rs]; [done|]. cbn in E.
  split; [done|]. destruct (_ && _) eqn:Hb in E; [done|]. apply andb_false_iff in Hb. split; [done|].
  destruct (session_read _ _ _ _ _ _) as [[r s']| |]; [|done..]. injection E as <-. eauto.
Qed.

(** A read of the client completes only when there is something for it, or when it was
    refused. *)
Lemma read_near_needs g : config_ok g -> Session.reads (client_at (g_ph g)) <> [] ->
  Transport.blocked cmax (g_in1 g) = false \/ g_open g = false ->
  (g_ph g = Challenged \/ g_ph g = Verdict) /\ g_in1 g ++ down_left g = pending_down (g_ph g).
Proof.
  intros G Hr Hb. destruct (ok_down _ G) as [[Hbf Hd]|Hd].
  - rewrite Hd in Hr. cbn in Hr. by rewrite Hbf in Hr.
  - split; [|done]. destruct Hb as [Hb|Ho].
    + destruct (decide (pending_down (g_ph g) = [])) as [Hp|Hp]; [|destruct (g_ph g); naive_solver].
      rewrite Hp in Hd. apply app_nil in Hd as [Hi _]. by rewrite Hi in Hb.
    + destruct (ok_open _ G) as [?|[Hbf [?|Hph]]]; [congruence|by right|]. rewrite Hph in Hr. cbn in Hr. by rewrite Hbf in Hr.
Qed.

Lemma read_near g l : config_ok g -> lstep serialize Near ReadDone (link_of g) = Some l -> advances g l.
Proof.
  intros G (Hr & Hb & r & s & Es & ->)%read_near_inv. destruct (read_near_needs g G Hr Hb) as [Hph Hd].
  destruct g as [ph ws ns op i1 i2 d1 d2]. pose proof G as [H1 H2 H3 H4 H5 H6 H7 H8]. cbn [g_ph g_ws g_in1 g_open] in *.
  unfold up_left, down_left in *. rewrite client_sent in *. rewrite node_sent in *. cbn [g_ph g_d1 g_d2 g_in1 g_in2] in *.
  destruct (Transport.blocked cmax i1) eqn:Hbl.
  - destruct Hb as [?|Ho]; [done|]. destruct H7 as [?|[Hbf [Hp|Hp]]]; [congruence| |naive_solver]. subst ph.
    destruct (session_reads_end parse cmax digest hex_encode i1 (set_writes ws answered) Hbl Hr) as [rest E].
    cbn [client_at] in *. rewrite E, answered_fails in Es by done. injection Es as <- <-.
    exists (Config Done ws ns op rest i2 d1 d2). split_and!.
    + unfold link_of. cbn [client_at g_ph]. by rewrite Hbf.
    + split; unfold up_left, down_left; rewrite ?client_sent, ?node_sent; config_cbn; auto. right. split; auto.
    + unfold weight, up_left, down_left. rewrite !client_sent, !node_sent. config_cbn. lia.
  - destruct Hph as [-> | ->]; cbn [pending_down] in Hd.
    + rewrite <- (app_nil_r (frame challenge)) in Hd.
      destruct (frame_arrived serialize parse cmax challenge i1 _ [] Hcmax (proj1 fits_down) Hd Hbl) as (v & -> & Ev).
      symmetry in Ev. apply app_nil in Ev as [-> Ev].
      cbn [client_at] in *. rewrite (session_reads_frame serialize), asked_hears in Es by (done || apply fits_down).
      injection Es as <- <-. destruct (wire_more serialize d1 [get_challenge] answer [get_challenge; answer] eq_refl H3) as [E1 E2].
      exists (Config Answered (ws ++ [oms]) ns op [] i2 d1 d2). split_and!; [done| |].
      * split; unfold up_left, down_left; rewrite ?client_sent, ?node_sent; config_cbn; auto.
        -- apply Forall_app. split; [done|]. by constructor.
        -- lia.
        -- by rewrite E1, app_assoc, H5.
        -- left. destruct H7 as [?|[_ [?|?]]]; done.
        -- intros [_ [?|?]]; done.
      * unfold weight, up_left, down_left. rewrite !client_sent, !node_sent. config_cbn. rewrite E1, !length_app. simpl. lia.
    + rewrite <- (app_nil_r (frame (ack b))) in Hd.
      destruct (frame_arrived serialize parse cmax (ack b) i1 _ [] Hcmax (proj2 fits_down) Hd Hbl) as (v & -> & Ev).
      symmetry in Ev. apply app_nil in Ev as [-> Ev].
      cbn [client_at] in *. rewrite (session_reads_frame serialize), answered_hears in Es by (done || apply fits_down).
      injection Es as <- <-. exists (Config Done ws ns op [] i2 d1 d2). split_and!; [done| |].
      * split; unfold up_left, down_left; rewrite ?client_sent, ?node_sent; config_cbn; auto; unfold refused in *; naive_solver.
      * unfold weight, up_left, down_left. rewrite !client_sent, !node_sent. config_cbn. lia.
Qed.

(** A read of the node completes only when there is something for it. *)
Lemma read_far_inv g l : config_ok g -> lstep serialize Far ReadDone (link_of g) = Some l ->
  g_open g = true /\ (g_ph g = Asked \/ g_ph g = Answered) /\ Transport.blocked nmax (g_in2 g) = false /\
  exists r k s, Transport.complete_read parse nmax digest hex_encode [] ring_key lookup_user rnd (g_in2 g)
      (set_io (g_open g) (g_ns g) (node_at (g_ph g))) = Ret (r, k) /\
    node_becomes conf c x k (node_sys (set_io (g_open g) (g_ns g) (node_at (g_ph g)))) = Some s /\
    l = ((link_of g).1, Half s r (g_d2 g)).
Proof.
  intros G E. unfold lstep, act in E. cbn in E. rewrite !conn_of_node, client_open, andb_true_r in E. cbn in E.
  destruct (Auth.reads (node_at (g_ph g))) as [|o rs] eqn:Er; [done|]. cbn in E.
  assert (g_open g = true) as Ho.
  { destruct (ok_open _ G) as [?|[Hbf [Hp|Hp]]]; [done|rewrite Hp in Er..]; cbn in Er; unfold decided, checking in Er;
      by rewrite Hbf in Er. }
  rewrite Ho in *. cbn in E. destruct (Transport.blocked _ _) eqn:Hb; [done|]. split_and!; [done| |done|].
  - pose proof (ok_up _ G) as Hu. destruct (decide (pending_up (g_ph g) = [])) as [Hp|Hp]; [|destruct (g_ph g); naive_solver].
    rewrite Hp in Hu. apply app_nil in Hu as [Hi _]. by rewrite Hi in Hb.
  - destruct (Transport.complete_read _ _ _ _ _ _ _ _ _ _) as [[r k]| |]; [|done..].
    destruct (node_becomes _ _ _ _ _) as [s|] eqn:En; [|done]. injection E as <-. eauto 10.
Qed.

Lemma read_far g l : config_ok g -> lstep serialize Far ReadDone (link_of g) = Some l -> advances g l.
Proof.
  intros G (Ho & Hph & Hbl & r & k & s & Ek & Es & ->)%read_far_inv; [|done].
  destruct g as [ph ws ns op i1 i2 d1 d2]. pose proof G as [H1 H2 H3 H4 H5 H6 H7 H8]. config_cbn. subst op.
  unfold up_left, down_left in *. rewrite client_sent in *. rewrite node_sent in *. config_cbn.
  destruct Hph as [-> | ->]; config_cbn.
  - rewrite <- (app_nil_r (frame get_challenge)) in H5.
    destruct (frame_arrived serialize parse nmax get_challenge i2 _ [] Hnmax (proj1 fits_up) H5 Hbl) as (v & -> & Ev).
    symmetry in Ev. apply app_nil in Ev as [-> Ev].
    rewrite (node_reads_frame serialize), start_hears in Ek by (done || apply fits_up). injection Ek as <- <-.
    rewrite becomes_node in Es by done. injection Es as <-.
    destruct (wire_more serialize d2 [] challenge [challenge] eq_refl H4) as [E1 E2].
    exists (Config Challenged ws (ns ++ [Auth.Unauth]) true i1 [] d1 d2). split_and!; [done| |].
    + split; unfold up_left, down_left; rewrite ?client_sent, ?node_sent; config_cbn; auto.
      * apply Forall_app. split; [done|]. by constructor.
      * lia.
      * right. destruct H6 as [[_ ?]|H6]; [done|]. by rewrite E1, app_assoc, H6.
      * intros [_ [?|?]]; done.
    + unfold weight, up_left, down_left. rewrite !client_sent, !node_sent. config_cbn. rewrite E1, !length_app. simpl. lia.
  - rewrite <- (app_nil_r (frame answer)) in H5.
    destruct (frame_arrived serialize parse nmax answer i2 _ [] Hnmax (proj2 fits_up) H5 Hbl) as (v & -> & Ev).
    symmetry in Ev. apply app_nil in Ev as [-> Ev].
    rewrite (node_reads_frame serialize), challenged_hears in Ek by (done || apply fits_up). injection Ek as <- <-.
    rewrite becomes_node in Es by done. injection Es as <-.
    exists (Config Checking ws ns true i1 [] d1 d2). split_and!; [done| |].
    + split; unfold up_left, down_left; rewrite ?client_sent, ?node_sent; config_cbn; auto.
      * naive_solver.
      * intros [_ [?|?]]; done.
    + unfold weight, up_left, down_left. rewrite !client_sent, !node_sent. config_cbn. lia.
Qed.

Lemma wrote_near g l : config_ok g -> lstep serialize Near WriteDone (link_of g) = Some l -> advances g l.
Proof.
  intros G E. destruct g as [ph ws ns op i1 i2 d1 d2]. pose proof G as [H1 H2 H3 H4 H5 H6 H7 H8]. unfold lstep, act in E.
  cbn [link_of fst snd proc] in E. config_cbn. cbn [opened writing client_side user_peer ses] in E.
  change (Session.is_open (set_writes ws (client_at ph))) with (Session.is_open (client_at ph)) in E. rewrite client_open in E.
  change (Session.writes (set_writes ws (client_at ph))) with ws in E.
  destruct H1 as [|w ws <- H1]; [done|]. case_match; [done|]. case_match; [|done]. cbn in E. injection E as <-.
  exists (Config ph ws ns op i1 i2 d1 d2). split_and!; [done|by split|]. unfold weight, up_left, down_left. cbn. lia.
Qed.

Lemma local_far g l : config_ok g -> lstep serialize Far Local (link_of g) = Some l -> advances g l.
Proof.
  intros G E. destruct g as [ph ws ns op i1 i2 d1 d2]. pose proof G as [H1 H2 H3 H4 H5 H6 H7 H8]. unfold lstep, act in E.
  cbn [link_of fst snd proc on_local node_side node_peer] in E. config_cbn. rewrite !conn_of_node in E.
  change (Auth.posted (set_io op ns (node_at ph))) with (Auth.posted (node_at ph)) in E.
  assert (ph = Checking) as ->.
  { destruct ph; try done; cbn in E; unfold decided, checking in E; by destruct b. }
  change (Auth.posted (node_at Checking)) with [Auth.auth_callback answer b] in E. cbn [node_at] in E.
  rewrite checking_runs, becomes_node in E by (unfold decided, checking; by destruct b). injection E as <-.
  unfold up_left, down_left in *. rewrite client_sent in *. rewrite node_sent in *. config_cbn.
  destruct (wire_more serialize d2 [challenge] (ack b) [challenge; ack b] eq_refl H4) as [E1 E2].
  exists (Config Verdict ws (ns ++ [Auth.Unauth]) op i1 i2 d1 d2). split_and!; [done| |].
  - split; unfold up_left, down_left; rewrite ?client_sent, ?node_sent; config_cbn; auto.
    + apply Forall_app. split; [done|]. by constructor.
    + lia.
    + right. destruct H6 as [[_ ?]|H6]; [done|]. by rewrite E1, app_assoc, H6.
    + left. destruct H7 as [?|[_ [?|?]]]; done.
    + intros _. right. by destruct ns.
  - unfold weight, up_left, down_left. rewrite !client_sent, !node_sent. config_cbn. rewrite E1, !length_app. simpl. lia.
Qed.

Lemma node_published ph : Auth.published (node_at ph) = [].
Proof. destruct ph; try done; simpl; unfold decided, checking; by destruct b. Qed.

Lemma wrote_far g l : config_ok g -> lstep serialize Far WriteDone (link_of g) = Some l -> advances g l.
Proof.
  intros G E. destruct g as [ph ws ns op i1 i2 d1 d2]. pose proof G as [H1 H2 H3 H4 H5 H6 H7 H8]. config_cbn.
  assert (exists r n ns', (op = false \/ was_successful r = true) /\ ns = n :: ns' /\
    (fun p => (Half p i2 d2, (link_of (Config ph ws ns op i1 i2 d1 d2)).1)) <$>
      node_becomes conf c x (conn_step (Auth.WriteDone r) (set_io op ns (node_at ph))) (node_sys (set_io op ns (node_at ph))) =
    Some (l.2, l.1)) as (r & n & ns' & Hr & -> & Ek).
  { unfold lstep in E. destruct (act _ _ _ _) as [[y xx]|] eqn:Ea in E; [|done]. injection E as <-. unfold act in Ea.
    cbn [link_of fst snd proc writing opened on_write node_side node_peer] in Ea. config_cbn. rewrite !conn_of_node in Ea.
    cbn [Auth.writes set_io Auth.is_open] in Ea. destruct ns as [|n ns']; [done|].
    destruct (oldest_departed _ _); cbn [length Nat.eqb] in Ea; [exists success, n, ns'; by auto|].
    destruct op; [done|]. exists (from_error_code operation_aborted), n, ns'. by auto. }
  apply Forall_cons in H2 as [<- H2]. rewrite node_wrote, becomes_node in Ek by done. injection Ek as E2 E1.
  set (op' := _ && _ && _) in *. destruct l as [l1 l2]. cbn in E1, E2. subst l1 l2.
  assert (op' = op && negb (Auth._closeAfterTransmission (node_at ph))) as Eop.
  { unfold op'. destruct Hr as [-> | ->]; [done|]. by destruct op. }
  exists (Config ph ws ns' op' i1 i2 d1 d2). split_and!; [done| |].
  - split; config_cbn; auto; rewrite Eop.
    + destruct (Auth._closeAfterTransmission (node_at ph)) eqn:Ec; [right; by apply node_closing|].
      destruct H7 as [->|?]; auto.
    + intros Hc%node_closing. rewrite Hc. left. by destruct op.
  - unfold weight, up_left, down_left. cbn. lia.
Qed.

(** A move of the user is the only one that leaves the handshake. *)
Lemma login_move g d m l : config_ok g -> lstep serialize d m (link_of g) = Some l ->
  match d, m with
  | Near, Local => exists p, user_acts (User (set_writes (g_ws g) (client_at (g_ph g))) todo0) = Some p /\
      l = (Half p (g_in1 g) (g_d1 g), (link_of g).2)
  | _, _ => advances g l
  end.
Proof.
  intros G E. destruct d, m as [n| | |].
  - by eapply flow_up.
  - by eapply read_near.
  - by eapply wrote_near.
  - unfold lstep, act in E. cbn [link_of fst snd proc inbox departed on_local client_side user_peer] in E.
    destruct (user_acts _) as [p|]; [|done]. injection E as <-. by exists p.
  - by eapply flow_down.
  - by eapply read_far.
  - by eapply wrote_far.
  - by eapply local_far.
Qed.

Lemma login_step g l : config_ok g -> steps (link_of g) l -> advances g l \/
  (exists p, user_acts (User (set_writes (g_ws g) (client_at (g_ph g))) todo0) = Some p /\
     l = (Half p (g_in1 g) (g_d1 g), (link_of g).2)).
Proof. intros G (d & m & E). apply login_move in E; [|done]. destruct d, m; auto. Qed.

Abbreviation at_rest := (at_rest serialize (A := user) (B := system)).

Lemma near_rest g : config_ok g -> at_rest (link_of g) -> g_ws g = [] /\ up_left g = [] /\
  (Session.reads (client_at (g_ph g)) = [] \/ Transport.blocked cmax (g_in1 g) = true /\ g_open g = true).
Proof.
  intros G Hr. pose proof (rest_near _ _ Hr) as H. split_and!.
  - apply (rest_written serialize) in H; [|done]. cbn in H. by destruct (g_ws g).
  - apply (rest_sent serialize) in H; [done|]. apply client_open.
  - specialize (H ReadDone). unfold act in H. cbn in H. rewrite client_open, conn_of_node in H. cbn in H.
    destruct (Session.reads (client_at (g_ph g))) eqn:Er; [by left|right]. cbn in H.
    destruct (Transport.blocked cmax (g_in1 g)) eqn:Hb; cbn in H; [destruct (g_open g); [done|]|]; exfalso.
    + destruct (session_reads_end parse cmax digest hex_encode (g_in1 g) (set_writes (g_ws g) (client_at (g_ph g))) Hb) as [rest E];
        [cbn; by rewrite Er|]. by rewrite E in H.
    + unfold session_read, Session.pop_read in H. cbn in H. rewrite Er in H.
      pose proof (Transport.read_message_view parse cmax (g_in1 g)) as V. rewrite Hb in V.
      destruct V as (ev & m & f & rest & Ef & _ & _ & V). by rewrite Ef, (proj1 (V rest)) in H.
Qed.

Lemma far_rest g : config_ok g -> at_rest (link_of g) ->
  g_ns g = [] /\ (g_open g = true -> down_left g = []) /\ g_ph g <> Checking.
Proof.
  intros G Hr. pose proof (rest_far _ _ Hr) as H. split_and!.
  - pose proof (rest_written serialize _ _ H) as Hw. cbn [link_of snd proc writing node_side node_peer] in Hw.
    rewrite conn_of_node in Hw. cbn [Auth.writes set_io] in Hw. apply length_zero_iff_nil, Hw. intros r. cbn [link_of snd proc on_write node_side node_peer].
    rewrite !conn_of_node. pose proof (ok_ns _ G) as Hn. destruct (g_ns g) as [|n ns].
    + by rewrite becomes_node.
    + apply Forall_cons in Hn as [<- _]. rewrite node_wrote. by rewrite becomes_node.
  - intros Ho. apply (rest_sent serialize) in H; [|cbn; by rewrite conn_of_node]. unfold outgoing in H. cbn in H.
    by rewrite conn_of_node in H.
  - intros Hp. specialize (H Local). unfold act in H. cbn [link_of fst snd proc on_local node_side node_peer] in H.
    rewrite Hp, !conn_of_node in H. change (Auth.posted _) with [Auth.auth_callback answer b] in H. cbn [node_at] in H.
    by rewrite checking_runs, becomes_node in H by (unfold decided, checking; by destruct b).
Qed.

(** A frame the node waits for is read. *)
Lemma far_reads g m : config_ok g -> at_rest (link_of g) -> g_open g = true -> g_in2 g = frame m ->
  fits serialize parse nmax m -> Auth.reads (node_at (g_ph g)) <> [] ->
  Auth.published (conn_step (Auth.Deliver m rnd) (set_io (g_open g) (g_ns g) (node_at (g_ph g)))) <> [].
Proof.
  intros G Hr Ho Ei Hm Hrd Hp. pose proof (rest_far _ _ Hr ReadDone) as H. unfold act in H.
  cbn [link_of fst snd proc inbox departed reading opened max_size on_read node_side node_peer client_side user_peer ses] in H.
  rewrite !conn_of_node in H. change (Session.is_open _) with (Session.is_open (client_at (g_ph g))) in H.
  rewrite client_open, Ei in H. rewrite <- (app_nil_r (frame m)) in H. rewrite (frame_ready serialize parse) in H by done.
  change (Auth.reads (set_io (g_open g) (g_ns g) (node_at (g_ph g)))) with (Auth.reads (node_at (g_ph g))) in H.
  change (Auth.is_open (set_io (g_open g) (g_ns g) (node_at (g_ph g)))) with (g_open g) in H. rewrite Ho in *.
  rewrite (node_reads_frame serialize) in H by done. rewrite becomes_node in H by (rewrite Hp; symmetry; apply node_published).
  destruct (Auth.reads (node_at (g_ph g))); [done|]. cbn in H. discriminate.
Qed.

Lemma login_rest g : config_ok g -> at_rest (link_of g) -> g_ph g = Done /\ g_ws g = [] /\ g_ns g = [].
Proof.
  intros G Hr. destruct (near_rest g G Hr) as (Hw & Hu & Hc). destruct (far_rest g G Hr) as (Hn & Hd & Hk).
  split; [|done]. pose proof (ok_up _ G) as Hup. rewrite Hu, app_nil_r in Hup.
  destruct (ok_open _ G) as [Ho|[Hbf [Hp|Hp]]]; [|destruct Hc as [Hc|[_ Hc]]|done].
  - specialize (Hd Ho). pose proof (ok_down _ G) as Hdn. rewrite Hd, app_nil_r in Hdn.
    pose proof (far_reads g) as Hf. destruct (g_ph g) eqn:Ep; try done; exfalso.
    + by apply (Hf get_challenge G Hr Ho Hup (proj1 fits_up)).
    + destruct Hdn as [[_ ?]|Hdn]; [done|]. destruct Hc as [?|[Hc _]]; [done|]. cbn [pending_down] in Hdn.
      rewrite Hdn, <- (app_nil_r (frame _)), (frame_ready _ parse) in Hc by (done || apply fits_down). done.
    + apply (Hf answer G Hr Ho Hup (proj2 fits_up)); [done|]. cbn [node_at]. by rewrite challenged_hears.
    + destruct Hdn as [[_ ?]|Hdn]; [done|]. destruct Hc as [?|[Hc _]]; [done|]. cbn [pending_down] in Hdn.
      rewrite Hdn, <- (app_nil_r (frame _)), (frame_ready _ parse) in Hc by (done || apply fits_down). done.
  - by rewrite Hp in Hc.
  - pose proof (ok_close _ G) as Hx. rewrite Hn in Hx. destruct Hx as [?|?]; [by split; auto|congruence|done].
Qed.

(** ** Schedules of a login *)

Definition start : config := Config Asked [oms] [] true [] [] 0 0.

Lemma initial_config : initial = link_of start.
Proof. reflexivity. Qed.

Lemma start_ok : config_ok start.
Proof.
  split; cbn; auto; try lia.
  - by rewrite app_nil_r.
  - intros [_ [?|?]]; done.
Qed.

Lemma login_reaches n l : todo0 = None -> nsteps steps n initial l ->
  exists g, l = link_of g /\ config_ok g /\ (n + weight g <= weight start)%nat.
Proof.
  intros Ht. revert l. induction n as [|n IH]; intros l.
  - intros Hn. inversion Hn; subst. exists start. split_and!; [apply initial_config|apply start_ok|lia].
  - intros (l' & Hn & Hs)%nsteps_inv_r. destruct (IH _ Hn) as (g & -> & G & Hw).
    destruct (login_step g l G Hs) as [(g' & -> & G' & Hw')|(p & Hp & _)].
    + exists g'. split_and!; [done|done|lia].
    + unfold user_acts in Hp. cbn in Hp. by rewrite Ht in Hp.
Qed.

(** What the client and the node hold in each phase. *)
Lemma phase_results ph :
  Session.auth_results (client_at ph) = (if decide (ph = Done) then [b] else []) /\
  Session._session_state (client_at ph) = Some (if decide (ph = Done) then if b then Session.Authd else Session.Unauth else Session.Unauth) /\
  (ph = Done -> Auth.a_dispatcher (node_at ph) <> None <-> b = true).
Proof. split_and!; destruct ph; cbn; unfold told, decided, checking; destruct b; cbn; done. Qed.

Lemma login_outcome n l : todo0 = None -> nsteps steps n initial l ->
  (n <= weight start)%nat /\
  (Session.auth_results (ses (proc l.1)) = [] \/ Session.auth_results (ses (proc l.1)) = [b]) /\
  (at_rest l ->
     Session.auth_results (ses (proc l.1)) = [b] /\
     Session._session_state (ses (proc l.1)) = Some (if b then Session.Authd else Session.Unauth) /\
     (Auth.a_dispatcher (conn_of c (proc l.2)) <> None <-> b = true) /\
     Auth.is_open (conn_of c (proc l.2)) = b).
Proof.
  intros Ht Hn. destruct (login_reaches n l Ht Hn) as (g & -> & G & Hw).
  destruct (phase_results (g_ph g)) as (R1 & R2 & R3). split_and!; [lia|cbn; rewrite R1; case_decide; auto|].
  intros Hr. destruct (login_rest g G Hr) as (Hp & _ & Hns).
  cbn [link_of fst snd proc]. rewrite conn_of_node. cbn. rewrite R1, R2, !decide_True by done. split_and!; [done|done|by apply R3|].
  pose proof (ok_close _ G) as Hx. unfold refused in Hx. rewrite Hns, Hp in Hx.
  destruct (ok_open _ G) as [Ho|[Hbf _]]; [|naive_solver]. rewrite Ho in *. destruct b; naive_solver.
Qed.

End Exchange.

(** ** Properties *)

Section Properties.
Context (serialize : message -> bytes) (parse : message_type -> bytes -> option message) (cmax nmax : Z).
Context (digest hex_encode : bytes -> bytes) (ring_key : bytes).
Context (lookup_user : bytes -> find_user_result) (conf : Settings.settings).
Context (c : Server.ptr) (rnd : bytes) (x : env) (username password : bytes) (sys0 : system).

#[local] Instance the_client : peer user := client_side parse cmax digest hex_encode.
#[local] Instance the_node : peer system := node_side parse nmax digest hex_encode ring_key lookup_user conf c rnd x.
Abbreviation sha := (sha256_hex_string digest hex_encode).
Abbreviation steps := (link_step serialize (A := user) (B := system)).
Abbreviation starting := (initial c username password).

(** C5. A login ends, with the right verdict, whatever the network does: for an enabled
    account, in every interleaving of the bytes in both directions, cut in any segments,
    with the completions of reads and writes and the posted tasks of the node, the number
    of moves is bounded; on the way the user has heard nothing or the verdict; and when no
    move is left the user has heard exactly one verdict, true when the response computed
    from the stored password hash is the one computed from the password given, and the
    node's connection is authenticated, or else refused and closed, accordingly. *)
Theorem login_every_schedule a :
  lookup_user (sha username) = FUR true None a -> user_level a <> 0 ->
  in_width 32 cmax -> in_width 32 nmax ->
  let v := bool_decide (sha (pw_hash a ++ rnd) = sha (sha password ++ rnd)) in
  Forall (fits serialize parse nmax) [get_challenge; answer digest hex_encode rnd username password] ->
  Forall (fits serialize parse cmax) [challenge rnd; ack v] ->
  exists bound, forall n l, nsteps steps n (starting None sys0) l ->
    (n <= bound)%nat /\
    (Session.auth_results (ses (proc l.1)) = [] \/ Session.auth_results (ses (proc l.1)) = [v]) /\
    (at_rest serialize l ->
       Session.auth_results (ses (proc l.1)) = [v] /\
       Session._session_state (ses (proc l.1)) = Some (if v then Session.Authd else Session.Unauth) /\
       (Auth.a_dispatcher (conn_of c (proc l.2)) <> None <-> v = true) /\
       Auth.is_open (conn_of c (proc l.2)) = v).
Proof.
  intros Hl Hlev Hc Hn v [Hu1 [Hu2 _]%Forall_cons]%Forall_cons [Hd1 [Hd2 _]%Forall_cons]%Forall_cons.
  assert (user_lookup_cb digest hex_encode rnd (sha (sha password ++ rnd)) (lookup_user (sha username)) = [v]) as Hv.
  { unfold v. rewrite Hl. unfold user_lookup_cb. simpl. rewrite (proj2 (Z.eqb_neq _ 0)) by done. simpl.
    unfold sha256_hex_string. case_decide; case_bool_decide; done. }
  eexists. intros n l H.
  exact (login_outcome serialize parse cmax nmax digest hex_encode ring_key lookup_user conf c rnd x username password
    None sys0 v Hv Hc Hn (conj Hu1 Hu2) (conj Hd1 Hd2) n l eq_refl H).
Qed.

End Properties.
(** ** A schedule *)

(** A user with the right password and one with a wrong one; the codec of [Wire]. *)
Abbreviation sample_initial pw todo := (initial 0%nat [65] pw todo sample_system).
Abbreviation sample_follow pw todo ms :=
  (follow Wire.sample_serialize (A := user) (B := system)
    (peer0 := the_client Wire.sample_parse 10485760 toy_digest toy_hex)
    (peer1 := the_node Wire.sample_parse 10485760 toy_digest toy_hex [1] Auth.sample_store Node.sample_settings 0%nat [5] sample_env)
    ms (sample_initial pw todo)).

(** Requests cut in two, the challenge byte by byte, writes that complete late. *)
Definition sample_schedule : list (side * move) :=
  [(Near, Flow 3); (Near, Flow 4); (Far, ReadDone)] ++ replicate 7 (Far, Flow 1) ++
  [(Near, ReadDone); (Near, WriteDone); (Near, Flow 7); (Far, ReadDone); (Far, WriteDone); (Far, Local); (Far, Flow 7);
   (Near, ReadDone); (Far, WriteDone); (Near, WriteDone)].

Lemma sample_logins :
  (fun l => Session.auth_results (ses (proc l.1))) <$> sample_follow [66] None sample_schedule = Some [true] /\
  (fun l => Session.auth_results (ses (proc l.1))) <$> sample_follow [67] None sample_schedule = Some [false] /\
  (fun l => Auth.is_open (conn_of 0%nat (proc l.2))) <$> sample_follow [67] None sample_schedule = Some false.
Proof. vm_compute. done. Qed.

Lemma login_every_schedule_witness : exists l, sample_follow [66] None sample_schedule = Some l /\
  (Session.auth_results (ses (proc l.1)) = [] \/ Session.auth_results (ses (proc l.1)) = [true]).
Proof.
  destruct (sample_follow [66] None sample_schedule) as [l|] eqn:E; [|exfalso; revert E; vm_compute; discriminate].
  exists l. split; [reflexivity|].
  destruct (login_every_schedule Wire.sample_serialize Wire.sample_parse 10485760 10485760 toy_digest toy_hex [1] Auth.sample_store
    Node.sample_settings 0%nat [5] sample_env [65] [66] sample_system (UA [7; 65] [65] [7; 66] 1) eq_refl) as [bound H].
  - simpl. lia.
  - split; lia.
  - split; lia.
  - repeat constructor; simpl; lia.
  - repeat constructor; simpl; lia.
  - exact (proj1 (proj2 (H _ l (follow_nsteps _ _ _ _ E)))).
Defined.

End NetworkLogin.
