(* ===== verification/NetworkPublish.v ===== *)
(** * A login and a publish over a network, in every schedule

    Continues [NetworkLogin]: the user publishes once the login succeeded, the node
    handles the message with [csauthenticated::handle_post_message] on its queues, and its
    responses travel back, or its process ends and the stream with it. *)

From Stdlib Require Import ZArith Lia Ascii String.
From stdpp Require Import base list gmap strings relations.
From S2P Require Import Prelude Uint128 Murmur Clocks MessageQueue QueueManager Endpoint Node Ring Quorum Messages Dispatcher Wire Account Auth Transport Client Login Publish EndToEnd Server System Network NetworkLogin.

Local Open Scope Z_scope.
Local Open Scope sopmq_scope.

Module NetworkPublish.
Import Messages Account Publish System Network NetworkLogin.
Abbreviation bytes := MessageQueue.bytes.

(** ** What the user is told *)

(** The handler of the publish returned. *)
Definition returns (o : outcome unit) : bool := match o with Ret _ => true | _ => false end.

(** What the callback of the user gets, when it gets anything. *)
Definition code (o : outcome unit) : PublishMessageResponse := if returns o then PMR_UNAVAILABLE else PMR_NETWORK_ERROR.

(** What matters of a schedule: whether the user has published, how many writes of the
    client have been reported complete, and, once a read of the client completed after the
    publish, whether it did before the third of those writes, that of the publish. *)
Record trace := Trace { tr_published : bool; tr_written : nat; tr_early : option bool }.

Definition note (t : trace) (mv : side * move) : trace :=
  match mv with
  | (Near, Local) => Trace true (tr_written t) (tr_early t)
  | (Near, WriteDone) => Trace (tr_published t) (S (tr_written t)) (tr_early t)
  | (Near, ReadDone) =>
    Trace (tr_published t) (tr_written t)
      (match tr_early t with
       | None => if tr_published t then Some (tr_written t <? 3)%nat else None
       | e => e
       end)
  | _ => t
  end.

Definition trace_of (ms : list (side * move)) : trace := foldl note (Trace false 0 None) ms.

(** The response, or the end of the stream, was read before the write of the request was
    reported complete. *)
Definition read_early (ms : list (side * move)) : bool := default false (tr_early (trace_of ms)).

Section Exchange.
Context (serialize : message -> bytes) (parse : message_type -> bytes -> option message) (cmax nmax : Z).
Context (digest hex_encode : bytes -> bytes) (ring_key : bytes).
Context (lookup_user : bytes -> find_user_result) (conf : Settings.settings).
Context (c : Server.ptr) (rnd : bytes) (x : env) (username password : bytes) (rq : request) (sys0 : system).

#[local] Instance client_side : peer user := user_peer parse cmax digest hex_encode.
#[local] Instance node_side : peer system := node_peer parse nmax digest hex_encode ring_key lookup_user conf c rnd x.

Abbreviation sha := (sha256_hex_string digest hex_encode).
Abbreviation client_step := (Session.step digest hex_encode).
Abbreviation conn_step := (Auth.step digest hex_encode [] ring_key lookup_user).
Abbreviation frame := (frame serialize).
Abbreviation wire := (wire serialize).
Abbreviation steps := (link_step serialize (A := user) (B := system)).
Abbreviation at_rest := (at_rest serialize (A := user) (B := system)).
Abbreviation oms := Session.on_message_sent_.
Abbreviation answer := (answer digest hex_encode rnd username password).
Abbreviation told := (told digest hex_encode rnd username password).
Abbreviation decided := (decided digest hex_encode ring_key lookup_user rnd username password true).
Abbreviation login_link := (link_of digest hex_encode ring_key lookup_user c rnd username password (Some rq) sys0 true).
Abbreviation login_ok := (config_ok serialize digest hex_encode ring_key lookup_user rnd username password true).
Abbreviation login_weight := (weight serialize digest hex_encode ring_key lookup_user rnd username password true).

(** ** The messages and the states between them *)

Definition publish_message : PublishMessage := EndToEnd.request (rq_uid rq) (rq_queue rq) (rq_store rq) (rq_ttl rq) (rq_data rq).

(** What the handler of the node makes of the publish. A handler that does not return has
    sent nothing. *)
Context (o : outcome unit) (ps : pstate).
Context (verdict : user_lookup_cb digest hex_encode rnd (sha (sha password ++ rnd)) (lookup_user (sha username)) = [true]).
Context (served : handle_post_message conf (e_now x) (e_init x) (e_shuffle x) success
  (PS (sys_heap sys0) (Server._ring (sys_server sys0)) publish_message (Quorum.quorum_logic_new []) [] 2 [] (sys_stamp_calls sys0)) =
  (o, ps)).
Context (undelivered : returns o = true \/ p_sent ps = []).
Context (Hcmax : in_width 32 cmax) (Hnmax : in_width 32 nmax).
Context (fits_up : (fits serialize parse nmax get_challenge /\ fits serialize parse nmax answer) /\
  fits serialize parse nmax (PublishMsg publish_message)).
Context (fits_down : (fits serialize parse cmax (challenge rnd) /\ fits serialize parse cmax (ack true)) /\
  Forall (fits serialize parse cmax) (p_sent ps)).

Lemma responses : Forall (EndToEnd.refusal 3) (p_sent ps).
Proof.
  pose proof (EndToEnd.handle_post_message_refuses conf (e_now x) (e_init x) (e_shuffle x) success 3
    (PS (sys_heap sys0) (Server._ring (sys_server sys0)) publish_message (Quorum.quorum_logic_new []) [] 2 [] (sys_stamp_calls sys0))) as H.
  rewrite served in H. apply H. by split.
Qed.

(** The dispatcher of the authenticated session, before and after the publish was written. *)
Definition unregistered : Dispatcher.message_dispatcher := Dispatcher.message_dispatcher_new (Some Session.on_unhandled_message_).
Definition registered : Dispatcher.message_dispatcher :=
  Dispatcher.set_handler_reply MT_PUBLISH_RESPONSE (Some (Session.response_handler (rq_cb rq))) 3 unregistered.

Definition requests : list message := [get_challenge; answer; PublishMsg publish_message].
Definition replies : list message := [challenge rnd; ack true].

(** The client has published and has not heard yet. *)
Record waits (s : Session.session) : Prop := {
  wa_reads : Session.reads s = [Session.Authd];
  wa_sent : Session.sent s = requests;
  wa_results : Session.publish_results s = [] /\ Session.auth_results s = [true];
  wa_open : Session.is_open s = true /\ Session._valid s = true;
  wa_writes : (exists ws, Session.writes s = ws ++ [Session.publish_sent 3 (rq_cb rq)] /\ Forall (eq oms) ws /\
      Session.a_dispatcher s = Some unregistered) \/
    (Session.writes s = [] /\ Session.a_dispatcher s = Some registered)
}.

(** The client has heard, [early] or not: of the response, or of the end of the stream.
    A response that comes early closes the session; the end of the stream does not. *)
Record heard (early : bool) (s : Session.session) : Prop := {
  he_reads : Session.reads s = [];
  he_sent : Session.sent s = requests;
  he_auth : Session.auth_results s = [true];
  he_result : Session.publish_results s = if early then [] else [(rq_cb rq, code o)];
  he_open : Session.is_open s = negb (early && returns o) /\ Session._valid s = negb (early && returns o)
}.

Definition unwritten (s : Session.session) : bool := negb (bool_decide (Session.writes s = [])).

(** The node has handled the publish; it waits for the next message, has seen the end of
    the stream, or has ended. *)
Record handled (k : Auth.connection) : Prop := {
  ha_reads : Auth.reads k = [Auth.Auth_] \/ Auth.reads k = [];
  ha_sent : Auth.sent k = replies ++ p_sent ps;
  ha_posted : Auth.posted k = [];
  ha_close : Auth._closeAfterTransmission k = false;
  ha_disp : Auth.a_dispatcher k = Some (Dispatcher.set_handler MT_PUBLISH (Some Auth.handle_post_message_)
    (Dispatcher.message_dispatcher_new (Some Auth.auth_unhandled_message_)));
  ha_ended : returns o = false -> Auth.reads k = [] /\ Auth.writes k = [] /\ Auth.is_open k = false
}.

Definition served_sys (k : Auth.connection) : system :=
  Sys (sys_server sys0) (<[c := k]> (if returns o then sys_conns sys0 else closed <$> sys_conns sys0))
    (p_heap ps) (p_stamp_calls ps).

(** ** The steps of the two sides *)

Lemma waits_wrote s w ws : waits s -> Session.writes s = w :: ws ->
  let s' := client_step (Session.WriteDone success) s in waits s' /\ Session.writes s' = ws.
Proof.
  intros [H1 H2 [H3 H3'] [H4 H4'] H5] Ew. destruct s as [i op v st rs ws' u p ud ad ar pr ss]. simpl in *. subst.
  destruct H5 as [(ws1 & E & Hf & ->)|[? _]]; [|done]. destruct Hf as [|w' ws1 <- Hf]; simplify_eq/=.
  - split; [|done]. split; simpl; auto.
  - split; [|done]. split; simpl; auto. left. by exists ws1.
Qed.

Lemma waits_hears s m : waits s -> EndToEnd.refusal 3 m -> returns o = true ->
  let s' := client_step (Session.Deliver m) s in heard (unwritten s) s' /\ Session.writes s' = Session.writes s.
Proof.
  intros [H1 H2 [H3 H3'] [H4 H4'] H5] [i ->] Ho. destruct s as [i' op v st rs ws' u p ud ad ar pr ss]. simpl in *. subst.
  destruct H5 as [(ws1 & -> & Hf & ->)|[-> ->]]; (split; [|done]).
  - assert (unwritten (Session.Ses i' true true requests [Session.Authd] (ws1 ++ [Session.publish_sent 3 (rq_cb rq)]) u p ud
      (Some unregistered) [true] [] ss) = true) as -> by (unfold unwritten; by destruct ws1).
    split; try done. simpl. by rewrite Ho.
  - split; try done. simpl. unfold code. by rewrite Ho.
Qed.

Lemma waits_ends s : waits s -> returns o = false ->
  let s' := client_step (Session.ReadError (from_error_code Wire.end_of_file)) s in
  heard (unwritten s) s' /\ Session.writes s' = Session.writes s.
Proof.
  intros [H1 H2 [H3 H3'] [H4 H4'] H5] Ho. destruct s as [i' op v st rs ws' u p ud ad ar pr ss]. simpl in *. subst.
  destruct H5 as [(ws1 & -> & Hf & ->)|[-> ->]]; (split; [|done]).
  - assert (unwritten (Session.Ses i' true true requests [Session.Authd] (ws1 ++ [Session.publish_sent 3 (rq_cb rq)]) u p ud
      (Some unregistered) [true] [] ss) = true) as -> by (unfold unwritten; by destruct ws1).
    split; try done. simpl. by rewrite Ho.
  - split; try done. simpl. unfold code. by rewrite Ho.
Qed.

Lemma heard_wrote e s : heard e s -> heard e (client_step (Session.WriteDone success) s) /\
  Session.writes (client_step (Session.WriteDone success) s) = tail (Session.writes s).
Proof.
  intros [H1 H2 H3 H4 H5]. destruct s as [i op v st rs [|[|j cb] ws] u p ud [ad|] ar pr ss]; simpl in *; by (split; [split|]).
Qed.

Lemma handled_wrote k r : handled k -> let k' := conn_step (Auth.WriteDone r) k in
  handled k' /\ Auth.writes k' = tail (Auth.writes k) /\ Auth.reads k' = Auth.reads k /\ Auth.published k' = Auth.published k /\
  (was_successful r = true -> Auth.is_open k' = Auth.is_open k).
Proof.
  intros [H1 H2 H3 H4 H5 H6]. destruct k as [i op st rs [|w ws] d t ch cl ad po pb]; [simpl in *; by split; [split|]|].
  assert (returns o = true) as Ho by (destruct (returns o); [done|by destruct (H6 eq_refl) as (_ & ? & _)]).
  destruct w; simpl in *; subst; unfold Auth.u_handle_write_result, Auth.a_handle_write_result; destruct (was_successful r);
    simpl; (split; [split; simpl; (done || by rewrite Ho)|done]).
Qed.

Lemma handled_fails k r : handled k -> was_successful r = false -> Auth.reads k <> [] ->
  let k' := conn_step (Auth.ReadError r) k in
  handled k' /\ Auth.reads k' = [] /\ Auth.writes k' = Auth.writes k /\ Auth.published k' = Auth.published k.
Proof.
  intros [[H1|H1] H2 H3 H4 H5 H6] Hr Hne; [|done].
  assert (returns o = true) as Ho by (destruct (returns o); [done|by destruct (H6 eq_refl) as (? & _)]).
  destruct k as [i op st rs ws d t ch cl ad po pb]. simpl in *. subst.
  unfold Auth.a_handle_read_result. rewrite Hr. simpl. rewrite Auth.foldl_cancel. simpl. split_and!; try done.
  split; simpl; auto. by rewrite Ho.
Qed.

Lemma served_conn k : conn_of c (served_sys k) = k.
Proof. unfold conn_of. simpl. by rewrite lookup_insert_eq. Qed.

Lemma served_becomes k k' : Auth.published k' = Auth.published k ->
  node_becomes conf c x k' (served_sys k) = Some (served_sys k').
Proof.
  intros E. rewrite node_becomes_quiet by (by rewrite served_conn). unfold served_sys. simpl. by rewrite insert_insert_eq.
Qed.

(** The node reads the publish and handles it: it responds, or ends. *)
Lemma serves ns : let k0 := set_io true ns decided in
  exists k, node_becomes conf c x (conn_step (Auth.Deliver (PublishMsg publish_message) rnd) k0) (node_sys c sys0 k0) = Some (served_sys k) /\
    handled k /\ (returns o = true -> Auth.reads k = [Auth.Auth_] /\ Auth.is_open k = true) /\
    (length (Auth.reads k) <= 1)%nat /\ (length (Auth.writes k) <= length ns + length (p_sent ps))%nat.
Proof.
  intros k0. set (k1 := conn_step _ k0).
  assert (Auth.published k1 = [publish_message] /\ Auth._next_id k1 = 2 /\ Auth.reads k1 = [Auth.Auth_] /\ Auth.is_open k1 = true /\
    Auth.writes k1 = ns /\ Auth.sent k1 = replies /\ Auth.posted k1 = [] /\ Auth._closeAfterTransmission k1 = false /\
    Auth.a_dispatcher k1 = Some (Dispatcher.set_handler MT_PUBLISH (Some Auth.handle_post_message_)
      (Dispatcher.message_dispatcher_new (Some Auth.auth_unhandled_message_)))) as (E1 & E2 & E3 & E4 & E5 & E6 & E7 & E8 & E9)
    by (by split_and!).
  unfold node_becomes, System.settle. rewrite conn_of_node, E1, E2. cbn [drop Auth.published].
  change (drop (length (Auth.published k0)) [publish_message]) with [publish_message]. cbn [node_sys sys_heap sys_server sys_stamp_calls].
  rewrite served. unfold served_sys, node_sys. cbn [sys_conns sys_server]. rewrite insert_insert_eq.
  destruct (respond_rest ps k1) as (Hu & Ha & Hc & Hp & Hb & Hr). destruct (respond_io ps k1) as (Ho & Hcl & Hw).
  rewrite E3 in Hr. rewrite E4 in Ho. rewrite E5 in Hw. destruct (returns o) eqn:Er.
  - exists (respond ps k1). split; [by destruct o|]. rewrite Hr, Ho, Hw. cbn [length]. split_and!; [|done|lia|lia].
    split; rewrite ?Hr, ?respond_sent, ?Hp, ?Hcl, ?Ha, ?E6, ?E7, ?E8, ?E9; auto; congruence.
  - exists (closed (respond ps k1)). unfold ended. cbn [sys_conns sys_server sys_heap sys_stamp_calls].
    split; [by destruct o; rewrite ?fmap_insert|]. cbn [closed Auth.reads Auth.writes length]. split_and!; [|done|lia|lia].
    split; cbn [closed Auth.reads Auth.sent Auth.posted Auth._closeAfterTransmission Auth.a_dispatcher Auth.writes Auth.is_open];
      rewrite ?respond_sent, ?Hcl, ?Ha, ?E6, ?E8, ?E9; auto.
Qed.

(** ** The invariant *)

Inductive pphase := Sent_ | Served_ | Heard_ (early : bool).

#[local] Instance pphase_eq_dec : EqDecision pphase.
Proof. solve_decision. Defined.

Abbreviation plink := (half user * half system)%type.

Definition has_heard (ph : pphase) : bool := match ph with Heard_ _ => true | _ => false end.

(** [Sent_]: the publish is on its way; [Served_]: the responses are, or the node has
    ended; [Heard_]: the client has read one, or the end of the stream. *)
Definition node_in (ph : pphase) (s : system) : Prop :=
  match ph with
  | Sent_ => exists ns, s = node_sys c sys0 (set_io true ns decided) /\ Forall (eq Auth.Unauth) ns
  | Served_ => exists k, s = served_sys k /\ handled k /\ (returns o = true -> Auth.reads k = [Auth.Auth_] /\ Auth.is_open k = true)
  | Heard_ _ => exists k, s = served_sys k /\ handled k
  end.

Record in_phase (ph : pphase) (l : plink) : Prop := {
  ip_todo : todo (proc l.1) = None;
  ip_client : match ph with Heard_ e => heard e (ses (proc l.1)) | _ => waits (ses (proc l.1)) end;
  ip_node : node_in ph (proc l.2);
  ip_up : inbox l.2 ++ outgoing serialize l.1 = match ph with Sent_ => frame (PublishMsg publish_message) | _ => [] end;
  ip_departed : ph = Sent_ -> (departed l.2 <= length (wire replies))%nat;
  ip_down : match ph with
    | Sent_ => inbox l.1 ++ outgoing serialize l.2 = []
    | Served_ => inbox l.1 ++ outgoing serialize l.2 = wire (p_sent ps)
    | Heard_ _ => returns o = true -> p_sent ps <> []
    end
}.

Definition pcost (ph : pphase) : nat :=
  match ph with Sent_ => 2 + length (wire (p_sent ps)) + length (p_sent ps) | Served_ => 1 | Heard_ _ => 0 end.

Definition pweight (ph : pphase) (l : plink) : nat :=
  length (outgoing serialize l.1) + length (outgoing serialize l.2) + writing (proc l.1) + writing (proc l.2) +
  reading (proc l.2) + pcost ph.

Definition client_read (mv : side * move) : bool := match mv with (Near, ReadDone) => true | _ => false end.

(** The move after which the client has heard is its next read. *)
Definition hears (mv : side * move) (ph ph' : pphase) (s : Session.session) : Prop :=
  if has_heard ph then ph' = ph
  else if client_read mv then ph' = Heard_ (unwritten s) else has_heard ph' = false.

Definition moves_on (mv : side * move) (ph : pphase) (l l' : plink) : Prop :=
  exists ph', in_phase ph' l' /\ (pweight ph' l' < pweight ph l)%nat /\ hears mv ph ph' (ses (proc l.1)).

Lemma hears_same mv ph s : client_read mv = false -> hears mv ph ph s.
Proof. intros H. unfold hears. destruct (has_heard ph) eqn:E; [done|]. by rewrite H. Qed.

Lemma client_requests ph l : in_phase ph l -> Session.sent (ses (proc l.1)) = requests.
Proof. intros I. pose proof (ip_client _ _ I) as H. destruct ph; [apply (wa_sent _ H)..|apply (he_sent _ _ H)]. Qed.

Lemma client_is_open ph l : in_phase ph l -> has_heard ph = false -> Session.is_open (ses (proc l.1)) = true.
Proof. intros I Hp. pose proof (ip_client _ _ I) as H. destruct ph; [apply (wa_open _ H)..|done]. Qed.

(** Bytes leave one side. *)
Lemma flow_spec {A B} `{!peer A} `{!peer B} n (y : half A) (z : half B) r :
  act serialize (Flow n) y z = Some r -> (0 < n <= length (outgoing serialize y))%nat /\ opened (proc y) = true /\
  r = (Half (proc y) (inbox y) (departed y + n), Half (proc z) (inbox z ++ take n (outgoing serialize y)) (departed z)).
Proof.
  unfold act. destruct (opened (proc y)); [|done]. simpl. destruct (Nat.ltb_spec 0 n); [|done].
  destruct (Nat.leb_spec n (length (outgoing serialize y))); [|done]. by intros [= <-].
Qed.

Lemma outgoing_flow {A} `{!peer A} (p : A) i d n :
  outgoing serialize (Half p i (d + n)) = drop n (outgoing serialize (Half p i d)).
Proof. unfold outgoing. simpl. by rewrite drop_drop. Qed.

Lemma outgoing_inbox {A} `{!peer A} (p : A) i j d : outgoing serialize (Half p i d) = outgoing serialize (Half p j d).
Proof. done. Qed.

Ltac link_cbn := cbn [fst snd proc inbox departed ses todo] in *.

Lemma pub_flow_near ph l l' n : in_phase ph l -> lstep serialize Near (Flow n) l = Some l' -> moves_on (Near, Flow n) ph l l'.
Proof.
  intros I (Hn & Ho & ->)%flow_spec. destruct l as [[u i1 d1] [s i2 d2]]. destruct I as [H1 H2 H3 H4 H5 H6]. link_cbn.
  exists ph. split_and!; [| |by apply hears_same].
  - split; link_cbn; auto. rewrite outgoing_flow, <- app_assoc, take_drop. done.
  - unfold pweight. link_cbn. rewrite outgoing_flow, length_drop, (outgoing_inbox s _ i2). lia.
Qed.

Lemma pub_flow_far ph l l' n : in_phase ph l -> lstep serialize Far (Flow n) l = Some l' -> moves_on (Far, Flow n) ph l l'.
Proof.
  intros I E. unfold lstep in E. destruct (act _ _ _ _) as [r|] eqn:Ea; [|done]. apply flow_spec in Ea as (Hn & Ho & ->).
  injection E as <-. destruct l as [[u i1 d1] [s i2 d2]]. destruct I as [H1 H2 H3 H4 H5 H6]. link_cbn.
  exists ph. split_and!; [| |by apply hears_same].
  - split; link_cbn; auto.
    + intros ->. destruct H3 as (ns & -> & _). specialize (H5 eq_refl). unfold outgoing in Hn. cbn [sent_of node_side node_peer proc departed] in Hn.
      rewrite conn_of_node, length_drop in Hn. change (Auth.sent _) with replies in Hn. lia.
    + rewrite outgoing_flow, <- app_assoc, take_drop. by destruct ph.
  - unfold pweight. link_cbn. rewrite outgoing_flow, length_drop, (outgoing_inbox u _ i1). lia.
Qed.

(** What a completed read needs of the two ends. *)
Lemma read_spec {A B} `{!peer A} `{!peer B} (y : half A) (z : half B) r :
  act serialize ReadDone y z = Some r -> reading (proc y) <> 0%nat /\
  (opened (proc y) = false /\ (exists p, on_read_abort (from_error_code operation_aborted) (proc y) = Some p /\
     r = (Half p (inbox y) (departed y), z)) \/
   opened (proc y) = true /\ (Transport.blocked (max_size (proc y)) (inbox y) = false \/ opened (proc z) = false) /\
   exists q, on_read (inbox y) (proc y) = Some q /\ r = (Half q.2 q.1 (departed y), z)).
Proof.
  unfold act. destruct (Nat.eqb_spec (reading (proc y)) 0); [done|]. destruct (opened (proc y)); simpl; intros E; (split; [done|]).
  - right. split; [done|]. destruct (_ && _) eqn:Hb; [done|]. apply andb_false_iff in Hb. split; [done|].
    destruct (on_read _ _) as [q|]; [|done]. injection E as <-. eauto.
  - left. split; [done|]. destruct (on_read_abort _ _) as [p|]; [|done]. injection E as <-. eauto.
Qed.

Lemma node_open_before ph s : node_in ph s -> has_heard ph = false -> ph = Sent_ \/ returns o = true ->
  opened s = true /\ reading s = 1%nat.
Proof.
  intros H Hp Ho. destruct ph; [| |done].
  - destruct H as (ns & -> & _). cbn. by rewrite conn_of_node.
  - destruct Ho as [?|Ho]; [done|]. destruct H as (k & -> & _ & Hk). destruct (Hk Ho) as [Hr Hop]. cbn. by rewrite served_conn, Hr.
Qed.

(** The client has heard: its next state. *)
Lemma hears_moves_on ph s s' r i1 d1 sy i2 d2 :
  in_phase ph (Half (User s None) i1 d1, Half sy i2 d2) -> has_heard ph = false -> ph <> Sent_ ->
  (returns o = true -> p_sent ps <> []) -> heard (unwritten s) s' -> Session.writes s' = Session.writes s ->
  moves_on (Near, ReadDone) ph (Half (User s None) i1 d1, Half sy i2 d2) (Half (User s' None) r d1, Half sy i2 d2).
Proof.
  intros I Hp Hs Hm Hh Hw. pose proof (client_requests _ _ I) as Hq. destruct I as [H1 H2 H3 H4 H5 H6]. link_cbn.
  assert (outgoing serialize (Half (User s' None) r d1) = outgoing serialize (Half (User s None) i1 d1)) as Eo.
  { unfold outgoing. cbn [sent_of client_side user_peer proc ses departed]. by rewrite (he_sent _ _ Hh), Hq. }
  exists (Heard_ (unwritten s)). split_and!; [|..].
  - split; link_cbn; try done; [|rewrite Eo; by destruct ph]. destruct ph; try done. destruct H3 as (k & -> & Hk & _). by exists k.
  - unfold pweight. link_cbn. rewrite Eo. cbn [writing client_side user_peer ses]. rewrite Hw. destruct ph; try done. cbn [pcost]. lia.
  - unfold hears. by rewrite Hp.
Qed.

Lemma pub_read_near ph l l' : in_phase ph l -> lstep serialize Near ReadDone l = Some l' -> moves_on (Near, ReadDone) ph l l'.
Proof.
  intros I (Hr & Hx)%read_spec. destruct l as [[[s td] i1 d1] [sy i2 d2]]. pose proof I as [H1 H2 H3 H4 H5 H6]. link_cbn. subst td.
  destruct (has_heard ph) eqn:Hp; [destruct ph; try done; cbn in Hr; by rewrite (he_reads _ _ H2) in Hr|].
  pose proof (client_is_open _ _ I Hp) as Ho. link_cbn.
  assert (waits s) as Hw by (by destruct ph). cbn [opened client_side user_peer ses] in Hx. rewrite Ho in Hx.
  destruct Hx as [[? _]|(_ & Hb & [q s'] & E & ->)]; [done|]. link_cbn. cbn [max_size client_side user_peer] in Hb.
  assert (Session.reads s <> []) as Hrd by (by rewrite (wa_reads _ Hw)).
  cbn [on_read client_side user_peer ses todo] in E. destruct (returns o) eqn:Er.
  - destruct (node_open_before _ _ H3 Hp) as [Hno _]; [auto|]. rewrite Hno in Hb. destruct Hb as [Hb|?]; [|done].
    destruct ph; [apply app_nil in H6 as [-> _]; done| |done]. pose proof responses as Hm. pose proof (proj2 fits_down) as Hf.
    destruct (p_sent ps) as [|m ms] eqn:Em; [cbn in H6; apply app_nil in H6 as [-> _]; done|].
    apply Forall_cons in Hm as [Hm _]. apply Forall_cons in Hf as [Hf _].
    change (wire (m :: ms)) with (frame m ++ wire ms) in H6.
    destruct (frame_arrived serialize parse cmax m i1 _ _ Hcmax Hf H6 Hb) as (v & -> & Ev).
    rewrite (session_reads_frame serialize) in E by done. destruct (waits_hears s m Hw Hm Er) as [Hh Hhw].
    remember (client_step (Session.Deliver m) s) as s1 eqn:Es1. clear Es1. injection E as <- <-.
    apply hears_moves_on; try done. by rewrite Em.
  - assert (p_sent ps = []) as Em by (destruct undelivered; congruence).
    assert (i1 = []) as -> by (destruct ph; [|rewrite Em in H6|done]; by apply app_nil in H6 as [-> _]).
    destruct (decide (ph = Sent_)) as [->|Hs].
    { destruct (node_open_before _ _ H3 Hp) as [Hno _]; [auto|]. rewrite Hno in Hb. by destruct Hb. }
    destruct (session_reads_end parse cmax digest hex_encode [] s eq_refl Hrd) as [rest E']. rewrite E' in E.
    destruct (waits_ends s Hw Er) as [Hh Hhw].
    remember (client_step (Session.ReadError (from_error_code Wire.end_of_file)) s) as s1 eqn:Es1. clear Es1. injection E as <- <-.
    apply hears_moves_on; try done. congruence.
Qed.

Lemma node_reads_end k : Auth.reads k <> [] ->
  Transport.complete_read parse nmax digest hex_encode [] ring_key lookup_user rnd [] k =
    Ret ([], conn_step (Auth.ReadError (from_error_code Wire.end_of_file)) k).
Proof.
  intros Hr. unfold Transport.complete_read. destruct (Auth.pop_read k) as [[own k0]|] eqn:Ep.
  - change (Wire.read_message parse nmax []) with (Ret (Wire.on_read_error (from_error_code Wire.end_of_file), [] : bytes)).
    cbn [obind fst snd]. do 2 f_equal. exact (Transport.read_event_step digest hex_encode [] ring_key lookup_user rnd own
      (Wire.on_read_error (from_error_code Wire.end_of_file)) None k k0 (Transport.read_fails (from_error_code Wire.end_of_file) eq_refl) Ep).
  - unfold Auth.pop_read in Ep. by destruct (Auth.reads k).
Qed.

(** The node sees the end of the stream of a client that closed. *)
Lemma fails_moves_on e u i1 d1 k i2 d2 i2' k' :
  in_phase (Heard_ e) (Half u i1 d1, Half (served_sys k) i2 d2) -> handled k' -> Auth.reads k' = [] -> Auth.reads k <> [] ->
  Auth.writes k' = Auth.writes k -> i2' = [] ->
  moves_on (Far, ReadDone) (Heard_ e) (Half u i1 d1, Half (served_sys k) i2 d2) (Half u i1 d1, Half (served_sys k') i2' d2).
Proof.
  intros [H1 H2 H3 H4 H5 H6] Hk' Hr' Hr Hw ->. link_cbn. apply app_nil in H4 as [-> H4]. exists (Heard_ e). split_and!; [| |by apply hears_same].
  - split; link_cbn; auto. by exists k'.
  - destruct H3 as (k0 & E & Hk). apply (f_equal (conn_of c)) in E. rewrite !served_conn in E. subst k0.
    unfold pweight, outgoing. link_cbn. cbn [sent_of writing reading node_side node_peer]. rewrite !served_conn.
    rewrite (ha_sent _ Hk), (ha_sent _ Hk'), Hw, Hr'. destruct (Auth.reads k); [done|]. simpl. lia.
Qed.

Lemma pub_read_far ph l l' : in_phase ph l -> lstep serialize Far ReadDone l = Some l' -> moves_on (Far, ReadDone) ph l l'.
Proof.
  intros I E. unfold lstep in E. destruct (act _ _ _ _) as [r|] eqn:Ea; [|done]. apply read_spec in Ea as (Hr & Hx).
  injection E as <-. destruct l as [[u i1 d1] [sy i2 d2]]. pose proof I as [H1 H2 H3 H4 H5 H6]. link_cbn.
  destruct (has_heard ph) eqn:Hp.
  - destruct ph as [| |e]; try done. destruct H3 as (k & -> & Hk). apply app_nil in H4 as [-> H4]. cbn [reading node_side node_peer] in Hr. rewrite served_conn in Hr.
    assert (Auth.reads k <> []) as Hne by (intros E; by rewrite E in Hr).
    destruct Hx as [(_ & p & E & ->)|(_ & _ & [q p] & E & ->)]; link_cbn;
      cbn [on_read on_read_abort node_side node_peer] in E; rewrite served_conn in E.
    + destruct (handled_fails k (from_error_code operation_aborted) Hk eq_refl Hne) as (Hk' & Hr' & Hw & Hpb).
      rewrite served_becomes in E by done. injection E as <-. by apply fails_moves_on.
    + destruct (handled_fails k (from_error_code Wire.end_of_file) Hk eq_refl Hne) as (Hk' & Hr' & Hw & Hpb).
      rewrite node_reads_end, served_becomes in E by done. injection E as <- <-. by apply fails_moves_on.
  - pose proof (client_is_open _ _ I Hp) as Ho. link_cbn.
    assert (ph = Sent_ \/ returns o = true) as Hso.
    { destruct ph; [by left|right|done]. destruct H3 as (k & -> & Hk & _). destruct (returns o) eqn:Er; [done|].
      cbn [reading node_side node_peer] in Hr. rewrite served_conn in Hr. destruct (ha_ended _ Hk Er) as (E & _). by rewrite E in Hr. }
    destruct (node_open_before _ _ H3 Hp Hso) as [Hno Hnr].
    change (opened u) with (Session.is_open (ses u)) in Hx. rewrite Ho, Hno in Hx.
    destruct Hx as [[? _]|(_ & [Hb|?] & [q s'] & E & ->)]; [done| |done]. link_cbn. cbn [max_size node_side node_peer] in Hb.
    destruct ph; [|apply app_nil in H4 as [-> _]; done|done]. destruct H3 as (ns & -> & Hns).
    rewrite <- (app_nil_r (frame _)) in H4.
    destruct (frame_arrived serialize parse nmax _ i2 _ _ Hnmax (proj2 fits_up) H4 Hb) as (v & -> & Ev).
    symmetry in Ev. apply app_nil in Ev as [-> Ev].
    cbn [on_read node_side node_peer] in E. rewrite conn_of_node, (node_reads_frame serialize) in E by (done || apply fits_up).
    destruct (serves ns) as (k & Ek & Hk & Hko & Hkr & Hkw). rewrite Ek in E. injection E as <- <-.
    apply app_nil in H6 as [-> H6]. specialize (H5 eq_refl).
    assert (outgoing serialize (Half (served_sys k) [] d2) = wire (p_sent ps)) as Eo.
    { unfold outgoing in *. cbn [sent_of node_side node_peer proc departed] in *. rewrite conn_of_node in H6. rewrite served_conn, (ha_sent _ Hk).
      change (Auth.sent _) with replies in H6. unfold Network.wire in *. rewrite bind_app, drop_app_le by done. by rewrite H6. }
    exists Served_. split_and!; [| |done].
    + split; link_cbn; auto. by exists k.
    + unfold pweight. link_cbn. rewrite Eo. cbn [writing reading node_side node_peer]. rewrite served_conn, conn_of_node.
      cbn in *. lia.
Qed.

(** What a completed write needs. *)
Lemma write_spec {A B} `{!peer A} `{!peer B} (y : half A) (z : half B) r :
  act serialize WriteDone y z = Some r -> writing (proc y) <> 0%nat /\
  exists res p, (res = success \/ oldest_departed serialize y = false /\ opened (proc y) = false) /\
    on_write res (proc y) = Some p /\ r = (Half p (inbox y) (departed y), z).
Proof.
  unfold act. destruct (Nat.eqb_spec (writing (proc y)) 0); [done|]. destruct (oldest_departed serialize y).
  - destruct (on_write success (proc y)) as [p|] eqn:E; [|done]. intros [= <-]. split; [done|]. exists success, p. by auto.
  - destruct (opened (proc y)); [done|]. destruct (on_write _ (proc y)) as [p|] eqn:E; [|done]. intros [= <-].
    split; [done|]. exists (from_error_code operation_aborted), p. by auto.
Qed.

Lemma pub_wrote_near ph l l' : in_phase ph l -> lstep serialize Near WriteDone l = Some l' -> moves_on (Near, WriteDone) ph l l'.
Proof.
  intros I (Hw & res & p & Hres & E & ->)%write_spec. pose proof (client_requests _ _ I) as Hs.
  pose proof (client_is_open _ _ I) as Ho. destruct l as [[[s td] i1 d1] [sy i2 d2]].
  pose proof I as [H1 H2 H3 H4 H5 H6]. link_cbn. subst td.
  assert (res = success) as ->.
  { destruct Hres as [?|[Hd Hc]]; [done|]. cbn in Hc. destruct (has_heard ph) eqn:Hp; [|by rewrite Ho in Hc].
    destruct ph; try done. apply app_nil in H4 as [_ H4]. by rewrite departed_all in Hd. }
  cbn [on_write client_side user_peer ses todo] in E. cbn [writing client_side user_peer ses] in Hw.
  set (s' := client_step (Session.WriteDone success) s) in E.
  assert (match ph with Heard_ e => heard e s' | _ => waits s' end /\ length (Session.writes s) = S (length (Session.writes s'))) as [Hs' Hl].
  { destruct (Session.writes s) as [|w ws] eqn:Ew; [done|]. destruct ph.
    1,2: destruct (waits_wrote s w ws H2 Ew) as [Hx Hy]; split; [done|]; unfold s'; by rewrite Hy.
    destruct (heard_wrote _ s H2) as [Hx Hy]. split; [done|]. unfold s'. by rewrite Hy, Ew. }
  clearbody s'. injection E as <-. assert (Session.sent s' = requests) as Hs1 by (destruct ph; [apply (wa_sent _ Hs')..|apply (he_sent _ _ Hs')]).
  assert (outgoing serialize (Half (User s' None) i1 d1) = outgoing serialize (Half (User s None) i1 d1)) as Eo.
  { unfold outgoing. cbn. by rewrite Hs, Hs1. }
  exists ph. split_and!; [| |by apply hears_same].
  - split; link_cbn; auto. by rewrite Eo.
  - unfold pweight. link_cbn. rewrite Eo. cbn [writing client_side user_peer ses]. rewrite Hl. lia.
Qed.

Lemma pub_wrote_far ph l l' : in_phase ph l -> lstep serialize Far WriteDone l = Some l' -> moves_on (Far, WriteDone) ph l l'.
Proof.
  intros I E. unfold lstep in E. destruct (act _ _ _ _) as [r|] eqn:Ea; [|done].
  apply write_spec in Ea as (Hw & res & p & Hres & Ep & ->). injection E as <-.
  destruct l as [[u i1 d1] [sy i2 d2]]. pose proof I as [H1 H2 H3 H4 H5 H6]. link_cbn.
  destruct (decide (ph = Sent_)) as [->|Hp].
  - destruct H3 as (ns & -> & Hns). cbn [on_write writing node_side node_peer] in Ep, Hw. rewrite conn_of_node in Ep, Hw.
    assert (res = success) as ->. { destruct Hres as [?|[_ Hc]]; [done|]. cbn in Hc. by rewrite conn_of_node in Hc. }
    destruct Hns as [|n ns <- Hns]; [done|]. rewrite node_wrote, becomes_node in Ep by done.
    injection Ep as <-. cbn [was_successful andb negb Auth._closeAfterTransmission]. 
    change (Auth._closeAfterTransmission decided) with false. cbn [negb andb]. exists Sent_.
    assert (forall ms i, outgoing serialize (Half (node_sys c sys0 (set_io true ms decided)) i d2) = drop d2 (wire replies)) as Eo.
    { intros ms i. unfold outgoing. cbn [sent_of node_side node_peer proc departed]. by rewrite conn_of_node. }
    split_and!; [| |done].
    + split; link_cbn; auto; [by exists ns|]. rewrite Eo in *. done.
    + unfold pweight. link_cbn. rewrite !Eo. cbn [writing reading node_side node_peer]. rewrite !conn_of_node. cbn. lia.
  - assert (exists k, sy = served_sys k /\ handled k) as (k & -> & Hk) by (destruct ph; [done|destruct H3 as (k & ? & ? & _); eauto|done]).
    cbn [on_write writing opened node_side node_peer] in Ep, Hw, Hres. rewrite served_conn in Ep, Hw, Hres.
    destruct (handled_wrote k res Hk) as (Hk' & Hkw & Hkr & Hkp & Hko). rewrite served_becomes in Ep by done.
    set (k' := conn_step (Auth.WriteDone res) k) in *. clearbody k'. injection Ep as <-.
    assert (forall i, outgoing serialize (Half (served_sys k') i d2) = outgoing serialize (Half (served_sys k) i d2)) as Eo.
    { intros i. unfold outgoing. cbn [sent_of node_side node_peer proc departed]. by rewrite !served_conn, (ha_sent _ Hk), (ha_sent _ Hk'). }
    exists ph. split_and!; [| |by apply hears_same].
    + split; link_cbn; auto; [|by rewrite Eo]. destruct ph; [done| |by exists k'].
      destruct H3 as (k0 & Ek & _ & Hx). apply (f_equal (conn_of c)) in Ek. rewrite !served_conn in Ek. subst k0.
      exists k'. split_and!; [done|done|]. intros Er. destruct (Hx Er) as [Hr Ho]. rewrite Hkr. split; [done|].
      destruct Hres as [->|[_ Hc]]; [by rewrite Hko|congruence].
    + unfold pweight. link_cbn. rewrite Eo. cbn [writing reading node_side node_peer]. rewrite !served_conn, Hkr, Hkw.
      destruct (Auth.writes k); [done|]. simpl. lia.
Qed.

Lemma pub_step ph d m l l' : in_phase ph l -> lstep serialize d m l = Some l' -> moves_on (d, m) ph l l'.
Proof.
  intros I E. destruct d, m as [n| | |].
  - by eapply pub_flow_near.
  - by eapply pub_read_near.
  - by eapply pub_wrote_near.
  - exfalso. unfold lstep, act in E. cbn in E. unfold user_acts in E. by rewrite (ip_todo _ _ I) in E.
  - by eapply pub_flow_far.
  - by eapply pub_read_far.
  - by eapply pub_wrote_far.
  - exfalso. unfold lstep, act in E. cbn [fst snd proc on_local node_side node_peer] in E.
    assert (Auth.posted (conn_of c (proc l.2)) = []) as Hp; [|by rewrite Hp in E].
    pose proof (ip_node _ _ I) as Hn. destruct ph; [destruct Hn as (ns & -> & _); by rewrite conn_of_node|..];
      destruct Hn as (k & -> & Hk & _) || destruct Hn as (k & -> & Hk); rewrite served_conn; apply Hk.
Qed.

(** ** From the login to the publish *)

Definition extra : nat := 3 + length (frame (PublishMsg publish_message)) + pcost Sent_.

Lemma told_state ws : Session.auth_results (set_writes ws (told true)) = [true] /\
  Session._session_state (set_writes ws (told true)) = Some Session.Authd /\ Session.sent (told true) = [get_challenge; answer].
Proof. split_and!; reflexivity. Qed.

Lemma decided_state ns : let k := set_io true ns decided in
  Auth.sent k = replies /\ Auth.reads k = [Auth.Auth_] /\ Auth.writes k = ns.
Proof. split_and!; reflexivity. Qed.

Definition publishing (ws : list Session.write_cb) : Session.session :=
  Session.authenticated_publish (rq_uid rq) (rq_queue rq) (rq_store rq) (rq_ttl rq) (rq_data rq) (rq_cb rq) (set_writes ws (told true)).

Lemma publishing_waits ws : Forall (eq oms) ws ->
  waits (publishing ws) /\ Session.writes (publishing ws) = ws ++ [Session.publish_sent 3 (rq_cb rq)].
Proof. intros H. split; [|reflexivity]. split; [reflexivity..|split; reflexivity|split; reflexivity|]. left. exists ws. split_and!; [reflexivity|done|reflexivity]. Qed.

Lemma client_results ph ws :
  Session.auth_results (set_writes ws (client_at digest hex_encode rnd username password true ph)) =
    match ph with Done => [true] | _ => [] end.
Proof. by destruct ph. Qed.

Lemma user_acts_spec s : user_acts (User s (Some rq)) =
  match Session.auth_results s with
  | [true] => match Session._session_state s with
    | Some Session.Authd => Some (User (Session.authenticated_publish (rq_uid rq) (rq_queue rq) (rq_store rq) (rq_ttl rq) (rq_data rq) (rq_cb rq) s) None)
    | _ => None end
  | _ => None end.
Proof.
  unfold user_acts, Session.publish_message. cbn [todo ses]. destruct (Session.auth_results s) as [|[] [|]]; try reflexivity.
  by destruct (Session._session_state s) as [[]|].
Qed.

Lemma user_acts_told ws : user_acts (User (set_writes ws (told true)) (Some rq)) = Some (User (publishing ws) None).
Proof. destruct (told_state ws) as (E1 & E2 & _). by rewrite user_acts_spec, E1, E2. Qed.

Lemma user_waits ph ws : ph <> Done ->
  user_acts (User (set_writes ws (client_at digest hex_encode rnd username password true ph)) (Some rq)) = None.
Proof. intros H. rewrite user_acts_spec, client_results. by destruct ph. Qed.

Lemma client_done : client_at digest hex_encode rnd username password true Done = told true.
Proof. reflexivity. Qed.

Lemma user_publishes ph ws p :
  user_acts (User (set_writes ws (client_at digest hex_encode rnd username password true ph)) (Some rq)) = Some p ->
  ph = Done /\ p = User (publishing ws) None.
Proof.
  destruct (decide (ph = Done)) as [->|Hp]; [|by rewrite user_waits].
  rewrite client_done, user_acts_told. intros E. split; [reflexivity|]. congruence.
Qed.

Lemma pub_start g p : login_ok g ->
  user_acts (User (set_writes (g_ws g) (client_at digest hex_encode rnd username password true (g_ph g))) (Some rq)) = Some p ->
  let l := (Half p (g_in1 g) (g_d1 g), (login_link g).2) in
  in_phase Sent_ l /\ (pweight Sent_ l < login_weight g + extra)%nat.
Proof.
  intros [H1 H2 H3 H4 H5 H6 H7 H8] [Hp ->]%user_publishes. destruct g as [ph ws ns op i1 i2 d1 d2].
  unfold up_left, down_left, weight in *. cbn [g_ph g_ws g_ns g_in1 g_in2 g_d1 g_d2 g_open] in *. subst ph.
  destruct H6 as [[? _]|H6]; [done|]. destruct H7 as [->|[? _]]; [|done]. rewrite client_done, (proj2 (proj2 (told_state ws))) in *.
  unfold up_left, down_left. cbn [g_ph g_d1 g_d2 node_at pending_up pending_down] in *.
  destruct (publishing_waits ws H1) as [Hw Hws]. destruct (decided_state ns) as (D1 & D2 & D3).
  change (Auth.sent (NetworkLogin.decided _ _ _ _ _ _ _ _)) with (Auth.sent (set_io true ns decided)) in *. rewrite D1 in *.
  destruct (wire_more serialize d1 [get_challenge; answer] (PublishMsg publish_message) requests eq_refl H3) as [E1 E2].
  assert (outgoing serialize (Half (User (publishing ws) None) i1 d1) = drop d1 (wire [get_challenge; answer]) ++ frame (PublishMsg publish_message)) as Eo.
  { unfold outgoing. cbn [sent_of client_side user_peer proc ses departed]. by rewrite (wa_sent _ Hw). }
  assert (outgoing serialize (Half (node_sys c sys0 (set_io true ns decided)) i2 d2) = drop d2 (wire replies)) as Eo2.
  { unfold outgoing. cbn [sent_of node_side node_peer proc departed]. by rewrite conn_of_node, D1. }
  split.
  - split; cbn [link_of fst snd proc inbox departed g_ph g_ns g_open g_in1 g_in2 g_d1 g_d2 node_at ses todo]; auto.
    + by exists ns.
    + by rewrite Eo, app_assoc, H5.
    + by rewrite Eo2.
  - unfold pweight, extra.
    cbn [link_of fst snd proc inbox departed g_ph g_ws g_ns g_open g_in1 g_in2 g_d1 g_d2 node_at].
    rewrite Eo, Eo2, length_app. cbn [writing reading client_side node_side user_peer node_peer ses]. rewrite conn_of_node, Hws, length_app, D2, D3.
    cbn [length cost]. rewrite client_done, (proj2 (proj2 (told_state ws))). lia.
Qed.

Lemma unwritten_spec s : unwritten s = (0 <? length (Session.writes s))%nat.
Proof. unfold unwritten. by destruct (Session.writes s). Qed.

(** The schedule so far has led to phase [ph]. *)
Definition traced (ph : pphase) (t : trace) : Prop :=
  tr_published t = true /\ tr_early t = match ph with Heard_ e => Some e | _ => None end.

Lemma traced_move d m ph ph' t s : written (tr_written t) s -> Session.sent s = requests -> (d, m) <> (Near, Local) ->
  traced ph t -> hears (d, m) ph ph' s -> traced ph' (note t (d, m)).
Proof.
  intros Hw Hs Hl [H1 H2] H. unfold written in Hw. rewrite Hs in Hw. simpl in Hw. unfold hears in H. unfold traced, note.
  destruct d, m as [n| | |]; cbn [client_read] in H; destruct ph as [| |e]; cbn [has_heard] in H; try (subst ph');
    rewrite ?H1, ?H2; simpl; try done; try (split; [done|]; by destruct ph').
  all: split; [done|]; f_equal; rewrite unwritten_spec; apply eq_bool_prop_intro; rewrite !Is_true_true, !Nat.ltb_lt; lia.
Qed.

Lemma pub_reaches ms l : follow serialize ms (initial c username password (Some rq) sys0) = Some l ->
  written (tr_written (trace_of ms)) (ses (proc l.1)) /\
  ((exists g, l = login_link g /\ login_ok g /\ (length ms + login_weight g <= login_weight start)%nat /\
      tr_published (trace_of ms) = false /\ tr_early (trace_of ms) = None) \/
   (exists ph, in_phase ph l /\ (length ms + pweight ph l <= login_weight start + extra)%nat /\ traced ph (trace_of ms))).
Proof.
  revert l. induction ms as [|[d m] ms IH] using rev_ind; intros l.
  - intros [= <-]. split; [done|]. left. exists start. split_and!; [apply initial_config|by apply start_ok|simpl; lia|done|done].
  - intros (l1 & Hf & Hs)%follow_snoc. destruct (IH _ Hf) as [Hwr H]. cbn [fst snd] in Hs.
    unfold trace_of. rewrite foldl_snoc, length_app. fold (trace_of ms). set (t := trace_of ms) in *. split.
    { pose proof (written_move serialize parse cmax digest hex_encode _ d m _ _ Hs Hwr) as Hw. by destruct d, m. }
    assert (d = Near /\ m = Local \/ (d, m) <> (Near, Local)) as Hl by (destruct d, m; auto; right; congruence).
    cbn [length]. destruct H as [(g & -> & G & Hw & Hp & He)|(ph & I & Hw & Ht)].
    + pose proof (login_move serialize parse cmax nmax digest hex_encode ring_key lookup_user conf c rnd x username password (Some rq) sys0
        true verdict Hcmax Hnmax (proj1 fits_up) (proj1 fits_down) g d m l G Hs) as M. destruct Hl as [[-> ->]|Hl].
      * destruct M as (p & Hp' & ->). right. exists Sent_.
        destruct (pub_start g p G Hp') as [I Hx]. split_and!; [done|lia|]. by split.
      * left. assert (NetworkLogin.advances serialize digest hex_encode ring_key lookup_user c rnd username password (Some rq) sys0 true g l)
          as (g' & -> & G' & Hw') by (by destruct d, m).
        exists g'. split_and!; [done|done|lia|..]; destruct d, m; simpl; rewrite ?He, ?Hp; done.
    + right. destruct (pub_step ph d m l1 l I Hs) as (ph' & I' & Hw' & Hh). exists ph'. split_and!; [done|lia|].
      eapply traced_move; [exact Hwr|by eapply client_requests| |done|done].
      destruct Hl as [[-> ->]|Hl]; [|done]. exfalso. unfold lstep, act in Hs. cbn in Hs. unfold user_acts in Hs.
      by rewrite (ip_todo _ _ I) in Hs.
Qed.

(** ** At rest *)

Lemma user_local (u : user) i d (z : half system) :
  act serialize Local (Half u i d) z = (fun p => (Half p i d, z)) <$> user_acts u.
Proof. reflexivity. Qed.

Lemma login_client g : (login_link g).1 =
  Half (User (set_writes (g_ws g) (client_at digest hex_encode rnd username password true (g_ph g))) (Some rq)) (g_in1 g) (g_d1 g).
Proof. reflexivity. Qed.

Lemma login_goes_on g : login_ok g -> ~ at_rest (login_link g).
Proof.
  intros G Hr. destruct (login_rest serialize parse cmax nmax digest hex_encode ring_key lookup_user conf c rnd x username password
    (Some rq) sys0 true verdict Hcmax Hnmax (proj1 fits_up) (proj1 fits_down) g G Hr) as (Hp & _ & _).
  pose proof (rest_near _ _ Hr Local) as H. rewrite login_client, user_local, Hp, client_done, user_acts_told in H. discriminate.
Qed.

Lemma pub_rest ph l : in_phase ph l -> at_rest l -> has_heard ph = true \/ ph = Served_ /\ returns o = true /\ p_sent ps = [].
Proof.
  intros I Hr. destruct (has_heard ph) eqn:Hp; [by left|right].
  pose proof (client_is_open _ _ I Hp) as Ho. pose proof (rest_near _ _ Hr) as Hnear. pose proof (rest_far _ _ Hr) as Hfar.
  pose proof (rest_sent serialize _ _ Hnear Ho) as Eu.
  pose proof (ip_up _ _ I) as Hu. pose proof (ip_down _ _ I) as Hd. rewrite Eu, app_nil_r in Hu.
  destruct ph; [exfalso| |done].
  - destruct (node_open_before _ _ (ip_node _ _ I) Hp) as [Hno Hnr]; [by left|].
    specialize (Hfar ReadDone). unfold act in Hfar. rewrite Hnr, Hno, Hu in Hfar. cbn [Nat.eqb negb] in Hfar.
    cbn [max_size node_side node_peer] in Hfar. rewrite <- (app_nil_r (frame _)), (frame_ready serialize parse) in Hfar by (done || apply fits_up).
    destruct (ip_node _ _ I) as (ns & En & _). rewrite En in Hfar. cbn [andb on_read node_side node_peer] in Hfar.
    rewrite conn_of_node, (node_reads_frame serialize) in Hfar by (done || apply fits_up).
    destruct (serves ns) as (k & Ek & _). by rewrite Ek in Hfar.
  - split; [done|]. pose proof (ip_client _ _ I) as Hw. cbn in Hw.
    specialize (Hnear ReadDone). unfold act in Hnear. cbn [reading opened max_size on_read client_side user_peer] in Hnear.
    rewrite Ho, (wa_reads _ Hw) in Hnear. cbn [length Nat.eqb negb] in Hnear.
    assert (Session.reads (ses (proc l.1)) <> []) as Hrd by (by rewrite (wa_reads _ Hw)).
    destruct (returns o) eqn:Er.
    + split; [done|]. destruct (node_open_before _ _ (ip_node _ _ I) Hp) as [Hno Hnr]; [by right|].
      rewrite (rest_sent serialize _ _ Hfar Hno), app_nil_r in Hd. rewrite Hd in Hnear.
      destruct (p_sent ps) as [|m ms] eqn:Em; [done|exfalso]. pose proof (proj2 fits_down) as Hf.
      apply Forall_cons in Hf as [Hf _]. change (wire (m :: ms)) with (frame m ++ wire ms) in Hnear.
      rewrite (frame_ready serialize parse), (session_reads_frame serialize) in Hnear by done. done.
    + exfalso. assert (p_sent ps = []) as Em by (destruct undelivered; congruence). rewrite Em in Hd. apply app_nil in Hd as [Hd _].
      destruct (ip_node _ _ I) as (k & En & Hk & _). destruct (ha_ended _ Hk Er) as (_ & _ & Hc).
      rewrite Hd in Hnear. assert (opened (proc l.2) = false) as Hop by (rewrite En; cbn; by rewrite served_conn).
      rewrite Hop, andb_false_r in Hnear.
      by destruct (session_reads_end parse cmax digest hex_encode [] (ses (proc l.1)) eq_refl Hrd) as [rest E]; rewrite E in Hnear.
Qed.

(** Where the two sides end. *)
Definition publish_ends (early : bool) (l : plink) : Prop :=
  let s := ses (proc l.1) in
  Session.auth_results s = [true] /\ todo (proc l.1) = None /\ Session.sent s = requests /\
  Auth.sent (conn_of c (proc l.2)) = replies ++ p_sent ps /\
  match o with
  | Ret _ =>
    sys_heap (proc l.2) = p_heap ps /\
    (Session.publish_results s, Session._valid s, Session.is_open s) =
      (if decide (p_sent ps = []) then ([], true, true)
       else if early then ([], false, false) else ([(rq_cb rq, PMR_UNAVAILABLE)], true, true))
  | _ =>
    Auth.is_open (conn_of c (proc l.2)) = false /\
    (Session.publish_results s, Session._valid s, Session.is_open s) =
      ((if early then [] else [(rq_cb rq, PMR_NETWORK_ERROR)]), true, true)
  end.

Lemma publish_outcome ms l : follow serialize ms (initial c username password (Some rq) sys0) = Some l ->
  (length ms <= login_weight start + extra)%nat /\
  (Session.publish_results (ses (proc l.1)) = [] \/ Session.publish_results (ses (proc l.1)) = [(rq_cb rq, code o)]) /\
  (at_rest l -> publish_ends (read_early ms) l).
Proof.
  intros (_ & [(g & -> & G & Hw & _)|(ph & I & Hw & _ & Ht)])%pub_reaches.
  - split_and!; [lia| |by intros ?%login_goes_on]. left. cbn. by destruct (g_ph g).
  - split_and!; [lia| |].
    { pose proof (ip_client _ _ I) as H. destruct ph as [| |[]]; [left; apply (wa_results _ H)..|left|right]; apply (he_result _ _ H). }
    intros Hr. pose proof (ip_client _ _ I) as Hc. pose proof (ip_node _ _ I) as Hn. pose proof (ip_down _ _ I) as Hd.
    unfold publish_ends, read_early. rewrite Ht. destruct (pub_rest _ _ I Hr) as [Hp|(-> & Ho & Hm)].
    + destruct ph as [| |e]; try done. destruct Hn as (k & -> & Hk). rewrite served_conn.
      destruct Hc as [Hc1 Hc2 Hc3 Hc4 [Hc5 Hc6]]. rewrite Hc4, Hc5, Hc6. split_and!; [done|apply I|done|apply Hk|].
      unfold code in *. pose proof (ha_ended _ Hk) as He. destruct o; simpl in *; [|by rewrite andb_false_r; split; [apply He|destruct e]..].
      rewrite decide_False by auto. by destruct e.
    + destruct Hn as (k & -> & Hk & _). rewrite served_conn. split_and!; [apply (wa_results _ Hc)|apply I|apply (wa_sent _ Hc)|apply Hk|].
      destruct o; try done. rewrite decide_True by done. split; [done|]. destruct (wa_open _ Hc) as [-> ->].
      by rewrite (proj1 (wa_results _ Hc)).
Qed.

End Exchange.
(** ** Properties *)

Section Properties.
Context (serialize : message -> bytes) (parse : message_type -> bytes -> option message) (cmax nmax : Z).
Context (digest hex_encode : bytes -> bytes) (ring_key : bytes).
Context (lookup_user : bytes -> find_user_result) (conf : Settings.settings).
Context (c : Server.ptr) (rnd : bytes) (x : env) (username password : bytes) (rq : request) (sys0 : system).

#[local] Instance the_client : peer user := client_side parse cmax digest hex_encode.
#[local] Instance the_node : peer system := node_side parse nmax digest hex_encode ring_key lookup_user conf c rnd x.
Abbreviation sha := (sha256_hex_string digest hex_encode).
Abbreviation steps := (link_step serialize (A := user) (B := system)).

(** C7. A login and a publish, whatever the network does: when the password is right, and
    the node's handler of the publish returns, or ends the process before it has sent
    anything, then every schedule of bytes, completions and tasks, from the call of
    authenticate on, has a bounded length, and the user's callback is never called twice,
    nor with another code than UNAVAILABLE, or NETWORK_ERROR when the process ended. When no
    move is left, the login has succeeded, the three requests have been sent once each and
    nothing else, and the node has sent its replies. If the handler returned, the queues are
    as it left them, and the user has been told UNAVAILABLE on a session that is open, except
    that nothing was heard when the node sent no response, and that the session has been
    closed as violated, without a call of the user, exactly when the response was read before
    the write of the request was reported complete. If the process ended, the user has been
    told NETWORK_ERROR, or nothing when the end of the stream was read before that; the
    session stays open. *)
Theorem publish_every_schedule a o ps :
  lookup_user (sha username) = FUR true None a -> user_level a <> 0 -> pw_hash a = sha password ->
  in_width 32 cmax -> in_width 32 nmax ->
  handle_post_message conf (e_now x) (e_init x) (e_shuffle x) success
    (PS (sys_heap sys0) (Server._ring (sys_server sys0)) (publish_message rq) (Quorum.quorum_logic_new []) [] 2 [] (sys_stamp_calls sys0)) =
    (o, ps) ->
  returns o = true \/ p_sent ps = [] ->
  Forall (fits serialize parse nmax) (requests digest hex_encode rnd username password rq) ->
  Forall (fits serialize parse cmax) (replies rnd ++ p_sent ps) ->
  exists bound, forall ms l, follow serialize ms (initial c username password (Some rq) sys0) = Some l ->
    let s := ses (proc l.1) in
    (length ms <= bound)%nat /\
    (Session.publish_results s = [] \/ Session.publish_results s = [(rq_cb rq, code o)]) /\
    (at_rest serialize l ->
       Session.auth_results s = [true] /\ todo (proc l.1) = None /\
       Session.sent s = requests digest hex_encode rnd username password rq /\
       Auth.sent (conn_of c (proc l.2)) = replies rnd ++ p_sent ps /\
       match o with
       | Ret _ =>
         sys_heap (proc l.2) = p_heap ps /\
         (Session.publish_results s, Session._valid s, Session.is_open s) =
           (if decide (p_sent ps = []) then ([], true, true)
            else if read_early ms then ([], false, false) else ([(rq_cb rq, PMR_UNAVAILABLE)], true, true))
       | _ =>
         Auth.is_open (conn_of c (proc l.2)) = false /\
         (Session.publish_results s, Session._valid s, Session.is_open s) =
           ((if read_early ms then [] else [(rq_cb rq, PMR_NETWORK_ERROR)]), true, true)
       end).
Proof.
  intros Hl Hlev Hpw Hc Hn Hs Ho Hu [[Hd1 [Hd2 _]%Forall_cons]%Forall_cons Hd3]%Forall_app.
  apply Forall_cons in Hu as [Hu1 [Hu2 [Hu3 _]%Forall_cons]%Forall_cons].
  assert (user_lookup_cb digest hex_encode rnd (sha (sha password ++ rnd)) (lookup_user (sha username)) = [true]) as Hv.
  { rewrite Hl. unfold user_lookup_cb. simpl. rewrite (proj2 (Z.eqb_neq _ 0)) by done. simpl.
    unfold sha256_hex_string in *. by rewrite Hpw, decide_True. }
  eexists. intros ms l H.
  exact (publish_outcome serialize parse cmax nmax digest hex_encode ring_key lookup_user conf c rnd x username password
    rq sys0 o ps Hv Hs Ho Hc Hn (conj (conj Hu1 Hu2) Hu3) (conj (conj Hd1 Hd2) Hd3) ms l H).
Qed.

End Properties.

(** ** Schedules *)

Definition sample_request : request := Request (replicate 16 9) [113; 117; 101; 117; 101] true 60 [1; 2; 3] 4.

(** After the login, the publish is written, handled and answered. *)
Definition exchange (late : bool) : list (side * move) :=
  sample_schedule ++ [(Near, Local); (Near, Flow 7); (Far, ReadDone); (Far, Flow 10)] ++
  if late then [(Near, ReadDone); (Near, WriteDone)] else [(Near, WriteDone); (Near, ReadDone)].

Abbreviation sample_end late := (sample_follow [66] (Some sample_request) (exchange late)).

Lemma sample_publishes :
  (fun l => (Session.publish_results (ses (proc l.1)), Session._valid (ses (proc l.1)))) <$> sample_end false =
    Some ([(4%nat, PMR_UNAVAILABLE)], true) /\
  (fun l => waiting (sys_heap (proc l.2)) 1%nat) <$> sample_end false = Some [[]].
Proof. vm_compute. done. Qed.

(** The handler of a response is registered only when the write of the request is
    reported complete: a response that is read before that closes the session. *)
Lemma early_response_closes :
  (fun l => (Session.publish_results (ses (proc l.1)), Session._valid (ses (proc l.1)), Session.is_open (ses (proc l.1))))
    <$> sample_end true = Some ([], false, false).
Proof. vm_compute. done. Qed.

Definition sample_handled : outcome unit * pstate :=
  handle_post_message Node.sample_settings 0 zero_clock (fun l => l) success
    (PS (sys_heap sample_system) (Server._ring (sys_server sample_system)) (publish_message sample_request)
       (Quorum.quorum_logic_new []) [] 2 [] []).

Lemma sample_handled_ok : sample_handled.1 = Ret tt /\
  p_sent sample_handled.2 = [PublishResponseMessage (Ident 3 3) PR_UNAVAILABLE; PublishResponseMessage (Ident 4 3) PR_UNAVAILABLE].
Proof. vm_compute. done. Qed.

(** ** The process of a lone server *)

(** A process as [main] makes it, whose ring holds only its own node: it handles a publish
    by following a null pointer. *)
Definition lone_system : system :=
  Sys (Server.start Server.sample_server.1) ∅ Server.sample_server.2 [].

Definition lone_handled : outcome unit * pstate :=
  handle_post_message Node.sample_settings 0 zero_clock (fun l => l) success
    (PS (sys_heap lone_system) (Server._ring (sys_server lone_system)) (publish_message sample_request)
       (Quorum.quorum_logic_new []) [] 2 [] []).

Lemma lone_handled_ok : lone_handled.1 = Undef /\ p_sent lone_handled.2 = [].
Proof. vm_compute. done. Qed.

(** The user hears of a network error, unless the end of the stream is read too early. *)
Abbreviation lone_end late :=
  (follow Wire.sample_serialize (A := user) (B := system)
    (peer0 := the_client Wire.sample_parse 10485760 toy_digest toy_hex)
    (peer1 := the_node Wire.sample_parse 10485760 toy_digest toy_hex [1] Auth.sample_store Node.sample_settings 0%nat [5] sample_env)
    (sample_schedule ++ [(Near, Local); (Near, Flow 7); (Far, ReadDone)] ++
     if late then [(Near, ReadDone); (Near, WriteDone)] else [(Near, WriteDone); (Near, ReadDone)])
    (initial 0%nat [65] [66] (Some sample_request) lone_system)).

Lemma lone_publishes :
  (fun l => Session.publish_results (ses (proc l.1))) <$> lone_end false = Some [(4%nat, PMR_NETWORK_ERROR)] /\
  (fun l => Session.publish_results (ses (proc l.1))) <$> lone_end true = Some [].
Proof. vm_compute. done. Qed.

(** ** Witnesses *)

(** Both a handler that returns and the process of a lone server. *)
Lemma publish_every_schedule_witness :
  (exists l, sample_end false = Some l /\
     (Session.publish_results (ses (proc l.1)) = [] \/ Session.publish_results (ses (proc l.1)) = [(4%nat, PMR_UNAVAILABLE)])) /\
  (exists l, lone_end false = Some l /\
     (Session.publish_results (ses (proc l.1)) = [] \/ Session.publish_results (ses (proc l.1)) = [(4%nat, PMR_NETWORK_ERROR)])).
Proof.
  split.
  - destruct (sample_end false) as [l|] eqn:E; [|exfalso; revert E; vm_compute; discriminate].
    exists l. split; [reflexivity|].
    destruct (publish_every_schedule Wire.sample_serialize Wire.sample_parse 10485760 10485760 toy_digest toy_hex [1] Auth.sample_store
      Node.sample_settings 0%nat [5] sample_env [65] [66] sample_request sample_system (UA [7; 65] [65] [7; 66] 1) (Ret tt) sample_handled.2 eq_refl)
      as [bound H].
    + simpl. lia.
    + reflexivity.
    + split; lia.
    + split; lia.
    + change (sample_handled = (Ret tt, sample_handled.2)). rewrite <- (proj1 sample_handled_ok). apply surjective_pairing.
    + left. reflexivity.
    + repeat constructor; simpl; lia.
    + rewrite (proj2 sample_handled_ok). repeat constructor; simpl; lia.
    + exact (proj1 (proj2 (H _ l E))).
  - destruct (lone_end false) as [l|] eqn:E; [|exfalso; revert E; vm_compute; discriminate].
    exists l. split; [reflexivity|].
    destruct (publish_every_schedule Wire.sample_serialize Wire.sample_parse 10485760 10485760 toy_digest toy_hex [1] Auth.sample_store
      Node.sample_settings 0%nat [5] sample_env [65] [66] sample_request lone_system (UA [7; 65] [65] [7; 66] 1) Undef lone_handled.2 eq_refl)
      as [bound H].
    + simpl. lia.
    + reflexivity.
    + split; lia.
    + split; lia.
    + change (lone_handled = (Undef, lone_handled.2)). rewrite <- (proj1 lone_handled_ok). apply surjective_pairing.
    + right. exact (proj2 lone_handled_ok).
    + repeat constructor; simpl; lia.
    + rewrite (proj2 lone_handled_ok). repeat constructor; simpl; lia.
    + exact (proj1 (proj2 (H _ l E))).
Defined.

End NetworkPublish.
